(* ===== verification/_CoqProject ===== *)
-Q . S2P
Prelude.v
PyStr.v
Permits.v
PermitsFacts.v
Base62.v
Identifiers.v
Authz.v
Scopes.v
Graph.v
PyVal.v
Expr.v
PyOps.v
Eval.v
EvalFacts.v
Masks.v
DslTypes.v
Storage.v
StorageFacts.v
DslScopes.v
DslBuild.v
Layout.v
LayoutFacts.v
GraphEdit.v
GraphEditFacts.v
GraphEditInv.v
GraphRequests.v
Restore.v
RestoreFacts.v
DslScopesFacts.v
Coro.v
SchedState.v
Scheduler.v
SchedRun.v
SchedulerInv.v
SchedulerFacts.v
SchedOps.v
SchedLoops.v
Gather.v
SchedPlain.v
SchedProgress.v
Interact.v
WfErrors.v
WfEvents.v
WfPermit.v
WfPermitFacts.v
WfChild.v
WfChildFacts.v
WfTask.v
WfTaskFacts.v
WfRun.v
WfRunFacts.v
Activities.v
ActivitiesFacts.v
Executor.v
ExecutorFacts.v
ExecLoop.v
