(* ===== verification/Prelude.v ===== *)
(** * Verification of the Tracecat workflow engine

    Tracecat (the Python package under [src/tracecat]) is an automation platform:
    a user draws a workflow of actions, the platform turns the drawing into a
    definition, validates it, and runs it as a workflow whose scheduler executes actions as
    their dependencies complete, fans out over collections, loops, and evaluates
    template expressions against the results so far; an executor resolves each action in
    the registry and runs it with its secrets.  This library models the core of that
    engine and proves it correct.

    ** The parts and where they are modelled

    Shared:
    - [Prelude] (this file): results of fallible code, loops over fallible bodies,
      generic lemmas and tactics; [PyStr], [PyVal], [PyOps]: Python strings, JSON-like
      values (floats are IEEE binary64, integers unbounded), operators;
      [Base62] also has the decimal printing and parsing of integers; [Graph]: Kahn's
      algorithm and the two worklist searches, with correctness and fuel.

    From a drawing to a definition ([tracecat/dsl]):
    - [DslTypes]: the data model ([enums.py], [schemas.py], [types.py], the stored objects
      of [storage/object.py], dependency strings and stream identifiers).
    - [DslBuild]: [build_action_statements_from_actions] ([common.py]), the statements of the
      actions reachable from the trigger.
    - [GraphEdit], [GraphEditFacts], [GraphEditInv]: the rows of a draft and what edits them: the
      batches of the graph editor with their versions ([workflow/graph/service.py]), the
      requests on single actions ([workflow/actions/service.py]), the reconciliation
      ([workflow/management/management.py]), the graph that is shown ([dsl/view.py]);
      [GraphRequests]: sequences of all these requests.
    - [Layout], [LayoutFacts]: the automatic layout ([workflow/management/layout.py]);
      [Restore], [RestoreFacts]: the rows of a definition, and restoring one over a draft.
    - [DslScopes], [DslScopesFacts]: [DSLInput.validate_structure] and the scope analysis behind
      it ([common.py]): scatter/gather and loops delimit nested scopes.

    Execution ([tracecat/dsl/scheduler.py], [tracecat/dsl/action.py]):
    - [Coro]: coroutines as resumptions; code between two [await]s is atomic, and at an
      [await] the environment answers, or throws, after any other coroutine ran.
    - [SchedState]: the scheduler's tables and bookkeeping, the operations that do not suspend;
      [Scheduler]: the handlers as coroutines and the main loop as the step relation [step]
      on configurations [Sys]; [SchedRun]: a deterministic driver that exhibits runs.
    - [SchedulerInv], [SchedulerFacts]: invariants of all reachable configurations;
      [SchedOps]: exact effect of the bookkeeping operations; [SchedLoops]: a run of the end
      of a loop among other tasks; [SchedPlain],
      [SchedProgress]: complete correctness, progress and termination.
    - [Gather]: the result slots of a gather and [finalize_gather_activity].

    The workflow around the scheduler ([tracecat/dsl/workflow.py], [tracecat/dsl/action.py]):
    - [Interact]: programs that may run forever against an environment, as interaction
      trees with exceptions at the leaves; traces, monitors, and the judgements [total] and
      [partial] over them, with one rule per construct.
    - [WfErrors]: Temporal failures as a heap of objects with causes (cycles included),
      the walks along them, the error clauses of a task; [WfEvents]: the calls into Temporal.
    - [WfPermit], [WfPermitFacts]: waiting for a permit, heartbeats, the clean-up that survives a
      cancellation; [WfChild], [WfChildFacts]: loops of child workflows;
      [WfTask], [WfTaskFacts]: [execute_task] with its timers, permit and [finally] clause;
      [WfRun], [WfRunFacts]: [DSLWorkflow.run] and the error handler workflow.
    - [Activities], [ActivitiesFacts]: the activities that materialise contexts, evaluate
      expressions, prepare scatters and loops of child workflows.

    The executor ([tracecat/executor], [tracecat/secrets]):
    - [Masks]: the masking of secrets in results ([secrets/common.py]).
    - [Executor]: [service.py] and [registry_resolver.py]: resolving an action in the registry
      lock, collecting its secrets and variables, templates as sequences of steps,
      [invoke_once], and [dispatch_action] whose loop is the step relation [loop_step] on the
      workers' programs; [ExecutorFacts]: invocations; [ExecLoop]: loops.

    Data ([tracecat/storage], [tracecat/expressions]):
    - [Storage], [StorageFacts]: handles to externalised objects, chunked collections, the
      blob store with its download cache, the storage backends.
    - [Expr]: the template pattern, traversals and the extraction of references;
      [Eval], [EvalFacts]: the evaluator of parse trees, JSONPath results, templated objects.

    Access and limits ([tracecat/authz], [tracecat/auth], [tracecat/tiers]):
    - [Authz]: scope matching and [require_scope]; [Scopes]: the preset roles and the legacy backfill.
    - [Permits], [PermitsFacts]: effective limits and entitlements, the permit service
      and its semaphore on Redis sorted sets, with interleaved clients.
    - [Base62], [Identifiers]: the code of [base62.py] and the typed identifiers of
      [tracecat/identifiers] in their short, legacy and UUID spellings, with the patterns
      that parse the identifiers of executions.

    ** How the parts interact

    [GraphEdit] edits the rows [DslBuild] reads, and [RestoreFacts] closes the circle: a definition
    written back to rows by [Restore], placed by [Layout] through a batch of [GraphEdit], and
    built again by [DslBuild].  [DslBuild] produces statements whose dependencies [DslScopes] accepts; the constructor of
    the scheduler ([SchedState.init]) reuses the scope analysis of [DslScopes] and builds its
    graph from the same dependency strings; [SchedPlain] relates the scheduler's
    in-degrees to the Kahn's algorithm ([Graph]) that the validation runs.  The scheduler resolves
    an expression in a context it restricts to the references [Expr] extracts:
    [EvalFacts] proves that this context is enough for the evaluator.  A scatter stores its
    collection through [Storage] and hands one handle to every stream; [Gather]
    composes the slots the scheduler fills with the finalisation, down to the blobs.
    The scheduler's event [EvExecute] is answered by [WfTask.execute_task], which asks
    [Permits] for a permit, starts child workflows with [WfChild], and reports failures by
    [WfErrors]; [Activities] prepares what those consume, with [Eval] and [Storage]; the executor
    activity evaluates arguments with [Eval] in a context materialised by [Activities],
    checks scopes with [Authz] and masks results with [Masks].

    ** What the theorems show

    - Scheduling: every action of a definition without scatter, gather and loops runs exactly
      once, after its dependencies, under every interleaving ([plain_execution]); such a definition
      has no infinite execution ([plain_terminates]); no scheduler that has not returned is stuck
      ([no_deadlock]); a loop goes on only under the next index and below its limit
      ([loop_iterations_bounded]), and no recorded index reaches it ([loop_indices_bounded]); success is only
      returned when nothing failed ([return_sound]); at most [max_pending_tasks] tasks are in
      flight ([pending_bounded]); a lookup returns the nearest enclosing result
      ([stream_lookup_nearest]); the exact effect of queueing, joining, failing and starting
      the next iteration ([queue_tasks_spec], [join_decision], [error_path_spec], [loop_reset_spec]).
    - Workflows: a task takes its permit before the action, and in the end has released it and
      recorded its result or failure ([task_protocol]); a run works only under its permit,
      releases it in the end, succeeds only when no task failed, and
      hands its handler exactly the failed tasks ([run_protocol]); both with one exception,
      a clean-up whose wait fails or is cancelled twice, after which the permit may be kept
      ([double_cancellation_keeps_permit]); waiting for a permit ends, and how
      ([permit_wait_terminates]); the limit on executions is kept, by the counter all tasks
      increment, under every interleaving ([execution_limit_enforced]); a loop of children starts every item once, within its
      window, and returns results in order ([child_loop]), and each child gets the
      inputs and configuration of its own item ([prepared_loop]); exactly what
      a failed task raises and records, for every class of exception ([error_boundary]).
    - Executor: a parallel loop gives what its items give one by one, under every interleaving
      ([dispatched_loop]), and ends ([loop_terminates]); only implementations pinned by the
      lock run, custom ones only for entitled organisations ([executes_pinned]); results
      contain no secret ([invocation_masks]); how an invocation fails ([invocation_errors]).
    - Definitions: the scope analysis terminates, detects exactly the cycles and builds a
      tree; edges respect scopes; loop regions synchronise; dependency strings and
      stream identifiers parse back; what the editor draws is what is built
      ([built_definition_closed]).
    - Drafts: a batch of edits is one transaction that refines operations on a set of nodes and
      a set of keyed edges ([graph_batches_refine]); after any
      requests the graph can be shown and repaired, and requests that name existing sources
      by their stored ids leave no dangling or repeated edge ([graph_stays_consistent], with
      [created_dangling] and [spelling_left_dangling] otherwise); versions detect lost updates
      among batches and moves ([lost_updates_detected]), but not those of requests on single
      actions ([unversioned_deletion]); the reconciliation removes exactly the stale edges
      ([reconcile_exact]); a restored definition with references of
      single-underscore form builds again to itself, but for what the
      rows do not keep ([restore_then_build], [double_underscore_renamed]); layouts end and place every action once, below
      what it depends on ([layout_places]).
    - Data: a stored collection reads back, page by page and item by item, also when its items
      are externalised; scattering and gathering is the identity up to the error
      strategy, in index order; insertion at a path changes that path only; how a
      string with templates evaluates; the extracted context is sufficient.
    - Access: a granted scope satisfies exactly what it matches as a pattern of stars, and the
      implied scopes ([scope_matches_glob]); the decorators let through exactly the
      calls the role satisfies; live permits never exceed an organization's cap and a live
      holder never loses its permit; identifiers read back from every spelling and reject
      everything else with a [ValueError] ([identifiers_read_back], [new_typed],
      [execution_ids_parse]).

    ** Parameters, bounds and fuel

    Third-party code is a parameter: the Lark parser ([lib_parse], [el_parse]), JSONPath
    ([el_jsonpath]), pydantic's coercions ([lax_int] and the others of [Lib]), orjson, SHA-256 and
    the TTL cache ([StorageLib]), Redis (the class [SortedSets] with its laws).  The function table of
    expressions ([FUNCTION_MAPPING]) is a parameter too, restricted to functions on JSON-like values;
    in the executor it depends on the logical time and the interaction of the context.
    Of the workflow: which exceptions Temporal takes for cancellations
    ([is_cancelled_exception]), the validators of error details and of subflow arguments, the
    lookups of aliases and definitions, the normalisation of trigger inputs; of the executor:
    [str], [fromisoformat] and the model of a template's inputs ([validate_expects]); of the
    drafts: the database driver's conversions ([parse_uuid], [float_of], [astext]), slugs, YAML
    and date parsing ([libraries_ok] says what restoring relies on; of slugs only that words
    joined by spaces become words joined by underscores).  What
    the environment of a program never answers is a [Never] verdict of its monitor: a batch of
    another length than was asked for, a variable that reads other than it was written, a
    clock that runs backwards.  A protocol of the permits excludes no failure and no
    cancellation.
    Durations are exact rationals where the code computes with floats.
    Hypotheses on parameters state documented behaviour and are instantiated by concrete functions in
    the witnesses: [lib_ok] (decoding inverts encoding), [collision_free] (no other content has the
    hash of the content at hand), [SortedSetLaws], and for JSONPath that a path reads the
    field it names.
    The fuel of a worklist search is bounded by the number of nodes and edges, that of a walk up
    the scope or stream tree by the length of the identifier or the number of scopes, that of the
    walk of a layout by the square of the number of actions, that of
    [retrieve_stored_object] by the nesting of collections (two levels for what the code
    stores); each is proved enough.  The scheduler, the workflow's programs and the loops of the
    executor need none: executions are sequences of steps.  The nesting of templates is cut
    off by the interpreter's recursion limit, a parameter ([limit]).
    Integers are Python's unbounded integers; the number of chunks of a collection is computed in the
    code by a float division, exact below 2^53 items.

    ** Not modelled

    Temporal itself (replay, retries of activities, the worker and client processes); of the
    workflow class the arguments of agents, the interactions and the address of the failed
    execution in a handler's input; of the executor the backends and sandboxes, the session of
    AWS, the query of secrets, the retries on rate limits, the frame of an error, and an iterator
    path that extends another one's (its writes into the item are by value); the Lark grammar
    and the expression functions; object identity ([is]) beyond a parameter; string case
    conversions outside ASCII; YAML, React Flow and memo conversions of [dsl/common.py]; transport
    retries and the HTTP client of blob storage; everything that is persistence or I/O around this
    core (the listing and update of workflows, the columns of actions outside the graph,
    cases, tables, agents, MCP, integrations, registry synchronisation,
    webhooks, the web front end). *)

From stdpp Require Export base list gmap strings fin_maps sorting.
From Stdlib Require Export ZArith Lia Ascii.

#[global] Open Scope Z_scope.
#[global] Open Scope list_scope.

#[global] Arguments String.append !_ _ / : simpl nomatch.

(** ** Results: a Python call returns a value or raises *)

(** The exception classes the modelled code raises or catches. *)
Inductive exn_class :=
  | ValueError | TypeError | KeyError | IndexError | RuntimeError
  | ZeroDivisionError | AttributeError
  | ApplicationError | TracecatDSLError | TracecatExpressionError
  | TracecatValidationError | TaskUnreachable | ScopeDeniedError | CancelledError
  | FileNotFoundError | NotImplementedError | ValidationError | OverflowError
  | InvalidOrganizationConcurrencyCapError | DefaultTierNotConfiguredError | EntitlementRequired
  | DBAPIError.

#[export] Instance exn_class_eq_dec : EqDecision exn_class.
Proof. solve_decision. Defined.

(** [Exn cls msg]: an exception of class [cls]; [msg] is the constant part of
    its message, which identifies the raise site. *)
Record exn := Exn { exn_cls : exn_class; exn_msg : string }.

#[export] Instance exn_eq_dec : EqDecision exn.
Proof. solve_decision. Defined.

Inductive result (A : Type) : Type :=
  | Ok (a : A)
  | Err (e : exn).
Arguments Ok {A} a.
Arguments Err {A} e.

Definition raise {A} (cls : exn_class) (msg : string) : result A := Err (Exn cls msg).

Definition rbind {A B} (m : result A) (f : A -> result B) : result B :=
  match m with
  | Ok a => f a
  | Err e => Err e
  end.

Declare Scope res_scope.
Delimit Scope res_scope with res.
Notation "'let!' x ':=' m 'in' k" := (rbind m (fun x => k))
  (at level 10, x pattern, m at level 100, k at level 200,
   format "'[v' 'let!'  x  ':='  m  'in' '/' k ']'") : res_scope.
Notation "'guard!' b 'else' e ';;' k" := (if b then k else Err e)
  (at level 10, b at level 100, e at level 100, k at level 200) : res_scope.
#[global] Open Scope res_scope.

(** [for x in xs: f(x)] where the body may raise. *)
Fixpoint rfor {A S} (f : A -> S -> result S) (xs : list A) (s : S) : result S :=
  match xs with
  | [] => Ok s
  | x :: xs' => let! s' := f x s in rfor f xs' s'
  end.

Fixpoint rmap {A B} (f : A -> result B) (xs : list A) : result (list B) :=
  match xs with
  | [] => Ok []
  | x :: xs' => let! y := f x in let! ys := rmap f xs' in Ok (y :: ys)
  end.

Definition is_ok {A} (r : result A) : bool :=
  match r with Ok _ => true | Err _ => false end.

(** ** Automation *)

Create HintDb tc discriminated.
#[export] Hint Constants Opaque : tc.
#[export] Hint Extern 5 (_ = _) => congruence : tc.

(** Destruct the scrutinee of the first [match]/[if] of the goal or of a
    hypothesis, remembering the equation. *)
Ltac case_goal :=
  match goal with
  | |- context [match ?x with _ => _ end] => destruct x eqn:?
  end.
Ltac case_hyp H :=
  match type of H with
  | context [match ?x with _ => _ end] => destruct x eqn:?
  end.

(** Invert [rbind m f = Ok r] hypotheses, repeatedly. *)
Lemma rbind_Ok {A B} (m : result A) (f : A -> result B) b :
  rbind m f = Ok b -> exists a, m = Ok a /\ f a = Ok b.
Proof. destruct m; simpl; [eauto | discriminate]. Qed.

Ltac inv_ok :=
  repeat match goal with
  | H : rbind _ _ = Ok _ |- _ =>
      let a := fresh "a" in let H1 := fresh "H" in let H2 := fresh "H" in
      apply rbind_Ok in H as (a & H1 & H2)
  | H : Ok _ = Ok _ |- _ => injection H as H; try subst
  | H : Err _ = Ok _ |- _ => discriminate H
  | H : raise _ _ = Ok _ |- _ => discriminate H
  | H : (if ?b then _ else Err _) = Ok _ |- _ =>
      let E := fresh "E" in destruct b eqn:E; [| discriminate H]
  | H : (if ?b then raise _ _ else _) = Ok _ |- _ =>
      let E := fresh "E" in destruct b eqn:E; [discriminate H |]
  end.

(** ** Generic lemmas *)

Lemma rfor_app {A S} (f : A -> S -> result S) xs ys s :
  rfor f (xs ++ ys) s = rbind (rfor f xs s) (rfor f ys).
Proof.
  revert s; induction xs as [|x xs IH]; intros s; simpl; [done|].
  destruct (f x s); simpl; auto.
Qed.

(** Loop invariant rule for [rfor]. *)
Lemma rfor_inv {A S} (I : list A -> S -> Prop) (f : A -> S -> result S) xs s s' :
  I [] s ->
  (forall done_ x s1 s2, I done_ s1 -> f x s1 = Ok s2 -> I (done_ ++ [x]) s2) ->
  rfor f xs s = Ok s' -> I xs s'.
Proof.
  intros H0 Hstep.
  assert (forall pre, I pre s -> rfor f xs s = Ok s' -> I (pre ++ xs) s') as Hgen.
  { clear H0; revert s; induction xs as [|x xs IH]; intros s pre Hpre; simpl.
    - intros [= <-]. by rewrite app_nil_r.
    - intros H; inv_ok. rewrite (cons_middle x pre xs), app_assoc.
      eapply IH; eauto. }
  intros H. exact (Hgen [] H0 H).
Qed.

Lemma rmap_Ok {A B} (f : A -> result B) xs ys :
  rmap f xs = Ok ys <-> Forall2 (fun x y => f x = Ok y) xs ys.
Proof.
  revert ys; induction xs as [|x xs IH]; intros ys; simpl.
  - split; [intros [= <-]; constructor | by inversion 1].
  - split.
    + intros H; inv_ok. constructor; [done|]. by apply IH.
    + inversion 1 as [|? ? ? ? Hx Hxs]; subst. rewrite Hx; simpl.
      apply IH in Hxs. by rewrite Hxs.
Qed.

(** A body that never raises. *)
Lemma rfor_total {A S} (f : A -> S -> result S) xs s : (forall x s, x ∈ xs -> exists s', f x s = Ok s') -> exists s', rfor f xs s = Ok s'.
Proof.
  revert s; induction xs as [|x xs IH]; intros s H; simpl; [by eexists|].
  destruct (H x s) as [s1 ->]; [by left|]. simpl. apply IH. intros y s' Hy. apply H. by right.
Qed.

Lemma rmap_imap {A B} (f : nat * A -> result B) (g : nat -> A -> B) xs :
  (forall i x, xs !! i = Some x -> f (i, x) = Ok (g i x)) -> rmap f (imap pair xs) = Ok (imap g xs).
Proof.
  intros H. apply rmap_Ok, Forall2_lookup. intros i. rewrite !list_lookup_imap.
  destruct (xs !! i) as [x|] eqn:E; simpl; [|constructor]. constructor. by apply H.
Qed.

Lemma rmap_ext {A B} (f g : A -> result B) xs :
  (forall x, x ∈ xs -> f x = g x) -> rmap f xs = rmap g xs.
Proof.
  induction xs as [|x xs IH]; intros Hfg; simpl; [done|].
  rewrite Hfg by (by left). rewrite IH; [done|]. intros y Hy. apply Hfg. by right.
Qed.

Lemma existsb_elem {A} (f : A -> bool) l : existsb f l = true <-> exists x, x ∈ l /\ f x = true.
Proof.
  rewrite existsb_exists. setoid_rewrite list_elem_of_In. done.
Qed.

Lemma elem_of_flat_map {A B} (f : A -> list B) l y : y ∈ flat_map f l <-> exists x, x ∈ l /\ y ∈ f x.
Proof. rewrite list_elem_of_In, in_flat_map. by setoid_rewrite list_elem_of_In. Qed.

Lemma forallb_elem {A} (f : A -> bool) l : forallb f l = true <-> forall x, x ∈ l -> f x = true.
Proof.
  rewrite forallb_forall. setoid_rewrite list_elem_of_In. done.
Qed.

Lemma filter_all {A} (P : A -> Prop) `{forall x, Decision (P x)} (l : list A) : (forall x, x ∈ l -> P x) -> filter P l = l.
Proof.
  induction l as [|x l IH]; intros Hl; [done|]. rewrite filter_cons_True by (apply Hl; by left).
  f_equal. apply IH. intros y Hy. apply Hl. by right.
Qed.
