(* ===== verification/PyStr.v ===== *)
(** Python string operations used by the modelled code: [str.split],
    [str.rsplit] with one split, [str.startswith], [str.endswith], [str.lstrip]
    of one character, and whitespace.  A Python [str] is a Rocq [string] (its
    UTF-8 bytes); every separator and pattern the code uses is ASCII. *)

From S2P Require Import Prelude.

(** [sep in s] for a one-character separator. *)
Fixpoint has_char (c : ascii) (s : string) : bool :=
  match s with
  | EmptyString => false
  | String a s' => bool_decide (a = c) || has_char c s'
  end.

(** [s.split(c, 1)]: [None] when [c] does not occur. *)
Fixpoint split_first (c : ascii) (s : string) : option (string * string) :=
  match s with
  | EmptyString => None
  | String a s' =>
      if decide (a = c) then Some (EmptyString, s')
      else match split_first c s' with
           | Some (l, r) => Some (String a l, r)
           | None => None
           end
  end.

(** [s.rsplit(c, 1)]: splits at the last occurrence. *)
Fixpoint split_last (c : ascii) (s : string) : option (string * string) :=
  match s with
  | EmptyString => None
  | String a s' =>
      match split_last c s' with
      | Some (l, r) => Some (String a l, r)
      | None => if decide (a = c) then Some (EmptyString, s') else None
      end
  end.

(** [s.split(c)]: all pieces; never empty. *)
Fixpoint split_all (c : ascii) (s : string) : list string :=
  match s with
  | EmptyString => [EmptyString]
  | String a s' =>
      if decide (a = c) then EmptyString :: split_all c s'
      else match split_all c s' with
           | p :: ps => String a p :: ps
           | [] => [String a EmptyString]
           end
  end.

(** [s.startswith(p)]. *)
Fixpoint starts_with (p s : string) : bool :=
  match p, s with
  | EmptyString, _ => true
  | String a p', String b s' => bool_decide (a = b) && starts_with p' s'
  | String _ _, EmptyString => false
  end.

(** [s.endswith(p)]. *)
Fixpoint ends_with (p s : string) : bool :=
  bool_decide (s = p) ||
  match s with
  | EmptyString => false
  | String _ s' => ends_with p s'
  end.

(** [s.lstrip(c)]. *)
Fixpoint lstrip (c : ascii) (s : string) : string :=
  match s with
  | EmptyString => EmptyString
  | String a s' => if decide (a = c) then lstrip c s' else s
  end.

(** ASCII part of Python's [\s]. *)
Definition is_space (c : ascii) : bool :=
  let n := N_of_ascii c in
  ((9 <=? n)%N && (n <=? 13)%N) || ((28 <=? n)%N && (n <=? 32)%N).

Section SplitLemmas.
Implicit Types (c : ascii) (s p l r : string).

Lemma string_length_app s t : String.length (s +:+ t) = (String.length s + String.length t)%nat.
Proof. induction s as [|c s IH]; simpl; [done|]. by rewrite IH. Qed.

Lemma has_char_app c s p : has_char c (s +:+ p) = has_char c s || has_char c p.
Proof. induction s as [|a s IH]; simpl; [done|]. by rewrite IH, orb_assoc. Qed.

Lemma split_first_None c s : split_first c s = None <-> has_char c s = false.
Proof.
  induction s as [|a s IH]; simpl; [done|].
  case_decide; subst; simpl.
  - rewrite bool_decide_eq_true_2 by done. done.
  - rewrite bool_decide_eq_false_2 by done. simpl. rewrite <- IH.
    by destruct (split_first c s) as [[??]|].
Qed.

Lemma split_first_Some c s l r :
  split_first c s = Some (l, r) <-> s = l +:+ String c r /\ has_char c l = false.
Proof.
  revert l; induction s as [|a s IH]; intros l; simpl.
  - split; [done|]. intros [H _]. by destruct l.
  - case_decide as E.
    + subst. split.
      * by intros [= <- <-].
      * intros [H Hl]. destruct l as [|b l]; simpl in *.
        { by injection H as ->. }
        injection H as <- H. by rewrite bool_decide_eq_true_2 in Hl.
    + destruct l as [|b l]; simpl.
      * split; [by destruct (split_first c s) as [[??]|]|]. intros [H _]. by injection H.
      * split.
        { destruct (split_first c s) as [[l' r']|] eqn:Es; [|done].
          intros [= <- <- <-]. destruct (proj1 (IH l') eq_refl) as [-> Hl'].
          rewrite bool_decide_eq_false_2 by done. done. }
        { intros [H Hl]. injection H as <- H.
          rewrite bool_decide_eq_false_2 in Hl by done.
          by rewrite (proj2 (IH l) (conj H Hl)). }
Qed.

Lemma split_last_None c s : split_last c s = None <-> has_char c s = false.
Proof.
  induction s as [|a s IH]; simpl; [done|].
  destruct (split_last c s) as [[l r]|] eqn:E.
  - split; [done|]. intros H. apply orb_false_iff in H as [_ H].
    apply IH in H. done.
  - case_decide; subst; simpl.
    + by rewrite bool_decide_eq_true_2.
    + rewrite bool_decide_eq_false_2 by done. simpl. by rewrite <- IH.
Qed.

Lemma split_last_app c s p :
  has_char c p = false -> split_last c (s +:+ String c p) = Some (s, p).
Proof.
  intros Hp. induction s as [|a s IH]; simpl.
  - rewrite (proj2 (split_last_None c p) Hp). by rewrite decide_True.
  - by rewrite IH.
Qed.

Lemma split_last_Some c s l r :
  split_last c s = Some (l, r) -> s = l +:+ String c r /\ has_char c r = false.
Proof.
  revert l; induction s as [|a s IH]; intros l; simpl; [done|].
  destruct (split_last c s) as [[l' r']|] eqn:E.
  - intros [= <- <-]. destruct (IH l' eq_refl) as [-> ?]. done.
  - case_decide; [|done]. intros [= <- <-]. subst.
    split; [done|]. by apply split_last_None.
Qed.

Lemma split_all_nochar c s : has_char c s = false -> split_all c s = [s].
Proof.
  induction s as [|a s IH]; simpl; [done|].
  intros [H1 H2]%orb_false_iff. apply bool_decide_eq_false in H1.
  rewrite decide_False by done. by rewrite IH.
Qed.

Lemma split_all_nonnil c s : split_all c s <> [].
Proof. destruct s; simpl; [done|]. case_decide; [done|]. by case_match. Qed.

Lemma split_all_app c s p :
  has_char c p = false -> split_all c (s +:+ String c p) = split_all c s ++ [p].
Proof.
  intros Hp. induction s as [|a s IH]; simpl.
  - rewrite decide_True by done. by rewrite split_all_nochar.
  - case_decide; [by rewrite IH|]. rewrite IH.
    destruct (split_all c s) eqn:E; simpl; [|done].
    by apply split_all_nonnil in E.
Qed.

Lemma starts_with_spec p s : starts_with p s = true <-> exists r, s = p +:+ r.
Proof.
  revert s; induction p as [|a p IH]; intros s; simpl.
  - split; eauto.
  - destruct s as [|b s]; simpl.
    + split; [done|]. by intros [r ?].
    + rewrite andb_true_iff, bool_decide_eq_true, IH. split.
      * intros [-> [r ->]]. eauto.
      * intros [r [= -> ->]]. eauto.
Qed.

Lemma ends_with_spec p s : ends_with p s = true <-> exists l, s = l +:+ p.
Proof.
  induction s as [|a s IH]; simpl.
  - rewrite orb_false_r, bool_decide_eq_true. split.
    + intros <-. by exists "".
    + intros [l H]. destruct l; [done|discriminate].
  - rewrite orb_true_iff, bool_decide_eq_true, IH. split.
    + intros [<- | [l ->]]; [by exists ""| by exists (String a l)].
    + intros [l H]. destruct l as [|b l]; simpl in H; [by left|].
      right. injection H as -> ->. eauto.
Qed.

Lemma string_app_assoc s p l : (s +:+ p) +:+ l = s +:+ (p +:+ l).
Proof. induction s as [|a s IH]; simpl; [done|]. by rewrite IH. Qed.

Lemma string_app_nil_r s : s +:+ "" = s.
Proof. induction s as [|a s IH]; simpl; [done|]. by rewrite IH. Qed.
End SplitLemmas.

(** Strings as lists of characters. *)
Lemma list_ascii_app a b :
  String.list_ascii_of_string (a +:+ b) = String.list_ascii_of_string a ++ String.list_ascii_of_string b.
Proof. induction a as [|c a IH]; simpl; [done|]. by rewrite IH. Qed.

Lemma list_ascii_inj a b : String.list_ascii_of_string a = String.list_ascii_of_string b -> a = b.
Proof.
  intros H%(f_equal String.string_of_list_ascii). by rewrite !String.string_of_list_ascii_of_string in H.
Qed.

#[export] Hint Rewrite string_app_assoc string_app_nil_r has_char_app : pystr.

(** ** Order *)

(** [sorted] on strings. *)
Definition str_le (a b : string) : Prop := String.leb a b = true.
#[export] Instance str_le_dec : RelDecision str_le.
Proof. intros a b. unfold str_le. apply _. Defined.
#[export] Instance str_le_total : Total str_le.
Proof. intros a b. unfold str_le. destruct (String.leb_total a b) as [->| ->]; auto. Qed.
