(* ===== verification/Permits.v ===== *)
(** Tier limits and concurrency permits ([tracecat/tiers]): the effective limits of
    an organization ([service.py], [access.py]), the permit service
    ([permits.py]) and the semaphore on Redis sorted sets ([semaphore.py]). *)

From S2P Require Import Prelude.

(** ** The sorted sets of Redis

    The store is a service the program talks to: its commands are the operations
    of this interface, and its documented behaviour the laws.  Every command, and
    every Lua script as a whole, is executed atomically. *)

Class SortedSets (DB : Type) := {
  zscore : DB -> string -> string -> option Z;
  zadd : string -> Z -> string -> DB -> DB;
  zrem : string -> string -> DB -> DB;
  (** [ZREMRANGEBYSCORE key -inf max] *)
  zremrangebyscore : string -> Z -> DB -> DB;
  zcard : DB -> string -> Z }.

Class SortedSetLaws (DB : Type) `{SortedSets DB} := {
  zscore_zadd : forall k s m (db : DB) k' m',
    zscore (zadd k s m db) k' m' = if decide (k' = k /\ m' = m) then Some s else zscore db k' m';
  zscore_zrem : forall k m (db : DB) k' m',
    zscore (zrem k m db) k' m' = if decide (k' = k /\ m' = m) then None else zscore db k' m';
  zscore_zremrangebyscore : forall k hi (db : DB) k' m',
    zscore (zremrangebyscore k hi db) k' m' =
      if decide (k' = k)
      then s ← zscore db k' m'; if s <=? hi then None else Some s
      else zscore db k' m';
  zcard_members : forall (db : DB) k, exists ms : gset string,
    (forall m, m ∈ ms <-> is_Some (zscore db k m)) /\ zcard db k = Z.of_nat (size ms) }.

(** ** Limits and tiers *)

Record EffectiveLimits := MkLimits {
  api_rate_limit : option Z;
  api_burst_capacity : option Z;
  max_concurrent_workflows : option Z;
  max_action_executions_per_workflow : option Z;
  max_concurrent_actions : option Z }.

Definition DEFAULT_LIMITS : EffectiveLimits := MkLimits None None None None None.

(** [EntitlementsDict]: the keys that are present; the stored JSON may hold a null. *)
Definition EntitlementsDict : Type := gmap string (option bool).

(** The rows of the [tier] and [organization_tier] tables that are read. *)
Record Tier := MkTier { tier_limits : EffectiveLimits; entitlements : option EntitlementsDict }.
Record OrganizationTier := MkOrgTier {
  org_limits : EffectiveLimits;
  org_tier : option Tier;
  entitlement_overrides : option EntitlementsDict }.

(** What the queries of [get_org_tier_and_resolved_tier] find. *)
Record TierRows := MkTierRows { org_tier_row : option OrganizationTier; default_tier_row : option Tier }.

Definition get_org_tier_and_resolved_tier (rows : TierRows) : result (option OrganizationTier * Tier) :=
  match org_tier_row rows with
  | Some o => match org_tier o with
              | Some t => Ok (Some o, t)
              | None => match default_tier_row rows with
                        | Some t => Ok (Some o, t)
                        | None => raise DefaultTierNotConfiguredError ""
                        end
              end
  | None => match default_tier_row rows with
            | Some t => Ok (None, t)
            | None => raise DefaultTierNotConfiguredError ""
            end
  end.

Section TierService.
(** [config.TRACECAT__EE_MULTI_TENANT]. *)
Variable multi_tenant : bool.

Definition resolve (org_value tier_value : option Z) : option Z :=
  match org_value with Some v => Some v | None => tier_value end.

Definition get_effective_limits (rows : TierRows) : result EffectiveLimits :=
  if negb multi_tenant then Ok DEFAULT_LIMITS
  else
    let! (o, tier) := get_org_tier_and_resolved_tier rows in
    let org (f : EffectiveLimits -> option Z) := row ← o; f (org_limits row) in
    let pick f := resolve (org f) (f (tier_limits tier)) in
    Ok (MkLimits (pick api_rate_limit) (pick api_burst_capacity) (pick max_concurrent_workflows)
                 (pick max_action_executions_per_workflow) (pick max_concurrent_actions)).

(** *** Entitlements *)

Inductive Entitlement :=
  | CUSTOM_REGISTRY | GIT_SYNC | AGENT_ADDONS | CASE_ADDONS | RBAC_ADDONS
  | SERVICE_ACCOUNTS | WORKSPACE_CHAT | WATCHTOWER.

Definition entitlement_key (e : Entitlement) : string :=
  match e with
  | CUSTOM_REGISTRY => "custom_registry" | GIT_SYNC => "git_sync" | AGENT_ADDONS => "agent_addons"
  | CASE_ADDONS => "case_addons" | RBAC_ADDONS => "rbac_addons" | SERVICE_ACCOUNTS => "service_accounts"
  | WORKSPACE_CHAT => "workspace_chat" | WATCHTOWER => "watchtower"
  end.

Record EffectiveEntitlements := MkEntitlements {
  custom_registry : bool; git_sync : bool; agent_addons : bool; case_addons : bool;
  rbac_addons : bool; service_accounts : bool; workspace_chat : bool; watchtower : bool }.

(** [getattr(entitlements, entitlement.value)]. *)
Definition entitled (x : EffectiveEntitlements) (e : Entitlement) : bool :=
  match e with
  | CUSTOM_REGISTRY => custom_registry x | GIT_SYNC => git_sync x | AGENT_ADDONS => agent_addons x
  | CASE_ADDONS => case_addons x | RBAC_ADDONS => rbac_addons x | SERVICE_ACCOUNTS => service_accounts x
  | WORKSPACE_CHAT => workspace_chat x | WATCHTOWER => watchtower x
  end.

(** [DEFAULT_ENTITLEMENTS], read from the environment at start-up. *)
Variable DEFAULT_ENTITLEMENTS : EffectiveEntitlements.

Definition overrides_of (o : option OrganizationTier) : EntitlementsDict :=
  match o with Some row => default ∅ (entitlement_overrides row) | None => ∅ end.

(** [resolve_entitlement]: a null is rejected by the model's [bool] field. *)
Definition resolve_entitlement (overrides tier_entitlements : EntitlementsDict) (key : string) : result bool :=
  match (match overrides !! key with
         | Some v => v
         | None => default (Some false) (tier_entitlements !! key)
         end) with
  | Some b => Ok b
  | None => raise ValidationError "Input should be a valid boolean"
  end.

Definition get_effective_entitlements (rows : TierRows) : result EffectiveEntitlements :=
  if negb multi_tenant then Ok DEFAULT_ENTITLEMENTS
  else
    let! (o, tier) := get_org_tier_and_resolved_tier rows in
    let pick e := resolve_entitlement (overrides_of o) (default ∅ (entitlements tier)) (entitlement_key e) in
    let! a := pick CUSTOM_REGISTRY in
    let! b := pick GIT_SYNC in
    let! c := pick AGENT_ADDONS in
    let! d := pick CASE_ADDONS in
    let! e := pick RBAC_ADDONS in
    let! f := pick SERVICE_ACCOUNTS in
    let! g := pick WORKSPACE_CHAT in
    let! h := pick WATCHTOWER in
    Ok (MkEntitlements a b c d e f g h).

(** [bool(x)] of a stored boolean or null. *)
Definition truthy_flag (v : option bool) : bool := default false v.

Definition is_org_entitled (rows : TierRows) (e : Entitlement) : result bool :=
  if negb multi_tenant then Ok (entitled DEFAULT_ENTITLEMENTS e)
  else
    let! (o, tier) := get_org_tier_and_resolved_tier rows in
    match overrides_of o !! entitlement_key e with
    | Some (Some b) => Ok b
    | _ => Ok (truthy_flag (default (Some false) (default ∅ (entitlements tier) !! entitlement_key e)))
    end.

Definition require_org_entitlement (rows : TierRows) (e : Entitlement) : result unit :=
  let! b := is_org_entitled rows e in
  if b then Ok tt else raise EntitlementRequired (entitlement_key e).
End TierService.

(** ** The permit service: limits *)

Inductive PermitScope := WORKFLOW | ACTION.

#[export] Instance PermitScope_eq_dec : EqDecision PermitScope.
Proof. solve_decision. Defined.

Definition scope_str (s : PermitScope) : string :=
  match s with WORKFLOW => "workflow" | ACTION => "action" end.

Definition _UNBOUNDED_CONCURRENCY_LIMIT : Z := 2147483647.

Definition normalize_concurrency_limit (limit : option Z) : result Z :=
  match limit with
  | None => Ok _UNBOUNDED_CONCURRENCY_LIMIT
  | Some l => if l <=? 0 then raise InvalidOrganizationConcurrencyCapError "" else Ok l
  end.

(** [get_effective_limits_for_org]: what the cache and the database answer; the
    cache is written afterwards and its failures ignored. *)
Definition get_effective_limits_for_org (cached : result (option EffectiveLimits)) (db : result EffectiveLimits)
  : result (EffectiveLimits * string) :=
  let limits := match cached with Ok l => l | Err _ => None end in
  match limits with
  | Some l => Ok (l, "cache")
  | None => let! l := db in Ok (l, "db")
  end.

Definition scope_limit (scope : PermitScope) (l : EffectiveLimits) : option Z :=
  match scope with WORKFLOW => max_concurrent_workflows l | ACTION => max_concurrent_actions l end.

(** ** The semaphore *)

Record AcquireResult := MkAcquire { acquired : bool; current_count : Z }.
Record PermitAcquireOutcome := MkOutcome { po_result : AcquireResult; effective_limit : Z; cap_source : string }.

Definition _semaphore_key (org_id : string) (scope : PermitScope) : string :=
  "tier:org:" +:+ org_id +:+ ":" +:+ scope_str scope +:+ "-semaphore".

Section Semaphore.
Context {DB : Type} `{SortedSets DB}.
(** [config.TRACECAT__PERMIT_TTL_SECONDS]. *)
Variable ttl : Z.

(** [_ACQUIRE_SCRIPT]; [now] is the clock the client read before the call. *)
Definition acquire_script (key wf_id : string) (limit now : Z) (db : DB) : AcquireResult * DB :=
  let db := zremrangebyscore key (now - ttl) db in
  match zscore db key wf_id with
  | Some _ =>
      let db := zadd key now wf_id db in
      (MkAcquire true (zcard db key), db)
  | None =>
      let count := zcard db key in
      if limit <=? count then (MkAcquire false count, db)
      else (MkAcquire true (count + 1), zadd key now wf_id db)
  end.

(** [_HEARTBEAT_SCRIPT]. *)
Definition heartbeat_script (key permit_id : string) (now : Z) (db : DB) : bool * DB :=
  match zscore db key permit_id with
  | None => (false, db)
  | Some _ => (true, zadd key now permit_id db)
  end.

Definition _acquire (org_id permit_id : string) (limit : Z) (scope : PermitScope) (now : Z) (db : DB) : AcquireResult * DB :=
  acquire_script (_semaphore_key org_id scope) permit_id limit now db.

Definition _release (org_id permit_id : string) (scope : PermitScope) (db : DB) : DB :=
  zrem (_semaphore_key org_id scope) permit_id db.

Definition _heartbeat (org_id permit_id : string) (scope : PermitScope) (now : Z) (db : DB) : bool * DB :=
  heartbeat_script (_semaphore_key org_id scope) permit_id now db.

(** [get_count] is two commands. *)
Definition get_count_prune (org_id : string) (scope : PermitScope) (now : Z) (db : DB) : DB :=
  zremrangebyscore (_semaphore_key org_id scope) (now - ttl) db.
Definition get_count_read (org_id : string) (scope : PermitScope) (db : DB) : Z :=
  zcard db (_semaphore_key org_id scope).

(** [acquire_workflow_permit] and [acquire_action_permit]. *)
Definition acquire_permit (scope : PermitScope) (cached : result (option EffectiveLimits)) (from_db : result EffectiveLimits)
    (org_id permit_id : string) (now : Z) (db : DB) : result (PermitAcquireOutcome * DB) :=
  let! (limits, source) := get_effective_limits_for_org cached from_db in
  let! limit := normalize_concurrency_limit (scope_limit scope limits) in
  let '(r, db) := _acquire org_id permit_id limit scope now db in
  Ok (MkOutcome r limit source, db).

(** ** Interleaved clients

    The operations of all clients, in the order in which Redis executes them.
    Each client reads its own clock before its call. *)
Inductive op :=
  | Acquire (scope : PermitScope) (org_id permit_id : string) (now : Z)
            (cached : result (option EffectiveLimits)) (from_db : result EffectiveLimits)
  | Release (scope : PermitScope) (org_id permit_id : string)
  | Heartbeat (scope : PermitScope) (org_id permit_id : string) (now : Z)
  | PruneCount (scope : PermitScope) (org_id : string) (now : Z)
  | ReadCount (scope : PermitScope) (org_id : string).

(** What the client is told, if anything. *)
Inductive reply :=
  | RAcquire (r : result PermitAcquireOutcome)
  | RHeartbeat (b : bool)
  | RCount (n : Z)
  | RNone.

Definition step (o : op) (db : DB) : reply * DB :=
  match o with
  | Acquire scope org id now cached from_db =>
      match acquire_permit scope cached from_db org id now db with
      | Ok (r, db') => (RAcquire (Ok r), db')
      | Err e => (RAcquire (Err e), db)
      end
  | Release scope org id => (RNone, _release org id scope db)
  | Heartbeat scope org id now => let '(b, db') := _heartbeat org id scope now db in (RHeartbeat b, db')
  | PruneCount scope org now => (RNone, get_count_prune org scope now db)
  | ReadCount scope org => (RCount (get_count_read org scope db), db)
  end.

(** The replies of a trace, with the final store. *)
Fixpoint run (os : list op) (db : DB) : list (op * reply) * DB :=
  match os with
  | [] => ([], db)
  | o :: os' =>
      let '(r, db1) := step o db in
      let '(log, db2) := run os' db1 in ((o, r) :: log, db2)
  end.
End Semaphore.
