(* ===== verification/PermitsFacts.v ===== *)
(** Correctness of the concurrency permits: what one acquisition decides, and that
    the live holders of an organization never exceed its cap, under every
    interleaving of the clients. *)

From S2P Require Import Prelude PyStr Permits.

(** ** Keys *)

(** Workflow and action permits, and different organizations, never share a key. *)
Lemma semaphore_key_inj org1 org2 s1 s2 :
  _semaphore_key org1 s1 = _semaphore_key org2 s2 -> org1 = org2 /\ s1 = s2.
Proof.
  unfold _semaphore_key. intros H%(f_equal String.list_ascii_of_string).
  rewrite !list_ascii_app in H. apply app_inv_head in H. apply (f_equal (@rev _)) in H. rewrite !rev_app_distr in H.
  assert (forall o1 o2 : string, rev (String.list_ascii_of_string o1) = rev (String.list_ascii_of_string o2) -> o1 = o2) as Hrev.
  { intros o1 o2 E%(f_equal (@rev _)). rewrite !rev_involutive in E. by apply list_ascii_inj. }
  destruct s1, s2; simpl in H; try discriminate; split; try done; apply Hrev; congruence.
Qed.

(** ** Entitlements *)

Lemma resolve_entitlement_spec o t k b :
  resolve_entitlement o t k = Ok b ->
  match o !! k with Some (Some b') => Ok b' | _ => Ok (truthy_flag (default (Some false) (t !! k))) end = Ok b.
Proof.
  unfold resolve_entitlement. destruct (o !! k) as [[b'|]|]; [done|done|].
  destruct (t !! k) as [[b'|]|]; simpl; done.
Qed.

(** The two ways of reading an entitlement agree: whenever the effective
    entitlements of an organization can be computed, checking one entitlement
    directly gives the field of the same name, in both deployment modes, and
    requiring it raises [EntitlementRequired] exactly when the field is false. *)
Theorem entitlements_agree (multi_tenant : bool) (dflt eff : EffectiveEntitlements) (rows : TierRows) (e : Entitlement)
    (Heff : get_effective_entitlements multi_tenant dflt rows = Ok eff) :
  is_org_entitled multi_tenant dflt rows e = Ok (entitled eff e) /\
  require_org_entitlement multi_tenant dflt rows e =
    (if entitled eff e then Ok tt else raise EntitlementRequired (entitlement_key e)).
Proof.
  assert (is_org_entitled multi_tenant dflt rows e = Ok (entitled eff e)) as Hi.
  { unfold get_effective_entitlements, is_org_entitled in *. destruct multi_tenant; simpl in *; [|congruence].
    destruct (get_org_tier_and_resolved_tier rows) as [[o tier]|]; simpl in *; [|done].
    inv_ok. destruct e; by apply resolve_entitlement_spec. }
  split; [done|]. unfold require_org_entitlement. by rewrite Hi.
Qed.

Definition ex_rows : TierRows :=
  MkTierRows (Some (MkOrgTier DEFAULT_LIMITS None (Some {[ "git_sync" := Some true ]})))
             (Some (MkTier DEFAULT_LIMITS (Some {[ "case_addons" := Some true ]}))).
Definition no_entitlements : EffectiveEntitlements := MkEntitlements false false false false false false false false.

Lemma entitlements_agree_witness :
  is_org_entitled true no_entitlements ex_rows GIT_SYNC = Ok true /\
  require_org_entitlement true no_entitlements ex_rows GIT_SYNC = Ok tt.
Proof.
  apply (entitlements_agree true no_entitlements (MkEntitlements false true false true false false false false) ex_rows GIT_SYNC).
  vm_compute. reflexivity.
Defined.

Section Facts.
Context {DB : Type} `{SortedSetLaws DB}.
Variable ttl : Z.

(** ** Counting members *)

Lemma zcard_le (db1 db2 : DB) k1 k2 :
  (forall m, is_Some (zscore db1 k1 m) -> is_Some (zscore db2 k2 m)) -> zcard db1 k1 <= zcard db2 k2.
Proof.
  intros Hs. destruct (zcard_members db1 k1) as (s1 & H1 & ->), (zcard_members db2 k2) as (s2 & H2 & ->).
  apply inj_le, subseteq_size. intros m. rewrite H1, H2. apply Hs.
Qed.

Lemma zcard_eq (db1 db2 : DB) k1 k2 :
  (forall m, zscore db1 k1 m = zscore db2 k2 m) -> zcard db1 k1 = zcard db2 k2.
Proof. intros Hs. apply Z.le_antisymm; apply zcard_le; intros m; by rewrite Hs. Qed.

Lemma zcard_zadd_new k s m (db : DB) :
  zscore db k m = None -> zcard (zadd k s m db) k = zcard db k + 1.
Proof.
  intros Hm. destruct (zcard_members (zadd k s m db) k) as (s1 & H1 & ->), (zcard_members db k) as (s2 & H2 & ->).
  assert (s1 = {[ m ]} ∪ s2) as ->.
  { apply set_eq. intros x. rewrite H1, elem_of_union, elem_of_singleton, H2, zscore_zadd.
    destruct (decide (k = k /\ x = m)); naive_solver. }
  rewrite size_union, size_singleton; [lia|]. apply disjoint_singleton_l. rewrite H2, Hm. by intros [? ?].
Qed.

Lemma zcard_zadd_old k s m (db : DB) :
  is_Some (zscore db k m) -> zcard (zadd k s m db) k = zcard db k.
Proof.
  intros Hm. apply Z.le_antisymm; apply zcard_le; intros x; rewrite zscore_zadd;
    destruct (decide (k = k /\ x = m)) as [[_ ->]|]; naive_solver.
Qed.

(** Pruning keeps exactly the fresh members. *)
Lemma zscore_prune k now m (db : DB) s :
  zscore (zremrangebyscore k (now - ttl) db) k m = Some s <-> zscore db k m = Some s /\ now - ttl < s.
Proof.
  rewrite zscore_zremrangebyscore, decide_True by done. destruct (zscore db k m) as [x|]; simpl; [|naive_solver].
  destruct (Z.leb_spec x (now - ttl)); split; naive_solver lia.
Qed.

Lemma zscore_prune_ne k k' hi m (db : DB) : k' <> k -> zscore (zremrangebyscore k hi db) k' m = zscore db k' m.
Proof. intros Hk. by rewrite zscore_zremrangebyscore, decide_False. Qed.

Lemma zcard_prune_le k k' hi (db : DB) : zcard (zremrangebyscore k hi db) k' <= zcard db k'.
Proof.
  apply zcard_le. intros m. rewrite zscore_zremrangebyscore. case_decide; [|done].
  destruct (zscore db k' m); simpl; [done|by intros [? ?]].
Qed.

(** ** One acquisition *)

Definition fresh (db : DB) (key : string) (now : Z) (m : string) : Prop :=
  exists s, zscore db key m = Some s /\ now - ttl < s.

(** Every branch of the script in terms of the store after the prune. *)
Lemma acquire_script_spec key id limit now (db : DB) :
  let pruned := zremrangebyscore key (now - ttl) db in
  let r := acquire_script ttl key id limit now db in
  acquired r.1 = bool_decide (is_Some (zscore pruned key id)) || (zcard pruned key <? limit) /\
  current_count r.1 = zcard r.2 key /\
  (forall k m, zscore r.2 k m =
     if decide (acquired r.1 = true /\ k = key /\ m = id) then Some now else zscore pruned k m).
Proof.
  intros pruned r. unfold r, acquire_script. fold pruned.
  destruct (zscore pruned key id) as [s|] eqn:E; [|destruct (limit <=? zcard pruned key) eqn:El]; cbn [acquired current_count fst snd].
  - rewrite bool_decide_true by done. simpl. split_and!; [done|done|]. intros k m. rewrite zscore_zadd.
    apply decide_ext. naive_solver.
  - rewrite bool_decide_false by (by intros [? ?]). split_and!; [lia|done|]. intros k m. by rewrite decide_False by naive_solver.
  - rewrite bool_decide_false by (by intros [? ?]). split_and!; [simpl; lia|by rewrite zcard_zadd_new|].
    intros k m. rewrite zscore_zadd. apply decide_ext. naive_solver.
Qed.

(** What an acquisition decides: the permit is granted exactly when the client
    still holds one or fewer than [limit] holders are fresh (a holder is fresh
    until its last refresh is older than the TTL); the returned count is the
    number of holders afterwards; a granted permit is refreshed to the client's
    clock; the stale holders are dropped, the other fresh ones are untouched, and
    so are the permits of every other organization and scope. *)
Theorem acquire_decision (org id : string) (scope : PermitScope) (limit now : Z) (db : DB) :
  let key := _semaphore_key org scope in
  let r := _acquire ttl org id limit scope now db in
  exists holders : gset string,
    (forall m, m ∈ holders <-> fresh db key now m) /\
    (acquired r.1 = true <-> id ∈ holders \/ Z.of_nat (size holders) < limit) /\
    current_count r.1 = zcard r.2 key /\
    (acquired r.1 = true -> zscore r.2 key id = Some now) /\
    (forall m s, m <> id \/ acquired r.1 = false ->
       zscore r.2 key m = Some s <-> zscore db key m = Some s /\ now - ttl < s) /\
    (forall org' scope' m, (org', scope') <> (org, scope) ->
       zscore r.2 (_semaphore_key org' scope') m = zscore db (_semaphore_key org' scope') m).
Proof.
  intros key r. destruct (acquire_script_spec key id limit now db) as (Ha & Hc & Hz).
  set (pruned := zremrangebyscore key (now - ttl) db) in *. change (acquire_script _ _ _ _ _ _) with r in Ha, Hc, Hz.
  destruct (zcard_members pruned key) as (holders & Hh & Hsz). exists holders.
  assert (forall m, m ∈ holders <-> fresh db key now m) as Hf.
  { intros m. rewrite Hh. split; intros [s Hs]; exists s; by apply zscore_prune. }
  split; [done|]. split.
  { rewrite Ha, orb_true_iff, bool_decide_eq_true, <- Hh, Hsz, Z.ltb_lt. done. }
  split; [done|]. split; [intros Hg; rewrite Hz, decide_True by done; done|]. split.
  - intros m s Hm. rewrite Hz, decide_False by (destruct Hm; [naive_solver|intros [? _]; congruence]). apply zscore_prune.
  - intros org' scope' m Hne. assert (_semaphore_key org' scope' <> key) as Hk.
    { intros [-> ->]%semaphore_key_inj. done. }
    rewrite Hz, decide_False by naive_solver. by apply zscore_prune_ne.
Qed.

(** ** Interleaved clients *)

(** What a client believes from its replies: the last refresh of each permit it was
    granted and did not release. *)
Definition note (h : gmap (string * string) Z) (e : op * reply) : gmap (string * string) Z :=
  match e with
  | (Acquire scope org id now _ _, RAcquire (Ok r)) =>
      if acquired (po_result r) then <[(_semaphore_key org scope, id) := now]> h else h
  | (Heartbeat scope org id now, RHeartbeat true) => <[(_semaphore_key org scope, id) := now]> h
  | (Release scope org id, _) => delete (_semaphore_key org scope, id) h
  | _ => h
  end.

(** The permits believed held and refreshed within the TTL before [T]. *)
Definition live (key : string) (T : Z) (h : gmap (string * string) Z) : gset string :=
  set_map snd (dom (filter (fun kv : (string * string) * Z => kv.1.1 = key /\ T - ttl < kv.2) h)).

Lemma elem_of_live key T h m :
  m ∈ live key T h <-> exists r, h !! (key, m) = Some r /\ T - ttl < r.
Proof.
  unfold live. rewrite elem_of_map. split.
  - intros ([k m'] & -> & [r [Hr [Hk Hl]]%map_lookup_filter_Some]%elem_of_dom). simpl in *. subst. by exists r.
  - intros (r & Hr & Hl). exists (key, m). split; [done|]. apply elem_of_dom. exists r.
    by apply map_lookup_filter_Some.
Qed.

Definition op_now (o : op) : option Z :=
  match o with
  | Acquire _ _ _ now _ _ | Heartbeat _ _ _ now | PruneCount _ _ now => Some now
  | _ => None
  end.

(** The cap an acquisition of [scope] works with. *)
Definition cap (scope : PermitScope) (cached : result (option EffectiveLimits)) (from_db : result EffectiveLimits) : result Z :=
  let! (limits, _) := get_effective_limits_for_org cached from_db in
  normalize_concurrency_limit (scope_limit scope limits).

Definition respects (scope : PermitScope) (org : string) (L : Z) (o : op) : Prop :=
  match o with
  | Acquire s org' _ _ cached from_db => s = scope -> org' = org -> forall l, cap s cached from_db = Ok l -> l <= L
  | _ => True
  end.

(** An acquisition either fails before it reaches the store or runs the script. *)
Lemma step_acquire scope org id now cached from_db (db : DB) :
  match cap scope cached from_db with
  | Ok l => exists src, step ttl (Acquire scope org id now cached from_db) db =
      let r := acquire_script ttl (_semaphore_key org scope) id l now db in
      (RAcquire (Ok (MkOutcome r.1 l src)), r.2)
  | Err e => step ttl (Acquire scope org id now cached from_db) db = (RAcquire (Err e), db)
  end.
Proof.
  unfold cap, step, acquire_permit. destruct (get_effective_limits_for_org cached from_db) as [[limits src]|e]; simpl; [|done].
  destruct (normalize_concurrency_limit _) as [l|e]; simpl; [|done]. exists src. unfold _acquire.
  by destruct (acquire_script _ _ _ _ _ _).
Qed.

Lemma acquire_card key id l L now (db : DB) :
  l <= L -> zcard db key <= L -> zcard (acquire_script ttl key id l now db).2 key <= L.
Proof.
  intros Hl Hb. pose proof (zcard_prune_le key key (now - ttl) db) as Hp. unfold acquire_script.
  set (pruned := zremrangebyscore _ _ _) in *. destruct (zscore pruned key id) eqn:E; simpl.
  - rewrite zcard_zadd_old by done. lia.
  - destruct (Z.leb_spec l (zcard pruned key)); simpl; [lia|]. rewrite zcard_zadd_new by done. lia.
Qed.

(** No operation takes the number of holders above the cap. *)
Lemma step_bounded scope org L o (db : DB) :
  respects scope org L o -> zcard db (_semaphore_key org scope) <= L ->
  zcard (step ttl o db).2 (_semaphore_key org scope) <= L.
Proof.
  intros Hr Hb. set (key := _semaphore_key org scope) in *. destruct o as [s org' id now cached from_db|s org' id|s org' id now|s org' now|s org']; simpl.
  - pose proof (step_acquire s org' id now cached from_db db) as Hs. simpl in Hr.
    destruct (cap s cached from_db) as [l|e]; [|simpl in Hs; by rewrite Hs].
    destruct Hs as [src Hs]. simpl in Hs. rewrite Hs. clear Hs. simpl.
    destruct (decide (_semaphore_key org' s = key)) as [Hk|Hk].
    + pose proof (semaphore_key_inj _ _ _ _ Hk) as [-> ->]. fold key. specialize (Hr eq_refl eq_refl l eq_refl).
      apply acquire_card; [lia|done].
    + destruct (acquire_script_spec (_semaphore_key org' s) id l now db) as (_ & _ & Hz).
      etrans; [apply zcard_le|exact Hb]. intros m. rewrite Hz, decide_False by naive_solver. by rewrite zscore_prune_ne.
  - etrans; [|exact Hb]. apply zcard_le. intros m. unfold _release. rewrite zscore_zrem. by case_decide; [intros [? ?]|].
  - unfold _heartbeat, heartbeat_script. destruct (zscore db (_semaphore_key org' s) id) eqn:E; simpl; [|done].
    etrans; [|exact Hb]. apply zcard_le. intros m. rewrite zscore_zadd. case_decide as Hd; [|done].
    destruct Hd as [-> ->]. by rewrite E.
  - etrans; [apply zcard_prune_le|exact Hb].
  - done.
Qed.

(** A live permit is in the store, with the client's own refresh time. *)
Definition believed (T : Z) (h : gmap (string * string) Z) (db : DB) : Prop :=
  forall key id r, h !! (key, id) = Some r -> T - ttl < r -> zscore db key id = Some r.

Lemma believed_insert T h (db : DB) key id now :
  believed T h db -> believed T (<[(key, id) := now]> h) (zadd key now id db).
Proof.
  intros Hb k m r Hr Hl. rewrite zscore_zadd. destruct (decide (k = key /\ m = id)) as [[-> ->]|Hne].
  - by rewrite lookup_insert_eq in Hr.
  - rewrite lookup_insert_ne in Hr by naive_solver. by apply Hb.
Qed.

Lemma believed_prune T h (db : DB) key now :
  now <= T -> believed T h db -> believed T h (zremrangebyscore key (now - ttl) db).
Proof.
  intros Hn Hb k m r Hr Hl. destruct (decide (k = key)) as [->|Hne].
  - apply zscore_prune. split; [by apply Hb|lia].
  - rewrite zscore_prune_ne by done. by apply Hb.
Qed.

Lemma step_believed T h o (db : DB) :
  (forall now, op_now o = Some now -> now <= T) -> believed T h db ->
  believed T (note h (o, (step ttl o db).1)) (step ttl o db).2.
Proof.
  intros Hn Hb. destruct o as [s org' id now cached from_db|s org' id|s org' id now|s org' now|s org']; simpl.
  - pose proof (step_acquire s org' id now cached from_db db) as Hs. simpl in Hs, Hn.
    destruct (cap s cached from_db) as [l|e]; [|by rewrite Hs]. destruct Hs as [src ->]. simpl.
    set (key := _semaphore_key org' s). pose proof (believed_prune T h db key now (Hn now eq_refl) Hb) as Hp.
    unfold acquire_script. destruct (zscore _ key id); simpl; [by apply believed_insert|].
    destruct (l <=? _); simpl; [done|by apply believed_insert].
  - intros k m r Hr Hl. unfold _release. rewrite zscore_zrem. destruct (decide (k = _semaphore_key org' s /\ m = id)) as [[-> ->]|Hne].
    + by rewrite lookup_delete_eq in Hr.
    + rewrite lookup_delete_ne in Hr by naive_solver. by apply Hb.
  - unfold _heartbeat, heartbeat_script. destruct (zscore db _ id); simpl; [by apply believed_insert|done].
  - apply believed_prune; [by apply Hn|done].
  - done.
Qed.

Lemma run_inv scope org L T os h (db : DB) :
  (forall o, o ∈ os -> respects scope org L o) -> (forall o now, o ∈ os -> op_now o = Some now -> now <= T) ->
  zcard db (_semaphore_key org scope) <= L -> believed T h db ->
  zcard (run ttl os db).2 (_semaphore_key org scope) <= L /\
  believed T (foldl note h (run ttl os db).1) (run ttl os db).2.
Proof.
  revert h db. induction os as [|o os IH]; intros h db Hr Hn Hc Hb; [done|].
  pose proof (step_bounded scope org L o db (Hr o ltac:(by left)) Hc) as Hc'.
  pose proof (step_believed T h o db (fun now => Hn o now ltac:(by left)) Hb) as Hb'.
  simpl. destruct (step ttl o db) as [r db1]. simpl in *.
  specialize (IH (note h (o, r)) db1 (fun o' Ho => Hr o' ltac:(by right)) (fun o' now Ho => Hn o' now ltac:(by right)) Hc' Hb').
  by destruct (run ttl os db1).
Qed.

(** C38: the permits of an organization never exceed its cap, whatever the clients
    do: after any interleaving of acquisitions, releases, heartbeats and counts of
    any clients, starting from a store that respects the cap [L] and with every
    acquisition resolving to a cap of at most [L], at most [L] permits are held;
    and the permits that clients believe live at a time [T] that no client's
    clock has passed (granted, not released, refreshed within the TTL) are all
    among them, so at most [L] clients run, and a live client's heartbeat and
    repeated acquisition always succeed. *)
Theorem live_permits_bounded (scope : PermitScope) (org : string) (L T : Z) (os : list op) (db : DB)
    (log : list (op * reply)) (db' : DB)
    (Hrun : run ttl os db = (log, db'))
    (Hinit : zcard db (_semaphore_key org scope) <= L)
    (Hcap : forall o, o ∈ os -> respects scope org L o)
    (Hclock : forall o now, o ∈ os -> op_now o = Some now -> now <= T) :
  let key := _semaphore_key org scope in
  let holders := live key T (foldl note ∅ log) in
  Z.of_nat (size holders) <= zcard db' key <= L /\
  forall id, id ∈ holders ->
    (_heartbeat org id scope T db').1 = true /\
    forall limit, acquired (_acquire ttl org id limit scope T db').1 = true.
Proof.
  intros key holders. destruct (run_inv scope org L T os ∅ db Hcap Hclock Hinit) as [Hc Hb].
  { intros k m r Hr. by rewrite lookup_empty in Hr. }
  rewrite Hrun in Hc, Hb. simpl in Hc, Hb.
  assert (forall id, id ∈ holders -> exists r, zscore db' key id = Some r /\ T - ttl < r) as Hin.
  { intros id (r & Hr & Hl)%elem_of_live. exists r. split; [by apply Hb|done]. }
  split; [split; [|done]|].
  - destruct (zcard_members db' key) as (ms & Hms & ->). apply inj_le, subseteq_size. intros id Hid.
    apply Hms. destruct (Hin id Hid) as (r & -> & _). done.
  - intros id (r & Hr & Hl)%Hin. split.
    + unfold _heartbeat, heartbeat_script. fold key. by rewrite Hr.
    + intros limit. unfold _acquire, acquire_script. fold key.
      assert (zscore (zremrangebyscore key (T - ttl) db') key id = Some r) as -> by (by apply zscore_prune). done.
Qed.
End Facts.

(** ** The interface is inhabited *)

Definition mem_db : Type := gmap (string * string) Z.

#[export] Instance mem_sets : SortedSets mem_db := {
  zscore db k m := db !! (k, m);
  zadd k s m db := <[(k, m) := s]> db;
  zrem k m db := delete (k, m) db;
  zremrangebyscore k hi db := filter (fun kv : (string * string) * Z => ~ (kv.1.1 = k /\ kv.2 <= hi)) db;
  zcard db k := Z.of_nat (size (set_map snd (dom (filter (fun kv : (string * string) * Z => kv.1.1 = k) db)) : gset string)) }.

#[export] Instance mem_laws : SortedSetLaws mem_db.
Proof.
  split; unfold zscore, zadd, zrem, zremrangebyscore, zcard, mem_sets, mem_db.
  - intros k s m db k' m'. destruct (decide (k' = k /\ m' = m)) as [[-> ->]|Hne];
      [by rewrite lookup_insert_eq|by rewrite lookup_insert_ne by naive_solver].
  - intros k m db k' m'. destruct (decide (k' = k /\ m' = m)) as [[-> ->]|Hne];
      [by rewrite lookup_delete_eq|by rewrite lookup_delete_ne by naive_solver].
  - intros k hi db k' m'. rewrite map_lookup_filter. destruct (db !! (k', m')) as [s|]; simpl; [|by case_decide].
    destruct (decide (k' = k)) as [->|Hk]; [|by rewrite option_guard_True by naive_solver].
    destruct (Z.leb_spec s hi); [rewrite option_guard_False by naive_solver|rewrite option_guard_True by naive_solver lia]; done.
  - intros db k. eexists. split; [|done]. intros m. rewrite elem_of_map. split.
    + intros ([k' m'] & -> & [r [Hr Hk]%map_lookup_filter_Some]%elem_of_dom). simpl in *. subst. by exists r.
    + intros [r Hr]. exists (k, m). split; [done|]. apply elem_of_dom. exists r. by apply map_lookup_filter_Some.
Qed.

(** Three clients and a cap of two: the third is refused, until the first has been
    silent for longer than the TTL of 300 seconds. *)
Definition ex_limits : EffectiveLimits := MkLimits None None (Some 2) None None.
Definition ex_acquire (id : string) (now : Z) : op := Acquire WORKFLOW "o" id now (Ok (Some ex_limits)) (Ok ex_limits).
Definition ex_trace : list op :=
  [ex_acquire "a" 0; ex_acquire "b" 10; ex_acquire "c" 20; Heartbeat WORKFLOW "o" "b" 200; ex_acquire "c" 310].

Lemma live_permits_bounded_witness :
  Z.of_nat (size (live 300 (_semaphore_key "o" WORKFLOW) 310 (foldl note ∅ (run 300 ex_trace (∅ : mem_db)).1)))
    <= zcard (run 300 ex_trace (∅ : mem_db)).2 (_semaphore_key "o" WORKFLOW) <= 2 /\
  forall id, id ∈ live 300 (_semaphore_key "o" WORKFLOW) 310 (foldl note ∅ (run 300 ex_trace (∅ : mem_db)).1) ->
    (_heartbeat "o" id WORKFLOW 310 (run 300 ex_trace (∅ : mem_db)).2).1 = true /\
    forall limit, acquired (_acquire 300 "o" id limit WORKFLOW 310 (run 300 ex_trace (∅ : mem_db)).2).1 = true.
Proof.
  apply (live_permits_bounded 300 WORKFLOW "o" 2 310 ex_trace (∅ : mem_db) (run 300 ex_trace (∅ : mem_db)).1
           (run 300 ex_trace (∅ : mem_db)).2).
  - by destruct (run 300 ex_trace (∅ : mem_db)).
  - vm_compute. discriminate.
  - intros o Ho. unfold ex_trace in Ho. rewrite !elem_of_cons in Ho.
    destruct Ho as [->|[->|[->|[->|[->|Ho]]]]]; simpl; try (intros _ _ l [= <-]; lia); [done|by apply not_elem_of_nil in Ho].
  - intros o now Ho. unfold ex_trace in Ho. rewrite !elem_of_cons in Ho.
    destruct Ho as [->|[->|[->|[->|[->|Ho]]]]]; simpl; try (intros [= <-]; lia). by apply not_elem_of_nil in Ho.
Defined.

Lemma acquire_decision_witness :
  exists holders : gset string,
    (forall m, m ∈ holders <-> fresh 300 (run 300 ex_trace (∅ : mem_db)).2 (_semaphore_key "o" WORKFLOW) 320 m) /\
    (acquired (_acquire 300 "o" "d" 2 WORKFLOW 320 (run 300 ex_trace (∅ : mem_db)).2).1 = true <->
       "d" ∈ holders \/ Z.of_nat (size holders) < 2) /\
    acquired (_acquire 300 "o" "d" 2 WORKFLOW 320 (run 300 ex_trace (∅ : mem_db)).2).1 = false.
Proof.
  destruct (acquire_decision 300 "o" "d" WORKFLOW 2 320 (run 300 ex_trace (∅ : mem_db)).2) as (holders & H1 & H2 & _).
  exists holders. split; [exact H1|]. split; [exact H2|]. vm_compute. reflexivity.
Defined.

Example ex_replies :
  map (fun e => match e.2 with RAcquire (Ok r) => Some (acquired (po_result r), current_count (po_result r)) | _ => None end)
    (run 300 ex_trace (∅ : mem_db)).1
  = [Some (true, 1); Some (true, 2); Some (false, 2); None; Some (true, 2)].
Proof. vm_compute. reflexivity. Qed.
