(* ===== verification/Base62.v ===== *)
(** Positional numerals over an alphabet, and their two uses in the code:
    the base-62 short identifiers of [tracecat/base62.py], and the decimal
    [str(int)] / [int(str)] of Python that stream identifiers are built with. *)

From S2P Require Import Prelude PyStr.

(** ** Positional numerals over any alphabet *)

Section Positional.
Variable chars : list ascii.
Abbreviation base := (Z.of_nat (length chars)).

(** [{char: i for i, char in enumerate(chars)}[c]]. *)
Fixpoint char_index_from (cs : list ascii) (i : Z) (c : ascii) : option Z :=
  match cs with
  | [] => None
  | a :: cs' => if decide (a = c) then Some i else char_index_from cs' (i + 1) c
  end.
Definition char_index (c : ascii) : option Z := char_index_from chars 0 c.

Definition digit_char (d : Z) : ascii := nth (Z.to_nat d) chars "0"%char.

(** The [while num: num, remainder = divmod(num, base)] loop; the list is the
    code's [encoded], least significant digit first. *)
Fixpoint digits_loop (fuel : nat) (num : Z) : list ascii :=
  match fuel with
  | O => []
  | S fuel' =>
      if num =? 0 then []
      else digit_char (num mod base) :: digits_loop fuel' (num / base)
  end.

Definition digits_fuel (num : Z) : nat := S (Z.to_nat (Z.log2 num)).

Fixpoint string_of (cs : list ascii) : string :=
  match cs with
  | [] => EmptyString
  | c :: cs' => String c (string_of cs')
  end.

Definition encode_pos (num : Z) : string :=
  string_of (rev (digits_loop (digits_fuel num) num)).

(** The [for char in encoded: num = num * base + map[char]] loop. *)
Fixpoint decode_from (num : Z) (s : string) : option Z :=
  match s with
  | EmptyString => Some num
  | String c s' =>
      match char_index c with
      | Some d => decode_from (num * base + d) s'
      | None => None
      end
  end.

Lemma char_index_from_nth cs k i d :
  NoDup cs -> cs !! i = Some d -> char_index_from cs k d = Some (k + Z.of_nat i).
Proof.
  revert k i; induction cs as [|a cs IH]; intros k i Hnd Hi; [done|].
  apply NoDup_cons in Hnd as [Ha Hnd]. destruct i as [|i]; simpl in *.
  - injection Hi as ->. rewrite decide_True by done. f_equal; lia.
  - rewrite decide_False.
    + rewrite (IH _ i) by done. f_equal; lia.
    + intros ->. apply Ha. by eapply list_elem_of_lookup_2.
Qed.

Lemma char_index_from_Some cs k c d :
  char_index_from cs k c = Some d ->
  k <= d < k + Z.of_nat (length cs) /\ nth (Z.to_nat (d - k)) cs "0"%char = c.
Proof.
  revert k; induction cs as [|a cs IH]; intros k H; simpl in *; [done|].
  case_decide.
  - injection H as <-. rewrite Z.sub_diag. split; [lia|done].
  - apply IH in H as [H1 H2]. split; [lia|].
    replace (Z.to_nat (d - k)) with (S (Z.to_nat (d - (k + 1)))) by lia. done.
Qed.

Hypothesis chars_nodup : NoDup chars.
Hypothesis base_ge_2 : 2 <= base.

Lemma char_index_digit d : 0 <= d < base -> char_index (digit_char d) = Some d.
Proof.
  intros Hd. unfold char_index, digit_char.
  destruct (lookup_lt_is_Some_2 chars (Z.to_nat d)) as [c Hc]; [lia|].
  rewrite (nth_lookup_Some _ _ _ _ Hc).
  rewrite (char_index_from_nth _ _ _ _ chars_nodup Hc). f_equal; lia.
Qed.

Lemma char_index_Some c d :
  char_index c = Some d -> 0 <= d < base /\ digit_char d = c.
Proof.
  unfold char_index, digit_char. intros H.
  apply char_index_from_Some in H as [H1 H2].
  rewrite Z.sub_0_r in H2. split; [lia|done].
Qed.

(** The value of a digit list, least significant first. *)
Fixpoint value_lsf (cs : list ascii) : option Z :=
  match cs with
  | [] => Some 0
  | c :: cs' =>
      match char_index c, value_lsf cs' with
      | Some d, Some v => Some (d + base * v)
      | _, _ => None
      end
  end.

Lemma fuel_step num : 0 < num -> (digits_fuel (num / base) <= Z.to_nat (Z.log2 num))%nat \/ num / base = 0.
Proof.
  intros Hn. destruct (Z.eq_dec (num / base) 0) as [|Hq]; [by right|left].
  unfold digits_fuel.
  assert (0 < num / base) by (pose proof (Z.div_pos num base); lia).
  assert (Z.log2 (num / base) < Z.log2 num).
  { apply Z.log2_lt_pow2; [done|].
    pose proof (Z.log2_spec num Hn) as [_ Hub].
    apply Z.div_lt_upper_bound; [lia|].
    rewrite Z.pow_succ_r in Hub by apply Z.log2_nonneg.
    pose proof (Z.pow_pos_nonneg 2 (Z.log2 num)). pose proof (Z.log2_nonneg num). nia. }
  pose proof (Z.log2_nonneg (num / base)). lia.
Qed.

Lemma digits_loop_0 fuel : digits_loop fuel 0 = [].
Proof. by destruct fuel. Qed.

Lemma digits_loop_value fuel num :
  0 <= num -> num = 0 \/ (digits_fuel num <= fuel)%nat ->
  value_lsf (digits_loop fuel num) = Some num.
Proof.
  revert num; induction fuel as [|fuel IH]; intros num Hn Hf.
  - destruct Hf as [->|Hf]; [done|]. unfold digits_fuel in Hf. lia.
  - simpl. destruct (Z.eqb_spec num 0) as [->|Hne]; [done|]. simpl.
    rewrite char_index_digit by (apply Z.mod_pos_bound; lia).
    rewrite IH.
    + f_equal. pose proof (Z.div_mod num base). lia.
    + apply Z.div_pos; lia.
    + destruct Hf as [|Hf]; [lia|]. unfold digits_fuel in Hf at 1.
      destruct (fuel_step num) as [|Hz]; [lia|right; lia|by left].
Qed.

Lemma decode_from_app num cs c :
  decode_from num (string_of (cs ++ [c])) =
  match decode_from num (string_of cs), char_index c with
  | Some v, Some d => Some (v * base + d)
  | _, _ => None
  end.
Proof.
  revert num; induction cs as [|a cs IH]; intros num; simpl.
  - by destruct (char_index c).
  - destruct (char_index a); [apply IH|done].
Qed.

Lemma decode_rev cs : decode_from 0 (string_of (rev cs)) = value_lsf cs.
Proof.
  induction cs as [|c cs IH]; simpl; [done|].
  rewrite decode_from_app, IH.
  destruct (value_lsf cs), (char_index c); try done. f_equal; lia.
Qed.

(** Decoding inverts encoding. *)
Lemma decode_encode num : 0 <= num -> decode_from 0 (encode_pos num) = Some num.
Proof.
  intros Hn. unfold encode_pos. rewrite decode_rev.
  apply digits_loop_value; [done|by right].
Qed.

(** Every character of an encoding is a character of the alphabet. *)
Lemma digits_loop_in fuel num c : c ∈ digits_loop fuel num -> c ∈ chars.
Proof.
  revert num; induction fuel as [|fuel IH]; intros num; simpl; [by inversion 1|].
  destruct (num =? 0); [by inversion 1|].
  intros [->|H]%elem_of_cons; [|eauto].
  unfold digit_char. pose proof (Z.mod_pos_bound num base).
  destruct (lookup_lt_is_Some_2 chars (Z.to_nat (num mod base))) as [c' Hc]; [lia|].
  rewrite (nth_lookup_Some _ _ _ _ Hc). by eapply list_elem_of_lookup_2.
Qed.

(** An encoding of a number below [base ^ k] has at most [k] characters. *)
Lemma digits_loop_length fuel num (k : nat) :
  0 <= num < base ^ Z.of_nat k -> (length (digits_loop fuel num) <= k)%nat.
Proof.
  revert num k; induction fuel as [|fuel IH]; intros num k Hn; simpl; [lia|].
  destruct (Z.eqb_spec num 0); simpl; [lia|].
  destruct k as [|k]; [simpl in Hn; lia|].
  apply le_n_S, IH. rewrite Nat2Z.inj_succ, Z.pow_succ_r in Hn by lia.
  split; [apply Z.div_pos; lia|]. apply Z.div_lt_upper_bound; lia.
Qed.

Lemma string_of_length cs : String.length (string_of cs) = length cs.
Proof. induction cs; simpl; congruence. Qed.

Lemma encode_pos_length num (k : nat) :
  0 <= num < base ^ Z.of_nat k -> (String.length (encode_pos num) <= k)%nat.
Proof.
  intros. unfold encode_pos. rewrite string_of_length, length_rev.
  by apply digits_loop_length.
Qed.

Lemma has_char_string_of c cs : has_char c (string_of cs) = true <-> c ∈ cs.
Proof.
  induction cs as [|a cs IH]; simpl.
  - split; [done|by inversion 1].
  - rewrite orb_true_iff, bool_decide_eq_true, IH, elem_of_cons.
    split; (intros [H|H]; [left; by symmetry|by right]).
Qed.

Lemma encode_pos_no_char num c : c ∉ chars -> has_char c (encode_pos num) = false.
Proof.
  intros Hc. apply not_true_is_false. unfold encode_pos.
  rewrite has_char_string_of. intros H. apply Hc.
  apply (digits_loop_in (digits_fuel num) num).
  apply list_elem_of_In, in_rev, list_elem_of_In. done.
Qed.

Lemma decode_from_range num s v :
  0 <= num -> decode_from num s = Some v -> num <= v.
Proof.
  revert num; induction s as [|c s IH]; intros num Hn; simpl.
  - intros [= ->]. lia.
  - destruct (char_index c) as [d|] eqn:E; [|done]. apply char_index_Some in E as [Hd _].
    intros H. apply IH in H; nia.
Qed.

(** A numeral whose first digit is not zero is the encoding of its value. *)
Lemma digits_of_value cs v :
  value_lsf cs = Some v -> (cs = [] \/ exists c d, last cs = Some c /\ char_index c = Some d /\ d <> 0) ->
  0 <= v /\ (cs <> [] -> 0 < v) /\
  forall fuel, v = 0 \/ (digits_fuel v <= fuel)%nat -> digits_loop fuel v = cs.
Proof.
  revert v; induction cs as [|c cs IH]; intros v Hv Hl.
  - injection Hv as <-. split; [lia|]. split; [done|]. intros. apply digits_loop_0.
  - simpl in Hv. destruct (char_index c) as [d|] eqn:Ec; [|done].
    destruct (value_lsf cs) as [w|] eqn:Ew; [|done]. injection Hv as <-.
    pose proof (char_index_Some _ _ Ec) as [Hd Hdc].
    assert (0 <= w /\ (cs <> [] -> 0 < w) /\
      forall fuel, w = 0 \/ (digits_fuel w <= fuel)%nat -> digits_loop fuel w = cs)
      as (Hw & Hwp & Hdig).
    { apply IH; [done|]. destruct Hl as [|(c' & d' & Hlast & ?)]; [done|].
      destruct cs as [|a cs]; [by left|right]. exists c', d'. done. }
    assert (0 < d + base * w) as Hpos.
    { destruct cs as [|a cs].
      - injection Ew as <-. destruct Hl as [|(c' & d' & [= <-] & Hc' & ?)]; [done|].
        rewrite Ec in Hc'. injection Hc' as <-. lia.
      - assert (0 < w) by (by apply Hwp). nia. }
    split; [lia|]. split; [done|]. intros fuel Hf.
    destruct Hf as [|Hf]; [lia|].
    destruct fuel as [|fuel]; [unfold digits_fuel in Hf; lia|]. simpl.
    destruct (Z.eqb_spec (d + base * w) 0) as [|_]; [lia|].
    assert ((d + base * w) mod base = d) as Hmod.
    { rewrite Z.mul_comm, Z.mod_add by lia. apply Z.mod_small; lia. }
    assert ((d + base * w) / base = w) as Hdiv.
    { symmetry. apply Z.div_unique with d; lia. }
    rewrite Hmod, Hdiv, Hdc, Hdig; [done|].
    destruct (fuel_step (d + base * w)) as [H|H]; [lia| |].
    + rewrite Hdiv in H. right. unfold digits_fuel in Hf at 1. lia.
    + rewrite Hdiv in H. by left.
Qed.
End Positional.

(** ** Base-62 identifiers ([tracecat/base62.py]) *)

Module B62.
(** [_BASE62_CHARS]. *)
Definition BASE62_CHARS : list ascii :=
  String.list_ascii_of_string "0123456789abcdefghijklmnopqrstuvwxyzABCDEFGHIJKLMNOPQRSTUVWXYZ".

Definition b62encode (num : Z) : result string :=
  if num <? 0 then raise ValueError "Number must be non-negative"
  else if num =? 0 then Ok (string_of [nth 0 BASE62_CHARS "0"%char])
  else Ok (encode_pos BASE62_CHARS num).

Definition b62decode (encoded : string) : result Z :=
  match decode_from BASE62_CHARS 0 encoded with
  | Some num => Ok num
  | None => raise ValueError "Invalid base62 character"
  end.

Lemma chars_nodup : NoDup BASE62_CHARS.
Proof. apply (bool_decide_unpack _). by vm_compute. Qed.

Lemma chars_base : Z.of_nat (length BASE62_CHARS) = 62.
Proof. reflexivity. Qed.

(** Base-62 encoding round-trips: every non-negative integer is encoded,
    and decoding the encoding gives it back. *)
Theorem b62_roundtrip (num : Z) (Hnum : 0 <= num) :
  exists s, b62encode num = Ok s /\ b62decode s = Ok num.
Proof.
  unfold b62encode, b62decode. destruct (Z.ltb_spec num 0); [lia|].
  destruct (Z.eqb_spec num 0) as [->|Hne].
  - eexists. split; [done|]. by vm_compute.
  - eexists. split; [done|].
    by rewrite (decode_encode _ chars_nodup) by (rewrite ?chars_base; lia).
Qed.

Lemma b62_roundtrip_witness :
  0 <= 238327 /\ exists s, b62encode 238327 = Ok s /\ b62decode s = Ok 238327.
Proof. split; [lia|]. apply (b62_roundtrip 238327). lia. Defined.

Lemma string_of_list s : string_of (String.list_ascii_of_string s) = s.
Proof. induction s as [|a s IH]; simpl; [done|]. by rewrite IH. Qed.

(** The encoding is canonical: a base-62 string with no leading zero is
    exactly what encoding its value produces, so two distinct such strings
    never denote the same identifier. *)
Theorem b62_canonical (c : ascii) (s : string) (num : Z)
  (Hlead : c <> "0"%char) (Hdec : b62decode (String c s) = Ok num) :
  b62encode num = Ok (String c s) /\ 0 < num.
Proof.
  unfold b62decode, b62encode in *.
  destruct (decode_from BASE62_CHARS 0 (String c s)) as [v|] eqn:E; [|done].
  injection Hdec as ->.
  set (cs := rev (String.list_ascii_of_string (String c s))).
  assert (value_lsf BASE62_CHARS cs = Some num) as Hv.
  { rewrite <- decode_rev. unfold cs. by rewrite rev_involutive, string_of_list. }
  assert (exists d, char_index BASE62_CHARS c = Some d /\ d <> 0) as (d & Hd & Hd0).
  { simpl in E. destruct (char_index BASE62_CHARS c) as [d|] eqn:Ec; [|done].
    exists d. split; [done|]. intros ->.
    apply char_index_Some in Ec as [_ Ec]. by subst c. }
  destruct (digits_of_value BASE62_CHARS ltac:(rewrite chars_base; lia) cs num Hv)
    as (H0 & Hpos & Hdig).
  { right. exists c, d. split; [|done]. unfold cs. simpl. by rewrite last_snoc. }
  assert (0 < num) as Hp.
  { apply Hpos. unfold cs. simpl. intros Hnil. by apply app_nil in Hnil as [_ ?]. }
  split; [|done].
  destruct (Z.ltb_spec num 0); [lia|]. destruct (Z.eqb_spec num 0); [lia|].
  unfold encode_pos. rewrite Hdig by (by right).
  unfold cs. by rewrite rev_involutive, string_of_list.
Qed.

Lemma b62_canonical_witness :
  "7"%char <> "0"%char /\ b62decode "7n42" = Ok 1756958 /\
  b62encode 1756958 = Ok "7n42" /\ 0 < 1756958.
Proof.
  split; [discriminate|]. split; [reflexivity|].
  apply (b62_canonical "7" "n42" 1756958); [discriminate|reflexivity].
Defined.

(** A 128-bit UUID is encoded in at most 22 characters, all of them
    base-62 digits (in particular no [_] or [-] that separates the parts of
    the identifiers built from it). *)
Theorem b62_uuid_bound (num : Z) (Hnum : 0 <= num < 2 ^ 128) :
  exists s, b62encode num = Ok s /\ (1 <= String.length s <= 22)%nat /\
            forall c, has_char c s = true -> c ∈ BASE62_CHARS.
Proof.
  unfold b62encode. destruct (Z.ltb_spec num 0); [lia|].
  destruct (Z.eqb_spec num 0) as [->|Hne].
  - eexists. split; [done|]. split; [simpl; lia|].
    intros c. simpl. rewrite orb_false_r, bool_decide_eq_true. intros <-. by left.
  - eexists. split; [done|]. split.
    + split.
      * unfold encode_pos, digits_fuel. simpl.
        destruct (Z.eqb_spec num 0); [done|]. simpl.
        rewrite string_of_length, length_app. simpl. lia.
      * apply (encode_pos_length BASE62_CHARS).
        { rewrite chars_base; lia. }
        rewrite chars_base. split; [lia|].
        eapply Z.lt_le_trans; [apply Hnum|]. by vm_compute.
    + intros c Hc. destruct (decide (c ∈ BASE62_CHARS)); [done|].
      by rewrite encode_pos_no_char in Hc.
Qed.

Lemma b62_uuid_bound_witness :
  exists s, b62encode (2 ^ 128 - 1) = Ok s /\ (1 <= String.length s <= 22)%nat /\
            forall c, has_char c s = true -> c ∈ BASE62_CHARS.
Proof. apply (b62_uuid_bound (2 ^ 128 - 1)). lia. Defined.
End B62.

(** ** Decimal [str(int)] and [int(str)] *)

Module Decimal.
Definition DIGITS : list ascii := String.list_ascii_of_string "0123456789".

Lemma digits_nodup : NoDup DIGITS.
Proof. apply (bool_decide_unpack _). by vm_compute. Qed.
Lemma digits_base : Z.of_nat (length DIGITS) = 10.
Proof. reflexivity. Qed.

(** [str(z)]. *)
Definition py_str_int (z : Z) : string :=
  if z =? 0 then "0"
  else if z <? 0 then String "-" (encode_pos DIGITS (- z))
  else encode_pos DIGITS z.

Fixpoint drop_spaces (l : list ascii) : list ascii :=
  match l with
  | c :: l' => if is_space c then drop_spaces l' else l
  | [] => []
  end.

(** [s.strip()]. *)
Definition strip (l : list ascii) : list ascii := rev (drop_spaces (rev (drop_spaces l))).

(** Digits with single underscores between them, as [int()] accepts. *)
Fixpoint int_digits (num : Z) (after_digit : bool) (l : list ascii) : option Z :=
  match l with
  | [] => if after_digit then Some num else None
  | c :: l' =>
      match char_index DIGITS c with
      | Some d => int_digits (num * 10 + d) true l'
      | None => if bool_decide (c = "_"%char) && after_digit
                then match l' with [] => None | _ => int_digits num false l' end
                else None
      end
  end.

(** [int(s)]; [None] is the [ValueError]. *)
Definition py_int (s : string) : option Z :=
  match strip (String.list_ascii_of_string s) with
  | "-"%char :: l => Z.opp <$> int_digits 0 false l
  | "+"%char :: l => int_digits 0 false l
  | l => int_digits 0 false l
  end.

Lemma drop_spaces_id l : (forall c, c ∈ l -> is_space c = false) -> drop_spaces l = l.
Proof. destruct l as [|c l]; intros H; simpl; [done|]. by rewrite H by left. Qed.

Lemma strip_id l : (forall c, c ∈ l -> is_space c = false) -> strip l = l.
Proof.
  intros H. unfold strip. rewrite (drop_spaces_id l) by done.
  rewrite drop_spaces_id; [by rewrite rev_involutive|].
  intros c Hc. apply H. by apply list_elem_of_In, in_rev, list_elem_of_In.
Qed.

Lemma list_string_of l : String.list_ascii_of_string (string_of l) = l.
Proof. induction l as [|a l IH]; simpl; [done|]. by rewrite IH. Qed.

Lemma int_digits_decode num l v b :
  decode_from DIGITS num (string_of l) = Some v -> (l <> [] \/ b = true) ->
  int_digits num b l = Some v.
Proof.
  revert num b; induction l as [|c l IH]; intros num b H Hb; simpl in *.
  - destruct Hb as [Hb|Hb]; [done|subst b]. by injection H as ->.
  - destruct (char_index DIGITS c) as [d|]; [|done].
    apply IH; [|by right]. exact H.
Qed.

Lemma encode_digits num c :
  c ∈ rev (digits_loop DIGITS (digits_fuel num) num) -> c ∈ DIGITS.
Proof.
  intros H. apply (digits_loop_in DIGITS ltac:(rewrite digits_base; lia) (digits_fuel num) num).
  by apply list_elem_of_In, in_rev, list_elem_of_In.
Qed.

Lemma encode_nonnil num : 0 < num -> rev (digits_loop DIGITS (digits_fuel num) num) <> [].
Proof.
  intros Hn. unfold digits_fuel. simpl. destruct (Z.eqb_spec num 0); [lia|].
  simpl. intros Hnil. by apply app_nil in Hnil as [_ ?].
Qed.

Lemma digit_facts c : c ∈ DIGITS -> is_space c = false /\ c <> "-"%char /\ c <> "+"%char
  /\ c <> ":"%char /\ c <> "/"%char.
Proof.
  intros H. cut (forallb (fun c => negb (is_space c) && negb (bool_decide (c = "-"%char))
    && negb (bool_decide (c = "+"%char)) && negb (bool_decide (c = ":"%char))
    && negb (bool_decide (c = "/"%char))) DIGITS = true); [|by vm_compute].
  intros Hall. rewrite forallb_elem in Hall. specialize (Hall c H).
  rewrite !andb_true_iff, !negb_true_iff, !bool_decide_eq_false in Hall. naive_solver.
Qed.

Lemma int_encode num : 0 < num -> py_int (encode_pos DIGITS num) = Some num.
Proof.
  intros Hn. unfold py_int, encode_pos.
  pose proof (encode_nonnil num Hn) as Hne.
  pose proof (decode_encode DIGITS digits_nodup ltac:(rewrite digits_base; lia) num ltac:(lia)) as Hd.
  unfold encode_pos in Hd.
  rewrite list_string_of, strip_id by (intros c Hc%encode_digits; by apply digit_facts).
  pose proof (encode_digits num) as Hin.
  destruct (rev _) as [|c l] eqn:E; [done|].
  assert (c ∈ DIGITS) as (_ & Hm & Hp & _)%digit_facts by (apply Hin; by left).
  apply (int_digits_decode _ _ _ false) in Hd; [|by left].
  rewrite <- Hd. destruct c as [[] [] [] [] [] [] [] []]; congruence || reflexivity.
Qed.

(** Python's [int(str(i))] round trip, as the stream identifiers use it. *)
Theorem py_int_str (z : Z) : py_int (py_str_int z) = Some z.
Proof.
  unfold py_str_int. destruct (Z.eqb_spec z 0) as [->|]; [done|].
  destruct (Z.ltb_spec z 0); [|apply int_encode; lia].
  unfold py_int. simpl. rewrite strip_id.
  - pose proof (int_encode (- z) ltac:(lia)) as H1.
    unfold encode_pos in *. rewrite list_string_of. unfold py_int in H1.
    rewrite list_string_of, strip_id in H1 by (intros c Hc%encode_digits; by apply digit_facts).
    pose proof (decode_encode DIGITS digits_nodup ltac:(rewrite digits_base; lia) (- z) ltac:(lia)) as Hd.
    unfold encode_pos in Hd.
    rewrite (int_digits_decode _ _ (- z) false Hd) by (left; apply encode_nonnil; lia).
    simpl. f_equal. lia.
  - intros c Hc. apply elem_of_cons in Hc as [->|Hc]; [done|].
    unfold encode_pos in Hc. rewrite list_string_of in Hc.
    apply encode_digits in Hc. by apply digit_facts.
Qed.

Lemma py_str_int_no_char z c :
  c = ":"%char \/ c = "/"%char -> has_char c (py_str_int z) = false.
Proof.
  intros Hc. unfold py_str_int.
  assert (c ∉ DIGITS) as Hn.
  { intros H%digit_facts. naive_solver. }
  pose proof (fun n => encode_pos_no_char DIGITS ltac:(rewrite digits_base; lia) n c Hn) as He.
  destruct (z =? 0); [naive_solver|]. destruct (z <? 0); simpl; rewrite He; [|done].
  rewrite orb_false_r. apply bool_decide_eq_false. naive_solver.
Qed.
End Decimal.
