(* ===== verification/Identifiers.v ===== *)
(** The identifiers of resources ([tracecat/identifiers]): 128-bit UUIDs of a class, their
    short, full and legacy spellings, and the identifiers of executions that are composed
    of them.  Identifiers are ASCII strings. *)

From S2P Require Import Prelude PyStr Base62.

(** ** Strings *)

(** [s[n:]]. *)
Fixpoint str_drop (n : nat) (s : string) : string :=
  match n, s with
  | S n', String _ s' => str_drop n' s'
  | _, _ => s
  end.

(** Filling up with zeros on the left: [s.zfill(w)] of a string without sign, and the
    width of a ["%0wx"] format. *)
Definition zfill (w : nat) (s : string) : string := string_of (repeat "0"%char (w - String.length s)) +:+ s.

(** [s.replace(p, "")] for a non-empty [p]; [skip] counts the characters of an occurrence
    still to be dropped. *)
Fixpoint remove_all (p : list ascii) (skip : nat) (l : list ascii) : list ascii :=
  match l with
  | [] => []
  | c :: l' =>
      match skip with
      | S k => remove_all p k l'
      | O => if bool_decide (take (length p) l = p) then remove_all p (pred (length p)) l' else c :: remove_all p 0 l'
      end
  end.

Fixpoint drop_chars (cs : list ascii) (l : list ascii) : list ascii :=
  match l with
  | c :: l' => if bool_decide (c ∈ cs) then drop_chars cs l' else l
  | [] => []
  end.

(** [s.strip(cs)]. *)
Definition strip_chars (cs l : list ascii) : list ascii := rev (drop_chars cs (rev (drop_chars cs l))).

Abbreviation chars := String.list_ascii_of_string.

(** The longest prefix whose characters satisfy [p], and the rest. *)
Fixpoint span (p : ascii -> bool) (l : list ascii) : list ascii * list ascii :=
  match l with
  | [] => ([], [])
  | c :: l' => if p c then let '(a, b) := span p l' in (c :: a, b) else ([], l)
  end.

(** ** [uuid.UUID] *)

Definition HEX_DIGITS : list ascii := chars "0123456789abcdef".

Definition hex_value (c : ascii) : option Z :=
  match char_index HEX_DIGITS c with
  | Some d => Some d
  | None => Z.add 10 <$> char_index (chars "ABCDEF") c
  end.

Fixpoint hex_digits (num : Z) (after_digit : bool) (l : list ascii) : option Z :=
  match l with
  | [] => if after_digit then Some num else None
  | c :: l' =>
      match hex_value c with
      | Some d => hex_digits (num * 16 + d) true l'
      | None => if bool_decide (c = "_"%char) && after_digit then hex_digits num false l' else None
      end
  end.

Definition hex_unsigned (l : list ascii) : option Z :=
  match l with
  | "0"%char :: ("x"%char | "X"%char) :: "_"%char :: l' => hex_digits 0 false l'
  | "0"%char :: ("x"%char | "X"%char) :: l' => hex_digits 0 false l'
  | _ => hex_digits 0 false l
  end.

(** [int(s, 16)]; [None] is the [ValueError]. *)
Definition py_int_16 (l : list ascii) : option Z :=
  match Decimal.strip l with
  | "-"%char :: l => Z.opp <$> hex_unsigned l
  | "+"%char :: l => hex_unsigned l
  | l => hex_unsigned l
  end.

(** [UUID(int=n)]; a UUID is its [int]. *)
Definition uuid_of_int (n : Z) : result Z :=
  if (0 <=? n) && (n <? 2 ^ 128) then Ok n else raise ValueError "int is out of range (need a 128-bit value)".

(** [UUID(s)]. *)
Definition uuid_of_str (s : string) : result Z :=
  let hex := remove_all (chars "uuid:") 0 (remove_all (chars "urn:") 0 (chars s)) in
  let hex := remove_all (chars "-") 0 (strip_chars (chars "{}") hex) in
  if negb (Nat.eqb (length hex) 32) then raise ValueError "badly formed hexadecimal UUID string"
  else match py_int_16 hex with
       | Some n => uuid_of_int n
       | None => raise ValueError "invalid literal for int() with base 16"
       end.

(** [self.hex] and [str(self)]. *)
Definition uuid_hex (n : Z) : string := zfill 32 (encode_pos HEX_DIGITS n).

Definition uuid_str (n : Z) : string :=
  let h := chars (uuid_hex n) in
  string_of (take 8 h) +:+ "-" +:+ string_of (take 4 (drop 8 h)) +:+ "-" +:+ string_of (take 4 (drop 12 h)) +:+ "-" +:+
  string_of (take 4 (drop 16 h)) +:+ "-" +:+ string_of (drop 20 h).

(** ** [TracecatUUID] ([identifiers/common.py]) and its classes *)

Definition id_to_short (n : Z) (prefix : string) : result string :=
  let! suffix := B62.b62encode n in
  Ok (prefix +:+ zfill 22 suffix).

Definition id_from_short (short_id prefix : string) : result Z :=
  if negb (starts_with prefix short_id) then raise ValueError "Invalid short ID string"
  else
    let! n := B62.b62decode (str_drop (String.length prefix) short_id) in
    uuid_of_int n.

Inductive uuid_class := WorkflowUUID | ExecutionUUID | WorkspaceUUID | ActionUUID | SecretUUID | ScheduleUUID.

#[export] Instance uuid_class_eq_dec : EqDecision uuid_class.
Proof. solve_decision. Defined.

Definition prefix (c : uuid_class) : string :=
  match c with
  | WorkflowUUID => "wf_" | ExecutionUUID => "exec_" | WorkspaceUUID => "ws_"
  | ActionUUID => "act_" | SecretUUID => "secret_" | ScheduleUUID => "sch_"
  end.

Definition legacy_prefix (c : uuid_class) : option string :=
  match c with
  | WorkflowUUID => Some "wf-" | ExecutionUUID => Some "exec-" | WorkspaceUUID => None
  | ActionUUID => Some "act-" | SecretUUID => Some "secret-" | ScheduleUUID => Some "sch-"
  end.

Definition short (c : uuid_class) (n : Z) : result string := id_to_short n (prefix c).

Definition from_short (c : uuid_class) (short_id : string) : result Z :=
  if negb (starts_with (prefix c) short_id) then raise ValueError "Invalid prefix"
  else let! n := id_from_short short_id (prefix c) in uuid_of_int n.

Definition from_legacy (c : uuid_class) (id : string) : result Z :=
  match legacy_prefix c with
  | None => raise ValueError "Legacy IDs are not supported"
  | Some p => uuid_of_str (str_drop (String.length p) id)
  end.

Definition to_legacy (c : uuid_class) (n : Z) : result string :=
  match legacy_prefix c with
  | None => raise ValueError "Legacy IDs are not supported"
  | Some p => Ok (p +:+ uuid_hex n)
  end.

(** What [new] is called with: a UUID, perhaps of one of the classes, a string, or
    anything else. *)
Inductive any_id := IdUUID (c : option uuid_class) (n : Z) | IdStr (s : string) | IdOther.

Definition new (c : uuid_class) (id : any_id) : result Z :=
  match id with
  | IdUUID _ n => Ok n
  | IdStr s =>
      if starts_with (prefix c) s then from_short c s
      else match legacy_prefix c with
           | Some p => if starts_with p s then from_legacy c s else uuid_of_str s
           | None => uuid_of_str s
           end
  | IdOther => raise ValueError "Invalid ID"
  end.

(** ** Executions ([identifiers/workflow.py], [identifiers/schedules.py], [identifiers/resource.py]) *)

(** [new_uuid4] draws the UUID of the execution. *)
Definition generate_exec_id (workflow_id : any_id) (delimiter : string) (uuid4 : Z) : result string :=
  let! wf_id := new WorkflowUUID workflow_id in
  let! w := short WorkflowUUID wf_id in
  let! e := short ExecutionUUID uuid4 in
  Ok (w +:+ delimiter +:+ e).

Definition generate_resource_id (prefix sep : string) (uuid4 : Z) : string := prefix +:+ sep +:+ uuid_hex uuid4.

Definition exec_suffix_id (uuid4 : Z) : string := generate_resource_id "exec" "-" uuid4.

Definition schedule_id_to_temporal (schedule_id : any_id) : result string :=
  let! n := new ScheduleUUID schedule_id in to_legacy ScheduleUUID n.

Definition is_alnum (c : ascii) : bool := bool_decide (c ∈ B62.BASE62_CHARS).
Definition is_hex (c : ascii) : bool := bool_decide (c ∈ HEX_DIGITS).
Definition is_word_or_dash (c : ascii) : bool := is_alnum c || bool_decide (c = "_"%char) || bool_decide (c = "-"%char).
Definition not_newline (c : ascii) : bool := negb (bool_decide (c = "010"%char)).

(** Matchers return what they matched and the rest. *)
Abbreviation matcher := (list ascii -> option (list ascii * list ascii)).

Definition m_lit (p : string) : matcher := fun l =>
  if bool_decide (take (length (chars p)) l = chars p) then Some (chars p, drop (length (chars p)) l) else None.

Definition m_hex (n : nat) : matcher := fun l =>
  if bool_decide (length (take n l) = n) && forallb is_hex (take n l) then Some (take n l, drop n l) else None.

Definition m_many (p : ascii -> bool) : matcher := fun l => Some (span p l).

Definition m_some (p : ascii -> bool) : matcher := fun l =>
  match span p l with ([], _) => None | (a, b) => Some (a, b) end.

Definition m_seq (m1 m2 : matcher) : matcher := fun l =>
  match m1 l with
  | Some (a, r) => match m2 r with Some (b, r') => Some (a ++ b, r') | None => None end
  | None => None
  end.

Definition m_or (m1 m2 : matcher) : matcher := fun l =>
  match m1 l with Some r => Some r | None => m2 l end.

(** The patterns; no alternative of them matches where another one does, and no
    repetition is followed by one of its own characters, so nothing is retried. *)
Definition WF_ID_PATTERN : matcher :=
  m_or (m_seq (m_lit "wf-") (m_hex 32)) (m_seq (m_lit "wf_") (m_some is_alnum)).

Definition UUID_PATTERN : matcher :=
  m_seq (m_hex 8) (m_seq (m_lit "-") (m_seq (m_hex 4) (m_seq (m_lit "-") (m_seq (m_hex 4)
    (m_seq (m_lit "-") (m_seq (m_hex 4) (m_seq (m_lit "-") (m_hex 12)))))))).

Definition SCHEDULE_EXEC_ID_PATTERN : matcher :=
  m_seq (m_or (m_seq (m_lit "sch-") (m_hex 32)) UUID_PATTERN) (m_seq (m_lit "-") (m_many not_newline)).

Definition WF_EXEC_SUFFIX_PATTERN : matcher :=
  m_or (m_seq (m_lit "exec_") (m_some is_alnum))
    (m_or (m_seq (m_lit "exec-") (m_some is_word_or_dash)) SCHEDULE_EXEC_ID_PATTERN).

Definition exec_id_to_parts (wf_exec_id : string) : result (Z * string) :=
  match WF_ID_PATTERN (chars wf_exec_id) with
  | Some (w, (":"%char | "/"%char) :: r) =>
      match WF_EXEC_SUFFIX_PATTERN r with
      | Some (e, _) => let! wf_id := new WorkflowUUID (IdStr (string_of w)) in Ok (wf_id, string_of e)
      | None => raise ValueError "Invalid workflow execution ID"
      end
  | _ => raise ValueError "Invalid workflow execution ID"
  end.

(** An f-string formats a UUID with [str]. *)
Definition exec_id_from_parts (wf_id : Z) (exec_suffix_id : string) : string := uuid_str wf_id +:+ ":" +:+ exec_suffix_id.

(** The identifier of a scheduled workflow ([create_schedule] of
    [workflow/schedules/bridge.py]); Temporal appends a dash and the time of the run. *)
Definition workflow_schedule_id (workflow_id : Z) (schedule_id : any_id) : result string :=
  let! temporal_schedule_id := schedule_id_to_temporal schedule_id in
  let! w := short WorkflowUUID workflow_id in
  Ok (w +:+ "/" +:+ temporal_schedule_id).

(** ** Spelling and reading *)

Lemma hex_nodup : NoDup HEX_DIGITS.
Proof. apply (bool_decide_unpack _). by vm_compute. Qed.
Lemma hex_base : Z.of_nat (length HEX_DIGITS) = 16.
Proof. reflexivity. Qed.

Lemma chars_string_of l : chars (string_of l) = l.
Proof. apply Decimal.list_string_of. Qed.

Lemma chars_length s : length (chars s) = String.length s.
Proof. induction s as [|c s IH]; simpl; [done|]. by rewrite IH. Qed.

Lemma string_of_app l1 l2 : string_of (l1 ++ l2) = string_of l1 +:+ string_of l2.
Proof. induction l1 as [|c l1 IH]; simpl; [done|]. by rewrite IH. Qed.

Lemma str_drop_app p s : str_drop (String.length p) (p +:+ s) = s.
Proof. by induction p. Qed.

Lemma starts_with_app p s : starts_with p (p +:+ s) = true.
Proof. apply starts_with_spec. eauto. Qed.

(** A string without one of the characters of [p] does not start with [p]. *)
Lemma starts_with_char c p s : has_char c p = true -> has_char c s = false -> starts_with p s = false.
Proof.
  intros Hp Hs. apply not_true_is_false. intros (r & ->)%starts_with_spec.
  rewrite has_char_app, Hp in Hs. done.
Qed.

Lemma zfill_length w s : (String.length s <= w)%nat -> String.length (zfill w s) = w.
Proof. intros H. unfold zfill. rewrite string_length_app, string_of_length, repeat_length. lia. Qed.

Lemma has_char_zfill c w s : c <> "0"%char -> has_char c (zfill w s) = has_char c s.
Proof.
  intros Hc. unfold zfill. rewrite has_char_app. generalize (w - String.length s)%nat. intros n.
  induction n as [|n IH]; simpl; [done|]. by rewrite bool_decide_eq_false_2.
Qed.

Lemma decode_zfill cs w s : char_index cs "0" = Some 0 -> decode_from cs 0 (zfill w s) = decode_from cs 0 s.
Proof.
  intros H0. unfold zfill. generalize (w - String.length s)%nat. intros n.
  induction n as [|n IH]; simpl; [done|]. by rewrite H0.
Qed.

(** The digits of a padded numeral. *)
Lemma zfill_digits (cs : list ascii) w s c : "0"%char ∈ cs -> (has_char c s = true -> c ∈ cs) -> has_char c (zfill w s) = true -> c ∈ cs.
Proof. destruct (decide (c = "0"%char)) as [->|Hc]; [done|]. by rewrite has_char_zfill. Qed.

Lemma b62_digits n : 0 <= n < 2 ^ 128 ->
  exists s, B62.b62encode n = Ok s /\ (String.length s <= 22)%nat /\ B62.b62decode s = Ok n /\
    forall c, has_char c s = true -> c ∈ B62.BASE62_CHARS.
Proof.
  intros Hn. unfold B62.b62encode, B62.b62decode. destruct (Z.ltb_spec n 0); [lia|].
  destruct (Z.eqb_spec n 0) as [->|Hne].
  - eexists. split; [done|]. split; [simpl; lia|]. split; [done|].
    intros c. simpl. rewrite orb_false_r, bool_decide_eq_true. intros <-. by left.
  - eexists. split; [done|]. split; [|split].
    + apply (encode_pos_length B62.BASE62_CHARS); [rewrite B62.chars_base; lia|]. rewrite B62.chars_base.
      split; [lia|]. eapply Z.lt_le_trans; [apply Hn|]. by vm_compute.
    + by rewrite (decode_encode _ B62.chars_nodup) by (rewrite ?B62.chars_base; lia).
    + intros c Hc. destruct (decide (c ∈ B62.BASE62_CHARS)); [done|].
      rewrite encode_pos_no_char in Hc; [done|rewrite B62.chars_base; lia|done].
Qed.

Lemma uuid_of_int_ok n : 0 <= n < 2 ^ 128 -> uuid_of_int n = Ok n.
Proof. intros Hn. unfold uuid_of_int. destruct (Z.leb_spec 0 n), (Z.ltb_spec n (2 ^ 128)); try lia. done. Qed.

(** The short spelling: fixed length, and read back. *)
Lemma short_spec c n : 0 <= n < 2 ^ 128 ->
  exists d, short c n = Ok (prefix c +:+ d) /\ String.length d = 22%nat /\
    (forall a, has_char a d = true -> a ∈ B62.BASE62_CHARS) /\ from_short c (prefix c +:+ d) = Ok n.
Proof.
  intros Hn. destruct (b62_digits n Hn) as (s & Hs & Hl & Hd & Hc).
  exists (zfill 22 s). unfold short, id_to_short. rewrite Hs. split; [done|]. split; [by apply zfill_length|]. split.
  { intros a. apply zfill_digits; [by apply (bool_decide_unpack _)|apply Hc]. }
  unfold from_short, id_from_short. rewrite starts_with_app, str_drop_app. simpl.
  unfold B62.b62decode in *. rewrite decode_zfill by done. destruct (decode_from B62.BASE62_CHARS 0 s); [|done].
  injection Hd as ->. unfold rbind. rewrite (uuid_of_int_ok n Hn). by apply uuid_of_int_ok.
Qed.

(** *** Hexadecimal *)

Lemma hex_length n : 0 <= n < 2 ^ 128 -> String.length (uuid_hex n) = 32%nat.
Proof.
  intros Hn. apply zfill_length, (encode_pos_length HEX_DIGITS); [rewrite hex_base; lia|]. rewrite hex_base.
  split; [lia|]. eapply Z.lt_le_trans; [apply Hn|]. by vm_compute.
Qed.

Lemma hex_chars n a : has_char a (uuid_hex n) = true -> a ∈ HEX_DIGITS.
Proof.
  apply zfill_digits; [by apply (bool_decide_unpack _)|]. intros Ha. destruct (decide (a ∈ HEX_DIGITS)); [done|].
  rewrite encode_pos_no_char in Ha; [done|rewrite hex_base; lia|done].
Qed.

Lemma hex_Forall n : Forall (fun a => a ∈ HEX_DIGITS) (chars (uuid_hex n)).
Proof.
  apply Forall_forall. intros a Ha. apply (hex_chars n).
  rewrite <- (B62.string_of_list (uuid_hex n)). by apply has_char_string_of.
Qed.

Lemma hex_decode n : 0 <= n < 2 ^ 128 -> decode_from HEX_DIGITS 0 (uuid_hex n) = Some n.
Proof.
  intros Hn. unfold uuid_hex. rewrite decode_zfill by done.
  apply (decode_encode _ hex_nodup); [rewrite hex_base; lia|lia].
Qed.

(** What the parser of UUIDs skips or treats apart is no hexadecimal digit. *)
Lemma hex_digit_facts c : c ∈ HEX_DIGITS ->
  is_space c = false /\ c <> "-"%char /\ c <> "+"%char /\ c <> "x"%char /\ c <> "X"%char /\ c <> "u"%char /\
  c <> "{"%char /\ c <> "}"%char.
Proof.
  intros H. cut (forallb (fun c => negb (is_space c) && forallb (fun a => negb (bool_decide (c = a))) (chars "-+xXu{}")) HEX_DIGITS = true);
    [|by vm_compute].
  rewrite forallb_elem. intros Hall. specialize (Hall c H). simpl in Hall.
  rewrite !andb_true_iff, !negb_true_iff, !bool_decide_eq_false in Hall. naive_solver.
Qed.

Lemma hex_digits_decode num l v b :
  decode_from HEX_DIGITS num (string_of l) = Some v -> (l <> [] \/ b = true) -> hex_digits num b l = Some v.
Proof.
  revert num b; induction l as [|c l IH]; intros num b H Hb; simpl in *.
  - destruct Hb as [Hb|Hb]; [done|subst b]. by injection H as ->.
  - unfold hex_value. destruct (char_index HEX_DIGITS c) as [d|]; [|done]. apply IH; [|by right]. exact H.
Qed.

Lemma hex_unsigned_plain l v : Forall (fun a => a ∈ HEX_DIGITS) l -> l <> [] ->
  decode_from HEX_DIGITS 0 (string_of l) = Some v -> hex_unsigned l = Some v.
Proof.
  intros Hl Hne Hd. assert (hex_digits 0 false l = Some v) as Hv by (apply hex_digits_decode; auto).
  destruct l as [|c l]; [done|]. unfold hex_unsigned.
  destruct l as [|c' l].
  { rewrite <- Hv. destruct c as [[] [] [] [] [] [] [] []]; reflexivity. }
  assert (c' ∈ HEX_DIGITS) as (_ & _ & _ & Hx & HX & _)%hex_digit_facts.
  { rewrite Forall_forall in Hl. apply Hl. right. by left. }
  rewrite <- Hv. destruct c as [[] [] [] [] [] [] [] []]; try reflexivity.
  destruct c' as [[] [] [] [] [] [] [] []]; congruence || reflexivity.
Qed.

Lemma py_int_16_plain l v : Forall (fun a => a ∈ HEX_DIGITS) l -> l <> [] ->
  decode_from HEX_DIGITS 0 (string_of l) = Some v -> py_int_16 l = Some v.
Proof.
  intros Hl Hne Hd. unfold py_int_16. rewrite Decimal.strip_id.
  - pose proof (hex_unsigned_plain l v Hl Hne Hd) as Hv. destruct l as [|c l]; [done|].
    assert (c ∈ HEX_DIGITS) as (_ & Hm & Hp & _)%hex_digit_facts by (rewrite Forall_forall in Hl; apply Hl; by left).
    rewrite <- Hv. destruct c as [[] [] [] [] [] [] [] []]; congruence || reflexivity.
  - intros c Hc. rewrite Forall_forall in Hl. apply hex_digit_facts, Hl, Hc.
Qed.

Lemma remove_all_id c p l : head p = Some c -> c ∉ l -> remove_all p 0 l = l.
Proof.
  destruct p as [|c' p]; [done|]. intros [= ->]. induction l as [|a l IH]; intros Hc; [done|]. cbn [remove_all]. rewrite bool_decide_eq_false_2.
  - f_equal. apply IH. set_solver.
  - simpl. intros [= -> _]. set_solver.
Qed.

Lemma drop_chars_id cs l : Forall (fun a => a ∉ cs) l -> drop_chars cs l = l.
Proof. destruct l as [|a l]; intros H; [done|]. simpl. rewrite bool_decide_eq_false_2; [done|]. by inversion H. Qed.

Lemma strip_chars_id cs l : Forall (fun a => a ∉ cs) l -> strip_chars cs l = l.
Proof.
  intros H. unfold strip_chars. rewrite (drop_chars_id cs l H), drop_chars_id, rev_involutive; [done|].
  by apply Forall_rev.
Qed.

(** Removing the dashes of a list without other dashes. *)
Lemma remove_dash l1 l2 : "-"%char ∉ l1 -> remove_all (chars "-") 0 (l1 ++ "-"%char :: l2) = l1 ++ remove_all (chars "-") 0 l2.
Proof.
  induction l1 as [|a l1 IH]; intros Hd; cbn [remove_all app].
  - by rewrite bool_decide_eq_true_2.
  - rewrite bool_decide_eq_false_2 by (simpl; intros [= ->]; set_solver). f_equal. apply IH. set_solver.
Qed.

(** A UUID is read from its hexadecimal digits, however they are dashed. *)
Lemma uuid_of_str_hex n s : 0 <= n < 2 ^ 128 -> (forall a, has_char a s = true -> a ∈ HEX_DIGITS \/ a = "-"%char) ->
  remove_all (chars "-") 0 (chars s) = chars (uuid_hex n) -> uuid_of_str s = Ok n.
Proof.
  intros Hn Hs Hdash. unfold uuid_of_str.
  assert (Forall (fun a => a ∈ HEX_DIGITS \/ a = "-"%char) (chars s)) as Hall.
  { apply Forall_forall. intros a Ha. apply Hs. rewrite <- (B62.string_of_list s). by apply has_char_string_of. }
  assert ("u"%char ∉ chars s) as Hu.
  { intros Hin. rewrite Forall_forall in Hall. destruct (Hall _ Hin) as [H%hex_digit_facts|H]; [naive_solver|done]. }
  rewrite (remove_all_id "u" (chars "urn:")), (remove_all_id "u" (chars "uuid:")), strip_chars_id; [|..]; try done.
  - rewrite Hdash. rewrite (chars_length (uuid_hex n)), (hex_length n Hn). simpl. rewrite (py_int_16_plain _ n); [by apply uuid_of_int_ok|apply hex_Forall| |].
    + intros H. pose proof (hex_length n Hn) as Hl. by rewrite <- (B62.string_of_list (uuid_hex n)), H in Hl.
    + rewrite B62.string_of_list. by apply hex_decode.
  - eapply Forall_impl; [exact Hall|]. intros a [Ha| ->]; [apply hex_digit_facts in Ha|]; simpl; set_solver.
Qed.

(** The dashed spelling has the same digits. *)
Lemma uuid_str_chars n : chars (uuid_str n) =
  let h := chars (uuid_hex n) in
  take 8 h ++ "-"%char :: take 4 (drop 8 h) ++ "-"%char :: take 4 (drop 12 h) ++ "-"%char :: take 4 (drop 16 h) ++ "-"%char :: drop 20 h.
Proof. unfold uuid_str. rewrite !list_ascii_app, !chars_string_of. done. Qed.

Lemma no_dash_take n m k : "-"%char ∉ take m (drop k (chars (uuid_hex n))).
Proof.
  intros H%elem_of_take. destruct H as (i & H & _). rewrite lookup_drop in H.
  pose proof (hex_Forall n) as Hall. rewrite Forall_lookup in Hall. specialize (Hall _ _ H). apply hex_digit_facts in Hall. naive_solver.
Qed.

Lemma uuid_str_dashes n : remove_all (chars "-") 0 (chars (uuid_str n)) = chars (uuid_hex n).
Proof.
  rewrite uuid_str_chars. cbv zeta.
  pose proof (no_dash_take n 8 0) as H0. rewrite drop_0 in H0.
  rewrite !remove_dash by first [done | apply no_dash_take].
  rewrite (remove_all_id "-" _ (drop 20 _)); [|done|].
  - set (h := chars (uuid_hex n)).
    assert (forall k, take 4 (drop k h) ++ drop (k + 4) h = drop k h) as Hk by (intros k; rewrite <- drop_drop; apply take_drop).
    rewrite (Hk 16%nat : _ ++ drop 20 h = _), (Hk 12%nat : _ ++ drop 16 h = _), (Hk 8%nat : _ ++ drop 12 h = _). apply take_drop.
  - pose proof (no_dash_take n (length (drop 20 (chars (uuid_hex n)))) 20) as H. by rewrite firstn_all in H.
Qed.

Lemma uuid_str_char n a : has_char a (uuid_str n) = true -> a ∈ HEX_DIGITS \/ a = "-"%char.
Proof.
  rewrite <- (B62.string_of_list (uuid_str n)), has_char_string_of, uuid_str_chars. cbv zeta.
  pose proof (hex_Forall n) as Hall. rewrite Forall_forall in Hall.
  rewrite !elem_of_app, !elem_of_cons, !elem_of_app, !elem_of_cons, !elem_of_app, !elem_of_cons, !elem_of_app, !elem_of_cons.
  intros H. destruct (decide (a = "-"%char)) as [|Ha]; [by right|left]. apply Hall.
  assert (forall m k, a ∈ take m (drop k (chars (uuid_hex n))) -> a ∈ chars (uuid_hex n)) as Hin.
  { intros m k (i & Hi & _)%elem_of_take. rewrite lookup_drop in Hi. by eapply list_elem_of_lookup_2. }
  pose proof (Hin 8%nat 0%nat) as H8. rewrite drop_0 in H8.
  pose proof (Hin (length (drop 20 (chars (uuid_hex n)))) 20%nat) as H20. rewrite firstn_all in H20.
  naive_solver.
Qed.

Lemma uuid_of_hex n : 0 <= n < 2 ^ 128 -> uuid_of_str (uuid_hex n) = Ok n.
Proof.
  intros Hn. apply uuid_of_str_hex; [done| |].
  - intros a Ha. left. by apply hex_chars in Ha.
  - apply (remove_all_id "-"); [done|]. pose proof (hex_Forall n) as Hall. rewrite Forall_forall in Hall.
    intros H%Hall%hex_digit_facts. naive_solver.
Qed.

Lemma uuid_of_uuid_str n : 0 <= n < 2 ^ 128 -> uuid_of_str (uuid_str n) = Ok n.
Proof. intros Hn. apply uuid_of_str_hex; [done|apply uuid_str_char|apply uuid_str_dashes]. Qed.

(** The full spelling starts with no prefix. *)
Lemma uuid_str_prefix p c n : has_char c p = true -> c ∉ HEX_DIGITS -> c <> "-"%char -> starts_with p (uuid_str n) = false.
Proof.
  intros Hp Hc Hd. apply (starts_with_char c); [done|]. apply not_true_is_false. intros [|]%uuid_str_char; done.
Qed.

(** ** What [new] accepts *)

Lemma new_short c n : 0 <= n < 2 ^ 128 -> exists s, short c n = Ok s /\ new c (IdStr s) = Ok n.
Proof.
  intros Hn. destruct (short_spec c n Hn) as (d & Hs & _ & _ & Hf). exists (prefix c +:+ d). split; [done|].
  unfold new. by rewrite starts_with_app.
Qed.

Lemma new_str c n : 0 <= n < 2 ^ 128 -> new c (IdStr (uuid_str n)) = Ok n.
Proof.
  intros Hn. unfold new.
  assert (exists a, has_char a (prefix c) = true /\ a ∉ HEX_DIGITS /\ a <> "-"%char /\
    forall p, legacy_prefix c = Some p -> has_char a p = true) as (a & Ha & Hx & Hd & Hl).
  { destruct c; [exists "w"%char|exists "x"%char|exists "w"%char|exists "t"%char|exists "s"%char|exists "s"%char];
      (split; [done|]; split; [by apply (bool_decide_unpack _)|]; split; [done|]; by intros p [= <-]). }
  rewrite (uuid_str_prefix _ a) by done.
  destruct (legacy_prefix c) as [p|]; [|by apply uuid_of_uuid_str].
  rewrite (uuid_str_prefix p a) by auto. by apply uuid_of_uuid_str.
Qed.

Lemma new_legacy c n : 0 <= n < 2 ^ 128 ->
  match to_legacy c n with Ok s => new c (IdStr s) = Ok n | Err _ => legacy_prefix c = None end.
Proof.
  intros Hn. unfold to_legacy, new, from_legacy. destruct (legacy_prefix c) as [p|] eqn:Hp; [|done].
  assert (starts_with (prefix c) (p +:+ uuid_hex n) = false) as ->.
  { apply not_true_is_false. intros (r & Hr)%starts_with_spec. destruct c; simplify_eq/=. }
  rewrite starts_with_app, str_drop_app. by apply uuid_of_hex.
Qed.

(** C30: every identifier reads back: [new] gives the UUID of its short spelling, of its
    full spelling and of its legacy spelling, where the class has one, whatever the UUID. *)
Theorem identifiers_read_back (c : uuid_class) (n : Z) (Hn : 0 <= n < 2 ^ 128) :
  (exists s, short c n = Ok s /\ new c (IdStr s) = Ok n) /\
  new c (IdStr (uuid_str n)) = Ok n /\
  match to_legacy c n with Ok s => new c (IdStr s) = Ok n | Err _ => legacy_prefix c = None end.
Proof. split; [by apply new_short|]. split; [by apply new_str|by apply new_legacy]. Qed.

Lemma identifiers_read_back_witness :
  short WorkflowUUID 0x8d3885a964704ee09d4dd507cc97393d = Ok "wf_4itKqkgCZrLhgYiq5L211X" /\
  uuid_str 0x8d3885a964704ee09d4dd507cc97393d = "8d3885a9-6470-4ee0-9d4d-d507cc97393d" /\
  (exists s, short WorkflowUUID 0x8d3885a964704ee09d4dd507cc97393d = Ok s /\ new WorkflowUUID (IdStr s) = Ok 0x8d3885a964704ee09d4dd507cc97393d).
Proof.
  split; [by vm_compute|]. split; [by vm_compute|].
  apply (identifiers_read_back WorkflowUUID 0x8d3885a964704ee09d4dd507cc97393d). lia.
Defined.

Lemma uuid_of_int_typed n : match uuid_of_int n with Ok m => 0 <= m < 2 ^ 128 | Err e => exn_cls e = ValueError end.
Proof. unfold uuid_of_int. destruct (Z.leb_spec 0 n), (Z.ltb_spec n (2 ^ 128)); simpl; first [done | lia]. Qed.

Lemma uuid_of_str_typed s : match uuid_of_str s with Ok m => 0 <= m < 2 ^ 128 | Err e => exn_cls e = ValueError end.
Proof. unfold uuid_of_str. destruct (negb _); [done|]. destruct (py_int_16 _); [apply uuid_of_int_typed|done]. Qed.

Lemma from_short_typed c s : match from_short c s with Ok m => 0 <= m < 2 ^ 128 | Err e => exn_cls e = ValueError end.
Proof.
  unfold from_short, id_from_short, B62.b62decode. destruct (starts_with (prefix c) s); [|done]. simpl.
  destruct (decode_from _ _ _) as [v|]; [|done]. simpl.
  pose proof (uuid_of_int_typed v) as H. destruct (uuid_of_int v) as [m|e]; [|done]. simpl. apply uuid_of_int_typed.
Qed.

(** C31: whatever [new] is called with, it either gives a UUID of 128 bits, whose short
    spelling is the prefix of the class and 22 base-62 digits, or raises [ValueError]. *)
Theorem new_typed (c : uuid_class) (id : any_id) (Hid : forall k n, id = IdUUID k n -> 0 <= n < 2 ^ 128) :
  match new c id with
  | Ok n => 0 <= n < 2 ^ 128 /\ exists d, short c n = Ok (prefix c +:+ d) /\ String.length d = 22%nat /\
              forall a, has_char a d = true -> a ∈ B62.BASE62_CHARS
  | Err e => exn_cls e = ValueError
  end.
Proof.
  assert (match new c id with Ok n => 0 <= n < 2 ^ 128 | Err e => exn_cls e = ValueError end) as H.
  { unfold new. destruct id as [k n|s|]; [by eapply Hid| |done].
    destruct (starts_with (prefix c) s); [apply from_short_typed|].
    destruct (legacy_prefix c) as [p|] eqn:Hp; [|apply uuid_of_str_typed].
    destruct (starts_with p s); [|apply uuid_of_str_typed]. unfold from_legacy. rewrite Hp. apply uuid_of_str_typed. }
  destruct (new c id) as [n|e]; [|done]. split; [done|]. destruct (short_spec c n H) as (d & Hs & Hl & Hc & _). eauto.
Qed.

Lemma new_typed_witness :
  new SecretUUID (IdStr "secret-{8D3885A964704ee0-9d4d-d507cc97393d}") = Ok 0x8d3885a964704ee09d4dd507cc97393d /\
  match new SecretUUID (IdStr "secret_7N42dgm5tFLK9N8MT7fHC8") with
  | Ok n => 0 <= n < 2 ^ 128 /\ exists d, short SecretUUID n = Ok ("secret_" +:+ d) /\ String.length d = 22%nat /\
              forall a, has_char a d = true -> a ∈ B62.BASE62_CHARS
  | Err e => exn_cls e = ValueError
  end.
Proof. split; [by vm_compute|]. apply (new_typed SecretUUID (IdStr "secret_7N42dgm5tFLK9N8MT7fHC8")). by intros k n [=]. Defined.

(** A short identifier may be spelled beyond 128 bits. *)
Example short_overflow : new SecretUUID (IdStr "secret_7N42dgm5tFLK9N8MT7fHC8") = raise ValueError "int is out of range (need a 128-bit value)".
Proof. by vm_compute. Qed.

(** ** The identifiers of executions *)

Lemma span_all (p : ascii -> bool) l r : Forall (fun a => p a = true) l ->
  match r with c :: _ => p c = false | [] => True end -> span p (l ++ r) = (l, r).
Proof.
  intros Hl Hr. induction l as [|a l IH]; simpl.
  - destruct r as [|c r]; simpl; [done|]. by rewrite Hr.
  - inversion Hl as [|? ? Ha Hl']; subst. by rewrite Ha, IH.
Qed.

Lemma m_lit_app p r : m_lit p (chars p ++ r) = Some (chars p, r).
Proof. unfold m_lit. rewrite take_app_length, drop_app_length. by rewrite bool_decide_eq_true_2. Qed.

Lemma m_some_app p l r : l <> [] -> Forall (fun a => p a = true) l ->
  match r with c :: _ => p c = false | [] => True end -> m_some p (l ++ r) = Some (l, r).
Proof. intros Hl Hp Hr. unfold m_some. rewrite span_all by done. by destruct l. Qed.

Lemma m_hex_app l r : Forall (fun a => a ∈ HEX_DIGITS) l -> m_hex (length l) (l ++ r) = Some (l, r).
Proof.
  intros Hl. unfold m_hex. rewrite take_app_length, drop_app_length, bool_decide_eq_true_2 by done.
  replace (forallb is_hex l) with true; [done|]. symmetry. apply forallb_elem. intros a Ha.
  rewrite Forall_forall in Hl. apply bool_decide_eq_true_2, Hl, Ha.
Qed.

(** A short identifier, as characters. *)
Lemma short_chars c n : 0 <= n < 2 ^ 128 -> exists d, short c n = Ok (string_of (chars (prefix c) ++ d)) /\
  d <> [] /\ Forall (fun a => is_alnum a = true) d /\ new c (IdStr (string_of (chars (prefix c) ++ d))) = Ok n.
Proof.
  intros Hn. destruct (short_spec c n Hn) as (d & Hs & Hl & Hc & Hf). exists (chars d).
  rewrite string_of_app, !B62.string_of_list. split; [done|]. split; [|split].
  - intros H. by rewrite <- chars_length, H in Hl.
  - apply Forall_forall. intros a Ha. apply bool_decide_eq_true_2, Hc. rewrite <- (B62.string_of_list d). by apply has_char_string_of.
  - unfold new. by rewrite starts_with_app.
Qed.

(** A workflow identifier is recognised before a separator. *)
Lemma wf_id_match d sep r : d <> [] -> Forall (fun a => is_alnum a = true) d -> sep = ":"%char \/ sep = "/"%char ->
  WF_ID_PATTERN (chars "wf_" ++ d ++ sep :: r) = Some (chars "wf_" ++ d, sep :: r).
Proof.
  intros Hd Hall Hsep. unfold WF_ID_PATTERN, m_or.
  assert (m_seq (m_lit "wf-") (m_hex 32) (chars "wf_" ++ d ++ sep :: r) = None) as -> by done.
  unfold m_seq. rewrite m_lit_app, m_some_app; [done..|]. by destruct Hsep as [-> | ->].
Qed.

(** The parts of an identifier that consists of a short workflow identifier and a suffix. *)
Lemma parts_of n w sep e : 0 <= n < 2 ^ 128 -> short WorkflowUUID n = Ok w -> sep = ":"%char \/ sep = "/"%char ->
  WF_EXEC_SUFFIX_PATTERN (chars e) = Some (chars e, []) -> exec_id_to_parts (w +:+ String sep e) = Ok (n, e).
Proof.
  intros Hn Hw Hsep He. destruct (short_chars WorkflowUUID n Hn) as (d & Hs & Hd & Hall & Hnew). rewrite Hs in Hw.
  assert (w = string_of (chars (prefix WorkflowUUID) ++ d)) as -> by congruence.
  unfold exec_id_to_parts. rewrite list_ascii_app, chars_string_of, <- app_assoc. cbn [prefix chars].
  change (String.list_ascii_of_string (String sep e)) with (sep :: chars e).
  rewrite wf_id_match by done.
  destruct Hsep as [-> | ->]; rewrite He; unfold rbind; cbn [prefix] in Hnew; rewrite Hnew; by rewrite B62.string_of_list.
Qed.

Lemma exec_short_match m : 0 <= m < 2 ^ 128 -> exists e, short ExecutionUUID m = Ok e /\
  new ExecutionUUID (IdStr e) = Ok m /\ WF_EXEC_SUFFIX_PATTERN (chars e) = Some (chars e, []).
Proof.
  intros Hm. destruct (short_chars ExecutionUUID m Hm) as (d & Hs & Hd & Hall & Hnew).
  eexists. split; [exact Hs|]. split; [done|]. rewrite chars_string_of. cbn [prefix].
  unfold WF_EXEC_SUFFIX_PATTERN, m_or, m_seq at 1. rewrite m_lit_app.
  pose proof (m_some_app is_alnum d [] Hd Hall I) as Hm'. rewrite app_nil_r in Hm'. by rewrite Hm'.
Qed.

(** A schedule in Temporal's spelling, with the time of the run. *)
Lemma schedule_match k t : 0 <= k < 2 ^ 128 -> Forall (fun a => not_newline a = true) (chars t) ->
  WF_EXEC_SUFFIX_PATTERN (chars ("sch-" +:+ uuid_hex k +:+ "-" +:+ t)) = Some (chars ("sch-" +:+ uuid_hex k +:+ "-" +:+ t), []).
Proof.
  intros Hk Ht. rewrite !list_ascii_app. unfold WF_EXEC_SUFFIX_PATTERN, m_or at 1 2.
  assert (m_seq (m_lit "exec_") (m_some is_alnum) (chars "sch-" ++ chars (uuid_hex k) ++ chars "-" ++ chars t) = None) as -> by done.
  assert (m_seq (m_lit "exec-") (m_some is_word_or_dash) (chars "sch-" ++ chars (uuid_hex k) ++ chars "-" ++ chars t) = None) as -> by done.
  pose proof (m_hex_app (chars (uuid_hex k)) (chars "-" ++ chars t) (hex_Forall k)) as Hx.
  rewrite chars_length, (hex_length k Hk) in Hx.
  unfold SCHEDULE_EXEC_ID_PATTERN, m_or, m_seq at 1. unfold m_seq at 1. rewrite m_lit_app, Hx.
  unfold m_seq. rewrite m_lit_app. unfold m_many. pose proof (span_all not_newline (chars t) [] Ht I) as Hs.
  rewrite app_nil_r in Hs. rewrite Hs. by rewrite <- app_assoc.
Qed.

(** What starts with a hexadecimal digit is no workflow identifier. *)
Lemma uuid_str_first n s : 0 <= n < 2 ^ 128 -> exists c r, chars (uuid_str n +:+ s) = c :: r /\ c ∈ HEX_DIGITS.
Proof.
  intros Hn. rewrite list_ascii_app, uuid_str_chars. cbv zeta. pose proof (hex_Forall n) as Hall. pose proof (hex_length n Hn) as Hl.
  rewrite <- chars_length in Hl. destruct (chars (uuid_hex n)) as [|c h]; [done|]. inversion Hall; subst. simpl. eauto.
Qed.

Lemma full_id_no_match n s : 0 <= n < 2 ^ 128 -> WF_ID_PATTERN (chars (uuid_str n +:+ s)) = None.
Proof.
  intros Hn. destruct (uuid_str_first n s Hn) as (c & r & -> & Hc).
  assert (c <> "w"%char) as Hw by (intros ->; revert Hc; by apply (bool_decide_unpack _)).
  unfold WF_ID_PATTERN, m_or, m_seq, m_lit. rewrite !bool_decide_eq_false_2; [done|..]; simpl; by intros [= -> _].
Qed.

(** C32: the identifier of an execution contains the workflow and the execution: the parts of
    a generated identifier are the workflow it was generated for and the short identifier of
    the execution, and those of a scheduled run are the workflow and the schedule with the
    time of the run.  The identifiers that [exec_id_from_parts] makes have no parts. *)
Theorem execution_ids_parse (n m : Z) (id sid : any_id) (sep : ascii) (t : string)
    (Hn : 0 <= n < 2 ^ 128) (Hm : 0 <= m < 2 ^ 128) (Hid : new WorkflowUUID id = Ok n) (Hsid : new ScheduleUUID sid = Ok m)
    (Hsep : sep = ":"%char \/ sep = "/"%char) (Ht : has_char "010" t = false) :
  (exists s e, generate_exec_id id (String sep "") m = Ok s /\ exec_id_to_parts s = Ok (n, e) /\ new ExecutionUUID (IdStr e) = Ok m) /\
  (exists s k, workflow_schedule_id n sid = Ok s /\ new ScheduleUUID (IdStr k) = Ok m /\
     exec_id_to_parts (s +:+ "-" +:+ t) = Ok (n, k +:+ "-" +:+ t)) /\
  (forall suffix, exec_id_to_parts (exec_id_from_parts n suffix) = raise ValueError "Invalid workflow execution ID").
Proof.
  destruct (new_short WorkflowUUID n Hn) as (w & Hw & _). split; [|split].
  - destruct (exec_short_match m Hm) as (e & He & Hnew & Hmatch). exists (w +:+ String sep e), e.
    unfold generate_exec_id. rewrite Hid. unfold rbind. rewrite Hw, He. split; [done|].
    split; [by apply parts_of|done].
  - exists (w +:+ "/" +:+ ("sch-" +:+ uuid_hex m)), ("sch-" +:+ uuid_hex m).
    unfold workflow_schedule_id, schedule_id_to_temporal, to_legacy. rewrite Hsid. unfold rbind. rewrite Hw. split; [done|].
    split; [exact (new_legacy ScheduleUUID m Hm)|]. rewrite !string_app_assoc.
    apply (parts_of n w "/"); [done..|by right|]. apply schedule_match; [done|].
    apply Forall_forall. intros a Ha. unfold not_newline. rewrite bool_decide_eq_false_2; [done|]. intros ->.
    apply has_char_string_of in Ha. by rewrite B62.string_of_list, Ht in Ha.
  - intros suffix. unfold exec_id_to_parts, exec_id_from_parts. by rewrite full_id_no_match.
Qed.

Lemma execution_ids_parse_witness :
  new WorkflowUUID (IdStr "wf-8d3885a964704ee09d4dd507cc97393d") = Ok 0x8d3885a964704ee09d4dd507cc97393d /\
  exists s e, generate_exec_id (IdStr "wf-8d3885a964704ee09d4dd507cc97393d") "/" 7 = Ok s /\
    exec_id_to_parts s = Ok (0x8d3885a964704ee09d4dd507cc97393d, e) /\ new ExecutionUUID (IdStr e) = Ok 7.
Proof.
  split; [by vm_compute|].
  apply (execution_ids_parse 0x8d3885a964704ee09d4dd507cc97393d 7 (IdStr "wf-8d3885a964704ee09d4dd507cc97393d")
    (IdUUID None 7) "/" "2021-09-01T00:00:00Z"); [lia|lia|by vm_compute|done|by right|done].
Defined.

(** The match is not anchored at the end: what follows the execution is dropped. *)
Example trailing_text_accepted :
  exec_id_to_parts "wf_4itKqkgCZrLhgYiq5L211X/exec_1:anything" = Ok (0x8d3885a964704ee09d4dd507cc97393d, "exec_1").
Proof. by vm_compute. Qed.
