(* ===== verification/Authz.v ===== *)
(** Scope-based authorization: [tracecat/authz/controls.py].

    [fnmatch] is Python's [fnmatch.fnmatch] (POSIX, where [os.path.normcase] is
    the identity): a pattern is compiled to items and matched against the whole
    name.  The role is the caller's [Role]; the scope checks read only its
    [scopes]. *)

From S2P Require Import Prelude PyStr.

(** ** Shell-style patterns *)

Module FnMatch.
(** One element of a bracket expression: a character or a range. *)
Inductive class_item :=
  | CChar (c : ascii)
  | CRange (lo hi : ascii).

Inductive pat_item :=
  | PStar
  | PAny
  | PChar (c : ascii)
  | PClass (neg : bool) (items : list class_item).

Definition item_has (c : ascii) (i : class_item) : bool :=
  match i with
  | CChar a => bool_decide (a = c)
  | CRange lo hi => (N_of_ascii lo <=? N_of_ascii c)%N && (N_of_ascii c <=? N_of_ascii hi)%N
  end.

(** The contents of a bracket expression: [x-y] with a character on both
    sides is a range (an empty one matches nothing), any other character
    stands for itself. *)
Fixpoint class_items (stuff : list ascii) : list class_item :=
  match stuff with
  | [] => []
  | lo :: rest =>
      match rest with
      | "-"%char :: hi :: rest' => CRange lo hi :: class_items rest'
      | _ => CChar lo :: class_items rest
      end
  end.

(** Splits at the closing bracket of an expression opened just before:
    a [!] and then a [\]] in first position belong to the contents. *)
Fixpoint until_bracket (l : list ascii) : option (list ascii * list ascii) :=
  match l with
  | [] => None
  | "]"%char :: l' => Some ([], l')
  | c :: l' => match until_bracket l' with
               | Some (stuff, rest) => Some (c :: stuff, rest)
               | None => None
               end
  end.

Definition bracket (l : list ascii) : option (bool * list ascii * list ascii) :=
  let '(neg, l1) := match l with "!"%char :: l' => (true, l') | _ => (false, l) end in
  let '(pre, l2) := match l1 with "]"%char :: l' => (["]"%char], l') | _ => ([], l1) end in
  match until_bracket l2 with
  | Some (stuff, rest) => Some (neg, pre ++ stuff, rest)
  | None => None
  end.

(** [fnmatch.translate]; [fuel] bounds the pattern length. *)
Fixpoint translate (fuel : nat) (pat : list ascii) : list pat_item :=
  match fuel, pat with
  | S fuel', c :: pat' =>
      match c with
      | "*"%char => PStar :: translate fuel' pat'
      | "?"%char => PAny :: translate fuel' pat'
      | "["%char =>
          match bracket pat' with
          | Some (neg, stuff, rest) => PClass neg (class_items stuff) :: translate fuel' rest
          | None => PChar c :: translate fuel' pat'
          end
      | _ => PChar c :: translate fuel' pat'
      end
  | _, _ => []
  end.

(** Whole-string match of a compiled pattern. *)
Fixpoint matches (p : list pat_item) (s : list ascii) : bool :=
  match p with
  | [] => match s with [] => true | _ => false end
  | PStar :: p' =>
      (fix star (s : list ascii) : bool :=
         matches p' s || match s with [] => false | _ :: s' => star s' end) s
  | PAny :: p' => match s with [] => false | _ :: s' => matches p' s' end
  | PChar c :: p' =>
      match s with [] => false | a :: s' => bool_decide (a = c) && matches p' s' end
  | PClass neg items :: p' =>
      match s with
      | [] => false
      | a :: s' => xorb neg (existsb (item_has a) items) && matches p' s'
      end
  end.

Definition fnmatch (name pat : string) : bool :=
  let p := String.list_ascii_of_string pat in
  matches (translate (length p) p) (String.list_ascii_of_string name).

(** The language of a compiled pattern, declaratively. *)
Inductive lang : list pat_item -> list ascii -> Prop :=
  | lang_nil : lang [] []
  | lang_star p s1 s2 : lang p s2 -> lang (PStar :: p) (s1 ++ s2)
  | lang_any p a s : lang p s -> lang (PAny :: p) (a :: s)
  | lang_char p c s : lang p s -> lang (PChar c :: p) (c :: s)
  | lang_class p neg items a s :
      xorb neg (existsb (item_has a) items) = true -> lang p s ->
      lang (PClass neg items :: p) (a :: s).

Lemma matches_star p s :
  matches (PStar :: p) s = matches p s || match s with [] => false | _ :: s' => matches (PStar :: p) s' end.
Proof. by destruct s. Qed.

Lemma matches_lang p s : matches p s = true <-> lang p s.
Proof.
  revert s; induction p as [|i p IH]; intros s.
  - destruct s; split; try constructor; by inversion 1.
  - destruct i.
    + induction s as [|a s IHs]; rewrite matches_star, orb_true_iff, IH.
      * split; [intros [H|]; [by apply (lang_star p [] [])|done]|].
        inversion 1 as [|? s1 s2 ? Hp Hs| | |]; subst. left.
        apply app_nil in Hs as [-> ->]. done.
      * rewrite IHs. split.
        { intros [H|H]; [by apply (lang_star p [] (a :: s))|].
          inversion H as [|? s1 s2 ? Hp Hs| | |]; subst. by apply (lang_star p (a :: s1) s2). }
        { inversion 1 as [|? s1 s2 ? Hp Hs| | |]; subst.
          destruct s1 as [|b s1]; simpl in *; subst; [by left|].
          injection Hs as -> <-. right. by constructor. }
    + destruct s; simpl; [split; [done|by inversion 1]|]. rewrite IH.
      split; [by constructor|by inversion 1].
    + destruct s; simpl; [split; [done|by inversion 1]|].
      rewrite andb_true_iff, bool_decide_eq_true, IH.
      split; [intros [-> ?]; by constructor|by inversion 1].
    + destruct s; simpl; [split; [done|by inversion 1]|].
      rewrite andb_true_iff, IH. split; [intros [??]; by constructor|by inversion 1].
Qed.

(** Characters with no special meaning are matched literally. *)
Definition plain_char (c : ascii) : bool :=
  negb (bool_decide (c = "*"%char) || bool_decide (c = "?"%char) || bool_decide (c = "["%char)).

Lemma translate_plain_cons fuel c pat :
  plain_char c = true -> translate (S fuel) (c :: pat) = PChar c :: translate fuel pat.
Proof. destruct c as [[] [] [] [] [] [] [] []]; done || reflexivity. Qed.

Lemma translate_app_star pre post :
  forallb plain_char pre = true -> forallb plain_char post = true ->
  let p := pre ++ "*"%char :: post in
  translate (length p) p = map PChar pre ++ PStar :: map PChar post.
Proof.
  intros Hpre Hpost p. subst p.
  assert (forall l, forallb plain_char l = true -> translate (length l) l = map PChar l) as Hlit.
  { induction l as [|c l IH]; simpl length; [done|]. intros [Hc Hl]%andb_true_iff.
    rewrite translate_plain_cons by done. simpl. by rewrite IH. }
  induction pre as [|c pre IH]; simpl app; simpl length.
  - simpl. by rewrite Hlit.
  - simpl in Hpre. apply andb_true_iff in Hpre as [Hc Hpre].
    rewrite translate_plain_cons by done. by rewrite IH.
Qed.

Lemma lang_literal l s : lang (map PChar l) s <-> s = l.
Proof.
  revert s; induction l as [|c l IH]; intros s; simpl.
  - split; [by inversion 1|intros ->; constructor].
  - split.
    + inversion 1; subst. f_equal. by apply IH.
    + intros ->. constructor. by apply IH.
Qed.

Lemma lang_literal_app l p s : lang (map PChar l ++ p) s <-> exists r, s = l ++ r /\ lang p r.
Proof.
  revert s; induction l as [|c l IH]; intros s; simpl; [naive_solver|]. split.
  - inversion 1 as [| | |? ? s' Hs|]; subst. apply IH in Hs as (r & -> & ?). by exists r.
  - intros (r & -> & ?). constructor. apply IH. eauto.
Qed.

(** A pattern with a single star matches exactly the names with its literal
    prefix and suffix, not overlapping. *)
Lemma fnmatch_one_star name pre post :
  forallb plain_char (String.list_ascii_of_string pre) = true ->
  forallb plain_char (String.list_ascii_of_string post) = true ->
  fnmatch name (pre +:+ String "*" post) = true <->
  exists mid, name = pre +:+ (mid +:+ post).
Proof.
  intros Hpre Hpost.
  unfold fnmatch. rewrite list_ascii_app. simpl String.list_ascii_of_string.
  rewrite translate_app_star by done. rewrite matches_lang, lang_literal_app. split.
  - intros (r & Hname & Hr). inversion Hr as [|? s1 s2 Hs| | |]; subst.
    apply lang_literal in Hs as ->.
    exists (String.string_of_list_ascii s1). apply list_ascii_inj.
    by rewrite Hname, !list_ascii_app, String.list_ascii_of_string_of_list_ascii.
  - intros [mid ->]. rewrite !list_ascii_app. eexists. split; [done|].
    constructor. by apply lang_literal.
Qed.
(** The matcher implements the declarative language of shell patterns, [?] and bracket
    expressions included. *)
Lemma fnmatch_lang (name pat : string) :
  fnmatch name pat = true <->
  lang (translate (length (String.list_ascii_of_string pat)) (String.list_ascii_of_string pat))
       (String.list_ascii_of_string name).
Proof. unfold fnmatch. apply matches_lang. Qed.
End FnMatch.
Import FnMatch.

(** ** Scope matching *)

(** [SCOPE_PATTERN = ^[a-z0-9:_.*-]+$] with [re.match]: [$] also matches
    before one trailing newline. *)
Definition scope_char (c : ascii) : bool :=
  let n := N_of_ascii c in
  ((97 <=? n)%N && (n <=? 122)%N) || ((48 <=? n)%N && (n <=? 57)%N)
  || bool_decide (c ∈ [":"; "_"; "."; "*"; "-"]%char).

Definition newline : ascii := ascii_of_N 10.

Definition scope_chars (l : list ascii) : bool :=
  match l with [] => false | _ => forallb scope_char l end.

Definition validate_scope_string (scope : string) : bool :=
  let l := String.list_ascii_of_string scope in
  scope_chars l ||
  match rev l with
  | c :: l' => bool_decide (c = newline) && scope_chars (rev l')
  | [] => false
  end.

(** [_ACTION_IMPLIES]. *)
Definition ACTION_IMPLIES : gmap string (list string) := {[ "update" := ["read"] ]}.

Definition implied_scopes (granted_scope : string) : list string :=
  if has_char "*" granted_scope then []
  else match split_last ":" granted_scope with
       | None => []
       | Some (prefix, action) =>
           match ACTION_IMPLIES !! action with
           | None => []
           | Some implied_actions => map (fun implied => prefix +:+ ":" +:+ implied) implied_actions
           end
       end.

Definition scope_matches (granted_scope required_scope : string) : bool :=
  if decide (granted_scope = "*") then true
  else if negb (has_char "*" granted_scope) then
    if decide (granted_scope = required_scope) then true
    else bool_decide (required_scope ∈ implied_scopes granted_scope)
  else fnmatch required_scope granted_scope.

Definition has_scope (user_scopes : gset string) (required_scope : string) : bool :=
  existsb (fun granted => scope_matches granted required_scope) (elements user_scopes).

Definition has_all_scopes (user_scopes required_scopes : gset string) : bool :=
  forallb (has_scope user_scopes) (elements required_scopes).

Definition has_any_scope (user_scopes required_scopes : gset string) : bool :=
  existsb (has_scope user_scopes) (elements required_scopes).

Definition get_missing_scopes (user_scopes required_scopes : gset string) : gset string :=
  filter (fun scope => has_scope user_scopes scope = false) required_scopes.

(** [ScopeDeniedError(required_scopes, missing_scopes)]. *)
Inductive check_result :=
  | Allowed
  | Denied (required_scopes missing_scopes : gset string).

(** The [role.scopes] of the role in force: [None] when there is no role, and
    [Some None] when the role's scopes are unset. *)
Definition role_scopes : Type := option (option (gset string)).

Definition require_action_scope (role : role_scopes) (action_key : string) : check_result :=
  let required_scope := "action:" +:+ action_key +:+ ":execute" in
  match role with
  | None => Denied {[ required_scope ]} {[ required_scope ]}
  | Some None => Denied {[ required_scope ]} {[ required_scope ]}
  | Some (Some user_scopes) =>
      if decide ("*" ∈ user_scopes) then Allowed
      else if has_scope user_scopes required_scope then Allowed
      else Denied {[ required_scope ]} {[ required_scope ]}
  end.

(** [check_scopes] of the [require_scope] decorator: [method_role] is the role
    carried by the service or passed as [role=], [ctx_role] the context's. *)
Definition check_scopes (require_all : bool) (required : gset string)
    (method_role ctx_role : role_scopes) : check_result :=
  if decide (required = ∅) then Allowed
  else
    match (match method_role with Some _ => method_role | None => ctx_role end) with
    | None => Denied required required
    | Some None => Denied required required
    | Some (Some user_scopes) =>
        if decide ("*" ∈ user_scopes) then Allowed
        else if require_all then
          let missing := get_missing_scopes user_scopes required in
          if decide (missing = ∅) then Allowed else Denied required missing
        else if has_any_scope user_scopes required then Allowed
        else Denied required required
    end.

(** ** Lemmas *)

Lemma has_scope_spec user required :
  has_scope user required = true <-> exists g, g ∈ user /\ scope_matches g required = true.
Proof. unfold has_scope. rewrite existsb_elem. by setoid_rewrite elem_of_elements. Qed.

Lemma has_scope_mono user user' required :
  user ⊆ user' -> has_scope user required = true -> has_scope user' required = true.
Proof. rewrite !has_scope_spec. set_solver. Qed.

Lemma has_all_scopes_spec user required :
  has_all_scopes user required = true <-> forall s, s ∈ required -> has_scope user s = true.
Proof. unfold has_all_scopes. rewrite forallb_elem. by setoid_rewrite elem_of_elements. Qed.

Lemma has_any_scope_spec user required :
  has_any_scope user required = true <-> exists s, s ∈ required /\ has_scope user s = true.
Proof. unfold has_any_scope. rewrite existsb_elem. by setoid_rewrite elem_of_elements. Qed.

Lemma get_missing_scopes_spec user required s :
  s ∈ get_missing_scopes user required <-> s ∈ required /\ has_scope user s = false.
Proof. unfold get_missing_scopes. rewrite elem_of_filter. tauto. Qed.

Lemma get_missing_scopes_empty user required :
  get_missing_scopes user required = ∅ <-> has_all_scopes user required = true.
Proof.
  rewrite has_all_scopes_spec. split.
  - intros H s Hs. apply not_false_iff_true. intros Hf.
    assert (s ∈ get_missing_scopes user required) by (by apply get_missing_scopes_spec).
    set_solver.
  - intros H. apply set_eq. intros s. rewrite get_missing_scopes_spec.
    split; [|set_solver]. intros [Hs Hf]. by rewrite H in Hf.
Qed.

Lemma implied_scopes_spec granted required :
  required ∈ implied_scopes granted <->
  exists prefix, granted = prefix +:+ ":update" /\ required = prefix +:+ ":read" /\
                 has_char "*" granted = false.
Proof.
  unfold implied_scopes. destruct (has_char "*" granted) eqn:Hs.
  - split; [by inversion 1|by intros (? & ? & ? & ?)].
  - destruct (split_last ":" granted) as [[prefix action]|] eqn:E.
    + apply split_last_Some in E as E'. destruct E' as [-> Ha].
      unfold ACTION_IMPLIES. destruct (decide (action = "update")) as [->|Hne].
      * rewrite lookup_singleton_eq. simpl. rewrite list_elem_of_singleton. split.
        { intros ->. by exists prefix. }
        { intros (p & Hp & -> & _). f_equal.
          change (":update") with (String ":" "update") in Hp.
          pose proof (split_last_app ":" prefix "update" eq_refl) as H1.
          pose proof (split_last_app ":" p "update" eq_refl) as H2.
          rewrite Hp in H1. rewrite H1 in H2. by injection H2. }
      * rewrite lookup_singleton_ne by done. split; [by inversion 1|].
        intros (p & Hp & _). exfalso. apply Hne.
        pose proof (split_last_app ":" prefix action Ha) as H1.
        pose proof (split_last_app ":" p "update" eq_refl) as H2.
        rewrite Hp in H1. rewrite H1 in H2. by injection H2.
    + split; [by inversion 1|]. intros (p & -> & _).
      change (":update") with (String ":" "update") in E.
      by rewrite split_last_app in E.
Qed.

(** The role a check uses, if its scopes are resolved. *)
Definition effective_scopes (method_role ctx_role : role_scopes) : option (gset string) :=
  match method_role with Some r => r | None => match ctx_role with Some r => r | None => None end end.

(** ** Properties *)

(** A granted scope without wildcard satisfies exactly itself, and, when its
    last segment is [update], the [read] scope of the same resource; no other
    action implies another one. *)
Theorem scope_matches_exact (granted required : string)
  (Hstar : has_char "*" granted = false) :
  scope_matches granted required = true <->
  required = granted \/
  exists prefix, granted = prefix +:+ ":update" /\ required = prefix +:+ ":read".
Proof.
  unfold scope_matches. rewrite Hstar. simpl.
  rewrite decide_False by (by intros ->).
  case_decide; [subst; split; eauto|].
  rewrite bool_decide_eq_true, implied_scopes_spec. split.
  - intros (p & ? & ? & _). eauto.
  - intros [->|(p & ? & ?)]; [done|]. exists p. subst; auto.
Qed.

Lemma scope_matches_exact_witness :
  has_char "*" "workflow:update" = false /\
  (scope_matches "workflow:update" "workflow:read" = true <->
   "workflow:read" = "workflow:update" \/
   exists prefix, "workflow:update" = prefix +:+ ":update" /\ "workflow:read" = prefix +:+ ":read").
Proof. split; [reflexivity|]. apply (scope_matches_exact "workflow:update"). reflexivity. Defined.

(** A granted scope with one wildcard satisfies exactly the scopes that have
    its literal prefix and its literal suffix around some (possibly empty)
    middle part: [action:core.*:execute] grants every [core.] action and
    nothing else. *)
Theorem scope_matches_wildcard (pre post required : string)
  (Hpre : forallb plain_char (String.list_ascii_of_string pre) = true)
  (Hpost : forallb plain_char (String.list_ascii_of_string post) = true)
  (Hne : pre +:+ post <> "") :
  scope_matches (pre +:+ String "*" post) required = true <->
  exists mid, required = pre +:+ (mid +:+ post).
Proof.
  unfold scope_matches. rewrite decide_False.
  2:{ intros H. apply Hne. destruct pre as [|c pre]; simpl in *; [by injection H as ->|].
      injection H as -> H. destruct pre; discriminate. }
  rewrite has_char_app. simpl. rewrite orb_true_r. simpl.
  by apply fnmatch_one_star.
Qed.

Lemma scope_matches_wildcard_witness :
  "action:core." +:+ ":execute" <> "" /\
  (scope_matches ("action:core." +:+ String "*" ":execute") "action:core.http:execute" = true <->
   exists mid, "action:core.http:execute" = "action:core." +:+ (mid +:+ ":execute")).
Proof.
  split; [discriminate|].
  apply (scope_matches_wildcard "action:core." ":execute"); [reflexivity|reflexivity|discriminate].
Defined.

(** What the documentation of [scope_matches] calls a match: only [*] is a wildcard, for
    any sequence of characters. *)
Inductive glob : list ascii -> list ascii -> Prop :=
  | glob_nil : glob [] []
  | glob_star p skipped s : glob p s -> glob ("*"%char :: p) (skipped ++ s)
  | glob_char c p s : c <> "*"%char -> glob p s -> glob (c :: p) (c :: s).

(** In a pattern of these characters nothing else has a meaning to [fnmatch]. *)
Definition glob_only (c : ascii) : bool := bool_decide (c = "*"%char) || plain_char c.

Lemma translate_glob pat s : forallb glob_only pat = true -> lang (translate (length pat) pat) s <-> glob pat s.
Proof.
  revert s. induction pat as [|c pat IH]; intros s Hp; [split; inversion 1; constructor|].
  cbn [forallb] in Hp. apply andb_true_iff in Hp as [Hc Hp]. cbn [length].
  destruct (decide (c = "*"%char)) as [->|Hne].
  - cbn [translate]. split; inversion 1; subst; try done; [apply glob_star|apply lang_star]; by apply IH.
  - assert (plain_char c = true) as Hpl by (unfold glob_only in Hc; by rewrite bool_decide_false in Hc).
    rewrite translate_plain_cons by done. split; inversion 1; subst; try done; [apply glob_char; [done|]|apply lang_char]; by apply IH.
Qed.

Lemma glob_literal pat s : "*"%char ∉ pat -> glob pat s <-> s = pat.
Proof.
  revert s. induction pat as [|c pat IH]; intros s Hp; [split; [by inversion 1|intros ->; constructor]|].
  apply not_elem_of_cons in Hp as [Hc Hp]. split.
  - inversion 1; subst; [done|]. f_equal. by apply IH.
  - intros ->. constructor; [done|]. by apply IH.
Qed.

Lemma glob_all s : glob ["*"%char] s.
Proof. rewrite <- (app_nil_r s). apply glob_star, glob_nil. Qed.

Lemma valid_glob_only scope : validate_scope_string scope = true ->
  forallb glob_only (String.list_ascii_of_string scope) = true.
Proof.
  assert (forall c, scope_char c = true -> glob_only c = true) as Hc by (intros [[] [] [] [] [] [] [] []]; done).
  assert (forall l, scope_chars l = true -> forallb glob_only l = true) as Hl.
  { intros [|c l] H; [done|]. unfold scope_chars in H. rewrite forallb_forall in H. apply forallb_forall. auto. }
  unfold validate_scope_string. intros [H|H]%orb_true_iff; [auto|].
  destruct (rev _) as [|c l'] eqn:E; [done|]. apply andb_true_iff in H as [->%bool_decide_eq_true H].
  rewrite <- (rev_involutive (String.list_ascii_of_string scope)), E. simpl. rewrite forallb_app, Hl by done. done.
Qed.

Lemma has_char_elem c s : has_char c s = bool_decide (c ∈ String.list_ascii_of_string s).
Proof.
  induction s as [|a s IH]; simpl; [done|]. rewrite IH. apply eq_bool_prop_intro.
  rewrite orb_True, !bool_decide_spec, elem_of_cons. naive_solver.
Qed.

(** C29: a granted scope that passes [validate_scope_string] satisfies exactly the
    required scopes it matches with [*] as the only wildcard (an overlap of the pieces
    around the stars is no match), and, when it has no wildcard and ends in [update], the
    [read] scope of the same resource.  It is the granted scope that is the pattern: a
    [*] in the required scope is an ordinary character. *)
Theorem scope_matches_glob (granted required : string) (Hvalid : validate_scope_string granted = true) :
  scope_matches granted required = true <->
  glob (String.list_ascii_of_string granted) (String.list_ascii_of_string required) \/
  exists prefix, granted = prefix +:+ ":update" /\ required = prefix +:+ ":read" /\ has_char "*" granted = false.
Proof.
  unfold scope_matches. case_decide as Hall.
  { subst. split; [|done]. intros _. left. apply glob_all. }
  destruct (has_char "*" granted) eqn:Hstar; cbn [negb].
  - rewrite fnmatch_lang, translate_glob by (by apply valid_glob_only). split; [by left|].
    intros [H|(? & _ & _ & H)]; done.
  - pose proof Hstar as Hs. rewrite has_char_elem in Hs. apply bool_decide_eq_false in Hs.
    rewrite glob_literal by done. case_decide as Heq; [subst; tauto|].
    rewrite bool_decide_eq_true, implied_scopes_spec. split.
    + intros (p & -> & -> & H). right. by exists p.
    + intros [H|(p & -> & -> & H)]; [|by exists p]. by apply list_ascii_inj in H.
Qed.

Lemma scope_matches_glob_witness :
  validate_scope_string "action:*.okta.*:execute" = true /\
  (scope_matches "action:*.okta.*:execute" "action:tools.okta.list_users:execute" = true <->
   glob (String.list_ascii_of_string "action:*.okta.*:execute")
     (String.list_ascii_of_string "action:tools.okta.list_users:execute") \/
   exists prefix, "action:*.okta.*:execute" = prefix +:+ ":update" /\
     "action:tools.okta.list_users:execute" = prefix +:+ ":read" /\ has_char "*" "action:*.okta.*:execute" = false).
Proof. split; [reflexivity|]. apply (scope_matches_glob "action:*.okta.*:execute"). reflexivity. Defined.

(** The roles of the two arguments are not interchangeable. *)
Example required_star_is_literal :
  scope_matches "workflow:*" "workflow:read" = true /\ scope_matches "workflow:read" "workflow:*" = false.
Proof. split; reflexivity. Qed.

(** C28: [require_scope] lets a call through exactly when nothing is required, or
    the effective role (the method's role first, then the context's) has resolved
    scopes that contain the global wildcard or satisfy all (resp. any) of the
    required ones. *)
Theorem check_scopes_allowed (require_all : bool) (required : gset string)
  (method_role ctx_role : role_scopes) :
  check_scopes require_all required method_role ctx_role = Allowed <->
  required = ∅ \/
  exists scopes, effective_scopes method_role ctx_role = Some scopes /\
    ("*" ∈ scopes \/
     if require_all then forall s, s ∈ required -> has_scope scopes s = true
     else exists s, s ∈ required /\ has_scope scopes s = true).
Proof.
  unfold check_scopes, effective_scopes. case_decide as Hr; [tauto|].
  destruct method_role as [[u|]|], ctx_role as [[u'|]|]; simpl;
    try (split; [done|]; intros [?|(? & ? & _)]; done).
  all: repeat (case_decide || case_match); try done.
  all: rewrite ?get_missing_scopes_empty, ?has_all_scopes_spec in *.
  all: repeat match goal with
    | H : has_any_scope _ _ = true |- _ => apply has_any_scope_spec in H
    | H : has_any_scope ?u ?r = false |- _ =>
        apply not_true_iff_false in H; rewrite has_any_scope_spec in H
    end.
  all: naive_solver.
Qed.

(** When all scopes are required, a denial for a resolved role reports
    exactly the required scopes that no granted scope satisfies, and that set
    is not empty. *)
Theorem check_scopes_missing (required scopes : gset string) (ctx_role : role_scopes)
  (req missing : gset string)
  (Hden : check_scopes true required (Some (Some scopes)) ctx_role = Denied req missing) :
  req = required /\ missing <> ∅ /\
  forall s, s ∈ missing <-> s ∈ required /\ has_scope scopes s = false.
Proof.
  unfold check_scopes in Hden. repeat case_decide; try done.
  injection Hden as <- <-. split; [done|]. split; [done|].
  intros s. apply get_missing_scopes_spec.
Qed.

Lemma check_scopes_missing_witness :
  let required : gset string := {[ "case:read"; "case:delete" ]} in
  let scopes : gset string := {[ "case:update" ]} in
  check_scopes true required (Some (Some scopes)) None =
    Denied required (get_missing_scopes scopes required) /\
  required = required /\ get_missing_scopes scopes required <> ∅ /\
  forall s, s ∈ get_missing_scopes scopes required <-> s ∈ required /\ has_scope scopes s = false.
Proof.
  intros required scopes. split; [by vm_compute|].
  apply (check_scopes_missing required scopes None). by vm_compute.
Defined.

(** Authorization is monotone: granting more scopes never turns an allowed
    call into a denied one. *)
Theorem check_scopes_mono (require_all : bool) (required scopes scopes' : gset string)
  (ctx_role : role_scopes) (Hsub : scopes ⊆ scopes')
  (Hok : check_scopes require_all required (Some (Some scopes)) ctx_role = Allowed) :
  check_scopes require_all required (Some (Some scopes')) ctx_role = Allowed.
Proof.
  apply check_scopes_allowed in Hok as [Hr|(u & Hu & H)]; apply check_scopes_allowed; [by left|].
  right. exists scopes'. split; [done|]. injection Hu as <-.
  destruct H as [H|H]; [left; set_solver|right].
  destruct require_all; naive_solver eauto using has_scope_mono.
Qed.

Lemma check_scopes_mono_witness :
  let s1 : gset string := {[ "case:*" ]} in
  let s2 : gset string := {[ "case:*"; "table:read" ]} in
  s1 ⊆ s2 /\ check_scopes true {[ "case:read" ]} (Some (Some s1)) None = Allowed /\
  check_scopes true {[ "case:read" ]} (Some (Some s2)) None = Allowed.
Proof.
  intros s1 s2. assert (s1 ⊆ s2) by set_solver.
  assert (check_scopes true {[ "case:read" ]} (Some (Some s1)) None = Allowed) by (by vm_compute).
  split; [done|]. split; [done|]. by apply (check_scopes_mono true _ s1 s2).
Defined.

(** A scope string passes validation when it is a non-empty string of the
    allowed characters, and also when such a string is followed by one newline,
    which the documented format excludes ([$] in the pattern). *)
Theorem validate_scope_string_spec (scope : string) :
  validate_scope_string scope = true <->
  exists body, body <> [] /\ (forall c, c ∈ body -> scope_char c = true) /\
    (String.list_ascii_of_string scope = body \/
     String.list_ascii_of_string scope = body ++ [newline]).
Proof.
  unfold validate_scope_string. set (l := String.list_ascii_of_string scope). clearbody l.
  assert (forall b, scope_chars b = true <-> b <> [] /\ forall c, c ∈ b -> scope_char c = true) as Hb.
  { intros [|c b]; simpl; [naive_solver|]. rewrite <- (forallb_elem scope_char (c :: b)). naive_solver. }
  rewrite orb_true_iff, Hb. split.
  - intros [[? ?]|H]; [eauto 6|]. destruct (rev l) as [|c l'] eqn:E; [done|].
    apply andb_true_iff in H as [->%bool_decide_eq_true [? ?]%Hb].
    exists (rev l'). split; [done|]. split; [done|]. right.
    rewrite <- (rev_involutive l), E. done.
  - intros (b & Hne & Hc & [->| ->]); [by left|]. right.
    rewrite rev_app_distr. simpl. rewrite rev_involutive.
    by apply Hb.
Qed.

Lemma validate_scope_string_newline :
  validate_scope_string (String.string_of_list_ascii
    (String.list_ascii_of_string "workflow:read" ++ [newline])) = true.
Proof. reflexivity. Qed.
