(* ===== verification/Scopes.v ===== *)
(** Preset roles and their scopes: [tracecat/authz/scopes.py], with the role
    record of [tracecat/auth/types.py]. *)

From S2P Require Import Prelude PyStr Authz.

(** ** Scope sets *)

Definition VIEWER_SCOPES : gset string := list_to_set [
    "inbox:read"; "workflow:read"; "integration:read"; "case:read";
    "table:read"; "schedule:read"; "agent:read"; "secret:read";
    "tag:read"; "variable:read"; "workspace:read"; "workspace:member:read" ].

Definition EDITOR_SCOPES : gset string := VIEWER_SCOPES ∪ list_to_set [
    "workflow:sync"; "workspace_sync:sync"; "workflow:create"; "workflow:update";
    "workflow:execute"; "workflow:terminate"; "integration:create"; "integration:update";
    "case:create"; "case:update"; "table:create"; "table:update";
    "schedule:create"; "schedule:update"; "agent:create"; "agent:update";
    "agent:execute"; "secret:create"; "secret:update"; "tag:create";
    "tag:update"; "variable:create"; "variable:update"; "action:*:execute" ].

Definition ADMIN_SCOPES : gset string := EDITOR_SCOPES ∪ list_to_set [
    "workflow:delete"; "case:delete"; "table:delete"; "schedule:delete";
    "secret:delete"; "tag:delete"; "variable:delete"; "agent:delete";
    "integration:delete"; "workspace:update"; "workspace:delete"; "workspace:member:invite";
    "workspace:member:remove"; "workspace:member:update"; "workspace:rbac:read"; "workspace:rbac:manage";
    "workspace:service_account:read"; "workspace:service_account:create"; "workspace:service_account:update"; "workspace:service_account:disable";
    "action:*:execute" ].

Definition ORG_OWNER_SCOPES : gset string := list_to_set [
    "org:read"; "org:update"; "org:delete"; "org:member:read";
    "org:member:invite"; "org:member:remove"; "org:member:update"; "org:billing:read";
    "org:billing:update"; "org:owner:assign"; "org:rbac:read"; "org:rbac:create";
    "org:rbac:update"; "org:rbac:delete"; "org:service_account:read"; "org:service_account:create";
    "org:service_account:update"; "org:service_account:disable"; "org:settings:read"; "org:settings:update";
    "org:settings:delete"; "org:registry:read"; "org:registry:create"; "org:registry:update";
    "org:registry:delete"; "org:workspace:read"; "workspace:read"; "workspace:create";
    "workspace:update"; "workspace:delete"; "workspace:member:read"; "workspace:member:invite";
    "workspace:member:remove"; "workspace:member:update"; "workspace:rbac:read"; "workspace:rbac:manage";
    "workspace:service_account:read"; "workspace:service_account:create"; "workspace:service_account:update"; "workspace:service_account:disable";
    "inbox:read"; "workflow:read"; "workflow:sync"; "workspace_sync:sync";
    "workflow:create"; "workflow:update"; "workflow:delete"; "workflow:execute";
    "workflow:terminate"; "integration:read"; "integration:create"; "integration:update";
    "integration:delete"; "case:read"; "case:create"; "case:update";
    "case:delete"; "table:read"; "table:create"; "table:update";
    "table:delete"; "tag:read"; "tag:create"; "tag:update";
    "tag:delete"; "variable:read"; "variable:create"; "variable:update";
    "variable:delete"; "schedule:read"; "schedule:create"; "schedule:update";
    "schedule:delete"; "agent:read"; "agent:create"; "agent:update";
    "agent:delete"; "agent:execute"; "secret:read"; "secret:create";
    "secret:update"; "secret:delete"; "org:secret:read"; "org:secret:create";
    "org:secret:update"; "org:secret:delete"; "action:*:execute" ].

Definition ORG_ADMIN_SCOPES : gset string := list_to_set [
    "org:read"; "org:update"; "org:member:read"; "org:member:invite";
    "org:member:remove"; "org:member:update"; "org:billing:read"; "org:rbac:read";
    "org:rbac:create"; "org:rbac:update"; "org:rbac:delete"; "org:service_account:read";
    "org:service_account:create"; "org:service_account:update"; "org:service_account:disable"; "org:settings:read";
    "org:settings:update"; "org:settings:delete"; "org:registry:read"; "org:registry:create";
    "org:registry:update"; "org:registry:delete"; "org:workspace:read"; "workspace:read";
    "workspace:create"; "workspace:update"; "workspace:delete"; "workspace:member:read";
    "workspace:member:invite"; "workspace:member:remove"; "workspace:member:update"; "workspace:rbac:read";
    "workspace:rbac:manage"; "workspace:service_account:read"; "workspace:service_account:create"; "workspace:service_account:update";
    "workspace:service_account:disable"; "inbox:read"; "workflow:read"; "workflow:sync";
    "workspace_sync:sync"; "workflow:create"; "workflow:update"; "workflow:delete";
    "workflow:execute"; "workflow:terminate"; "integration:read"; "integration:create";
    "integration:update"; "integration:delete"; "case:read"; "case:create";
    "case:update"; "case:delete"; "table:read"; "table:create";
    "table:update"; "table:delete"; "tag:read"; "tag:create";
    "tag:update"; "tag:delete"; "variable:read"; "variable:create";
    "variable:update"; "variable:delete"; "schedule:read"; "schedule:create";
    "schedule:update"; "schedule:delete"; "agent:read"; "agent:create";
    "agent:update"; "agent:delete"; "agent:execute"; "secret:read";
    "secret:create"; "secret:update"; "secret:delete"; "org:secret:read";
    "org:secret:create"; "org:secret:update"; "org:secret:delete"; "action:*:execute" ].

Definition ORG_MEMBER_SCOPES : gset string := list_to_set [
    "org:read"; "org:member:read"; "org:registry:read"; "agent:read";
    "agent:execute"; "org:secret:read" ].

Definition WORKSPACE_OPERATIONAL_SCOPES : gset string := list_to_set [
    "inbox:read"; "workflow:read"; "workflow:sync"; "workspace_sync:sync";
    "workflow:create"; "workflow:update"; "workflow:delete"; "workflow:execute";
    "workflow:terminate"; "integration:read"; "integration:create"; "integration:update";
    "integration:delete"; "case:read"; "case:create"; "case:update";
    "case:delete"; "table:read"; "table:create"; "table:update";
    "table:delete"; "variable:read"; "variable:create"; "variable:update";
    "variable:delete"; "secret:read"; "secret:create"; "secret:update";
    "secret:delete"; "agent:read"; "agent:create"; "agent:update";
    "agent:delete"; "agent:execute"; "schedule:read"; "schedule:create";
    "schedule:update"; "schedule:delete"; "tag:read"; "tag:create";
    "tag:update"; "tag:delete"; "workspace:read"; "workspace:create";
    "workspace:delete"; "workspace:member:read"; "deduplicate:create"; "action:*:execute";
    "org:secret:read" ].

Definition PRESET_ROLE_SCOPES : gmap string (gset string) :=
  list_to_map [
    ("workspace-viewer", VIEWER_SCOPES);
    ("workspace-editor", EDITOR_SCOPES);
    ("workspace-admin", ADMIN_SCOPES);
    ("organization-owner", ORG_OWNER_SCOPES);
    ("organization-admin", ORG_ADMIN_SCOPES);
    ("organization-member", ORG_MEMBER_SCOPES) ].

(** [get_args(InternalServiceID)] of [tracecat/identifiers/__init__.py]. *)
Definition InternalServiceIDs : list string :=
  [ "tracecat-api"; "tracecat-bootstrap"; "tracecat-cli"; "tracecat-executor";
    "tracecat-agent-executor"; "tracecat-case-triggers"; "tracecat-llm-gateway";
    "tracecat-mcp"; "tracecat-runner"; "tracecat-schedule-runner";
    "tracecat-service"; "tracecat-ui" ].

Definition SERVICE_PRINCIPAL_SCOPES : gmap string (gset string) :=
  list_to_map (map (fun service_id => (service_id, WORKSPACE_OPERATIONAL_SCOPES)) InternalServiceIDs).

(** ** Roles *)

Inductive role_type := UserRole | ServiceRole | ServiceAccountRole.
Inductive OrgRole := OrgMember | OrgAdmin | OrgOwner.
Inductive WorkspaceRole := WorkspaceViewer | WorkspaceEditor | WorkspaceAdmin.

#[export] Instance role_type_eq_dec : EqDecision role_type.
Proof. solve_decision. Defined.

(** [Role]; [org_role] and [workspace_role] are the extra fields that roles
    serialized before the scope migration carry. *)
Record Role := MkRole {
  role_kind : role_type;
  workspace_id : option string;
  bound_workspace_id : option string;
  organization_id : option string;
  user_id : option string;
  service_account_id : option string;
  service_id : string;
  is_platform_superuser : bool;
  scopes : option (gset string);
  org_role : option OrgRole;
  workspace_role : option WorkspaceRole }.

(** [Role.validate_service_account_shape]: the match arms in order. *)
Definition validate_service_account_shape (self : Role) : result Role :=
  if decide (role_kind self = ServiceAccountRole /\ organization_id self = None) then
    raise ValueError "service_account roles require organization_id"
  else if decide (role_kind self = ServiceAccountRole /\ service_account_id self = None) then
    raise ValueError "service_account roles require service_account_id"
  else if decide (role_kind self = ServiceAccountRole /\ user_id self <> None) then
    raise ValueError "service_account roles must not set user_id"
  else if decide (bound_workspace_id self <> None /\ workspace_id self <> bound_workspace_id self) then
    raise ValueError "bound_workspace_id must match workspace_id"
  else Ok self.

(** [if not self.scopes]: unset or empty. *)
Definition truthy_scopes (s : option (gset string)) : bool :=
  match s with Some s' => bool_decide (s' <> ∅) | None => false end.

Definition is_privileged (self : Role) : bool :=
  if is_platform_superuser self then true
  else match scopes self with
       | Some s => if truthy_scopes (Some s) then bool_decide ("org:workspace:read" ∈ s) else false
       | None => false
       end.

Definition LEGACY_ORG_ROLE_TO_PRESET_SLUG (r : OrgRole) : string :=
  match r with
  | OrgOwner => "organization-owner"
  | OrgAdmin => "organization-admin"
  | OrgMember => "organization-member"
  end.

Definition LEGACY_WORKSPACE_ROLE_TO_PRESET_SLUG (r : WorkspaceRole) : string :=
  match r with
  | WorkspaceAdmin => "workspace-admin"
  | WorkspaceEditor => "workspace-editor"
  | WorkspaceViewer => "workspace-viewer"
  end.

(** [role.model_copy(update={"scopes": frozenset(scopes)})]. *)
Definition with_scopes (role : Role) (s : gset string) : Role :=
  MkRole (role_kind role) (workspace_id role) (bound_workspace_id role) (organization_id role)
    (user_id role) (service_account_id role) (service_id role) (is_platform_superuser role)
    (Some s) (org_role role) (workspace_role role).

(** [PRESET_ROLE_SCOPES[slug]]; every slug used is a key. *)
Definition preset_scopes (slug : string) : gset string :=
  default ∅ (PRESET_ROLE_SCOPES !! slug).

Definition backfilled_scopes (role : Role) : gset string :=
  match role_kind role with
  | ServiceRole =>
      if decide (service_id role = "") then ∅
      else default ∅ (SERVICE_PRINCIPAL_SCOPES !! service_id role)
  | UserRole =>
      match org_role role with
      | Some r => preset_scopes (LEGACY_ORG_ROLE_TO_PRESET_SLUG r)
      | None => ∅
      end ∪
      match workspace_role role with
      | Some r => preset_scopes (LEGACY_WORKSPACE_ROLE_TO_PRESET_SLUG r)
      | None => ∅
      end
  | ServiceAccountRole => ∅
  end.

Definition backfill_legacy_role_scopes (role : Role) : Role :=
  if truthy_scopes (scopes role) then role
  else
    let s := backfilled_scopes role in
    if decide (s = ∅) then role else with_scopes role s.

(** ** Properties *)

(** What a pattern scope can never satisfy: no scope that starts with
    [prefix]. *)
Definition never_prefix (prefix g : string) : bool :=
  if has_char "*" g then
    match split_first "*" g with
    | Some (pre, post) =>
        negb (starts_with pre prefix) && negb (starts_with prefix pre)
        && forallb FnMatch.plain_char (String.list_ascii_of_string pre)
        && forallb FnMatch.plain_char (String.list_ascii_of_string post)
    | None => false
    end
  else forallb (fun s => negb (starts_with prefix s)) (g :: implied_scopes g).

Lemma starts_with_both p q s :
  starts_with p s = true -> starts_with q s = true -> starts_with p q = true \/ starts_with q p = true.
Proof.
  revert q s; induction p as [|a p IH]; intros q s Hp Hq; [by left|].
  destruct q as [|b q]; [by right|]. destruct s as [|c s]; [done|]. simpl in *.
  apply andb_true_iff in Hp as [->%bool_decide_eq_true Hp].
  apply andb_true_iff in Hq as [->%bool_decide_eq_true Hq].
  rewrite !bool_decide_eq_true_2 by done. simpl. eauto.
Qed.

Lemma never_prefix_sound prefix g required :
  never_prefix prefix g = true -> starts_with prefix required = true ->
  scope_matches g required = false.
Proof.
  unfold never_prefix, scope_matches. intros Hn Hr.
  destruct (has_char "*" g) eqn:Hs; simpl.
  - destruct (split_first "*" g) as [[pre post]|] eqn:E; [|done].
    apply split_first_Some in E as [-> _].
    apply andb_true_iff in Hn as [[[H1 H2]%andb_true_iff H3]%andb_true_iff H4].
    apply negb_true_iff in H1, H2.
    rewrite decide_False.
    2:{ intros H. destruct pre as [|c pre]; [by destruct prefix|]. injection H as -> H.
        simpl in H3. discriminate. }
    apply not_true_iff_false. rewrite FnMatch.fnmatch_one_star by done.
    intros [mid ->].
    destruct (starts_with_both pre prefix (pre +:+ (mid +:+ post))) as [H|H]; try congruence.
    apply starts_with_spec. eauto.
  - simpl in Hn. apply andb_true_iff in Hn as [Hg Hi]. apply negb_true_iff in Hg.
    case_decide as E1; [by subst|].
    case_decide as E2; [congruence|].
    apply bool_decide_eq_false. intros Hin. rewrite forallb_elem in Hi.
    specialize (Hi _ Hin). by rewrite Hr in Hi.
Qed.

Lemma has_scope_never prefix user required :
  forallb (never_prefix prefix) (elements user) = true -> starts_with prefix required = true ->
  has_scope user required = false.
Proof.
  intros Hall Hr. apply not_true_iff_false. rewrite has_scope_spec. intros (g & Hg & Hm).
  rewrite forallb_elem in Hall. specialize (Hall g).
  rewrite (never_prefix_sound prefix g required) in Hm; [done| |done].
  apply Hall. by apply elem_of_elements.
Qed.

(** The preset roles are ordered by privilege: whatever a viewer may do an
    editor may, whatever an editor may do a workspace admin may, whatever a
    workspace admin or an organization member may do an organization admin may,
    and whatever an organization admin may do the owner may; the owner may do
    exactly three more things than the admin. *)
Theorem preset_roles_ordered :
  VIEWER_SCOPES ⊆ EDITOR_SCOPES /\ EDITOR_SCOPES ⊆ ADMIN_SCOPES /\
  ADMIN_SCOPES ⊆ ORG_ADMIN_SCOPES /\ ORG_MEMBER_SCOPES ⊆ ORG_ADMIN_SCOPES /\
  ORG_OWNER_SCOPES = ORG_ADMIN_SCOPES ∪ {[ "org:delete"; "org:billing:update"; "org:owner:assign" ]} /\
  forall required,
    (has_scope VIEWER_SCOPES required = true -> has_scope EDITOR_SCOPES required = true) /\
    (has_scope EDITOR_SCOPES required = true -> has_scope ADMIN_SCOPES required = true) /\
    (has_scope ADMIN_SCOPES required = true -> has_scope ORG_ADMIN_SCOPES required = true) /\
    (has_scope ORG_MEMBER_SCOPES required = true -> has_scope ORG_ADMIN_SCOPES required = true) /\
    (has_scope ORG_ADMIN_SCOPES required = true -> has_scope ORG_OWNER_SCOPES required = true).
Proof.
  assert (VIEWER_SCOPES ⊆ EDITOR_SCOPES) by (apply (bool_decide_unpack _); by vm_compute).
  assert (EDITOR_SCOPES ⊆ ADMIN_SCOPES) by (apply (bool_decide_unpack _); by vm_compute).
  assert (ADMIN_SCOPES ⊆ ORG_ADMIN_SCOPES) by (apply (bool_decide_unpack _); by vm_compute).
  assert (ORG_MEMBER_SCOPES ⊆ ORG_ADMIN_SCOPES) by (apply (bool_decide_unpack _); by vm_compute).
  assert (ORG_OWNER_SCOPES =
    ORG_ADMIN_SCOPES ∪ {[ "org:delete"; "org:billing:update"; "org:owner:assign" ]})
    by (apply (bool_decide_unpack _); by vm_compute).
  assert (ORG_ADMIN_SCOPES ⊆ ORG_OWNER_SCOPES) by (apply (bool_decide_unpack _); by vm_compute).
  do 5 (split; [assumption|]). intros required.
  repeat split; apply has_scope_mono; assumption.
Qed.

(** A workspace role never satisfies an organization scope: for every
    required scope that starts with [org:], viewer, editor and workspace admin
    are all refused. *)
Theorem workspace_roles_no_org_scope (required : string)
  (Horg : starts_with "org:" required = true) :
  has_scope VIEWER_SCOPES required = false /\ has_scope EDITOR_SCOPES required = false /\
  has_scope ADMIN_SCOPES required = false.
Proof.
  split; [|split]; (apply (has_scope_never "org:"); [vm_compute; reflexivity|exact Horg]).
Qed.

Lemma workspace_roles_no_org_scope_witness :
  starts_with "org:" "org:rbac:update" = true /\
  has_scope VIEWER_SCOPES "org:rbac:update" = false /\
  has_scope EDITOR_SCOPES "org:rbac:update" = false /\
  has_scope ADMIN_SCOPES "org:rbac:update" = false.
Proof. split; [reflexivity|]. apply workspace_roles_no_org_scope. reflexivity. Defined.

(** The legacy backfill never invents authority: a role that already has
    scopes is returned unchanged, any other role gets exactly the scopes of its
    service id or of its legacy organization and workspace roles, a service
    account or a role with no legacy data stays without scopes, and running it
    again changes nothing. *)
Theorem backfill_sound (role : Role) :
  let r := backfill_legacy_role_scopes role in
  (truthy_scopes (scopes role) = true -> r = role) /\
  (truthy_scopes (scopes role) = false ->
     scopes r = (if decide (backfilled_scopes role = ∅) then scopes role
                 else Some (backfilled_scopes role))) /\
  (role_kind role = ServiceAccountRole -> r = role) /\
  role_kind r = role_kind role /\ service_id r = service_id role /\
  backfill_legacy_role_scopes r = r.
Proof.
  unfold backfill_legacy_role_scopes. simpl.
  destruct (truthy_scopes (scopes role)) eqn:E.
  { rewrite E. done. }
  split; [done|]. case_decide as Hs.
  - rewrite E, decide_True by done. done.
  - split; [done|]. split.
    { intros Hk. exfalso. apply Hs. unfold backfilled_scopes. by rewrite Hk. }
    split; [done|]. split; [done|]. simpl. by rewrite bool_decide_eq_true_2.
Qed.
