(* ===== verification/Graph.v ===== *)
(** Graph algorithms shared by the workflow definition and the scheduler:
    Kahn's in-degree loop (with its correctness: topological order, cycle
    detection), and the two worklist searches of the code, depth-first with a
    mark on pop and breadth-first with a mark on push, both proved to compute
    exactly the reachable nodes with the given fuel. *)

From S2P Require Import Prelude.

(** ** Kahn's loop *)

Section Relax.
Context {A : Type} {EqA : EqDecision A} {CntA : Countable A}.

(** One pass over a node's successors: decrement each in-degree and collect
    the nodes that reach zero, in order. *)
Fixpoint relax (nexts : list A) (indegrees : gmap A Z) : gmap A Z * list A :=
  match nexts with
  | [] => (indegrees, [])
  | next :: nexts' =>
      let n := default 0 (indegrees !! next) - 1 in
      let '(indegrees', ready) := relax nexts' (<[next := n]> indegrees) in
      (indegrees', if n =? 0 then next :: ready else ready)
  end.

Definition occurs (x : A) (l : list A) : nat := length (filter (fun y => y = x) l).

Lemma occurs_cons x y l : occurs x (y :: l) = ((if decide (y = x) then 1 else 0) + occurs x l)%nat.
Proof. unfold occurs. rewrite filter_cons. by case_decide. Qed.

Lemma occurs_app x l l' : occurs x (l ++ l') = (occurs x l + occurs x l')%nat.
Proof. unfold occurs. by rewrite filter_app, length_app. Qed.

Lemma occurs_0 x l : occurs x l = 0%nat <-> x ∉ l.
Proof.
  induction l as [|y l IH]; [split; [by intros _ ?%elem_of_nil|done]|].
  rewrite occurs_cons, elem_of_cons. case_decide; split; try lia; naive_solver.
Qed.

Lemma relax_spec nexts indegrees :
  (forall v, v ∈ nexts -> exists d, indegrees !! v = Some d) ->
  forall v, (relax nexts indegrees).1 !! v =
    (fun d => d - Z.of_nat (occurs v nexts)) <$> indegrees !! v.
Proof.
  revert indegrees; induction nexts as [|w nexts IH]; intros ind Hdom v; simpl.
  - destruct (ind !! v); simpl; f_equal. change (occurs v []) with 0%nat. lia.
  - destruct (Hdom w) as [d Hd]; [by left|].
    specialize (IH (<[w := d - 1]> ind)).
    rewrite Hd; simpl. destruct (relax nexts (<[w:=d - 1]> ind)) as [ind' ready] eqn:E.
    simpl in *. rewrite IH.
    + rewrite occurs_cons. case_decide.
      * subst. rewrite lookup_insert_eq, Hd. simpl. f_equal. lia.
      * rewrite lookup_insert_ne by done. done.
    + intros u Hu. destruct (decide (w = u)) as [->|].
      * rewrite lookup_insert_eq. eauto.
      * rewrite lookup_insert_ne by done. apply Hdom. by right.
Qed.

(** The collected nodes are exactly those whose in-degree crosses zero, each
    once. *)
Lemma relax_ready nexts indegrees :
  (forall v, v ∈ nexts -> exists d, indegrees !! v = Some d /\ Z.of_nat (occurs v nexts) <= d) ->
  NoDup (relax nexts indegrees).2 /\
  forall v, v ∈ (relax nexts indegrees).2 <->
    v ∈ nexts /\ (relax nexts indegrees).1 !! v = Some 0.
Proof.
  revert indegrees; induction nexts as [|w nexts IH]; intros ind Hdom; simpl.
  - split; [constructor|]. intros v. split; [by inversion 1|]. intros [H _]. by inversion H.
  - destruct (Hdom w) as (d & Hd & Hocc); [by left|]. rewrite Hd; simpl.
    rewrite occurs_cons, decide_True in Hocc by done.
    assert (forall v, v ∈ nexts -> exists d', <[w:=d-1]> ind !! v = Some d' /\
      Z.of_nat (occurs v nexts) <= d') as Hdom'.
    { intros v Hv. destruct (decide (w = v)) as [->|Hne].
      - rewrite lookup_insert_eq. exists (d - 1). split; [done|]. lia.
      - rewrite lookup_insert_ne by done. destruct (Hdom v) as (d' & ? & Ho); [by right|].
        exists d'. split; [done|]. rewrite occurs_cons, decide_False in Ho by done. done. }
    pose proof (relax_spec nexts (<[w:=d-1]> ind)) as Hsp.
    specialize (IH _ Hdom') as [Hnd Hiff].
    destruct (relax nexts (<[w:=d-1]> ind)) as [ind' ready] eqn:E. simpl in *.
    assert (ind' !! w = Some (d - 1 - Z.of_nat (occurs w nexts))) as Hw.
    { rewrite Hsp; [by rewrite lookup_insert_eq|]. intros v Hv.
      destruct (Hdom' v Hv) as (?&?&?). eauto. }
    destruct (Z.eqb_spec (d - 1) 0) as [Hz|Hz].
    + assert (occurs w nexts = 0%nat) as H0 by lia.
      apply occurs_0 in H0 as Hnin. split.
      * constructor; [|done]. rewrite Hiff. tauto.
      * intros v. rewrite !elem_of_cons, Hiff. split.
        { intros [->|[? ?]]; [|tauto]. split; [by left|]. rewrite Hw. f_equal. lia. }
        { intros [[->|?] ?]; tauto. }
    + split; [done|]. intros v. rewrite elem_of_cons, Hiff. split; [tauto|].
      intros [[->|?] Hv]; [|tauto]. split; [|done].
      destruct (decide (w ∈ nexts)) as [|Hn]; [done|]. apply occurs_0 in Hn.
      rewrite Hw, Hn in Hv. injection Hv as Hv. lia.
Qed.
End Relax.

Section Kahn.
Context {A : Type} {EqA : EqDecision A} {CntA : Countable A}.
Variable nodes : list A.
Variable deps : A -> list A.          (** the sources of a node's edges *)
Variable adj : A -> list A.           (** the targets of a node's edges *)

(** Both sides describe the same multigraph over [nodes]. *)
Record graph_ok : Prop := {
  nodes_nodup : NoDup nodes;
  deps_closed : forall v d, v ∈ nodes -> d ∈ deps v -> d ∈ nodes;
  adj_closed : forall u v, u ∈ nodes -> v ∈ adj u -> v ∈ nodes;
  adj_deps : forall u v, u ∈ nodes -> v ∈ nodes -> occurs v (adj u) = occurs u (deps v) }.

Hypothesis Hg : graph_ok.

(** Number of edges into [v] whose source is not in [vis]. *)
Definition pending_deps (vis : list A) (v : A) : nat :=
  length (filter (fun d => d ∉ vis) (deps v)).

Definition depends (v d : A) : Prop := v ∈ nodes /\ d ∈ deps v.

(** The loop invariant: [vis] was processed in order, [q] is the queue. *)
Record kahn_inv (vis q : list A) (ind : gmap A Z) : Prop := {
  ki_nodup : NoDup (vis ++ q);
  ki_nodes : forall v, v ∈ vis ++ q -> v ∈ nodes;
  ki_ind : forall v, v ∈ nodes -> ind !! v = Some (Z.of_nat (pending_deps vis v));
  ki_zero : forall v, v ∈ nodes -> (v ∈ vis ++ q <-> pending_deps vis v = 0%nat);
  ki_topo : forall i v d, vis !! i = Some v -> d ∈ deps v -> d ∈ take i vis }.

Lemma pending_deps_0 vis v : pending_deps vis v = 0%nat <-> forall d, d ∈ deps v -> d ∈ vis.
Proof.
  unfold pending_deps. split.
  - intros Hl d Hd. destruct (decide (d ∈ vis)) as [|Hn]; [done|].
    assert (d ∈ filter (fun d => d ∉ vis) (deps v)) as Hin by (by apply list_elem_of_filter).
    apply nil_length_inv in Hl. rewrite Hl in Hin. by inversion Hin.
  - intros Hall. destruct (filter _ _) as [|d l] eqn:E; [done|].
    assert (d ∈ filter (fun d => d ∉ vis) (deps v)) as Hin by (rewrite E; by left).
    apply list_elem_of_filter in Hin as [Hn Hd]. by apply Hall in Hd.
Qed.

Lemma pending_deps_snoc vis u v :
  u ∉ vis -> pending_deps vis v = (pending_deps (vis ++ [u]) v + occurs u (deps v))%nat.
Proof.
  intros Hu. unfold pending_deps, occurs. induction (deps v) as [|d l IH]; [done|].
  rewrite !filter_cons. repeat case_decide; simpl; subst; try lia; exfalso; set_solver.
Qed.

Lemma kahn_inv_init :
  kahn_inv [] (filter (fun v => deps v = []) nodes)
    (list_to_map (map (fun v => (v, Z.of_nat (length (deps v)))) nodes)).
Proof.
  pose proof (nodes_nodup Hg) as Hnd.
  assert (forall v, pending_deps [] v = length (deps v)) as Hp.
  { intros v. unfold pending_deps. f_equal. clear. induction (deps v) as [|d l IH]; [done|].
    rewrite filter_cons, decide_True by (by inversion 1). by rewrite IH. }
  split; simpl.
  - by apply NoDup_filter.
  - intros v [_ ?]%list_elem_of_filter. done.
  - intros v Hv. rewrite Hp. apply elem_of_list_to_map_1.
    + rewrite map_map. simpl. rewrite map_id. done.
    + apply list_elem_of_In, in_map_iff. exists v. by rewrite <- list_elem_of_In.
  - intros v Hv. rewrite list_elem_of_filter, Hp. split; [intros [-> _]; done|].
    intros Hl%nil_length_inv. done.
  - intros i v d Hi. by rewrite lookup_nil in Hi.
Qed.

Lemma kahn_inv_step vis u q ind :
  kahn_inv vis (u :: q) ind ->
  kahn_inv (vis ++ [u]) (q ++ (relax (adj u) ind).2) (relax (adj u) ind).1.
Proof.
  intros [Hnd Hnodes Hind Hzero Htopo].
  assert (u ∈ nodes) as Hu by (apply Hnodes; set_solver).
  assert (u ∉ vis) as Huv.
  { apply NoDup_app in Hnd as (_ & Hd & _). intros Hin. apply (Hd u Hin). by left. }
  assert (forall v, v ∈ nodes ->
    pending_deps vis v = (pending_deps (vis ++ [u]) v + occurs v (adj u))%nat) as Hpend.
  { intros v Hv. rewrite (pending_deps_snoc vis u v Huv). by rewrite (adj_deps Hg). }
  assert (forall v, v ∈ adj u -> exists d, ind !! v = Some d /\ Z.of_nat (occurs v (adj u)) <= d) as Hdom.
  { intros v Hv. assert (v ∈ nodes) as Hvn by (by eapply (adj_closed Hg)).
    exists (Z.of_nat (pending_deps vis v)). split; [by apply Hind|]. rewrite Hpend by done. lia. }
  pose proof (relax_spec (adj u) ind ltac:(intros v Hv; destruct (Hdom v Hv) as (?&?&_); eauto)) as Hr1.
  destruct (relax_ready (adj u) ind Hdom) as [Hr2 Hr3].
  destruct (relax (adj u) ind) as [ind' ready]. simpl in *.
  assert (forall v, v ∈ nodes -> ind' !! v = Some (Z.of_nat (pending_deps (vis ++ [u]) v))) as Hind'.
  { intros v Hv. rewrite Hr1, Hind by done. simpl. f_equal. rewrite Hpend by done. lia. }
  assert (forall v, v ∈ ready -> v ∈ nodes /\ v ∉ vis ++ u :: q) as Hnew.
  { intros v [Hv Hv0]%Hr3. assert (v ∈ nodes) as Hvn by (by eapply (adj_closed Hg)).
    split; [done|]. rewrite (Hzero v Hvn), (Hpend v Hvn).
    assert (occurs v (adj u) <> 0%nat) by (rewrite occurs_0; tauto). lia. }
  assert ((vis ++ [u]) ++ (q ++ ready) = (vis ++ u :: q) ++ ready) as Hassoc
    by (by rewrite <- !app_assoc).
  split; rewrite ?Hassoc.
  - apply NoDup_app. split; [done|]. split; [|done].
    intros v Hv1 Hv2. by apply Hnew in Hv2 as [_ ?].
  - intros v. rewrite ?Hassoc. intros [Hv|Hv]%elem_of_app; [by apply Hnodes|]. by apply Hnew.
  - done.
  - intros v Hv. rewrite ?Hassoc, elem_of_app, (Hzero v Hv), Hr3, (Hind' v Hv), (Hpend v Hv). split.
    + intros [?|[_ [= Hz]]]; lia.
    + intros Hz. rewrite Hz. destruct (decide (v ∈ adj u)) as [|Hn]; [by right|].
      left. apply occurs_0 in Hn. lia.
  - intros i v d Hi Hd. apply lookup_app_Some in Hi as [Hi|[Hge Hi]].
    + rewrite take_app_le by (apply lookup_lt_Some in Hi; lia). eauto.
    + apply list_lookup_singleton_Some in Hi as [Hi0 ->].
      replace i with (length vis) by lia. rewrite take_app_length.
      apply (proj1 (pending_deps_0 vis v)); [|done]. apply Hzero; [done|]. set_solver.
Qed.

(** No node of a processed prefix depends, transitively, on itself. *)
Lemma topo_tc vis :
  (forall i v d, vis !! i = Some v -> d ∈ deps v -> d ∈ take i vis) ->
  forall v d, tc depends v d -> forall i, vis !! i = Some v -> d ∈ take i vis.
Proof.
  intros Htopo v d Htc. induction Htc as [v d Hvd|v e d Hve Htc IH]; intros i Hi.
  - destruct Hvd as [_ Hvd]. eauto.
  - destruct Hve as [_ Hve]. apply (Htopo i v e Hi) in Hve.
    apply list_elem_of_lookup in Hve as [j Hj]. apply lookup_take_Some in Hj as [Hj Hji].
    apply (IH j), list_elem_of_lookup in Hj as [k Hk]. apply lookup_take_Some in Hk as [Hk ?].
    apply list_elem_of_lookup. exists k. apply lookup_take_Some. split; [done|lia].
Qed.

(** When the loop ends with all nodes processed, the graph has no cycle. *)
Lemma kahn_acyclic vis ind :
  kahn_inv vis [] ind -> (forall v, v ∈ nodes -> v ∈ vis) ->
  forall v, ~ tc depends v v.
Proof.
  intros [Hnd Hnodes _ _ Htopo] Hall v Htc. rewrite app_nil_r in Hnd.
  assert (v ∈ nodes) as Hv by (inversion Htc as [? ? Hd|? ? ? Hd]; subst; apply Hd).
  apply Hall, list_elem_of_lookup in Hv as [i Hi].
  pose proof (topo_tc vis Htopo v v Htc i Hi) as Hin.
  apply list_elem_of_lookup in Hin as [j Hj]. apply lookup_take_Some in Hj as [Hj Hji].
  pose proof (NoDup_lookup _ _ _ _ Hnd Hi Hj). lia.
Qed.

Lemma dup_lookup (l : list A) :
  ~ NoDup l -> exists i j x, l !! i = Some x /\ l !! j = Some x /\ (i < j)%nat.
Proof.
  induction l as [|a l IH]; intros Hnd; [by destruct Hnd; constructor|].
  destruct (decide (a ∈ l)) as [Hin|Hnin].
  - apply list_elem_of_lookup in Hin as [j Hj]. exists 0%nat, (S j), a. split; [done|]. split; [done|lia].
  - destruct IH as (i & j & x & Hi & Hj & Hij).
    + intros Hl. apply Hnd. by constructor.
    + exists (S i), (S j), x. split; [done|]. split; [done|lia].
Qed.

Lemma chain_tc (R : relation A) (p : list A) i j x y :
  (forall i x y, p !! i = Some x -> p !! S i = Some y -> R y x) ->
  p !! i = Some x -> p !! j = Some y -> (i < j)%nat -> tc R y x.
Proof.
  intros Hch Hi. revert y. induction j as [|j IH]; intros y Hj Hij; [lia|].
  destruct (lookup_lt_is_Some_2 p j) as [z Hz].
  { apply lookup_lt_Some in Hj. lia. }
  destruct (decide (i = j)) as [->|Hne].
  - simplify_eq. apply tc_once. eauto.
  - eapply tc_l; [by eapply Hch|]. apply IH; [done|lia].
Qed.

(** When it ends with a node left over, the graph has a cycle. *)
Lemma kahn_cycle vis ind v :
  kahn_inv vis [] ind -> v ∈ nodes -> v ∉ vis -> exists w, tc depends w w.
Proof.
  intros Hinv Hv Hvis.
  assert (forall v, v ∈ nodes -> v ∉ vis -> exists d, depends v d /\ d ∈ nodes /\ d ∉ vis) as Hnext.
  { clear v Hv Hvis. intros v Hv Hvis.
    assert (pending_deps vis v <> 0%nat) as Hp.
    { rewrite <- (ki_zero _ _ _ Hinv v Hv), app_nil_r. done. }
    unfold pending_deps in Hp. destruct (filter _ _) as [|d l] eqn:E; [done|].
    assert (d ∈ filter (fun d => d ∉ vis) (deps v)) as Hin by (rewrite E; by left).
    apply list_elem_of_filter in Hin as [Hn Hd].
    exists d. split; [done|]. split; [by eapply (deps_closed Hg)|done]. }
  (* follow dependencies: a path longer than the number of nodes repeats *)
  assert (forall n, exists p, length p = S n /\ (forall x, x ∈ p -> x ∈ nodes /\ x ∉ vis) /\
    forall i x y, p !! i = Some x -> p !! S i = Some y -> depends y x) as Hpath.
  { induction n as [|n (p & Hlen & Hin & Hch)].
    - exists [v]. split; [done|]. split; [intros x ->%list_elem_of_singleton; done|].
      intros [|i] x y _ ?; done.
    - destruct p as [|x p]; [done|]. destruct (Hin x) as [Hx1 Hx2]; [by left|].
      destruct (Hnext x Hx1 Hx2) as (d & Hd & Hdn & Hdv). exists (d :: x :: p).
      split; [simpl in *; lia|]. split.
      + intros y [->|Hy]%elem_of_cons; [done|]. by apply Hin.
      + intros [|i] a b Ha Hb; simpl in *; [by simplify_eq|]. eauto. }
  destruct (Hpath (length nodes)) as (p & Hlen & Hin & Hch).
  destruct (decide (NoDup p)) as [Hnd|Hnd].
  { exfalso. assert (length p <= length nodes)%nat; [|lia].
    apply submseteq_length, NoDup_submseteq; [done|]. intros x Hx. by apply Hin. }
  destruct (dup_lookup p Hnd) as (i & j & x & Hi & Hj & Hij). exists x.
  by apply (chain_tc depends p i j).
Qed.
End Kahn.

(** ** Worklist searches *)

Section Search.
Context {A : Type} {EqA : EqDecision A} {CntA : Countable A}.
Variable succ : A -> list A.

Definition step_to (x y : A) : Prop := y ∈ succ x.

(** Depth-first with a mark on pop: [curr = stack.pop(); if curr in seen:
    continue; seen.add(curr); stack.extend(succ(curr))].  [None]: out of fuel. *)
Fixpoint dfs (fuel : nat) (stack : list A) (seen : gset A) : option (gset A) :=
  match stack with
  | [] => Some seen
  | curr :: stack' =>
      match fuel with
      | O => None
      | S fuel' =>
          if decide (curr ∈ seen) then dfs fuel' stack' seen
          else dfs fuel' (rev (succ curr) ++ stack') ({[ curr ]} ∪ seen)
      end
  end.

(** Breadth-first with a mark on push: [source = queue.popleft(); for target in
    succ(source): if target in seen: continue; seen.add(target);
    queue.append(target)]. *)
Fixpoint push_new (targets : list A) (seen : gset A) : gset A * list A :=
  match targets with
  | [] => (seen, [])
  | t :: targets' =>
      if decide (t ∈ seen) then push_new targets' seen
      else let '(seen', new) := push_new targets' ({[ t ]} ∪ seen) in (seen', t :: new)
  end.

Fixpoint bfs (fuel : nat) (queue : list A) (seen : gset A) : option (gset A) :=
  match queue with
  | [] => Some seen
  | source :: queue' =>
      match fuel with
      | O => None
      | S fuel' =>
          let '(seen', new) := push_new (succ source) seen in
          bfs fuel' (queue' ++ new) seen'
      end
  end.

Lemma dfs_sound (P : A -> Prop) fuel stack seen res :
  (forall x, x ∈ seen -> P x) -> (forall x, x ∈ stack -> P x) ->
  (forall x y, P x -> step_to x y -> P y) ->
  dfs fuel stack seen = Some res -> forall x, x ∈ res -> P x.
Proof.
  intros Hseen Hstack Hstep. revert stack seen Hseen Hstack.
  induction fuel as [|fuel IH]; intros [|c stack] seen Hseen Hstack; simpl; try done;
    try (by intros [= <-]).
  case_decide.
  - apply IH; [done|]. set_solver.
  - apply IH; [set_solver|]. intros x [Hx|Hx]%elem_of_app; [|set_solver].
    apply list_elem_of_In, in_rev, list_elem_of_In in Hx.
    apply (Hstep c); [|done]. apply Hstack. by left.
Qed.

Lemma dfs_complete fuel stack seen res :
  (forall x y, x ∈ seen -> step_to x y -> y ∈ seen \/ y ∈ stack) ->
  dfs fuel stack seen = Some res ->
  (forall x, x ∈ seen \/ x ∈ stack -> x ∈ res) /\
  (forall x y, x ∈ res -> step_to x y -> y ∈ res).
Proof.
  revert stack seen. induction fuel as [|fuel IH]; intros [|c stack] seen Hcl; simpl; try done.
  - intros [= <-]. split; [set_solver|]. intros x y Hx Hy. destruct (Hcl x y Hx Hy); [done|set_solver].
  - intros [= <-]. split; [set_solver|]. intros x y Hx Hy. destruct (Hcl x y Hx Hy); [done|set_solver].
  - assert (forall y, y ∈ rev (succ c) <-> step_to c y) as Hrev.
    { intros y. unfold step_to. by rewrite !list_elem_of_In, <- in_rev. }
    case_decide as Hc; intros Hd; apply IH in Hd as [Hd1 Hd2].
    + split; [|done]. intros x Hx. apply Hd1. set_solver.
    + intros x y Hx Hy. destruct (Hcl x y Hx Hy) as [|Hin]; [by left|].
      apply elem_of_cons in Hin as [->|]; [by left|by right].
    + split; [|done]. intros x [Hx|[->|Hx]%elem_of_cons]; apply Hd1; set_solver.
    + intros x y [->%elem_of_singleton|Hx]%elem_of_union Hy.
      * right. apply elem_of_app. left. by apply Hrev.
      * destruct (Hcl x y Hx Hy) as [|Hin]; [set_solver|]. set_solver.
Qed.

(** The fuel that suffices: every node is expanded at most once. *)
Definition search_cost (nodes : list A) (seen : gset A) : nat :=
  sum_list_with (fun x => length (succ x)) (filter (fun x => x ∉ seen) nodes).

Lemma search_cost_expand nodes seen c :
  NoDup nodes -> c ∈ nodes -> c ∉ seen ->
  search_cost nodes seen = (length (succ c) + search_cost nodes ({[ c ]} ∪ seen))%nat.
Proof.
  intros Hnd Hin Hc. unfold search_cost. induction nodes as [|x l IH]; [set_solver|].
  apply NoDup_cons in Hnd as [Hx Hnd]. rewrite !filter_cons.
  destruct (decide (x = c)) as [->|Hne].
  - rewrite decide_True, decide_False by set_solver. simpl. f_equal.
    f_equal.
    clear IH Hin Hnd. induction l as [|y l IH]; [done|]. rewrite !filter_cons.
    rewrite IH by set_solver. assert (y <> c) by set_solver.
    repeat case_decide; (done || (exfalso; set_solver)).
  - assert (c ∈ l) as Hcl by set_solver. specialize (IH Hnd Hcl).
    repeat case_decide; simpl; try lia; exfalso; set_solver.
Qed.

Lemma dfs_fuel nodes fuel stack seen :
  NoDup nodes -> (forall x, x ∈ stack -> x ∈ nodes) ->
  (forall x y, x ∈ nodes -> step_to x y -> y ∈ nodes) ->
  (length stack + search_cost nodes seen <= fuel)%nat ->
  is_Some (dfs fuel stack seen).
Proof.
  intros Hnd. revert stack seen. induction fuel as [|fuel IH]; intros [|c stack] seen Hst Hcl Hf;
    simpl in *; try lia; eauto.
  case_decide as Hc.
  - apply IH; [set_solver|done|lia].
  - rewrite (search_cost_expand nodes seen c) in Hf; [|done|by apply Hst; left|done].
    apply IH; [|done|rewrite length_app, length_rev; lia].
    intros x [Hx|Hx]%elem_of_app; [|by apply Hst; right].
    apply list_elem_of_In, in_rev, list_elem_of_In in Hx.
    apply (Hcl c); [|done]. apply Hst. by left.
Qed.

Lemma push_new_spec targets seen :
  let '(seen', new) := push_new targets seen in
  NoDup new /\ (forall x, x ∈ new <-> x ∈ targets /\ x ∉ seen) /\
  (forall x, x ∈ seen' <-> x ∈ seen \/ x ∈ targets).
Proof.
  revert seen; induction targets as [|t targets IH]; intros seen; simpl.
  - split; [constructor|]. set_solver.
  - case_decide as Ht.
    + specialize (IH seen). destruct (push_new targets seen) as [seen' new].
      destruct IH as (? & Hn & Hs). split; [done|]. split.
      * intros x. rewrite Hn. set_solver.
      * intros x. rewrite Hs. set_solver.
    + specialize (IH ({[ t ]} ∪ seen)). destruct (push_new _ _) as [seen' new].
      destruct IH as (? & Hn & Hs). split; [constructor; [rewrite Hn; set_solver|done]|]. split.
      * intros x. rewrite elem_of_cons, Hn. destruct (decide (x = t)); set_solver.
      * intros x. rewrite Hs. set_solver.
Qed.

Lemma bfs_sound (P : A -> Prop) fuel queue seen res :
  (forall x, x ∈ seen -> P x) -> (forall x, x ∈ queue -> P x) ->
  (forall x y, P x -> step_to x y -> P y) ->
  bfs fuel queue seen = Some res -> forall x, x ∈ res -> P x.
Proof.
  intros Hseen Hq Hstep. revert queue seen Hseen Hq.
  induction fuel as [|fuel IH]; intros [|c queue] seen Hseen Hq; simpl; try done;
    try (by intros [= <-]).
  pose proof (push_new_spec (succ c) seen) as Hp. destruct (push_new _ _) as [seen' new].
  destruct Hp as (_ & Hn & Hs). assert (P c) by (apply Hq; by left).
  apply IH.
  - intros x [Hx|Hx]%Hs; [by apply Hseen|]. by apply (Hstep c).
  - intros x [Hx|Hx]%elem_of_app; [apply Hq; by right|].
    apply Hn in Hx as [? _]. by apply (Hstep c).
Qed.

Lemma bfs_complete fuel queue seen res :
  (forall x, x ∈ queue -> x ∈ seen) ->
  (forall x y, x ∈ seen -> step_to x y -> y ∈ seen \/ x ∈ queue) ->
  bfs fuel queue seen = Some res ->
  (forall x, x ∈ seen -> x ∈ res) /\ (forall x y, x ∈ res -> step_to x y -> y ∈ res).
Proof.
  revert queue seen. induction fuel as [|fuel IH]; intros [|c queue] seen Hsub Hcl; simpl; try done.
  - intros [= <-]. split; [done|]. intros x y Hx Hy. destruct (Hcl x y Hx Hy); [done|set_solver].
  - intros [= <-]. split; [done|]. intros x y Hx Hy. destruct (Hcl x y Hx Hy); [done|set_solver].
  - pose proof (push_new_spec (succ c) seen) as Hp. destruct (push_new _ _) as [seen' new].
    destruct Hp as (_ & Hn & Hs). intros Hb. apply IH in Hb as [Hb1 Hb2].
    + split; [|done]. intros x Hx. apply Hb1, Hs. by left.
    + intros x [Hx|Hx]%elem_of_app; apply Hs; [left; apply Hsub; by right|].
      apply Hn in Hx as [? _]. by right.
    + intros x y Hx Hy. destruct (decide (x = c)) as [->|Hne].
      { left. apply Hs. by right. }
      destruct (decide (x ∈ new)) as [|Hnn]; [right; set_solver|].
      apply Hs in Hx as [Hx|Hx].
      * destruct (Hcl x y Hx Hy) as [|Hin]; [left; apply Hs; by left|].
        apply elem_of_cons in Hin as [|]; [done|]. right. set_solver.
      * destruct (decide (x ∈ seen)) as [Hxs|Hxs].
        { destruct (Hcl x y Hxs Hy) as [|Hin]; [left; apply Hs; by left|].
          apply elem_of_cons in Hin as [|]; [done|]. right. set_solver. }
        exfalso. apply Hnn, Hn. done.
Qed.

(** Nodes not yet seen bound the pushes of the breadth-first search. *)
Definition unseen (nodes : list A) (seen : gset A) : nat :=
  length (filter (fun x => x ∉ seen) nodes).

Lemma unseen_push nodes seen seen' new :
  NoDup nodes -> NoDup new -> (forall x, x ∈ new -> x ∈ nodes /\ x ∉ seen) ->
  (forall x, x ∈ seen -> x ∈ seen') -> (forall x, x ∈ new -> x ∈ seen') ->
  (unseen nodes seen' + length new <= unseen nodes seen)%nat.
Proof.
  intros Hnd Hnn Hnew Hss Hns. unfold unseen.
  rewrite Nat.add_comm, <- length_app. apply submseteq_length, NoDup_submseteq.
  - apply NoDup_app. split; [done|]. split; [|by apply NoDup_filter].
    intros x Hx [Hns' _]%list_elem_of_filter. by apply Hns', Hns.
  - intros x [Hx|Hx]%elem_of_app.
    + apply list_elem_of_filter. destruct (Hnew x Hx). done.
    + apply list_elem_of_filter in Hx as [? ?]. apply list_elem_of_filter. auto.
Qed.

Lemma bfs_fuel nodes fuel queue seen :
  NoDup nodes -> (forall x, x ∈ queue -> x ∈ nodes) ->
  (forall x y, x ∈ nodes -> step_to x y -> y ∈ nodes) ->
  (length queue + unseen nodes seen <= fuel)%nat ->
  is_Some (bfs fuel queue seen).
Proof.
  intros Hnd. revert queue seen. induction fuel as [|fuel IH]; intros [|c queue] seen Hq Hcl Hf;
    simpl in *; try lia; eauto.
  pose proof (push_new_spec (succ c) seen) as Hp. destruct (push_new _ _) as [seen' new].
  destruct Hp as (Hndn & Hn & Hs).
  assert (c ∈ nodes) as Hc by (apply Hq; by left).
  assert (unseen nodes seen' + length new <= unseen nodes seen)%nat.
  { apply unseen_push; try done.
    - intros x [Hx ?]%Hn. split; [|done]. by apply (Hcl c).
    - intros x Hx. apply Hs. by left.
    - intros x [Hx ?]%Hn. apply Hs. by right. }
  apply IH; [|done|rewrite length_app; lia].
  intros x [Hx|Hx]%elem_of_app; [apply Hq; by right|].
  apply Hn in Hx as [Hx _]. by apply (Hcl c).
Qed.

(** What both searches compute from a list of roots. *)
Lemma dfs_reach nodes stack res fuel :
  NoDup nodes -> (forall x, x ∈ stack -> x ∈ nodes) ->
  (forall x y, x ∈ nodes -> step_to x y -> y ∈ nodes) ->
  dfs fuel stack ∅ = Some res ->
  forall y, y ∈ res <-> exists x, x ∈ stack /\ rtc step_to x y.
Proof.
  intros Hnd Hst Hcl Hd y. split.
  - apply (dfs_sound (fun y => exists x, x ∈ stack /\ rtc step_to x y) fuel stack ∅ res); try done.
    + intros x Hx. exists x. split; [done|]. apply rtc_refl.
    + intros a b (x & Hx & Hxa) Hab. exists x. split; [done|]. by eapply rtc_r.
  - intros (x & Hx & Hxy). destruct (dfs_complete fuel stack ∅ res) as [H1 H2]; [set_solver|done|].
    assert (x ∈ res) as Hr by (apply H1; by right). clear Hx.
    induction Hxy; [done|]. eauto.
Qed.

Lemma bfs_reach queue res fuel :
  bfs fuel queue (list_to_set queue) = Some res ->
  forall y, y ∈ res <-> exists x, x ∈ queue /\ rtc step_to x y.
Proof.
  intros Hb y. split.
  - apply (bfs_sound (fun y => exists x, x ∈ queue /\ rtc step_to x y) fuel queue (list_to_set queue) res); try done.
    + intros x Hx%elem_of_list_to_set. exists x. split; [done|]. apply rtc_refl.
    + intros x Hx. exists x. split; [done|]. apply rtc_refl.
    + intros a b (x & Hx & Hxa) Hab. exists x. split; [done|]. by eapply rtc_r.
  - intros (x & Hx & Hxy). destruct (bfs_complete fuel queue (list_to_set queue) res) as [H1 H2]; try done.
    + intros z Hz. by apply elem_of_list_to_set.
    + intros z w Hz%elem_of_list_to_set _. by right.
    + assert (x ∈ res) as Hr by (by apply H1, elem_of_list_to_set). clear Hx.
      induction Hxy; [done|]. eauto.
Qed.
End Search.

(** ** Walks up a parent map *)

Section Parents.
Context {A : Type} {EqA : EqDecision A} {CntA : Countable A}.
Variable parent : gmap A (option A).

(** [parent.get(x)], where a missing key and a stored [None] both end the walk. *)
Definition parent_of (x : A) : option A :=
  match parent !! x with Some p => p | None => None end.

Definition parent_step (x y : A) : Prop := parent_of x = Some y.

(** [while curr is not None: if p(curr): return True; curr = parent.get(curr)]
    with [return False] at the end.  [None]: out of fuel. *)
Fixpoint walk_up (fuel : nat) (p : A -> bool) (curr : option A) : option bool :=
  match curr with
  | None => Some false
  | Some x =>
      if p x then Some true
      else match fuel with
           | O => None
           | S fuel' => walk_up fuel' p (parent_of x)
           end
  end.

(** A rank that decreases along the walk bounds its length. *)
Lemma walk_up_fuel (rank : A -> nat) fuel p x :
  (forall a b, parent_of a = Some b -> (rank b < rank a)%nat) ->
  (rank x < fuel)%nat -> is_Some (walk_up fuel p (Some x)).
Proof.
  intros Hrank. revert x. induction fuel as [|fuel IH]; intros x Hf; simpl.
  - lia.
  - destruct (p x); [eauto|]. destruct (parent_of x) as [y|] eqn:E.
    + apply IH. apply Hrank in E. lia.
    + destruct fuel; simpl; eauto.
Qed.

Lemma walk_up_spec fuel p x b :
  walk_up fuel p (Some x) = Some b ->
  (b = true <-> exists y, rtc parent_step x y /\ p y = true).
Proof.
  revert x. induction fuel as [|fuel IH]; intros x; simpl.
  - destruct (p x) eqn:Hp; [|done]. intros [= <-]. split; [|done]. intros _. exists x.
    split; [apply rtc_refl|done].
  - destruct (p x) eqn:Hp.
    { intros [= <-]. split; [|done]. intros _. exists x. split; [apply rtc_refl|done]. }
    destruct (parent_of x) as [z|] eqn:E.
    + intros Hw. rewrite (IH z Hw). split.
      * intros (y & Hzy & Hy). exists y. split; [by eapply rtc_l|done].
      * intros (y & Hxy & Hy). inversion Hxy as [|? z' ? Hxz Hzy]; subst; [congruence|].
        unfold parent_step in Hxz. rewrite E in Hxz. injection Hxz as <-. eauto.
    + destruct fuel; simpl; intros [= <-]; (split; [done|]);
        intros (y & Hxy & Hy); inversion Hxy as [|? z' ? Hxz Hzy]; subst;
        unfold parent_step in *; congruence.
Qed.
End Parents.
