(* ===== verification/PyVal.v ===== *)
(** Python values: JSON-like data as the workflow engine passes it around, with
    truthiness, insertion-ordered dicts with string keys, and the traversals of
    [tracecat/parse.py].  Floats are IEEE binary64 ([spec_float]). *)

From S2P Require Import Prelude PyStr Base62.
From Stdlib Require Export SpecFloat.

Inductive val :=
  | VNone
  | VBool (b : bool)
  | VInt (z : Z)
  | VFloat (f : spec_float)
  | VStr (s : string)
  | VList (l : list val)
  | VDict (d : list (string * val)).

(** Induction that reaches the elements of lists and dicts. *)
Section ValInd.
Variable P : val -> Prop.
Hypothesis P_none : P VNone.
Hypothesis P_bool : forall b, P (VBool b).
Hypothesis P_int : forall z, P (VInt z).
Hypothesis P_float : forall f, P (VFloat f).
Hypothesis P_str : forall s, P (VStr s).
Hypothesis P_list : forall l, Forall P l -> P (VList l).
Hypothesis P_dict : forall d, Forall (fun kv => P kv.2) d -> P (VDict d).

Fixpoint val_rect' (v : val) : P v :=
  match v with
  | VNone => P_none
  | VBool b => P_bool b
  | VInt z => P_int z
  | VFloat f => P_float f
  | VStr s => P_str s
  | VList l =>
      P_list l ((fix go l := match l return Forall P l with
                             | [] => @List.Forall_nil _ P
                             | v :: l' => @List.Forall_cons _ P v l' (val_rect' v) (go l')
                             end) l)
  | VDict d =>
      P_dict d ((fix go d := match d return Forall (fun kv => P kv.2) d with
                             | [] => @List.Forall_nil _ (fun kv => P kv.2)
                             | kv :: d' => @List.Forall_cons _ (fun kv => P kv.2) kv d' (val_rect' kv.2) (go d')
                             end) d)
  end.
End ValInd.

#[export] Instance spec_float_eq_dec : EqDecision spec_float.
Proof. solve_decision. Defined.

#[export] Instance val_eq_dec : EqDecision val.
Proof.
  unfold EqDecision. fix IH 1. pose proof (IH : EqDecision val) as IHi.
  intros [|x|x|x|x|x|x] [|y|y|y|y|y|y]; try (right; discriminate); [by left|..].
  all: destruct (decide (x = y)) as [->|Hn]; [by left|right; congruence].
Defined.


(** Python's [bool(v)]. *)
Definition truthy (v : val) : bool :=
  match v with
  | VNone => false
  | VBool b => b
  | VInt z => negb (z =? 0)
  | VFloat (S754_zero _) => false
  | VFloat _ => true
  | VStr s => match s with EmptyString => false | _ => true end
  | VList l => match l with [] => false | _ => true end
  | VDict d => match d with [] => false | _ => true end
  end.

(** Insertion-ordered dicts. *)
Section Dict.
Context {V : Type}.
Implicit Types (d : list (string * V)) (k : string).

Fixpoint dget d k : option V :=
  match d with
  | [] => None
  | (k', v) :: d' => if decide (k' = k) then Some v else dget d' k
  end.

Fixpoint dset d k (v : V) : list (string * V) :=
  match d with
  | [] => [(k, v)]
  | (k', v') :: d' => if decide (k' = k) then (k', v) :: d' else (k', v') :: dset d' k v
  end.

Lemma dget_dset_eq d k v : dget (dset d k v) k = Some v.
Proof.
  induction d as [|[k' v'] d IH]; simpl; [by rewrite decide_True|].
  case_decide; simpl; [by rewrite decide_True|]. by rewrite decide_False.
Qed.

Lemma dget_dset_ne d k k' v : k <> k' -> dget (dset d k v) k' = dget d k'.
Proof.
  intros Hne. induction d as [|[k1 v1] d IH]; simpl; [by rewrite decide_False|].
  repeat (case_decide; simpl); subst; try done.
Qed.

Lemma dset_keys d k v :
  map fst (dset d k v) = (if decide (k ∈ map fst d) then map fst d else map fst d ++ [k]).
Proof.
  induction d as [|[k' v'] d IH]; simpl; [done|].
  destruct (decide (k' = k)) as [->|Hne]; simpl.
  - rewrite decide_True by (by left). done.
  - rewrite IH. repeat case_decide; try done; exfalso; set_solver.
Qed.
End Dict.

(** ** Traversals ([tracecat/parse.py]) *)

Fixpoint traverse_nodes (obj : val) : list val :=
  match obj with
  | VDict d => flat_map (fun kv => VStr kv.1 :: traverse_nodes kv.2) d
  | VList l => flat_map traverse_nodes l
  | _ => [obj]
  end.

(** Concatenates the results of [f] on the elements with their index. *)
Section FlatMapi.
Context {A B : Type}.
Variable f : Z -> A -> list B.
Fixpoint flat_mapi (i : Z) (l : list A) : list B :=
  match l with
  | [] => []
  | x :: l' => f i x ++ flat_mapi (i + 1) l'
  end.
End FlatMapi.

Fixpoint traverse_leaves (obj : val) (parent_key : string) : list (string * val) :=
  match obj with
  | VDict d =>
      flat_map (fun kv =>
        let new_key := if decide (parent_key = "") then kv.1 else parent_key +:+ "." +:+ kv.1 in
        traverse_leaves kv.2 new_key) d
  | VList l =>
      flat_mapi (fun i item =>
        traverse_leaves item (parent_key +:+ "[" +:+ Decimal.py_str_int i +:+ "]")) 0 l
  | _ => [(parent_key, obj)]
  end.

(** The loop of [insert_obj_by_path] from the object reached: a stem key is
    [obj.setdefault(key, {})], so a non-dict on the way raises. *)
Fixpoint insert_at (stem : list string) (leaf : string) (value obj : val) : result val :=
  match stem, obj with
  | [], VDict d => Ok (VDict (dset d leaf value))
  | [], _ => raise TypeError "object does not support item assignment"
  | key :: stem', VDict d =>
      let! child := insert_at stem' leaf value (default (VDict []) (dget d key)) in
      Ok (VDict (dset d key child))
  | _ :: _, _ => raise AttributeError "object has no attribute 'setdefault'"
  end.

(** [*stem, leaf = path.split(sep)]. *)
Definition stem_leaf (path : list string) : list string * string :=
  (removelast path, List.last path "").

Definition insert_obj_by_path (obj : val) (path : string) (value : val) (sep : ascii) : result val :=
  let '(stem, leaf) := stem_leaf (split_all sep path) in
  insert_at stem leaf value obj.

(** [reconstruct_obj]. *)
Definition reconstruct_obj (flat_kv : list (string * val)) (sep : ascii) : result val :=
  rfor (fun kv obj =>
    let value := match kv.2 with VList [v] => v | v => v end in
    insert_obj_by_path obj kv.1 value sep) flat_kv (VDict []).

(** The value at a path of dict keys. *)
Fixpoint get_path (obj : val) (path : list string) : option val :=
  match path with
  | [] => Some obj
  | key :: path' =>
      match obj with
      | VDict d => match dget d key with Some v => get_path v path' | None => None end
      | _ => None
      end
  end.

Lemma get_path_nil (path : list string) : path <> [] -> get_path (VDict []) path = None.
Proof. by destruct path. Qed.

Lemma insert_at_get stem leaf value obj obj' :
  insert_at stem leaf value obj = Ok obj' -> get_path obj' (stem ++ [leaf]) = Some value.
Proof.
  revert obj obj'; induction stem as [|key stem IH]; intros obj obj' H; simpl in H.
  - destruct obj; try done. injection H as <-. simpl. by rewrite dget_dset_eq.
  - destruct obj; try done. inv_ok. simpl. rewrite dget_dset_eq. eauto.
Qed.

(** Two paths diverge when neither is a prefix of the other. *)
Fixpoint diverge (p q : list string) : Prop :=
  match p, q with
  | a :: p', b :: q' => a <> b \/ diverge p' q'
  | _, _ => False
  end.

Lemma insert_at_frame stem leaf value obj obj' q :
  insert_at stem leaf value obj = Ok obj' -> diverge (stem ++ [leaf]) q ->
  get_path obj' q = get_path obj q.
Proof.
  revert obj obj' q; induction stem as [|key stem IH]; intros obj obj' q H Hd; simpl in *.
  - destruct obj; try done. injection H as <-. destruct q as [|b q]; [done|].
    simpl. destruct Hd as [Hne|[]]. by rewrite dget_dset_ne.
  - destruct obj; try done. inv_ok. destruct q as [|b q]; [done|]. simpl.
    destruct (decide (key = b)) as [->|Hne]; [|by rewrite dget_dset_ne].
    rewrite dget_dset_eq. destruct Hd as [|Hd]; [done|].
    rewrite (IH _ _ _ H0 Hd). destruct (dget d b); [done|].
    destruct q; [by destruct stem|done].
Qed.

(** Writing a value at a separated path puts it exactly there: afterwards
    the path leads to the value, and every path that diverges from it leads
    where it led before. *)
Theorem insert_obj_by_path_spec (obj obj' value : val) (path : string) (sep : ascii)
  (H : insert_obj_by_path obj path value sep = Ok obj') :
  get_path obj' (split_all sep path) = Some value /\
  forall q, diverge (split_all sep path) q -> get_path obj' q = get_path obj q.
Proof.
  unfold insert_obj_by_path, stem_leaf in H.
  pose proof (app_removelast_last "" (split_all_nonnil sep path)) as Hp.
  rewrite Hp. split; [by eapply insert_at_get|]. intros q. by apply insert_at_frame with value.
Qed.

Lemma insert_obj_by_path_spec_witness :
  let obj := VDict [("var", VDict [("x", VInt 1)])] in
  let obj' := VDict [("var", VDict [("x", VInt 1); ("item", VInt 7)])] in
  insert_obj_by_path obj "var.item" (VInt 7) "." = Ok obj' /\
  get_path obj' (split_all "." "var.item") = Some (VInt 7) /\
  forall q, diverge (split_all "." "var.item") q -> get_path obj' q = get_path obj q.
Proof.
  intros obj obj'. split; [reflexivity|].
  apply (insert_obj_by_path_spec obj obj' (VInt 7) "var.item" "."). reflexivity.
Defined.

(** ** More on dicts *)

Lemma dset_dset {V} (d : list (string * V)) k v v' : dset (dset d k v) k v' = dset d k v'.
Proof.
  induction d as [|[k1 v1] d IH]; simpl; [by rewrite decide_True|].
  destruct (decide (k1 = k)); simpl; [by rewrite decide_True|]. rewrite decide_False by done. by rewrite IH.
Qed.

Lemma dset_comm {V} (d : list (string * V)) k k' v v' : k <> k' -> k ∈ map fst d -> dset (dset d k' v') k v = dset (dset d k v) k' v'.
Proof.
  intros Hne. induction d as [|[k1 v1] d IH]; simpl; [by intros ?%elem_of_nil|]. intros Hin.
  destruct (decide (k1 = k')) as [->|H1]; simpl.
  { destruct (decide (k' = k)); [congruence|]. simpl. by destruct (decide (k' = k')). }
  destruct (decide (k1 = k)) as [->|H2]; simpl; [by destruct (decide (k = k'))|].
  rewrite (decide_False (P := k1 = k')) by done. f_equal. apply IH. set_solver.
Qed.

Lemma dset_in {V} (d : list (string * V)) k v k' : k' ∈ map fst (dset d k v) <-> k' = k \/ k' ∈ map fst d.
Proof. rewrite dset_keys. case_decide; set_solver. Qed.

Lemma dget_in {V} (d : list (string * V)) k v : NoDup (map fst d) -> (k, v) ∈ d -> dget d k = Some v.
Proof.
  induction d as [|[k1 v1] d IH]; simpl; [by intros _ ?%elem_of_nil|]. intros [Hn Hd]%NoDup_cons [[= -> ->]|Hin]%elem_of_cons.
  - by rewrite decide_True.
  - rewrite decide_False; [by apply IH|]. intros ->. apply Hn. apply list_elem_of_fmap. by exists (k, v).
Qed.

Lemma dget_None_in {V} (d : list (string * V)) k : dget d k = None -> k ∉ map fst d.
Proof.
  induction d as [|[k1 v1] d IH]; simpl; [by intros _ ?%elem_of_nil|]. case_decide; [done|].
  intros Hd [->|Hin]%elem_of_cons; [done|by apply IH].
Qed.

Lemma dset_nodup {V} (d : list (string * V)) k v : NoDup (map fst d) -> NoDup (map fst (dset d k v)).
Proof.
  intros Hd. rewrite dset_keys. case_decide as Hk; [done|]. apply NoDup_app. split; [done|]. split; [|apply NoDup_singleton].
  intros x Hx ->%list_elem_of_singleton. done.
Qed.

Lemma dget_Some_in {V} (d : list (string * V)) k v : dget d k = Some v -> (k, v) ∈ d.
Proof.
  induction d as [|[k' v'] d IH]; simpl; [done|]. case_decide as Hk; [|intros H; right; auto].
  intros [= ->]. subst. by left.
Qed.

Lemma dget_is_Some {V} (d : list (string * V)) k : is_Some (dget d k) <-> k ∈ map fst d.
Proof.
  split.
  - intros [v Hv%dget_Some_in]. apply list_elem_of_fmap. by exists (k, v).
  - intros Hk. destruct (dget d k) eqn:E; [by eexists|]. by apply dget_None_in in E.
Qed.

(** Setting several keys. *)
Lemma foldl_dset_keys {V X} (f : X -> string) (g : X -> V) l d :
  (NoDup (map fst d) -> NoDup (map fst (foldl (fun d x => dset d (f x) (g x)) d l))) /\
  forall k, k ∈ map fst (foldl (fun d x => dset d (f x) (g x)) d l) <-> k ∈ map fst d \/ k ∈ map f l.
Proof.
  revert d. induction l as [|x l IH]; intros d; simpl; [split; [done|]; set_solver|].
  destruct (IH (dset d (f x) (g x))) as [Hn Hk]. split; [intros Hd; by apply Hn, dset_nodup|].
  intros k. rewrite Hk, dset_in, elem_of_cons. tauto.
Qed.

Lemma foldl_dset_other {V X} (f : X -> string) (g : X -> V) l d k : k ∉ map f l -> dget (foldl (fun d x => dset d (f x) (g x)) d l) k = dget d k.
Proof.
  revert d. induction l as [|x l IH]; intros d; simpl; [done|]. intros [Hk Hl]%not_elem_of_cons.
  rewrite IH by done. by apply dget_dset_ne.
Qed.

Lemma foldl_dset_get {V X} (f : X -> string) (g : X -> V) l d x : NoDup (map f l) -> x ∈ l ->
  dget (foldl (fun d x => dset d (f x) (g x)) d l) (f x) = Some (g x).
Proof.
  revert d. induction l as [|y l IH]; intros d; simpl; [by intros _ ?%elem_of_nil|]. intros [Hy Hl]%NoDup_cons [->|Hx]%elem_of_cons.
  - rewrite foldl_dset_other by done. apply dget_dset_eq.
  - by apply IH.
Qed.
