(* ===== verification/Expr.v ===== *)
(** Template expressions: finding [${{ ... }}] in strings
    ([tracecat/expressions/patterns.py], [tracecat/parse.py]) and extracting the
    references of an expression ([tracecat/expressions/core.py]).

    The expression grammar is parsed by the third-party Lark library, so
    [parse] is a parameter: [None] stands for a parse error. *)

From S2P Require Import Prelude PyStr Base62 PyVal.

(** ** The template pattern

    [TEMPLATE_STRING = \\${{\s*(?P<expr>.+?)\s*}}] with [DOTALL]. *)

Module Template.
Definition skip_spaces : list ascii -> list ascii := Decimal.drop_spaces.

(** [\s*}}]: the text after the closing braces. *)
Definition close (s : list ascii) : option (list ascii) :=
  match skip_spaces s with
  | "}"%char :: "}"%char :: rest => Some rest
  | _ => None
  end.

(** [.+?\s*}}]: the shortest non-empty expression, with the text after it. *)
Fixpoint lazy_expr (s : list ascii) : option (list ascii * list ascii) :=
  match s with
  | [] => None
  | c :: s' =>
      match close s' with
      | Some rest => Some ([c], rest)
      | None => match lazy_expr s' with
                | Some (e, rest) => Some (c :: e, rest)
                | None => None
                end
      end
  end.

(** [\s*.+?\s*}}]: leading spaces are skipped greedily, and given back one at a
    time when the rest does not match. *)
Fixpoint body (s : list ascii) : option (list ascii * list ascii) :=
  match s with
  | [] => None
  | c :: s' =>
      if is_space c then
        match body s' with
        | Some r => Some r
        | None => lazy_expr s
        end
      else lazy_expr s
  end.

Definition match_at (s : list ascii) : option (list ascii * list ascii) :=
  match s with
  | "$"%char :: "{"%char :: "{"%char :: s' => body s'
  | _ => None
  end.

(** [re.finditer(TEMPLATE_STRING, s)], the [expr] groups; [fuel] is at least the
    length of [s]. *)
Fixpoint finditer (fuel : nat) (s : list ascii) : list string :=
  match fuel, s with
  | S fuel', _ :: s' =>
      match match_at s with
      | Some (e, rest) => string_of e :: finditer fuel' rest
      | None => finditer fuel' s'
      end
  | _, _ => []
  end.

Definition exprs (s : string) : list string :=
  let l := String.list_ascii_of_string s in finditer (length l) l.

Lemma drop_spaces_length l : (length (Decimal.drop_spaces l) <= length l)%nat.
Proof. induction l as [|c l IH]; simpl; [lia|]. destruct (is_space c); simpl; lia. Qed.

Lemma close_length s r : close s = Some r -> (length r < length s)%nat.
Proof.
  unfold close, skip_spaces. pose proof (drop_spaces_length s) as Hl. intros H.
  repeat (case_match; try done). simplify_eq. simpl in *. lia.
Qed.

Lemma lazy_expr_length s e r : lazy_expr s = Some (e, r) -> (length r < length s)%nat.
Proof.
  revert e; induction s as [|c s IH]; intros e H; simpl in *; [done|].
  destruct (close s) eqn:Ec.
  - simplify_eq. apply close_length in Ec. lia.
  - destruct (lazy_expr s) as [[e' r']|]; [|done]. simplify_eq. specialize (IH _ eq_refl). lia.
Qed.

Lemma body_length s e r : body s = Some (e, r) -> (length r < length s)%nat.
Proof.
  revert e; induction s as [|c s IH]; intros e H; [done|]. simpl in H.
  destruct (is_space c); [|by eapply lazy_expr_length].
  destruct (body s) as [[e' r']|] eqn:E.
  - injection H as -> ->. specialize (IH _ eq_refl). simpl. lia.
  - by eapply lazy_expr_length.
Qed.

(** More fuel than characters changes nothing. *)
Lemma finditer_fuel f1 f2 s :
  (length s <= f1)%nat -> (length s <= f2)%nat -> finditer f1 s = finditer f2 s.
Proof.
  revert f2 s; induction f1 as [|f1 IH]; intros f2 s H1 H2.
  - destruct s; simpl in *; [by destruct f2|lia].
  - destruct f2 as [|f2]; [destruct s; simpl in *; [done|lia]|].
    destruct s as [|c s]; [done|]. simpl in H1, H2. cbn [finditer].
    destruct (match_at (c :: s)) as [[e r]|] eqn:E.
    + assert (length r < length (c :: s))%nat.
      { unfold match_at in E. repeat (case_match; try done). apply body_length in E. simplify_eq. simpl in *. lia. }
      simpl in *. f_equal. apply IH; lia.
    + apply IH; lia.
Qed.

Example exprs_two :
  exprs "a ${{ ACTIONS.x.result }} b ${{FN.now()}} ${{ }} c" =
  ["ACTIONS.x.result"; "FN.now()"; " "].
Proof. reflexivity. Qed.
End Template.

(** [traverse_expressions]. *)
Definition traverse_expressions (obj : val) : list string :=
  flat_map (fun v => match v with VStr s => Template.exprs s | _ => [] end) (traverse_nodes obj).

(** ** Reference extraction *)

(** Lark's parse trees; [Absent] is the placeholder [None] of an optional item that
    did not match. *)
Inductive tree :=
  | Node (data : string) (children : list tree)
  | Token (type value : string)
  | Absent.

Record extracted := MkExtracted {
  ex_actions : gset string;
  ex_secrets : gset string;
  ex_vars : gset string }.

Definition no_refs : extracted := MkExtracted ∅ ∅ ∅.

(** One callback of [RegistryActionExtractor]; the node kinds without a callback
    are ignored. *)
Definition extract_node (data : string) (children : list tree) (acc : extracted) : result extracted :=
  let token := match children with
               | Token _ value :: _ => Ok (lstrip "." value)
               | (Node _ _ | Absent) :: _ => raise ValueError "Expected a string token"
               | [] => raise IndexError "list index out of range"
               end in
  if decide (data = "actions") then
    let! jsonpath := token in
    match split_first "." jsonpath with
    | Some (ref, _) => Ok (MkExtracted ({[ ref ]} ∪ ex_actions acc) (ex_secrets acc) (ex_vars acc))
    | None => raise ValueError "not enough values to unpack"
    end
  else if decide (data = "secrets") then
    let! jsonpath := token in
    match split_first "." jsonpath with
    | Some (secret, _) => Ok (MkExtracted (ex_actions acc) ({[ secret ]} ∪ ex_secrets acc) (ex_vars acc))
    | None => raise ValueError "not enough values to unpack"
    end
  else if decide (data = "vars") then
    let! jsonpath := token in
    let var_name := match split_first "." jsonpath with Some (v, _) => v | None => jsonpath end in
    Ok (MkExtracted (ex_actions acc) (ex_secrets acc) ({[ var_name ]} ∪ ex_vars acc))
  else Ok acc.

(** [visitor.visit(tree)]: the callbacks run bottom-up. *)
Fixpoint visit (t : tree) (acc : extracted) : result extracted :=
  match t with
  | Token _ _ | Absent => Ok acc
  | Node data children =>
      let! acc' := rfor visit children acc in
      extract_node data children acc'
  end.

Section Extract.
Variable parse : string -> option tree.

(** [Expression(expr, visitor=extractor).visit()]: any failure is re-raised as
    a [TracecatExpressionError]. *)
Definition extract_one (expr : string) (acc : extracted) : result extracted :=
  match parse expr with
  | None => raise TracecatExpressionError "Error parsing expression"
  | Some t =>
      match visit t acc with
      | Ok acc' => Ok acc'
      | Err _ => raise TracecatExpressionError "Error extracting components from expression"
      end
  end.

Definition extract_expressions (args : val) : result extracted :=
  rfor extract_one (traverse_expressions args) no_refs.

Lemma rfor_only_err {X S} (f : X -> S -> result S) cls xs s e :
  (forall x s e, f x s = Err e -> exn_cls e = cls) -> rfor f xs s = Err e -> exn_cls e = cls.
Proof.
  intros Hf. revert s; induction xs as [|x xs IH]; intros s H; simpl in *; [done|].
  destruct (f x s) eqn:E; simpl in H; [eauto|]. injection H as <-. eauto.
Qed.

(** Extraction only raises [TracecatExpressionError]. *)
Lemma extract_expressions_err args e :
  extract_expressions args = Err e -> exn_cls e = TracecatExpressionError.
Proof.
  apply rfor_only_err. intros x s e' H. unfold extract_one in H.
  destruct (parse x); [destruct (visit t s); try done|]; unfold raise in H; by injection H as <-.
Qed.
End Extract.
