(* ===== verification/PyOps.v ===== *)
(** Python's operators on values, as the expression language uses them
    ([OPERATORS], [cast] and [_bool] of [tracecat/expressions/functions.py] and the
    unary operators of the evaluator): comparisons across numeric types, membership,
    and arithmetic on unbounded integers and IEEE binary64 floats. *)

From S2P Require Import Prelude PyStr Base62 PyVal.

(** [sub in s] for strings. *)
Fixpoint str_contains (sub s : string) : bool :=
  String.prefix sub s || match s with EmptyString => false | String _ s' => str_contains sub s' end.

Section Ops.
(** Object identity, which [is] and the membership tests of containers observe. *)
Variable same : val -> val -> bool.

(** ** Numbers *)

(** [int] (and [bool], its subclass) or [float]. *)
Inductive num := NInt (z : Z) | NFloat (f : spec_float).

Definition num_of (v : val) : option num :=
  match v with
  | VBool b => Some (NInt (Z.b2z b))
  | VInt z => Some (NInt z)
  | VFloat f => Some (NFloat f)
  | _ => None
  end.

(** Integers and floats are compared exactly; [None] when a NaN is involved. *)
Definition compare_int_float (z : Z) (f : spec_float) : option comparison :=
  match f with
  | S754_nan => None
  | S754_infinity s => Some (if s then Gt else Lt)
  | S754_zero _ => Some (z ?= 0)
  | S754_finite s m e =>
      let m := if s then Zneg m else Zpos m in
      Some (if 0 <=? e then z ?= m * 2 ^ e else z * 2 ^ (- e) ?= m)
  end.

Definition num_compare (a b : num) : option comparison :=
  match a, b with
  | NInt x, NInt y => Some (x ?= y)
  | NInt x, NFloat g => compare_int_float x g
  | NFloat f, NInt y => CompOpp <$> compare_int_float y f
  | NFloat f, NFloat g => SFcompare f g
  end.

(** ** Equality *)

Fixpoint py_eq (a b : val) : bool :=
  match num_of a, num_of b with
  | Some x, Some y => bool_decide (num_compare x y = Some Eq)
  | _, _ =>
      match a, b with
      | VNone, VNone => true
      | VStr s, VStr t => String.eqb s t
      | VList l, VList m =>
          (fix go (l m : list val) : bool :=
             match l, m with
             | [], [] => true
             | x :: l', y :: m' => (same x y || py_eq x y) && go l' m'
             | _, _ => false
             end) l m
      | VDict d, VDict e =>
          (length d =? length e)%nat &&
          forallb (fun kv => match dget e kv.1 with Some w => same kv.2 w || py_eq kv.2 w | None => false end) d
      | _, _ => false
      end
  end.

(** What containers use: identity first. *)
Definition elem_eq (a b : val) : bool := same a b || py_eq a b.

(** ** Order *)

Inductive order_op := OLt | OLe | OGt | OGe.

Definition order_holds (op : order_op) (c : comparison) : bool :=
  match op, c with
  | OLt, Lt | OLe, Lt | OLe, Eq | OGt, Gt | OGe, Gt | OGe, Eq => true
  | _, _ => false
  end.

Definition type_error {A : Type} : result A := raise TypeError "unsupported operand type(s)".

Fixpoint py_order (op : order_op) (a b : val) : result bool :=
  match num_of a, num_of b with
  | Some x, Some y => Ok (match num_compare x y with Some c => order_holds op c | None => false end)
  | _, _ =>
      match a, b with
      | VStr s, VStr t => Ok (order_holds op (String.compare s t))
      | VList l, VList m =>
          (fix go (l m : list val) : result bool :=
             match l, m with
             | [], [] => Ok (order_holds op Eq)
             | [], _ => Ok (order_holds op Lt)
             | _, [] => Ok (order_holds op Gt)
             | x :: l', y :: m' => if elem_eq x y then go l' m' else py_order op x y
             end) l m
      | _, _ => type_error
      end
  end.

(** ** Membership *)

Definition py_in (item container : val) : result bool :=
  match container with
  | VStr s => match item with VStr sub => Ok (str_contains sub s) | _ => type_error end
  | VList l => Ok (existsb (elem_eq item) l)
  | VDict d =>
      match item with
      | VStr k => Ok (bool_decide (k ∈ map fst d))
      | VList _ | VDict _ => raise TypeError "unhashable type"
      | _ => Ok false
      end
  | _ => type_error
  end.

(** ** Arithmetic *)

Definition int_to_float (z : Z) : result spec_float :=
  match binary_normalize 53 1024 z 0 false with
  | S754_infinity _ => raise OverflowError "int too large to convert to float"
  | f => Ok f
  end.

Definition to_float (n : num) : result spec_float :=
  match n with NInt z => int_to_float z | NFloat f => Ok f end.

(** An operation on two integers, or on two floats after conversion. *)
Definition arith (on_int : Z -> Z -> result val) (on_float : spec_float -> spec_float -> result val) (x y : num) : result val :=
  match x, y with
  | NInt a, NInt b => on_int a b
  | _, _ => let! f := to_float x in let! g := to_float y in on_float f g
  end.

Definition str_repeat (s : string) (n : Z) : string := String.concat "" (repeat s (Z.to_nat n)).
Definition list_repeat (l : list val) (n : Z) : list val := concat (repeat l (Z.to_nat n)).

Definition py_add (a b : val) : result val :=
  match num_of a, num_of b with
  | Some x, Some y => arith (fun a b => Ok (VInt (a + b))) (fun f g => Ok (VFloat (SFadd 53 1024 f g))) x y
  | _, _ => match a, b with
            | VStr s, VStr t => Ok (VStr (s +:+ t))
            | VList l, VList m => Ok (VList (l ++ m))
            | _, _ => type_error
            end
  end.

Definition py_sub (a b : val) : result val :=
  match num_of a, num_of b with
  | Some x, Some y => arith (fun a b => Ok (VInt (a - b))) (fun f g => Ok (VFloat (SFsub 53 1024 f g))) x y
  | _, _ => type_error
  end.

Definition py_mul (a b : val) : result val :=
  match num_of a, num_of b with
  | Some x, Some y => arith (fun a b => Ok (VInt (a * b))) (fun f g => Ok (VFloat (SFmul 53 1024 f g))) x y
  | None, Some (NInt n) => match a with
                           | VStr s => Ok (VStr (str_repeat s n))
                           | VList l => Ok (VList (list_repeat l n))
                           | _ => type_error
                           end
  | Some (NInt n), None => match b with
                           | VStr s => Ok (VStr (str_repeat s n))
                           | VList l => Ok (VList (list_repeat l n))
                           | _ => type_error
                           end
  | _, _ => type_error
  end.

(** The correctly rounded quotient of two integers. *)
Definition int_truediv (a b : Z) : result val :=
  let negative := xorb (a <? 0) (b <? 0) in
  if a =? 0 then Ok (VFloat (S754_zero negative))
  else
    let k := Z.max 0 (64 + Z.log2 (Z.abs b) - Z.log2 (Z.abs a)) in
    let n := Z.abs a * 2 ^ k in
    let q := 2 * (n / Z.abs b) + (if n mod Z.abs b =? 0 then 0 else 1) in
    match binary_normalize 53 1024 (if negative then - q else q) (- k - 1) negative with
    | S754_infinity _ => raise OverflowError "integer division result too large for a float"
    | f => Ok (VFloat f)
    end.

Definition is_zero (v : val) : bool := py_eq v (VInt 0).

(** [div] of [functions.py]. *)
Definition py_div (a b : val) : result val :=
  if is_zero b then raise ZeroDivisionError "Cannot divide by zero"
  else match num_of a, num_of b with
       | Some x, Some y => arith int_truediv (fun f g => Ok (VFloat (SFdiv 53 1024 f g))) x y
       | _, _ => type_error
       end.

(** C's [fmod], exact; [g] is not zero. *)
Definition fmod (f g : spec_float) : spec_float :=
  match f, g with
  | S754_nan, _ | _, S754_nan | S754_infinity _, _ | _, S754_zero _ => S754_nan
  | S754_zero _, _ | _, S754_infinity _ => f
  | S754_finite s m e, S754_finite _ m' e' =>
      let lo := Z.min e e' in
      let r := (Zpos m * 2 ^ (e - lo)) mod (Zpos m' * 2 ^ (e' - lo)) in
      binary_normalize 53 1024 (if s then - r else r) lo s
  end.

Definition sf_sign (f : spec_float) : bool :=
  match f with S754_zero s | S754_infinity s | S754_finite s _ _ => s | S754_nan => false end.

Definition float_mod (f g : spec_float) : spec_float :=
  match fmod f g with
  | S754_zero _ => S754_zero (sf_sign g)
  | S754_nan => S754_nan
  | r => if bool_decide (sf_sign g = sf_sign r) then r else SFadd 53 1024 r g
  end.

(** [str % value]: printf-style formatting. *)
Variable percent_format : string -> val -> result val.

(** [mod] of [functions.py]. *)
Definition py_mod (a b : val) : result val :=
  if is_zero b then raise ZeroDivisionError "Cannot calculate modulo with zero"
  else match a with
       | VStr s => percent_format s b
       | _ => match num_of a, num_of b with
              | Some x, Some y => arith (fun a b => Ok (VInt (a mod b))) (fun f g => Ok (VFloat (float_mod f g))) x y
              | _, _ => type_error
              end
       end.

Definition py_neg (a : val) : result val :=
  match num_of a with
  | Some (NInt z) => Ok (VInt (- z))
  | Some (NFloat f) => Ok (VFloat (SFopp f))
  | None => type_error
  end.

Definition py_pos (a : val) : result val :=
  match num_of a with
  | Some (NInt z) => Ok (VInt z)
  | Some (NFloat f) => Ok (VFloat f)
  | None => type_error
  end.

(** ** [OPERATORS] *)

Definition of_bool (r : result bool) : result val := let! b := r in Ok (VBool b).

Definition OPERATORS : list (string * (val -> val -> result val)) := [
  ("||", fun a b => Ok (if truthy a then a else b));
  ("&&", fun a b => Ok (if truthy a then b else a));
  ("==", fun a b => Ok (VBool (py_eq a b)));
  ("!=", fun a b => Ok (VBool (negb (py_eq a b))));
  ("<", fun a b => of_bool (py_order OLt a b));
  ("<=", fun a b => of_bool (py_order OLe a b));
  (">", fun a b => of_bool (py_order OGt a b));
  (">=", fun a b => of_bool (py_order OGe a b));
  ("+", py_add); ("-", py_sub); ("*", py_mul); ("/", py_div); ("%", py_mod);
  ("in", fun a b => of_bool (py_in a b));
  ("not in", fun a b => of_bool (let! r := py_in a b in Ok (negb r)));
  ("is", fun a b => Ok (VBool (same a b)));
  ("is not", fun a b => Ok (VBool (negb (same a b))))].

(** ** Conversions *)

(** [float(s)] of a string, [str(v)] of a float or a container. *)
Variable float_of_str : string -> result spec_float.
Variable str_of_other : val -> result string.

Definition ascii_lower (c : ascii) : ascii :=
  let n := Ascii.nat_of_ascii c in
  if (65 <=? n)%nat && (n <=? 90)%nat then Ascii.ascii_of_nat (n + 32) else c.
Fixpoint lower (s : string) : string :=
  match s with EmptyString => EmptyString | String c s' => String (ascii_lower c) (lower s') end.

(** [_bool]. *)
Definition _bool (x : val) : bool :=
  match x with
  | VBool b => b
  | VStr s => String.eqb (lower s) "true" || String.eqb (lower s) "1"
  | _ => truthy x
  end.

Definition MAX_STR_DIGITS : Z := 4300.

(** [str(v)]; converting a huge integer is refused by the interpreter. *)
Definition py_str (v : val) : result string :=
  match v with
  | VStr s => Ok s
  | VInt z => if 10 ^ MAX_STR_DIGITS <=? Z.abs z then raise ValueError "Exceeds the limit (4300 digits) for integer string conversion"
              else Ok (Decimal.py_str_int z)
  | VBool true => Ok "True"
  | VBool false => Ok "False"
  | VNone => Ok "None"
  | _ => str_of_other v
  end.

(** [int(f)] truncates towards zero. *)
Definition trunc (f : spec_float) : result Z :=
  match f with
  | S754_nan => raise ValueError "cannot convert float NaN to integer"
  | S754_infinity _ => raise OverflowError "cannot convert float infinity to integer"
  | S754_zero _ => Ok 0
  | S754_finite s m e =>
      let z := if 0 <=? e then Zpos m * 2 ^ e else Zpos m / 2 ^ (- e) in
      Ok (if s then - z else z)
  end.

Definition int_cast (v : val) : result val :=
  match v with
  | VStr s => match Decimal.py_int s with Some z => Ok (VInt z) | None => raise ValueError "invalid literal for int()" end
  | _ => match num_of v with
         | Some (NInt z) => Ok (VInt z)
         | Some (NFloat f) => let! z := trunc f in Ok (VInt z)
         | None => type_error
         end
  end.

Definition float_cast (v : val) : result val :=
  match v with
  | VStr s => let! f := float_of_str s in Ok (VFloat f)
  | _ => match num_of v with
         | Some n => let! f := to_float n in Ok (VFloat f)
         | None => type_error
         end
  end.

(** [to_datetime] builds objects outside the JSON-like values. *)
Variable to_datetime : val -> result val.

Definition BUILTIN_TYPE_MAPPING : list (string * (val -> result val)) := [
  ("int", int_cast); ("float", float_cast); ("str", fun v => let! s := py_str v in Ok (VStr s));
  ("bool", fun v => Ok (VBool (_bool v))); ("datetime", to_datetime)].

Definition cast (x : val) (typename : string) : result val :=
  match dget BUILTIN_TYPE_MAPPING typename with
  | Some f => f x
  | None => raise ValueError "Unknown type for cast operation."
  end.
End Ops.

Section Examples.
Let eq := py_eq (fun _ _ => false).
Let half : val := VFloat (S754_finite false 4503599627370496 (-53)).

Example eq_numbers : eq (VInt 1) (VBool true) && eq (VFloat (S754_zero true)) (VInt 0) && negb (eq (VInt 0) half) = true.
Proof. vm_compute. reflexivity. Qed.
Example div_half : py_div (fun _ _ => false) (VInt 1) (VInt 2) = Ok half.
Proof. vm_compute. reflexivity. Qed.
Example mod_floor : py_mod (fun _ _ => false) (fun _ _ => type_error) (VInt (-7)) (VInt 3) = Ok (VInt 2).
Proof. vm_compute. reflexivity. Qed.
Example mod_float : py_mod (fun _ _ => false) (fun _ _ => type_error) (VInt (-1)) half = Ok (VFloat (S754_zero false)).
Proof. vm_compute. reflexivity. Qed.
Example order_lists : py_order (fun _ _ => false) OLt (VList [VInt 1; VStr "a"]) (VList [VInt 1; VStr "b"; VNone]) = Ok true.
Proof. vm_compute. reflexivity. Qed.
End Examples.
