(* ===== verification/Eval.v ===== *)
(** Evaluation of template expressions: the evaluator of parse trees
    ([tracecat/expressions/parser/evaluator.py]), JSONPath lookups
    ([tracecat/expressions/common.py]), expressions and templates
    ([tracecat/expressions/core.py]) and templated objects
    ([tracecat/expressions/eval.py]). *)

From S2P Require Import Prelude PyStr Base62 PyVal PyOps Expr.

(** ** What the evaluator is given *)

(** A parsed JSONPath: the values it finds, and whether it contains a filter. *)
Record Jsonpath := MkJsonpath { jp_find : val -> result (list val); jp_contains_filter : bool }.

(** Third-party code ([lark], [jsonpath_ng]), the parts of the interpreter that are
    not modelled, and the function table: [FUNCTION_MAPPING] restricted to the
    functions on JSON-like values, [None] when the name is unknown. *)
Record EvalLib := MkEvalLib {
  el_parse : string -> option tree;
  el_jsonpath : string -> result Jsonpath;
  el_function : string -> option (list val -> result val);
  el_same : val -> val -> bool;
  el_percent : string -> val -> result val;
  el_float : string -> result spec_float;
  el_str : val -> result string;
  el_iter_str : string -> val -> result string;
  el_datetime : val -> result val }.

(** What a callback returns: a value, the tuple of an argument list or of a
    key-value pair, or an [IterableExpr]. *)
Inductive ev :=
  | EVal (v : val)
  | ETuple (l : list val)
  | EIter (iterator : string) (collection : val).

Definition MAX_VARS_PATH_DEPTH : Z := 1.

Fixpoint count_char (c : ascii) (s : string) : Z :=
  match s with
  | EmptyString => 0
  | String a s' => (if decide (a = c) then 1 else 0) + count_char c s'
  end.

(** The characters of a UTF-8 string. *)
Definition continuation (c : ascii) : bool :=
  let n := Ascii.nat_of_ascii c in (128 <=? n)%nat && (n <? 192)%nat.
Fixpoint utf8_chars (s : string) : list string :=
  match s with
  | EmptyString => []
  | String c s' =>
      match utf8_chars s', s' with
      | x :: l, String c' _ => if continuation c' then String c x :: l else String c "" :: x :: l
      | l, _ => String c "" :: l
      end
  end.

Section Eval.
Variable lib : EvalLib.
Variable operand : val.

Abbreviation py_str := (py_str (el_str lib)).
Abbreviation cast := (cast (el_float lib) (el_str lib) (el_datetime lib)).

(** ** [eval_jsonpath] *)

Definition eval_jsonpath (expr : string) (operand : val) (strict : bool) : result val :=
  match operand with
  | VDict _ | VList _ =>
      let! path := el_jsonpath lib expr in
      let! matches := jp_find path operand in
      let has_wildcard := str_contains "[*]" expr in
      let has_filter := str_contains "[?(" expr || str_contains "[?@" expr || jp_contains_filter path in
      if (1 <? length matches)%nat || has_wildcard || has_filter then Ok (VList matches)
      else match matches with
           | x :: _ => Ok x
           | [] => if strict then raise TracecatExpressionError "Couldn't resolve expression in the context" else Ok VNone
           end
  | _ => raise TracecatExpressionError "A dict or list operand is required as jsonpath target."
  end.

(** [operand or {}]. *)
Definition _operand : val := if truthy operand then operand else VDict [].

(** The evaluator is not strict. *)
Definition lookup (context path : string) : result ev :=
  let! v := eval_jsonpath (context +:+ path) _operand false in Ok (EVal v).

(** ** Indexing, functions *)

Definition _apply_index (value index : val) : result val :=
  match value with
  | VDict d =>
      match index with
      | VStr k => match dget d k with Some v => Ok v | None => raise TracecatExpressionError "Key not found for mapping access" end
      | VList _ | VDict _ => raise TracecatExpressionError "Invalid key type for mapping access"
      | _ => raise TracecatExpressionError "Key not found for mapping access"
      end
  | VList _ | VStr _ =>
      match index with
      | VInt _ | VBool _ =>
          let i := match index with VInt i => i | VBool b => Z.b2z b | _ => 0 end in
          let l := match value with VList l => l | VStr s => map VStr (utf8_chars s) | _ => [] end in
          let n := Z.of_nat (length l) in
          let i := if i <? 0 then i + n else i in
          if (i <? 0) || (n <=? i) then raise TracecatExpressionError "Sequence index out of range"
          else match l !! Z.to_nat i with
               | Some x => Ok x
               | None => raise TracecatExpressionError "Sequence index out of range"
               end
      | _ => raise TracecatExpressionError "Sequence indices must be integers"
      end
  | _ => raise TracecatExpressionError "Object is not indexable"
  end.

(** [is_iterable(arg)]: lists, but neither strings nor mappings. *)
Definition is_iterable (v : val) : bool := match v with VList _ => true | _ => false end.

(** [fn.map]: broadcasting over the list arguments, as far as the shortest goes. *)
Definition broadcast_map (fn : list val -> result val) (args : list val) : result val :=
  if negb (existsb is_iterable args) then let! r := fn args in Ok (VList [r])
  else
    let lengths := omap (fun a => match a with VList l => Some (length l) | _ => None end) args in
    let n := foldl Nat.min (default O (head lengths)) lengths in
    let nth i a := match a with VList l => default VNone (l !! i) | _ => a end in
    let! rs := rmap (fun i => fn (map (nth i) args)) (seq 0 n) in Ok (VList rs).

(** [function]. *)
Definition call_function (fn_name : string) (fn_args : list val) : result val :=
  let is_mapped := ends_with ".map" fn_name in
  let fn_name := if is_mapped then match split_last "." fn_name with Some (n, _) => n | None => fn_name end else fn_name in
  match el_function lib fn_name with
  | None => raise TracecatExpressionError "Unknown function"
  | Some fn => if is_mapped then broadcast_map fn fn_args else fn fn_args
  end.

(** ** The callbacks *)

Definition token_callback (type value : string) : result ev :=
  let str v := Ok (EVal (VStr v)) in
  if decide (type = "STRING_LITERAL") then str (String.substring 1 (String.length value - 2) value)
  else if decide (type = "NUMERIC_LITERAL") then
    if has_char "." value then let! f := el_float lib value in Ok (EVal (VFloat f))
    else match Decimal.py_int value with
         | Some z => Ok (EVal (VInt z))
         | None => raise ValueError "invalid literal for int()"
         end
  else if decide (type = "BOOL_LITERAL") then let! v := cast (VStr value) "bool" in Ok (EVal v)
  else if decide (type = "NONE_LITERAL") then Ok (EVal VNone)
  else str value.

Definition arity_error {A : Type} : result A := raise TypeError "missing or unexpected positional arguments".

Definition vals (l : list ev) : result (list val) :=
  rmap (fun x => match x with EVal v => Ok v | _ => raise TypeError "unexpected value" end) l.

Definition binary_ops : list (string * string) := [
  ("or_op", "||"); ("and_op", "&&"); ("eq_op", "=="); ("ne_op", "!="); ("gt_op", ">"); ("ge_op", ">=");
  ("lt_op", "<"); ("le_op", "<="); ("in_op", "in"); ("not_in_op", "not in"); ("is_op", "is"); ("is_not_op", "is not");
  ("add_op", "+"); ("sub_op", "-"); ("mul_op", "*"); ("div_op", "/"); ("mod_op", "%")].

Definition contexts : list (string * string) := [
  ("actions", "ACTIONS"); ("secrets", "SECRETS"); ("env", "ENV"); ("local_vars", "var");
  ("template_action_inputs", "inputs"); ("template_action_steps", "steps")].

Definition binary_op (op : string) (lhs rhs : val) : result val :=
  match dget (OPERATORS (el_same lib) (el_percent lib)) op with
  | Some f => f lhs rhs
  | None => raise KeyError op
  end.

(** [vars]: at most one key after the name of the variable. *)
Definition eval_vars (path : string) : result ev :=
  let trimmed := lstrip "." path in
  if MAX_VARS_PATH_DEPTH <? count_char "." trimmed then
    raise TracecatExpressionError "VARS expressions currently support at most one key segment"
  else lookup "VARS" path.

Definition make_dict (pairs : list ev) : result ev :=
  let! d := rfor (fun p d => match p with
                             | ETuple [VStr k; v] => Ok (dset d k v)
                             | _ => raise TypeError "cannot convert dictionary update sequence"
                             end) pairs [] in
  Ok (EVal (VDict d)).

(** The callback of a node on its evaluated children. *)
Definition callback (data : string) (children : list ev) : result ev :=
  match dget binary_ops data, dget contexts data with
  | Some op, _ => match children with [EVal l; EVal r] => let! v := binary_op op l r in Ok (EVal v) | _ => arity_error end
  | None, Some context => match children with [EVal (VStr path)] => lookup context path | _ => arity_error end
  | None, None =>
      if decide (data = "trigger") then
        match children with
        | [EVal (VStr path)] => lookup "TRIGGER" path
        | [EVal VNone] => lookup "TRIGGER" ""
        | _ => arity_error
        end
      else if decide (data = "vars") then match children with [EVal (VStr path)] => eval_vars path | _ => arity_error end
      else if decide (data ∈ ["root"; "expression"; "context"; "base_expr"; "indexer"; "literal"; "local_vars_assignment"]) then
        match children with [x] => Ok x | _ => arity_error end
      else if decide (data = "primary_expr") then
        let! l := vals children in
        match l with
        | base :: indexers => let! v := rfor (fun i v => _apply_index v i) indexers base in Ok (EVal v)
        | [] => arity_error
        end
      else if decide (data = "iterator") then
        match children with
        | [EVal (VStr x); EVal c] =>
            match c with
            | VList _ | VStr _ | VDict _ => Ok (EIter x c)
            | _ => raise ValueError "Invalid iterator collection"
            end
        | _ => arity_error
        end
      else if decide (data = "trailing_typecast_expression") then
        match children with [EVal v; EVal (VStr t)] => let! r := cast v t in Ok (EVal r) | _ => arity_error end
      else if decide (data = "typecast") then
        match children with [EVal (VStr t); EVal v] => let! r := cast v t in Ok (EVal r) | _ => arity_error end
      else if decide (data = "list") then
        match children with
        | [] => Ok (EVal (VList []))
        | [ETuple l] => Ok (EVal (VList l))
        | _ => raise TypeError "object is not iterable"
        end
      else if decide (data = "dict") then make_dict children
      else if decide (data ∈ ["kvpair"; "arg_list"]) then let! l := vals children in Ok (ETuple l)
      else if decide (data = "function") then
        match children with
        | [EVal (VStr name); ETuple args] => let! v := call_function name args in Ok (EVal v)
        | [EVal (VStr name); EVal VNone] => let! v := call_function name [] in Ok (EVal v)
        | _ => arity_error
        end
      else if decide (data = "not_op") then match children with [EVal v] => Ok (EVal (VBool (negb (truthy v)))) | _ => arity_error end
      else if decide (data = "neg_op") then match children with [EVal v] => let! r := py_neg v in Ok (EVal r) | _ => arity_error end
      else if decide (data = "pos_op") then match children with [EVal v] => let! r := py_pos v in Ok (EVal r) | _ => arity_error end
      else raise KeyError "no such rule"
  end.

(** An exception in a callback is a [VisitError], which [evaluate] turns into a
    [TracecatExpressionError]. *)
Definition visit_error (r : result ev) : result ev :=
  match r with Ok x => Ok x | Err _ => raise TracecatExpressionError "[evaluator] Evaluation failed at node" end.

Definition truthy_ev (x : ev) : bool :=
  match x with EVal v => truthy v | ETuple l => match l with [] => false | _ => true end | EIter _ _ => true end.

(** [_transform_tree]: bottom-up, but only the selected branch of a ternary. *)
Fixpoint transform (t : tree) : result ev :=
  match t with
  | Absent => Ok (EVal VNone)
  | Token type value => visit_error (token_callback type value)
  | Node data children =>
      if decide (data = "ternary") then
        match children with
        | [true_node; condition_node; false_node] =>
            let! condition := transform condition_node in
            if truthy_ev condition then transform true_node else transform false_node
        | _ => raise ValueError "not enough values to unpack"
        end
      else let! l := rmap transform children in visit_error (callback data l)
  end.

(** ** Expressions and templates *)

(** [Expression.result]. *)
Definition expression_result (expr : string) : result ev :=
  match el_parse lib expr with
  | None => raise TracecatExpressionError "Error parsing expression"
  | Some t => transform t
  end.

(** [TemplateExpression(template).result()]. *)
Definition template_result (template : list ascii) : result ev :=
  match Template.match_at template with
  | None => raise TracecatExpressionError "Template expression does not match expected pattern."
  | Some (e, _) => expression_result (string_of e)
  end.

(** ** Templated objects *)

(** Evaluated objects: the keys of a dict may evaluate to any hashable value. *)
Inductive tobj :=
  | TVal (x : ev)
  | TList (l : list tobj)
  | TDict (d : list (val * tobj)).

Definition is_template_only (line : string) : bool := String.prefix "${{" line && ends_with "}}" line.

(** [str(x)]. *)
Definition str_ev (x : ev) : result string :=
  match x with
  | EVal v => py_str v
  | ETuple l => el_str lib (VList l)
  | EIter it c => el_iter_str lib it c
  end.

(** [_eval_expression_op] on a match. *)
Definition _eval_expression_op (template : list ascii) : result string :=
  let! x := template_result template in
  match str_ev x with Ok s => Ok s | Err _ => raise ValueError "Error evaluating str expression" end.

(** [pattern.sub(evaluator, line)]; [fuel] is at least the length of the line. *)
Fixpoint pattern_sub (f : list ascii -> result string) (fuel : nat) (s : list ascii) : result string :=
  match fuel, s with
  | S fuel', c :: s' =>
      match Template.match_at s with
      | Some (_, rest) =>
          let! x := f (firstn (length s - length rest) s) in
          let! y := pattern_sub f fuel' rest in
          Ok (x +:+ y)
      | None => let! y := pattern_sub f fuel' s' in Ok (String c y)
      end
  | _, _ => Ok ""
  end.

Definition operator (line : string) : result ev :=
  if is_template_only line && (length (Template.exprs line) =? 1)%nat
  then template_result (String.list_ascii_of_string line)
  else
    let l := String.list_ascii_of_string line in
    let! s := pattern_sub _eval_expression_op (length l) l in Ok (EVal (VStr s)).

(** The store of a dict comprehension: the key must be hashable; an equal key is
    kept with the new value. *)
Fixpoint dict_store (d : list (val * tobj)) (k : val) (x : tobj) : list (val * tobj) :=
  match d with
  | [] => [(k, x)]
  | (k', x') :: d' => if elem_eq (el_same lib) k k' then (k', x) :: d' else (k', x') :: dict_store d' k x
  end.

Definition hashable (x : ev) : result val :=
  match x with
  | EVal (VList _ | VDict _) | EIter _ _ | ETuple _ => raise TypeError "unhashable type"
  | EVal v => Ok v
  end.

Fixpoint _eval_templated_obj_rec (obj : val) : result tobj :=
  match obj with
  | VStr s => let! x := operator s in Ok (TVal x)
  | VList l => let! xs := rmap _eval_templated_obj_rec l in Ok (TList xs)
  | VDict d =>
      let! kvs := rmap (fun kv =>
        let! k := operator kv.1 in
        let! x := _eval_templated_obj_rec kv.2 in
        let! k := hashable k in Ok (k, x)) d in
      Ok (TDict (foldl (fun d kv => dict_store d kv.1 kv.2) [] kvs))
  | _ => Ok (TVal (EVal obj))
  end.

Definition eval_templated_object (obj : val) : result tobj := _eval_templated_obj_rec obj.

Definition iterable_error {A : Type} : result A := raise ValueError "Invalid for_each expression.".

(** [get_iterables_from_expression]. *)
Definition get_iterables_from_expression (expr : val) : result (list (string * val)) :=
  let! x := eval_templated_object expr in
  match x with
  | TVal (EIter it c) => Ok [(it, c)]
  | TList l => rmap (fun x => match x with TVal (EIter it c) => Ok (it, c) | _ => iterable_error end) l
  | TVal (EVal (VList l)) => match l with [] => Ok [] | _ => iterable_error end
  | _ => iterable_error
  end.
End Eval.
