(* ===== verification/EvalFacts.v ===== *)
(** Correctness of the evaluation of templated objects: how a string with
    templates is put together, and that evaluating against a context restricted to
    the extracted action references loses nothing. *)

From S2P Require Import Prelude PyStr Base62 PyVal PyOps Expr Eval.

(** ** Matches of the template pattern *)

Module Template.
Import Expr.Template.

Lemma skip_spaces_app s x : skip_spaces s <> [] -> skip_spaces (s ++ x) = skip_spaces s ++ x.
Proof.
  unfold skip_spaces. induction s as [|c s IH]; intros H; simpl in *; [done|].
  destruct (is_space c); [by apply IH|done].
Qed.

Lemma close_Some s r : close s = Some r <-> skip_spaces s = "}"%char :: "}"%char :: r.
Proof.
  unfold close. split; [|by intros ->]. intros H. repeat (case_match; try done). by simplify_eq.
Qed.

Lemma match_at_Some s e r : match_at s = Some (e, r) <-> exists s', s = "$"%char :: "{"%char :: "{"%char :: s' /\ body s' = Some (e, r).
Proof.
  unfold match_at. split; [|by intros (s' & -> & H)]. intros H. repeat (case_match; try done). by eexists.
Qed.

Lemma close_app s r x : close s = Some r -> close (s ++ x) = Some (r ++ x).
Proof. rewrite !close_Some. intros E. rewrite skip_spaces_app by (by rewrite E). by rewrite E. Qed.

Lemma skip_spaces_suffix s : exists p, s = p ++ skip_spaces s /\ forall x, skip_spaces (p ++ x) = skip_spaces x.
Proof.
  unfold skip_spaces. induction s as [|c s (p & Hp & Hx)]; [by exists []|]. simpl. destruct (is_space c) eqn:E.
  - exists (c :: p). split; [simpl; congruence|]. intros x. simpl. by rewrite E.
  - by exists [].
Qed.

(** A match does not look past its end. *)
Lemma close_prefix s r : close s = Some r -> exists p, s = p ++ r /\ close p = Some [].
Proof.
  rewrite close_Some. intros E. destruct (skip_spaces_suffix s) as (p & Hp & Hx).
  exists (p ++ ["}"%char; "}"%char]). split; [by rewrite <- app_assoc, Hp, E at 1|].
  apply close_Some. by rewrite Hx.
Qed.

Lemma lazy_expr_some s e r x : lazy_expr s = Some (e, r) -> is_Some (lazy_expr (s ++ x)).
Proof.
  revert e r; induction s as [|c s IH]; intros e r; simpl; [done|].
  destruct (close s) as [r'|] eqn:E.
  - intros _. by rewrite (close_app _ _ _ E).
  - destruct (lazy_expr s) as [[e' r']|] eqn:El; [|done]. intros _.
    destruct (close (s ++ x)); [done|]. destruct (IH _ _ eq_refl) as [[? ?] ->]. done.
Qed.

Lemma body_some s e r x : body s = Some (e, r) -> is_Some (body (s ++ x)).
Proof.
  revert e r; induction s as [|c s IH]; intros e r H; [done|]. simpl in H |- *. destruct (is_space c).
  - destruct (body s) as [[e' r']|] eqn:E.
    + destruct (IH _ _ eq_refl) as [y ->]. done.
    + destruct (body (s ++ x)); [done|]. by apply (lazy_expr_some (c :: s) e r x).
  - by apply (lazy_expr_some (c :: s) e r x).
Qed.

Lemma lazy_expr_prefix s e r : lazy_expr s = Some (e, r) -> exists p, s = p ++ r /\ lazy_expr p = Some (e, []).
Proof.
  revert e; induction s as [|c s IH]; intros e; simpl; [done|].
  destruct (close s) as [r'|] eqn:E.
  - intros [= <- <-]. apply close_prefix in E as (p & -> & Hp). exists (c :: p). split; [done|]. simpl. by rewrite Hp.
  - destruct (lazy_expr s) as [[e' r']|] eqn:El; [|done]. intros [= <- <-].
    destruct (IH _ eq_refl) as (p & -> & Hp). exists (c :: p). split; [done|]. simpl.
    destruct (close p) eqn:Ec; [by rewrite (close_app _ _ _ Ec) in E|]. by rewrite Hp.
Qed.

Lemma body_prefix s e r : body s = Some (e, r) -> exists p, s = p ++ r /\ body p = Some (e, []).
Proof.
  revert e r; induction s as [|c s IH]; intros e r H; [done|]. simpl in H. destruct (is_space c) eqn:Es.
  - destruct (body s) as [[e' r']|] eqn:E.
    + injection H as <- <-. destruct (IH _ _ eq_refl) as (p & -> & Hp). exists (c :: p). split; [done|]. simpl. by rewrite Es, Hp.
    + destruct (lazy_expr_prefix (c :: s) e r H) as (p & Hs & Hp). exists p. split; [done|].
      destruct p as [|c' p]; [done|]. injection Hs as <- ->. simpl. rewrite Es.
      destruct (body p) as [[e' r']|] eqn:Ep; [|exact Hp].
      destruct (body_some _ _ _ r Ep) as [y Hy]. congruence.
  - destruct (lazy_expr_prefix (c :: s) e r H) as (p & Hs & Hp). exists p. split; [done|].
    destruct p as [|c' p]; [done|]. injection Hs as <- ->. simpl. by rewrite Es.
Qed.

(** The matched text matches by itself, with the same expression. *)
Lemma match_at_prefix s e r : match_at s = Some (e, r) -> exists p, s = p ++ r /\ p <> [] /\ match_at p = Some (e, []).
Proof.
  intros (s' & -> & Hb)%match_at_Some. apply body_prefix in Hb as (p & -> & Hp).
  exists ("$"%char :: "{"%char :: "{"%char :: p). split_and!; [done|done|]. apply match_at_Some. by eexists.
Qed.

Lemma lazy_expr_exists c a b : is_Some (close b) -> is_Some (lazy_expr (c :: a ++ b)).
Proof.
  intros [r Hr]. revert c; induction a as [|c' a IH]; intros c; cbn [app].
  - cbn [lazy_expr]. by rewrite Hr.
  - specialize (IH c'). revert IH. generalize (c' :: a ++ b). intros t [[e r'] He]. cbn [lazy_expr].
    destruct (close t); [done|]. by rewrite He.
Qed.

Lemma lazy_body s : is_Some (lazy_expr s) -> is_Some (body s).
Proof. destruct s as [|c s]; [by intros [? ?]|]. intros H. simpl. destruct (is_space c); [destruct (body s); [done|exact H]|exact H]. Qed.

(** ** A string as literal characters and templates *)

Inductive seg :=
  | Lit (c : ascii)
  | Tmpl (text e : list ascii).

Fixpoint segments (fuel : nat) (s : list ascii) : list seg :=
  match fuel, s with
  | S fuel', c :: s' =>
      match match_at s with
      | Some (e, rest) => Tmpl (firstn (length s - length rest) s) e :: segments fuel' rest
      | None => Lit c :: segments fuel' s'
      end
  | _, _ => []
  end.

Definition seg_text (x : seg) : list ascii := match x with Lit c => [c] | Tmpl text _ => text end.
Definition templates (l : list seg) : list string :=
  omap (fun x => match x with Lit _ => None | Tmpl _ e => Some (string_of e) end) l.
Definition parse_line (line : string) : list seg :=
  let l := String.list_ascii_of_string line in segments (length l) l.

Lemma finditer_segments fuel s : finditer fuel s = templates (segments fuel s).
Proof.
  revert s; induction fuel as [|fuel IH]; intros [|c s]; [done..|]. cbn [finditer segments].
  destruct (match_at (c :: s)) as [[e rest]|]; [|by rewrite IH]. unfold templates. cbn [omap list_omap]. f_equal. apply IH.
Qed.

Lemma exprs_templates line : exprs line = templates (parse_line line).
Proof. apply finditer_segments. Qed.

Lemma match_at_text s e rest : match_at s = Some (e, rest) ->
  firstn (length s - length rest) s ++ rest = s /\ (length rest < length s)%nat /\
  match_at (firstn (length s - length rest) s) = Some (e, []).
Proof.
  intros (p & -> & Hp & Hm)%match_at_prefix. rewrite length_app, Nat.add_sub, take_app_length.
  split_and!; [done| |done]. destruct p; [done|]. simpl. lia.
Qed.

Lemma segments_text fuel s : (length s <= fuel)%nat -> concat (map seg_text (segments fuel s)) = s.
Proof.
  revert s; induction fuel as [|fuel IH]; intros [|c s] Hl; simpl in Hl; try done; [lia|]. cbn [segments].
  destruct (match_at (c :: s)) as [[e rest]|] eqn:E.
  - apply match_at_text in E as (Ht & Hlt & _). simpl in Hlt. cbn [map concat seg_text]. rewrite IH by lia. done.
  - cbn [map concat seg_text]. rewrite IH by lia. done.
Qed.

Lemma segments_match fuel s text e : Tmpl text e ∈ segments fuel s -> match_at text = Some (e, []).
Proof.
  revert s; induction fuel as [|fuel IH]; intros [|c s]; cbn [segments]; try (by intros ?%not_elem_of_nil).
  destruct (match_at (c :: s)) as [[e' rest]|] eqn:E.
  - intros [[= -> ->]|H]%elem_of_cons; [by apply match_at_text in E as (_ & _ & ?)|by apply IH in H].
  - intros [?|H]%elem_of_cons; [done|by apply IH in H].
Qed.

Lemma parse_line_match line text e : Tmpl text e ∈ parse_line line -> match_at text = Some (e, []).
Proof. apply segments_match. Qed.

(** A line that starts with [${{], ends with [}}] and has a match has one at its
    start. *)
Lemma template_only_match line : is_template_only line = true -> templates (parse_line line) <> [] ->
  is_Some (match_at (String.list_ascii_of_string line)).
Proof.
  unfold is_template_only. intros [Hp (x & Hx)%ends_with_spec]%andb_true_iff Ht.
  apply String.prefix_correct in Hp. destruct line as [|a [|b [|c line]]]; try done.
  simpl in Hp. injection Hp as -> -> -> _.
  assert (exists l, line = l +:+ "}}") as [l ->].
  { destruct x as [|? [|? [|? x]]]; simplify_eq/=; try done. by exists x. }
  destruct l as [|c l].
  { exfalso. apply Ht. vm_compute. reflexivity. }
  assert (is_Some (body (String.list_ascii_of_string (String c l +:+ "}}")))) as [[e r] Hb].
  { rewrite list_ascii_app. apply lazy_body. apply (lazy_expr_exists c (String.list_ascii_of_string l)). by exists []. }
  exists (e, r). apply match_at_Some. by eexists.
Qed.

Lemma close_ends s r : close s = Some r -> exists q, s = q ++ "}"%char :: "}"%char :: r.
Proof. rewrite close_Some. intros E. destruct (skip_spaces_suffix s) as (p & Hp & _). exists p. by rewrite Hp, E at 1. Qed.

Lemma lazy_ends s e r : lazy_expr s = Some (e, r) -> exists q, s = q ++ "}"%char :: "}"%char :: r.
Proof.
  revert e r; induction s as [|c s IH]; intros e r; simpl; [done|]. destruct (close s) as [r'|] eqn:E.
  - intros [= <- <-]. apply close_ends in E as [q ->]. by exists (c :: q).
  - destruct (lazy_expr s) as [[e' r']|]; [|done]. intros [= <- <-]. destruct (IH _ _ eq_refl) as [q ->]. by exists (c :: q).
Qed.

Lemma body_ends s e r : body s = Some (e, r) -> exists q, s = q ++ "}"%char :: "}"%char :: r.
Proof.
  revert e r; induction s as [|c s IH]; intros e r H; [done|]. simpl in H. destruct (is_space c); [|exact (lazy_ends (c :: s) e r H)].
  destruct (body s) as [[e' r']|]; [|exact (lazy_ends (c :: s) e r H)]. injection H as <- <-.
  destruct (IH _ _ eq_refl) as [q ->]. by exists (c :: q).
Qed.

Lemma prefix_correct_app p s : String.prefix p (p +:+ s) = true.
Proof. induction p as [|c p IH]; simpl; [by destruct s|]. by destruct (ascii_dec c c). Qed.

Lemma match_starts text e r x : match_at text = Some (e, r) -> String.prefix "${{" (string_of (text ++ x)) = true.
Proof.
  intros (s' & -> & _)%match_at_Some. exact (prefix_correct_app "${{" (string_of (s' ++ x))).
Qed.

Lemma match_template_only line e :
  match_at (String.list_ascii_of_string line) = Some (e, []) -> is_template_only line = true.
Proof.
  intros (s' & Hl & (q & ->)%body_ends)%match_at_Some. unfold is_template_only.
  assert (line = "${{" +:+ (string_of q +:+ "}}")) as ->.
  { apply list_ascii_inj. rewrite Hl, !list_ascii_app, Decimal.list_string_of. done. }
  apply andb_true_iff. split.
  - apply prefix_correct_app.
  - apply ends_with_spec. by exists ("${{" +:+ string_of q).
Qed.
End Template.

(** ** Strings *)

Section Strings.
Variable lib : EvalLib.
Variable operand : val.

(** The string a segment contributes to an inline template. *)
Definition seg_value (x : Template.seg) : result string :=
  match x with
  | Template.Lit c => Ok (String c "")
  | Template.Tmpl _ e =>
      let! v := expression_result lib operand (string_of e) in
      match str_ev lib v with Ok s => Ok s | Err _ => raise ValueError "Error evaluating str expression" end
  end.

Definition inline_template (segs : list Template.seg) : result ev :=
  let! parts := rmap seg_value segs in Ok (EVal (VStr (foldr String.append "" parts))).

Lemma pattern_sub_segments (f : list ascii -> result string) fuel s :
  pattern_sub f fuel s =
    let! parts := rmap (fun x => match x with Template.Lit c => Ok (String c "") | Template.Tmpl text _ => f text end)
                    (Template.segments fuel s) in
    Ok (foldr String.append "" parts).
Proof.
  revert s; induction fuel as [|fuel IH]; intros [|c s]; try done. cbn [pattern_sub Template.segments].
  destruct (Expr.Template.match_at (c :: s)) as [[e rest]|]; cbn [rmap rbind].
  - destruct (f _) as [x|]; [|done]. simpl. rewrite IH. by destruct (rmap _ _).
  - rewrite IH. by destruct (rmap _ _).
Qed.

(** The evaluation of a string in terms of its segments. *)
Lemma operator_segments line :
  operator lib operand line =
    match Template.templates (Template.parse_line line) with
    | [e] => if is_template_only line then expression_result lib operand e else inline_template (Template.parse_line line)
    | _ => inline_template (Template.parse_line line)
    end.
Proof.
  assert (forall l, l = String.list_ascii_of_string line ->
    (let! s := pattern_sub (_eval_expression_op lib operand) (length l) l in Ok (EVal (VStr s))) = inline_template (Template.parse_line line)) as Hinl.
  { intros l ->. rewrite pattern_sub_segments. unfold inline_template. f_equal. unfold Template.parse_line.
    rewrite (rmap_ext _ seg_value); [by destruct (rmap _ _)|]. intros [c|text e] Hx; [done|].
    apply Template.segments_match in Hx. unfold _eval_expression_op, template_result. by rewrite Hx. }
  unfold operator. rewrite Template.exprs_templates.
  destruct (Template.templates (Template.parse_line line)) as [|e [|e' l]] eqn:Et.
  - rewrite andb_false_r. by apply Hinl.
  - rewrite andb_true_r. destruct (is_template_only line) eqn:Ho; [|by apply Hinl].
    destruct (Template.template_only_match line Ho) as [[e' rest] Hm]; [by rewrite Et|].
    unfold template_result. rewrite Hm. f_equal.
    unfold Template.parse_line in Et. destruct (String.list_ascii_of_string line) as [|c s]; [done|].
    cbn [length Template.segments] in Et. rewrite Hm in Et. unfold Template.templates in Et. cbn [omap list_omap] in Et. congruence.
  - rewrite andb_false_r. by apply Hinl.
Qed.

Lemma inline_literal l :
  inline_template (map Template.Lit l) = Ok (EVal (VStr (string_of l))).
Proof.
  unfold inline_template. assert (forall l, rmap seg_value (map Template.Lit l) = Ok (map (fun c => String c "") l)) as ->.
  { clear l. induction l as [|c l IH]; simpl; [done|]. by rewrite IH. }
  simpl. do 3 f_equal. induction l as [|c l IH]; simpl; [done|]. by rewrite IH.
Qed.

Lemma templates_nil segs : Template.templates segs = [] -> exists l, segs = map Template.Lit l.
Proof.
  induction segs as [|[c|t e] segs IH]; unfold Template.templates in *; cbn [omap list_omap]; intros H; [by exists []| |done].
  destruct (IH H) as [l ->]. by exists (c :: l).
Qed.

Lemma lit_text l : concat (map Template.seg_text (map Template.Lit l)) = l.
Proof. induction l as [|c l IH]; simpl; [done|]. by rewrite IH. Qed.

(** How a string is evaluated: it is parsed, without loss, into literal
    characters and templates [${{ e }}]; a string without templates is unchanged; a
    string that is one template gives the value of its expression with its type;
    otherwise the templates are replaced, from left to right, by the printed values
    of their expressions.  In particular the decision to keep the type looks only
    at the two ends of the string and at the number of templates: a literal text
    that follows a single template and ends in two closing braces is dropped. *)
Theorem template_string_spec (line : string) :
  let segs := Template.parse_line line in
  concat (map Template.seg_text segs) = String.list_ascii_of_string line /\
  (Template.templates segs = [] -> operator lib operand line = Ok (EVal (VStr line))) /\
  (forall text e, segs = [Template.Tmpl text e] -> operator lib operand line = expression_result lib operand (string_of e)) /\
  (forall text e rest, segs = Template.Tmpl text e :: map Template.Lit rest -> ends_with "}}" line = true ->
     operator lib operand line = expression_result lib operand (string_of e)) /\
  ((2 <= length (Template.templates segs))%nat \/ is_template_only line = false ->
     operator lib operand line = inline_template segs).
Proof.
  intros segs. assert (concat (map Template.seg_text segs) = String.list_ascii_of_string line) as Hl.
  { by apply Template.segments_text. }
  pose proof (operator_segments line) as Hop. fold segs in Hop.
  assert (forall text e rest, segs = Template.Tmpl text e :: map Template.Lit rest -> Template.templates segs = [string_of e]) as H1.
  { intros text e rest ->. unfold Template.templates. cbn [omap list_omap]. f_equal.
    clear. induction rest as [|c rest IH]; [done|]. cbn [map omap list_omap]. exact IH. }
  split_and!; [done|..].
  - intros Ht. rewrite Hop, Ht. destruct (templates_nil segs Ht) as [l Hs]. rewrite Hs in Hl |- *. rewrite inline_literal.
    rewrite lit_text in Hl. rewrite Hl. do 3 f_equal. apply list_ascii_inj. by rewrite Decimal.list_string_of.
  - intros text e Hs. rewrite Hop, (H1 text e []) by done. rewrite Hs in Hl. simpl in Hl. rewrite app_nil_r in Hl.
    rewrite (Template.match_template_only line e); [done|]. rewrite <- Hl.
    apply (Template.parse_line_match line). fold segs. rewrite Hs. by left.
  - intros text e rest Hs He. rewrite Hop, (H1 text e rest) by done.
    assert (is_template_only line = true) as ->; [|done].
    unfold is_template_only. rewrite He, andb_true_r. rewrite Hs in Hl. cbn [map concat Template.seg_text] in Hl.
    assert (line = string_of (text ++ concat (map Template.seg_text (map Template.Lit rest)))) as Hline.
    { rewrite Hl. apply list_ascii_inj. by rewrite Decimal.list_string_of. }
    rewrite Hline. eapply Template.match_starts, (Template.parse_line_match line). fold segs. rewrite Hs. by left.
  - intros [Hn|Hn]; rewrite Hop; destruct (Template.templates segs) as [|? [|? ?]]; simpl in *; try done; try lia. by rewrite Hn.
Qed.
End Strings.

(** ** The context an expression needs *)

(** Characters of an action reference that JSONPath reads as one field. *)
Definition ident_char (c : ascii) : bool :=
  let n := Ascii.nat_of_ascii c in
  ((48 <=? n) && (n <=? 57) || (65 <=? n) && (n <=? 90) || (97 <=? n) && (n <=? 122) || (n =? 95))%nat.
Definition ident (s : string) : bool :=
  match s with EmptyString => false | _ => forallb ident_char (String.list_ascii_of_string s) end.

(** The other contexts; what follows their name starts a JSONPath step. *)
Definition other_contexts : list (string * string) := [
  ("secrets", "SECRETS"); ("env", "ENV"); ("local_vars", "var"); ("template_action_inputs", "inputs");
  ("template_action_steps", "steps"); ("trigger", "TRIGGER"); ("vars", "VARS")].

Definition path_start (s : string) : bool :=
  match s with EmptyString => true | String c _ => bool_decide (c = "."%char) || bool_decide (c = "["%char) end.
Definition is_path (type : string) : bool := bool_decide (type ∈ ["PARTIAL_JSONPATH_EXPR"; "ATTRIBUTE_PATH"]).

(** [ACTIONS.<ref>.<rest>] with the references in [P]; the other contexts as the
    grammar has them. *)
Definition node_ok (P : string -> Prop) (data : string) (children : list tree) : Prop :=
  if decide (data = "actions") then
    exists type ref rest, children = [Token type ("." +:+ ref +:+ "." +:+ rest)] /\ is_path type = true /\ ident ref = true /\ P ref
  else match dget other_contexts data with
       | Some _ =>
           (exists type path, children = [Token type path] /\ is_path type = true /\ path_start path = true) \/
           (data = "trigger" /\ children = [Absent])
       | None => True
       end.

Fixpoint tree_ok (P : string -> Prop) (t : tree) : Prop :=
  match t with
  | Node data children => node_ok P data children /\ fold_right (fun c Q => tree_ok P c /\ Q) True children
  | _ => True
  end.

(** Every reference of the expression is spelled [ACTIONS.<ref>.<...>]. *)
Definition plain_tree : tree -> Prop := tree_ok (fun _ => True).

Section TreeInd.
Variable Q : tree -> Prop.
Hypothesis Q_token : forall type value, Q (Token type value).
Hypothesis Q_absent : Q Absent.
Hypothesis Q_node : forall data children, Forall Q children -> Q (Node data children).

Fixpoint tree_ind' (t : tree) : Q t :=
  match t with
  | Token type value => Q_token type value
  | Absent => Q_absent
  | Node data children =>
      Q_node data children ((fix go l := match l return Forall Q l with
                                         | [] => @List.Forall_nil _ Q
                                         | c :: l' => @List.Forall_cons _ Q c l' (tree_ind' c) (go l')
                                         end) children)
  end.
End TreeInd.

Lemma tree_ok_node P data children :
  tree_ok P (Node data children) <-> node_ok P data children /\ Forall (tree_ok P) children.
Proof.
  simpl. enough (forall l, fold_right (fun c Q => tree_ok P c /\ Q) True l <-> Forall (tree_ok P) l) as -> by done.
  induction l as [|c l IH]; simpl; [by split; [constructor|]|]. rewrite Forall_cons, IH. done.
Qed.

Lemma ident_nodot ref : ident ref = true -> has_char "." ref = false /\ ref <> "".
Proof.
  intros H. split; [|by intros ->]. destruct ref as [|c ref]; [done|]. unfold ident in H.
  revert H. generalize (String c ref). intros s. induction s as [|a s IH]; [done|]. cbn [String.list_ascii_of_string forallb].
  intros [Ha Hs]%andb_true_iff. cbn [has_char]. rewrite (IH Hs), orb_false_r. apply bool_decide_eq_false. by intros ->.
Qed.

Lemma lstrip_ident ref s : ident ref = true -> lstrip "." (ref +:+ s) = ref +:+ s.
Proof.
  intros H. destruct ref as [|c ref]; [done|]. simpl. rewrite decide_False; [done|]. intros ->. by vm_compute in H.
Qed.

Lemma extract_actions type ref rest acc : ident ref = true ->
  extract_node "actions" [Token type ("." +:+ ref +:+ "." +:+ rest)] acc =
    Ok (MkExtracted ({[ ref ]} ∪ ex_actions acc) (ex_secrets acc) (ex_vars acc)).
Proof.
  intros Hi. unfold extract_node. rewrite decide_True by done. cbn [rbind].
  assert (lstrip "." ("." +:+ ref +:+ "." +:+ rest) = ref +:+ String "." rest) as ->.
  { change ("." +:+ ref +:+ "." +:+ rest) with (String "." (ref +:+ String "." rest)). cbn [lstrip].
    rewrite decide_True by done. by apply lstrip_ident. }
  assert (split_first "." (ref +:+ String "." rest) = Some (ref, rest)) as ->; [|done].
  apply split_first_Some. split; [done|]. by apply ident_nodot.
Qed.

Lemma extract_node_mono data children acc acc' :
  extract_node data children acc = Ok acc' -> ex_actions acc ⊆ ex_actions acc'.
Proof.
  unfold extract_node.
  destruct (decide (data = "actions")); [|destruct (decide (data = "secrets")); [|destruct (decide (data = "vars"))]];
    intros H; inv_ok; try done.
  - destruct (split_first "." _) as [[ref ?]|]; unfold raise in *; simplify_eq. simpl. set_solver.
  - destruct (split_first "." _) as [[ref ?]|]; unfold raise in *; by simplify_eq.
Qed.

Lemma tree_ok_mono (P Q : string -> Prop) t : (forall r, P r -> Q r) -> tree_ok P t -> tree_ok Q t.
Proof.
  intros HPQ. induction t as [| |data children IH] using tree_ind'; [done|done|].
  rewrite !tree_ok_node. intros [Hn Hc]. split.
  - unfold node_ok in *. case_decide; [|done]. destruct Hn as (ty & ref & rest & -> & ? & ? & ?). exists ty, ref, rest. eauto.
  - rewrite Forall_forall in *. eauto.
Qed.

(** Extraction collects the references of every plain expression. *)
Definition collects (run : extracted -> result extracted) (ok : (string -> Prop) -> Prop) : Prop :=
  forall acc acc', run acc = Ok acc' ->
    ex_actions acc ⊆ ex_actions acc' /\ (ok (fun _ => True) -> ok (fun r => r ∈ ex_actions acc')).

Lemma rfor_collects {X} (f : X -> extracted -> result extracted) (ok : (string -> Prop) -> X -> Prop) l :
  (forall (P Q : string -> Prop) x, (forall r, P r -> Q r) -> ok P x -> ok Q x) ->
  Forall (fun x => collects (f x) (fun P => ok P x)) l ->
  collects (rfor f l) (fun P => Forall (ok P) l).
Proof.
  intros Hmono Hl. induction Hl as [|x l Hx _ IH]; intros acc acc' H; simpl in H.
  - injection H as <-. by split; [|constructor].
  - apply rbind_Ok in H as (acc1 & H1 & H2). destruct (Hx _ _ H1) as [Ha Ho], (IH _ _ H2) as [Ha' Ho'].
    split; [set_solver|]. rewrite !Forall_cons. intros [Hx1 Hl1]. split; [|by apply Ho'].
    eapply Hmono; [|by apply Ho]. simpl. set_solver.
Qed.

Lemma visit_collects t : collects (visit t) (fun P => tree_ok P t).
Proof.
  induction t as [| |data children IH] using tree_ind'; try (intros acc acc' [= <-]; done).
  intros acc acc' H. cbn [visit] in H. apply rbind_Ok in H as (acc1 & H1 & H2).
  destruct (rfor_collects visit tree_ok children (fun P Q x => tree_ok_mono P Q x) IH _ _ H1) as [Ha Ho].
  pose proof (extract_node_mono _ _ _ _ H2) as Hm. split; [set_solver|].
  rewrite !tree_ok_node. intros [Hn Hc]. split.
  - unfold node_ok in *. case_decide as Hd; [subst|done]. destruct Hn as (ty & ref & rest & -> & Hty & Hi & _).
    rewrite extract_actions in H2 by done. injection H2 as <-. exists ty, ref, rest. simpl. set_solver.
  - specialize (Ho Hc). eapply Forall_impl; [exact Ho|]. intros c. apply tree_ok_mono. intros r. apply Hm.
Qed.

(** ** Evaluation only looks at the extracted references *)

Section Locality.
Variable lib : EvalLib.

(** JSONPath looks up the first field of a path: what [ACTIONS.<ref>.<...>] finds
    depends only on the entry [ref] of the actions, and what a path into another
    context finds only on that context. *)
Hypothesis actions_path : forall ref rest p a1 a2 d1 d2, ident ref = true ->
  el_jsonpath lib ("ACTIONS" +:+ ("." +:+ ref +:+ "." +:+ rest)) = Ok p ->
  dget d1 "ACTIONS" = Some (VDict a1) -> dget d2 "ACTIONS" = Some (VDict a2) -> dget a1 ref = dget a2 ref ->
  jp_find p (VDict d1) = jp_find p (VDict d2).
Hypothesis context_path : forall c path p d1 d2, c ∈ map snd other_contexts -> path_start path = true ->
  el_jsonpath lib (c +:+ path) = Ok p -> dget d1 c = dget d2 c ->
  jp_find p (VDict d1) = jp_find p (VDict d2).

Variables d1 d2 : list (string * val).
Variables a1 a2 : list (string * val).
Hypothesis actions1 : dget d1 "ACTIONS" = Some (VDict a1).
Hypothesis actions2 : dget d2 "ACTIONS" = Some (VDict a2).
Hypothesis same_contexts : forall c, c ∈ map snd other_contexts -> dget d1 c = dget d2 c.

Lemma operand_dict d : dget d "ACTIONS" <> None -> _operand (VDict d) = VDict d.
Proof. by destruct d. Qed.

Lemma lookup_same c path :
  (forall p, el_jsonpath lib (c +:+ path) = Ok p -> jp_find p (VDict d1) = jp_find p (VDict d2)) ->
  lookup lib (VDict d1) c path = lookup lib (VDict d2) c path.
Proof.
  intros H. unfold lookup, eval_jsonpath. rewrite !operand_dict by congruence. f_equal.
  destruct (el_jsonpath lib (c +:+ path)) as [p|e]; simpl; [|done]. by rewrite H.
Qed.

Lemma lookup_other c path : c ∈ map snd other_contexts -> path_start path = true ->
  lookup lib (VDict d1) c path = lookup lib (VDict d2) c path.
Proof. intros Hc Hp. apply lookup_same. intros p Hj. eapply context_path; eauto. Qed.

(** Nodes that are not contexts do not read the operand. *)
Lemma callback_other data l : data <> "actions" -> dget other_contexts data = None ->
  callback lib (VDict d1) data l = callback lib (VDict d2) data l.
Proof.
  intros Ha Ho. assert (dget contexts data = None) as Hc.
  { unfold other_contexts in Ho. simpl in Ho. unfold contexts. simpl. repeat (case_decide; try done). }
  unfold callback. rewrite Hc. destruct (dget binary_ops data); [done|].
  simpl in Ho. repeat (case_decide; try done).
Qed.

Lemma path_token type path : is_path type = true -> token_callback lib type path = Ok (EVal (VStr path)).
Proof.
  unfold is_path. rewrite bool_decide_eq_true, !elem_of_cons. by intros [->|[->|?%not_elem_of_nil]].
Qed.

Lemma callback_context data path : is_Some (dget other_contexts data) -> path_start path = true ->
  callback lib (VDict d1) data [EVal (VStr path)] = callback lib (VDict d2) data [EVal (VStr path)].
Proof.
  intros [c Hc] Hp.
  assert (forall c, c ∈ map snd other_contexts -> lookup lib (VDict d1) c path = lookup lib (VDict d2) c path) as Hl
    by (intros; by apply lookup_other).
  simpl in Hc. repeat (case_decide; [subst data; unfold callback; simpl;
    try (unfold eval_vars; case_match; [done|]); apply Hl; vm_compute; set_solver|]). done.
Qed.

Lemma transform_same (P : string -> Prop) t :
  (forall r, P r -> dget a1 r = dget a2 r) -> tree_ok P t ->
  transform lib (VDict d1) t = transform lib (VDict d2) t.
Proof.
  intros HP. induction t as [| |data children IH] using tree_ind'; [done|done|].
  rewrite tree_ok_node. intros [Hn Hc].
  assert (forall c, c ∈ children -> transform lib (VDict d1) c = transform lib (VDict d2) c) as Hsame.
  { rewrite Forall_forall in IH, Hc. eauto. }
  cbn [transform]. destruct (decide (data = "ternary")) as [->|Hd].
  - destruct children as [|t1 [|c [|f [|]]]]; try done. rewrite !Hsame by set_solver. done.
  - rewrite (rmap_ext _ (transform lib (VDict d2)) children) by done. unfold node_ok in Hn. case_decide as Ha.
    + subst data. destruct Hn as (ty & ref & rest & -> & Hty & Hi & Hr). cbn [rmap transform].
      rewrite path_token by done. simpl. f_equal. unfold callback. simpl. apply lookup_same. intros p Hp.
      exact (actions_path ref rest p a1 a2 d1 d2 Hi Hp actions1 actions2 (HP ref Hr)).
    + destruct (dget other_contexts data) as [c|] eqn:Eo.
      * destruct Hn as [(ty & path & -> & Hty & Hp)|[-> ->]].
        -- cbn [rmap transform]. rewrite path_token by done. simpl. f_equal. apply callback_context; [by rewrite Eo|done].
        -- simpl. f_equal. unfold callback. simpl. apply lookup_other; [vm_compute; set_solver|done].
      * destruct (rmap _ children) as [l|]; [|done]. simpl. f_equal. by apply callback_other.
Qed.

Lemma operator_same line :
  (forall e, e ∈ Expr.Template.exprs line -> expression_result lib (VDict d1) e = expression_result lib (VDict d2) e) ->
  operator lib (VDict d1) line = operator lib (VDict d2) line.
Proof.
  intros He. rewrite !operator_segments. rewrite Template.exprs_templates in He.
  assert (inline_template lib (VDict d1) (Template.parse_line line) = inline_template lib (VDict d2) (Template.parse_line line)) as ->.
  { unfold inline_template. f_equal. apply rmap_ext. intros [c|text e] Hx; [done|]. simpl. rewrite He; [done|].
    apply list_elem_of_omap. by exists (Template.Tmpl text e). }
  destruct (Template.templates (Template.parse_line line)) as [|e [|]]; [done| |done].
  rewrite He by (by left). done.
Qed.

Lemma eval_same obj :
  (forall e, e ∈ traverse_expressions obj -> expression_result lib (VDict d1) e = expression_result lib (VDict d2) e) ->
  _eval_templated_obj_rec lib (VDict d1) obj = _eval_templated_obj_rec lib (VDict d2) obj.
Proof.
  unfold traverse_expressions. induction obj as [| | | |s|l IH|d IH] using val_rect'; intros He; try done.
  - simpl. rewrite operator_same; [done|]. intros e Hin. apply He. simpl. by rewrite app_nil_r.
  - simpl. f_equal. apply rmap_ext. intros x Hx. rewrite Forall_forall in IH. apply IH; [done|].
    intros e Hin. apply He. simpl. apply elem_of_flat_map in Hin as (v & Hv & Hin). apply elem_of_flat_map.
    exists v. split; [|done]. apply elem_of_flat_map. by exists x.
  - simpl. f_equal. apply rmap_ext. intros [k x] Hx. simpl. rewrite Forall_forall in IH.
    specialize (IH (k, x) Hx). simpl in IH. rewrite operator_same, IH; [done| |].
    + intros e Hin. apply He. simpl. apply elem_of_flat_map in Hin as (v & Hv & Hin). apply elem_of_flat_map.
      exists v. split; [|done]. apply elem_of_flat_map. exists (k, x). split; [done|]. by right.
    + intros e Hin. apply He. simpl. apply elem_of_flat_map. exists (VStr k). split; [|done].
      apply elem_of_flat_map. exists (k, x). split; [done|]. by left.
Qed.

(** C39: the references that the scheduler extracts from a templated object are all
    the actions its evaluation looks at: when extraction succeeds and every action
    reference is spelled [ACTIONS.<ref>.<...>], evaluating the object in two
    contexts that agree on the extracted actions and on the other contexts gives
    the same result or the same error; in particular in the context restricted to
    the extracted actions and in the full one. *)
Theorem extracted_context_sufficient (args : val) (ex : extracted)
    (Hex : extract_expressions (el_parse lib) args = Ok ex)
    (Hplain : forall e t, e ∈ traverse_expressions args -> el_parse lib e = Some t -> plain_tree t)
    (Hagree : forall r, r ∈ ex_actions ex -> dget a1 r = dget a2 r) :
  eval_templated_object lib (VDict d1) args = eval_templated_object lib (VDict d2) args.
Proof.
  apply eval_same. intros e He. unfold expression_result. destruct (el_parse lib e) as [t|] eqn:Et; [|done].
  apply (transform_same (fun r => r ∈ ex_actions ex)); [done|].
  assert (collects (rfor (extract_one (el_parse lib)) (traverse_expressions args))
    (fun P => Forall (fun e => forall t, el_parse lib e = Some t -> tree_ok P t) (traverse_expressions args))) as Hc.
  { apply (rfor_collects _ (fun P e => forall t, el_parse lib e = Some t -> tree_ok P t)).
    - intros P Q x HPQ Hx t' Ht'. eapply tree_ok_mono; eauto.
    - apply Forall_forall. intros x _ acc acc' H. unfold extract_one in H.
      destruct (el_parse lib x) as [t'|] eqn:Ex; [|done]. destruct (visit t' acc) as [acc1|] eqn:Ev; [|done].
      injection H as <-. destruct (visit_collects t' _ _ Ev) as [Hm Ho]. split; [done|].
      intros Hp t'' [= <-]. apply Ho. by apply Hp. }
  destruct (Hc _ _ Hex) as [_ Ho]. rewrite !Forall_forall in Ho. exact (Ho (fun x Hx t' Ht' => Hplain x t' Hx Ht') e He t Et).
Qed.
End Locality.

(** ** A concrete evaluator *)

(** A parser and a JSONPath that know the expression [ACTIONS.a.result]. *)
Definition ex_path : string := "ACTIONS.a.result".
Definition ex_find (v : val) : result (list val) :=
  Ok match v with
     | VDict d =>
         match dget d "ACTIONS" with
         | Some (VDict a) =>
             match dget a "a" with
             | Some (VDict r) => match dget r "result" with Some x => [x] | None => [] end
             | _ => []
             end
         | _ => []
         end
     | _ => []
     end.
Definition ex_elib : EvalLib :=
  MkEvalLib (fun s => if decide (s = ex_path) then Some (Node "actions" [Token "PARTIAL_JSONPATH_EXPR" ".a.result"]) else None)
    (fun s => if decide (s = ex_path) then Ok (MkJsonpath ex_find false) else raise ValueError "unknown path")
    (fun _ => None) (fun _ _ => false) (fun _ _ => type_error) (fun _ => type_error) (fun _ => type_error)
    (fun _ _ => type_error) (fun _ => type_error).

Lemma ex_actions_path ref rest p a1 a2 d1 d2 : ident ref = true ->
  el_jsonpath ex_elib ("ACTIONS" +:+ ("." +:+ ref +:+ "." +:+ rest)) = Ok p ->
  dget d1 "ACTIONS" = Some (VDict a1) -> dget d2 "ACTIONS" = Some (VDict a2) -> dget a1 ref = dget a2 ref ->
  jp_find p (VDict d1) = jp_find p (VDict d2).
Proof.
  intros Hi Hp H1 H2 Ha. unfold el_jsonpath, ex_elib in Hp. case_decide as E; [|done]. injection Hp as <-.
  unfold ex_path in E. assert (ref = "a") as ->.
  { assert (ref +:+ String "." rest = "a.result") as Hr by (simpl in E; by simplify_eq).
    destruct (ident_nodot ref Hi) as [Hd _].
    assert (split_first "." "a.result" = Some (ref, rest)) as Hs by (apply split_first_Some; done).
    vm_compute in Hs. by simplify_eq. }
  simpl. unfold ex_find. by rewrite H1, H2, Ha.
Qed.

Lemma ex_context_path c path p d1 d2 : c ∈ map snd other_contexts -> path_start path = true ->
  el_jsonpath ex_elib (c +:+ path) = Ok p -> dget d1 c = dget d2 c -> jp_find p (VDict d1) = jp_find p (VDict d2).
Proof.
  intros Hc _ Hp _. unfold el_jsonpath, ex_elib in Hp. case_decide as E; [|done]. exfalso.
  unfold other_contexts in Hc. cbn [map snd] in Hc. rewrite !elem_of_cons in Hc.
  repeat (destruct Hc as [->|Hc]; [discriminate E|]). by apply not_elem_of_nil in Hc.
Qed.

Definition ex_full : list (string * val) :=
  [("ACTIONS", VDict [("b", VInt 2); ("a", VDict [("result", VInt 1)])]); ("TRIGGER", VNone)].
Definition ex_restricted : list (string * val) :=
  [("ACTIONS", VDict [("a", VDict [("result", VInt 1)])]); ("TRIGGER", VNone)].
Definition ex_args : val := VDict [("x", VStr "n = ${{ ACTIONS.a.result }}"); ("y", VStr "${{ ACTIONS.a.result }}")].

Lemma extracted_context_sufficient_witness :
  eval_templated_object ex_elib (VDict ex_full) ex_args = eval_templated_object ex_elib (VDict ex_restricted) ex_args /\
  eval_templated_object ex_elib (VDict ex_restricted) ex_args =
    Ok (TDict [(VStr "x", TVal (EVal (VStr "n = 1"))); (VStr "y", TVal (EVal (VInt 1)))]).
Proof.
  split; [|vm_compute; reflexivity].
  refine (extracted_context_sufficient ex_elib ex_actions_path ex_context_path ex_full ex_restricted
    [("b", VInt 2); ("a", VDict [("result", VInt 1)])] [("a", VDict [("result", VInt 1)])] eq_refl eq_refl _
    ex_args (MkExtracted {[ "a" ]} ∅ ∅) _ _ _).
  - intros c Hc. unfold other_contexts in Hc. cbn [map snd] in Hc. rewrite !elem_of_cons in Hc.
    repeat (destruct Hc as [->|Hc]; [reflexivity|]). by apply not_elem_of_nil in Hc.
  - vm_compute. reflexivity.
  - intros e t _ He. unfold el_parse, ex_elib in He. case_decide; [|done]. injection He as <-.
    split; [|done]. exists "PARTIAL_JSONPATH_EXPR", "a", "result". done.
  - intros r Hr. cbn [ex_actions] in Hr. apply elem_of_singleton in Hr as ->. reflexivity.
Defined.

(** A literal text after a single template is dropped when it ends in [}}]. *)
Example template_suffix_dropped :
  operator ex_elib (VDict ex_restricted) "${{ ACTIONS.a.result }} of {{total}}" = Ok (EVal (VInt 1)).
Proof. vm_compute. reflexivity. Qed.
