(* ===== verification/Masks.v ===== *)
(** Masking of secrets in results ([tracecat/secrets/common.py]). *)

From S2P Require Import Prelude PyStr Base62 PyVal PyOps Expr Eval.

Definition MASK_VALUE : list ascii := String.list_ascii_of_string "***".

(** [len] of a string, in characters. *)
Definition str_len (s : string) : nat := length (utf8_chars s).

(** [list.sort(key=len, reverse=True)] is stable. *)
Fixpoint insert_longest (m : string) (l : list string) : list string :=
  match l with
  | [] => [m]
  | m' :: l' => if (str_len m <=? str_len m')%nat then m' :: insert_longest m l' else m :: m' :: l'
  end.

Definition sort_longest (l : list string) : list string := foldl (fun acc m => insert_longest m acc) [] l.

Definition filtered_masks (masks : list string) : list string :=
  sort_longest (List.filter (fun m => (1 <? str_len m)%nat) masks).

Fixpoint is_prefix (m s : list ascii) : bool :=
  match m, s with
  | [], _ => true
  | a :: m', c :: s' => bool_decide (a = c) && is_prefix m' s'
  | _ :: _, [] => false
  end.

(** [re.sub] of the alternation of the escaped masks: at every position the first
    alternative that matches is replaced; [skip] counts the characters of an occurrence
    still to be dropped. *)
Fixpoint sub_masks (masks : list (list ascii)) (skip : nat) (s : list ascii) : list ascii :=
  match s with
  | [] => []
  | c :: s' =>
      match skip with
      | S k => sub_masks masks k s'
      | O => match List.find (fun m => is_prefix m s) masks with
             | Some m => MASK_VALUE ++ sub_masks masks (pred (length m)) s'
             | None => c :: sub_masks masks 0 s'
             end
      end
  end.

Definition apply_masks (value : string) (masks : list string) : string :=
  match filtered_masks masks with
  | [] => value
  | ms => string_of (sub_masks (map String.list_ascii_of_string ms) 0 (String.list_ascii_of_string value))
  end.

(** The keys of a mapping stay as they are. *)
Fixpoint apply_masks_object (obj : val) (masks : list string) : val :=
  match obj with
  | VStr s => VStr (apply_masks s masks)
  | VList l => VList (map (fun v => apply_masks_object v masks) l)
  | VDict d => VDict (map (fun kv => (kv.1, apply_masks_object kv.2 masks)) d)
  | _ => obj
  end.

(** ** No secret is left *)

Definition no_star (m : list ascii) : Prop := "*"%char ∉ m.

(** [m] occurs in [s]. *)
Definition occurs (m s : list ascii) : Prop := exists a b, s = a ++ m ++ b.

(** The strings of an object, without the keys of its mappings. *)
Fixpoint strings (obj : val) : list string :=
  match obj with
  | VStr s => [s]
  | VList l => flat_map strings l
  | VDict d => flat_map (fun kv => strings kv.2) d
  | _ => []
  end.

Lemma is_prefix_spec m s : is_prefix m s = true <-> exists r, s = m ++ r.
Proof.
  revert s. induction m as [|a m IH]; intros s; simpl; [split; eauto|].
  destruct s as [|c s]; [split; [done|by intros [r ?]]|].
  rewrite andb_true_iff, bool_decide_eq_true, IH. split.
  - intros [-> [r ->]]. eauto.
  - intros [r [= -> ->]]. eauto.
Qed.

Section Sub.
Context (masks : list (list ascii)).

Lemma sub_skip k s : sub_masks masks k s = sub_masks masks 0 (drop k s).
Proof. revert s. induction k as [|k IH]; intros [|c s]; simpl; [done..|]. apply IH. Qed.

(** What a masked string starts with and has no star, the string started with. *)
Lemma sub_prefix m s r : no_star m -> sub_masks masks 0 s = m ++ r -> is_prefix m s = true.
Proof.
  revert s. induction m as [|a m IH]; intros s Hm Hs; [done|]. destruct s as [|c s]; [done|].
  cbn [sub_masks] in Hs. assert (a <> "*"%char /\ no_star m) as [Ha Hm'] by (unfold no_star in *; set_solver).
  destruct (List.find _ masks) as [m'|].
  - simpl in Hs. injection Hs as <- _. done.
  - injection Hs as -> Hs. simpl. rewrite bool_decide_eq_true_2 by done. by apply IH.
Qed.

(** An occurrence without stars lies behind a block of stars. *)
Lemma occurs_after stars out m a b : Forall (fun c => c = "*"%char) stars -> m <> [] -> no_star m ->
  stars ++ out = a ++ m ++ b -> occurs m out.
Proof.
  revert a. induction stars as [|c stars IH]; intros a Hst Hne Hm H; simpl in *; [by exists a, b|].
  inversion Hst as [|? ? -> Hst']; subst. destruct a as [|x a].
  - destruct m as [|y m]; [done|]. injection H as <- _. exfalso. apply Hm. by left.
  - injection H as _ H. by eapply IH.
Qed.

Lemma sub_occurs m s : m ∈ masks -> m <> [] -> no_star m -> ~ occurs m (sub_masks masks 0 s).
Proof.
  intros Hin Hne Hm. remember (length s) as n eqn:Hn. assert (length s <= n)%nat as Hle by lia. clear Hn.
  revert s Hle. induction n as [|n IH]; intros s Hle (a & b & H).
  { destruct s; simpl in *; [|lia]. destruct a, m; done. }
  destruct s as [|c s]; [destruct a, m; done|]. cbn [length] in Hle.
  assert (a = [] -> is_prefix m (c :: s) = true) as Hp by (intros ->; by eapply sub_prefix).
  cbn [sub_masks] in H. destruct (List.find _ masks) as [m'|] eqn:Ef.
  - apply (IH (drop (pred (length m')) s)); [rewrite length_drop; lia|].
    rewrite sub_skip in H. eapply occurs_after; [|done|done|exact H].
    by repeat constructor.
  - destruct a as [|x a].
    + apply list_elem_of_In in Hin. pose proof (find_none _ _ Ef m Hin) as Hf. simpl in Hf. by rewrite (Hp eq_refl) in Hf.
    + injection H as _ H. apply (IH s); [lia|]. by exists a, b.
Qed.
End Sub.

Lemma sort_longest_in m l : m ∈ sort_longest l <-> m ∈ l.
Proof.
  unfold sort_longest. assert (forall x acc, m ∈ insert_longest x acc <-> m = x \/ m ∈ acc) as Hi.
  { intros x acc. induction acc as [|y acc IH]; simpl; [set_solver|]. case_match; rewrite !elem_of_cons, ?IH; tauto. }
  assert (forall acc, m ∈ foldl (fun acc m => insert_longest m acc) acc l <-> m ∈ acc \/ m ∈ l) as H.
  { induction l as [|x l IH]; intros acc; simpl; [set_solver|]. rewrite IH, Hi. set_solver. }
  rewrite H. set_solver.
Qed.

(** A secret of two characters or more is in no masked string, unless it has a star
    itself. *)
Lemma apply_masks_clean value masks m : m ∈ masks -> (1 < str_len m)%nat -> no_star (String.list_ascii_of_string m) ->
  ~ occurs (String.list_ascii_of_string m) (String.list_ascii_of_string (apply_masks value masks)).
Proof.
  intros Hin Hlen Hstar. unfold apply_masks.
  assert (m ∈ filtered_masks masks) as Hf.
  { unfold filtered_masks. rewrite sort_longest_in, list_elem_of_In, filter_In, <- list_elem_of_In. split; [done|]. by apply Nat.ltb_lt. }
  destruct (filtered_masks masks) as [|x l] eqn:E; [by apply not_elem_of_nil in Hf|].
  rewrite Decimal.list_string_of. apply sub_occurs; [|destruct m; [unfold str_len in Hlen; simpl in Hlen; lia|done]|done].
  apply list_elem_of_In, in_map, list_elem_of_In, Hf.
Qed.

(** Masking an object masks its strings. *)
Lemma strings_masked obj masks : strings (apply_masks_object obj masks) = map (fun s => apply_masks s masks) (strings obj).
Proof.
  induction obj as [| | | | |l IH|d IH] using val_rect'; simpl; [done..| |].
  - induction IH as [|v l Hv _ IHl]; simpl; [done|]. by rewrite map_app, Hv, IHl.
  - induction IH as [|kv d Hv _ IHd]; simpl; [done|]. by rewrite map_app, Hv, IHd.
Qed.

Lemma masked_clean obj masks m s : m ∈ masks -> (1 < str_len m)%nat -> no_star (String.list_ascii_of_string m) ->
  s ∈ strings (apply_masks_object obj masks) -> ~ occurs (String.list_ascii_of_string m) (String.list_ascii_of_string s).
Proof.
  intros Hin Hlen Hstar Hs. rewrite strings_masked in Hs. apply list_elem_of_In, in_map_iff in Hs as (s0 & <- & _).
  by apply apply_masks_clean.
Qed.

Example masks_longest_first :
  apply_masks "token=secret-1 and secret" ["secret"; "x"; "secret-1"] = "token=*** and ***".
Proof. by vm_compute. Qed.

Example keys_not_masked :
  apply_masks_object (VDict [("hunter2", VStr "hunter2")]) ["hunter2"] = VDict [("hunter2", VStr "***")].
Proof. by vm_compute. Qed.
