(* ===== verification/DslTypes.v ===== *)
(** The data model of the workflow DSL ([tracecat/dsl/enums.py],
    [tracecat/dsl/schemas.py], [tracecat/dsl/types.py], the stored objects of
    [tracecat/storage/object.py] and the dependency strings of
    [tracecat/dsl/common.py]). *)

From S2P Require Import Prelude PyStr Base62 PyVal.

(** ** Enums ([dsl/enums.py]) *)

Inductive EdgeType := EdgeSUCCESS | EdgeERROR.
Inductive EdgeMarker := PENDING | VISITED | SKIPPED.
Inductive JoinStrategy := JoinANY | JoinALL.
Inductive StreamErrorHandlingStrategy := PARTITION | INCLUDE | DROP | RAISE.

#[export] Instance EdgeType_eq_dec : EqDecision EdgeType.
Proof. solve_decision. Defined.
#[export] Instance EdgeMarker_eq_dec : EqDecision EdgeMarker.
Proof. solve_decision. Defined.
#[export] Instance JoinStrategy_eq_dec : EqDecision JoinStrategy.
Proof. solve_decision. Defined.
#[export] Instance StreamErrorHandlingStrategy_eq_dec : EqDecision StreamErrorHandlingStrategy.
Proof. solve_decision. Defined.
#[export] Instance EdgeType_countable : Countable EdgeType.
Proof.
  refine {| encode t := match t with EdgeSUCCESS => 1%positive | EdgeERROR => 2%positive end;
            decode p := match p with 1%positive => Some EdgeSUCCESS | _ => Some EdgeERROR end |}.
  by intros [].
Defined.

(** The value of an [EdgeType] member. *)
Definition edge_type_value (t : EdgeType) : string :=
  match t with EdgeSUCCESS => "success" | EdgeERROR => "error" end.

(** [Sentinel.GATHER_UNSET] (a [StrEnum] member is a string). *)
Definition GATHER_UNSET : string := "__SENTINEL_GATHER_UNSET__".

Module PlatformAction.
Definition CHILD_WORKFLOW_EXECUTE : string := "core.workflow.execute".
Definition TRANSFORM_SCATTER : string := "core.transform.scatter".
Definition TRANSFORM_GATHER : string := "core.transform.gather".
Definition LOOP_START : string := "core.loop.start".
Definition LOOP_END : string := "core.loop.end".
Definition AI_AGENT : string := "ai.agent".
Definition AI_PRESET_AGENT : string := "ai.preset_agent".
Definition AI_ACTION : string := "ai.action".
Definition RUN_PYTHON : string := "core.script.run_python".

Definition is_streamable (action : string) : bool :=
  bool_decide (action ∈ [AI_AGENT; AI_PRESET_AGENT; AI_ACTION]).

Definition interface_actions : list string :=
  [CHILD_WORKFLOW_EXECUTE; TRANSFORM_SCATTER; TRANSFORM_GATHER; LOOP_START; LOOP_END;
   AI_AGENT; AI_PRESET_AGENT; AI_ACTION; RUN_PYTHON].

Definition is_interface (action : string) : bool :=
  bool_decide (action ∈ interface_actions).

Definition is_template_step_supported (action : string) : bool :=
  if negb (is_interface action) then true
  else bool_decide (action = RUN_PYTHON).
End PlatformAction.

(** The scope tables of [dsl/common.py]. *)
Definition SCOPE_OPENER_ACTIONS : list string :=
  [PlatformAction.TRANSFORM_SCATTER; PlatformAction.LOOP_START].
Definition SCOPE_CLOSER_ACTIONS : list string :=
  [PlatformAction.TRANSFORM_GATHER; PlatformAction.LOOP_END].
Definition CLOSER_TO_OPENER_ACTION (action : string) : option string :=
  if decide (action = PlatformAction.TRANSFORM_GATHER) then Some PlatformAction.TRANSFORM_SCATTER
  else if decide (action = PlatformAction.LOOP_END) then Some PlatformAction.LOOP_START
  else None.

Definition is_opener (action : string) : bool := bool_decide (action ∈ SCOPE_OPENER_ACTIONS).
Definition is_closer (action : string) : bool := bool_decide (action ∈ SCOPE_CLOSER_ACTIONS).

(** ** Dependency strings ([dsl/common.py]) *)

Definition AdjDst : Type := string * EdgeType.

(** [src_ref, *path = dep_ref.split(".", 1)]. *)
Definition edge_components_from_dep (dep_ref : string) : result AdjDst :=
  match split_first "." dep_ref with
  | None => Ok (dep_ref, EdgeSUCCESS)
  | Some (src_ref, path) =>
      if decide (path = edge_type_value EdgeSUCCESS) then Ok (src_ref, EdgeSUCCESS)
      else if decide (path = edge_type_value EdgeERROR) then Ok (src_ref, EdgeERROR)
      else raise ValueError "Invalid edge type"
  end.

Definition dep_from_edge_components (src_ref : string) (edge_type : EdgeType) : string :=
  src_ref +:+ "." +:+ edge_type_value edge_type.

Lemma edge_components_of_dep src t : has_char "." src = false ->
  edge_components_from_dep (dep_from_edge_components src t) = Ok (src, t).
Proof.
  intros H.
  unfold edge_components_from_dep, dep_from_edge_components.
  assert (split_first "." (src +:+ "." +:+ edge_type_value t) = Some (src, edge_type_value t)) as ->.
  { by apply split_first_Some. }
  by destruct t.
Qed.

(** A dependency string built from a reference and an edge type parses back
    to them, for every reference without a dot (action references match
    [^[a-z0-9_]+$]). *)
Theorem dep_roundtrip (src : string) (t : EdgeType) (H : has_char "." src = false) :
  edge_components_from_dep (dep_from_edge_components src t) = Ok (src, t).
Proof. by apply edge_components_of_dep. Qed.

Lemma dep_roundtrip_witness :
  has_char "." "fetch_user" = false /\
  edge_components_from_dep (dep_from_edge_components "fetch_user" EdgeERROR) = Ok ("fetch_user", EdgeERROR).
Proof. split; [reflexivity|]. apply (dep_roundtrip "fetch_user" EdgeERROR). reflexivity. Defined.

(** What a dependency string parses to. *)
Lemma edge_components_src dep src t :
  edge_components_from_dep dep = Ok (src, t) ->
  dep = src /\ t = EdgeSUCCESS /\ has_char "." src = false \/
  dep = dep_from_edge_components src t /\ has_char "." src = false.
Proof.
  unfold edge_components_from_dep. destruct (split_first "." dep) as [[l r]|] eqn:E.
  - apply split_first_Some in E as [-> Hl]. repeat case_decide; subst; unfold raise; intros ?; simplify_eq; right; done.
  - apply split_first_None in E. intros [= <- <-]. left. done.
Qed.

(** ** Stored objects ([storage/object.py]) and Python payloads *)

(** A reference to an object in blob storage; the time is its serialised form. *)
Record ObjectRef := MkObjectRef {
  backend : string;
  bucket : string;
  key : string;
  size_bytes : Z;
  sha256 : string;
  content_type : string;
  encoding : string;
  created_at : string }.

(** Whether the elements of a collection are raw values or stored objects. *)
Inductive ElementKind := EKvalue | EKstored_object.

#[export] Instance ElementKind_eq_dec : EqDecision ElementKind.
Proof. solve_decision. Defined.

(** An inline object holds any Python object; the payloads the engine itself
    builds are JSON values, lists under construction by a gather (whose elements
    may be stored objects or the [GATHER_UNSET] sentinel) and stored objects. *)
Inductive pyobj :=
  | PVal (v : val)
  | PUnset
  | PStored (o : stored)
  | PList (l : list pyobj)
with stored :=
  | InlineObject (typename : option string) (data : pyobj)
  | ExternalObject (typename : option string) (ref : ObjectRef)
  | CollectionObject (typename : option string) (manifest_ref : ObjectRef) (count chunk_size : Z)
      (element_kind : ElementKind) (schema_version : Z) (index : option Z).

(** [type(v).__name__]. *)
Definition val_typename (v : val) : string :=
  match v with
  | VNone => "NoneType" | VBool _ => "bool" | VInt _ => "int" | VFloat _ => "float"
  | VStr _ => "str" | VList _ => "list" | VDict _ => "dict"
  end.

Definition obj_typename (o : pyobj) : string :=
  match o with
  | PVal v => val_typename v
  | PUnset => "Sentinel"
  | PStored (InlineObject _ _) => "InlineObject"
  | PStored (ExternalObject _ _) => "ExternalObject"
  | PStored (CollectionObject _ _ _ _ _ _ _) => "CollectionObject"
  | PList _ => "list"
  end.

Definition typename (o : stored) : option string :=
  match o with
  | InlineObject t _ | ExternalObject t _ | CollectionObject t _ _ _ _ _ _ => t
  end.

(** [InlineObject(data=data)]: the validator backfills the type name. *)
Definition inline (data : pyobj) : stored := InlineObject (Some (obj_typename data)) data.

(** The elements of a Python list. *)
Definition list_elements (o : pyobj) : option (list pyobj) :=
  match o with
  | PVal (VList l) => Some (map PVal l)
  | PList l => Some l
  | _ => None
  end.

(** [l[i]] and [l[i] = x] on a list of length [len]: a negative index counts
    from the end. *)
Definition py_index (len i : Z) : result nat :=
  if (0 <=? i) && (i <? len) then Ok (Z.to_nat i)
  else if (- len <=? i) && (i <? 0) then Ok (Z.to_nat (len + i))
  else raise IndexError "list index out of range".

Definition py_nth (l : list pyobj) (i : Z) : result pyobj :=
  let! n := py_index (Z.of_nat (length l)) i in
  match l !! n with Some x => Ok x | None => raise IndexError "list index out of range" end.

Definition py_set_nth (o : pyobj) (i : Z) (x : pyobj) : result pyobj :=
  match list_elements o with
  | Some l =>
      let! n := py_index (Z.of_nat (length l)) i in
      Ok (PList (<[n := x]> l))
  | None => raise TypeError "object does not support item assignment"
  end.

(** ** Task results ([dsl/schemas.py]) *)

Record TaskResult := MkTaskResult {
  tr_result : stored;
  result_typename : string;
  tr_error : option pyobj;             (** [None] when there is no error *)
  error_typename : option string;
  tr_interaction : val;
  interaction_id : option string;
  interaction_type : option string;
  collection_index : option Z }.

Definition from_result (result : pyobj) : TaskResult :=
  MkTaskResult (inline result) (obj_typename result) None None VNone None None None.

Definition from_collection_item (o : stored) (index : Z) (item_typename : string) : TaskResult :=
  MkTaskResult o item_typename None None VNone None None (Some index).

Definition is_error (tr : TaskResult) : bool :=
  match tr_error tr with Some _ => true | None => false end.

Definition is_externalized (tr : TaskResult) : bool :=
  match tr_result tr with InlineObject _ _ => false | _ => true end.

Definition get_data (tr : TaskResult) : result pyobj :=
  match tr_result tr with
  | InlineObject _ data =>
      match collection_index tr, list_elements data with
      | Some i, Some l => py_nth l i
      | _, _ => Ok data
      end
  | _ => raise ValueError "Cannot get data from ExternalObject"
  end.

(** [model_copy(update={"result": ..., "result_typename": ...})]. *)
Definition set_result (tr : TaskResult) (o : stored) (name : string) : TaskResult :=
  MkTaskResult o name (tr_error tr) (error_typename tr) (tr_interaction tr)
    (interaction_id tr) (interaction_type tr) (collection_index tr).

Definition with_result (tr : TaskResult) (result : pyobj) : TaskResult :=
  set_result tr (inline result) (obj_typename result).

Definition with_error (tr : TaskResult) (error : pyobj) (typename : option string) : TaskResult :=
  let name := match typename with
              | Some n => if decide (n = "") then obj_typename error else n
              | None => obj_typename error
              end in
  MkTaskResult (tr_result tr) (result_typename tr)
    (match error with PVal VNone => None | _ => Some error end) (Some name)
    (tr_interaction tr) (interaction_id tr) (interaction_type tr) (collection_index tr).

(** [_get_collection_size] ([dsl/scheduler.py]). *)
Definition get_collection_size (o : stored) : result Z :=
  match o with
  | CollectionObject _ _ count _ _ _ _ => Ok count
  | InlineObject _ data =>
      match list_elements data with
      | Some l => Ok (Z.of_nat (length l))
      | None => raise TypeError "Expected CollectionObject or InlineObject with list data"
      end
  | ExternalObject _ _ => raise TypeError "Expected CollectionObject or InlineObject with list data"
  end.

(** Items of a scattered collection: within the collection's size, the result
    of item [i] of an inline list is its [i]-th element. *)
Lemma get_data_item t l i name x :
  l !! Z.to_nat i = Some x -> 0 <= i ->
  get_data (from_collection_item (InlineObject t (PVal (VList l))) i name) = Ok (PVal x).
Proof.
  intros Hl Hi. unfold get_data, from_collection_item, py_nth; simpl.
  rewrite length_map. assert (Z.to_nat i < length l)%nat by (by eapply lookup_lt_Some).
  unfold py_index. rewrite (proj2 (Z.leb_le 0 i)), (proj2 (Z.ltb_lt i _)) by lia. simpl.
  change (map PVal l) with (PVal <$> l). rewrite list_lookup_fmap, Hl. done.
Qed.

Lemma py_set_nth_lookup o i x l :
  list_elements o = Some l -> 0 <= i < Z.of_nat (length l) ->
  py_set_nth o i x = Ok (PList (<[Z.to_nat i := x]> l)).
Proof.
  intros Ho Hi. unfold py_set_nth, py_index. rewrite Ho.
  rewrite (proj2 (Z.leb_le 0 i)), (proj2 (Z.ltb_lt i _)) by lia. done.
Qed.

(** ** Statements ([dsl/schemas.py]) *)

Record ActionRetryPolicy := MkRetryPolicy {
  max_attempts : Z;
  timeout : Z;
  retry_until : option string }.

Definition DEFAULT_ACTION_TIMEOUT : Z := 300.
Definition default_retry_policy : ActionRetryPolicy := MkRetryPolicy 1 DEFAULT_ACTION_TIMEOUT None.

(** [for_each] and [interaction] are kept as the data they serialise to. *)
Record ActionStatement := MkAction {
  ref : string;
  description : string;
  action : string;
  args : list (string * val);
  depends_on : list string;
  interaction : val;
  run_if : option string;
  for_each : val;
  retry_policy : ActionRetryPolicy;
  start_delay : spec_float;
  wait_until : option string;
  join_strategy : JoinStrategy;
  environment : option string;
  mask_output : bool }.

Definition vopt (o : option string) : val :=
  match o with Some s => VStr s | None => VNone end.

(** [action.model_dump()]: every field but [id], in the order of the class. *)
Definition model_dump (a : ActionStatement) : list (string * val) :=
  [("ref", VStr (ref a)); ("description", VStr (description a)); ("action", VStr (action a));
   ("args", VDict (args a)); ("depends_on", VList (map VStr (depends_on a)));
   ("interaction", interaction a); ("run_if", vopt (run_if a)); ("for_each", for_each a);
   ("retry_policy", VDict [("max_attempts", VInt (max_attempts (retry_policy a)));
                           ("timeout", VInt (timeout (retry_policy a)));
                           ("retry_until", vopt (retry_until (retry_policy a)))]);
   ("start_delay", VFloat (start_delay a)); ("wait_until", vopt (wait_until a));
   ("join_strategy", VStr match join_strategy a with JoinANY => "any" | JoinALL => "all" end);
   ("environment", vopt (environment a)); ("mask_output", VBool (mask_output a))].

(** The [validate_interaction] model validator. *)
Definition validate_interaction (a : ActionStatement) : result ActionStatement :=
  if truthy (interaction a) && truthy (for_each a)
  then raise TracecatValidationError "Interaction is not allowed when for_each is provided."
  else Ok a.

(** A statement with the class's defaults, for concrete examples. *)
Definition statement (r act : string) (deps : list string) : ActionStatement :=
  MkAction r "" act [] deps VNone None VNone default_retry_policy (S754_zero false) None JoinALL None false.

(** ** Stream identifiers *)

Definition StreamID : Type := string.

(** The index of a stream segment: an integer or the token ["skip"]. *)
Inductive stream_index := Idx (i : Z) | Skip.

#[export] Instance stream_index_eq_dec : EqDecision stream_index.
Proof. solve_decision. Defined.

Module Stream.
Definition index_str (i : stream_index) : string :=
  match i with Idx n => Decimal.py_str_int n | Skip => "skip" end.

Definition new (scope : string) (index : stream_index) (base_stream_id : option StreamID) : StreamID :=
  let new_stream := scope +:+ ":" +:+ index_str index in
  match base_stream_id with
  | None => new_stream
  | Some base => base +:+ "/" +:+ new_stream
  end.

Definition skip (scope : string) (base_stream_id : option StreamID) : StreamID :=
  new scope Skip base_stream_id.

Definition streams (s : StreamID) : list string := split_all "/" s.

Definition leaf (s : StreamID) : result (string * stream_index) :=
  match split_all ":" (List.last (streams s) "") with
  | [scope; index] =>
      if decide (index = "skip") then Ok (scope, Skip)
      else match Decimal.py_int index with
           | Some n => Ok (scope, Idx n)
           | None => raise ValueError "invalid literal for int()"
           end
  | scope :: index :: _ => raise ValueError "Invalid stream ID"
  | _ => raise ValueError "not enough values to unpack"
  end.

Definition ROOT_STREAM : StreamID := new "<root>" (Idx 0) None.

(** [_stream_within] ([dsl/scheduler.py]). *)
Definition within (stream_id base_stream_id : StreamID) : bool :=
  bool_decide (stream_id = base_stream_id) || starts_with (base_stream_id +:+ "/") stream_id.

(** A scope name usable in a stream identifier; action references match
    [^[a-z0-9_]+$], and the root scope is ["<root>"]. *)
Definition clean (scope : string) : bool :=
  negb (has_char "/" scope) && negb (has_char ":" scope).

Lemma clean_spec scope :
  clean scope = true <-> has_char "/" scope = false /\ has_char ":" scope = false.
Proof. unfold clean. rewrite andb_true_iff, !negb_true_iff. done. Qed.

Lemma index_str_clean i c : c = "/"%char \/ c = ":"%char -> has_char c (index_str i) = false.
Proof.
  intros Hc. destruct i as [n|]; simpl.
  - apply Decimal.py_str_int_no_char. naive_solver.
  - destruct Hc as [-> | ->]; reflexivity.
Qed.

Lemma index_str_int n : index_str (Idx n) <> "skip".
Proof.
  intros H. pose proof (Decimal.py_int_str n) as Hn. simpl in H. rewrite H in Hn. discriminate Hn.
Qed.

Definition segment (scope : string) (i : stream_index) : string := scope +:+ ":" +:+ index_str i.

Lemma segment_no_slash scope i : clean scope = true -> has_char "/" (segment scope i) = false.
Proof.
  intros [H _]%clean_spec. unfold segment. rewrite !has_char_app, H, index_str_clean by auto. done.
Qed.

(** Appending a level appends one segment. *)
Lemma streams_new scope i base : clean scope = true ->
  streams (new scope i base) =
    match base with Some b => streams b | None => [] end ++ [segment scope i].
Proof.
  intros Hc. apply segment_no_slash with (i := i) in Hc. unfold streams, new.
  destruct base as [b|]; [by apply split_all_app|by apply split_all_nochar].
Qed.

Lemma split_segment scope i : clean scope = true ->
  split_all ":" (segment scope i) = [scope; index_str i].
Proof.
  intros [_ H]%clean_spec. unfold segment. change (":" +:+ index_str i) with (String ":" (index_str i)).
  rewrite split_all_app by (apply index_str_clean; auto). by rewrite split_all_nochar.
Qed.

Lemma leaf_new_eq scope i base : clean scope = true -> leaf (new scope i base) = Ok (scope, i).
Proof.
  intros Hc. unfold leaf. rewrite streams_new, List.last_last, split_segment by done.
  destruct i as [n|]; [|done]. rewrite decide_False by apply index_str_int.
  simpl. by rewrite Decimal.py_int_str.
Qed.

Lemma streams_inj s1 s2 : streams s1 = streams s2 -> s1 = s2.
Proof.
  assert (forall s, String.concat "/" (streams s) = s) as Hj.
  { induction s as [|a s IH]; [done|]. unfold streams in *. simpl.
    pose proof (split_all_nonnil "/" s) as Hnn.
    destruct (split_all "/" s) as [|x l] eqn:E; [done|]. case_decide as Ha.
    - simpl in *. rewrite IH, Ha. done.
    - simpl in *. destruct l; rewrite <- IH; done. }
  intros H. by rewrite <- (Hj s1), <- (Hj s2), H.
Qed.

(** The leaf of a stream built for an item (or for a skipped scatter) is the
    scatter's reference with that index, at any nesting depth, and the stream
    determines its parent stream: no two items share a stream. *)
Theorem stream_new_leaf (scope scope' : string) (i i' : stream_index) (base base' : StreamID)
    (H : clean scope = true) (H' : clean scope' = true) :
  leaf (new scope i (Some base)) = Ok (scope, i) /\
  (new scope i (Some base) = new scope' i' (Some base') <-> scope = scope' /\ i = i' /\ base = base').
Proof.
  split; [by apply leaf_new_eq|]. split; [|by intros (-> & -> & ->)]. intros He.
  pose proof (f_equal leaf He) as Hl. rewrite !leaf_new_eq in Hl by done. injection Hl as <- <-.
  pose proof (f_equal streams He) as Hs. rewrite !streams_new in Hs by done.
  apply app_inj_tail in Hs as [Hs _]. by apply streams_inj in Hs.
Qed.

Lemma stream_new_leaf_witness :
  clean "scatter_1" = true /\ clean "scatter_2" = true /\
  leaf (new "scatter_2" (Idx 3) (Some ROOT_STREAM)) = Ok ("scatter_2", Idx 3) /\
  (new "scatter_2" (Idx 3) (Some ROOT_STREAM) = new "scatter_1" Skip (Some ROOT_STREAM) <->
   "scatter_2" = "scatter_1" /\ Idx 3 = Skip /\ ROOT_STREAM = ROOT_STREAM).
Proof.
  split; [reflexivity|]. split; [reflexivity|].
  apply (stream_new_leaf "scatter_2" "scatter_1" (Idx 3) Skip ROOT_STREAM ROOT_STREAM); reflexivity.
Defined.

Lemma streams_app s x : streams (s +:+ "/" +:+ x) = streams s ++ streams x.
Proof.
  unfold streams. induction s as [|a s IH]; [done|]. simpl in *. case_decide; [by rewrite IH|].
  rewrite IH. destruct (split_all "/" s) eqn:E; [by apply split_all_nonnil in E|]. done.
Qed.

(** A stream within another extends it by whole segments. *)
Lemma within_segments s base : within s base = true -> exists rest, streams s = streams base ++ rest.
Proof.
  unfold within. rewrite orb_true_iff, bool_decide_eq_true, starts_with_spec.
  intros [->|[r ->]]; [exists []; by rewrite app_nil_r|]. rewrite string_app_assoc, streams_app. eauto.
Qed.

(** Sibling streams are disjoint. *)
Lemma within_sibling s scope i i' base : clean scope = true ->
  within s (new scope i (Some base)) = true -> within s (new scope i' (Some base)) = true -> i = i'.
Proof.
  intros Hc [r1 H1]%within_segments [r2 H2]%within_segments. rewrite !streams_new in * by done.
  rewrite H1, <- !app_assoc in H2. apply app_inv_head in H2. simpl in H2. injection H2 as Hs _.
  pose proof (f_equal (split_all ":") Hs) as Hl. rewrite !split_segment in Hl by done.
  injection Hl as Hi. destruct i as [n|], i' as [n'|]; simpl in Hi.
  - pose proof (Decimal.py_int_str n). pose proof (Decimal.py_int_str n'). congruence.
  - by apply index_str_int in Hi.
  - symmetry in Hi. by apply index_str_int in Hi.
  - done.
Qed.
End Stream.

(** ** Error records ([tracecat/dsl/types.py]) *)

Definition ActionErrorInfo_fields : list string :=
  ["ref"; "message"; "type"; "expr_context"; "attempt"; "stream_id"; "children"].

(** [ActionErrorInfo] is a dataclass without validation: any value in any field. *)
Record ActionErrorInfo := MkErrorInfo {
  ei_ref : val; ei_message : val; ei_type : val; ei_expr_context : val;
  ei_attempt : val; ei_stream_id : val; ei_children : val }.

Definition error_info (r message type : string) (stream_id : StreamID) (children : val) : ActionErrorInfo :=
  MkErrorInfo (VStr r) (VStr message) (VStr type) (VStr "ACTIONS") (VInt 1) (VStr stream_id) children.

(** [ActionErrorInfoAdapter.dump_python]. *)
Definition dump_error_info (i : ActionErrorInfo) : val :=
  VDict [("ref", ei_ref i); ("message", ei_message i); ("type", ei_type i);
         ("expr_context", ei_expr_context i); ("attempt", ei_attempt i);
         ("stream_id", ei_stream_id i); ("children", ei_children i)].

(** [ActionErrorInfo] called with the entries of a dict as keyword arguments:
    a missing or unknown keyword is a [TypeError] ([None]). *)
Definition error_info_of_dict (d : list (string * val)) : option ActionErrorInfo :=
  if forallb (fun kv => bool_decide (kv.1 ∈ ActionErrorInfo_fields)) d then
    match dget d "ref", dget d "message", dget d "type" with
    | Some r, Some m, Some t =>
        Some (MkErrorInfo r m t
          (default (VStr "ACTIONS") (dget d "expr_context"))
          (default (VInt 1) (dget d "attempt"))
          (default (VStr Stream.ROOT_STREAM) (dget d "stream_id"))
          (default VNone (dget d "children")))
    | _, _, _ => None
    end
  else None.
