(* ===== verification/Storage.v ===== *)
(** Externalised objects ([tracecat/storage/object.py], [storage/utils.py],
    [storage/collection.py], [storage/backends/s3.py], [storage/backends/inline.py]):
    the blob store with its download cache, the chunked collections, and the
    storage backends. *)

From S2P Require Import Prelude PyStr Base62 PyVal DslTypes.

(** ** Manifests and chunks, and their serialised form *)

(** [model_dump] of the models stored in blobs. *)
Definition dump_ref (r : ObjectRef) : val :=
  VDict [("backend", VStr (backend r)); ("bucket", VStr (bucket r)); ("key", VStr (key r));
         ("size_bytes", VInt (size_bytes r)); ("sha256", VStr (sha256 r));
         ("content_type", VStr (content_type r)); ("encoding", VStr (encoding r));
         ("created_at", VStr (created_at r))].

Definition dump_kind (k : ElementKind) : val :=
  VStr match k with EKvalue => "value" | EKstored_object => "stored_object" end.

Fixpoint dump_obj (o : pyobj) : val :=
  match o with
  | PVal v => v
  | PUnset => VStr GATHER_UNSET
  | PStored s => dump_stored s
  | PList l => VList (map dump_obj l)
  end
with dump_stored (s : stored) : val :=
  match s with
  | InlineObject t data => VDict [("typename", vopt t); ("type", VStr "inline"); ("data", dump_obj data)]
  | ExternalObject t r => VDict [("typename", vopt t); ("type", VStr "external"); ("ref", dump_ref r)]
  | CollectionObject t r n c k v i =>
      VDict [("typename", vopt t); ("type", VStr "collection"); ("manifest_ref", dump_ref r);
             ("count", VInt n); ("chunk_size", VInt c); ("element_kind", dump_kind k);
             ("schema_version", VInt v); ("index", match i with Some i => VInt i | None => VNone end)]
  end.

Record CollectionManifestV1 := MkManifest {
  m_version : Z; m_count : Z; m_chunk_size : Z; m_element_kind : ElementKind; m_chunks : list ObjectRef }.
Record CollectionChunkV1 := MkChunk { c_version : Z; c_start : Z; c_items : list val }.

Definition dump_manifest (m : CollectionManifestV1) : val :=
  VDict [("kind", VStr "tracecat.collection_manifest"); ("version", VInt (m_version m));
         ("count", VInt (m_count m)); ("chunk_size", VInt (m_chunk_size m));
         ("element_kind", dump_kind (m_element_kind m)); ("chunks", VList (map dump_ref (m_chunks m)))].

Definition dump_chunk (c : CollectionChunkV1) : val :=
  VDict [("kind", VStr "tracecat.collection_chunk"); ("version", VInt (c_version c));
         ("start", VInt (c_start c)); ("items", VList (c_items c))].

(** ** The blob store and the download cache *)

Section Storage.
(** The contents of blobs, and the functions on them that are not part of the
    program: [orjson], [hashlib], [cachetools.TTLCache], the clock. *)
Context {bytes : Type}.

Record StorageLib := MkStorageLib {
  dumps : val -> option bytes;
  loads : bytes -> option val;
  compute_sha256 : bytes -> string;
  blob_size : bytes -> Z;
  (** What is left of the cache when expired entries are dropped. *)
  expire : gmap string bytes -> gmap string bytes;
  (** [cache[key] = value], with the evictions it causes. *)
  cache_put : string -> bytes -> gmap string bytes -> gmap string bytes;
  (** Pydantic's validation of the three models read back. *)
  validate_stored_object : val -> option stored;
  validate_manifest : val -> option CollectionManifestV1;
  validate_chunk : val -> option CollectionChunkV1;
  now : string }.

Record World := MkWorld {
  blobs : gmap (string * string) bytes;     (** by bucket and key *)
  blob_cache : gmap string bytes }.         (** by hash *)

(** An operation may raise; the changes it made before stay. *)
Definition M (A : Type) : Type := World -> result A * World.

Definition mret {A} (a : A) : M A := fun w => (Ok a, w).
Definition merr {A} (e : exn) : M A := fun w => (Err e, w).
Definition mbind {A B} (m : M A) (f : A -> M B) : M B := fun w =>
  match m w with
  | (Ok a, w') => f a w'
  | (Err e, w') => (Err e, w')
  end.
Definition mlift {A} (r : result A) : M A := fun w => (r, w).

Fixpoint mmap {A B} (f : A -> M B) (l : list A) : M (list B) :=
  match l with
  | [] => mret []
  | x :: l' => mbind (f x) (fun y => mbind (mmap f l') (fun ys => mret (y :: ys)))
  end.

Notation "'let>' x ':=' m 'in' k" := (mbind m (fun x => k))
  (at level 10, x pattern, m at level 100, k at level 200).

Variable lib : StorageLib.

Definition MAX_CACHEABLE_BLOB_SIZE : Z := 50 * 1024 * 1024.
Definition BLOB_CACHE_MAX_BYTES : Z := 500 * 1024 * 1024.

(** [SizedMemoryCache.get] and [SizedMemoryCache.set]. *)
Definition cache_get (h : string) : M (option bytes) := fun w =>
  let c := expire lib (blob_cache w) in (Ok (c !! h), MkWorld (blobs w) c).

Definition cache_set (h : string) (content : bytes) : M unit := fun w =>
  let c := expire lib (blob_cache w) in
  if BLOB_CACHE_MAX_BYTES <? blob_size lib content then (Ok tt, MkWorld (blobs w) c)
  else (Ok tt, MkWorld (blobs w) (cache_put lib h content c)).

(** [blob.download_file] and [blob.upload_file]. *)
Definition download_file (k b : string) : M bytes := fun w =>
  match blobs w !! (b, k) with
  | Some c => (Ok c, w)
  | None => (Err (Exn FileNotFoundError ""), w)
  end.

Definition upload_file (content : bytes) (k b : string) : M unit := fun w =>
  (Ok tt, MkWorld (<[(b, k) := content]> (blobs w)) (blob_cache w)).

Definition serialize_object (v : val) : M bytes :=
  match dumps lib v with
  | Some c => mret c
  | None => merr (Exn TypeError "not serializable")
  end.

Definition deserialize_object (c : bytes) : M val :=
  match loads lib c with
  | Some v => mret v
  | None => merr (Exn ValueError "invalid JSON")
  end.

(** [cached_blob_download]: what is downloaded is cached under the expected
    hash. *)
Definition cached_blob_download (h b k : string) : M bytes :=
  let> cached := cache_get h in
  match cached with
  | Some c => mret c
  | None =>
      let> content := download_file k b in
      let> _ := (if blob_size lib content <=? MAX_CACHEABLE_BLOB_SIZE then cache_set h content else mret tt) in
      mret content
  end.

(** A download whose hash is verified. *)
Definition verified_download (msg : string) (r : ObjectRef) : M bytes :=
  let> content := cached_blob_download (sha256 r) (bucket r) (key r) in
  if decide (compute_sha256 lib content = sha256 r) then mret content
  else merr (Exn ValueError msg).

(** The reference of an uploaded blob. *)
Definition s3_ref (b k : string) (content : bytes) : ObjectRef :=
  MkObjectRef "s3" b k (blob_size lib content) (compute_sha256 lib content) "application/json" "json" (now lib).

Definition validated {A} (o : option A) : M A :=
  match o with Some a => mret a | None => merr (Exn ValidationError "") end.

(** ** Collections *)

(** [tracecat/config.py]. *)
Record StorageConfig := MkStorageConfig {
  COLLECTION_CHUNK_SIZE : Z;
  BLOB_STORAGE_BUCKET_WORKFLOW : string;
  RESULT_EXTERNALIZATION_ENABLED : bool;
  RESULT_EXTERNALIZATION_THRESHOLD_BYTES : Z }.

Variable cfg : StorageConfig.

(** A Python slice [l[i:j]]. *)
Definition slice_bound (len i : Z) : Z := if i <? 0 then Z.max 0 (len + i) else Z.min len i.
Definition py_slice {A} (l : list A) (i j : Z) : list A :=
  let len := Z.of_nat (length l) in
  let i := slice_bound len i in
  take (Z.to_nat (slice_bound len j - i)) (drop (Z.to_nat i) l).

Definition chunk_key (prefix : string) (i : Z) : string :=
  prefix +:+ "/chunks/" +:+ Decimal.py_str_int i +:+ ".json".
Definition manifest_key (prefix : string) : string := prefix +:+ "/manifest.json".

Definition or_default {A} (falsy : A -> bool) (o : option A) (dflt : A) : A :=
  match o with Some a => if falsy a then dflt else a | None => dflt end.

(** Upload one chunk and return its reference. *)
Definition store_chunk (prefix b : string) (items : list val) (chunk_size i : Z) : M ObjectRef :=
  let start := i * chunk_size in
  let end_ := Z.min (start + chunk_size) (Z.of_nat (length items)) in
  let> chunk_bytes := serialize_object (dump_chunk (MkChunk 1 start (py_slice items start end_))) in
  let> _ := upload_file chunk_bytes (chunk_key prefix i) b in
  mret (s3_ref b (chunk_key prefix i) chunk_bytes).

Definition store_collection (prefix : string) (items : list val) (kind : ElementKind)
    (chunk_size : option Z) (b : option string) : M stored :=
  let chunk_size := or_default (Z.eqb 0) chunk_size (COLLECTION_CHUNK_SIZE cfg) in
  let b := or_default (String.eqb "") b (BLOB_STORAGE_BUCKET_WORKFLOW cfg) in
  let count := Z.of_nat (length items) in
  if (0 <? count) && (chunk_size =? 0) then merr (Exn ZeroDivisionError "division by zero")
  else
    let num_chunks := if 0 <? count then - ((- count) / chunk_size) else 1 in
    let> refs := mmap (store_chunk prefix b items chunk_size) (seqZ 0 num_chunks) in
    let> manifest_bytes := serialize_object (dump_manifest (MkManifest 1 count chunk_size kind refs)) in
    let> _ := upload_file manifest_bytes (manifest_key prefix) b in
    mret (CollectionObject (Some "list") (s3_ref b (manifest_key prefix) manifest_bytes) count chunk_size kind 1 None).

Definition _fetch_manifest (manifest_ref : ObjectRef) : M CollectionManifestV1 :=
  let> content := verified_download "Manifest integrity check failed" manifest_ref in
  let> data := deserialize_object content in
  validated (validate_manifest lib data).

Definition _fetch_chunk (r : ObjectRef) : M CollectionChunkV1 :=
  let> content := verified_download "Chunk integrity check failed" r in
  let> data := deserialize_object content in
  validated (validate_chunk lib data).

Definition _fetch_chunk_item (r : ObjectRef) (local_index : Z) : M val :=
  let> chunk := _fetch_chunk r in
  if (local_index <? 0) || (Z.of_nat (length (c_items chunk)) <=? local_index)
  then merr (Exn IndexError "Chunk index out of range")
  else match c_items chunk !! Z.to_nat local_index with
       | Some x => mret x
       | None => merr (Exn IndexError "list index out of range")
       end.

(** [manifest.chunks[i]]. *)
Definition chunk_at (m : CollectionManifestV1) (i : Z) : M ObjectRef :=
  mlift (let! n := py_index (Z.of_nat (length (m_chunks m))) i in
         match m_chunks m !! n with Some r => Ok r | None => raise IndexError "list index out of range" end).

(** The items of one chunk within the page [[offset, end_)]. *)
Definition page_of_chunk (m : CollectionManifestV1) (chunk_size offset end_ chunk_idx : Z) : M (list val) :=
  let> r := chunk_at m chunk_idx in
  let> chunk := _fetch_chunk r in
  let chunk_start := chunk_idx * chunk_size in
  let local_start := Z.max 0 (offset - chunk_start) in
  let local_end := Z.min (Z.of_nat (length (c_items chunk))) (end_ - chunk_start) in
  mret (py_slice (c_items chunk) local_start local_end).

(** The pages take the fields of the [CollectionObject] they read. *)
Definition get_collection_page (manifest_ref : ObjectRef) (count chunk_size offset : Z) (limit : option Z) : M (list val) :=
  if offset <? 0 then merr (Exn ValueError "offset must be >= 0")
  else if count <=? offset then mret []
  else if decide (limit = Some 0) then mret []
  else
    let limit := default (count - offset) limit in
    let end_ := Z.min (offset + limit) count in
    let> m := _fetch_manifest manifest_ref in
    if chunk_size =? 0 then merr (Exn ZeroDivisionError "integer division or modulo by zero")
    else
      let start_chunk := offset / chunk_size in
      let end_chunk := (end_ - 1) / chunk_size in
      let> pages := mmap (page_of_chunk m chunk_size offset end_) (seqZ start_chunk (end_chunk + 1 - start_chunk)) in
      mret (concat pages).

(** Reading handles found in blobs is recursive: [retrieve] reads one. *)
Section Read.
Variable retrieve : stored -> M pyobj.

Definition element (kind : ElementKind) (item : val) : M pyobj :=
  match kind with
  | EKvalue => mret (PVal item)
  | EKstored_object => let> s := validated (validate_stored_object lib item) in retrieve s
  end.

Definition get_collection_item (manifest_ref : ObjectRef) (count chunk_size : Z) (kind : ElementKind) (index : Z) : M pyobj :=
  let index := if index <? 0 then count + index else index in
  if (index <? 0) || (count <=? index) then merr (Exn IndexError "Collection index out of range")
  else
    let> m := _fetch_manifest manifest_ref in
    if chunk_size =? 0 then merr (Exn ZeroDivisionError "integer division or modulo by zero")
    else
      let> r := chunk_at m (index / chunk_size) in
      let> item := _fetch_chunk_item r (index mod chunk_size) in
      element kind item.

Definition materialize_collection_values (manifest_ref : ObjectRef) (count chunk_size : Z) (kind : ElementKind)
    (offset : Z) (limit : option Z) : M (list pyobj) :=
  let> items := get_collection_page manifest_ref count chunk_size offset limit in
  mmap (element kind) items.
End Read.

(** ** Backends *)

Definition retrieve_external (r : ObjectRef) : M pyobj :=
  let> content := verified_download "Integrity check failed" r in
  let> data := deserialize_object content in
  mret (PVal data).

(** [S3ObjectStorage.retrieve]; [retrieve] reads the handles in a collection. *)
Definition s3_retrieve (retrieve : stored -> M pyobj) (s : stored) : M pyobj :=
  match s with
  | InlineObject _ data => mret data
  | ExternalObject _ r =>
      if decide (backend r = "s3") then retrieve_external r
      else merr (Exn ValueError "S3ObjectStorage cannot retrieve from backend")
  | CollectionObject _ r count chunk_size kind _ index =>
      match index with
      | Some i => get_collection_item retrieve r count chunk_size kind i
      | None => let> l := materialize_collection_values retrieve r count chunk_size kind 0 None in mret (PList l)
      end
  end.

(** [retrieve_stored_object], with the backend of the reference
    ([get_object_storage_for]).  The fuel bounds the nesting of collections. *)
Fixpoint retrieve_stored_object (fuel : nat) (s : stored) : M pyobj :=
  let deeper s :=
    match fuel with
    | O => merr (Exn RuntimeError "maximum recursion depth exceeded")
    | S fuel' => retrieve_stored_object fuel' s
    end in
  match s with
  | InlineObject _ data => mret data
  | ExternalObject _ r | CollectionObject _ r _ _ _ _ _ =>
      if decide (backend r = "s3") then s3_retrieve deeper s
      else merr (Exn ValueError "Unsupported object storage backend")
  end.

(** [get_object_storage().retrieve]: without externalisation only inline objects
    can be read. *)
Definition object_storage_retrieve (fuel : nat) (s : stored) : M pyobj :=
  if RESULT_EXTERNALIZATION_ENABLED cfg then s3_retrieve (retrieve_stored_object fuel) s
  else match s with
       | InlineObject _ data => mret data
       | _ => merr (Exn NotImplementedError "InlineObjectStorage does not support references")
       end.

(** [CollectionObject.at]. *)
Definition collection_at (s : stored) (index : Z) : stored :=
  match s with
  | CollectionObject t r n c k v _ => CollectionObject t r n c k v (Some index)
  | _ => s
  end.

(** [S3ObjectStorage.store]. *)
Definition s3_store (k : string) (data : val) : M stored :=
  let> serialized := serialize_object data in
  if blob_size lib serialized <=? RESULT_EXTERNALIZATION_THRESHOLD_BYTES cfg then mret (inline (PVal data))
  else
    let b := BLOB_STORAGE_BUCKET_WORKFLOW cfg in
    let> _ := upload_file serialized k b in
    mret (ExternalObject (Some (val_typename data)) (s3_ref b k serialized)).

(** [get_object_storage().store]. *)
Definition store (k : string) (data : val) : M stored :=
  if RESULT_EXTERNALIZATION_ENABLED cfg then s3_store k data else mret (inline (PVal data)).

Definition collection_item_key (prefix : string) (index : Z) : string :=
  prefix +:+ "/items/" +:+ Decimal.py_str_int index +:+ ".json".

(** [_store_collection_as_refs] ([dsl/action.py]). *)
Definition store_as_ref (prefix : string) (ix : Z * val) : M val :=
  let> s := store (collection_item_key prefix ix.1) ix.2 in mret (dump_stored s).

Definition _store_collection_as_refs (prefix : string) (items : list val) : M stored :=
  let> refs := mmap (store_as_ref prefix) (zip (seqZ 0 (Z.of_nat (length items))) items) in
  store_collection prefix refs EKstored_object None None.
End Storage.
