(* ===== verification/StorageFacts.v ===== *)
(** What the object storage guarantees: a collection that was stored reads back
    page by page and item by item; and no read ever returns anything but what was
    stored, whatever happened to the blobs and the cache. *)

From S2P Require Import Prelude PyStr Base62 PyVal DslTypes Storage.

(** ** Storage keys are distinct *)

Lemma app_inj_l (s t u : string) : s +:+ t = s +:+ u -> t = u.
Proof. induction s as [|c s IH]; simpl; [done|]. intros [= H]. auto. Qed.

Lemma app_inj_r (s t u : string) : t +:+ s = u +:+ s -> t = u.
Proof.
  intros H%(f_equal String.list_ascii_of_string). rewrite !list_ascii_app in H.
  by apply app_inv_tail, list_ascii_inj in H.
Qed.

Lemma py_str_int_inj i j : Decimal.py_str_int i = Decimal.py_str_int j -> i = j.
Proof. intros H. apply (f_equal Decimal.py_int) in H. rewrite !Decimal.py_int_str in H. by injection H. Qed.

#[export] Instance chunk_key_inj prefix : Inj (=) (=) (chunk_key prefix).
Proof. unfold chunk_key. intros i j H%app_inj_l%app_inj_l%app_inj_r. by apply py_str_int_inj. Qed.

#[export] Instance item_key_inj prefix : Inj (=) (=) (collection_item_key prefix).
Proof. unfold collection_item_key. intros i j H%app_inj_l%app_inj_l%app_inj_r. by apply py_str_int_inj. Qed.

Lemma manifest_chunk_key prefix i : manifest_key prefix <> chunk_key prefix i.
Proof. unfold manifest_key, chunk_key. intros H%app_inj_l. done. Qed.

Lemma item_chunk_key prefix i j : collection_item_key prefix i <> chunk_key prefix j.
Proof. unfold collection_item_key, chunk_key. intros H%app_inj_l. done. Qed.

Lemma item_manifest_key prefix i : collection_item_key prefix i <> manifest_key prefix.
Proof. unfold collection_item_key, manifest_key. intros H%app_inj_l. done. Qed.

(** ** Values that survive a JSON round trip *)

Definition finite_float (f : spec_float) : bool :=
  match f with S754_nan | S754_infinity _ => false | _ => true end.

(** Finite floats, dicts without repeated keys. *)
Fixpoint json_val (v : val) : bool :=
  match v with
  | VFloat f => finite_float f
  | VList l => forallb json_val l
  | VDict d => bool_decide (NoDup (map fst d)) && forallb (fun kv => json_val kv.2) d
  | _ => true
  end.

(** ** Sublists *)

(** The elements from index [a] to [b]. *)
Definition sub {A} (l : list A) (a b : Z) : list A := take (Z.to_nat b - Z.to_nat a) (drop (Z.to_nat a) l).

Lemma sub_app {A} (l : list A) a b c : 0 <= a <= b -> b <= c -> sub l a b ++ sub l b c = sub l a c.
Proof.
  intros Hab Hbc. unfold sub.
  replace (Z.to_nat c - Z.to_nat a)%nat with ((Z.to_nat b - Z.to_nat a) + (Z.to_nat c - Z.to_nat b))%nat by lia.
  rewrite <- take_take_drop, drop_drop. do 3 f_equal. lia.
Qed.

Lemma sub_nil {A} (l : list A) a b : b <= a -> sub l a b = [].
Proof. intros H. unfold sub. by replace (Z.to_nat b - Z.to_nat a)%nat with 0%nat by lia. Qed.

Lemma sub_length {A} (l : list A) a b : 0 <= a <= b -> b <= Z.of_nat (length l) ->
  Z.of_nat (length (sub l a b)) = b - a.
Proof. intros Hab Hb. unfold sub. rewrite length_take, length_drop. lia. Qed.

Lemma sub_sub {A} (l : list A) a b i j : 0 <= a -> 0 <= i <= j -> j <= b - a ->
  sub (sub l a b) i j = sub l (a + i) (a + j).
Proof.
  intros Ha Hi Hj. unfold sub. rewrite skipn_firstn_comm, take_take, drop_drop. f_equal; [lia|f_equal; lia].
Qed.

Lemma sub_lookup {A} (l : list A) a b i : 0 <= a -> 0 <= i < b - a -> sub l a b !! Z.to_nat i = l !! Z.to_nat (a + i).
Proof.
  intros Ha Hi. unfold sub. rewrite lookup_take_lt by lia. rewrite lookup_drop. f_equal. lia.
Qed.

Lemma py_slice_sub {A} (l : list A) i j : 0 <= i -> 0 <= j ->
  py_slice l i j = sub l (Z.min (Z.of_nat (length l)) i) (Z.min (Z.of_nat (length l)) j).
Proof.
  intros Hi Hj. unfold py_slice, sub, slice_bound.
  rewrite !(proj2 (Z.ltb_ge _ 0)) by lia. f_equal. lia.
Qed.

(** A Python index in range, counted from the end when negative. *)
Lemma wrap_index n i : - n <= i < n -> i mod n = (if i <? 0 then n + i else i) /\ 0 <= i mod n < n.
Proof.
  intros Hi. assert (0 <= i mod n < n) as Hb by (apply Z.mod_pos_bound; lia). split; [|done].
  destruct (Z.ltb_spec i 0); [symmetry; apply (Z.mod_unique_pos _ _ (-1)); lia|by rewrite Z.mod_small by lia].
Qed.

Lemma sub_full {A} (l : list A) : sub l 0 (Z.of_nat (length l)) = l.
Proof. unfold sub. simpl. rewrite Nat.sub_0_r, Nat2Z.id. by rewrite drop_0, take_ge. Qed.

(** ** Exact reads *)

Section Facts.
Context {bytes : Type}.
Variable lib : @StorageLib bytes.

(** References the program creates. *)
Definition valid_ref (r : ObjectRef) : Prop := backend r = "s3" /\ encoding r = "json".

(** Stored objects as [store] returns them. *)
Definition plain_stored (s : stored) : Prop :=
  match s with
  | InlineObject (Some _) (PVal _) => True
  | ExternalObject (Some _) r => valid_ref r
  | _ => False
  end.

(** Documented behaviour of the libraries: dropping expired entries and evicting
    only remove cache entries, JSON round trips, and pydantic validates the dump
    of a model back to the model. *)
Record lib_ok : Prop := {
  lo_expire : forall m, expire lib m ⊆ m;
  lo_put : forall h c m, cache_put lib h c m ⊆ <[h := c]> m;
  lo_json : forall v c, json_val v = true -> dumps lib v = Some c -> loads lib c = Some v;
  lo_manifest : forall m, Forall valid_ref (m_chunks m) -> validate_manifest lib (dump_manifest m) = Some m;
  lo_chunk : forall c, validate_chunk lib (dump_chunk c) = Some c;
  lo_stored : forall s, plain_stored s -> validate_stored_object lib (dump_stored s) = Some s }.
Hypothesis Hlib : lib_ok.

(** No other content has the hash of [c]. *)
Definition collision_free (c : bytes) : Prop :=
  forall c', compute_sha256 lib c' = compute_sha256 lib c -> c' = c.

(** Every cached content has the hash it is cached under. *)
Definition intact (w : @World bytes) : Prop :=
  forall h c, blob_cache w !! h = Some c -> compute_sha256 lib c = h.

Variable B : gmap (string * string) bytes.

(** [m] never returns anything but [a], in any world; and it returns [a] in the
    worlds whose blobs are [B] and whose cache is intact, if [B] has what is
    needed. *)
Definition exact {A} (present : Prop) (m : M A) (a : A) : Prop :=
  (forall w x w', m w = (Ok x, w') -> x = a) /\
  (present -> forall w, blobs w = B -> intact w -> exists w', m w = (Ok a, w') /\ blobs w' = B /\ intact w').

Lemma exact_ret {A} P (a : A) : exact P (mret a) a.
Proof. split; [by intros w x w' [= -> _]|]. intros _ w Hw Hi. by exists w. Qed.

Lemma exact_bind {A C} P (m : M A) (f : A -> M C) a c :
  exact P m a -> exact P (f a) c -> exact P (mbind m f) c.
Proof.
  intros [H1 H2] [H3 H4]. unfold mbind. split.
  - intros w x w'. destruct (m w) as [[y|e] w1] eqn:E; [|done]. apply H1 in E as ->. apply H3.
  - intros Hp w Hw Hi. destruct (H2 Hp w Hw Hi) as (w1 & -> & Hw1 & Hi1). by apply H4.
Qed.

Lemma exact_map2 {A C} P (f : A -> M C) l ys :
  Forall2 (fun x y => exact P (f x) y) l ys -> exact P (mmap f l) ys.
Proof.
  induction 1 as [|x y l ys Hx _ IH]; simpl; [apply exact_ret|].
  eapply exact_bind; [done|]. eapply exact_bind; [done|]. apply exact_ret.
Qed.

Lemma exact_map {A C} P (f : A -> M C) (g : A -> C) l :
  (forall x, x ∈ l -> exact P (f x) (g x)) -> exact P (mmap f l) (map g l).
Proof.
  intros H. apply exact_map2. apply Forall2_fmap_r, Forall_Forall2_diag, Forall_forall. exact H.
Qed.

Lemma exact_validated {A} P (o : option A) a : o = Some a -> exact P (validated o) a.
Proof. intros ->. apply exact_ret. Qed.

Lemma exact_weaken {A} (P Q : Prop) (m : M A) a : (Q -> P) -> exact P m a -> exact Q m a.
Proof. intros HPQ [H1 H2]. split; [done|]. intros Hq. by apply H2, HPQ. Qed.

(** ** Downloads *)

(** The blob a reference points to holds the serialised [v]. *)
Record refers (r : ObjectRef) (v : val) (c : bytes) : Prop := {
  rf_dumps : dumps lib v = Some c;
  rf_json : json_val v = true;
  rf_hash : sha256 r = compute_sha256 lib c;
  rf_free : collision_free c }.

Definition stored_at (r : ObjectRef) (c : bytes) : Prop := B !! (bucket r, key r) = Some c.

Lemma cached_download_ok r c w :
  sha256 r = compute_sha256 lib c -> collision_free c -> stored_at r c ->
  blobs w = B -> intact w ->
  exists w', cached_blob_download lib (sha256 r) (bucket r) (key r) w = (Ok c, w') /\ blobs w' = B /\ intact w'.
Proof.
  intros Hsha Hf Hst Hw Hi.
  unfold cached_blob_download, cache_get, mbind. simpl.
  assert (forall m, (forall h c', m !! h = Some c' -> compute_sha256 lib c' = h) ->
    forall h c', expire lib m !! h = Some c' -> compute_sha256 lib c' = h) as Hexp.
  { intros m Hm h c' Hl. apply Hm. eapply lookup_weaken; [exact Hl|apply lo_expire, Hlib]. }
  destruct (expire lib (blob_cache w) !! sha256 r) as [c'|] eqn:E.
  - assert (c' = c) as -> by (apply Hf; rewrite <- Hsha; by eapply Hexp).
    eexists. split; [done|]. split; [done|]. intros h c' Hl. by eapply Hexp.
  - unfold download_file. simpl. rewrite Hw. unfold stored_at in Hst. rewrite Hst.
    destruct (blob_size lib c <=? MAX_CACHEABLE_BLOB_SIZE); simpl;
      [|eexists; split; [done|]; split; [done|]; intros h c' Hl; by eapply Hexp].
    unfold cache_set. simpl. destruct (BLOB_CACHE_MAX_BYTES <? _); simpl;
      (eexists; split; [done|]; split; [done|]); intros h c' Hl; simpl in Hl.
    + eapply Hexp; [|exact Hl]. by apply Hexp.
    + eapply lookup_weaken in Hl; [|apply lo_put, Hlib].
      apply lookup_insert_Some in Hl as [[<- <-]|[_ Hl]]; [done|].
      eapply Hexp; [|exact Hl]. by apply Hexp.
Qed.

Lemma exact_download msg r v c : refers r v c -> exact (stored_at r c) (verified_download lib msg r) c.
Proof.
  intros [Hd Hj Hh Hf]. split.
  - intros w x w'. unfold verified_download, mbind.
    destruct (cached_blob_download _ _ _ _ w) as [[y|e] w1]; [|done]. case_decide as Hc; [|done].
    intros [= -> ->]. apply Hf. congruence.
  - intros Hst w Hw Hi. destruct (cached_download_ok r c w) as (w' & E & Hw' & Hi'); [done..|].
    exists w'. unfold verified_download, mbind. rewrite E, decide_True by done. done.
Qed.

(** Download, deserialise, validate. *)
Lemma exact_fetch {A} msg r v c (validate : val -> option A) a :
  refers r v c -> validate v = Some a ->
  exact (stored_at r c)
    (mbind (verified_download lib msg r) (fun content =>
     mbind (deserialize_object lib content) (fun data => validated (validate data)))) a.
Proof.
  intros Hr Hv. eapply exact_bind; [by eapply exact_download|].
  unfold deserialize_object. rewrite (lo_json Hlib v c) by apply Hr.
  eapply exact_bind; [apply exact_ret|]. by apply exact_validated.
Qed.

(** ** Pages of a collection *)

Section Collection.
Variables (mref : ObjectRef) (items : list val) (chunk_size : Z) (kind : ElementKind) (b prefix : string).
Variables (refs : list ObjectRef) (mc : bytes) (contents : list bytes).

Definition total : Z := Z.of_nat (length items).
Definition chunk_of (i : Z) : CollectionChunkV1 :=
  MkChunk 1 (i * chunk_size) (sub items (i * chunk_size) (Z.min (i * chunk_size + chunk_size) total)).
Definition the_manifest : CollectionManifestV1 := MkManifest 1 total chunk_size kind refs.

(** What [store_collection] leaves behind. *)
Record described : Prop := {
  ds_size : 0 < chunk_size;
  ds_manifest : refers mref (dump_manifest the_manifest) mc;
  ds_valid : Forall valid_ref refs;
  ds_length : length refs = length contents;
  ds_chunks : forall i, 0 <= i -> i * chunk_size < total \/ i = 0 ->
    exists r c, refs !! Z.to_nat i = Some r /\ contents !! Z.to_nat i = Some c /\ refers r (dump_chunk (chunk_of i)) c }.

Definition all_present : Prop :=
  stored_at mref mc /\ forall i r c, refs !! i = Some r -> contents !! i = Some c -> stored_at r c.

Hypothesis Hd : described.
Variable P : Prop.
Hypothesis HP : P -> all_present.

Lemma exact_manifest : exact P (_fetch_manifest lib mref) the_manifest.
Proof.
  eapply exact_weaken; [|eapply exact_fetch; [apply Hd|]].
  - by intros [H _]%HP.
  - apply lo_manifest; [done|]. apply Hd.
Qed.

Lemma exact_chunk_at i r : 0 <= i -> refs !! Z.to_nat i = Some r -> exact P (chunk_at the_manifest i) r.
Proof.
  intros Hi Hr. unfold chunk_at, mlift, py_index. simpl.
  assert (Z.to_nat i < length refs)%nat by (by eapply lookup_lt_Some).
  rewrite (proj2 (Z.leb_le 0 i)), (proj2 (Z.ltb_lt i _)) by lia. simpl. rewrite Hr. apply exact_ret.
Qed.

Lemma exact_chunk i : 0 <= i -> i * chunk_size < total \/ i = 0 ->
  exists r, exact P (chunk_at the_manifest i) r /\ exact P (_fetch_chunk lib r) (chunk_of i).
Proof.
  intros Hi Hlt. destruct (ds_chunks Hd i Hi Hlt) as (r & c & Hr & Hc & Href). exists r.
  split; [by apply exact_chunk_at|].
  eapply exact_weaken; [|eapply exact_fetch; [exact Href|]].
  - intros [_ H]%HP. by eapply H.
  - apply lo_chunk, Hlib.
Qed.

(** The part of chunk [i] in the page [[o, e)]. *)
Definition part (o e i : Z) : list val :=
  let start := i * chunk_size in
  py_slice (c_items (chunk_of i)) (Z.max 0 (o - start)) (Z.min (Z.of_nat (length (c_items (chunk_of i)))) (e - start)).

Lemma part_sub o e i : 0 <= i -> 0 <= o < e -> i * chunk_size < e -> e <= total ->
  part o e i = sub items (Z.min (Z.max o (i * chunk_size)) (Z.min e ((i + 1) * chunk_size))) (Z.min e ((i + 1) * chunk_size)).
Proof.
  intros Hi Ho He Ht. pose proof (ds_size Hd) as Hs. unfold part. simpl.
  set (a := i * chunk_size). assert (0 <= a) by (unfold a; nia).
  assert ((i + 1) * chunk_size = a + chunk_size) as -> by (unfold a; lia).
  assert (a < e) by done.
  assert (Z.of_nat (length (sub items a (Z.min (a + chunk_size) total))) = Z.min (a + chunk_size) total - a) as Hlen.
  { apply sub_length; unfold total in *; lia. }
  rewrite Hlen, py_slice_sub by lia. rewrite Hlen.
  rewrite sub_sub by lia.
  destruct (decide (o < Z.min e (a + chunk_size))) as [Hlt|Hge].
  - f_equal; lia.
  - rewrite !sub_nil by lia. done.
Qed.

Lemma parts_concat o e n : 0 <= o < e -> e <= total ->
  let sc := o / chunk_size in
  (forall i, sc <= i < sc + Z.of_nat n -> i * chunk_size < e) ->
  concat (map (part o e) (seqZ sc (Z.of_nat n))) = sub items o (Z.max o (Z.min e ((sc + Z.of_nat n) * chunk_size))).
Proof.
  intros Ho He sc Hlt. pose proof (ds_size Hd) as Hs.
  assert (0 <= sc) by (apply Z.div_pos; lia).
  assert (sc * chunk_size <= o < (sc + 1) * chunk_size) as Hsc.
  { pose proof (Z.div_mod o chunk_size) as Hdm. pose proof (Z.mod_pos_bound o chunk_size) as Hmb.
    unfold sc. nia. }
  induction n as [|n IH].
  - simpl. rewrite sub_nil; [done|]. lia.
  - rewrite Nat2Z.inj_succ, <- Z.add_1_r, seqZ_app by lia.
    rewrite map_app, concat_app, IH by (intros i Hi; apply Hlt; lia).
    change (seqZ (sc + Z.of_nat n) 1) with [0 + (sc + Z.of_nat n)]. cbn [map concat]. rewrite Z.add_0_l, app_nil_r.
    assert ((sc + Z.of_nat n) * chunk_size < e) as Hn by (apply Hlt; lia).
    rewrite part_sub by lia.
    replace ((sc + (Z.of_nat n + 1)) * chunk_size) with ((sc + Z.of_nat n + 1) * chunk_size) by lia.
    set (m := sc + Z.of_nat n) in *.
    assert (o < (m + 1) * chunk_size) by (unfold m; nia).
    replace (Z.min (Z.max o (m * chunk_size)) (Z.min e ((m + 1) * chunk_size)))
      with (Z.max o (Z.min e (m * chunk_size))) by nia.
    rewrite sub_app by nia. f_equal. nia.
Qed.

(** The page of a collection. *)
Definition page (offset : Z) (limit : option Z) : list val :=
  match limit with
  | Some n => take (Z.to_nat n) (drop (Z.to_nat offset) items)
  | None => drop (Z.to_nat offset) items
  end.

Lemma exact_page_of_chunk o e i : 0 <= i -> i * chunk_size < total \/ i = 0 ->
  exact P (page_of_chunk lib the_manifest chunk_size o e i) (part o e i).
Proof.
  intros Hi Hlt. destruct (exact_chunk i Hi Hlt) as (r & Hr & Hc). unfold page_of_chunk.
  eapply exact_bind; [exact Hr|]. eapply exact_bind; [exact Hc|]. apply exact_ret.
Qed.

Lemma page_sub o limit : 0 <= o < total -> (forall n, limit = Some n -> 0 < n) ->
  page o limit = sub items o (Z.min (o + default (total - o) limit) total).
Proof.
  intros Ho Hl. unfold page, sub, total in *. destruct limit as [n|]; simpl.
  - specialize (Hl n eq_refl). destruct (decide (o + n <= Z.of_nat (length items))).
    + f_equal. lia.
    + rewrite !take_ge; [done|rewrite length_drop; lia..].
  - rewrite take_ge; [done|]. rewrite length_drop. lia.
Qed.

Lemma exact_page offset limit : 0 <= offset -> (forall n, limit = Some n -> 0 <= n) ->
  exact P (get_collection_page lib mref total chunk_size offset limit) (page offset limit).
Proof.
  intros Ho Hl. pose proof (ds_size Hd) as Hs. unfold get_collection_page.
  rewrite (proj2 (Z.ltb_ge offset 0)) by lia.
  destruct (Z.leb_spec total offset) as [Hge|Hlt].
  { assert (drop (Z.to_nat offset) items = []) as Hnil by (apply drop_ge; unfold total in *; lia).
    unfold page. rewrite Hnil. destruct limit; rewrite ?take_nil; apply exact_ret. }
  case_decide as H0; [subst; apply exact_ret|].
  assert (forall n, limit = Some n -> 0 < n) as Hl'.
  { intros n Hn. specialize (Hl n Hn). assert (n <> 0) by (intros ->; done). lia. }
  set (e := Z.min (offset + default (total - offset) limit) total).
  assert (offset < e <= total) as He.
  { unfold e. destruct limit as [n|]; simpl; [specialize (Hl' n eq_refl)|]; lia. }
  eapply exact_bind; [apply exact_manifest|]. rewrite (proj2 (Z.eqb_neq chunk_size 0)) by lia.
  set (sc := offset / chunk_size). set (ec := (e - 1) / chunk_size).
  assert (0 <= sc) by (apply Z.div_pos; lia). assert (sc <= ec) by (apply Z.div_le_mono; lia).
  assert (ec * chunk_size <= e - 1 < (ec + 1) * chunk_size) as Hec.
  { pose proof (Z.div_mod (e - 1) chunk_size) as Hdm. pose proof (Z.mod_pos_bound (e - 1) chunk_size) as Hmb.
    unfold ec. nia. }
  assert (forall i, sc <= i <= ec -> i * chunk_size < e) as Hin by (intros i Hi; nia).
  eapply exact_bind.
  { apply (exact_map _ _ (part offset e)). intros i Hi. apply elem_of_seqZ in Hi.
    apply exact_page_of_chunk; [lia|]. left. specialize (Hin i). lia. }
  replace (ec + 1 - sc) with (Z.of_nat (Z.to_nat (ec + 1 - sc))) by lia.
  assert (concat (map (part offset e) (seqZ sc (Z.of_nat (Z.to_nat (ec + 1 - sc))))) = page offset limit) as Hcat.
  { rewrite page_sub by (done || lia). fold e.
    unfold sc. rewrite parts_concat; fold sc; [|lia..|].
    - f_equal. rewrite Z2Nat.id by lia. replace (sc + (ec + 1 - sc)) with (ec + 1) by lia. lia.
    - intros i Hi. apply Hin. lia. }
  rewrite Hcat. apply exact_ret.
Qed.

(** One item, counted from the end when negative. *)
Lemma exact_item retrieve index i x y :
  i = (if index <? 0 then total + index else index) -> 0 <= i < total -> items !! Z.to_nat i = Some x ->
  exact P (element lib retrieve kind x) y ->
  exact P (get_collection_item lib retrieve mref total chunk_size kind index) y.
Proof.
  intros Hi Hb Hx Hy. pose proof (ds_size Hd) as Hs. unfold get_collection_item. rewrite <- Hi.
  rewrite (proj2 (Z.ltb_ge i 0)), (proj2 (Z.leb_gt total i)) by lia. simpl.
  eapply exact_bind; [apply exact_manifest|]. rewrite (proj2 (Z.eqb_neq chunk_size 0)) by lia.
  pose proof (Z.div_mod i chunk_size) as Hdm. pose proof (Z.mod_pos_bound i chunk_size) as Hmb.
  assert (0 <= i / chunk_size) as Hq by (apply Z.div_pos; lia).
  destruct (exact_chunk (i / chunk_size) Hq) as (r & Hr & Hc); [left; nia|].
  eapply exact_bind; [exact Hr|]. eapply exact_bind; [|exact Hy].
  unfold _fetch_chunk_item. eapply exact_bind; [exact Hc|]. simpl.
  set (l := i mod chunk_size) in *. set (a := i / chunk_size * chunk_size).
  assert (i = a + l) as Hal by (unfold a; lia). assert (0 <= a) by (unfold a; nia).
  rewrite sub_length by (unfold total in *; lia). rewrite (proj2 (Z.ltb_ge l 0)), (proj2 (Z.leb_gt _ l)) by lia. simpl.
  rewrite sub_lookup by lia. rewrite <- Hal, Hx. apply exact_ret.
Qed.

Lemma exact_item_range retrieve index w x w' :
  ~ (- total <= index < total) -> get_collection_item lib retrieve mref total chunk_size kind index w <> (Ok x, w').
Proof.
  intros Hr. unfold get_collection_item. set (i := if index <? 0 then _ else _).
  assert ((i <? 0) || (total <=? i) = true) as ->; [|done].
  unfold i. destruct (Z.ltb_spec index 0); lia.
Qed.

(** All items. *)
Lemma exact_materialize retrieve ys :
  Forall2 (fun x y => exact P (element lib retrieve kind x) y) items ys ->
  exact P (materialize_collection_values lib retrieve mref total chunk_size kind 0 None) ys.
Proof.
  intros Hg. unfold materialize_collection_values. eapply exact_bind; [by apply (exact_page 0 None)|].
  simpl. rewrite drop_0. by apply exact_map2.
Qed.
End Collection.

(** ** What storing a collection leaves behind *)

Variable cfg : StorageConfig.

(** Each run of [f] writes at most the blob under its own key; the keys are
    distinct, so what a run leaves under its key stays. *)
Lemma mmap_uploads {X Y} (f : X -> M Y) (k : X -> string) (b : string)
    (Q : X -> Y -> option bytes -> Prop) l w rs w' :
  (forall x w1 r w2, x ∈ l -> f x w1 = (Ok r, w2) ->
     Q x r (blobs w2 !! (b, k x)) /\ forall bk, bk <> (b, k x) -> blobs w2 !! bk = blobs w1 !! bk) ->
  NoDup (map k l) -> mmap f l w = (Ok rs, w') ->
  Forall2 (fun x r => Q x r (blobs w' !! (b, k x))) l rs /\
  forall bk, (forall x, x ∈ l -> bk <> (b, k x)) -> blobs w' !! bk = blobs w !! bk.
Proof.
  revert w rs. induction l as [|x l IH]; intros w rs Hf Hnd; simpl; [by intros [= <- <-]|].
  apply NoDup_cons in Hnd as [Hx Hnd]. unfold mbind at 1. destruct (f x w) as [[r|e] w1] eqn:E; [|done].
  unfold mbind. destruct (mmap f l w1) as [[rs'|e] w2] eqn:E2; [|done]. intros [= <- <-].
  destruct (Hf x _ _ _ ltac:(by left) E) as [HQ Hw1].
  destruct (IH _ _ ltac:(intros; eapply Hf; [by right|done]) Hnd E2) as [Hall Hrest].
  split.
  - constructor; [|done]. rewrite Hrest; [done|]. intros y Hy [= He]. apply Hx. rewrite He.
    apply list_elem_of_In, in_map. by apply list_elem_of_In.
  - intros bk Hbk. rewrite Hrest by (intros y Hy; apply Hbk; by right). apply Hw1. apply Hbk. by left.
Qed.

(** The witnesses of a list, as a list. *)
Lemma Forall2_choose {X Y Z} (P : X -> Y -> Z -> Prop) l rs :
  Forall2 (fun x r => exists c, P x r c) l rs ->
  exists cs, length cs = length rs /\ Forall2 (fun x rc => P x rc.1 rc.2) l (zip rs cs).
Proof.
  induction 1 as [|x r l rs (c & Hc) _ (cs & Hlen & Hcs)]; [by exists []|].
  exists (c :: cs). split; [simpl; lia|]. by constructor.
Qed.

Lemma store_chunk_upload prefix b items chunk_size i w r w' :
  store_chunk lib prefix b items chunk_size i w = (Ok r, w') ->
  exists c, dumps lib (dump_chunk (MkChunk 1 (i * chunk_size)
      (py_slice items (i * chunk_size) (Z.min (i * chunk_size + chunk_size) (Z.of_nat (length items)))))) = Some c /\
    r = s3_ref lib b (chunk_key prefix i) c /\ blobs w' = <[(b, chunk_key prefix i) := c]> (blobs w).
Proof.
  unfold store_chunk, mbind, serialize_object. destruct (dumps lib _) as [c|]; [|done]. intros [= <- <-]. by exists c.
Qed.

(** A serialised list of JSON values is a JSON value. *)
Lemma json_chunk st l : forallb json_val l = true -> json_val (dump_chunk (MkChunk 1 st l)) = true.
Proof. intros H. simpl. by rewrite H. Qed.

Lemma json_ref r : json_val (dump_ref r) = true.
Proof. reflexivity. Qed.

Lemma json_manifest m : json_val (dump_manifest m) = true.
Proof.
  simpl. rewrite !andb_true_r. destruct m as [v n c k rs]; simpl. destruct k; simpl.
  all: apply forallb_elem; intros x (r & <- & _)%list_elem_of_In%in_map_iff; apply json_ref.
Qed.

Lemma forallb_sub {A} (p : A -> bool) (l : list A) a b : forallb p l = true -> forallb p (sub l a b) = true.
Proof.
  rewrite !forallb_elem. intros H x Hx. apply H. unfold sub in Hx.
  eapply elem_of_take in Hx as (i & Hx & _). rewrite lookup_drop in Hx. by eapply list_elem_of_lookup_2.
Qed.
End Facts.

(** ** Round trips *)

Section RoundTrip.
Context {bytes : Type}.
Variable lib : @StorageLib bytes.
Variable cfg : StorageConfig.
Hypothesis Hlib : lib_ok lib.

(** The effective chunk size. *)
Definition chunk_size_of (c : option Z) : Z := or_default (Z.eqb 0) c (COLLECTION_CHUNK_SIZE cfg).

(** The chunks: at least one, and otherwise those that hold items. *)
Lemma chunk_range t cs : 0 <= t -> 0 < cs ->
  let n := if 0 <? t then - (- t / cs) else 1 in
  0 < n /\ forall i, 0 <= i < n <-> 0 <= i /\ (i * cs < t \/ i = 0).
Proof.
  intros Ht Hcs n. unfold n. destruct (Z.ltb_spec 0 t) as [Hpos|Hz].
  - pose proof (Z.div_mod (- t) cs) as Hdm. pose proof (Z.mod_pos_bound (- t) cs) as Hmb.
    set (q := - t / cs) in *. set (rr := - t mod cs) in *. assert (- q * cs = t + rr) as Hq by lia.
    split; [nia|]. intros i. split; [intros Hi; split; [lia|left; nia]|]. intros [Hi [Hlt| ->]]; nia.
  - split; [lia|]. intros i. split; [intros Hi; split; [lia|right; lia]|]. intros [Hi [Hlt| ->]]; nia.
Qed.

(** The upload of the chunks: every reference is that of its chunk, whose blob is
    there afterwards, and nothing else changes. *)
Lemma chunks_stored prefix b items cs n w refs w2 :
  0 < cs -> 0 < n -> (forall i, 0 <= i < n -> i * cs < total items \/ i = 0) ->
  mmap (store_chunk lib prefix b items cs) (seqZ 0 n) w = (Ok refs, w2) ->
  exists contents, length contents = length refs /\ length refs = Z.to_nat n /\
    (forall i r c, refs !! i = Some r -> contents !! i = Some c ->
       dumps lib (dump_chunk (chunk_of items cs (Z.of_nat i))) = Some c /\
       r = s3_ref lib b (chunk_key prefix (Z.of_nat i)) c /\ blobs w2 !! (b, chunk_key prefix (Z.of_nat i)) = Some c) /\
    forall bk, (forall i, bk <> (b, chunk_key prefix i)) -> blobs w2 !! bk = blobs w !! bk.
Proof.
  intros Hcs Hn Hrange Emap.
  destruct (mmap_uploads (store_chunk lib prefix b items cs) (chunk_key prefix) b
    (fun i r o => exists c, dumps lib (dump_chunk (chunk_of items cs i)) = Some c /\
       r = s3_ref lib b (chunk_key prefix i) c /\ o = Some c) (seqZ 0 n) w refs w2) as [Hall0 Hrest]; [..|done|].
  { intros i w3 r w4 Hi%elem_of_seqZ (c & Hc & -> & Hw)%store_chunk_upload. rewrite Hw. split.
    - exists c. rewrite lookup_insert_eq. split; [|done].
      rewrite <- Hc. unfold chunk_of. do 3 f_equal. fold (total items).
      assert (0 <= i * cs <= total items) as Hb by (assert (0 <= total items) by (unfold total; lia); destruct (Hrange i); nia).
      rewrite py_slice_sub by lia. fold (total items). f_equal; lia.
    - intros bk Hbk. by rewrite lookup_insert_ne by congruence. }
  { change (map (chunk_key prefix) (seqZ 0 n)) with (chunk_key prefix <$> seqZ 0 n). apply NoDup_fmap_2; [apply _|apply NoDup_seqZ]. }
  pose proof (Forall2_length _ _ _ Hall0) as Hl. pose proof (length_seqZ 0 n) as Hlseq.
  apply Forall2_choose in Hall0 as (contents & Hlen & Hall).
  exists contents. split; [done|]. split; [lia|]. split.
  - intros i r c Hr Hc. pose proof (lookup_lt_Some _ _ _ Hr) as Hir.
    destruct (lookup_lt_is_Some_2 (seqZ 0 n) i) as [x Hx]; [lia|].
    pose proof Hx as Hx'. apply lookup_seqZ in Hx' as [-> _]. rewrite Z.add_0_l in *.
    destruct (Forall2_lookup_l _ _ _ _ _ Hall Hx) as ([r' c'] & Hz & Hd & Hr' & Hw). simpl in *.
    apply lookup_zip_Some in Hz as [Hz1 Hz2]. by simplify_eq.
  - intros bk Hbk. apply Hrest. intros i _. apply Hbk.
Qed.

Lemma collection_stored prefix items kind co bo w coll w1 :
  store_collection lib cfg prefix items kind co bo w = (Ok coll, w1) ->
  forallb json_val items = true -> 0 < chunk_size_of co ->
  (forall bk c, blobs w1 !! bk = Some c -> collision_free lib c) ->
  exists mref refs mc contents,
    coll = CollectionObject (Some "list") mref (total items) (chunk_size_of co) kind 1 None /\ backend mref = "s3" /\
    described lib mref items (chunk_size_of co) kind refs mc contents /\
    (forall B, blobs w1 ⊆ B -> all_present B mref refs mc contents) /\
    forall bk, (forall i, bk.2 <> chunk_key prefix i) -> bk.2 <> manifest_key prefix -> blobs w1 !! bk = blobs w !! bk.
Proof.
  unfold store_collection. fold (chunk_size_of co). set (cs := chunk_size_of co).
  set (b := or_default (String.eqb "") bo (BLOB_STORAGE_BUCKET_WORKFLOW cfg)).
  fold (total items). set (n := if 0 <? total items then _ else 1).
  intros Hst Hjson Hcs Hfree. rewrite (proj2 (Z.eqb_neq cs 0)), andb_false_r in Hst by lia.
  unfold mbind at 1 in Hst. destruct (mmap _ _ w) as [[refs|e] w2] eqn:Emap; [|done].
  unfold mbind, serialize_object in Hst.
  destruct (dumps lib _) as [mc|] eqn:Em; [|done]. injection Hst as <- Hw1.
  assert (0 <= total items) as Ht by (unfold total; lia).
  destruct (chunk_range (total items) cs Ht Hcs) as [Hn Hrange]. fold n in Hn, Hrange.
  destruct (chunks_stored prefix b items cs n w refs w2 Hcs Hn (fun i Hi => proj2 (proj1 (Hrange i) Hi)) Emap)
    as (contents & Hlen & Hlr & Hpres0 & Hrest).
  assert (forall i r c, refs !! i = Some r -> contents !! i = Some c ->
    dumps lib (dump_chunk (chunk_of items cs (Z.of_nat i))) = Some c /\
    r = s3_ref lib b (chunk_key prefix (Z.of_nat i)) c /\ blobs w1 !! (b, chunk_key prefix (Z.of_nat i)) = Some c) as Hpres.
  { intros i r c Hr Hc. destruct (Hpres0 i r c Hr Hc) as (Hd & Hr' & Hw). split; [done|]. split; [done|].
    rewrite <- Hw1. simpl. rewrite lookup_insert_ne; [done|]. intros [= H]. by eapply manifest_chunk_key. }
  exists (s3_ref lib b (manifest_key prefix) mc), refs, mc, contents.
  assert (blobs w1 !! (b, manifest_key prefix) = Some mc) as Hman by (rewrite <- Hw1; apply lookup_insert_eq).
  split; [done|]. split; [done|]. split; [|split].
  - split; [done| | |lia|].
    + split; [done|apply json_manifest|done|]. by eapply Hfree.
    + apply Forall_lookup. intros i r Hr. pose proof (lookup_lt_Some _ _ _ Hr) as Hir.
      destruct (lookup_lt_is_Some_2 contents i) as [c Hc]; [lia|]. by destruct (Hpres i r c Hr Hc) as (_ & -> & _).
    + intros i Hi Hlt. assert (0 <= i < n) as Hin by (by apply Hrange).
      destruct (lookup_lt_is_Some_2 refs (Z.to_nat i)) as [r Hr]; [lia|].
      destruct (lookup_lt_is_Some_2 contents (Z.to_nat i)) as [c Hc]; [lia|].
      destruct (Hpres _ _ _ Hr Hc) as (Hd & -> & Hw). rewrite Z2Nat.id in * by lia.
      exists (s3_ref lib b (chunk_key prefix i) c), c. split; [done|]. split; [done|].
      split; [done| |done|by eapply Hfree]. apply json_chunk. by apply forallb_sub.
  - intros B Hsub. split; [unfold stored_at; simpl; by eapply lookup_weaken|].
    intros i r c Hr Hc. destruct (Hpres i r c Hr Hc) as (_ & -> & Hw). unfold stored_at; simpl. by eapply lookup_weaken.
  - intros [b' k] Hck Hmk. simpl in *. rewrite <- Hw1. simpl. rewrite lookup_insert_ne by congruence.
    apply Hrest. intros i [= -> ->]. by apply (Hck i).
Qed.

(** A read of [m] is exact with respect to the blobs of [w1]: in any world at
    all it returns nothing but [a], and it returns [a] wherever those blobs are
    still there and the cache is intact. *)
Definition reads {A : Type} (w1 : @World bytes) (m : M A) (a : A) : Prop :=
  (forall w x w', m w = (Ok x, w') -> x = a) /\
  (forall w, blobs w1 ⊆ blobs w -> intact lib w ->
     exists w', m w = (Ok a, w') /\ blobs w' = blobs w /\ intact lib w').

Lemma exact_reads {A : Type} (w1 : @World bytes) (P : gmap (string * string) bytes -> Prop) (m : M A) a :
  (forall B, blobs w1 ⊆ B -> P B) -> (forall B, exact lib B (P B) m a) -> reads w1 m a.
Proof.
  intros HP Hm. split; [apply (Hm ∅)|]. intros w Hsub Hi. destruct (Hm (blobs w)) as [_ H].
  by apply (H (HP _ Hsub)).
Qed.

(** C36: a collection that was stored reads back exactly: every page of it is the
    corresponding sublist of the items, and every item in range, counted from the
    end when the index is negative, is that item.  Whatever happened to the blobs
    and to the download cache in the meantime, a read returns nothing else; and
    it succeeds while the blobs are there and the cache is intact. *)
Theorem collection_roundtrip (prefix : string) (items : list val) (co : option Z) (bo : option string)
    (w w1 : World) (coll : stored)
    (Hst : store_collection lib cfg prefix items EKvalue co bo w = (Ok coll, w1))
    (Hjson : forallb json_val items = true) (Hsize : 0 < chunk_size_of co)
    (Hfree : forall bk c, blobs w1 !! bk = Some c -> collision_free lib c) :
  exists r, coll = CollectionObject (Some "list") r (total items) (chunk_size_of co) EKvalue 1 None /\
    (forall offset limit, 0 <= offset -> (forall n, limit = Some n -> 0 <= n) ->
       reads w1 (get_collection_page lib r (total items) (chunk_size_of co) offset limit) (page items offset limit)) /\
    (forall retrieve index x, - total items <= index < total items ->
       items !! Z.to_nat (index mod total items) = Some x ->
       reads w1 (get_collection_item lib retrieve r (total items) (chunk_size_of co) EKvalue index) (PVal x)).
Proof.
  destruct (collection_stored _ _ _ _ _ _ _ _ Hst Hjson Hsize Hfree) as (r & refs & mc & contents & -> & _ & Hd & Hp & _).
  exists r. split; [done|]. split.
  - intros offset limit Ho Hl. apply (exact_reads _ _ _ _ Hp). intros B.
    by apply (exact_page lib Hlib B r items _ _ refs mc contents Hd _ id).
  - intros retrieve index x Hi Hx. apply (exact_reads _ _ _ _ Hp). intros B. destruct (wrap_index _ _ Hi).
    by apply (exact_item lib Hlib B r items _ _ refs mc contents Hd _ id retrieve index (index mod total items) x),
      exact_ret.
Qed.

(** A value that was stored is kept inline or uploaded under its key. *)
Lemma store_spec k v w s w' : store lib cfg k v w = (Ok s, w') -> json_val v = true ->
  plain_stored s /\ json_val (dump_stored s) = true /\
  (forall bk, bk <> (BLOB_STORAGE_BUCKET_WORKFLOW cfg, k) -> blobs w' !! bk = blobs w !! bk) /\
  (s = inline (PVal v) \/
   exists c, blobs w' !! (BLOB_STORAGE_BUCKET_WORKFLOW cfg, k) = Some c /\ dumps lib v = Some c /\
     s = ExternalObject (Some (val_typename v)) (s3_ref lib (BLOB_STORAGE_BUCKET_WORKFLOW cfg) k c)).
Proof.
  intros H Hj. assert (forall w1, (Ok (inline (PVal v)), w1) = (Ok s, w') -> w1 = w ->
    plain_stored s /\ json_val (dump_stored s) = true /\ (forall bk, bk <> (BLOB_STORAGE_BUCKET_WORKFLOW cfg, k) ->
      blobs w' !! bk = blobs w !! bk) /\ (s = inline (PVal v) \/ exists c, blobs w' !! (BLOB_STORAGE_BUCKET_WORKFLOW cfg, k) = Some c /\
      dumps lib v = Some c /\ s = ExternalObject (Some (val_typename v)) (s3_ref lib (BLOB_STORAGE_BUCKET_WORKFLOW cfg) k c))) as Hin.
  { intros w1 [= <- <-] ->. split; [done|]. split; [simpl; by rewrite Hj|]. split; [done|by left]. }
  unfold store in H. destruct (RESULT_EXTERNALIZATION_ENABLED cfg); [|by apply (Hin w)].
  unfold s3_store, mbind, serialize_object in H. destruct (dumps lib v) as [c|] eqn:Ed; [|done]. simpl in H.
  destruct (_ <=? _); [by apply (Hin w)|]. clear Hin. simpl in H. injection H as <- <-. simpl.
  split; [done|]. split; [done|]. split; [intros bk Hbk; by rewrite lookup_insert_ne by congruence|].
  right. exists c. by rewrite lookup_insert_eq.
Qed.

(** Reading a handle produced by [store]. *)
Lemma exact_retrieve_stored fuel B (P : Prop) s v k :
  json_val v = true ->
  (s = inline (PVal v) \/ exists c, (P -> B !! (BLOB_STORAGE_BUCKET_WORKFLOW cfg, k) = Some c) /\ collision_free lib c /\
     dumps lib v = Some c /\
     s = ExternalObject (Some (val_typename v)) (s3_ref lib (BLOB_STORAGE_BUCKET_WORKFLOW cfg) k c)) ->
  exact lib B P (retrieve_stored_object lib fuel s) (PVal v).
Proof.
  intros Hj [->|(c & Hc & Hf & Hd & ->)]; [destruct fuel; apply exact_ret|].
  destruct fuel as [|fuel]; simpl; unfold retrieve_external.
  all: eapply exact_bind; [eapply exact_weaken; [exact Hc|];
    apply (exact_download lib Hlib B _ (s3_ref lib _ k c) v c); by split|];
    unfold deserialize_object; rewrite (lo_json lib Hlib v c) by done;
    eapply exact_bind; apply exact_ret.
Qed.

(** Storing a collection item by item, and reading it back. *)
(** The handle [v] of the item [ix]: inline, or to its blob [o]. *)
Definition item_handle (prefix : string) (ix : Z * val) (v : val) (o : option bytes) : Prop :=
  json_val ix.2 = true /\ exists s, v = dump_stored s /\ plain_stored s /\ json_val v = true /\
    (s = inline (PVal ix.2) \/ exists c, o = Some c /\ dumps lib ix.2 = Some c /\
       s = ExternalObject (Some (val_typename ix.2))
             (s3_ref lib (BLOB_STORAGE_BUCKET_WORKFLOW cfg) (collection_item_key prefix ix.1) c)).

Lemma handles_stored prefix items w refs w2 :
  mmap (store_as_ref lib cfg prefix) (zip (seqZ 0 (Z.of_nat (length items))) items) w = (Ok refs, w2) ->
  forallb json_val items = true ->
  Forall2 (fun ix v => item_handle prefix ix v (blobs w2 !! (BLOB_STORAGE_BUCKET_WORKFLOW cfg, collection_item_key prefix ix.1)))
    (zip (seqZ 0 (Z.of_nat (length items))) items) refs /\
  forallb json_val refs = true /\ length refs = length items.
Proof.
  set (l := zip (seqZ 0 (Z.of_nat (length items))) items). intros Emap Hjson.
  assert (forall x, x ∈ l -> json_val x.2 = true) as Hl.
  { intros [i x] Hx%elem_of_zip_r. by apply (proj1 (forallb_elem _ _) Hjson). }
  destruct (mmap_uploads (store_as_ref lib cfg prefix) (fun ix : Z * val => collection_item_key prefix ix.1)
    (BLOB_STORAGE_BUCKET_WORKFLOW cfg) (item_handle prefix) l w refs w2) as [Hall _]; [| |exact Emap|].
  - intros ix w3 v w4 Hix H. unfold store_as_ref, mbind in H. destruct (store lib cfg _ _ w3) as [[s|e] w5] eqn:E; [|done].
    injection H as <- <-. destruct (store_spec _ _ _ _ _ E (Hl ix Hix)) as (Hp & Hj & Hr & Hs). split; [|done].
    split; [by apply Hl|]. exists s. split_and!; [done..|]. destruct Hs as [?|(c & ? & ? & ?)]; [by left|right; eauto].
  - rewrite <- (map_map fst (collection_item_key prefix)). unfold l.
    rewrite (fst_zip (seqZ 0 _) items) by (rewrite length_seqZ; lia).
    apply (NoDup_fmap_2 (collection_item_key prefix)), NoDup_seqZ.
  - split; [exact Hall|]. split.
    + apply forallb_elem. intros v Hv. apply list_elem_of_lookup in Hv as [i Hi].
      destruct (Forall2_lookup_r _ _ _ _ _ Hall Hi) as (ix & _ & _ & s & _ & _ & Hj & _). done.
    + rewrite <- (Forall2_length _ _ _ Hall). unfold l. rewrite length_zip_with, length_seqZ. lia.
Qed.

Lemma refs_roundtrip (prefix : string) (items : list val) (w w1 : World) (coll : stored) (fuel : nat) (Hfuel : (0 < fuel)%nat)
    (Hst : _store_collection_as_refs lib cfg prefix items w = (Ok coll, w1))
    (Hjson : forallb json_val items = true) (Hsize : 0 < COLLECTION_CHUNK_SIZE cfg)
    (Hfree : forall bk c, blobs w1 !! bk = Some c -> collision_free lib c) :
  reads w1 (retrieve_stored_object lib fuel coll) (PList (map PVal items)) /\
  forall i x, - total items <= i < total items -> items !! Z.to_nat (i mod total items) = Some x ->
    reads w1 (retrieve_stored_object lib fuel (collection_at coll i)) (PVal x).
Proof.
  destruct fuel as [|fuel]; [lia|]. clear Hfuel.
  unfold _store_collection_as_refs in Hst. unfold mbind at 1 in Hst.
  destruct (mmap _ _ w) as [[refs|e] w2] eqn:Emap; [|done].
  destruct (handles_stored _ _ _ _ _ Emap Hjson) as (Hall & Hjr & Hlen).
  destruct (collection_stored _ _ _ _ _ _ _ _ Hst Hjr Hsize Hfree)
    as (r & rrefs & mc & contents & -> & Hs3 & Hd & Hp & Hrest).
  change (chunk_size_of None) with (COLLECTION_CHUNK_SIZE cfg) in *.
  assert (forall B, Forall2 (fun v y => exact lib B (blobs w1 ⊆ B)
    (element lib (retrieve_stored_object lib fuel) EKstored_object v) y) refs (map PVal items)) as Helem.
  { intros B. assert (map snd (zip (seqZ 0 (Z.of_nat (length items))) items) = items) as <-
      by (apply snd_zip; rewrite length_seqZ; lia).
    rewrite map_map. apply Forall2_fmap_r, Forall2_flip. eapply Forall2_impl; [exact Hall|].
    intros ix v (Hjx & s & -> & Hps & Hjs & Hs). simpl. eapply exact_bind; [apply exact_validated, lo_stored; done|].
    apply (exact_retrieve_stored fuel B _ s ix.2 (collection_item_key prefix ix.1)); [done|].
    destruct Hs as [?|(c & Hc & Hdc & ->)]; [by left|right]. exists c.
    assert (blobs w1 !! (BLOB_STORAGE_BUCKET_WORKFLOW cfg, collection_item_key prefix ix.1) = Some c) as Hc1.
    { rewrite Hrest; [done|intros j; apply item_chunk_key|apply item_manifest_key]. }
    split; [intros HB; by eapply lookup_weaken|]. split; [by eapply Hfree|]. done. }
  unfold total. rewrite <- Hlen. split.
  - apply (exact_reads w1 (fun B => blobs w1 ⊆ B) _ _ (fun B H => H)). intros B.
    simpl. rewrite decide_True by done. eapply exact_bind; [|apply exact_ret].
    by apply (exact_materialize lib Hlib B r refs _ _ rrefs mc contents Hd _ (Hp B)).
  - intros i x Hi Hx. apply (exact_reads w1 (fun B => blobs w1 ⊆ B) _ _ (fun B H => H)). intros B.
    simpl. rewrite decide_True by done.
    destruct (wrap_index _ _ Hi) as [Hwrap Hb].
    destruct (lookup_lt_is_Some_2 refs (Z.to_nat (i mod Z.of_nat (length refs)))) as [v Hv]; [lia|].
    apply (exact_item lib Hlib B r refs _ _ rrefs mc contents Hd _ (Hp B) _ i (i mod Z.of_nat (length refs)) v);
      [done|done|done|].
    destruct (Forall2_lookup_l _ _ _ _ _ (Helem B) Hv) as (y & Hy & He).
    change (map PVal items) with (PVal <$> items) in Hy. rewrite list_lookup_fmap, Hx in Hy. by injection Hy as <-.
Qed.

(** A scattered or gathered collection survives externalisation: storing its
    items one by one (inline or as blobs, by size) and the handles as a chunked
    collection, then retrieving the collection, or the item at an index, gives
    the original items in order; and no retrieval, in any world, gives anything
    else. *)
Theorem externalized_roundtrip (prefix : string) (items : list val) (w w1 : World) (coll : stored) (fuel : nat) (Hfuel : (0 < fuel)%nat)
    (Hst : _store_collection_as_refs lib cfg prefix items w = (Ok coll, w1))
    (Hjson : forallb json_val items = true) (Hsize : 0 < COLLECTION_CHUNK_SIZE cfg)
    (Hfree : forall bk c, blobs w1 !! bk = Some c -> collision_free lib c) :
  reads w1 (retrieve_stored_object lib fuel coll) (PList (map PVal items)) /\
  forall i x, - total items <= i < total items -> items !! Z.to_nat (i mod total items) = Some x ->
    reads w1 (retrieve_stored_object lib fuel (collection_at coll i)) (PVal x).
Proof. by apply (refs_roundtrip prefix items w w1 coll fuel). Qed.
End RoundTrip.

(** ** A concrete library *)


(** The library of the examples: contents are the JSON values themselves, hashed
    injectively on the five contents the examples store. *)

(** Validators of exactly the dumped forms. *)
Definition str_field (d : list (string * val)) (k : string) : option string :=
  match dget d k with Some (VStr s) => Some s | _ => None end.
Definition int_field (d : list (string * val)) (k : string) : option Z :=
  match dget d k with Some (VInt z) => Some z | _ => None end.

Definition parse_ref (v : val) : option ObjectRef :=
  match v with
  | VDict d =>
      be ← str_field d "backend"; b ← str_field d "bucket"; k ← str_field d "key"; n ← int_field d "size_bytes";
      h ← str_field d "sha256"; ct ← str_field d "content_type"; e ← str_field d "encoding"; t ← str_field d "created_at";
      if decide (be = "s3" /\ e ∈ ["json"; "json+zstd"; "json+gzip"]) then Some (MkObjectRef be b k n h ct e t) else None
  | _ => None
  end.

Definition parse_kind (v : val) : option ElementKind :=
  match v with
  | VStr s => if decide (s = "value") then Some EKvalue
              else if decide (s = "stored_object") then Some EKstored_object else None
  | _ => None
  end.

Definition parse_manifest (v : val) : option CollectionManifestV1 :=
  match v with
  | VDict d =>
      kd ← str_field d "kind"; ver ← int_field d "version"; n ← int_field d "count"; c ← int_field d "chunk_size";
      k ← dget d "element_kind" ≫= parse_kind;
      match dget d "chunks" with
      | Some (VList l) =>
          refs ← mapM parse_ref l;
          if decide (kd = "tracecat.collection_manifest") then Some (MkManifest ver n c k refs) else None
      | _ => None
      end
  | _ => None
  end.

Definition parse_chunk (v : val) : option CollectionChunkV1 :=
  match v with
  | VDict d =>
      kd ← str_field d "kind"; ver ← int_field d "version"; st ← int_field d "start";
      match dget d "items" with
      | Some (VList l) => if decide (kd = "tracecat.collection_chunk") then Some (MkChunk ver st l) else None
      | _ => None
      end
  | _ => None
  end.


Definition parse_stored (v : val) : option stored :=
  match v with
  | VDict d =>
      match dget d "typename", str_field d "type" with
      | Some (VStr t), Some ty =>
          if decide (ty = "inline") then data ← dget d "data"; Some (InlineObject (Some t) (PVal data))
          else if decide (ty = "external") then r ← dget d "ref" ≫= parse_ref; Some (ExternalObject (Some t) r)
          else None
      | _, _ => None
      end
  | _ => None
  end.

Lemma parse_dump_ref r : valid_ref r -> parse_ref (dump_ref r) = Some r.
Proof.
  destruct r as [be b k n h ct e t]. intros [Hb He]. simpl in *. subst.
  reflexivity.
Qed.

Lemma parse_dump_manifest m : Forall valid_ref (m_chunks m) -> parse_manifest (dump_manifest m) = Some m.
Proof.
  destruct m as [v n c k refs]. intros Hv. simpl in Hv.
  assert (mapM parse_ref (map dump_ref refs) = Some refs) as Hm.
  { apply mapM_Some, Forall2_fmap_l, Forall_Forall2_diag. eapply Forall_impl; [exact Hv|apply parse_dump_ref]. }
  transitivity (rs ← mapM parse_ref (map dump_ref refs); Some (MkManifest v n c k rs)); [by destruct k|].
  by rewrite Hm.
Qed.

Lemma parse_dump_stored s : plain_stored s -> parse_stored (dump_stored s) = Some s.
Proof.
  destruct s as [[t|] [v| |?|?]|[t|] r|]; try done. intros Hr.
  transitivity (x ← parse_ref (dump_ref r); Some (ExternalObject (Some t) x)); [done|]. by rewrite parse_dump_ref.
Qed.

Definition ex_items : list val := [VInt 1; VInt 2; VInt 3].
Definition ex_ref (k h : string) : ObjectRef := MkObjectRef "s3" "bkt" k 1 h "application/json" "json" "t0".
Definition ex_contents : list val :=
  [dump_chunk (MkChunk 1 0 [VInt 1; VInt 2]); dump_chunk (MkChunk 1 2 [VInt 3]);
   dump_manifest (MkManifest 1 3 2 EKvalue [ex_ref "p/chunks/0.json" "0"; ex_ref "p/chunks/1.json" "1"]);
   VStr "big";
   dump_chunk (MkChunk 1 0 [dump_stored (ExternalObject (Some "str") (ex_ref "p/items/0.json" "3"))]);
   dump_manifest (MkManifest 1 1 2 EKstored_object [ex_ref "p/chunks/0.json" "4"])].

Definition ex_hash (v : val) : string :=
  match list_find (fun c => c = v) ex_contents with
  | Some (i, _) => Decimal.py_str_int (Z.of_nat i)
  | None => "other"
  end.

Definition ex_lib : @StorageLib val :=
  MkStorageLib Some Some ex_hash (fun _ => 1) id insert parse_stored parse_manifest parse_chunk "t0".
Definition ex_cfg : StorageConfig := MkStorageConfig 2 "bkt" true 0.
Definition ex_world : @World val := MkWorld ∅ ∅.

Lemma ex_lib_ok : lib_ok ex_lib.
Proof.
  split; simpl; [done|done| |apply parse_dump_manifest|by intros []|apply parse_dump_stored].
  by intros v c _ [= <-].
Qed.

Lemma ex_contents_free c : c ∈ ex_contents -> collision_free ex_lib c.
Proof.
  intros Hc c'. simpl. unfold ex_hash. intros Hh.
  destruct (list_find (fun x => x = c) ex_contents) as [[i y]|] eqn:E.
  - apply list_find_Some in E as (Hi & -> & _).
    destruct (list_find (fun x => x = c') ex_contents) as [[j z]|] eqn:E'.
    + apply list_find_Some in E' as (Hj & -> & _). apply py_str_int_inj, Nat2Z.inj in Hh. subst. congruence.
    + exfalso. apply (f_equal Decimal.py_int) in Hh. by rewrite Decimal.py_int_str in Hh.
  - exfalso. apply list_find_None in E. eapply Forall_forall in E; [|exact Hc]. done.
Qed.

Lemma ex_free (w : @World val) :
  forallb (fun kc : (string * string) * val => bool_decide (kc.2 ∈ ex_contents)) (map_to_list (blobs w)) = true ->
  forall bk c, blobs w !! bk = Some c -> collision_free ex_lib c.
Proof.
  rewrite forallb_elem. intros H bk c Hc. apply ex_contents_free.
  by apply elem_of_map_to_list, H, bool_decide_eq_true in Hc.
Qed.

Definition ex_stored : result stored * @World val := store_collection ex_lib ex_cfg "p" ex_items EKvalue None None ex_world.
Definition ex_handle : stored := match ex_stored.1 with Ok s => s | Err _ => inline PUnset end.

Lemma collection_roundtrip_witness :
  exists r, ex_handle = CollectionObject (Some "list") r (total ex_items) (chunk_size_of ex_cfg None) EKvalue 1 None /\
    (forall offset limit, 0 <= offset -> (forall n, limit = Some n -> 0 <= n) ->
       reads ex_lib ex_stored.2 (get_collection_page ex_lib r (total ex_items) (chunk_size_of ex_cfg None) offset limit)
         (page ex_items offset limit)) /\
    (forall retrieve index x, - total ex_items <= index < total ex_items ->
       ex_items !! Z.to_nat (index mod total ex_items) = Some x ->
       reads ex_lib ex_stored.2
         (get_collection_item ex_lib retrieve r (total ex_items) (chunk_size_of ex_cfg None) EKvalue index) (PVal x)).
Proof.
  apply (collection_roundtrip ex_lib ex_cfg ex_lib_ok "p" ex_items None None ex_world ex_stored.2 ex_handle).
  - vm_compute. reflexivity.
  - vm_compute. reflexivity.
  - vm_compute. reflexivity.
  - apply ex_free. vm_compute. reflexivity.
Defined.

Definition ex_refs : result stored * @World val := _store_collection_as_refs ex_lib ex_cfg "p" [VStr "big"] ex_world.
Definition ex_refs_handle : stored := match ex_refs.1 with Ok s => s | Err _ => inline PUnset end.

Lemma externalized_roundtrip_witness :
  reads ex_lib ex_refs.2 (retrieve_stored_object ex_lib 2 ex_refs_handle) (PList [PVal (VStr "big")]) /\
  forall i x, - total [VStr "big"] <= i < total [VStr "big"] ->
    [VStr "big"] !! Z.to_nat (i mod total [VStr "big"]) = Some x ->
    reads ex_lib ex_refs.2 (retrieve_stored_object ex_lib 2 (collection_at ex_refs_handle i)) (PVal x).
Proof.
  apply (externalized_roundtrip ex_lib ex_cfg ex_lib_ok "p" [VStr "big"] ex_world ex_refs.2 ex_refs_handle 2).
  - lia.
  - vm_compute. reflexivity.
  - vm_compute. reflexivity.
  - vm_compute. reflexivity.
  - apply ex_free. vm_compute. reflexivity.
Defined.
