(* ===== verification/DslScopes.v ===== *)
(** The structural validation of a workflow definition: [DSLInput.validate_structure]
    and the scope analysis behind it ([tracecat/dsl/common.py]).  Scatter/gather
    and loop start/end delimit nested scopes; the analysis assigns every action
    a scope in topological order, then checks edges, expressions and loops
    against the scope tree. *)

From S2P Require Import Prelude PyStr Base62 PyVal Expr DslTypes Graph.

Definition dsl_error {A} (msg : string) : result A := raise TracecatDSLError msg.

(** [d[k]]. *)
Definition getitem {V} (d : gmap string V) (k : string) : result V :=
  match d !! k with Some v => Ok v | None => raise KeyError "" end.

Definition ROOT_SCOPE : string := "<root>".

(** The three maps computed by [_assign_action_scopes]. *)
Record Scopes := MkScopes {
  action_scopes : gmap string string;
  scope_hierarchy : gmap string (option string);
  scope_openers : gmap string string }.

Section Structure.
Variable actions : list ActionStatement.

(** [{a.ref: a for a in actions}[ref]]. *)
Definition find_action (r : string) : option ActionStatement :=
  find (fun a => bool_decide (ref a = r)) actions.

Definition refs : list string := map ref actions.

(** ** Adjacency *)

Definition _to_adjacency : result (gmap string (list string)) :=
  let adj : gmap string (list string) := foldl (fun m a => <[ref a := []]> m) ∅ actions in
  rfor (fun a adj =>
    rfor (fun dep adj =>
      let! (src_ref, _) := edge_components_from_dep dep in
      let! l := getitem adj src_ref in
      Ok (<[src_ref := l ++ [ref a]]> adj)) (depends_on a) adj) actions adj.

Definition _to_typed_adjacency : result (gmap string (list AdjDst)) :=
  let adj : gmap string (list AdjDst) := foldl (fun m a => <[ref a := []]> m) ∅ actions in
  rfor (fun a adj =>
    rfor (fun dep adj =>
      let! (src_ref, edge_type) := edge_components_from_dep dep in
      let! l := getitem adj src_ref in
      Ok (<[src_ref := l ++ [(ref a, edge_type)]]> adj)) (depends_on a) adj) actions adj.

(** ** Scope assignment *)

Definition assign_scope (scopes : gmap string string) (action_ref scope : string)
  : result (gmap string string) :=
  match scopes !! action_ref with
  | None => Ok (<[action_ref := scope]> scopes)
  | Some s => if decide (s = scope) then Ok scopes
              else dsl_error "cannot belong to multiple scopes"
  end.

(** The scope transition at a popped action: the new maps and the scope passed
    to its successors. *)
Definition enter_action (stmt : ActionStatement) (curr_scope : string) (st : Scopes)
  : result (Scopes * string) :=
  let r := ref stmt in
  if is_opener (action stmt) then
    let! scopes := assign_scope (action_scopes st) r r in
    Ok (MkScopes scopes (<[r := Some curr_scope]> (scope_hierarchy st))
          (<[r := action stmt]> (scope_openers st)), r)
  else if is_closer (action stmt) then
    match parent_of (scope_hierarchy st) curr_scope with
    | None => dsl_error "You cannot use a closer action in the root scope"
    | Some next_scope =>
        if decide (scope_openers st !! curr_scope = CLOSER_TO_OPENER_ACTION (action stmt)) then
          let! scopes := assign_scope (action_scopes st) r next_scope in
          Ok (MkScopes scopes (scope_hierarchy st) (scope_openers st), next_scope)
        else dsl_error "closes the wrong scope type"
    end
  else
    let! scopes := assign_scope (action_scopes st) r curr_scope in
    Ok (MkScopes scopes (scope_hierarchy st) (scope_openers st), curr_scope).

(** The [while queue] loop; [None]: out of fuel.  [n_visited] counts pops. *)
Fixpoint assign_loop (fuel : nat) (adj : gmap string (list string))
    (queue : list (string * string)) (indegrees : gmap string Z) (st : Scopes) (n_visited : nat)
  : option (result (Scopes * nat)) :=
  match queue with
  | [] => Some (Ok (st, n_visited))
  | (r, curr_scope) :: queue' =>
      match fuel with
      | O => None
      | S fuel' =>
          match find_action r with
          | None => Some (raise KeyError "")
          | Some stmt =>
              match enter_action stmt curr_scope st with
              | Err e => Some (Err e)
              | Ok (st', next_scope) =>
                  let '(indegrees', ready) := relax (default [] (adj !! r)) indegrees in
                  assign_loop fuel' adj (queue' ++ map (fun n => (n, next_scope)) ready)
                    indegrees' st' (S n_visited)
              end
          end
      end
  end.

Definition initial_scopes : Scopes := MkScopes ∅ {[ ROOT_SCOPE := None ]} ∅.

Definition indegrees0 : list (string * Z) :=
  map (fun a => (ref a, Z.of_nat (length (depends_on a)))) actions.

(** [_assign_action_scopes]; the fuel is the number of actions, since each is
    popped at most once ([assign_total]). *)
Definition _assign_action_scopes (adj : gmap string (list string)) : option (result Scopes) :=
  let queue := map (fun ri => (ri.1, ROOT_SCOPE)) (filter (fun ri => ri.2 = 0) indegrees0) in
  match assign_loop (length actions) adj queue (list_to_map indegrees0) initial_scopes 0 with
  | None => None
  | Some (Err e) => Some (Err e)
  | Some (Ok (st, n_visited)) =>
      Some (if (n_visited =? length actions)%nat then Ok st
            else dsl_error "Cycle detected in control-flow workflow")
  end.
End Structure.

(** ** Walks on the scope tree *)

Section Walks.
Variable scope_hierarchy : gmap string (option string).

(** The fuel of the walks: the tree has [size scope_hierarchy] scopes. *)
Definition walk_fuel : nat := S (size scope_hierarchy).

Definition _is_same_or_ancestor_scope (dep_scope action_scope : string) : bool :=
  default false (walk_up scope_hierarchy walk_fuel (fun s => bool_decide (dep_scope = s)) (Some action_scope)).

Definition _is_same_or_descendant_scope (scope ancestor_scope : string) : bool :=
  default false (walk_up scope_hierarchy walk_fuel (fun s => bool_decide (s = ancestor_scope)) (Some scope)).

(** [while curr is not None and curr != action_scope: if not loop: return False;
    curr = parent.get(curr)]; [return curr == action_scope]. *)
Fixpoint loop_descendant (openers : gmap string string) (fuel : nat) (curr : option string)
    (action_scope : string) : option bool :=
  match curr with
  | None => Some false
  | Some s =>
      if decide (s = action_scope) then Some true
      else if decide (openers !! s = Some PlatformAction.LOOP_START) then
        match fuel with
        | O => None
        | S fuel' => loop_descendant openers fuel' (parent_of scope_hierarchy s) action_scope
        end
      else Some false
  end.

Definition _is_loop_descendant_scope (openers : gmap string string) (dep_scope action_scope : string) : bool :=
  if decide (dep_scope = action_scope) then false
  else default false (loop_descendant openers walk_fuel (Some dep_scope) action_scope).
End Walks.

(** ** Validation *)

Section Validate.
Variable parse : string -> option tree.
Variable actions : list ActionStatement.

Definition key2loc (key : string) : string := if decide (key = "args") then "inputs" else key.

(** The action references of an expression-bearing value. *)
Definition action_refs (v : val) : result (gset string) :=
  let! ex := extract_expressions parse v in Ok (ex_actions ex).

Definition _all_action_expressions_valid (valid_action_refs : gset string) : result unit :=
  rfor (fun a _ =>
    rfor (fun kv _ =>
      let! deps := action_refs kv.2 in
      if decide (deps ⊆ valid_action_refs) then Ok tt
      else dsl_error "has an expression that references unknown action")
      (model_dump a) tt) actions tt.

(** [_resolve_closed_loop_scope]. *)
Definition _resolve_closed_loop_scope (sc : Scopes) (stmt : ActionStatement) : result string :=
  let! action_scope := getitem (action_scopes sc) (ref stmt) in
  let! dep_scopes := rmap (fun dep =>
    let! (src, _) := edge_components_from_dep dep in getitem (action_scopes sc) src) (depends_on stmt) in
  match remove_dups dep_scopes with
  | [loop_scope] =>
      if decide (parent_of (scope_hierarchy sc) loop_scope = Some action_scope) then
        if decide (scope_openers sc !! loop_scope = Some PlatformAction.LOOP_START) then Ok loop_scope
        else dsl_error "must close a loop.start scope"
      else dsl_error "must depend on actions from its child loop scope"
  | _ => dsl_error "must depend on actions from exactly one loop scope"
  end.

(** The check of a closer action against a dependency's scope. *)
Definition closer_scope_check (sc : Scopes) (stmt : ActionStatement) (action_scope dep_scope : string)
  : result unit :=
  let! parent := getitem (scope_hierarchy sc) dep_scope in
  if decide (Some action_scope = parent) then Ok tt
  else if decide (scope_openers sc !! dep_scope <> CLOSER_TO_OPENER_ACTION (action stmt))
  then dsl_error "closes the wrong scope type"
  else dsl_error "isn't the child scope".

(** One edge of an action. *)
Definition check_edge (sc : Scopes) (loop_end_scope : gmap string string)
    (stmt : ActionStatement) (action_scope dep : string) : result unit :=
  let! (dep_ref, _) := edge_components_from_dep dep in
  let! dep_scope := getitem (action_scopes sc) dep_ref in
  if is_opener (action stmt) then
    let! parent := getitem (scope_hierarchy sc) action_scope in
    if decide (Some dep_scope = parent) then Ok tt else dsl_error "isn't the parent scope"
  else if decide (action stmt = PlatformAction.LOOP_END) then
    let! closed_loop_scope := getitem loop_end_scope (ref stmt) in
    if decide (dep_scope = closed_loop_scope) then Ok tt else dsl_error "isn't the closed loop scope"
  else if is_closer (action stmt) then closer_scope_check sc stmt action_scope dep_scope
  else if decide (dep_scope = action_scope) then Ok tt
  else dsl_error "which is in a different scatter-gather scope".

(** One action referenced by an expression in the field [key]. *)
Definition check_expr_ref (sc : Scopes) (loop_end_scope : gmap string string)
    (condition_refs : gmap string (gset string)) (stmt : ActionStatement)
    (action_scope key dep : string) : result unit :=
  let! dep_scope := getitem (action_scopes sc) dep in
  if is_opener (action stmt) then
    let! parent := getitem (scope_hierarchy sc) action_scope in
    if decide (Some dep_scope = parent) then Ok tt else dsl_error "isn't the parent scope"
  else if decide (action stmt = PlatformAction.LOOP_END) then
    let! closed_loop_scope := getitem loop_end_scope (ref stmt) in
    let! crefs := getitem condition_refs (ref stmt) in
    if decide (key = "args" /\ dep ∈ crefs /\ dep_scope <> closed_loop_scope)
    then dsl_error "condition refs must be in loop scope"
    else closer_scope_check sc stmt action_scope dep_scope
  else if is_closer (action stmt) then closer_scope_check sc stmt action_scope dep_scope
  else if _is_same_or_ancestor_scope (scope_hierarchy sc) dep_scope action_scope
          || _is_loop_descendant_scope (scope_hierarchy sc) (scope_openers sc) dep_scope action_scope
  then Ok tt
  else dsl_error "cannot be referenced from this scope".

Definition is_loop_end (a : ActionStatement) : bool := bool_decide (action a = PlatformAction.LOOP_END).

(** The closed scope and the condition's references of every loop end. *)
Definition loop_end_tables (sc : Scopes)
  : result (gmap string string * gmap string (gset string)) :=
  rfor (fun a '(scopes, crefs) =>
    if is_loop_end a then
      let! loop_scope := _resolve_closed_loop_scope sc a in
      let! rs := action_refs (VDict [("condition", default VNone (dget (args a) "condition"))]) in
      Ok (<[ref a := loop_scope]> scopes, <[ref a := rs]> crefs)
    else Ok (scopes, crefs)) actions (∅, ∅).

Definition check_action (sc : Scopes) (loop_end_scope : gmap string string)
    (condition_refs : gmap string (gset string)) (a : ActionStatement) : result unit :=
  let! action_scope := getitem (action_scopes sc) (ref a) in
  let! _ := rfor (fun dep _ => check_edge sc loop_end_scope a action_scope dep) (depends_on a) tt in
  rfor (fun kv _ =>
    let! dep_refs := action_refs kv.2 in
    rfor (fun dep _ => check_expr_ref sc loop_end_scope condition_refs a action_scope kv.1 dep)
      (elements dep_refs) tt)
    (filter (fun kv => kv.1 <> "depends_on") (model_dump a)) tt.

Definition _validate_scope_dependencies (sc : Scopes) : result unit :=
  let! (loop_end_scope, condition_refs) := loop_end_tables sc in
  rfor (fun a _ => check_action sc loop_end_scope condition_refs a) actions tt.

(** Actions with a success edge into [r]. *)
Definition reverse_success (adj : gmap string (list AdjDst)) (r : string) : list string :=
  map fst (filter (fun sd => (r, EdgeSUCCESS) ∈ sd.2) (map_to_list adj)).

Definition loop_end_by_scope (sc : Scopes) : result (gmap string string) :=
  rfor (fun a m =>
    if is_loop_end a then
      let! loop_scope := _resolve_closed_loop_scope sc a in
      match m !! loop_scope with
      | Some existing => if decide (existing = "") then Ok (<[loop_scope := ref a]> m)
                         else dsl_error "has multiple loop end actions"
      | None => Ok (<[loop_scope := ref a]> m)
      end
    else Ok m) actions ∅.

Definition sync_fuel (adj : gmap string (list AdjDst)) : nat :=
  search_cost (reverse_success adj) (map fst (map_to_list adj)) ∅ + 1.

(** [_validate_loop_scope_synchronization]: the reverse search from the loop end
    runs with enough fuel ([sync_search_total]). *)
Definition _validate_loop_scope_synchronization (sc : Scopes) : result unit :=
  let loop_scopes : gset string :=
    dom (filter (fun so => so.2 = PlatformAction.LOOP_START) (scope_openers sc)) in
  if decide (loop_scopes = ∅) then Ok tt
  else
    let! ends := loop_end_by_scope sc in
    if decide (loop_scopes ⊆ dom ends) then
      let! adj := _to_typed_adjacency actions in
      rfor (fun '(loop_scope, loop_end_ref) _ =>
        let reach := default ∅ (dfs (reverse_success adj) (sync_fuel adj) [loop_end_ref] ∅) in
        if forallb (fun '(action_ref, scope) =>
             negb (_is_same_or_descendant_scope (scope_hierarchy sc) scope loop_scope)
             || bool_decide (action_ref ∈ reach)) (map_to_list (action_scopes sc))
        then Ok tt
        else dsl_error "must synchronize at loop end") (map_to_list ends) tt
    else dsl_error "has no matching loop end action".

Definition with_action (act : string) : list ActionStatement :=
  filter (fun a => action a = act) actions.

(** [None] is only the (impossible) exhaustion of the scope analysis' fuel. *)
Definition _validate_scatter_gather_scopes : option (result unit) :=
  let n act := length (with_action act) in
  if (n PlatformAction.TRANSFORM_SCATTER <? n PlatformAction.TRANSFORM_GATHER)%nat then
    Some (dsl_error "There are more gather actions than scatter actions.")
  else if negb (n PlatformAction.LOOP_END =? n PlatformAction.LOOP_START)%nat then
    Some (dsl_error "Loop scopes must be balanced")
  else if (n PlatformAction.TRANSFORM_SCATTER =? 0)%nat && (n PlatformAction.LOOP_START =? 0)%nat then
    Some (Ok tt)
  else
    match _to_adjacency actions with
    | Err e => Some (Err e)
    | Ok adj =>
        match _assign_action_scopes actions adj with
        | None => None
        | Some (Err e) => Some (Err e)
        | Some (Ok sc) =>
            Some (let! _ := _validate_scope_dependencies sc in
                  _validate_loop_scope_synchronization sc)
        end
    end.

(** The sources of all dependencies; a malformed one raises. *)
Definition dependency_sources : result (gset string) :=
  rfor (fun a deps =>
    rfor (fun dep deps =>
      match edge_components_from_dep dep with
      | Ok (src, _) => Ok ({[ src ]} ∪ deps)
      | Err _ => dsl_error "Invalid depends_on ref"
      end) (depends_on a) deps) actions ∅.

Definition validate_structure : option (result unit) :=
  match actions with
  | [] => Some (dsl_error "At least one action must be defined.")
  | _ =>
      if negb (bool_decide (NoDup (refs actions))) then
        Some (dsl_error "All action references must be unique.")
      else if negb (existsb (fun a => match depends_on a with [] => true | _ => false end) actions) then
        Some (dsl_error "No entrypoints found")
      else
        match dependency_sources with
        | Err e => Some (Err e)
        | Ok deps =>
            let valid : gset string := list_to_set (refs actions) in
            if decide (deps ⊆ valid) then
              match _all_action_expressions_valid valid with
              | Err e => Some (Err e)
              | Ok _ => _validate_scatter_gather_scopes
              end
            else Some (dsl_error "Invalid depends_on refs in actions")
        end
  end.
End Validate.
