(* ===== verification/DslBuild.v ===== *)
(** Building the statements of a definition from the actions of the graph editor
    ([build_action_statements_from_actions] of [tracecat/dsl/common.py]). *)

From S2P Require Import Prelude PyStr Base62 PyVal Expr DslTypes Graph DslScopes.

(** ** Data *)

(** Action ids are UUIDs, as canonical strings. *)
Definition ActionID : Type := string.

Inductive SourceType := trigger | udf.
Record UpstreamEdgeData := MkEdge { source_id : string; source_type : option SourceType; source_handle : option EdgeType }.

(** An optional [Literal] field. *)
Definition literal_field {A : Type} (d : list (string * val)) (k : string) (members : list (string * A)) : result (option A) :=
  match dget d k with
  | None => Ok None
  | Some (VStr s) => match dget members s with Some x => Ok (Some x) | None => raise ValidationError k end
  | Some _ => raise ValidationError k
  end.

(** [UpstreamEdgeDataValidator.validate_python]. *)
Definition validate_edge (edge_data : val) : result UpstreamEdgeData :=
  match edge_data with
  | VDict d =>
      match dget d "source_id" with
      | Some (VStr id) =>
          let! t := literal_field d "source_type" [("trigger", trigger); ("udf", udf)] in
          let! h := literal_field d "source_handle" [("success", EdgeSUCCESS); ("error", EdgeERROR)] in
          Ok (MkEdge id t h)
      | _ => raise ValidationError "source_id"
      end
  | _ => raise ValidationError "Input should be a valid dictionary"
  end.

Record ActionControlFlow := MkControlFlow {
  cf_run_if : option string; cf_for_each : val; cf_join_strategy : JoinStrategy; cf_retry_policy : ActionRetryPolicy;
  cf_start_delay : spec_float; cf_wait_until : option string; cf_environment : option string; cf_mask_output : bool }.

(** A row of the [action] table; the JSON and YAML columns as they parse: the
    control flow, the inputs and the interaction may be rejected. *)
Record Action := MkDbAction {
  a_id : ActionID; a_ref : string; a_type : string;
  a_inputs : result val; a_control_flow : result ActionControlFlow;
  a_interaction : result val; a_is_interactive : bool; upstream_edges : list val }.

Section Build.
(** [ActionID(s)]: parsing a UUID; [None] when it raises [ValueError]. *)
Variable parse_id : string -> option ActionID.
(** The field constraints of [ActionStatement] (slug patterns, expression strings). *)
Variable fields_ok : ActionStatement -> bool.

(** ** Reachability from the trigger *)

Record EdgeScan := MkScan { trigger_roots : gset ActionID; adjacency : gmap ActionID (gset ActionID) }.

Definition ids (actions : list Action) : gset ActionID := list_to_set (map a_id actions).
(** [{action.id: action for action in actions}]. *)
Definition id2action (actions : list Action) : gmap ActionID Action :=
  foldl (fun m a => <[a_id a := a]> m) ∅ actions.

Definition scan_edge (actions : list Action) (target : ActionID) (edge_data : val) (sc : EdgeScan) : result EdgeScan :=
  let! edge := validate_edge edge_data in
  if decide (source_id edge = "") then Ok sc
  else
    let is_trigger := match source_type edge with
                      | Some trigger => true
                      | Some udf => false
                      | None => starts_with "trigger-" (source_id edge)
                      end in
    if is_trigger then Ok (MkScan ({[ target ]} ∪ trigger_roots sc) (adjacency sc))
    else match parse_id (source_id edge) with
         | None => Ok sc
         | Some source =>
             if decide (source ∈ dom (id2action actions)) then
               Ok (MkScan (trigger_roots sc) (<[source := {[ target ]} ∪ default ∅ (adjacency sc !! source)]> (adjacency sc)))
             else Ok sc
         end.

Definition scan_edges (actions : list Action) : result EdgeScan :=
  rfor (fun a sc => rfor (scan_edge actions (a_id a)) (upstream_edges a) sc) actions (MkScan ∅ ∅).

Definition targets (sc : EdgeScan) (source : ActionID) : list ActionID := elements (default ∅ (adjacency sc !! source)).

(** The queue of the search starts with the roots, in the order of the set. *)
Definition get_reachable_action_ids (actions : list Action) : result (option (gset ActionID)) :=
  let! sc := scan_edges actions in
  Ok (if decide (trigger_roots sc = ∅) then Some (dom (id2action actions))
      else bfs (targets sc) (2 * length actions) (elements (trigger_roots sc)) (trigger_roots sc)).

(** ** Statements *)

(** One upstream edge of an action: the dependency it stands for, if any. *)
Definition dependency (by_id : gmap ActionID Action) (reachable : gset ActionID) (edge_data : val) : result (option string) :=
  let! edge := validate_edge edge_data in
  if decide (source_id edge = "") then Ok None
  else match parse_id (source_id edge) with
       | None => Ok None
       | Some source =>
           match by_id !! source with
           | Some a =>
               if decide (source ∈ reachable) then
                 Ok (Some match default EdgeSUCCESS (source_handle edge) with
                          | EdgeERROR => dep_from_edge_components (a_ref a) EdgeERROR
                          | EdgeSUCCESS => a_ref a
                          end)
               else Ok None
           | None => Ok None
           end
       end.

Definition dependencies (by_id : gmap ActionID Action) (reachable : gset ActionID) (a : Action) : result (list string) :=
  let! ds := rmap (dependency by_id reachable) (upstream_edges a) in
  Ok (merge_sort str_le (omap id ds)).

Definition build_statement (by_id : gmap ActionID Action) (reachable : gset ActionID) (a : Action) : result ActionStatement :=
  let! ds := dependencies by_id reachable a in
  let! cf := a_control_flow a in
  let! inputs := a_inputs a in
  let! inter := (if a_is_interactive a then a_interaction a else Ok VNone) in
  let! args := (if truthy inputs then match inputs with VDict d => Ok d | _ => raise ValidationError "args" end else Ok []) in
  let stmt := MkAction (a_ref a) "" (a_type a) args ds inter (cf_run_if cf) (cf_for_each cf) (cf_retry_policy cf)
                (cf_start_delay cf) (cf_wait_until cf) (cf_join_strategy cf) (cf_environment cf) (cf_mask_output cf) in
  if fields_ok stmt then validate_interaction stmt else raise ValidationError "ActionStatement".

(** [None] is only the (impossible) exhaustion of the search's fuel. *)
Definition build_action_statements_from_actions (actions : list Action) : result (option (list ActionStatement)) :=
  let! reachable := get_reachable_action_ids actions in
  match reachable with
  | None => Ok None
  | Some reachable =>
      let! stmts := rmap (build_statement (id2action actions) reachable)
                      (filter (fun a => a_id a ∈ reachable) actions) in
      Ok (Some stmts)
  end.
End Build.

(** ** Correctness *)

Section BuildFacts.
Variable parse_id : string -> option ActionID.
Variable fields_ok : ActionStatement -> bool.
Variable actions : list Action.

(** The edges of the editor's graph, with the action they enter. *)
Definition incoming : list (ActionID * val) := flat_map (fun a => map (pair (a_id a)) (upstream_edges a)) actions.

Definition from_trigger (e : UpstreamEdgeData) : bool :=
  match source_type e with Some trigger => true | Some udf => false | None => starts_with "trigger-" (source_id e) end.

(** [t] has an edge from the trigger. *)
Definition rooted (t : ActionID) : Prop :=
  exists ed e, (t, ed) ∈ incoming /\ validate_edge ed = Ok e /\ source_id e <> "" /\ from_trigger e = true.

(** [t] has an edge from the action [s]. *)
Definition feeds (s t : ActionID) : Prop :=
  exists ed e, (t, ed) ∈ incoming /\ validate_edge ed = Ok e /\ source_id e <> "" /\ from_trigger e = false /\
    parse_id (source_id e) = Some s /\ s ∈ ids actions.

Lemma rfor_nested {X K Y S} (k : X -> K) (f : K -> Y -> S -> result S) (g : X -> list Y) l s :
  rfor (fun x s => rfor (f (k x)) (g x) s) l s = rfor (fun p s => f p.1 p.2 s) (flat_map (fun x => map (pair (k x)) (g x)) l) s.
Proof.
  revert s; induction l as [|x l IH]; intros s; simpl; [done|]. rewrite rfor_app.
  assert (forall ys s, rfor (fun p s => f p.1 p.2 s) (map (pair (k x)) ys) s = rfor (f (k x)) ys s) as ->.
  { induction ys as [|y ys IHy]; intros s'; simpl; [done|]. destruct (f (k x) y s'); simpl; auto. }
  destruct (rfor (f (k x)) (g x) s); simpl; auto.
Qed.

Lemma id2action_spec x a : id2action actions !! x = Some a -> a ∈ actions /\ a_id a = x.
Proof.
  unfold id2action. assert (forall l (m : gmap ActionID Action), foldl (fun m a => <[a_id a := a]> m) m l !! x = Some a ->
    (a ∈ l /\ a_id a = x) \/ m !! x = Some a) as H.
  { induction l as [|b l IH]; intros m; simpl; [by right|]. intros [[Ha Hx]|Hm]%IH; [left; split; [by right|done]|].
    destruct (decide (a_id b = x)) as [<-|Hne].
    - rewrite lookup_insert_eq in Hm. injection Hm as <-. left. by split; [left|].
    - rewrite lookup_insert_ne in Hm by done. by right. }
  intros [?|Hx]%H; [done|]. by rewrite lookup_empty in Hx.
Qed.

Lemma id2action_dom x : x ∈ dom (id2action actions) <-> x ∈ ids actions.
Proof.
  unfold ids. rewrite elem_of_list_to_set, elem_of_dom. split.
  - intros [a Ha]. apply id2action_spec in Ha as [Ha <-]. apply list_elem_of_In, in_map, list_elem_of_In, Ha.
  - unfold id2action. assert (forall l (m : gmap ActionID Action), is_Some (m !! x) \/ x ∈ map a_id l ->
      is_Some (foldl (fun m a => <[a_id a := a]> m) m l !! x)) as H.
    { induction l as [|b l IH]; intros m Hm; simpl in *; [destruct Hm as [|Hm]; [done|by apply not_elem_of_nil in Hm]|].
      apply IH. destruct (decide (a_id b = x)) as [<-|Hne]; [left; by rewrite lookup_insert_eq|].
      rewrite lookup_insert_ne by done. rewrite elem_of_cons in Hm. naive_solver. }
    intros Hx. apply H. by right.
Qed.

Lemma id2action_lookup a : NoDup (map a_id actions) -> a ∈ actions -> id2action actions !! a_id a = Some a.
Proof.
  intros Hnd Hin. assert (is_Some (id2action actions !! a_id a)) as [b Hb].
  { apply elem_of_dom, id2action_dom. unfold ids. apply elem_of_list_to_set, list_elem_of_In, in_map, list_elem_of_In, Hin. }
  rewrite Hb. f_equal. apply id2action_spec in Hb as [Hb Hid]. apply list_elem_of_lookup in Hb as [j Hj], Hin as [k Hk].
  assert (j = k) as ->; [|congruence]. eapply (NoDup_lookup (map a_id actions) j k (a_id b)); [done|..];
    rewrite list_lookup_fmap; [by rewrite Hj|rewrite Hk; simpl; by f_equal].
Qed.

(** What the scan of the edges has collected after the edges in [l]. *)
Definition scanned (l : list (ActionID * val)) (sc : EdgeScan) : Prop :=
  (forall t, t ∈ trigger_roots sc <-> exists ed e, (t, ed) ∈ l /\ validate_edge ed = Ok e /\ source_id e <> "" /\ from_trigger e = true) /\
  (forall s t, t ∈ default ∅ (adjacency sc !! s) <-> exists ed e, (t, ed) ∈ l /\ validate_edge ed = Ok e /\ source_id e <> "" /\
     from_trigger e = false /\ parse_id (source_id e) = Some s /\ s ∈ ids actions).

Lemma scan_edge_spec l t ed sc sc' :
  scanned l sc -> scan_edge parse_id actions t ed sc = Ok sc' -> scanned (l ++ [(t, ed)]) sc'.
Proof.
  intros [Hr Ha] H. unfold scan_edge in H. apply rbind_Ok in H as (e & He & H). change (match source_type e with
    Some trigger => true | Some udf => false | None => starts_with "trigger-" (source_id e) end) with (from_trigger e) in H.
  assert (forall P : ActionID -> val -> UpstreamEdgeData -> Prop, forall x,
    (exists ed' e', (x, ed') ∈ l ++ [(t, ed)] /\ validate_edge ed' = Ok e' /\ P x ed' e') <->
    (exists ed' e', (x, ed') ∈ l /\ validate_edge ed' = Ok e' /\ P x ed' e') \/ (x = t /\ P t ed e)) as Hsplit.
  { intros P x. split.
    - intros (ed' & e' & [Hl|Hl]%elem_of_app & Hv & HP); [left; eauto|]. apply list_elem_of_singleton in Hl.
      injection Hl as -> ->. right. split; [done|]. congruence.
    - intros [(ed' & e' & Hl & Hv & HP)|[-> HP]]; [exists ed', e'|exists ed, e]; rewrite elem_of_app, list_elem_of_singleton; eauto. }
  split; [intros x|intros s x]; [rewrite (Hsplit (fun _ _ e => source_id e <> "" /\ from_trigger e = true)), <- Hr
    |rewrite (Hsplit (fun _ _ e => source_id e <> "" /\ from_trigger e = false /\ parse_id (source_id e) = Some s /\ s ∈ ids actions)), <- Ha].
  all: destruct (decide (source_id e = "")) as [Hs|Hs]; [injection H as <-; naive_solver|].
  all: destruct (from_trigger e) eqn:Ef; [injection H as <-; simpl; set_solver|].
  all: destruct (parse_id (source_id e)) as [src|]; [|injection H as <-; naive_solver].
  all: case_decide as Hd; rewrite id2action_dom in Hd; injection H as <-; simpl; [|naive_solver].
  - naive_solver.
  - destruct (decide (src = s)) as [<-|Hne].
    + rewrite lookup_insert_eq. simpl. set_solver.
    + rewrite lookup_insert_ne by done. naive_solver.
Qed.

Lemma scan_edges_spec sc : scan_edges parse_id actions = Ok sc ->
  (forall t, t ∈ trigger_roots sc <-> rooted t) /\ (forall s t, t ∈ targets sc s <-> feeds s t).
Proof.
  unfold scan_edges. rewrite (rfor_nested a_id (scan_edge parse_id actions) upstream_edges). fold incoming.
  intros H. assert (scanned incoming sc) as [Hr Ha].
  { apply (rfor_inv scanned (fun p sc => scan_edge parse_id actions p.1 p.2 sc) incoming (MkScan ∅ ∅) sc); [..|done].
    - split; [intros t|intros s t]; simpl; rewrite ?lookup_empty; set_solver.
    - intros l [t ed] s1 s2 Hs H1. by eapply scan_edge_spec. }
  split; [done|]. intros s t. unfold targets. rewrite elem_of_elements. apply Ha.
Qed.

(** ** Reachability *)

Lemma incoming_ids (t : ActionID) (ed : val) : (t, ed) ∈ incoming -> t ∈ ids actions.
Proof.
  unfold incoming, ids. rewrite elem_of_flat_map, elem_of_list_to_set. intros (a & Ha & (x & [= -> ->] & _)%list_elem_of_fmap).
  apply list_elem_of_In, in_map, list_elem_of_In, Ha.
Qed.

(** The actions that are built: those reachable from the trigger, or all when
    nothing is connected to it. *)
Definition kept (x : ActionID) : Prop :=
  ((exists r, rooted r) /\ exists r, rooted r /\ rtc feeds r x) \/ ((~ exists r, rooted r) /\ x ∈ ids actions).

Lemma reachable_spec r : get_reachable_action_ids parse_id actions = Ok r ->
  exists R, r = Some R /\ forall x, x ∈ R <-> kept x.
Proof.
  unfold get_reachable_action_ids. intros H. apply rbind_Ok in H as (sc & Hsc & H). injection H as <-.
  apply scan_edges_spec in Hsc as [Hr Ht]. case_decide as He.
  - exists (dom (id2action actions)). split; [done|]. intros x. rewrite id2action_dom. unfold kept.
    assert (~ exists r, rooted r) as Hno. { intros [r Hr']. apply Hr in Hr'. set_solver. } naive_solver.
  - assert (exists r, rooted r) as Hex.
    { destruct (set_choose_L _ He) as [r Hr']. exists r. by apply Hr. }
    assert (forall x, x ∈ trigger_roots sc -> x ∈ ids actions) as Hroots.
    { intros x (ed & e & Hin & _)%Hr. by eapply incoming_ids. }
    assert (size (ids actions) <= length actions)%nat as Hsz.
    { rewrite <- (length_map a_id actions). apply submseteq_length, NoDup_submseteq; [apply NoDup_elements|].
      intros x. rewrite elem_of_elements. unfold ids. by rewrite elem_of_list_to_set. }
    destruct (bfs_fuel (targets sc) (elements (ids actions)) (2 * length actions) (elements (trigger_roots sc)) (trigger_roots sc)) as [R HR].
    + apply NoDup_elements.
    + intros x. rewrite !elem_of_elements. apply Hroots.
    + intros x y _. unfold step_to. rewrite Ht, elem_of_elements. intros (ed & e & Hin & _). by eapply incoming_ids.
    + assert (length (elements (trigger_roots sc)) <= size (ids actions))%nat.
      { apply (subseteq_size (trigger_roots sc)). exact Hroots. }
      assert (unseen (elements (ids actions)) (trigger_roots sc) <= size (ids actions))%nat by apply length_filter. lia.
    + exists R. split; [done|]. intros x. rewrite <- (list_to_set_elements_L (trigger_roots sc)) in HR at 2.
      rewrite (bfs_reach (targets sc) _ R _ HR x). unfold kept. split.
      * intros (r & Hr1 & Hx). left. split; [done|]. exists r. rewrite elem_of_elements, Hr in Hr1. split; [done|].
        eapply rtc_subrel; [|exact Hx]. intros a b. apply Ht.
      * intros [[_ (r & Hr1 & Hx)]|[Hno _]]; [|done]. exists r. rewrite elem_of_elements, Hr. split; [done|].
        eapply rtc_subrel; [|exact Hx]. intros a b. apply Ht.
Qed.

(** ** Statements *)

(** The dependency of an edge from the action [src]. *)
Definition dep_of (e : UpstreamEdgeData) (src : Action) : string :=
  match default EdgeSUCCESS (source_handle e) with
  | EdgeERROR => dep_from_edge_components (a_ref src) EdgeERROR
  | EdgeSUCCESS => a_ref src
  end.

(** [d] is the dependency of one of the edges [eds], from an action in [R]. *)
Definition depends_via (R : gset ActionID) (eds : list val) (d : string) : Prop :=
  exists ed e src, ed ∈ eds /\ validate_edge ed = Ok e /\ source_id e <> "" /\
    parse_id (source_id e) = Some (a_id src) /\ src ∈ actions /\ a_id src ∈ R /\ d = dep_of e src.

Lemma dependencies_spec R a ds : NoDup (map a_id actions) ->
  dependencies parse_id (id2action actions) R a = Ok ds ->
  Sorted str_le ds /\ forall d, d ∈ ds <-> depends_via R (upstream_edges a) d.
Proof.
  intros Hnd H. unfold dependencies in H. apply rbind_Ok in H as (os & Hos & H). injection H as <-.
  split; [apply Sorted_merge_sort; apply _|]. intros d. rewrite merge_sort_Permutation, list_elem_of_omap.
  apply rmap_Ok in Hos. unfold depends_via. split.
  - intros (o & Ho & Hd). unfold id in Hd. subst o. apply list_elem_of_lookup in Ho as [i Hi].
    destruct (Forall2_lookup_r _ _ _ _ _ Hos Hi) as (ed & Hed & H). apply list_elem_of_lookup_2 in Hed.
    unfold dependency in H. apply rbind_Ok in H as (e & He & H). case_decide; [done|].
    destruct (parse_id (source_id e)) as [src|] eqn:Ep; [|done]. destruct (id2action actions !! src) as [b|] eqn:Eb; [|done].
    case_decide; [|done]. apply id2action_spec in Eb as [Hb <-]. injection H as <-. exists ed, e, b. done.
  - intros (ed & e & src & Hed & He & Hs & Hp & Hin & HR & ->). apply list_elem_of_lookup in Hed as [i Hi].
    destruct (Forall2_lookup_l _ _ _ _ _ Hos Hi) as (o & Ho & H). exists o. split; [by eapply list_elem_of_lookup_2|].
    unfold dependency in H. rewrite He in H. simpl in H. rewrite decide_False, Hp in H by done.
    rewrite (id2action_lookup src Hnd Hin), decide_True in H by done. by injection H as <-.
Qed.

Lemma build_statement_spec R a s : NoDup (map a_id actions) ->
  build_statement parse_id fields_ok (id2action actions) R a = Ok s ->
  ref s = a_ref a /\ Sorted str_le (depends_on s) /\ forall d, d ∈ depends_on s <-> depends_via R (upstream_edges a) d.
Proof.
  intros Hnd H. unfold build_statement in H. apply rbind_Ok in H as (ds & Hds & H).
  apply dependencies_spec in Hds; [|done]. repeat (apply rbind_Ok in H as (? & _ & H)).
  destruct (fields_ok _); [|done]. unfold validate_interaction in H. destruct (_ && _); [done|]. by injection H as <-.
Qed.

Lemma dep_of_components e src : has_char "." (a_ref src) = false ->
  exists t, edge_components_from_dep (dep_of e src) = Ok (a_ref src, t).
Proof.
  intros Hd. unfold dep_of. destruct (default EdgeSUCCESS (source_handle e)); [|eexists; by apply edge_components_of_dep].
  exists EdgeSUCCESS. unfold edge_components_from_dep. by rewrite (proj2 (split_first_None _ _) Hd).
Qed.

(** When every dependency parses to a source in [valid], so do the sources. *)
Lemma dependency_sources_within (stmts : list ActionStatement) (valid : gset string) :
  (forall s d, s ∈ stmts -> d ∈ depends_on s -> exists src t, edge_components_from_dep d = Ok (src, t) /\ src ∈ valid) ->
  exists deps, dependency_sources stmts = Ok deps /\ deps ⊆ valid.
Proof.
  intros H. unfold dependency_sources. rewrite (rfor_nested id (fun _ dep deps =>
    match edge_components_from_dep dep with
    | Ok (src, _) => Ok ({[ src ]} ∪ deps) | Err _ => dsl_error "Invalid depends_on ref" end) depends_on).
  assert (forall (l : list (ActionStatement * string)) acc, acc ⊆ valid ->
    (forall p, p ∈ l -> exists src t, edge_components_from_dep p.2 = Ok (src, t) /\ src ∈ valid) ->
    exists deps, rfor (fun p deps => match edge_components_from_dep p.2 with
      | Ok (src, _) => Ok ({[ src ]} ∪ deps) | Err _ => dsl_error "Invalid depends_on ref" end) l acc = Ok deps /\ deps ⊆ valid) as Hg.
  { induction l as [|p l IH]; intros acc Hacc Hl; simpl; [by exists acc|].
    destruct (Hl p) as (src & t & -> & Hsrc); [by left|]. simpl. apply IH; [set_solver|]. intros q Hq. apply Hl. by right. }
  apply Hg; [set_solver|]. intros [s d] (s' & Hs & (d' & [= -> ->] & Hd)%list_elem_of_fmap)%elem_of_flat_map. by apply (H s').
Qed.

(** C40: building a definition from the editor's graph: the construction always
    terminates; exactly the actions reachable from the trigger are built, in their
    order (all of them when nothing is connected to the trigger); the dependencies
    of a statement are, sorted, those of its edges from built actions, so that
    every dependency names a statement of the definition and the definition never
    fails the validation of its dependencies. *)
Theorem built_definition_closed (r : option (list ActionStatement))
    (Hids : NoDup (map a_id actions))
    (Hrefs : forall a, a ∈ actions -> has_char "." (a_ref a) = false)
    (Hbuild : build_action_statements_from_actions parse_id fields_ok actions = Ok r) :
  exists stmts (R : gset ActionID),
    r = Some stmts /\ (forall x, x ∈ R <-> kept x) /\
    Forall2 (fun a s => ref s = a_ref a /\ Sorted str_le (depends_on s) /\
        forall d, d ∈ depends_on s <-> depends_via R (upstream_edges a) d)
      (filter (fun a => a_id a ∈ R) actions) stmts /\
    exists deps, dependency_sources stmts = Ok deps /\ deps ⊆ list_to_set (refs stmts).
Proof.
  unfold build_action_statements_from_actions in Hbuild. apply rbind_Ok in Hbuild as (o & Ho & H).
  apply reachable_spec in Ho as (R & -> & HR). apply rbind_Ok in H as (stmts & Hs & H). injection H as <-.
  exists stmts, R. split; [done|]. split; [done|]. apply rmap_Ok in Hs.
  assert (Forall2 (fun a s => ref s = a_ref a /\ Sorted str_le (depends_on s) /\
        forall d, d ∈ depends_on s <-> depends_via R (upstream_edges a) d) (filter (fun a => a_id a ∈ R) actions) stmts) as Hall.
  { eapply Forall2_impl; [exact Hs|]. intros a s. by apply build_statement_spec. }
  split; [done|]. apply dependency_sources_within. intros s d Hin Hd.
  apply list_elem_of_lookup in Hin as [i Hi]. destruct (Forall2_lookup_r _ _ _ _ _ Hall Hi) as (a & _ & _ & _ & Hdeps).
  destruct (proj1 (Hdeps d) Hd) as (ed & e & src & _ & _ & _ & _ & Hsrc & HsR & Hdd). subst d.
  destruct (dep_of_components e src (Hrefs src Hsrc)) as [t Ht]. exists (a_ref src), t. split; [done|].
  assert (src ∈ filter (fun a => a_id a ∈ R) actions) as [j Hj]%list_elem_of_lookup by (by apply list_elem_of_filter).
  destruct (Forall2_lookup_l _ _ _ _ _ Hall Hj) as (s' & Hs' & Hr & _). apply elem_of_list_to_set.
  unfold refs. apply list_elem_of_In, in_map_iff. exists s'. split; [done|]. by eapply list_elem_of_In, list_elem_of_lookup_2.
Qed.
End BuildFacts.

(** ** An example: an island is left out *)

Definition ex_edge (src : string) (handle : string) : val :=
  VDict [("source_id", VStr src); ("source_type", VStr "udf"); ("source_handle", VStr handle)].
Definition ex_action (id r : string) (edges : list val) : Action :=
  MkDbAction id r "core.http_request" (Ok VNone)
    (Ok (MkControlFlow None VNone JoinALL default_retry_policy (S754_zero false) None None false)) (Ok VNone) false edges.
Definition ex_actions_db : list Action :=
  [ex_action "1" "a" [VDict [("source_id", VStr "trigger-w")]]; ex_action "2" "b" [ex_edge "1" "error"; ex_edge "3" "success"];
   ex_action "3" "island" []].
Definition ex_built : option (list ActionStatement) :=
  match build_action_statements_from_actions Some (fun _ => true) ex_actions_db with Ok r => r | Err _ => None end.

Example ex_built_deps : (map (fun s => (ref s, depends_on s))) <$> ex_built = Some [("a", []); ("b", ["a.error"])].
Proof. vm_compute. reflexivity. Qed.

Lemma built_definition_closed_witness :
  exists stmts (R : gset ActionID),
    ex_built = Some stmts /\ (forall x, x ∈ R <-> kept Some ex_actions_db x) /\
    Forall2 (fun a s => ref s = a_ref a /\ Sorted str_le (depends_on s) /\
        forall d, d ∈ depends_on s <-> depends_via Some ex_actions_db R (upstream_edges a) d)
      (filter (fun a => a_id a ∈ R) ex_actions_db) stmts /\
    exists deps, dependency_sources stmts = Ok deps /\ deps ⊆ list_to_set (refs stmts).
Proof.
  apply (built_definition_closed Some (fun _ => true) ex_actions_db ex_built).
  - apply (bool_decide_unpack (NoDup ["1"; "2"; "3"])). vm_compute. exact I.
  - intros a. unfold ex_actions_db. rewrite !elem_of_cons. intros [->|[->|[->|Ha]]]; [reflexivity..|by apply not_elem_of_nil in Ha].
  - vm_compute. reflexivity.
Defined.
