(* ===== verification/Layout.v ===== *)
(** The automatic layout of a workflow ([auto_generate_layout] of
    [tracecat/workflow/management/layout.py]): rows by the depth of an action in the
    dependency graph, at most one row per action, and actions of a row side by side. *)

From S2P Require Import Prelude PyStr Base62 PyVal.

(** [WorkflowActionLayoutInput]. *)
Record LayoutInput := MkLayoutInput { li_ref : string; li_depends_on : list string }.

(** [GeneratedLayoutAction].  The coordinates are floats with integer values. *)
Record LayoutAction := MkLayoutAction { la_ref : string; la_x : Z; la_y : Z }.

Definition NODE_HEIGHT : Z := 300.
Definition NODE_WIDTH : Z := 300.

(** [d[k].append(x)] and [d.setdefault(k, []).append(x)]; the rows are keyed by depth. *)
Definition dep_source (dep : string) : string := match split_first "." dep with Some (src, _) => src | None => dep end.

Record Deps := MkDeps { dependents : list (string * list string); own_deps : list (string * list string) }.

Definition add_dep (ref dep : string) (d : Deps) : Deps :=
  match dget (dependents d) (dep_source dep) with
  | Some l => MkDeps (dset (dependents d) (dep_source dep) (l ++ [ref])) (own_deps d)
  | None => d
  end.

Definition add_action (d : Deps) (a : LayoutInput) : Deps :=
  foldl (fun d dep => add_dep (li_ref a) dep d) (MkDeps (dependents d) (dset (own_deps d) (li_ref a) (li_depends_on a))) (li_depends_on a).

Definition scan (actions : list LayoutInput) : Deps :=
  foldl add_action (MkDeps (foldl (fun d a => dset d (li_ref a) []) [] actions) []) actions.

(** The walk: [depth] is a dict in the order of insertion. *)
Definition visit_child (max_depth : Z) (ref : string) (s : list (string * Z) * list string) (child : string)
    : list (string * Z) * list string :=
  let '(depth, queue) := s in
  let new_depth := default 0 (dget depth ref) + 1 in
  if max_depth <? new_depth then s
  else
    match dget depth child with
    | Some d => if d <? new_depth then (dset depth child new_depth, queue ++ [child]) else s
    | None => (dset depth child new_depth, queue ++ [child])
    end.

Fixpoint walk (fuel : nat) (children : string -> list string) (max_depth : Z) (depth : list (string * Z)) (queue : list string)
    : option (list (string * Z)) :=
  match queue with
  | [] => Some depth
  | ref :: queue' =>
      match fuel with
      | O => None
      | S fuel' =>
          let '(depth', queue'') := foldl (visit_child max_depth ref) (depth, queue') (children ref) in
          walk fuel' children max_depth depth' queue''
      end
  end.

(** [max(values, default=-1)]. *)
Definition max_value (depth : list (string * Z)) : Z := foldr Z.max (-1) (map snd depth).

(** The actions the walk did not reach come below, one per row. *)
Definition place_rest (actions : list LayoutInput) (depth : list (string * Z)) : list (string * Z) :=
  if (length depth <? length actions)%nat then
    (foldl (fun '(depth, next_depth) a =>
       match dget depth (li_ref a) with
       | Some _ => (depth, next_depth)
       | None => (dset depth (li_ref a) next_depth, next_depth + 1)
       end) (depth, max_value depth + 1) actions).1
  else depth.

Definition layout_fuel (actions : list LayoutInput) : nat := (length actions * S (length actions))%nat.

Definition depths (actions : list LayoutInput) : option (list (string * Z)) :=
  let d := scan actions in
  let roots := map fst (List.filter (fun kv => match kv.2 with [] => true | _ => false end) (own_deps d)) in
  place_rest actions <$>
    match roots with
    | [] => Some (foldl (fun depth '(i, a) => dset depth (li_ref a) i) [] (zip (seqZ 0 (Z.of_nat (length actions))) actions))
    | _ =>
        let max_depth := Z.max (Z.of_nat (length actions) - 1) 0 in
        walk (layout_fuel actions) (fun ref => default [] (dget (dependents d) ref)) max_depth
          (foldl (fun depth r => dset depth r 0) [] roots) roots
    end.

(** A row, from left to right. *)
Definition place_row (d : Z) (refs_in_row : list string) : list LayoutAction :=
  let start_x := - ((Z.of_nat (length refs_in_row) - 1) * NODE_WIDTH) / 2 in
  imap (fun i ref => MkLayoutAction ref (start_x + Z.of_nat i * NODE_WIDTH) ((d + 1) * NODE_HEIGHT)) refs_in_row.

Definition layout_rows (depth : list (string * Z)) : list Z := merge_sort Z.le (remove_dups (map snd depth)).
Definition row_refs (depth : list (string * Z)) (d : Z) : list string :=
  merge_sort str_le (map fst (List.filter (fun kv => bool_decide (kv.2 = d)) depth)).

(** The trigger is at the origin. *)
Definition auto_generate_layout (actions : list LayoutInput) : option (list LayoutAction) :=
  (fun depth => flat_map (fun d => place_row d (row_refs depth d)) (layout_rows depth)) <$> depths actions.
