(* ===== verification/LayoutFacts.v ===== *)
(** The layout ends, also on cyclic graphs; it places every action once, no two in the same
    position, and in an acyclic workflow every action below what it depends on. *)

From S2P Require Import Prelude PyStr Base62 PyVal Layout.

(** ** The graph *)

Section Scan.
Context (actions : list LayoutInput).

Abbreviation refs := (map li_ref actions).

(** [c] depends on [r]. *)
Definition feeds_into (r c : string) : Prop :=
  r ∈ refs /\ exists a dep, a ∈ actions /\ li_ref a = c /\ dep ∈ li_depends_on a /\ dep_source dep = r.

Definition children (r : string) : list string := default [] (dget (dependents (scan actions)) r).

(** The dependents recorded so far: [done] holds the pairs of the dependencies read. *)
Definition recorded (done_ : list (string * string)) (d : Deps) : Prop :=
  (forall r, r ∈ map fst (dependents d) <-> r ∈ refs) /\
  forall r c, c ∈ default [] (dget (dependents d) r) <-> r ∈ refs /\ (r, c) ∈ done_.

Lemma add_dep_recorded done_ d ref dep : recorded done_ d -> recorded (done_ ++ [(dep_source dep, ref)]) (add_dep ref dep d).
Proof.
  intros [Hk Hc]. unfold add_dep. destruct (dget (dependents d) (dep_source dep)) as [l|] eqn:E.
  - assert (dep_source dep ∈ refs) as Hin by (apply Hk, dget_is_Some; by eexists). split; simpl.
    + intros r. rewrite dset_in, Hk. split; [intros [->|?]; done|auto].
    + intros r c. destruct (decide (dep_source dep = r)) as [<-|Hne].
      * rewrite dget_dset_eq. simpl. specialize (Hc (dep_source dep) c). rewrite E in Hc. simpl in Hc.
        rewrite !elem_of_app, Hc, !list_elem_of_singleton. naive_solver.
      * rewrite dget_dset_ne, Hc, elem_of_app, list_elem_of_singleton by done. naive_solver.
  - assert (dep_source dep ∉ refs) as Hin by (intros Hin; apply Hk, dget_is_Some in Hin as [? Hin]; congruence).
    split; [done|]. intros r c. rewrite Hc, elem_of_app, list_elem_of_singleton. naive_solver.
Qed.

Definition pairs (l : list LayoutInput) : list (string * string) :=
  flat_map (fun a => map (fun dep => (dep_source dep, li_ref a)) (li_depends_on a)) l.

Lemma add_action_recorded done_ d a : recorded done_ d -> recorded (done_ ++ pairs [a]) (add_action d a).
Proof.
  intros H. unfold add_action, pairs. simpl. rewrite app_nil_r.
  assert (recorded done_ (MkDeps (dependents d) (dset (own_deps d) (li_ref a) (li_depends_on a)))) as H0 by done.
  revert H0. generalize (MkDeps (dependents d) (dset (own_deps d) (li_ref a) (li_depends_on a))). clear H. revert done_.
  induction (li_depends_on a) as [|dep l IH]; intros done_ d0 H0; simpl; [by rewrite app_nil_r|].
  rewrite (cons_middle _ done_), app_assoc. apply IH. by apply add_dep_recorded.
Qed.

Lemma add_action_own d a : own_deps (add_action d a) = dset (own_deps d) (li_ref a) (li_depends_on a).
Proof.
  unfold add_action. assert (forall l d, own_deps (foldl (fun d dep => add_dep (li_ref a) dep d) d l) = own_deps d) as H; [|apply H].
  induction l as [|dep l IH]; intros d0; simpl; [done|]. rewrite IH. unfold add_dep. by destruct (dget _ _).
Qed.

Lemma scan_recorded : recorded (pairs actions) (scan actions).
Proof.
  unfold scan. set (d0 := MkDeps _ _). assert (recorded [] d0) as H0.
  { destruct (foldl_dset_keys li_ref (fun _ => @nil string) actions []) as [_ Hk]. split; simpl.
    - intros r. rewrite Hk. set_solver.
    - intros r c. split; [|by intros [_ ?%elem_of_nil]]. intros Hc. exfalso. revert Hc.
      assert (forall l (d : list (string * list string)), (forall r, default [] (dget d r) = []) ->
        default [] (dget (foldl (fun d a => dset d (li_ref a) []) d l) r) = []) as Hl; [|by rewrite Hl; [apply not_elem_of_nil|]].
      induction l as [|a l IH]; intros d Hd; simpl; [done|]. apply IH. intros r'.
      destruct (decide (li_ref a = r')) as [<-|Hne]; [by rewrite dget_dset_eq|by rewrite dget_dset_ne]. }
  assert (forall l done_ d, recorded done_ d -> recorded (done_ ++ pairs l) (foldl add_action d l)) as H; [|exact (H actions [] d0 H0)].
  induction l as [|a l IH]; intros done_ d Hd; simpl; [by rewrite app_nil_r|].
  pose proof (IH _ _ (add_action_recorded done_ d a Hd)) as H. unfold pairs in *. simpl in *. by rewrite app_nil_r, <- app_assoc in H.
Qed.

Lemma children_spec r c : c ∈ children r <-> feeds_into r c.
Proof.
  unfold children. destruct scan_recorded as [_ ->]. unfold feeds_into, pairs. rewrite elem_of_flat_map.
  split; intros [Hr H]; (split; [done|]).
  - destruct H as (a & Ha & (dep & [= -> ->] & Hd)%list_elem_of_fmap). eauto 10.
  - destruct H as (a & dep & Ha & <- & Hd & <-). exists a. split; [done|]. apply list_elem_of_fmap. eauto.
Qed.

Lemma own_deps_scan : NoDup refs -> own_deps (scan actions) = map (fun a => (li_ref a, li_depends_on a)) actions.
Proof.
  intros Hnd. unfold scan. set (d0 := MkDeps _ _).
  assert (forall l1 l2 d, actions = l1 ++ l2 -> own_deps d = map (fun a => (li_ref a, li_depends_on a)) l1 ->
    own_deps (foldl add_action d l2) = map (fun a => (li_ref a, li_depends_on a)) actions) as H; [|by apply (H [] actions d0)].
  intros l1 l2. revert l1. induction l2 as [|a l2 IH]; intros l1 d Hl Hd; simpl; [by rewrite Hl, app_nil_r|].
  apply (IH (l1 ++ [a])); [by rewrite Hl, <- app_assoc|]. rewrite add_action_own, Hd, map_app. simpl.
  rewrite Hl, map_app in Hnd. apply NoDup_app in Hnd as (_ & Hnd & _).
  assert (li_ref a ∉ map li_ref l1) as Ha by (intros Hin; apply (Hnd _ Hin); by left).
  clear -Ha. induction l1 as [|b l1 IH]; simpl; [done|]. simpl in Ha. rewrite decide_False by set_solver. f_equal. apply IH. set_solver.
Qed.

(** The actions without dependencies. *)
Definition layout_roots : list string := map fst (List.filter (fun kv => match kv.2 with [] => true | _ => false end) (own_deps (scan actions))).

Lemma roots_spec r : NoDup refs -> r ∈ layout_roots <-> exists a, a ∈ actions /\ li_ref a = r /\ li_depends_on a = [].
Proof.
  intros Hnd. unfold layout_roots. rewrite (own_deps_scan Hnd), list_elem_of_fmap. split.
  - intros ([k l] & -> & H). apply list_elem_of_In, filter_In in H as [Hin Hl]. simpl in *.
    apply in_map_iff in Hin as (a & [= <- <-] & Ha). exists a. split; [by apply list_elem_of_In|]. split; [done|]. by destruct (li_depends_on a).
  - intros (a & Ha & <- & Hl). exists (li_ref a, []). split; [done|]. apply list_elem_of_In, filter_In. split; [|done].
    apply in_map_iff. exists a. rewrite Hl. split; [done|]. by apply list_elem_of_In.
Qed.

Lemma roots_nodup : NoDup refs -> NoDup layout_roots.
Proof.
  intros Hnd. unfold layout_roots. rewrite (own_deps_scan Hnd). clear -Hnd. induction actions as [|a l IH]; simpl; [constructor|].
  inversion Hnd as [|? ? Ha Hl]; subst. destruct (li_depends_on a); simpl; [constructor; [|by apply IH]|by apply IH].
  intros ([k d] & Hk & Hin)%list_elem_of_fmap. simpl in Hk. apply Ha. apply list_elem_of_In, filter_In in Hin as [Hin _].
  apply in_map_iff in Hin as (b & [= <- <-] & Hb). rewrite Hk. apply list_elem_of_fmap. exists b. split; [done|]. by apply list_elem_of_In.
Qed.
End Scan.

(** ** The walk *)

Section Walk.
Context (kids : string -> list string) (nodes roots : list string) (M : Z).
Hypothesis Hnodes : NoDup nodes.
Hypothesis Hkids : forall r c, c ∈ kids r -> c ∈ nodes.
Hypothesis HM : 0 <= M.

Definition kid_of (r c : string) : Prop := c ∈ kids r.

(** How much deeper the nodes may still get. *)
Definition slack (depth : list (string * Z)) (x : string) : nat :=
  match dget depth x with None => Z.to_nat (M + 1) | Some d => Z.to_nat (M - d) end.
Definition total_slack (depth : list (string * Z)) : nat := sum_list_with (slack depth) nodes.

(** [busy x] nodes may have children that are not deep enough. *)
Record walk_inv (busy : string -> Prop) (depth : list (string * Z)) (queue : list string) : Prop := {
  wi_keys : NoDup (map fst depth);
  wi_depth : forall x d, dget depth x = Some d -> 0 <= d <= M /\ x ∈ nodes /\ exists r, r ∈ roots /\ nsteps kid_of (Z.to_nat d) r x;
  wi_queue : forall x, x ∈ queue -> is_Some (dget depth x);
  wi_relaxed : forall x d c, dget depth x = Some d -> x ∉ queue -> ~ busy x -> c ∈ kids x ->
    M < d + 1 \/ exists dc, dget depth c = Some dc /\ d + 1 <= dc }.

Lemma slack_dset depth x d : x ∈ nodes ->
  (total_slack (dset depth x d) + slack depth x = total_slack depth + Z.to_nat (M - d))%nat.
Proof.
  intros Hx. unfold total_slack. clear Hkids.
  assert (forall l, x ∉ l -> sum_list_with (slack (dset depth x d)) l = sum_list_with (slack depth) l) as Hout.
  { induction l as [|z l IH]; simpl; [done|]. intros [Hz Hl]%not_elem_of_cons. rewrite (IH Hl). f_equal.
    unfold slack. by rewrite dget_dset_ne by done. }
  induction Hnodes as [|y l Hy Hl IH]; [by apply elem_of_nil in Hx|]. simpl.
  apply elem_of_cons in Hx as [<-|Hx].
  - rewrite Hout by done. unfold slack at 1. rewrite dget_dset_eq. lia.
  - assert (slack (dset depth x d) y = slack depth y) as ->; [|specialize (IH Hl Hx); lia].
    unfold slack. rewrite dget_dset_ne; [done|]. intros ->. done.
Qed.

(** A node is put deeper. *)
Lemma deepen busy depth queue ref d c : walk_inv busy depth queue -> dget depth ref = Some d -> busy ref -> c ∈ kids ref -> d + 1 <= M ->
  (forall dc, dget depth c = Some dc -> dc < d + 1) ->
  walk_inv busy (dset depth c (d + 1)) (queue ++ [c]) /\
  (total_slack (dset depth c (d + 1)%Z) + length (queue ++ [c]) <= total_slack depth + length queue)%nat.
Proof.
  intros [H1 H2 H3 H4] Hd Hb Hc HdM Hdc. assert (0 <= d <= M) as Hd0 by (by apply (H2 ref)). split.
  - split.
    + by apply dset_nodup.
    + intros x dx. destruct (decide (c = x)) as [<-|Hne]; [|rewrite dget_dset_ne by done; apply H2].
      rewrite dget_dset_eq. intros [= <-]. split; [lia|]. split; [by eapply Hkids|].
      destruct (H2 ref d Hd) as (_ & _ & r & Hr & Hs). exists r. split; [done|].
      replace (Z.to_nat (d + 1)) with (S (Z.to_nat d)) by lia. by eapply nsteps_r.
    + intros x Hx. destruct (decide (c = x)) as [<-|Hne]; [rewrite dget_dset_eq; by eexists|]. rewrite dget_dset_ne by done.
      apply elem_of_app in Hx as [Hx|Hx%list_elem_of_singleton]; [by apply H3|done].
    + intros x dx y. rewrite elem_of_app, list_elem_of_singleton. destruct (decide (c = x)) as [<-|Hne]; [intros _ Hn; tauto|].
      rewrite dget_dset_ne by done. intros Hx Hn Hbx Hy. destruct (H4 x dx y Hx ltac:(tauto) Hbx Hy) as [?|(dy & Hdy & Hle)]; [by left|right].
      destruct (decide (c = y)) as [<-|Hny]; [|exists dy; by rewrite dget_dset_ne]. exists (d + 1). rewrite dget_dset_eq.
      split; [done|]. apply Hdc in Hdy. lia.
  - pose proof (slack_dset depth c (d + 1) (Hkids _ _ Hc)) as Hs. rewrite length_app. simpl.
    assert (Z.to_nat (M - (d + 1)) < slack depth c)%nat; [|lia].
    unfold slack. destruct (dget depth c) as [dc|]; [specialize (Hdc dc eq_refl)|]; lia.
Qed.

(** A child is visited: it is deep enough, or it is put deeper. *)
Definition deep (depth : list (string * Z)) (d : Z) (c : string) : Prop := M < d + 1 \/ exists dc, dget depth c = Some dc /\ d + 1 <= dc.

Lemma visit_cases ref d c depth queue : dget depth ref = Some d ->
  (visit_child M ref (depth, queue) c = (depth, queue) /\ deep depth d c) \/
  (visit_child M ref (depth, queue) c = (dset depth c (d + 1), queue ++ [c]) /\ d + 1 <= M /\
   forall dc, dget depth c = Some dc -> dc < d + 1).
Proof.
  intros Hd. unfold visit_child. rewrite Hd. cbn [from_option id].
  destruct (M <? d + 1) eqn:EM; [left; split; [done|]; left; by apply Z.ltb_lt|].
  apply Z.ltb_ge in EM. destruct (dget depth c) as [dc|] eqn:Ec; [|by right].
  destruct (dc <? d + 1) eqn:Edc.
  - right. split; [done|]. split; [done|]. intros dc' [= <-]. lia.
  - left. split; [done|]. right. exists dc. split; [done|lia].
Qed.

(** After the children [cs] of [ref], which was at [d0]. *)
Definition visited (ref : string) (d0 : Z) (cs : list string) (depth : list (string * Z)) (queue : list string) : Prop :=
  ref ∈ queue \/ dget depth ref = Some d0 /\ forall c, c ∈ cs -> deep depth d0 c.

Lemma visit_children ref d0 cs ps depth queue : (forall c, c ∈ cs -> c ∈ kids ref) ->
  is_Some (dget depth ref) -> walk_inv (fun x => x = ref) depth queue -> visited ref d0 ps depth queue ->
  exists depth' queue', foldl (visit_child M ref) (depth, queue) cs = (depth', queue') /\
    walk_inv (fun x => x = ref) depth' queue' /\ visited ref d0 (ps ++ cs) depth' queue' /\
    (total_slack depth' + length queue' <= total_slack depth + length queue)%nat /\
    (forall x, is_Some (dget depth x) -> is_Some (dget depth' x)).
Proof.
  revert ps depth queue. induction cs as [|c cs IH]; intros ps depth queue Hcs [d Hd] Hinv Hv; cbn [foldl].
  { exists depth, queue. rewrite app_nil_r. split; [done|]. split; [done|]. split; [done|]. split; [lia|done]. }
  assert (c ∈ kids ref) as Hc by (apply Hcs; by left).
  assert (forall x, x ∈ cs -> x ∈ kids ref) as Hcs' by (intros x Hx; apply Hcs; by right).
  rewrite (cons_middle c ps cs), app_assoc.
  destruct (visit_cases ref d c depth queue Hd) as [[-> Hdeep]|(-> & HdM & Hdc)].
  - apply IH; [done|by eexists|done|]. destruct Hv as [Hv|[Hr Hv]]; [by left|right]. split; [done|].
    intros x [Hx|Hx%list_elem_of_singleton]%elem_of_app; [by apply Hv|]. subst x. rewrite Hd in Hr. by injection Hr as <-.
  - destruct (deepen _ _ _ _ _ _ Hinv Hd eq_refl Hc HdM Hdc) as [Hinv1 Hm1].
    assert (forall x, is_Some (dget depth x) -> is_Some (dget (dset depth c (d + 1)) x)) as Hs.
    { intros x Hx. apply dget_is_Some, dset_in. right. by apply dget_is_Some. }
    destruct (IH (ps ++ [c]) (dset depth c (d + 1)) (queue ++ [c])) as (depth' & queue' & Hf & Hinv' & Hv' & Hm' & Hs'); [done|by apply Hs; eexists|done| |].
    + destruct (decide (c = ref)) as [->|Hne]; [left; apply elem_of_app; right; by apply list_elem_of_singleton|].
      destruct Hv as [Hv|[Hr Hv]]; [left; apply elem_of_app; by left|right]. rewrite Hd in Hr. injection Hr as <-.
      rewrite dget_dset_ne by done. split; [done|]. intros x Hx. destruct (decide (c = x)) as [<-|Hnx].
      * right. exists (d + 1). rewrite dget_dset_eq. split; [done|lia].
      * apply elem_of_app in Hx as [Hx|Hx%list_elem_of_singleton]; [|by subst x]. unfold deep. rewrite dget_dset_ne by done. by apply Hv.
    + exists depth', queue'. split; [done|]. split; [done|]. split; [done|]. split; [lia|]. intros x Hx. by apply Hs', Hs.
Qed.

(** The walk ends, with every child deep enough. *)
Lemma walk_ends fuel depth queue : walk_inv (fun _ => False) depth queue -> (total_slack depth + length queue <= fuel)%nat ->
  exists depth', walk fuel kids M depth queue = Some depth' /\ walk_inv (fun _ => False) depth' [] /\
    (forall x, is_Some (dget depth x) -> is_Some (dget depth' x)).
Proof.
  revert depth queue. induction fuel as [|fuel IH]; intros depth [|ref queue] Hinv Hf; simpl in *; [eauto|lia|eauto|].
  destruct Hinv as [H1 H2 H3 H4]. destruct (H3 ref ltac:(by left)) as [d Hd].
  assert (walk_inv (fun x => x = ref) depth queue) as Hinv.
  { split; [done|done|intros x Hx; apply H3; by right|]. intros x dx c Hx Hq Hb. apply H4; [done| |tauto].
    intros [->|?]%elem_of_cons; done. }
  destruct (visit_children ref d (kids ref) [] depth queue) as (depth' & queue' & -> & [I1 I2 I3 I4] & Hv & Hm & Hs); [done|by eexists|done| |].
  { right. split; [done|]. intros c Hc. by apply elem_of_nil in Hc. }
  destruct (IH depth' queue') as (depth2 & -> & Hinv2 & Hs2); [|lia|].
  - split; [done|done|done|]. intros x dx c Hx Hq _ Hc. destruct (decide (x = ref)) as [->|Hne]; [|by apply (I4 x)].
    destruct Hv as [Hv|[Hr Hv]]; [done|]. rewrite Hx in Hr. injection Hr as ->. by apply Hv.
  - exists depth2. split; [done|]. split; [done|]. intros x Hx. by apply Hs2, Hs.
Qed.

End Walk.

(** ** Paths of an acyclic graph *)

Section Acyclic.
Context {A : Type} (R : A -> A -> Prop).
Hypothesis Hacyclic : forall x, ~ tc R x x.

Lemma path_nodes k x y : nsteps R k x y -> exists l, length l = S k /\ NoDup l /\ (forall z, z ∈ l -> rtc R x z) /\
  (forall z, z ∈ l -> z = x \/ exists w, R w z).
Proof.
  revert x. induction k as [|k IH]; intros x Hs; inversion Hs as [|? ? x' ? Hx Hy]; subst.
  - exists [y]. split; [done|]. split; [apply NoDup_singleton|].
    split; intros z ->%list_elem_of_singleton; [done|by left].
  - destruct (IH x' Hy) as (l & Hl & Hnd & Hr & Hin). exists (x :: l). split; [simpl; congruence|]. split.
    + constructor; [|done]. intros Hxl. apply (Hacyclic x). eapply tc_rtc_r; [by apply tc_once|]. by apply Hr.
    + split; intros z [->|Hz]%elem_of_cons; [done|eapply rtc_l; [done|by apply Hr]|by left|].
      right. destruct (Hin z Hz) as [->|?]; [by exists x|done].
Qed.

(** So no path is longer than the nodes. *)
Lemma path_bound (nodes : list A) k x y : x ∈ nodes -> (forall w z, R w z -> z ∈ nodes) -> nsteps R k x y -> (S k <= length nodes)%nat.
Proof.
  intros Hx Hn Hs. destruct (path_nodes k x y Hs) as (l & <- & Hnd & _ & Hin).
  apply submseteq_length, NoDup_submseteq; [done|]. intros z Hz. destruct (Hin z Hz) as [->|[w Hw]]; [done|by eapply Hn].
Qed.
End Acyclic.

(** ** The rows *)

Lemma rows_partition {A} (key : A -> Z) (rows : list Z) (l : list A) : NoDup rows -> (forall x, x ∈ l -> key x ∈ rows) ->
  flat_map (fun d => List.filter (fun x => bool_decide (key x = d)) l) rows ≡ₚ l.
Proof.
  intros Hnd. induction l as [|x l IH]; intros Hin; simpl.
  { clear. induction rows; simpl; auto. }
  transitivity (x :: flat_map (fun d => List.filter (fun y => bool_decide (key y = d)) l) rows).
  2: { f_equiv. apply IH. intros y Hy. apply Hin. by right. }
  specialize (Hin x ltac:(by left)). clear IH.
  assert (forall rs, key x ∉ rs -> flat_map (fun d => if bool_decide (key x = d) then x :: List.filter (fun y => bool_decide (key y = d)) l
    else List.filter (fun y => bool_decide (key y = d)) l) rs = flat_map (fun d => List.filter (fun y => bool_decide (key y = d)) l) rs) as Hout.
  { induction rs as [|r rs IH]; simpl; [done|]. intros [Hr Hrs]%not_elem_of_cons. by rewrite bool_decide_eq_false_2, IH. }
  induction Hnd as [|r rs Hr Hrs IH]; [by apply elem_of_nil in Hin|]. simpl. case_bool_decide as Hk.
  - subst r. simpl. by rewrite Hout.
  - apply elem_of_cons in Hin as [Hin|Hin]; [done|]. rewrite (IH Hin). by rewrite Permutation_middle.
Qed.

Lemma flat_map_perm {A B} (f g : A -> list B) l : (forall x, x ∈ l -> f x ≡ₚ g x) -> flat_map f l ≡ₚ flat_map g l.
Proof.
  induction l as [|x l IH]; intros H; simpl; [done|]. rewrite (H x) by (by left). f_equiv. apply IH. intros y Hy. apply H. by right.
Qed.

Lemma row_refs_perm depth d : row_refs depth d ≡ₚ map fst (List.filter (fun kv => bool_decide (kv.2 = d)) depth).
Proof. apply merge_sort_Permutation. Qed.

Lemma layout_rows_spec depth : NoDup (layout_rows depth) /\ forall d, d ∈ layout_rows depth <-> d ∈ map snd depth.
Proof.
  unfold layout_rows. split; [rewrite merge_sort_Permutation; apply NoDup_remove_dups|].
  intros d. by rewrite merge_sort_Permutation, elem_of_remove_dups.
Qed.

Lemma place_row_refs d row : map la_ref (place_row d row) = row.
Proof. unfold place_row. generalize (- ((Z.of_nat (length row) - 1) * NODE_WIDTH) / 2). intros x.
  assert (forall i, map la_ref (imap (fun j ref => MkLayoutAction ref (x + Z.of_nat (i + j) * NODE_WIDTH) ((d + 1) * NODE_HEIGHT)) row) = row) as H; [|apply (H 0%nat)].
  induction row as [|r row IH]; intros i; simpl; [done|]. f_equal. rewrite <- (IH (S i)) at 2. f_equal. apply imap_ext. intros j r' _. simpl.
  by rewrite Nat.add_succ_r.
Qed.

Lemma place_row_in d row a : a ∈ place_row d row -> exists i, row !! i = Some (la_ref a) /\
  la_x a = - ((Z.of_nat (length row) - 1) * NODE_WIDTH) / 2 + Z.of_nat i * NODE_WIDTH /\ la_y a = (d + 1) * NODE_HEIGHT.
Proof.
  unfold place_row. intros [i Hi]%list_elem_of_lookup. rewrite list_lookup_imap in Hi. apply fmap_Some in Hi as (r & Hr & ->). by exists i.
Qed.

(** The placement of given depths. *)
Definition placed (depth : list (string * Z)) : list LayoutAction := flat_map (fun d => place_row d (row_refs depth d)) (layout_rows depth).

Lemma placed_refs depth : map la_ref (placed depth) ≡ₚ map fst depth.
Proof.
  destruct (layout_rows_spec depth) as [Hnd Hin]. unfold placed. rewrite !flat_map_concat_map, concat_map, map_map.
  rewrite <- flat_map_concat_map, (flat_map_perm _ (fun d => map fst (List.filter (fun kv => bool_decide (kv.2 = d)) depth))).
  - transitivity (map fst (flat_map (fun d => List.filter (fun kv => bool_decide (kv.2 = d)) depth) (layout_rows depth))).
    + by rewrite !flat_map_concat_map, concat_map, map_map.
    + f_equiv. apply rows_partition; [done|]. intros kv Hkv. apply Hin, list_elem_of_fmap. by exists kv.
  - intros d _. by rewrite place_row_refs, row_refs_perm.
Qed.

Lemma placed_in depth a : a ∈ placed depth -> exists d i, (la_ref a, d) ∈ depth /\ row_refs depth d !! i = Some (la_ref a) /\
  la_x a = - ((Z.of_nat (length (row_refs depth d)) - 1) * NODE_WIDTH) / 2 + Z.of_nat i * NODE_WIDTH /\ la_y a = (d + 1) * NODE_HEIGHT.
Proof.
  unfold placed. rewrite elem_of_flat_map. intros (d & _ & (i & Hi & Hx & Hy)%place_row_in). exists d, i. split; [|done].
  apply list_elem_of_lookup_2 in Hi. rewrite row_refs_perm in Hi. apply list_elem_of_fmap in Hi as ([k d'] & Hk & Hkd). simpl in Hk.
  apply list_elem_of_In, filter_In in Hkd as [Hin Hd]. apply bool_decide_eq_true in Hd. simpl in Hd. subst d'. rewrite Hk. by apply list_elem_of_In.
Qed.

(** No two actions share a position. *)
Lemma placed_apart depth a b : NoDup (map fst depth) -> a ∈ placed depth -> b ∈ placed depth -> la_x a = la_x b -> la_y a = la_y b -> a = b.
Proof.
  intros Hnd (d & i & _ & Hi & Hax & Hay)%placed_in (e & j & _ & Hj & Hbx & Hby)%placed_in Hx Hy.
  assert (d = e) as <- by (unfold NODE_HEIGHT in *; lia). assert (i = j) as <- by (unfold NODE_WIDTH in *; lia).
  rewrite Hi in Hj. injection Hj as Hr. destruct a, b; simpl in *; congruence.
Qed.

(** ** The depths *)

Section Layout.
Context (actions : list LayoutInput).
Hypothesis Hnd : NoDup (map li_ref actions).

Abbreviation refs := (map li_ref actions).
Abbreviation feeds := (feeds_into actions).

Lemma rest_fold l depth n : NoDup (map fst depth) ->
  let depth' := (foldl (fun '(depth, next_depth) a =>
    match dget depth (li_ref a) with Some _ => (depth, next_depth) | None => (dset depth (li_ref a) next_depth, next_depth + 1) end) (depth, n) l).1 in
  NoDup (map fst depth') /\ (forall k, k ∈ map fst depth' <-> k ∈ map fst depth \/ k ∈ map li_ref l) /\
  (forall k d, dget depth k = Some d -> dget depth' k = Some d).
Proof.
  revert depth n. induction l as [|a l IH]; intros depth n Hd; cbn [foldl]; [simpl; set_solver|].
  destruct (dget depth (li_ref a)) as [d|] eqn:E.
  - destruct (IH depth n Hd) as (H1 & H2 & H3). split; [done|]. split; [|done]. intros k. rewrite H2. simpl. rewrite elem_of_cons.
    split; [tauto|]. intros [?|[->|?]]; [by left| |by right]. left. apply dget_is_Some. by eexists.
  - destruct (IH (dset depth (li_ref a) n) (n + 1) ltac:(by apply dset_nodup)) as (H1 & H2 & H3). split; [done|]. split.
    + intros k. rewrite H2, dset_in. simpl. rewrite elem_of_cons. tauto.
    + intros k d Hk. apply H3. rewrite dget_dset_ne; [done|]. intros <-. congruence.
Qed.

Lemma place_rest_spec depth : NoDup (map fst depth) -> (forall k, k ∈ map fst depth -> k ∈ refs) ->
  NoDup (map fst (place_rest actions depth)) /\ map fst (place_rest actions depth) ≡ₚ refs /\
  (forall k d, dget depth k = Some d -> dget (place_rest actions depth) k = Some d).
Proof.
  intros Hd Hin. unfold place_rest. destruct (length depth <? length actions)%nat eqn:E.
  - destruct (rest_fold actions depth (max_value depth + 1) Hd) as (H1 & H2 & H3). split; [done|]. split; [|done].
    apply NoDup_Permutation; [done..|]. intros k. rewrite H2. split; [intros [?|?]; auto|auto].
  - apply Nat.ltb_ge in E. split; [done|]. split; [|done]. apply submseteq_length_Permutation.
    + by apply NoDup_submseteq.
    + by rewrite !length_map.
Qed.

(** The walk from the roots. *)
Definition walked (depth : list (string * Z)) : Prop :=
  walk_inv (children actions) refs (layout_roots actions) (Z.max (Z.of_nat (length actions) - 1) 0) (fun _ => False) depth [].

Lemma walk_roots :
  exists depth, walk (layout_fuel actions) (children actions) (Z.max (Z.of_nat (length actions) - 1) 0)
    (foldl (fun depth r => dset depth r 0) [] (layout_roots actions)) (layout_roots actions) = Some depth /\
  walked depth /\ forall r, r ∈ layout_roots actions -> is_Some (dget depth r).
Proof.
  set (M := Z.max (Z.of_nat (length actions) - 1) 0). set (d0 := foldl _ _ _).
  assert (forall r, r ∈ layout_roots actions -> r ∈ refs) as Hroots.
  { intros r (a & Ha & <- & _)%roots_spec; [|done]. apply list_elem_of_fmap. eauto. }
  assert (forall l d, (forall x v, dget d x = Some v -> v = 0) -> forall x v, dget (foldl (fun d r => dset d r 0) d l) x = Some v -> v = 0) as Hzero.
  { induction l as [|r l IH]; intros d Hd x v; simpl; [apply Hd|]. apply IH. intros y w.
    destruct (decide (r = y)) as [<-|Hne]; [rewrite dget_dset_eq; by intros [= <-]|rewrite dget_dset_ne by done; apply Hd]. }
  destruct (foldl_dset_keys (fun r : string => r) (fun _ => 0) (layout_roots actions) []) as [Hd0 Hk0].
  assert (forall x, is_Some (dget d0 x) <-> x ∈ layout_roots actions) as Hdom.
  { intros x. unfold d0. rewrite dget_is_Some, Hk0, map_id. set_solver. }
  destruct (walk_ends (children actions) refs (layout_roots actions) M Hnd) with (fuel := layout_fuel actions) (depth := d0) (queue := layout_roots actions)
    as (depth & Hw & Hinv & Hs).
  - intros r c Hc%children_spec. destruct Hc as (_ & a & dep & Ha & <- & _). apply list_elem_of_fmap. eauto.
  - lia.
  - split.
    + apply Hd0. constructor.
    + intros x d Hx. assert (x ∈ layout_roots actions) as Hr by (apply Hdom; by eexists). apply (Hzero _ []) in Hx as ->; [|done].
      split; [lia|]. split; [by apply Hroots|]. exists x. split; [done|constructor].
    + intros x Hx. by apply Hdom.
    + intros x d c Hx Hn. exfalso. apply Hn, Hdom. by eexists.
  - assert (total_slack refs M d0 <= length refs * Z.to_nat (M + 1))%nat as Hts.
    { unfold total_slack. clear -Hzero. induction refs as [|x l IH]; simpl; [lia|]. assert (slack M d0 x <= Z.to_nat (M + 1))%nat; [|lia].
      unfold slack. destruct (dget d0 x) as [d|] eqn:E; [|lia]. apply (Hzero _ []) in E as ->; [lia|done]. }
    assert (length (layout_roots actions) <= length refs)%nat as Hl by (by apply submseteq_length, NoDup_submseteq; [apply roots_nodup|]).
    rewrite length_map in *. unfold layout_fuel. destruct actions; [simpl in *; lia|]. simpl length in *. nia.
  - exists depth. split; [done|]. split; [done|]. intros r Hr. by apply Hs, Hdom.
Qed.

(** In an acyclic workflow whose dependencies all exist, the walk reaches every action. *)
Section Acyclic.
Hypothesis Hacyclic : forall r, ~ tc feeds r r.
Hypothesis Hsources : forall a dep, a ∈ actions -> dep ∈ li_depends_on a -> dep_source dep ∈ refs.

Lemma feeds_nodes w z : feeds w z -> z ∈ refs.
Proof. intros (_ & a & dep & Ha & <- & _). apply list_elem_of_fmap. eauto. Qed.

Lemma upstream_induction (P : string -> Prop) : (forall c, (forall r, feeds r c -> P r) -> P c) -> forall c, P c.
Proof.
  intros Hstep c. assert (sn (flip feeds) c) as Hsn.
  { assert (forall x y, tc (flip feeds) x y -> tc feeds y x) as Hflip.
    { intros x y. induction 1 as [x y Hxy|x y z Hxy _ IH]; [by apply tc_once|]. eapply tc_r; [done|]. exact Hxy. }
    apply tc_finite_sn; [intros x Hx; apply (Hacyclic x); by apply Hflip|]. exists refs. intros y Hy%Hflip.
    inversion Hy as [? ? [Hr _]|? ? ? [Hr _] _]; subst; done. }
  induction Hsn as [c _ IH]. apply Hstep. exact IH.
Qed.

Lemma child_deeper depth r c d : walked depth -> dget depth r = Some d -> feeds r c -> exists dc, dget depth c = Some dc /\ d + 1 <= dc.
Proof.
  intros [_ H2 _ H4] Hd Hrc. destruct (H4 r d c Hd) as [HM|?]; [apply not_elem_of_nil|tauto|by apply children_spec| |done].
  exfalso. destruct (H2 r d Hd) as (Hd0 & _ & r0 & Hr0 & Hs).
  assert (S (S (Z.to_nat d)) <= length refs)%nat as Hb.
  { apply (path_bound feeds Hacyclic refs (S (Z.to_nat d)) r0 c).
    - apply roots_spec in Hr0 as (a & Ha & <- & _); [|done]. apply list_elem_of_fmap. eauto.
    - apply feeds_nodes.
    - eapply nsteps_r; [|done]. revert Hs. apply nsteps_congruence with (f := fun x => x). intros x y. unfold kid_of. by intros ?%children_spec. }
  rewrite length_map in Hb. lia.
Qed.

Lemma all_reached depth c : walked depth -> (forall r, r ∈ layout_roots actions -> is_Some (dget depth r)) -> c ∈ refs -> is_Some (dget depth c).
Proof.
  intros Hw Hroots. revert c. refine (upstream_induction _ _). intros c IH Hc.
  apply list_elem_of_fmap in Hc as (a & -> & Ha). destruct (li_depends_on a) as [|dep deps] eqn:Ea.
  - apply Hroots, roots_spec; [done|]. eauto.
  - assert (dep ∈ li_depends_on a) as Hdep by (rewrite Ea; by left). pose proof (Hsources a dep Ha Hdep) as Hsrc.
    assert (feeds (dep_source dep) (li_ref a)) as Hf by (split; [done|eauto 10]).
    destruct (IH _ Hf Hsrc) as [d Hd]. destruct (child_deeper depth _ _ d Hw Hd Hf) as (dc & Hdc & _). by eexists.
Qed.

Lemma some_root : actions <> [] -> layout_roots actions <> [].
Proof.
  intros Hne Hroots. assert (forall c, c ∉ refs) as Hno.
  { refine (upstream_induction _ _). intros c IH Hc. apply list_elem_of_fmap in Hc as (a & -> & Ha).
    destruct (li_depends_on a) as [|dep deps] eqn:Ea.
    - assert (li_ref a ∈ layout_roots actions) as Hr by (apply roots_spec; eauto). rewrite Hroots in Hr. by apply elem_of_nil in Hr.
    - assert (dep ∈ li_depends_on a) as Hdep by (rewrite Ea; by left). pose proof (Hsources a dep Ha Hdep) as Hsrc.
      apply (IH (dep_source dep)); [|done]. split; [done|eauto 10]. }
  destruct actions as [|a l]; [done|]. apply (Hno (li_ref a)). by left.
Qed.
End Acyclic.

(** The depths of all actions. *)
Lemma depths_spec : exists depth, depths actions = Some depth /\ NoDup (map fst depth) /\ map fst depth ≡ₚ refs /\
  ((forall r, ~ tc feeds r r) -> (forall a dep, a ∈ actions -> dep ∈ li_depends_on a -> dep_source dep ∈ refs) ->
   forall r c d, feeds r c -> dget depth r = Some d -> exists dc, dget depth c = Some dc /\ d < dc).
Proof.
  unfold depths. fold (layout_roots actions). destruct (layout_roots actions) as [|r0 rs] eqn:Er.
  - set (l := zip _ _). destruct (foldl_dset_keys (fun p : Z * LayoutInput => li_ref p.2) (fun p => p.1) l []) as [Hn Hk].
    assert (foldl (fun depth '(i, a) => dset depth (li_ref a) i) [] l = foldl (fun d p => dset d (li_ref p.2) p.1) [] l) as ->.
    { clearbody l. clear. generalize (@nil (string * Z)). induction l as [|[i a] l IH]; intros d; simpl; [done|apply IH]. }
    destruct (place_rest_spec (foldl (fun d p => dset d (li_ref p.2) p.1) [] l)) as (H1 & H2 & H3).
    + apply Hn. constructor.
    + intros k [Hk0|(p & -> & Hp)%list_elem_of_fmap]%Hk; [by apply elem_of_nil in Hk0|]. apply list_elem_of_fmap. exists p.2. split; [done|].
      destruct p as [i a]. unfold l in Hp. by apply elem_of_zip_r in Hp.
    + eexists. split; [reflexivity|]. split; [done|]. split; [done|]. intros Hac Hsrc r c d Hrc. exfalso.
      destruct (decide (actions = [])) as [He|Hne]; [|by apply (some_root Hac Hsrc Hne)].
      destruct Hrc as [Hr _]. rewrite He in Hr. by apply elem_of_nil in Hr.
  - rewrite <- Er. destruct walk_roots as (depth & Hw & Hinv & Hroots).
    destruct (place_rest_spec depth) as (H1 & H2 & H3); [by destruct Hinv| |].
    + intros k Hk%dget_is_Some. destruct Hk as [d Hd]. destruct Hinv as [_ Hd' _ _]. by destruct (Hd' k d Hd) as (_ & ? & _).
    + exists (place_rest actions depth). split; [exact (f_equal (fmap (place_rest actions)) Hw)|]. split; [done|]. split; [done|].
      intros Hac Hsrc r c d Hrc Hd. destruct (all_reached Hac Hsrc depth r Hinv Hroots ltac:(by destruct Hrc)) as [dr Hdr].
      pose proof (H3 _ _ Hdr) as Hdr'. rewrite Hdr' in Hd. injection Hd as <-.
      destruct (child_deeper Hac depth r c dr Hinv Hdr Hrc) as (dc & Hdc & Hle). exists dc. split; [by apply H3|lia].
Qed.
End Layout.

(** C18: the automatic layout ends, on cyclic graphs too, and places every action once and no two
    in the same position; when the dependencies are acyclic and name actions of the workflow,
    every action is below those it depends on. *)
Theorem layout_places actions : NoDup (map li_ref actions) ->
  exists l, auto_generate_layout actions = Some l /\ map la_ref l ≡ₚ map li_ref actions /\
    (forall a b, a ∈ l -> b ∈ l -> la_x a = la_x b -> la_y a = la_y b -> a = b) /\
    ((forall r, ~ tc (feeds_into actions) r r) ->
     (forall a dep, a ∈ actions -> dep ∈ li_depends_on a -> dep_source dep ∈ map li_ref actions) ->
     forall a b, a ∈ l -> b ∈ l -> feeds_into actions (la_ref a) (la_ref b) -> la_y a < la_y b).
Proof.
  intros Hnd. destruct (depths_spec actions Hnd) as (depth & Hd & Hn & Hp & Hdeep). exists (placed depth).
  split; [unfold auto_generate_layout; by rewrite Hd|]. split; [by rewrite placed_refs|]. split; [by intros a b; apply placed_apart|].
  intros Hac Hsrc a b (d & _ & Hda & _ & _ & Hy)%placed_in (e & _ & Heb & _ & _ & Hy')%placed_in Hab.
  apply dget_in in Hda, Heb; [|done..]. destruct (Hdeep Hac Hsrc _ _ _ Hab Hda) as (dc & Hdc & Hlt).
  unfold NODE_HEIGHT in *. assert (e = dc) as -> by congruence. lia.
Qed.

(** A diamond with a tail. *)
Definition diamond : list LayoutInput :=
  [MkLayoutInput "start" []; MkLayoutInput "left" ["start"]; MkLayoutInput "right" ["start.error"]; MkLayoutInput "join" ["left"; "right"; "start"]].

Lemma ranked_acyclic actions (rank : string -> nat) :
  (forall a dep, a ∈ actions -> dep ∈ li_depends_on a -> (rank (dep_source dep) < rank (li_ref a))%nat) ->
  forall r, ~ tc (feeds_into actions) r r.
Proof.
  intros Hrank r Hr. assert (forall x y, tc (feeds_into actions) x y -> (rank x < rank y)%nat) as H; [|specialize (H r r Hr); lia].
  assert (forall x y, feeds_into actions x y -> (rank x < rank y)%nat) as Hstep.
  { intros x y (_ & a & dep & Ha & <- & Hdep & <-). by apply Hrank. }
  induction 1 as [x y Hxy|x y z Hxy _ IH]; [by apply Hstep|]. apply Hstep in Hxy. lia.
Qed.

Lemma every_dep (P : LayoutInput -> string -> Prop) l : Forall (fun a => Forall (P a) (li_depends_on a)) l ->
  forall a dep, a ∈ l -> dep ∈ li_depends_on a -> P a dep.
Proof. intros H a dep Ha Hd. rewrite Forall_forall in H. specialize (H a Ha). rewrite Forall_forall in H. by apply H. Qed.

Definition diamond_rank (r : string) : nat :=
  if bool_decide (r = "start") then 0 else if bool_decide (r = "join") then 2 else 1.

Example layout_places_witness : exists l, auto_generate_layout diamond = Some l /\ map la_y l = [300; 600; 600; 900] /\
  forall a b, a ∈ l -> b ∈ l -> feeds_into diamond (la_ref a) (la_ref b) -> la_y a < la_y b.
Proof.
  destruct (layout_places diamond) as (l & Hl & _ & _ & Hdeep).
  - apply (bool_decide_unpack _). vm_compute. exact I.
  - exists l. split; [exact Hl|]. split; [vm_compute in Hl; injection Hl as <-; reflexivity|]. apply Hdeep.
    + apply (ranked_acyclic diamond diamond_rank), every_dep, (bool_decide_unpack _). vm_compute. exact I.
    + apply every_dep, (bool_decide_unpack _). vm_compute. exact I.
Defined.
