(* ===== verification/GraphEdit.v ===== *)
(** The graph editor ([WorkflowGraphService] of [tracecat/workflow/graph/service.py] and its
    routes, the graph of [tracecat/dsl/view.py], [WorkflowActionService] of
    [tracecat/workflow/actions/service.py] and the reconciliation of
    [tracecat/workflow/management/management.py]): the rows of one workflow, read and
    written in transactions.  The actions are kept in the order of insertion. *)

From S2P Require Import Prelude PyStr Base62 PyVal PyOps DslTypes DslBuild.

(** ** Rows *)

(** A row of the [action] table: the columns these services read or write. *)
Record Node := MkNode {
  n_id : ActionID; n_type : string; n_title : string; n_description : string; n_inputs : string; n_control_flow : val;
  n_is_interactive : bool; n_interaction : val; n_x : spec_float; n_y : spec_float; n_edges : list val }.

(** A row of the [workflow] table, with its actions. *)
Record Workflow := MkWorkflow {
  w_id : string; graph_version : Z; w_status : string;
  trigger_position : spec_float * spec_float; viewport : spec_float * spec_float * spec_float; w_actions : list Node }.

Definition set_actions (w : Workflow) (l : list Node) : Workflow :=
  MkWorkflow (w_id w) (graph_version w) (w_status w) (trigger_position w) (viewport w) l.
Definition set_upstream_edges (a : Node) (edges : list val) : Node :=
  MkNode (n_id a) (n_type a) (n_title a) (n_description a) (n_inputs a) (n_control_flow a) (n_is_interactive a) (n_interaction a) (n_x a) (n_y a) edges.
Definition set_position (x y : spec_float) (a : Node) : Node :=
  MkNode (n_id a) (n_type a) (n_title a) (n_description a) (n_inputs a) (n_control_flow a) (n_is_interactive a) (n_interaction a) x y (n_edges a).
Definition set_version (w : Workflow) (v : Z) : Workflow :=
  MkWorkflow (w_id w) v (w_status w) (trigger_position w) (viewport w) (w_actions w).
Definition set_trigger_position (w : Workflow) (p : spec_float * spec_float) : Workflow :=
  MkWorkflow (w_id w) (graph_version w) (w_status w) p (viewport w) (w_actions w).
Definition set_viewport (w : Workflow) (v : spec_float * spec_float * spec_float) : Workflow :=
  MkWorkflow (w_id w) (graph_version w) (w_status w) (trigger_position w) v (w_actions w).

Definition trigger_id (w : Workflow) : string := "trigger-" +:+ w_id w.
Definition node_ids (w : Workflow) : list ActionID := map n_id (w_actions w).

(** [update(Action).where(Action.id == id)] and [select(Action).where(Action.id == id)]. *)
Definition update_where (id : ActionID) (f : Node -> Node) (w : Workflow) : Workflow :=
  set_actions w (map (fun a => if decide (n_id a = id) then f a else a) (w_actions w)).
Definition select_action (w : Workflow) (id : ActionID) : option Node := List.find (fun a => bool_decide (n_id a = id)) (w_actions w).

(** ** The graph shown by the editor ([dsl/view.py]) *)

Record RFEdge := MkRFEdge { e_id : option string; e_source : string; e_target : string; e_label : option string; e_source_handle : option EdgeType }.
Record UDFNode := MkUDFNode { u_id : ActionID; u_position : spec_float * spec_float; u_type : string }.
Record TriggerNode := MkTriggerNode { t_id : string; t_position : spec_float * spec_float; t_status : string }.
Record RFGraph := MkRFGraph { g_trigger : TriggerNode; g_nodes : list UDFNode; g_edges : list RFEdge }.

Definition generate_id (source target : string) (source_handle : option EdgeType) : option string :=
  if decide (source = "" \/ target = "") then None
  else Some (String.concat "-" (["reactflow__edge"; source; target] ++ match source_handle with Some h => [edge_type_value h] | None => [] end)).

(** [EdgeType(v)]. *)
Definition EdgeType_of (v : val) : result EdgeType :=
  match v with
  | VStr s => if decide (s = "success") then Ok EdgeSUCCESS else if decide (s = "error") then Ok EdgeERROR else raise ValueError "EdgeType"
  | _ => raise ValueError "EdgeType"
  end.

Definition rf_edge (target : ActionID) (edge_data : val) : result RFEdge :=
  match edge_data with
  | VDict d =>
      let source_type := default (VStr "udf") (dget d "source_type") in
      match dget d "source_id" with
      | None => raise KeyError "source_id"
      | Some source =>
          let! handle := (if decide (source_type = VStr "udf")
                          then let! h := EdgeType_of (default (VStr "success") (dget d "source_handle")) in Ok (Some h)
                          else Ok None) in
          match source with
          | VStr s => Ok (MkRFEdge (generate_id s target handle) s target
                            (if decide (source_type = VStr "trigger") then Some "Trigger" else None) handle)
          | _ => raise ValidationError "source"
          end
      end
  | _ => raise AttributeError "get"
  end.

(** [RFGraph.from_actions]. *)
Definition from_actions (w : Workflow) : result RFGraph :=
  let! edges := rmap (fun a => rmap (rf_edge (n_id a)) (n_edges a)) (w_actions w) in
  Ok (MkRFGraph (MkTriggerNode (trigger_id w) (trigger_position w) (if decide (w_status w = "online") then "online" else "offline"))
        (map (fun a => MkUDFNode (n_id a) (n_x a, n_y a) (n_type a)) (w_actions w)) (concat edges)).

Record GraphResponse := MkGraph { r_version : Z; r_graph : RFGraph; r_viewport : spec_float * spec_float * spec_float }.
Definition graph_response (w : Workflow) : result GraphResponse :=
  let! g := from_actions w in Ok (MkGraph (graph_version w) g (viewport w)).

(** ** Keys of edges *)

#[export] Instance SourceType_eq_dec : EqDecision SourceType.
Proof. solve_decision. Defined.

Record EdgeDedupKey := MkKey { k_source_id : string; k_source_type : SourceType; k_source_handle : option EdgeType }.
#[export] Instance EdgeDedupKey_eq_dec : EqDecision EdgeDedupKey.
Proof. solve_decision. Defined.

Definition _edge_dedup_key (source_id : string) (source_type : SourceType) (source_handle : option EdgeType) : EdgeDedupKey :=
  match source_type with
  | udf => MkKey source_id udf (Some (default EdgeSUCCESS source_handle))
  | trigger => MkKey source_id trigger None
  end.

Definition _stored_edge_dedup_key (edge : val) : result (option EdgeDedupKey) :=
  match edge with
  | VDict d =>
      match dget d "source_id" with
      | Some (VStr source_id) =>
          let source_type :=
            if decide (dget d "source_type" = Some (VStr "trigger")) then trigger
            else if decide (dget d "source_type" = Some (VStr "udf")) then udf
            else if starts_with "trigger-" source_id then trigger else udf in
          let source_handle :=
            if decide (dget d "source_handle" = Some (VStr "success")) then Some EdgeSUCCESS
            else if decide (dget d "source_handle" = Some (VStr "error")) then Some EdgeERROR else None in
          Ok (Some (_edge_dedup_key source_id source_type source_handle))
      | _ => Ok None
      end
  | _ => raise AttributeError "get"
  end.

(** [[e for e in edges if self._stored_edge_dedup_key(e) != key]]. *)
Fixpoint without_key (key : EdgeDedupKey) (edges : list val) : result (list val) :=
  match edges with
  | [] => Ok []
  | e :: edges' =>
      let! k := _stored_edge_dedup_key e in
      let! l := without_key key edges' in
      Ok (if decide (k = Some key) then l else e :: l)
  end.

(** ** Operations *)

Record AddNodePayload := MkAddNode {
  an_type : string; an_title : string; an_description : option string; an_inputs : option string;
  an_control_flow : option (list (string * val)); an_x : spec_float; an_y : spec_float }.
Record UpdateNodePayload := MkUpdateNode {
  un_action_id : ActionID; un_title : option string; un_description : option string; un_inputs : option string;
  un_control_flow : option (list (string * val)) }.
(** [AddEdgePayload] and [DeleteEdgePayload] have the same fields. *)
Record EdgePayload := MkEdgePayload {
  ep_source_id : string; ep_source_type : SourceType; ep_target_id : ActionID; ep_source_handle : option EdgeType }.

(** [GraphOperation], with its payload as the payload's model validates it. *)
Inductive GraphOperation :=
  | OpAddNode (p : AddNodePayload)
  | OpUpdateNode (p : UpdateNodePayload)
  | OpDeleteNode (action_id : ActionID)
  | OpAddEdge (p : EdgePayload)
  | OpDeleteEdge (p : EdgePayload)
  | OpMoveNodes (positions : list (list (string * val)))
  | OpUpdateTriggerPosition (x y : spec_float)
  | OpUpdateViewport (x y zoom : spec_float).

Definition _is_structural (op : GraphOperation) : bool :=
  match op with
  | OpAddNode _ | OpUpdateNode _ | OpDeleteNode _ | OpAddEdge _ | OpDeleteEdge _ => true
  | OpMoveNodes _ | OpUpdateTriggerPosition _ _ | OpUpdateViewport _ _ _ => false
  end.

Section Service.
(** The database driver: a string bound to a UUID column, a value bound to a float column
    ([None]: refused), and the text of [value ->> 'source_id'] ([None]: NULL). *)
Context (parse_uuid : string -> option ActionID) (float_of : val -> option spec_float) (astext : val -> option string).

Definition DatabaseError {A} (msg : string) : result A := raise DBAPIError msg.

(** The column [id] is unique. *)
Definition insert_node (w : Workflow) (a : Node) : result Workflow :=
  if decide (n_id a ∈ node_ids w) then DatabaseError "duplicate key" else Ok (set_actions w (w_actions w ++ [a])).

(** [new_id] is what [uuid.uuid4] draws for the new row. *)
Definition _add_node (new_id : ActionID) (w : Workflow) (p : AddNodePayload) : result Workflow :=
  insert_node w (MkNode new_id (an_type p) (an_title p) (default "" (an_description p)) (default "" (an_inputs p))
                   (VDict (default [] (an_control_flow p))) false VNone (an_x p) (an_y p) []).

Definition _update_node (w : Workflow) (p : UpdateNodePayload) : Workflow :=
  update_where (un_action_id p) (fun a =>
    MkNode (n_id a) (n_type a) (default (n_title a) (un_title p)) (default (n_description a) (un_description p))
      (default (n_inputs a) (un_inputs p)) (match un_control_flow p with Some d => VDict d | None => n_control_flow a end)
      (n_is_interactive a) (n_interaction a) (n_x a) (n_y a) (n_edges a)) w.

(** The comparison of the query is not true on NULL. *)
Definition not_from (id : ActionID) (edge : val) : bool :=
  match edge with
  | VDict d => match dget d "source_id" with
               | Some v => match astext v with Some s => bool_decide (s <> id) | None => false end
               | None => false
               end
  | _ => false
  end.

Definition _delete_node (w : Workflow) (action_id : ActionID) : Workflow :=
  let filtered := map (fun a => set_upstream_edges a (List.filter (not_from action_id) (n_edges a))) (w_actions w) in
  set_actions w (List.filter (fun a => bool_decide (n_id a <> action_id)) filtered).

Definition stored_edge (key : EdgeDedupKey) : val :=
  VDict ([("source_id", VStr (k_source_id key)); ("source_type", VStr match k_source_type key with trigger => "trigger" | udf => "udf" end)] ++
         match k_source_type key with
         | udf => [("source_handle", match k_source_handle key with Some h => VStr (edge_type_value h) | None => VNone end)]
         | trigger => []
         end).

Definition _add_edge (w : Workflow) (p : EdgePayload) : result Workflow :=
  let! _ := match ep_source_type p with
            | udf => match parse_uuid (ep_source_id p) with
                     | None => DatabaseError "invalid UUID"
                     | Some id => match select_action w id with None => raise ValueError "Source action not found" | Some _ => Ok tt end
                     end
            | trigger => if decide (ep_source_id p = trigger_id w) then Ok tt else raise ValueError "Invalid trigger ID"
            end in
  match select_action w (ep_target_id p) with
  | None => raise ValueError "Target action not found"
  | Some target_action =>
      let new_key := _edge_dedup_key (ep_source_id p) (ep_source_type p) (ep_source_handle p) in
      let! filtered_edges := without_key new_key (n_edges target_action) in
      Ok (update_where (ep_target_id p) (fun a => set_upstream_edges a (filtered_edges ++ [stored_edge new_key])) w)
  end.

Definition _delete_edge (w : Workflow) (p : EdgePayload) : result Workflow :=
  match select_action w (ep_target_id p) with
  | None => raise ValueError "Target action not found"
  | Some target_action =>
      let target_key := _edge_dedup_key (ep_source_id p) (ep_source_type p) (ep_source_handle p) in
      let! edges := without_key target_key (n_edges target_action) in
      Ok (update_where (ep_target_id p) (fun a => set_upstream_edges a edges) w)
  end.

(** [pos.get(k)], with [None] for a missing key. *)
Definition _move_node (pos : list (string * val)) (w : Workflow) : result Workflow :=
  match default VNone (dget pos "action_id"), default VNone (dget pos "x"), default VNone (dget pos "y") with
  | VNone, _, _ | _, VNone, _ | _, _, VNone => Ok w
  | action_id, x, y =>
      match match action_id with VStr s => parse_uuid s | _ => None end, float_of x, float_of y with
      | Some id, Some fx, Some fy => Ok (update_where id (set_position fx fy) w)
      | _, _, _ => DatabaseError "invalid input for query argument"
      end
  end.

Definition _move_nodes (w : Workflow) (positions : list (list (string * val))) : result Workflow := rfor _move_node positions w.

Definition _apply_operation (new_id : ActionID) (w : Workflow) (op : GraphOperation) : result Workflow :=
  match op with
  | OpAddNode p => _add_node new_id w p
  | OpUpdateNode p => Ok (_update_node w p)
  | OpDeleteNode id => Ok (_delete_node w id)
  | OpAddEdge p => _add_edge w p
  | OpDeleteEdge p => _delete_edge w p
  | OpMoveNodes ps => _move_nodes w ps
  | OpUpdateTriggerPosition x y => Ok (set_trigger_position w (x, y))
  | OpUpdateViewport x y zoom => Ok (set_viewport w (x, y, zoom))
  end.

(** The loop of [apply_operations]; [new_ids] is drawn from as the loop goes on. *)
Definition run_operations (new_ids : nat -> ActionID) (operations : list GraphOperation) (w : Workflow) : result Workflow :=
  rfor (fun '(i, op) w => _apply_operation (new_ids i) w op) (imap pair operations) w.

(** What a call answers. *)
Inductive Answer := Graph (r : GraphResponse) | VersionConflict (current_version : Z) (r : GraphResponse) | Raised (e : exn).

Definition answered (r : result GraphResponse) (f : GraphResponse -> Answer) : Answer := match r with Ok g => f g | Err e => Raised e end.

(** The transaction: the rows it commits ([None]: it is rolled back) and the answer.  The row is
    locked from its read to the commit. *)
Definition graph_transaction (new_ids : nat -> ActionID) (base_version : Z) (operations : list GraphOperation) (w : Workflow) : option Workflow * Answer :=
  if decide (graph_version w <> base_version) then (None, answered (graph_response w) (VersionConflict (graph_version w)))
  else
    match run_operations new_ids operations w with
    | Err e => (None, Raised e)
    | Ok w1 =>
        let w2 := if existsb _is_structural operations then set_version w1 (graph_version w1 + 1) else w1 in
        (Some w2, answered (graph_response w2) Graph)
    end.

Definition apply_operations (new_ids : nat -> ActionID) (base_version : Z) (operations : list GraphOperation) (w : Workflow) : Workflow * Answer :=
  let '(committed, answer) := graph_transaction new_ids base_version operations w in (default w committed, answer).

Definition get_graph (w : Workflow) : result GraphResponse := graph_response w.

(** The status of the route [PATCH /workflows/{id}/graph] (a [ValidationError] of pydantic is a
    [ValueError]). *)
Definition patch_status (a : Answer) : Z :=
  match a with
  | Graph _ => 200
  | VersionConflict _ _ => 409
  | Raised e => if decide (exn_cls e = ValueError \/ exn_cls e = ValidationError) then 400 else 500
  end.

(** ** [WorkflowActionService] *)

(** [ActionEdge]. *)
Record ActionEdge := MkActionEdge { ae_source_id : string; ae_source_type : SourceType; ae_source_handle : option EdgeType }.
Definition action_edge (e : ActionEdge) : val :=
  VDict ([("source_id", VStr (ae_source_id e)); ("source_type", VStr match ae_source_type e with trigger => "trigger" | udf => "udf" end)] ++
         match ae_source_handle e with Some h => [("source_handle", VStr (edge_type_value h))] | None => [] end).

(** [control_flow] and [interaction] are dumped by the caller's models. *)
Record ActionCreate := MkActionCreate {
  ac_type : string; ac_title : string; ac_description : string; ac_inputs : string; ac_control_flow : option (list (string * val));
  ac_is_interactive : bool; ac_interaction : option val; ac_x : spec_float; ac_y : spec_float; ac_upstream_edges : list ActionEdge }.

Definition create_action (new_id : ActionID) (w : Workflow) (p : ActionCreate) : result Workflow :=
  insert_node w (MkNode new_id (ac_type p) (ac_title p) (ac_description p) (ac_inputs p) (VDict (default [] (ac_control_flow p)))
                   (ac_is_interactive p) (default VNone (ac_interaction p)) (ac_x p) (ac_y p) (map action_edge (ac_upstream_edges p))).

(** The fields that are set; [control_flow] and [interaction] are dumped, [status] is not read
    by these services.  An explicit [null] is left out: most columns refuse it. *)
Record ActionUpdate := MkActionUpdate {
  au_title : option string; au_description : option string; au_inputs : option string; au_control_flow : option (list (string * val));
  au_is_interactive : option bool; au_interaction : option val; au_x : option spec_float; au_y : option spec_float;
  au_upstream_edges : option (list ActionEdge) }.

Definition update_fields (p : ActionUpdate) (a : Node) : Node :=
  MkNode (n_id a) (n_type a) (default (n_title a) (au_title p)) (default (n_description a) (au_description p))
    (default (n_inputs a) (au_inputs p)) (match au_control_flow p with Some d => VDict d | None => n_control_flow a end)
    (default (n_is_interactive a) (au_is_interactive p)) (default (n_interaction a) (au_interaction p))
    (default (n_x a) (au_x p)) (default (n_y a) (au_y p))
    (match au_upstream_edges p with Some l => map action_edge l | None => n_edges a end).

(** The action is looked up by its id first. *)
Definition update_action (w : Workflow) (action_id : ActionID) (p : ActionUpdate) : Workflow := update_where action_id (update_fields p) w.

Definition delete_action (w : Workflow) (action_id : ActionID) : Workflow :=
  let filtered := map (fun a => set_upstream_edges a (List.filter (not_from action_id) (n_edges a))) (w_actions w) in
  set_actions w (List.filter (fun a => bool_decide (n_id a <> action_id)) filtered).

Definition batch_update_positions (action_positions : list (ActionID * (spec_float * spec_float))) (trigger : option (spec_float * spec_float))
    (w : Workflow) : Workflow :=
  let w1 := foldl (fun w '(id, (x, y)) => update_where id (set_position x y) w) w action_positions in
  match trigger with Some p => set_trigger_position w1 p | None => w1 end.

(** ** Reconciliation *)

Variable str_of_other : val -> result string.

(** The test of the inner loop: whether the edge stays. *)
Definition edge_stays (w : Workflow) (edge : val) : result bool :=
  match edge with
  | VDict d =>
      let! source_id := py_str str_of_other (default (VStr "") (dget d "source_id")) in
      let source_type := default (VStr "udf") (dget d "source_type") in
      Ok (if decide (source_type = VStr "trigger") then bool_decide (source_id = trigger_id w)
          else if decide (source_type = VStr "udf") then bool_decide (source_id ∈ node_ids w)
          else false)
  | _ => raise AttributeError "get"
  end.

Fixpoint stale_filter (w : Workflow) (edges : list val) : result (list val * bool) :=
  match edges with
  | [] => Ok ([], false)
  | e :: edges' =>
      let! stays := edge_stays w e in
      let! (l, changed) := stale_filter w edges' in
      Ok (if stays then (e :: l, changed) else (l, true))
  end.

(** [_reconcile_graph_object_with_actions]: the rows and whether something changed. *)
Definition reconcile (w : Workflow) : result (Workflow * bool) :=
  let! rows := rmap (fun a => let! (l, changed) := stale_filter w (n_edges a) in Ok (set_upstream_edges a l, changed)) (w_actions w) in
  Ok (set_actions w (map fst rows), existsb snd rows).
End Service.
