(* ===== verification/GraphEditFacts.v ===== *)
(** The graph editor refines operations on a graph of nodes and keyed edges; batches keep the
    graph consistent and are atomic; versions detect lost updates; reconciliation. *)

From S2P Require Import Prelude PyStr Base62 PyVal PyOps DslTypes DslBuild GraphEdit.

(** ** Well-formed edges *)

#[export] Instance SourceType_countable : Countable SourceType.
Proof.
  refine {| encode t := match t with trigger => 1%positive | udf => 2%positive end;
            decode p := match p with 1%positive => Some trigger | _ => Some udf end |}.
  by intros [].
Defined.
#[export] Instance EdgeDedupKey_countable : Countable EdgeDedupKey.
Proof.
  apply (inj_countable' (fun k => (k_source_id k, k_source_type k, k_source_handle k)) (fun '(s, t, h) => MkKey s t h)).
  by intros [].
Defined.

(** The key of an edge that is an [ActionEdge] ([None]: it is none). *)
Definition edge_key (e : val) : option EdgeDedupKey :=
  match validate_edge e with
  | Ok edge => (fun t => _edge_dedup_key (source_id edge) t (source_handle edge)) <$> source_type edge
  | Err _ => None
  end.

Lemma literal_field_Ok {A} (d : list (string * val)) k (members : list (string * A)) r : literal_field d k members = Ok r ->
  match r with
  | None => dget d k = None
  | Some x => exists s, dget d k = Some (VStr s) /\ dget members s = Some x
  end.
Proof.
  unfold literal_field. destruct (dget d k) as [[]|]; try done; [|by intros [= <-]].
  destruct (dget members s) eqn:E; [|done]. intros [= <-]. eauto.
Qed.

(** What a key says of the stored dict. *)
Lemma edge_key_Some e k : edge_key e = Some k -> exists d, e = VDict d /\ dget d "source_id" = Some (VStr (k_source_id k)) /\
  match k_source_type k with
  | trigger => dget d "source_type" = Some (VStr "trigger") /\ k_source_handle k = None
  | udf => dget d "source_type" = Some (VStr "udf") /\ exists h, k_source_handle k = Some h /\
             match dget d "source_handle" with None => h = EdgeSUCCESS | Some v => v = VStr (edge_type_value h) end
  end.
Proof.
  unfold edge_key, validate_edge. destruct e as [| | | | | |d]; try done. destruct (dget d "source_id") as [[| | | |id| |]|] eqn:Ei; try done.
  destruct (literal_field d "source_type" _) as [t|] eqn:Et; [|done]. destruct (literal_field d "source_handle" _) as [h|] eqn:Eh; [|done].
  cbn. apply literal_field_Ok in Et, Eh. destruct t as [t|]; [|done]. destruct Et as (ts & Et & Ht). intros [= <-].
  exists d. split; [done|]. cbn in Ht. repeat case_decide; try done; injection Ht as <-; subst; cbn; (split; [done|]); (split; [done|]); [done|].
  exists (default EdgeSUCCESS h). split; [done|]. destruct h as [h|]; [|by rewrite Eh]. destruct Eh as (hs & Eh & Hh). rewrite Eh.
  cbn in Hh. repeat case_decide; try done; injection Hh as <-; by subst.
Qed.

Lemma edge_key_stored e k : edge_key e = Some k -> _stored_edge_dedup_key e = Ok (Some k).
Proof.
  intros (d & -> & Hi & Hk)%edge_key_Some. cbn. rewrite Hi. destruct k as [s [] h]; cbn in *.
  - destruct Hk as [-> ->]. by rewrite decide_True.
  - destruct Hk as [-> (h' & -> & Hh)]. rewrite decide_False by done. rewrite decide_True by done. do 2 f_equal. cbn. do 2 f_equal.
    destruct (dget d "source_handle") as [v|]; [subst v|subst h'; done]. by destruct h'.
Qed.

(** How the editor shows an edge. *)
Definition shown (t : ActionID) (k : EdgeDedupKey) : RFEdge :=
  MkRFEdge (generate_id (k_source_id k) t (k_source_handle k)) (k_source_id k) t
    (match k_source_type k with trigger => Some "Trigger" | udf => None end) (k_source_handle k).

Lemma edge_key_shown t e k : edge_key e = Some k -> rf_edge t e = Ok (shown t k).
Proof.
  intros (d & -> & Hi & Hk)%edge_key_Some. cbn. rewrite Hi. destruct k as [s [] h]; cbn in *.
  - destruct Hk as [-> ->]. done.
  - destruct Hk as [-> (h' & -> & Hh)]. cbn. destruct (dget d "source_handle") as [v|]; [subst v|subst h'; done]. by destruct h'.
Qed.

Lemma edge_key_stored_edge s t h : edge_key (stored_edge (_edge_dedup_key s t h)) = Some (_edge_dedup_key s t h).
Proof. destruct t; [done|]. by destruct h as [[]|]. Qed.

Lemma edge_key_action_edge e : edge_key (action_edge e) = Some (_edge_dedup_key (ae_source_id e) (ae_source_type e) (ae_source_handle e)).
Proof. destruct e as [s [] [[]|]]; done. Qed.

Definition keys (edges : list val) : list EdgeDedupKey := omap edge_key edges.
#[global] Arguments keys : simpl never.

Definition all_keyed (edges : list val) : Prop := Forall (fun e => is_Some (edge_key e)) edges.

Lemma keys_cons e k l : edge_key e = Some k -> keys (e :: l) = k :: keys l.
Proof. intros He. unfold keys. cbn. by rewrite He. Qed.

Definition action_edge_key (e : ActionEdge) : EdgeDedupKey := _edge_dedup_key (ae_source_id e) (ae_source_type e) (ae_source_handle e).

Lemma keys_action_edges l : all_keyed (map action_edge l) /\ keys (map action_edge l) = map action_edge_key l.
Proof.
  induction l as [|e l [IH1 IH2]]; cbn; [split; [constructor|done]|].
  split; [constructor; [rewrite edge_key_action_edge; by eexists|done]|]. by rewrite (keys_cons _ _ _ (edge_key_action_edge e)), IH2.
Qed.

(** A key is removed. *)
Lemma without_key_spec key edges : all_keyed edges ->
  exists l, without_key key edges = Ok l /\ all_keyed l /\ keys l = filter (fun k => k <> key) (keys edges) /\ forall e, e ∈ l -> e ∈ edges.
Proof.
  induction 1 as [|e edges [k He] _ IH]; [exists []; split; [done|]; split; [constructor|done]|]. destruct IH as (l & Hl & Hk & Hkeys & Hsub).
  cbn [without_key]. rewrite (edge_key_stored _ _ He), Hl. cbn [rbind]. rewrite (keys_cons _ _ edges He), filter_cons.
  destruct (decide (Some k = Some key)) as [Heq|Hne]; case_decide as Hf; try congruence.
  - exists l. split; [done|]. split; [done|]. split; [done|]. set_solver.
  - exists (e :: l). split; [done|]. split; [constructor; [by eexists|done]|]. split; [by rewrite (keys_cons _ _ _ He), Hkeys|]. set_solver.
Qed.

(** ** The graph *)

Record KeyedGraph := MkKeyed { nodes : gset ActionID; arrows : gset (EdgeDedupKey * ActionID) }.

Definition node_arrows (a : Node) : list (EdgeDedupKey * ActionID) := map (fun k => (k, n_id a)) (keys (n_edges a)).
Definition keyed_graph (w : Workflow) : KeyedGraph :=
  MkKeyed (list_to_set (node_ids w)) (list_to_set (flat_map node_arrows (w_actions w))).

(** Distinct ids, and edges that are [ActionEdge]s with distinct keys. *)
Record well_formed (w : Workflow) : Prop := {
  wf_ids : NoDup (node_ids w);
  wf_edges : forall a, a ∈ w_actions w -> all_keyed (n_edges a) /\ NoDup (keys (n_edges a)) }.

Lemma elem_nodes w t : t ∈ nodes (keyed_graph w) <-> exists a, a ∈ w_actions w /\ n_id a = t.
Proof. cbn. rewrite elem_of_list_to_set. unfold node_ids. rewrite list_elem_of_fmap. naive_solver. Qed.

Lemma elem_arrows w k t : (k, t) ∈ arrows (keyed_graph w) <-> exists a, a ∈ w_actions w /\ n_id a = t /\ k ∈ keys (n_edges a).
Proof.
  cbn. rewrite elem_of_list_to_set, elem_of_flat_map. unfold node_arrows. split.
  - intros (a & Ha & (k' & [= -> ->] & Hk)%list_elem_of_fmap). eauto.
  - intros (a & Ha & <- & Hk). exists a. split; [done|]. apply list_elem_of_fmap. eauto.
Qed.

(** ** The operations on it *)

Section Spec.
Context (parse_uuid : string -> option ActionID) (float_of : val -> option spec_float) (trig : string).

(** A position of [move_nodes]: skipped, or values the driver takes. *)
Definition movable (pos : list (string * val)) : bool :=
  match default VNone (dget pos "action_id"), default VNone (dget pos "x"), default VNone (dget pos "y") with
  | VNone, _, _ | _, VNone, _ | _, _, VNone => true
  | VStr s, x, y => match parse_uuid s, float_of x, float_of y with Some _, Some _, Some _ => true | _, _, _ => false end
  | _, _, _ => false
  end.

Definition payload_key (p : EdgePayload) : EdgeDedupKey := _edge_dedup_key (ep_source_id p) (ep_source_type p) (ep_source_handle p).

Definition source_known (g : KeyedGraph) (p : EdgePayload) : bool :=
  match ep_source_type p with
  | udf => match parse_uuid (ep_source_id p) with Some id => bool_decide (id ∈ nodes g) | None => false end
  | trigger => bool_decide (ep_source_id p = trig)
  end.
(** One operation ([None]: refused). *)
Definition spec_step (new_id : ActionID) (g : KeyedGraph) (op : GraphOperation) : option KeyedGraph :=
  match op with
  | OpAddNode _ => if decide (new_id ∈ nodes g) then None else Some (MkKeyed ({[new_id]} ∪ nodes g) (arrows g))
  | OpDeleteNode id => Some (MkKeyed (nodes g ∖ {[id]}) (filter (fun kt => k_source_id kt.1 <> id /\ kt.2 <> id) (arrows g)))
  | OpAddEdge p =>
      if source_known g p && bool_decide (ep_target_id p ∈ nodes g)
      then Some (MkKeyed (nodes g) ({[(payload_key p, ep_target_id p)]} ∪ arrows g)) else None
  | OpDeleteEdge p =>
      if bool_decide (ep_target_id p ∈ nodes g) then Some (MkKeyed (nodes g) (arrows g ∖ {[(payload_key p, ep_target_id p)]})) else None
  | OpMoveNodes ps => if forallb movable ps then Some g else None
  | OpUpdateNode _ | OpUpdateTriggerPosition _ _ | OpUpdateViewport _ _ _ => Some g
  end.

Definition spec_run (new_ids : nat -> ActionID) (ops : list GraphOperation) (g : KeyedGraph) : option KeyedGraph :=
  foldl (fun o '(i, op) => o ≫= fun g => spec_step (new_ids i) g op) (Some g) (imap pair ops).
End Spec.

Lemma keyed_graph_eq g g' : (forall t, t ∈ nodes g <-> t ∈ nodes g') -> (forall k t, (k, t) ∈ arrows g <-> (k, t) ∈ arrows g') -> g = g'.
Proof.
  destruct g as [n a], g' as [n' a']; cbn. intros Hn Ha. f_equal; apply set_eq; [done|]. intros [k t]. apply Ha.
Qed.

(** ** Rows that are updated *)

(** The graph is read off the ids and the edges. *)
Definition skeleton (w : Workflow) : list (ActionID * list val) := map (fun a => (n_id a, n_edges a)) (w_actions w).

Lemma skeleton_same w w' : skeleton w' = skeleton w -> keyed_graph w' = keyed_graph w /\ (well_formed w -> well_formed w').
Proof.
  intros Hs. assert (forall a', a' ∈ w_actions w' -> exists a, a ∈ w_actions w /\ n_id a = n_id a' /\ n_edges a = n_edges a') as Hback.
  { intros a' Ha'. assert ((n_id a', n_edges a') ∈ skeleton w) as (a & [= Hi He] & Ha)%list_elem_of_fmap; [|eauto].
    rewrite <- Hs. apply list_elem_of_fmap. eauto. }
  assert (node_ids w' = node_ids w) as Hids.
  { assert (forall v, node_ids v = map fst (skeleton v)) as H by (intros v; unfold node_ids, skeleton; by rewrite map_map).
    by rewrite !H, Hs. }
  split.
  - unfold keyed_graph. rewrite Hids. do 2 f_equal. assert (forall v, flat_map node_arrows (w_actions v) =
      flat_map (fun p => map (fun k => (k, p.1)) (keys p.2)) (skeleton v)) as H; [|by rewrite !H, Hs].
    intros v. unfold skeleton. by rewrite !flat_map_concat_map, map_map.
  - intros [H1 H2]. split; [by rewrite Hids|]. intros a' (a & Ha & _ & <-)%Hback. by apply H2.
Qed.

Lemma update_skeleton id f w : (forall a, n_id (f a) = n_id a /\ n_edges (f a) = n_edges a) -> skeleton (update_where id f w) = skeleton w.
Proof.
  intros Hf. unfold skeleton, update_where. cbn. rewrite map_map. apply map_ext. intros a. case_decide; [|done]. by destruct (Hf a) as [-> ->].
Qed.

Lemma select_action_spec w id :
  match select_action w id with
  | Some a => a ∈ w_actions w /\ n_id a = id
  | None => id ∉ nodes (keyed_graph w)
  end.
Proof.
  unfold select_action. destruct (List.find _ _) as [a|] eqn:E.
  - apply find_some in E as [Ha Hid]. apply bool_decide_eq_true in Hid. split; [by apply list_elem_of_In|done].
  - intros (a & Ha & Hid)%elem_nodes. apply list_elem_of_In in Ha. apply (find_none _ _ E) in Ha. by apply bool_decide_eq_false in Ha.
Qed.

Lemma same_id_same_row w a b : well_formed w -> a ∈ w_actions w -> b ∈ w_actions w -> n_id a = n_id b -> a = b.
Proof.
  intros [Hnd _]. unfold node_ids in Hnd. induction (w_actions w) as [|c l IH]; [by intros ?%elem_of_nil|].
  cbn in Hnd. apply NoDup_cons in Hnd as [Hc Hl]. intros [->|Ha]%elem_of_cons [->|Hb]%elem_of_cons Hid; [done| | |by apply IH].
  - exfalso. apply Hc. rewrite Hid. apply list_elem_of_fmap. eauto.
  - exfalso. apply Hc. rewrite <- Hid. apply list_elem_of_fmap. eauto.
Qed.

(** The edges of one row are replaced. *)
Lemma set_upstream_spec w a l : well_formed w -> a ∈ w_actions w -> all_keyed l -> NoDup (keys l) ->
  let w' := update_where (n_id a) (fun b => set_upstream_edges b l) w in
  well_formed w' /\ nodes (keyed_graph w') = nodes (keyed_graph w) /\
  forall k t, (k, t) ∈ arrows (keyed_graph w') <-> if decide (t = n_id a) then k ∈ keys l else (k, t) ∈ arrows (keyed_graph w).
Proof.
  intros Hwf Ha Hl Hkl w'. assert (node_ids w' = node_ids w) as Hids.
  { unfold node_ids, w', update_where. cbn. rewrite map_map. apply map_ext. intros b. by case_decide. }
  assert (forall b', b' ∈ w_actions w' <-> exists b, b ∈ w_actions w /\ b' = if decide (n_id b = n_id a) then set_upstream_edges b l else b) as Hrows.
  { intros b'. unfold w', update_where. cbn. rewrite list_elem_of_fmap. naive_solver. }
  split; [|split].
  - split; [rewrite Hids; apply Hwf|]. intros b' (b & Hb & ->)%Hrows. case_decide; [done|]. by apply Hwf.
  - unfold keyed_graph. cbn [nodes]. by rewrite Hids.
  - intros k t. rewrite elem_arrows. case_decide as Ht.
    + subst t. split.
      * intros (b' & (b & Hb & ->)%Hrows & Hid & Hk). case_decide as Hd; [done|]. congruence.
      * intros Hk. exists (set_upstream_edges a l). split; [|done]. apply Hrows. exists a. split; [done|]. by rewrite decide_True.
    + rewrite elem_arrows. split.
      * intros (b' & (b & Hb & ->)%Hrows & Hid & Hk). case_decide as Hd; [cbn in Hid; congruence|]. eauto.
      * intros (b & Hb & Hid & Hk). exists b. split; [|done]. apply Hrows. exists b. split; [done|]. rewrite decide_False by congruence. done.
Qed.

(** ** Every operation *)

(** What an operation keeps. *)
Definition same_row (w w' : Workflow) : Prop := w_id w' = w_id w /\ graph_version w' = graph_version w.

Lemma insert_refines w a : well_formed w -> all_keyed (n_edges a) -> NoDup (keys (n_edges a)) ->
  match insert_node w a with
  | Ok w' => n_id a ∉ nodes (keyed_graph w) /\ same_row w w' /\ well_formed w' /\
             nodes (keyed_graph w') = {[n_id a]} ∪ nodes (keyed_graph w) /\
             forall k t, (k, t) ∈ arrows (keyed_graph w') <-> (t = n_id a /\ k ∈ keys (n_edges a)) \/ (k, t) ∈ arrows (keyed_graph w)
  | Err _ => n_id a ∈ nodes (keyed_graph w)
  end.
Proof.
  intros [Hids Hedges] Hk Hnd. unfold insert_node. case_decide as Hin; [by apply elem_of_list_to_set|].
  split; [by intros H%elem_of_list_to_set|]. split; [done|]. split; [|split].
  - split.
    + unfold node_ids. cbn. rewrite map_app. cbn. apply NoDup_app. split; [done|]. split; [|apply NoDup_singleton].
      intros x Hx ->%list_elem_of_singleton. done.
    + cbn. intros b [Hb| ->%list_elem_of_singleton]%elem_of_app; [by apply Hedges|done].
  - apply set_eq. intros t. rewrite elem_of_union, elem_of_singleton, !elem_nodes. cbn. setoid_rewrite elem_of_app. setoid_rewrite list_elem_of_singleton. naive_solver.
  - intros k t. rewrite !elem_arrows. cbn. setoid_rewrite elem_of_app. setoid_rewrite list_elem_of_singleton. naive_solver.
Qed.

Section Refinement.
Context (parse_uuid : string -> option ActionID) (float_of : val -> option spec_float) (astext : val -> option string).
Hypothesis Htext : forall s, astext (VStr s) = Some s.

Lemma not_from_key id e k : edge_key e = Some k -> not_from astext id e = bool_decide (k_source_id k <> id).
Proof. intros (d & -> & Hi & _)%edge_key_Some. cbn. by rewrite Hi, Htext. Qed.

Lemma delete_edges_keys id edges : all_keyed edges ->
  let l := List.filter (not_from astext id) edges in
  all_keyed l /\ keys l = filter (fun k => k_source_id k <> id) (keys edges).
Proof.
  induction 1 as [|e edges [k He] _ [IH1 IH2]]; [split; [constructor|done]|]. cbn [List.filter].
  rewrite (not_from_key id e k He), (keys_cons _ _ edges He), filter_cons. case_bool_decide; case_decide; try done.
  split; [constructor; [by eexists|done]|]. by rewrite (keys_cons _ _ _ He), IH2.
Qed.

Lemma delete_refines w id : well_formed w -> let w' := _delete_node astext w id in
  same_row w w' /\ well_formed w' /\ spec_step parse_uuid float_of (trigger_id w) "" (keyed_graph w) (OpDeleteNode id) = Some (keyed_graph w').
Proof.
  intros [Hids Hedges] w'.
  assert (forall b', b' ∈ w_actions w' <-> exists b, b ∈ w_actions w /\ n_id b <> id /\ b' = set_upstream_edges b (List.filter (not_from astext id) (n_edges b))) as Hrows.
  { intros b'. unfold w', _delete_node. cbn. rewrite list_elem_of_In, filter_In, in_map_iff, bool_decide_eq_true.
    setoid_rewrite <- list_elem_of_In. naive_solver. }
  split; [done|]. split.
  - split.
    + unfold w', node_ids, _delete_node. cbn. clear -Hids. unfold node_ids in Hids. induction (w_actions w) as [|a l IH]; [constructor|].
      cbn in Hids |- *. apply NoDup_cons in Hids as [Ha Hl]. case_bool_decide; cbn; [|by apply IH]. constructor; [|by apply IH].
      intros (b & Hb & Hin)%list_elem_of_fmap. apply Ha. apply list_elem_of_In, filter_In in Hin as [Hin _].
      apply in_map_iff in Hin as (c & <- & Hc). cbn in Hb. rewrite Hb. apply list_elem_of_fmap. exists c. split; [done|by apply list_elem_of_In].
    + intros b' (b & Hb & _ & ->)%Hrows. cbn. destruct (Hedges b Hb) as [Hk Hnd]. destruct (delete_edges_keys id _ Hk) as [Hk' ->].
      split; [done|]. by apply NoDup_filter.
  - cbn [spec_step]. f_equal. symmetry. apply keyed_graph_eq.
    + intros t. cbn [nodes]. rewrite elem_of_difference, elem_of_singleton, !elem_nodes. setoid_rewrite Hrows. naive_solver.
    + intros k t. cbn [arrows]. rewrite elem_of_filter, !elem_arrows. cbn. split.
      * intros (b' & (b & Hb & Hne & ->)%Hrows & <- & Hk). cbn in Hk |- *. destruct (Hedges b Hb) as [Hk0 _].
        destruct (delete_edges_keys id _ Hk0) as [_ Hf]. rewrite Hf in Hk. apply list_elem_of_filter in Hk as [Hs Hk]. eauto 10.
      * intros ([Hs Hne] & b & Hb & <- & Hk). exists (set_upstream_edges b (List.filter (not_from astext id) (n_edges b))).
        split; [apply Hrows; eauto|]. split; [done|]. cbn. destruct (Hedges b Hb) as [Hk0 _].
        destruct (delete_edges_keys id _ Hk0) as [_ ->]. by apply list_elem_of_filter.
Qed.

Lemma add_edge_refines w p new_id : well_formed w ->
  match _add_edge parse_uuid w p with
  | Ok w' => same_row w w' /\ well_formed w' /\ spec_step parse_uuid float_of (trigger_id w) new_id (keyed_graph w) (OpAddEdge p) = Some (keyed_graph w')
  | Err _ => spec_step parse_uuid float_of (trigger_id w) new_id (keyed_graph w) (OpAddEdge p) = None
  end.
Proof.
  intros Hwf. unfold _add_edge. cbn [spec_step].
  set (check := match ep_source_type p with udf => _ | trigger => _ end).
  assert (match check with Ok _ => source_known parse_uuid (trigger_id w) (keyed_graph w) p = true
          | Err _ => source_known parse_uuid (trigger_id w) (keyed_graph w) p = false end) as Hcheck.
  { unfold check, source_known. destruct (ep_source_type p).
    - case_decide; case_bool_decide; done.
    - destruct (parse_uuid (ep_source_id p)) as [id|]; [|done]. pose proof (select_action_spec w id) as Hs.
      destruct (select_action w id); case_bool_decide as Hb; try done. exfalso. apply Hb, elem_nodes. eauto. }
  destruct check as [u|]; [|by rewrite Hcheck]. rewrite Hcheck. cbn [rbind andb]. clear Hcheck.
  pose proof (select_action_spec w (ep_target_id p)) as Hs. destruct (select_action w (ep_target_id p)) as [a|]; [|by rewrite bool_decide_eq_false_2].
  destruct Hs as [Ha Hid]. rewrite bool_decide_eq_true_2 by (apply elem_nodes; eauto). destruct (wf_edges _ Hwf a Ha) as [Hk Hnd].
  fold (payload_key p). destruct (without_key_spec (payload_key p) _ Hk) as (l & -> & Hl & Hkeys & _). cbn [rbind].
  assert (keys (l ++ [stored_edge (payload_key p)]) = filter (fun k => k <> payload_key p) (keys (n_edges a)) ++ [payload_key p]) as Hkl.
  { unfold keys. rewrite omap_app. fold (keys l). rewrite Hkeys. cbn. unfold payload_key. by rewrite edge_key_stored_edge. }
  rewrite <- Hid. destruct (set_upstream_spec w a (l ++ [stored_edge (payload_key p)])) as (Hwf' & Hn & Har); [done..| | |].
  - apply Forall_app. split; [done|]. constructor; [|constructor]. unfold payload_key. rewrite edge_key_stored_edge. by eexists.
  - rewrite Hkl. apply NoDup_app. split; [by apply NoDup_filter|]. split; [|apply NoDup_singleton].
    intros k [Hne _]%list_elem_of_filter ->%list_elem_of_singleton. done.
  - split; [done|]. split; [done|]. f_equal. symmetry. apply keyed_graph_eq; [by rewrite Hn|].
    intros k t. rewrite Har, Hkl. cbn [arrows]. rewrite elem_of_union, elem_of_singleton. case_decide as Ht.
    + subst t. rewrite elem_of_app, list_elem_of_filter, list_elem_of_singleton, elem_arrows.
      destruct (decide (k = payload_key p)) as [->|Hne]; [tauto|]. split.
      * intros [[_ Hin]|?]; [right; eauto|done].
      * intros [[= ?]|(b & Hb & Hbid & Hkb)]; [done|]. left. split; [done|]. by rewrite (same_id_same_row w b a Hwf Hb Ha Hbid) in Hkb.
    + split; [auto|]. intros [[= _ ?]|?]; [congruence|done].
Qed.

Lemma delete_edge_refines w p new_id : well_formed w ->
  match _delete_edge w p with
  | Ok w' => same_row w w' /\ well_formed w' /\ spec_step parse_uuid float_of (trigger_id w) new_id (keyed_graph w) (OpDeleteEdge p) = Some (keyed_graph w')
  | Err _ => spec_step parse_uuid float_of (trigger_id w) new_id (keyed_graph w) (OpDeleteEdge p) = None
  end.
Proof.
  intros Hwf. unfold _delete_edge. cbn [spec_step].
  pose proof (select_action_spec w (ep_target_id p)) as Hs. destruct (select_action w (ep_target_id p)) as [a|]; [|by rewrite bool_decide_eq_false_2].
  destruct Hs as [Ha Hid]. rewrite bool_decide_eq_true_2 by (apply elem_nodes; eauto). destruct (wf_edges _ Hwf a Ha) as [Hk Hnd].
  fold (payload_key p). destruct (without_key_spec (payload_key p) _ Hk) as (l & -> & Hl & Hkeys & _). cbn [rbind].
  rewrite <- Hid. destruct (set_upstream_spec w a l) as (Hwf' & Hn & Har); [done..|rewrite Hkeys; by apply NoDup_filter|].
  split; [done|]. split; [done|]. f_equal. symmetry. apply keyed_graph_eq; [by rewrite Hn|].
  intros k t. rewrite Har, Hkeys. cbn [arrows]. rewrite elem_of_difference, elem_of_singleton. case_decide as Ht.
  - subst t. rewrite list_elem_of_filter, elem_arrows. split.
    + intros [Hne Hin]. split; [eauto|]. intros [= ?]. done.
    + intros [(b & Hb & Hbid & Hkb) Hne]. split; [congruence|]. by rewrite (same_id_same_row w b a Hwf Hb Ha Hbid) in Hkb.
  - split; [|tauto]. intros H. split; [done|]. intros [= _ ?]. congruence.
Qed.
Lemma move_refines pos w :
  match _move_node parse_uuid float_of pos w with
  | Ok w' => movable parse_uuid float_of pos = true /\ same_row w w' /\ skeleton w' = skeleton w
  | Err _ => movable parse_uuid float_of pos = false
  end.
Proof.
  assert (true = true /\ same_row w w /\ skeleton w = skeleton w) as Hskip by done.
  unfold _move_node, movable.
  destruct (default VNone (dget pos "action_id")) as [| | | |s| |]; [exact Hskip|..];
    (destruct (default VNone (dget pos "x")) eqn:Ex; [exact Hskip|..]);
    (destruct (default VNone (dget pos "y")) eqn:Ey; [exact Hskip|..]); try done.
  all: destruct (parse_uuid s) as [id|]; [|done].
  all: repeat match goal with |- context [match float_of ?v with _ => _ end] => destruct (float_of v) end; try done.
  all: split; [done|]; split; [done|]; by apply update_skeleton.
Qed.

Lemma step_refines new_id w op : well_formed w ->
  match _apply_operation parse_uuid float_of astext new_id w op with
  | Ok w' => same_row w w' /\ well_formed w' /\ spec_step parse_uuid float_of (trigger_id w) new_id (keyed_graph w) op = Some (keyed_graph w')
  | Err _ => spec_step parse_uuid float_of (trigger_id w) new_id (keyed_graph w) op = None
  end.
Proof.
  intros Hwf. assert (forall w', same_row w w' -> skeleton w' = skeleton w -> same_row w w' /\ well_formed w' /\ Some (keyed_graph w) = Some (keyed_graph w')) as Hsame.
  { intros w' Hr Hs. destruct (skeleton_same w w' Hs) as [-> Hw]. auto. }
  destruct op as [p|p|id|p|p|ps|x y|x y z]; cbn [_apply_operation].
  - unfold _add_node. set (a := MkNode _ _ _ _ _ _ _ _ _ _ _). pose proof (insert_refines w a Hwf (List.Forall_nil _) (NoDup_nil_2)) as H.
    destruct (insert_node w a) as [w'|]; cbn [spec_step].
    + destruct H as (Hn & Hr & Hw & Hnodes & Harr). split; [done|]. split; [done|]. rewrite decide_False by done. f_equal. symmetry.
      apply keyed_graph_eq; [by rewrite Hnodes|]. intros k t. rewrite Harr. cbn. split; [|auto]. intros [[_ Hk]|?]; [by apply elem_of_nil in Hk|done].
    + by rewrite decide_True.
  - apply Hsame; [done|]. by apply update_skeleton.
  - by apply delete_refines.
  - by apply add_edge_refines.
  - by apply delete_edge_refines.
  - cbn [spec_step]. unfold _move_nodes. assert (forall ps v, same_row w v -> skeleton v = skeleton w ->
      match rfor (_move_node parse_uuid float_of) ps v with
      | Ok w' => forallb (movable parse_uuid float_of) ps = true /\ same_row w w' /\ skeleton w' = skeleton w
      | Err _ => forallb (movable parse_uuid float_of) ps = false end) as H.
    { clear ps. induction ps as [|pos ps IH]; intros v Hr Hs; cbn; [done|]. pose proof (move_refines pos v) as Hm.
      destruct (_move_node parse_uuid float_of pos v) as [v'|]; cbn; [|by rewrite Hm]. destruct Hm as (-> & Hr' & Hs'). cbn.
      apply IH; [|congruence]. destruct Hr, Hr'. split; congruence. }
    specialize (H ps w (conj eq_refl eq_refl) eq_refl). destruct (rfor _ ps w) as [w'|]; [|by rewrite H]. destruct H as (-> & Hr & Hs). by apply Hsame.
  - by apply Hsame.
  - by apply Hsame.
Qed.

Lemma run_refines new_ids ops w : well_formed w ->
  match run_operations parse_uuid float_of astext new_ids ops w with
  | Ok w' => same_row w w' /\ well_formed w' /\ spec_run parse_uuid float_of (trigger_id w) new_ids ops (keyed_graph w) = Some (keyed_graph w')
  | Err _ => spec_run parse_uuid float_of (trigger_id w) new_ids ops (keyed_graph w) = None
  end.
Proof.
  unfold run_operations, spec_run. revert w. induction (imap pair ops) as [|[i op] l IH]; intros w Hwf; cbn [rfor foldl]; [done|].
  pose proof (step_refines (new_ids i) w op Hwf) as Hs. cbn [mbind option_bind].
  destruct (_apply_operation _ _ _ (new_ids i) w op) as [w1|e]; cbn [rbind].
  - destruct Hs as ([Hid Hv] & Hwf1 & ->). specialize (IH w1 Hwf1). unfold trigger_id in *. rewrite Hid in IH.
    destruct (rfor _ l w1) as [w'|]; [|done]. destruct IH as ([Hid' Hv'] & Hwf' & ->). split; [|done]. split; congruence.
  - rewrite Hs. clear. induction l as [|[j op'] l IH]; [done|]. apply IH.
Qed.

(** ** The answers *)

(** What the editor shows of a graph of [ActionEdge]s. *)
Definition view (w : Workflow) : GraphResponse :=
  MkGraph (graph_version w)
    (MkRFGraph (MkTriggerNode (trigger_id w) (trigger_position w) (if decide (w_status w = "online") then "online" else "offline"))
       (map (fun a => MkUDFNode (n_id a) (n_x a, n_y a) (n_type a)) (w_actions w))
       (flat_map (fun a => map (shown (n_id a)) (keys (n_edges a))) (w_actions w)))
    (viewport w).

Lemma graph_response_shown w : (forall a, a ∈ w_actions w -> all_keyed (n_edges a)) -> graph_response w = Ok (view w).
Proof.
  intros Hedges. unfold graph_response, from_actions.
  assert (rmap (fun a => rmap (rf_edge (n_id a)) (n_edges a)) (w_actions w) = Ok (map (fun a => map (shown (n_id a)) (keys (n_edges a))) (w_actions w))) as ->.
  { induction (w_actions w) as [|a l IH]; cbn; [done|]. pose proof (Hedges a ltac:(by left)) as Hk.
    assert (rmap (rf_edge (n_id a)) (n_edges a) = Ok (map (shown (n_id a)) (keys (n_edges a)))) as ->.
    { clear -Hk. induction Hk as [|e edges [k He] _ IH]; [done|]. cbn. by rewrite (edge_key_shown _ e k He), IH, (keys_cons _ _ _ He). }
    cbn. rewrite IH; [done|]. intros b Hb. apply Hedges. by right. }
  cbn. unfold view. by rewrite flat_map_concat_map.
Qed.

Lemma graph_response_view w : well_formed w -> graph_response w = Ok (view w).
Proof. intros Hw. apply graph_response_shown. intros a Ha. by apply (wf_edges _ Hw). Qed.

Lemma well_formed_version w v : well_formed w -> well_formed (set_version w v).
Proof. by intros [? ?]. Qed.

(** C14: a batch of the graph editor is one transaction that refines the operations on a set of
    nodes and a set of keyed edges: against a stale version nothing changes and the current
    graph is answered; otherwise either every operation is accepted and the new graph is the
    result of the operations, with a new version exactly when one of them is structural, or one
    is refused and nothing changes. *)
Theorem graph_batches_refine new_ids base ops w w' answer : well_formed w ->
  apply_operations parse_uuid float_of astext new_ids base ops w = (w', answer) ->
  well_formed w' /\
  (graph_version w <> base -> w' = w /\ answer = VersionConflict (graph_version w) (view w)) /\
  (graph_version w = base ->
   match spec_run parse_uuid float_of (trigger_id w) new_ids ops (keyed_graph w) with
   | Some g => keyed_graph w' = g /\ answer = Graph (view w') /\
               graph_version w' = graph_version w + (if existsb _is_structural ops then 1 else 0)
   | None => w' = w /\ exists e, answer = Raised e
   end).
Proof.
  intros Hwf. unfold apply_operations, graph_transaction. case_decide as Hv.
  - rewrite graph_response_view by done. intros [= <- <-]. done.
  - pose proof (run_refines new_ids ops w Hwf) as H. destruct (run_operations _ _ _ _ _ _) as [w1|e].
    + destruct H as ([_ Hgv] & Hwf1 & ->). set (w2 := if existsb _is_structural ops then _ else _).
      assert (well_formed w2 /\ keyed_graph w2 = keyed_graph w1 /\ graph_version w2 = graph_version w + (if existsb _is_structural ops then 1 else 0)) as (Hw2 & Hg2 & Hv2).
      { unfold w2. destruct (existsb _is_structural ops); [|rewrite Hgv; split; [done|]; split; [done|lia]].
        split; [by apply well_formed_version|]. split; [done|]. cbn. by rewrite Hgv. }
      rewrite graph_response_view by done. intros [= <- <-]. split; [done|]. split; [done|]. intros _. done.
    + rewrite H. intros [= <- <-]. split; [done|]. split; [done|]. intros _. eauto.
Qed.
End Refinement.
