(* ===== verification/GraphEditInv.v ===== *)
(** Graphs that are consistent, with no dangling and no repeated edge: what batches and the
    reconciliation make of them, and what a batch does to the version. *)

From S2P Require Import Prelude PyStr Base62 PyVal PyOps DslTypes DslBuild GraphEdit GraphEditFacts.

Section Invariant.
Context (parse_uuid : string -> option ActionID) (float_of : val -> option spec_float) (astext : val -> option string)
  (str_of_other : val -> result string).
Hypothesis Htext : forall s, astext (VStr s) = Some s.

Abbreviation patched := (apply_operations parse_uuid float_of astext).
Abbreviation reconciled := (reconcile str_of_other).

(** ** Reconciliation *)

Definition stays (w : Workflow) (e : val) : bool := match edge_stays str_of_other w e with Ok b => b | Err _ => false end.

Lemma stale_filter_spec w edges l changed : stale_filter str_of_other w edges = Ok (l, changed) ->
  l = List.filter (stays w) edges /\ (changed = false <-> l = edges) /\ Forall (fun e => is_ok (edge_stays str_of_other w e) = true) edges.
Proof.
  revert l changed. induction edges as [|e edges IH]; intros l changed; cbn; [by intros [= <- <-]|].
  unfold stays at 1. destruct (edge_stays str_of_other w e) as [b|] eqn:Eb; [|done]. cbn.
  destruct (stale_filter str_of_other w edges) as [[l1 c1]|]; [|done]. cbn. destruct (IH l1 c1 eq_refl) as (-> & Hc & Hok).
  assert (length (List.filter (stays w) edges) <= length edges)%nat as Hlen by apply filter_length_le.
  destruct b; intros [= <- <-]; (split; [done|]); (split; [|constructor; [by rewrite Eb|done]]).
  - rewrite Hc. split; [by intros ->|by intros [= ->]].
  - split; [done|]. intros H. rewrite H in Hlen. cbn in Hlen. lia.
Qed.

Lemma stale_filter_Ok w edges : Forall (fun e => is_ok (edge_stays str_of_other w e) = true) edges ->
  exists c, stale_filter str_of_other w edges = Ok (List.filter (stays w) edges, c).
Proof.
  induction 1 as [|e edges He _ (c & IH)]; cbn; [by exists false|]. unfold stays at 1.
  destruct (edge_stays str_of_other w e) as [b|]; [|done]. cbn. rewrite IH. cbn. destruct b; eauto.
Qed.

Definition cleaned (w : Workflow) : Workflow :=
  set_actions w (map (fun a => set_upstream_edges a (List.filter (stays w) (n_edges a))) (w_actions w)).

Definition readable (w : Workflow) : Prop := forall a e, a ∈ w_actions w -> e ∈ n_edges a -> is_ok (edge_stays str_of_other w e) = true.

Lemma set_upstream_same a l : set_upstream_edges a l = a <-> l = n_edges a.
Proof. destruct a; cbn. split; [by intros [=]|by intros ->]. Qed.

Definition reconcile_row (w : Workflow) (a : Node) : result (Node * bool) :=
  let! (l, changed) := stale_filter str_of_other w (n_edges a) in Ok (set_upstream_edges a l, changed).

Lemma reconcile_rows w acts rows : rmap (reconcile_row w) acts = Ok rows ->
  map fst rows = map (fun a => set_upstream_edges a (List.filter (stays w) (n_edges a))) acts /\
  Forall (fun a => Forall (fun e => is_ok (edge_stays str_of_other w e) = true) (n_edges a)) acts /\
  (existsb snd rows = false <-> map fst rows = acts).
Proof.
  intros H%rmap_Ok. induction H as [|a [b c] acts rows Hab _ (IH1 & IH2 & IH3)]; cbn; [done|].
  unfold reconcile_row in Hab. destruct (stale_filter str_of_other w (n_edges a)) as [[l c']|] eqn:E; [|done]. cbn in Hab. injection Hab as <- <-.
  apply stale_filter_spec in E as (-> & Hc & Hok). split; [by rewrite IH1|]. split; [by constructor|].
  rewrite orb_false_iff, IH3, Hc, <- set_upstream_same. split; [by intros [-> ->]|by intros [= -> ->]].
Qed.

(** [cleaned w]: only the edges that stay. *)
Lemma reconcile_spec w w' changed : reconciled w = Ok (w', changed) -> w' = cleaned w /\ readable w /\ (changed = false <-> w' = w).
Proof.
  unfold reconcile. fold (reconcile_row w). destruct (rmap (reconcile_row w) (w_actions w)) as [rows|] eqn:Er; [|done]. cbn. intros [= <- <-].
  apply reconcile_rows in Er as (H1 & H2 & H3). split; [unfold cleaned; by rewrite H1|]. split.
  - intros a e Ha He. rewrite Forall_forall in H2. specialize (H2 a Ha). rewrite Forall_forall in H2. by apply H2.
  - rewrite H3. destruct w; cbn. split; [by intros ->|by intros [= ->]].
Qed.

Lemma reconcile_total w : readable w -> exists changed, reconciled w = Ok (cleaned w, changed).
Proof.
  intros Hr. unfold reconcile. fold (reconcile_row w).
  assert (exists rows, rmap (reconcile_row w) (w_actions w) = Ok rows) as [rows Hrows].
  { unfold readable in Hr. induction (w_actions w) as [|a acts IH]; cbn; [by eexists|]. unfold reconcile_row at 1.
    destruct (stale_filter_Ok w (n_edges a)) as [c ->]; [apply Forall_forall; intros e He; apply (Hr a); [by left|done]|]. cbn.
    destruct IH as [rows ->]; [intros b e Hb; apply Hr; by right|]. cbn. by eexists. }
  rewrite Hrows. cbn. apply reconcile_rows in Hrows as (H1 & _). unfold cleaned. rewrite H1. by eexists.
Qed.

Lemma stays_cleaned w e : edge_stays str_of_other (cleaned w) e = edge_stays str_of_other w e.
Proof.
  unfold edge_stays, cleaned, node_ids. cbn. rewrite map_map. done.
Qed.

(** The edge comes from the trigger of the workflow or from one of its actions. *)
Definition live_source (w : Workflow) (e : val) : Prop :=
  exists d s, e = VDict d /\ py_str str_of_other (default (VStr "") (dget d "source_id")) = Ok s /\
    match dget d "source_type" with
    | None => s ∈ node_ids w
    | Some t => (t = VStr "trigger" /\ s = trigger_id w) \/ (t = VStr "udf" /\ s ∈ node_ids w)
    end.

Lemma stays_live w e : stays w e = true <-> live_source w e.
Proof.
  unfold stays, live_source, edge_stays. destruct e as [| | | | | |d]; try (split; [done|by intros (d' & s' & [=] & _)]).
  destruct (py_str str_of_other (default (VStr "") (dget d "source_id"))) as [s|x] eqn:Es; cbn; [|split; [done|by intros (d' & s' & [= <-] & Hs & _); rewrite Es in Hs]].
  split.
  - intros H. exists d, s. split; [done|]. split; [done|]. destruct (dget d "source_type") as [t|]; cbn in H.
    + case_decide; [left; split; [done|]; by apply bool_decide_eq_true in H|]. case_decide; [|done]. right. split; [done|]. by apply bool_decide_eq_true in H.
    + by apply bool_decide_eq_true in H.
  - intros (d' & s' & [= <-] & Hs & H). rewrite Es in Hs. injection Hs as <-. destruct (dget d "source_type") as [t|]; cbn.
    + destruct H as [[-> ->]|[-> Hin]]; cbn; by apply bool_decide_eq_true.
    + by apply bool_decide_eq_true.
Qed.

(** C19: the reconciliation keeps of every action exactly the edges from this workflow's trigger
    and from its actions, and everything else of the rows; it reports a change exactly when
    there was something to remove; and done again it finds nothing. *)
Theorem reconcile_exact w w' changed : reconciled w = Ok (w', changed) ->
  w' = set_actions w (map (fun a => set_upstream_edges a (List.filter (stays w) (n_edges a))) (w_actions w)) /\
  (forall e, stays w e = true <-> live_source w e) /\
  (changed = false <-> w' = w) /\ reconciled w' = Ok (w', false).
Proof.
  intros (-> & Hr & Hc)%reconcile_spec. split; [done|]. split; [apply stays_live|]. split; [done|].
  assert (forall l, List.filter (stays (cleaned w)) (List.filter (stays w) l) = List.filter (stays w) l) as Htwice.
  { induction l as [|e l IH]; cbn; [done|]. destruct (stays w e) eqn:E; cbn; [|done]. unfold stays at 1. rewrite stays_cleaned.
    fold (stays w e). by rewrite E, IH. }
  assert (cleaned (cleaned w) = cleaned w) as Hcc.
  { unfold cleaned at 1. set (again := stays (cleaned w)) in *. clearbody again. unfold cleaned, set_actions. cbn. f_equal.
    rewrite map_map. apply map_ext. intros a. unfold set_upstream_edges. cbn. by rewrite Htwice. }
  destruct (reconcile_total (cleaned w)) as [c Hc'].
  - intros a e Ha He. rewrite stays_cleaned. unfold cleaned in Ha. cbn in Ha. apply list_elem_of_fmap in Ha as (b & -> & Hb). cbn in He.
    apply list_elem_of_In, filter_In in He as [He _]. apply (Hr b); [done|by apply list_elem_of_In].
  - rewrite Hcc in Hc'. rewrite Hc'. do 2 f_equal. by apply (reconcile_spec _ _ _ Hc').
Qed.

(** ** Consistent graphs *)

(** The source of an arrow exists. *)
Definition live (trig : string) (g : KeyedGraph) (k : EdgeDedupKey) : Prop :=
  match k_source_type k with trigger => k_source_id k = trig | udf => k_source_id k ∈ nodes g end.
Definition no_dangling (trig : string) (g : KeyedGraph) : Prop := forall k t, (k, t) ∈ arrows g -> live trig g k.
Definition consistent (w : Workflow) : Prop := well_formed w /\ no_dangling (trigger_id w) (keyed_graph w).

(** Edges are added with the ids as the server spells them. *)
Definition canonical (op : GraphOperation) : Prop :=
  match op with
  | OpAddEdge p => ep_source_type p = udf -> forall id, parse_uuid (ep_source_id p) = Some id -> id = ep_source_id p
  | _ => True
  end.

Lemma live_more trig g n k : live trig g k -> nodes g ⊆ n -> forall a, live trig (MkKeyed n a) k.
Proof. unfold live. destruct (k_source_type k); [done|]. set_solver. Qed.

Lemma step_no_dangling trig new_id g op g' : canonical op -> no_dangling trig g ->
  spec_step parse_uuid float_of trig new_id g op = Some g' -> no_dangling trig g'.
Proof.
  intros Hcan Hg. destruct op as [p|p|id|p|p|ps|x y|x y z]; cbn [spec_step].
  - case_decide; [done|]. intros [= <-] k t Hk. apply (live_more trig g); [by eapply Hg|set_solver].
  - by intros [= <-].
  - intros [= <-] k t. cbn [arrows]. intros [[Hne _] Hk]%elem_of_filter. cbn in Hne. specialize (Hg k t Hk). unfold live in *.
    destruct (k_source_type k); [done|]. cbn. set_solver.
  - destruct (source_known parse_uuid trig g p && bool_decide (ep_target_id p ∈ nodes g)) eqn:E; [|done].
    apply andb_true_iff in E as [Hs _]. intros [= <-] k t. cbn [arrows]. intros [[= -> ->]%elem_of_singleton|Hk]%elem_of_union.
    + unfold live, payload_key, source_known in *. cbn [canonical] in Hcan. destruct (ep_source_type p); cbn; [by apply bool_decide_eq_true in Hs|].
      destruct (parse_uuid (ep_source_id p)) as [id|] eqn:Ep; [|done]. apply bool_decide_eq_true in Hs. by rewrite <- (Hcan eq_refl id eq_refl).
    + apply (live_more trig g); [by eapply Hg|done].
  - case_bool_decide; [|done]. intros [= <-] k t. cbn [arrows]. intros [Hk _]%elem_of_difference. apply (live_more trig g); [by eapply Hg|done].
  - destruct (forallb _ ps); [|done]. by intros [= <-].
  - by intros [= <-].
  - by intros [= <-].
Qed.

Lemma run_no_dangling trig new_ids ops g g' : Forall canonical ops -> no_dangling trig g ->
  spec_run parse_uuid float_of trig new_ids ops g = Some g' -> no_dangling trig g'.
Proof.
  intros Hops. unfold spec_run. assert (Forall (fun p => canonical p.2) (imap pair ops)) as Hl.
  { apply Forall_lookup. intros i [j op] Hi. rewrite list_lookup_imap in Hi. apply fmap_Some in Hi as (op' & Hop & [= -> ->]). cbn.
    by eapply (proj1 (Forall_lookup _ _) Hops). }
  clear Hops. revert g. induction Hl as [|[i op] l Hop _ IH]; intros g Hg; cbn [foldl]; [by intros [= <-]|].
  cbn [mbind option_bind]. destruct (spec_step parse_uuid float_of trig (new_ids i) g op) as [g1|] eqn:E.
  - apply IH. by eapply step_no_dangling.
  - intros H. exfalso. revert H. clear. induction l as [|[j op'] l IH]; [done|]. apply IH.
Qed.

Lemma consistent_skeleton w w' : w_id w' = w_id w -> skeleton w' = skeleton w -> consistent w -> consistent w'.
Proof.
  intros Hid Hs [Hwf Hd]. destruct (skeleton_same w w' Hs) as [Hg Hw]. split; [auto|]. unfold trigger_id in *. by rewrite Hg, Hid.
Qed.

(** Every edge of a consistent graph stays. *)
Lemma consistent_stays w a e : consistent w -> a ∈ w_actions w -> e ∈ n_edges a -> edge_stays str_of_other w e = Ok true.
Proof.
  intros [Hwf Hd] Ha He. destruct (wf_edges _ Hwf a Ha) as [Hk _]. unfold all_keyed in Hk. rewrite Forall_forall in Hk.
  destruct (Hk e He) as [k Hek]. assert (live (trigger_id w) (keyed_graph w) k) as Hlive.
  { apply (Hd k (n_id a)), elem_arrows. exists a. split; [done|]. split; [done|]. apply list_elem_of_omap. eauto. }
  apply edge_key_Some in Hek as (d & -> & Hi & Hty). cbn. rewrite Hi. cbn. unfold live in Hlive. destruct (k_source_type k).
  - destruct Hty as [-> _]. cbn. f_equal. by apply bool_decide_eq_true.
  - destruct Hty as [-> _]. cbn. f_equal. apply bool_decide_eq_true. by apply elem_of_list_to_set in Hlive.
Qed.

Lemma consistent_reconciled w : consistent w -> reconciled w = Ok (w, false).
Proof.
  intros Hc. destruct (reconcile_total w) as [c Hr].
  - intros a e Ha He. by rewrite (consistent_stays w a e Hc Ha He).
  - assert (cleaned w = w) as Heq.
    { unfold cleaned. assert (forall acts, (forall a, a ∈ acts -> a ∈ w_actions w) -> map (fun a => set_upstream_edges a (List.filter (stays w) (n_edges a))) acts = acts) as H.
      { induction acts as [|a acts IH]; intros Hin; cbn; [done|]. rewrite IH by (intros b Hb; apply Hin; by right). f_equal. apply set_upstream_same.
        assert (forall l, (forall e, e ∈ l -> e ∈ n_edges a) -> List.filter (stays w) l = l) as Hl; [|by apply Hl].
        induction l as [|e l IHl]; intros Hsub; cbn; [done|]. unfold stays at 1. rewrite (consistent_stays w a e Hc) by (apply Hin || apply Hsub; by left).
        f_equal. apply IHl. intros x Hx. apply Hsub. by right. }
      rewrite H by done. by destruct w. }
    rewrite Heq in Hr. rewrite Hr. do 2 f_equal. by apply (reconcile_spec _ _ _ Hr).
Qed.

Lemma batch_consistent new_ids base ops w : Forall canonical ops -> consistent w -> consistent (patched new_ids base ops w).1.
Proof.
  intros Hops [Hwf Hd]. unfold apply_operations, graph_transaction. case_decide as Hv; [done|].
  pose proof (run_refines parse_uuid float_of astext Htext new_ids ops w Hwf) as H.
  destruct (run_operations _ _ _ _ _ _) as [w1|e]; [|done]. destruct H as ([Hid _] & Hwf1 & Hs). cbn.
  assert (consistent w1) as [Hw1 Hd1].
  { split; [done|]. unfold trigger_id. rewrite Hid. by eapply run_no_dangling. }
  destruct (existsb _is_structural ops); [|done]. split; [by apply well_formed_version|done].
Qed.
End Invariant.

(** ** Versions *)

Section Versions.
Context (parse_uuid : string -> option ActionID) (float_of : val -> option spec_float) (astext : val -> option string).

Abbreviation patched := (apply_operations parse_uuid float_of astext).

(** Everything but the layout and the version. *)
Definition content_row (a : Node) :=
  (n_id a, n_type a, n_title a, n_description a, n_inputs a, n_control_flow a, n_is_interactive a, n_interaction a, n_edges a).
Definition content (w : Workflow) := (w_id w, map content_row (w_actions w)).

Lemma content_skeleton w w' : content w' = content w -> w_id w' = w_id w /\ skeleton w' = skeleton w.
Proof.
  intros [= Hid Hc]. split; [done|].
  assert (forall v, skeleton v = map (fun '(id, _, _, _, _, _, _, _, edges) => (id, edges)) (map content_row (w_actions v))) as H.
  { intros v. unfold skeleton. by rewrite map_map. }
  by rewrite !H, Hc.
Qed.

Lemma move_content id x y w : content (update_where id (set_position x y) w) = content w.
Proof. unfold content, update_where. cbn. f_equal. rewrite map_map. apply map_ext. intros a. by case_decide. Qed.

Lemma moves_content ps w w' : _move_nodes parse_uuid float_of w ps = Ok w' -> content w' = content w /\ graph_version w' = graph_version w.
Proof.
  unfold _move_nodes. revert w. induction ps as [|pos ps IH]; intros w; cbn [rfor]; [by intros [= <-]|].
  assert (forall v, _move_node parse_uuid float_of pos w = Ok v -> content v = content w /\ graph_version v = graph_version w) as Hm.
  { intros v. unfold _move_node. repeat case_match; try done; intros [= <-]; try done; (split; [apply move_content|done]). }
  destruct (_move_node parse_uuid float_of pos w) as [v|] eqn:E; [|done]. cbn [rbind]. destruct (Hm v eq_refl) as [<- <-]. apply IH.
Qed.

(** The loop leaves the version; layout operations leave the content. *)
Lemma step_content new_id w op w' : _apply_operation parse_uuid float_of astext new_id w op = Ok w' ->
  graph_version w' = graph_version w /\ (_is_structural op = false -> content w' = content w).
Proof.
  destruct op as [p|p|id|p|p|ps|x y|x y z]; cbn [_apply_operation].
  - unfold _add_node, insert_node. case_decide; [done|]. by intros [= <-].
  - by intros [= <-].
  - by intros [= <-].
  - unfold _add_edge. destruct (match ep_source_type p with udf => _ | trigger => _ end); [|done]. cbn [rbind].
    destruct (select_action w _); [|done]. destruct (without_key _ _); [|done]. by intros [= <-].
  - unfold _delete_edge. destruct (select_action w _); [|done]. destruct (without_key _ _); [|done]. by intros [= <-].
  - intros [? ?]%moves_content. done.
  - by intros [= <-].
  - by intros [= <-].
Qed.

Lemma run_content new_ids ops w w' : run_operations parse_uuid float_of astext new_ids ops w = Ok w' ->
  graph_version w' = graph_version w /\ (existsb _is_structural ops = false -> content w' = content w).
Proof.
  unfold run_operations. assert (existsb _is_structural ops = existsb (fun p => _is_structural p.2) (imap pair ops)) as ->.
  { assert (forall f : nat -> nat, existsb (fun p => _is_structural p.2) (imap (fun i op => (f i, op)) ops) = existsb _is_structural ops) as H; [|symmetry; apply (H id)].
    induction ops as [|op ops IH]; intros f; cbn; [done|]. f_equal. apply (IH (fun i => f (S i))). }
  revert w. induction (imap pair ops) as [|[i op] l IH]; intros w; cbn [rfor existsb snd]; [by intros [= <-]|].
  destruct (_apply_operation _ _ _ (new_ids i) w op) as [w1|] eqn:E; [|done]. cbn [rbind]. intros H.
  apply step_content in E as [Hv Hc]. apply IH in H as [Hv' Hc']. split; [congruence|].
  intros [Hop Hl]%orb_false_iff. by rewrite Hc', Hc.
Qed.
End Versions.

(** ** Examples *)

Definition ex_float : spec_float := S754_zero false.
Definition ex_node (id : ActionID) (edges : list val) : Node :=
  MkNode id "core.http_request" id "" "" (VDict []) false VNone ex_float ex_float edges.
Definition ex_flow : Workflow :=
  MkWorkflow "w" 7 "offline" (ex_float, ex_float) (ex_float, ex_float, ex_float)
    [ex_node "a" [stored_edge (MkKey "trigger-w" trigger None)]; ex_node "b" [stored_edge (MkKey "a" udf (Some EdgeSUCCESS))]].

Definition float_value (v : val) : option spec_float := match v with VFloat f => Some f | _ => None end.
Definition text_value (v : val) : option string := match v with VStr s => Some s | _ => None end.
Definition other_str (v : val) : result string := raise TypeError "str".
Definition ex_batch (ops : list GraphOperation) (base : Z) (w : Workflow) : Workflow * Answer :=
  apply_operations Some float_value text_value (fun i => nth i ["c"; "d"; "e"] "") base ops w.

Lemma ex_flow_well_formed : well_formed ex_flow.
Proof.
  split; [apply (bool_decide_unpack (NoDup ["a"; "b"])); vm_compute; exact I|].
  intros a. cbn. rewrite !elem_of_cons. intros [->|[->|Ha]]; [..|by apply elem_of_nil in Ha]; (split; [repeat constructor; by eexists|]);
    apply NoDup_singleton.
Qed.

Lemma ex_flow_consistent : consistent ex_flow.
Proof.
  split; [apply ex_flow_well_formed|]. intros k t (a & Ha & <- & Hk)%elem_arrows. cbn in Ha. rewrite !elem_of_cons in Ha.
  destruct Ha as [->|[->|Ha]]; [..|by apply elem_of_nil in Ha]; apply list_elem_of_singleton in Hk as ->; [done|].
  apply (bool_decide_unpack ("a" ∈ nodes (keyed_graph ex_flow))). vm_compute. exact I.
Qed.

Definition ex_ops : list GraphOperation :=
  [OpAddNode (MkAddNode "core.transform.reshape" "c" None None None ex_float ex_float);
   OpAddEdge (MkEdgePayload "a" udf "b" (Some EdgeERROR)); OpAddEdge (MkEdgePayload "b" udf "b" None); OpDeleteNode "a"].

(** The arrows left: the deletion took both edges from [a]. *)
Lemma graph_batches_refine_witness :
  let '(w', answer) := ex_batch ex_ops 7 ex_flow in
  well_formed w' /\ answer = Graph (view w') /\ graph_version w' = 8 /\
  elements (arrows (keyed_graph w')) = [(MkKey "b" udf (Some EdgeSUCCESS), "b")].
Proof.
  destruct (ex_batch ex_ops 7 ex_flow) as [w' answer] eqn:E.
  destruct (graph_batches_refine Some float_value text_value (fun _ => eq_refl) (fun i => nth i ["c"; "d"; "e"] "") 7 ex_ops ex_flow w' answer
    ex_flow_well_formed E) as (Hwf & _ & H).
  split; [exact Hwf|]. specialize (H eq_refl). destruct (spec_run _ _ _ _ _ _) as [g|] eqn:Eg; [|vm_compute in Eg; discriminate].
  destruct H as (-> & -> & ->). split; [reflexivity|]. split; [reflexivity|]. vm_compute in Eg. injection Eg as <-. vm_compute. reflexivity.
Defined.

(** A dangling edge, an edge without a type and one from another trigger. *)
Definition ex_stale : Workflow :=
  set_actions ex_flow [ex_node "a" [VDict [("source_id", VStr "trigger-v"); ("source_type", VStr "trigger")]];
                       ex_node "b" [VDict [("source_id", VStr "a")]; stored_edge (MkKey "gone" udf (Some EdgeERROR))]].

Lemma reconcile_exact_witness : exists w', reconcile other_str ex_stale = Ok (w', true) /\
  map n_edges (w_actions w') = [[]; [VDict [("source_id", VStr "a")]]] /\ reconcile other_str w' = Ok (w', false).
Proof.
  destruct (reconcile other_str ex_stale) as [[w' c]|e] eqn:E; [|vm_compute in E; discriminate]. exists w'.
  destruct (reconcile_exact other_str ex_stale w' c E) as (_ & _ & _ & H). vm_compute in E. injection E as <- <-.
  split; [reflexivity|]. split; [reflexivity|exact H].
Defined.

(** An id in capitals names the same action to the database, but its edge outlives the action. *)
Example spelling_left_dangling :
  let batch := apply_operations (fun s => Some (lower s)) float_value text_value (fun _ => "c") in
  let w1 := (batch 7 [OpAddEdge (MkEdgePayload "A" udf "b" (Some EdgeERROR))] ex_flow).1 in
  let w2 := (batch 8 [OpDeleteNode "a"] w1).1 in
  map n_edges (w_actions w2) = [[stored_edge (MkKey "A" udf (Some EdgeERROR))]] /\ node_ids w2 = ["b"].
Proof. vm_compute. split; reflexivity. Qed.
