(* ===== verification/GraphRequests.v ===== *)
(** The requests that change the rows of a workflow, in any order: what holds of the graph
    after them, and what the versions of the batches detect. *)

From S2P Require Import Prelude PyStr Base62 PyVal PyOps DslTypes DslBuild GraphEdit GraphEditFacts GraphEditInv.

(** ** Requests *)

(** The graph editor's batches, the requests of [WorkflowActionService] and the
    reconciliation; the ids are what [uuid.uuid4] draws. *)
Inductive Request :=
  | ApplyOperations (new_ids : nat -> ActionID) (base_version : Z) (ops : list GraphOperation)
  | CreateAction (new_id : ActionID) (p : ActionCreate)
  | UpdateAction (id : ActionID) (p : ActionUpdate)
  | DeleteAction (id : ActionID)
  | UpdatePositions (positions : list (ActionID * (spec_float * spec_float))) (trigger : option (spec_float * spec_float))
  | Reconcile.

(** Sources that exist, and no source twice. *)
Definition tidy_edges (trig : string) (ids : list ActionID) (l : list ActionEdge) : Prop :=
  NoDup (map action_edge_key l) /\
  forall e, e ∈ l -> match ae_source_type e with trigger => ae_source_id e = trig | udf => ae_source_id e ∈ ids end.

(** Requests that change the version or the layout only. *)
Definition versioned (w : Workflow) (r : Request) : Prop :=
  match r with ApplyOperations _ _ _ | UpdatePositions _ _ => True | _ => False end.

Section Requests.
Context (parse_uuid : string -> option ActionID) (float_of : val -> option spec_float) (astext : val -> option string)
  (str_of_other : val -> result string).
Hypothesis Htext : forall s, astext (VStr s) = Some s.

Abbreviation patched := (apply_operations parse_uuid float_of astext).
Abbreviation reconciled := (reconcile str_of_other).

(** The rows after a request; one that raises is rolled back. *)
Definition serve (r : Request) (w : Workflow) : Workflow :=
  match r with
  | ApplyOperations new_ids base ops => (patched new_ids base ops w).1
  | CreateAction new_id p => match create_action new_id w p with Ok w' => w' | Err _ => w end
  | UpdateAction id p => update_action w id p
  | DeleteAction id => delete_action astext w id
  | UpdatePositions ps trig => batch_update_positions ps trig w
  | Reconcile => match reconciled w with Ok (w', _) => w' | Err _ => w end
  end.

(** A request that [allowed] lets through. *)
Definition request_step (allowed : Workflow -> Request -> Prop) (w w' : Workflow) : Prop :=
  exists r, allowed w r /\ w' = serve r w.

Definition anything (w : Workflow) (r : Request) : Prop := True.

(** What the services do not check of a request: that the ids of added edges are spelled as
    the server spells them, and that the edges written by the action service have sources
    that exist, none twice. *)
Definition tidy (w : Workflow) (r : Request) : Prop :=
  match r with
  | ApplyOperations _ _ ops => Forall (canonical parse_uuid) ops
  | CreateAction new_id p => tidy_edges (trigger_id w) (new_id :: node_ids w) (ac_upstream_edges p)
  | UpdateAction _ p => match au_upstream_edges p with Some l => tidy_edges (trigger_id w) (node_ids w) l | None => True end
  | _ => True
  end.

(** ** Whatever is requested *)

(** Distinct ids, and edges that are [ActionEdge]s. *)
Definition shaped (w : Workflow) : Prop := NoDup (node_ids w) /\ forall a, a ∈ w_actions w -> all_keyed (n_edges a).

Lemma well_formed_shaped w : well_formed w -> shaped w.
Proof. intros [H1 H2]. split; [done|]. intros a Ha. by apply H2. Qed.

Lemma shaped_rows w w' : node_ids w' = node_ids w ->
  (forall a', a' ∈ w_actions w' -> (exists a, a ∈ w_actions w /\ n_edges a' = n_edges a) \/ all_keyed (n_edges a')) -> shaped w -> shaped w'.
Proof.
  intros Hids Hrows [H1 H2]. split; [by rewrite Hids|]. intros a' [(a & Ha & ->)|H]%Hrows; [by apply H2|done].
Qed.

Lemma shaped_update id f w : (forall a, n_id (f a) = n_id a) ->
  (forall a, a ∈ w_actions w -> n_edges (f a) = n_edges a \/ all_keyed (n_edges (f a))) -> shaped w -> shaped (update_where id f w).
Proof.
  intros Hid Hf. apply shaped_rows.
  - unfold node_ids, update_where. cbn. rewrite map_map. apply map_ext. intros a. case_decide; [apply Hid|done].
  - intros a' (a & -> & Ha)%list_elem_of_fmap. case_decide; [|by left; eauto]. destruct (Hf a Ha) as [->|?]; [left; eauto|by right].
Qed.

Lemma shaped_insert w a w' : all_keyed (n_edges a) -> insert_node w a = Ok w' -> shaped w -> shaped w'.
Proof.
  intros Ha H [H1 H2]. unfold insert_node in H. case_decide as Hin; [done|]. injection H as <-. split.
  - unfold node_ids. cbn. rewrite map_app. apply NoDup_app. split; [done|]. split; [|apply NoDup_singleton].
    intros x Hx ->%list_elem_of_singleton. done.
  - cbn. intros b [Hb| ->%list_elem_of_singleton]%elem_of_app; auto.
Qed.

Lemma shaped_select w id a : shaped w -> select_action w id = Some a -> all_keyed (n_edges a).
Proof. intros [_ H] Hs. pose proof (select_action_spec w id) as Ha. rewrite Hs in Ha. by apply H, Ha. Qed.

Lemma shaped_without w id a key l : shaped w -> select_action w id = Some a -> without_key key (n_edges a) = Ok l -> all_keyed l.
Proof.
  intros Hw Ha Hl. destruct (without_key_spec key _ (shaped_select _ _ _ Hw Ha)) as (l' & Hl' & Hk & _). rewrite Hl in Hl'. by injection Hl' as ->.
Qed.

Lemma shaped_delete w id : shaped w -> shaped (_delete_node astext w id).
Proof.
  intros [H1 H2]. unfold _delete_node. set (f := fun a => set_upstream_edges a (List.filter (not_from astext id) (n_edges a))). split.
  - unfold node_ids in *. cbn. clear H2. induction (w_actions w) as [|a l IH]; [constructor|]. cbn in H1 |- *.
    apply NoDup_cons in H1 as [Ha Hl]. case_bool_decide; cbn; [|by apply IH]. constructor; [|by apply IH].
    intros (b & Hb & Hin)%list_elem_of_fmap. apply Ha. apply list_elem_of_In, filter_In in Hin as [Hin _].
    apply in_map_iff in Hin as (c & <- & Hc). cbn in Hb. rewrite Hb. apply list_elem_of_fmap. exists c. split; [done|by apply list_elem_of_In].
  - cbn. intros b Hb. apply list_elem_of_In, filter_In in Hb as [Hb _]. apply in_map_iff in Hb as (a & <- & Ha).
    cbn. apply (delete_edges_keys astext Htext). apply H2. by apply list_elem_of_In.
Qed.

Lemma shaped_moves ps w w' : _move_nodes parse_uuid float_of w ps = Ok w' -> shaped w -> shaped w'.
Proof.
  unfold _move_nodes. revert w. induction ps as [|pos ps IH]; intros w; cbn [rfor]; [by intros [= <-]|].
  destruct (_move_node parse_uuid float_of pos w) as [w1|] eqn:E; [|done]. cbn [rbind]. intros H Hw. apply (IH _ H).
  unfold _move_node in E. repeat case_match; try done; injection E as <-; first [done | apply shaped_update; [done|intros ? _; by left|done]].
Qed.

Lemma shaped_operation new_id w op w' : _apply_operation parse_uuid float_of astext new_id w op = Ok w' -> shaped w -> shaped w'.
Proof.
  destruct op as [p|p|id|p|p|ps|x y|x y z]; cbn [_apply_operation].
  - apply shaped_insert. constructor.
  - intros [= <-]. apply shaped_update; [done|intros ? _; by left].
  - intros [= <-]. apply shaped_delete.
  - unfold _add_edge. destruct (match ep_source_type p with udf => _ | trigger => _ end) as [u|]; [|done]. cbn [rbind].
    destruct (select_action w _) as [a|] eqn:Ea; [|done]. destruct (without_key _ _) as [l|] eqn:El; [|done]. intros [= <-] Hw.
    apply shaped_update; [done| |done]. intros b _. right. cbn. apply Forall_app. split.
    + by eapply shaped_without.
    + constructor; [|constructor]. rewrite edge_key_stored_edge. by eexists.
  - unfold _delete_edge. destruct (select_action w _) as [a|] eqn:Ea; [|done]. destruct (without_key _ _) as [l|] eqn:El; [|done]. intros [= <-] Hw.
    apply shaped_update; [done| |done]. intros b _. right. cbn.
    by eapply shaped_without.
  - apply shaped_moves.
  - by intros [= <-].
  - by intros [= <-].
Qed.

Lemma shaped_batch new_ids base ops w : shaped w -> shaped (patched new_ids base ops w).1.
Proof.
  intros Hw. unfold apply_operations, graph_transaction. case_decide as Hv; [done|]. clear Hv.
  destruct (run_operations _ _ _ new_ids ops w) as [w1|] eqn:E; [|done]. assert (shaped w1) as Hw1.
  { unfold run_operations in E. revert w Hw E. induction (imap pair ops) as [|[i op] l IH]; intros w Hw; cbn [rfor]; [by intros [= <-]|].
    destruct (_apply_operation _ _ _ (new_ids i) w op) as [w2|] eqn:E2; [|done]. cbn [rbind]. apply IH. by eapply shaped_operation. }
  cbn. by destruct (existsb _is_structural ops).
Qed.

Lemma positions_skeleton ps trig w :
  w_id (batch_update_positions ps trig w) = w_id w /\ skeleton (batch_update_positions ps trig w) = skeleton w /\
  content (batch_update_positions ps trig w) = content w /\ graph_version (batch_update_positions ps trig w) = graph_version w.
Proof.
  unfold batch_update_positions. set (w1 := foldl _ w ps).
  assert (w_id w1 = w_id w /\ skeleton w1 = skeleton w /\ content w1 = content w /\ graph_version w1 = graph_version w) as H; [|by destruct trig].
  unfold w1. clear. revert w. induction ps as [|[id [x y]] ps IH]; intros w; cbn [foldl]; [done|].
  destruct (IH (update_where id (set_position x y) w)) as (-> & -> & -> & ->).
  split; [done|]. split; [by apply update_skeleton|]. split; [apply move_content|done].
Qed.

Lemma shaped_skeleton w w' : skeleton w' = skeleton w -> shaped w -> shaped w'.
Proof.
  intros Hs. apply shaped_rows.
  - assert (forall v, node_ids v = map fst (skeleton v)) as H by (intros v; unfold node_ids, skeleton; by rewrite map_map). by rewrite !H, Hs.
  - intros a' Ha'. left. assert ((n_id a', n_edges a') ∈ skeleton w) as (a & [= _ He] & Ha)%list_elem_of_fmap; [|eauto].
    rewrite <- Hs. apply list_elem_of_fmap. eauto.
Qed.

Lemma shaped_cleaned w : shaped w -> shaped (cleaned str_of_other w).
Proof.
  intros [H1 H2]. split; [unfold node_ids, cleaned in *; cbn; by rewrite map_map|].
  cbn. intros b (a & -> & Ha)%list_elem_of_fmap. cbn. specialize (H2 a Ha). unfold all_keyed in *. rewrite Forall_forall in *.
  intros e He. apply list_elem_of_In, filter_In in He as [He _]. apply H2. by apply list_elem_of_In.
Qed.

Lemma serve_shaped r w : shaped w -> shaped (serve r w).
Proof.
  destruct r as [new_ids base ops|new_id p|id p|id|ps trig|]; cbn [serve]; intros Hw.
  - by apply shaped_batch.
  - destruct (create_action new_id w p) as [w'|] eqn:E; [|done]. unfold create_action in E. eapply shaped_insert; [|exact E|done].
    apply keys_action_edges.
  - apply shaped_update; [done| |done]. intros a _. cbn. destruct (au_upstream_edges p); [right; apply keys_action_edges|by left].
  - by apply shaped_delete.
  - eapply shaped_skeleton; [|exact Hw]. apply positions_skeleton.
  - destruct (reconciled w) as [[w' c]|] eqn:E; [|done]. apply reconcile_spec in E as (-> & _). by apply shaped_cleaned.
Qed.

(** ** The reconciliation repairs what has been left *)

Lemma keyed_stays w e k : edge_key e = Some k ->
  edge_stays str_of_other w e =
    Ok (match k_source_type k with trigger => bool_decide (k_source_id k = trigger_id w) | udf => bool_decide (k_source_id k ∈ node_ids w) end).
Proof.
  intros (d & -> & Hi & Hty)%edge_key_Some. cbn. rewrite Hi. cbn. destruct (k_source_type k), Hty as [-> _]; done.
Qed.

Lemma shaped_reconciled w : shaped w -> exists changed, reconciled w = Ok (cleaned str_of_other w, changed).
Proof.
  intros [_ Hk]. apply reconcile_total. intros a e Ha He. specialize (Hk a Ha). unfold all_keyed in Hk. rewrite Forall_forall in Hk.
  destruct (Hk e He) as [k Hek]. by rewrite (keyed_stays w e k Hek).
Qed.

Lemma cleaned_no_dangling w : no_dangling (trigger_id w) (keyed_graph (cleaned str_of_other w)).
Proof.
  intros k t (b & Hb & <- & Hkb)%elem_arrows. apply list_elem_of_fmap in Hb as (a & -> & Ha). cbn in Hkb.
  apply list_elem_of_omap in Hkb as (e & He & Hek). apply list_elem_of_In, filter_In in He as [_ Hs].
  unfold stays in Hs. rewrite (keyed_stays w e k Hek) in Hs. unfold live. destruct (k_source_type k).
  - by apply bool_decide_eq_true in Hs.
  - apply bool_decide_eq_true in Hs. cbn. apply (elem_of_list_to_set (C := gset ActionID)). unfold node_ids, cleaned. cbn. by rewrite map_map.
Qed.

(** ** Tidy requests *)

Lemma consistent_update id f w : (forall a, n_id (f a) = n_id a) ->
  (forall a, n_edges (f a) = n_edges a \/ exists l, n_edges (f a) = map action_edge l /\ tidy_edges (trigger_id w) (node_ids w) l) ->
  consistent w -> consistent (update_where id f w).
Proof.
  intros Hid Hf [Hwf Hd]. assert (node_ids (update_where id f w) = node_ids w) as Hids.
  { unfold node_ids, update_where. cbn. rewrite map_map. apply map_ext. intros a. case_decide; [apply Hid|done]. }
  assert (forall a', a' ∈ w_actions (update_where id f w) -> (exists a, a ∈ w_actions w /\ n_edges a' = n_edges a) \/
    exists l, n_edges a' = map action_edge l /\ tidy_edges (trigger_id w) (node_ids w) l) as Hrows.
  { intros a' (a & -> & Ha)%list_elem_of_fmap. case_decide; [|by left; eauto]. destruct (Hf a) as [->|?]; [left; eauto|by right]. }
  split.
  - split; [rewrite Hids; apply Hwf|]. intros a' [(a & Ha & ->)|(l & -> & Hnd & _)]%Hrows; [by apply (wf_edges _ Hwf)|].
    destruct (keys_action_edges l) as [Hk ->]. done.
  - intros k t (a' & Ha' & <- & Hk)%elem_arrows. unfold live, trigger_id in *. change (w_id (update_where id f w)) with (w_id w).
    assert (nodes (keyed_graph (update_where id f w)) = nodes (keyed_graph w)) as -> by (unfold keyed_graph; cbn [nodes]; by rewrite Hids).
    apply Hrows in Ha' as [(a & Ha & He)|(l & He & _ & Hlive)]; rewrite He in Hk.
    + exact (Hd k (n_id a) (proj2 (elem_arrows w k (n_id a)) (ex_intro _ a (conj Ha (conj eq_refl Hk))))).
    + destruct (keys_action_edges l) as [_ Hkeys]. rewrite Hkeys in Hk. apply list_elem_of_fmap in Hk as (e & -> & He').
      specialize (Hlive e He'). unfold action_edge_key in *. destruct (ae_source_type e); cbn; [done|]. by apply (elem_of_list_to_set (C := gset ActionID)).
Qed.

Lemma consistent_create new_id p w w' : create_action new_id w p = Ok w' ->
  tidy_edges (trigger_id w) (new_id :: node_ids w) (ac_upstream_edges p) -> consistent w -> consistent w'.
Proof.
  intros Hc [Hnd Hlive] [Hwf Hd]. unfold create_action in Hc. set (a := MkNode _ _ _ _ _ _ _ _ _ _ _) in Hc.
  destruct (keys_action_edges (ac_upstream_edges p)) as [Hk Hkeys]. change (map action_edge (ac_upstream_edges p)) with (n_edges a) in Hk, Hkeys.
  pose proof (insert_refines w a Hwf Hk ltac:(by rewrite Hkeys)) as H. rewrite Hc in H.
  destruct H as (Hn & [Hid _] & Hwf1 & Hnodes & Harr). split; [done|]. intros k t [[-> Hkin]|Hkt]%Harr; unfold live, trigger_id in *; rewrite Hid, Hnodes.
  - rewrite Hkeys in Hkin. apply list_elem_of_fmap in Hkin as (e & -> & He). specialize (Hlive e He). unfold action_edge_key.
    destruct (ae_source_type e); cbn; [done|]. apply elem_of_union. apply elem_of_cons in Hlive as [->|Hin]; [left; by apply elem_of_singleton|right; by apply elem_of_list_to_set].
  - specialize (Hd k t Hkt). unfold live in Hd. destruct (k_source_type k); [done|set_solver].
Qed.

Lemma serve_consistent r w : tidy w r -> consistent w -> consistent (serve r w).
Proof.
  destruct r as [new_ids base ops|new_id p|id p|id|ps trig|]; cbn [serve tidy]; intros Hr Hw.
  - by apply batch_consistent.
  - destruct (create_action new_id w p) as [w'|] eqn:E; [|done]. by eapply consistent_create.
  - apply consistent_update; [done| |done]. intros a. cbn. destruct (au_upstream_edges p); [right; eauto|by left].
  - destruct Hw as [Hwf Hd]. change (delete_action astext w id) with (_delete_node astext w id).
    destruct (delete_refines parse_uuid float_of astext Htext w id Hwf) as ([Hid _] & Hwf' & Hs). split; [done|].
    unfold trigger_id. rewrite Hid. exact (step_no_dangling parse_uuid float_of astext Htext _ _ _ (OpDeleteNode id) _ I Hd Hs).
  - destruct (positions_skeleton ps trig w) as (Hid & Hs & _). by eapply consistent_skeleton.
  - by rewrite (consistent_reconciled str_of_other w Hw).
Qed.

Lemma steps_preserve (P : Workflow -> Prop) allowed w w' :
  (forall w r, allowed w r -> P w -> P (serve r w)) -> rtc (request_step allowed) w w' -> P w -> P w'.
Proof. intros HP. induction 1 as [|w w1 w' (r & Hr & ->) _ IH]; [done|]. intros Hw. by apply IH, HP. Qed.

(** C15: the requests that change the graph of a workflow.  Whatever is requested, the ids of
    the actions stay distinct and the edges stay [ActionEdge]s, so that the graph can always
    be shown and the reconciliation always succeeds and leaves no dangling edge.  The services
    check less than consistency: an edge may be spelled with another form of its source's id,
    and the action service stores upstream edges as they come.  When the requests avoid this
    ([tidy]) a consistent graph stays consistent (no dangling and no repeated edge), and the
    reconciliation never finds anything to repair. *)
Theorem graph_stays_consistent w w' : shaped w ->
  (rtc (request_step anything) w w' ->
   shaped w' /\ get_graph w' = Ok (view w') /\
   exists w'' changed, reconciled w' = Ok (w'', changed) /\ shaped w'' /\ no_dangling (trigger_id w'') (keyed_graph w'')) /\
  (consistent w -> rtc (request_step tidy) w w' -> consistent w' /\ reconciled w' = Ok (w', false)).
Proof.
  intros Hw. split.
  - intros Hs. assert (shaped w') as Hw' by (apply (steps_preserve shaped _ _ _ (fun w r _ => serve_shaped r w) Hs Hw)).
    split; [done|]. split; [apply graph_response_shown, Hw'|]. destruct (shaped_reconciled w' Hw') as [c Hc].
    exists (cleaned str_of_other w'), c. split; [done|]. split; [by apply shaped_cleaned|apply (cleaned_no_dangling w')].
  - intros Hc Hs. assert (consistent w') as Hc' by exact (steps_preserve consistent _ _ _ (fun w r => serve_consistent r w) Hs Hc).
    split; [done|]. by apply consistent_reconciled.
Qed.

(** ** Versions *)

Lemma serve_version r w : graph_version w <= graph_version (serve r w) /\
  (versioned w r -> graph_version (serve r w) = graph_version w -> content (serve r w) = content w).
Proof.
  destruct r as [new_ids base ops|new_id p|id p|id|ps trig|]; cbn [serve versioned].
  - unfold apply_operations, graph_transaction. case_decide as Hv; [done|].
    destruct (run_operations _ _ _ _ _ _) as [w1|] eqn:E; [|done]. apply run_content in E as [Hgv Hc]. cbn.
    destruct (existsb _is_structural ops); cbn; rewrite ?Hgv; [split; lia|]. split; [lia|auto].
  - split; [|done]. unfold create_action, insert_node. by case_decide.
  - done.
  - done.
  - destruct (positions_skeleton ps trig w) as (_ & _ & Hc & ->). done.
  - split; [|done]. destruct (reconciled w) as [[w' c]|] eqn:E; [|done]. by apply reconcile_spec in E as (-> & _).
Qed.

(** C17: versions detect lost updates, as long as the draft is changed by the editor's batches
    and by moves.  No request takes the version back.  When only batches (any, also refused
    ones) and position updates came between a client's reading and its batch, then the batch
    is refused with the current version and graph, changing nothing, unless what it is applied
    to is, the layout apart, still what the client has read.  Creating, updating, deleting a
    single action and reconciling leave the version ([unversioned_deletion]). *)
Theorem lost_updates_detected w w' new_ids ops : shaped w ->
  (rtc (request_step anything) w w' -> graph_version w <= graph_version w') /\
  (rtc (request_step versioned) w w' ->
   content w' = content w \/
   patched new_ids (graph_version w) ops w' = (w', VersionConflict (graph_version w') (view w'))).
Proof.
  intros Hw. split.
  - induction 1 as [|w w1 w' (r & _ & ->) _ IH]; [done|]. pose proof (serve_version r w) as [Hle _].
    etrans; [exact Hle|]. by apply IH, serve_shaped.
  - intros Hs. assert (graph_version w <= graph_version w' /\ shaped w' /\ (graph_version w' = graph_version w -> content w' = content w)) as (Hle & Hw' & Hc).
    { induction Hs as [w|w w1 w' (r & Hr & ->) _ IH]; [done|]. destruct (IH (serve_shaped r w Hw)) as (Hle & Hw' & Hc).
      destruct (serve_version r w) as [Hle' Hc']. split; [lia|]. split; [done|]. intros Hv. rewrite Hc by lia. apply Hc'; [done|lia]. }
    unfold apply_operations, graph_transaction. case_decide as Hv; [|left; apply Hc; lia].
    right. by rewrite (graph_response_shown w' (proj2 Hw')).
Qed.
End Requests.

(** ** Examples *)

Abbreviation ex_step := (request_step Some float_value text_value other_str).
Abbreviation ex_ids := (fun i => nth i ["c"; "d"; "e"] "").

Definition ex_update : ActionUpdate :=
  MkActionUpdate (Some "renamed") None None None None None None None (Some [MkActionEdge "c" udf (Some EdgeERROR)]).

Lemma graph_stays_consistent_witness :
  let w' := delete_action text_value (update_action (ex_batch ex_ops 7 ex_flow).1 "b" ex_update) "c" in
  shaped ex_flow /\ consistent w' /\ reconcile other_str w' = Ok (w', false).
Proof.
  intros w'. split; [apply well_formed_shaped, ex_flow_well_formed|].
  apply (graph_stays_consistent Some float_value text_value other_str (fun _ => eq_refl) ex_flow w' (well_formed_shaped _ ex_flow_well_formed)).
  - apply ex_flow_consistent.
  - eapply rtc_l; [exists (ApplyOperations ex_ids 7 ex_ops); split; [|reflexivity]|].
    { repeat constructor; intros _ id [= <-]; reflexivity. }
    eapply rtc_l; [exists (UpdateAction "b" ex_update); split; [|reflexivity]|].
    { split; [apply NoDup_singleton|]. intros e ->%list_elem_of_singleton. apply (bool_decide_unpack ("c" ∈ ["b"; "c"])). vm_compute. exact I. }
    apply rtc_once. by exists (DeleteAction "c").
Defined.

(** The action service checks nothing: edges from nowhere are stored, and stay until the next
    reconciliation. *)
Example created_dangling :
  let w := serve Some float_value text_value other_str
             (CreateAction "c" (MkActionCreate "core.http_request" "c" "" "" None false None ex_float ex_float [MkActionEdge "gone" udf None])) ex_flow in
  map n_edges (w_actions w) = map n_edges (w_actions ex_flow) ++ [[VDict [("source_id", VStr "gone"); ("source_type", VStr "udf")]]] /\
  (exists w', reconcile other_str w = Ok (w', true) /\ map n_edges (w_actions w') = map n_edges (w_actions ex_flow) ++ [[]]).
Proof. split; [vm_compute; reflexivity|]. eexists. vm_compute. split; reflexivity. Qed.

(** A client reads version 7; another adds an edge; the first client's deletion is refused. *)
Lemma lost_updates_detected_witness :
  let w' := (ex_batch [OpAddEdge (MkEdgePayload "a" udf "b" (Some EdgeERROR))] 7 ex_flow).1 in
  shaped ex_flow /\ content w' <> content ex_flow /\
  ex_batch [OpDeleteNode "a"] 7 w' = (w', VersionConflict 8 (view w')).
Proof.
  intros w'. split; [apply well_formed_shaped, ex_flow_well_formed|].
  assert (content w' <> content ex_flow) as Hne by (vm_compute; discriminate). split; [exact Hne|].
  destruct (lost_updates_detected Some float_value text_value other_str (fun _ => eq_refl) ex_flow w' ex_ids [OpDeleteNode "a"]
    (well_formed_shaped _ ex_flow_well_formed)) as [_ [H|H]]; [|exfalso; exact (Hne H)|exact H].
  apply rtc_once. by exists (ApplyOperations ex_ids 7 [OpAddEdge (MkEdgePayload "a" udf "b" (Some EdgeERROR))]).
Defined.
