(* ===== verification/Restore.v ===== *)
(** Actions from a definition ([create_actions_from_dsl] and [restore_workflow_definition] of
    [tracecat/workflow/management/management.py]), and a row as the builder of definitions
    reads it. *)

From S2P Require Import Prelude PyStr Base62 PyVal PyOps DslTypes DslBuild GraphEdit Layout.
From Stdlib Require Import SpecFloat.

(** [str.capitalize] and [str.replace] on the references of actions, which are ASCII. *)
Definition ascii_upper (c : ascii) : ascii :=
  let n := Ascii.nat_of_ascii c in
  if (97 <=? n)%nat && (n <=? 122)%nat then Ascii.ascii_of_nat (n - 32) else c.
Definition capitalize (s : string) : string :=
  match s with EmptyString => EmptyString | String c s' => String (ascii_upper c) (lower s') end.
Fixpoint replace_char (c d : ascii) (s : string) : string :=
  match s with EmptyString => EmptyString | String e s' => String (if decide (e = c) then d else e) (replace_char c d s') end.

(** [ActionStatement.title]. *)
Definition title (s : ActionStatement) : string := replace_char "_" " " (capitalize (ref s)).

(** [ActionControlFlow.model_dump()]. *)
Definition dump_control_flow (cf : ActionControlFlow) : val :=
  VDict [("run_if", vopt (cf_run_if cf)); ("for_each", cf_for_each cf);
         ("join_strategy", VStr match cf_join_strategy cf with JoinANY => "any" | JoinALL => "all" end);
         ("retry_policy", VDict [("max_attempts", VInt (max_attempts (cf_retry_policy cf))); ("timeout", VInt (timeout (cf_retry_policy cf)));
                                 ("retry_until", vopt (retry_until (cf_retry_policy cf)))]);
         ("start_delay", VFloat (cf_start_delay cf)); ("wait_until", vopt (cf_wait_until cf));
         ("environment", vopt (cf_environment cf)); ("mask_output", VBool (cf_mask_output cf))].

Section Restore.
(** [slugify(_, separator="_")], PyYAML's dump and load, and [dateparser.parse(_) is not None]. *)
Context (slugify : string -> string) (yaml_dump : list (string * val) -> string) (yaml_load : string -> result val)
  (date_parses : string -> bool).
(** [ActionControlFlow.model_validate] and [ActionInteractionValidator.validate_python]. *)
Context (validate_control_flow : val -> result ActionControlFlow) (validate_interaction_data : val -> result val).

(** [ActionControlFlow(run_if=..., ...)]: lengths of at most 1000, and a time that parses. *)
Definition within_1000 (v : val) : bool :=
  match v with
  | VStr s => (String.length s <=? 1000)%nat
  | VList l => (length l <=? 1000)%nat
  | _ => true
  end.
Definition control_flow_of (s : ActionStatement) : result ActionControlFlow :=
  if within_1000 (vopt (run_if s)) && within_1000 (for_each s) && match wait_until s with Some t => date_parses t | None => true end
  then Ok (MkControlFlow (run_if s) (for_each s) (join_strategy s) (retry_policy s) (start_delay s) (wait_until s) None (mask_output s))
  else raise ValidationError "ActionControlFlow".

(** ** [create_actions_from_dsl]; [uuids i] is the id drawn for the [i]-th action *)

Context (uuids : nat -> ActionID).

Definition new_row (positions : list (string * (spec_float * spec_float))) (i : nat) (s : ActionStatement) : result Node :=
  let! cf := control_flow_of s in
  let '(x, y) := default (S754_zero false, S754_zero false) (dget positions (ref s)) in
  Ok (MkNode (uuids i) (action s) (title s) (description s) (yaml_dump (args s)) (dump_control_flow cf) false VNone x y []).

(** The ids in [ref_to_action]. *)
Definition ref_to_action (stmts : list ActionStatement) : list (string * ActionID) :=
  foldl (fun d p => dset d (ref p.2) (uuids p.1)) [] (imap pair stmts).

Definition dep_edges (ids : list (string * ActionID)) (deps : list string) : result (list ActionEdge) :=
  rfor (fun dep_ref edges =>
    let! (src_ref, edge_type) := edge_components_from_dep dep_ref in
    Ok match dget ids src_ref with
       | Some id => edges ++ [MkActionEdge id udf (Some edge_type)]
       | None => edges
       end) deps [].

Definition statement_edges (workflow_id : string) (ids : list (string * ActionID)) (s : ActionStatement) : result (list ActionEdge) :=
  match depends_on s with
  | [] => Ok [MkActionEdge ("trigger-" +:+ workflow_id) trigger None]
  | deps => dep_edges ids deps
  end.

(** The second loop sets the edges of [ref_to_action[ref]], and so of the last row of a reference. *)
Definition assign_edges (ids : list (string * ActionID)) (rows : list (ActionStatement * Node)) (s : ActionStatement) (edges : list ActionEdge)
    : list (ActionStatement * Node) :=
  map (fun r => if decide (dget ids (ref s) = Some (n_id r.2)) then (r.1, set_upstream_edges r.2 (map action_edge edges)) else r) rows.

Definition create_actions_from_dsl (workflow_id : string) (positions : list (string * (spec_float * spec_float))) (stmts : list ActionStatement)
    : result (list Node) :=
  let ids := ref_to_action stmts in
  let! rows := rmap (fun '(i, s) => let! a := new_row positions i s in Ok (s, a)) (imap pair stmts) in
  let! rows := rfor (fun s rows => let! edges := statement_edges workflow_id ids s in Ok (assign_edges ids rows s edges)) stmts rows in
  if decide (NoDup (map (fun r => n_id r.2) rows)) then Ok (map snd rows) else DatabaseError "duplicate key".

(** ** [restore_workflow_definition] *)

Definition layout_inputs (stmts : list ActionStatement) : list LayoutInput := map (fun s => MkLayoutInput (ref s) (depends_on s)) stmts.

(** [action.ref]. *)
Definition node_ref (a : Node) : string := slugify (n_title a).

Definition move_payload (rows : list Node) (layout : list LayoutAction) : list (list (string * val)) :=
  let ids := foldl (fun d a => dset d (node_ref a) (n_id a)) [] rows in
  omap (fun item => (fun id => [("action_id", VStr id); ("x", VFloat (binary_normalize 53 1024 (la_x item) 0 false)); ("y", VInt (la_y item))])
                      <$> dget ids (la_ref item)) layout.

Inductive Restored := RestoredAs (w : Workflow) | EditedSince (current_version : Z) | RestoreRaised (e : exn).

Context (parse_uuid : string -> option ActionID) (float_of : val -> option spec_float) (astext : val -> option string).

(** [observed]: the version of the row the caller has loaded.  An exception before the commit of the
    batch that moves the nodes rolls everything back. *)
Definition restore_workflow_definition (observed : Z) (stmts : list ActionStatement) (w : Workflow) : Workflow * Restored :=
  if decide (graph_version w <> observed) then (w, EditedSince (graph_version w))
  else
    match create_actions_from_dsl (w_id w) [] stmts with
    | Err e => (w, RestoreRaised e)
    | Ok rows =>
        let w1 := set_version (set_actions w rows) (graph_version w + 1) in
        match auto_generate_layout (layout_inputs stmts) with
        | None => (w, RestoreRaised (Exn RuntimeError "layout"))
        | Some layout =>
            let '(committed, answer) :=
              graph_transaction parse_uuid float_of astext uuids (graph_version w1)
                [OpMoveNodes (move_payload rows layout); OpUpdateTriggerPosition (S754_zero false) (S754_zero false)] w1 in
            let w2 := default w committed in
            (w2, match answer with
                 | Graph _ => RestoredAs w2
                 | VersionConflict v _ => EditedSince v
                 | Raised e => RestoreRaised e
                 end)
        end
    end.

(** ** The row as [build_action_statements_from_actions] reads it *)

Definition action_of_node (a : Node) : Action :=
  MkDbAction (n_id a) (node_ref a) (n_type a) (yaml_load (n_inputs a)) (validate_control_flow (n_control_flow a))
    (validate_interaction_data (n_interaction a)) (n_is_interactive a && truthy (n_interaction a)) (n_edges a).

(** [build_dsl_from_workflow], as to the actions. *)
Definition build_from_workflow (fields_ok : ActionStatement -> bool) (w : Workflow) : result (option (list ActionStatement)) :=
  match w_actions w with
  | [] => raise TracecatValidationError "Workflow has no actions. Please add an action to the workflow before saving."
  | rows => build_action_statements_from_actions parse_uuid fields_ok (map action_of_node rows)
  end.
End Restore.
