(* ===== verification/RestoreFacts.v ===== *)
(** Restoring a definition and building it again gives the definition back, but for what the
    rows do not keep. *)

From S2P Require Import Prelude PyStr Base62 PyVal PyOps DslTypes DslBuild GraphEdit GraphEditFacts GraphEditInv Layout LayoutFacts Restore.

(** The dependency as the builder writes it: [a.success] is [a]. *)
Definition canonical_dep (d : string) : string :=
  match edge_components_from_dep d with
  | Ok (src, EdgeERROR) => dep_from_edge_components src EdgeERROR
  | Ok (src, EdgeSUCCESS) => src
  | Err _ => d
  end.

(** What comes back: the description, the interaction and the environment are not kept. *)
Definition restored (s : ActionStatement) : ActionStatement :=
  MkAction (ref s) "" (action s) (args s) (merge_sort str_le (map canonical_dep (depends_on s))) VNone (run_if s) (for_each s)
    (retry_policy s) (start_delay s) (wait_until s) (join_strategy s) None (mask_output s).

(** ** References and titles *)

(** A word of lowercase letters and digits; a reference made of words joined by single
    underscores. *)
Definition word (w : string) : bool :=
  negb (bool_decide (w = "")) &&
  forallb (fun c => let n := Ascii.nat_of_ascii c in ((97 <=? n) && (n <=? 122) || (48 <=? n) && (n <=? 57))%nat) (String.list_ascii_of_string w).
Definition plain_ref (r : string) : bool := forallb word (split_all "_" r).

Lemma concat_cons sep (p : string) ps : ps <> [] -> String.concat sep (p :: ps) = p +:+ sep +:+ String.concat sep ps.
Proof. by destruct ps. Qed.

Lemma replace_char_split c d s : replace_char c d s = String.concat (String d "") (split_all c s).
Proof.
  induction s as [|a s IH]; [done|]. cbn [replace_char split_all]. rewrite IH. pose proof (split_all_nonnil c s) as Hne.
  case_decide as Ha; [by rewrite concat_cons|]. destruct (split_all c s) as [|p ps]; [done|]. by destruct ps.
Qed.

Lemma concat_split_all c s : String.concat (String c "") (split_all c s) = s.
Proof. rewrite <- replace_char_split. induction s as [|a s IH]; cbn; [done|]. rewrite IH. by case_decide; subst. Qed.

(** The replacement commutes with the capitalisation. *)
Lemma replace_lower s : replace_char "_" " " (lower s) = lower (replace_char "_" " " s).
Proof. induction s as [|c s IH]; cbn; [done|]. f_equal; [|exact IH]. by destruct c as [[] [] [] [] [] [] [] []]. Qed.

Lemma title_capitalized s : title s = capitalize (String.concat " " (split_all "_" (ref s))).
Proof.
  unfold title. rewrite <- (replace_char_split "_" " "). destruct (ref s) as [|c r]; [done|]. cbn [capitalize replace_char]. f_equal; [|apply replace_lower].
  by destruct c as [[] [] [] [] [] [] [] []].
Qed.

Section Restore.
Context (slugify : string -> string) (yaml_dump : list (string * val) -> string) (yaml_load : string -> result val)
  (date_parses : string -> bool) (validate_control_flow : val -> result ActionControlFlow) (validate_interaction_data : val -> result val)
  (uuids : nat -> ActionID) (parse_uuid : string -> option ActionID) (float_of : val -> option spec_float) (astext : val -> option string)
  (fields_ok : ActionStatement -> bool).

Context (stmts : list ActionStatement) (wf_id : string).

Abbreviation refs := (map ref stmts).
Abbreviation created := (create_actions_from_dsl yaml_dump date_parses uuids wf_id).

(** What the libraries and the database do on the way: YAML and the columns read back what was
    written, [slugify] lowers words and joins them with the separator, ids are distinct and
    parse to themselves. *)
Record libraries_ok : Prop := {
  lib_yaml : forall s, s ∈ stmts -> yaml_load (yaml_dump (args s)) = Ok (VDict (args s));
  lib_control_flow : forall s cf, s ∈ stmts -> control_flow_of date_parses s = Ok cf -> validate_control_flow (dump_control_flow cf) = Ok cf;
  lib_slug : forall words, words <> [] -> forallb word words = true ->
    slugify (capitalize (String.concat " " words)) = String.concat "_" words;
  lib_uuids : forall i j, (i < length stmts)%nat -> (j < length stmts)%nat -> uuids i = uuids j -> i = j;
  lib_parse : forall i, (i < length stmts)%nat -> parse_uuid (uuids i) = Some (uuids i) /\ uuids i <> "";
  lib_trigger : parse_uuid ("trigger-" +:+ wf_id) = None;
  lib_floats : forall f, is_Some (float_of (VFloat f));
  lib_layout : forall l a, auto_generate_layout (layout_inputs stmts) = Some l -> a ∈ l -> is_Some (float_of (VInt (la_y a)));
  lib_fields : forall s, s ∈ stmts -> fields_ok (restored s) = true }.

(** A validated definition has unique references, dependencies that name actions, and no cycle.
    Beyond that: references are words joined by single underscores (the schema also allows
    others, see [double_underscore_renamed]), no dependency is listed twice, and the control
    flow is within the limits of the rows. *)
Record definition_ok : Prop := {
  def_refs : NoDup refs;
  def_plain : forall s, s ∈ stmts -> plain_ref (ref s) = true;
  def_deps : forall s d, s ∈ stmts -> d ∈ depends_on s -> exists src t, edge_components_from_dep d = Ok (src, t) /\ src ∈ refs;
  def_distinct : forall s, s ∈ stmts -> NoDup (map edge_components_from_dep (depends_on s));
  def_acyclic : forall r, ~ tc (feeds_into (layout_inputs stmts)) r r;
  def_control_flow : forall s, s ∈ stmts -> is_ok (control_flow_of date_parses s) = true }.

(** ** The rows that are created *)

Definition cf_of (s : ActionStatement) : ActionControlFlow :=
  MkControlFlow (run_if s) (for_each s) (join_strategy s) (retry_policy s) (start_delay s) (wait_until s) None (mask_output s).

Lemma cf_of_spec s cf : control_flow_of date_parses s = Ok cf -> cf = cf_of s.
Proof. unfold control_flow_of. destruct (_ && _); [|done]. by intros [= <-]. Qed.

Definition id_of (r : string) : ActionID := default "" (dget (ref_to_action uuids stmts) r).

Definition dep_edge (d : string) : ActionEdge :=
  match edge_components_from_dep d with
  | Ok (src, t) => MkActionEdge (id_of src) udf (Some t)
  | Err _ => MkActionEdge "" udf None
  end.
Definition edges_of (s : ActionStatement) : list ActionEdge :=
  match depends_on s with
  | [] => [MkActionEdge ("trigger-" +:+ wf_id) trigger None]
  | deps => map dep_edge deps
  end.

Definition row (positions : list (string * (spec_float * spec_float))) (edged : bool) (i : nat) (s : ActionStatement) : Node :=
  let p := default (S754_zero false, S754_zero false) (dget positions (ref s)) in
  MkNode (uuids i) (action s) (title s) (description s) (yaml_dump (args s)) (dump_control_flow (cf_of s)) false VNone p.1 p.2
    (if edged then map action_edge (edges_of s) else []).

Hypothesis Hlib : libraries_ok.
Hypothesis Hdef : definition_ok.

Lemma refs_imap : map (fun p => ref p.2) (imap pair stmts) = refs.
Proof.
  assert (forall f : nat -> nat, map (fun p => ref p.2) (imap (fun i s => (f i, s)) stmts) = refs) as H; [|apply (H id)].
  induction stmts as [|s l IH]; intros f; simpl; [done|]. f_equal. apply (IH (fun i => f (S i))).
Qed.

Lemma ref_to_action_lookup i s : stmts !! i = Some s -> dget (ref_to_action uuids stmts) (ref s) = Some (uuids i).
Proof.
  intros Hi. unfold ref_to_action. apply (foldl_dset_get (fun p : nat * ActionStatement => ref p.2) (fun p => uuids p.1) (imap pair stmts) [] (i, s)).
  - rewrite refs_imap. apply Hdef.
  - apply (list_elem_of_lookup_2 _ i). by rewrite list_lookup_imap, Hi.
Qed.

Lemma id_of_ref i s : stmts !! i = Some s -> id_of (ref s) = uuids i.
Proof. intros Hi. unfold id_of. by rewrite (ref_to_action_lookup i s Hi). Qed.

Lemma ref_index r : r ∈ refs -> exists i s, stmts !! i = Some s /\ ref s = r.
Proof. intros (s & -> & [i Hi]%list_elem_of_lookup)%list_elem_of_fmap. eauto. Qed.

Lemma statement_edges_of s : s ∈ stmts -> statement_edges wf_id (ref_to_action uuids stmts) s = Ok (edges_of s).
Proof.
  intros Hs. unfold statement_edges, edges_of. pose proof (def_deps Hdef s) as Hd. destruct (depends_on s) as [|d0 ds]; [done|].
  assert (forall l acc, (forall d, d ∈ l -> d ∈ d0 :: ds) ->
    rfor (fun dep_ref edges => let! (src_ref, edge_type) := edge_components_from_dep dep_ref in
      Ok match dget (ref_to_action uuids stmts) src_ref with
         | Some id => edges ++ [MkActionEdge id udf (Some edge_type)] | None => edges end) l acc = Ok (acc ++ map dep_edge l)) as H; [|by apply (H (d0 :: ds) [])].
  induction l as [|d l IH]; intros acc Hl; cbn [rfor map]; [by rewrite app_nil_r|].
  destruct (Hd d Hs) as (src & t & Hdt & Hsrc); [apply Hl; by left|]. apply ref_index in Hsrc as (i & s' & Hi & <-).
  assert (dep_edge d = MkActionEdge (uuids i) udf (Some t)) as -> by (unfold dep_edge; by rewrite Hdt, (id_of_ref i s' Hi)).
  rewrite Hdt. cbn [rbind]. rewrite (ref_to_action_lookup i s' Hi).
  rewrite IH by (intros x Hx; apply Hl; by right). by rewrite <- app_assoc.
Qed.

(** The rows once the edges of the first [k] statements are assigned. *)
Definition assigned (positions : list (string * (spec_float * spec_float))) (k : nat) : list (ActionStatement * Node) :=
  imap (fun i s => (s, row positions (i <? k)%nat i s)) stmts.

Lemma assign_step positions k s : stmts !! k = Some s ->
  assign_edges (ref_to_action uuids stmts) (assigned positions k) s (edges_of s) = assigned positions (S k).
Proof.
  intros Hk. unfold assign_edges, assigned. apply list_eq. intros i. rewrite list_lookup_fmap, !list_lookup_imap.
  destruct (stmts !! i) as [s'|] eqn:Hi; [|done]. cbn -[Nat.ltb]. f_equal. rewrite (ref_to_action_lookup k s Hk).
  pose proof (lookup_lt_Some _ _ _ Hk) as Hlk. pose proof (lookup_lt_Some _ _ _ Hi) as Hli. destruct (decide (i = k)) as [->|Hne].
  - rewrite Hk in Hi. injection Hi as <-. rewrite decide_True by done. unfold row, set_upstream_edges. cbn -[Nat.ltb].
    by rewrite (proj2 (Nat.ltb_lt k (S k))) by lia.
  - rewrite decide_False by (intros [= H%(lib_uuids Hlib)]; [congruence|lia|lia]). do 2 f_equal.
    apply eq_true_iff_eq. rewrite !Nat.ltb_lt. lia.
Qed.

Lemma created_rows positions : created positions stmts = Ok (imap (row positions true) stmts).
Proof.
  unfold create_actions_from_dsl. rewrite (rmap_imap _ (fun i s => (s, row positions false i s))).
  2: { intros i s Hi. unfold new_row. pose proof (def_control_flow Hdef s (list_elem_of_lookup_2 _ _ _ Hi)) as Hcf.
       destruct (control_flow_of date_parses s) as [cf|] eqn:E; [|done]. apply cf_of_spec in E as ->. cbn. unfold row.
       by destruct (default (S754_zero false, S754_zero false) (dget positions (ref s))). }
  cbn [rbind]. change (imap (fun i s => (s, row positions false i s)) stmts) with (assigned positions 0).
  assert (forall l2 l1, stmts = l1 ++ l2 ->
    rfor (fun s rows => let! edges := statement_edges wf_id (ref_to_action uuids stmts) s in Ok (assign_edges (ref_to_action uuids stmts) rows s edges))
      l2 (assigned positions (length l1)) = Ok (assigned positions (length stmts))) as H.
  { induction l2 as [|s l2 IH]; intros l1 Hl; cbn [rfor].
    - do 2 f_equal. by rewrite Hl, app_nil_r.
    - assert (stmts !! length l1 = Some s) as Hs by (rewrite Hl; by apply list_lookup_middle).
      rewrite (statement_edges_of s) by (by eapply list_elem_of_lookup_2). cbn [rbind]. rewrite (assign_step positions _ s Hs).
      replace (S (length l1)) with (length (l1 ++ [s])) by (rewrite length_app; simpl; lia). apply IH. by rewrite <- app_assoc. }
  specialize (H stmts [] eq_refl). cbn [length] in H. rewrite H. cbn [rbind]. clear H.
  assert (map snd (assigned positions (length stmts)) = imap (row positions true) stmts) as Hsnd.
  { apply list_eq. intros i. unfold assigned. rewrite list_lookup_fmap, !list_lookup_imap. destruct (stmts !! i) as [s|] eqn:Hi; [|done]. cbn. do 2 f_equal.
    apply Nat.ltb_lt. by eapply lookup_lt_Some. }
  rewrite Hsnd, decide_True; [done|]. rewrite <- (map_map snd n_id), Hsnd. apply NoDup_alt. intros i j x.
  rewrite !list_lookup_fmap, !list_lookup_imap. destruct (stmts !! i) as [s|] eqn:Hi; [|done]. destruct (stmts !! j) as [s'|] eqn:Hj; [|done].
  cbn. intros [= <-] [= H2]. symmetry in H2. apply (lib_uuids Hlib) in H2; [done|by eapply lookup_lt_Some..].
Qed.

(** ** Building them again *)

Definition built_row (i : nat) (s : ActionStatement) : Action :=
  MkDbAction (uuids i) (ref s) (action s) (Ok (VDict (args s))) (Ok (cf_of s)) (validate_interaction_data VNone) false (map action_edge (edges_of s)).
Abbreviation actions := (imap built_row stmts).

Lemma slug_title s : s ∈ stmts -> slugify (title s) = ref s.
Proof.
  intros Hs. rewrite title_capitalized, (lib_slug Hlib); [apply concat_split_all|apply split_all_nonnil|by apply (def_plain Hdef)].
Qed.

Lemma action_of_row positions i s : s ∈ stmts ->
  action_of_node slugify yaml_load validate_control_flow validate_interaction_data (row positions true i s) = built_row i s.
Proof.
  intros Hs. unfold action_of_node, node_ref, row, built_row. cbn. rewrite (slug_title s Hs), (lib_yaml Hlib s Hs).
  pose proof (def_control_flow Hdef s Hs) as Hcf. destruct (control_flow_of date_parses s) as [cf|] eqn:E; [|done].
  pose proof (lib_control_flow Hlib s cf Hs E) as Hv. apply cf_of_spec in E as ->. by rewrite Hv.
Qed.

Lemma validate_action_edge e : validate_edge (action_edge e) = Ok (MkEdge (ae_source_id e) (Some (ae_source_type e)) (ae_source_handle e)).
Proof. destruct e as [s [] [[]|]]; done. Qed.

Lemma actions_lookup i : actions !! i = built_row i <$> stmts !! i.
Proof. apply list_lookup_imap. Qed.

Lemma elem_actions a : a ∈ actions <-> exists i s, stmts !! i = Some s /\ a = built_row i s.
Proof.
  rewrite list_elem_of_lookup. split.
  - intros [i Hi]. rewrite actions_lookup in Hi. apply fmap_Some in Hi as (s & Hs & ->). eauto.
  - intros (i & s & Hs & ->). exists i. by rewrite actions_lookup, Hs.
Qed.

Lemma actions_ids : NoDup (map a_id actions).
Proof.
  apply NoDup_alt. intros i j x. rewrite !list_lookup_fmap, !actions_lookup.
  destruct (stmts !! i) as [s|] eqn:Hi; [|done]. destruct (stmts !! j) as [s'|] eqn:Hj; [|done].
  cbn. intros [= <-] [= H2]. symmetry in H2. apply (lib_uuids Hlib) in H2; [done|by eapply lookup_lt_Some..].
Qed.

Lemma scan_total : exists sc, scan_edges parse_uuid actions = Ok sc.
Proof.
  unfold scan_edges. rewrite (rfor_nested a_id (scan_edge parse_uuid actions) upstream_edges). apply rfor_total.
  intros [t ed] sc (a & (i & s & _ & ->)%elem_actions & (x & [= -> ->] & Hx)%list_elem_of_fmap)%elem_of_flat_map.
  cbn in Hx. apply list_elem_of_fmap in Hx as (e & -> & _). cbn [fst snd]. unfold scan_edge. rewrite validate_action_edge. cbn [rbind].
  repeat case_match; eauto.
Qed.

Lemma edge_incoming i s e : stmts !! i = Some s -> e ∈ edges_of s -> (uuids i, action_edge e) ∈ incoming actions.
Proof.
  intros Hi He. unfold incoming. apply elem_of_flat_map. exists (built_row i s). split; [apply elem_actions; eauto|].
  cbn. apply list_elem_of_fmap. exists (action_edge e). split; [done|]. apply list_elem_of_fmap. eauto.
Qed.

(** Every action is reached from one that the trigger starts. *)
Lemma all_rooted i s : stmts !! i = Some s -> exists r, rooted actions r /\ rtc (feeds parse_uuid actions) r (uuids i).
Proof.
  assert (forall c i s, stmts !! i = Some s -> ref s = c -> exists r, rooted actions r /\ rtc (feeds parse_uuid actions) r (uuids i)) as H; [|intros Hi; by eapply H].
  clear i s. refine (upstream_induction (layout_inputs stmts) (def_acyclic Hdef) _ _). intros c IH i s Hi <-.
  pose proof (list_elem_of_lookup_2 _ _ _ Hi) as Hs. destruct (depends_on s) as [|d ds] eqn:Ed.
  - exists (uuids i). split; [|done]. exists (action_edge (MkActionEdge ("trigger-" +:+ wf_id) trigger None)), (MkEdge ("trigger-" +:+ wf_id) (Some trigger) None).
    split; [|by rewrite validate_action_edge]. apply (edge_incoming i s); [done|]. unfold edges_of. rewrite Ed. by left.
  - assert (d ∈ depends_on s) as Hd by (rewrite Ed; by left). destruct (def_deps Hdef s d Hs Hd) as (src & t & Hdt & Hsrc).
    destruct (ref_index src Hsrc) as (j & s' & Hj & <-). destruct (IH (ref s')) with (i := j) (s := s') as (r & Hr & Hrj); [|done|done|].
    + split; [unfold layout_inputs; rewrite map_map; done|]. exists (MkLayoutInput (ref s) (depends_on s)), d.
      split; [unfold layout_inputs; apply list_elem_of_fmap; eauto|]. split; [done|]. split; [done|]. unfold dep_source.
      unfold edge_components_from_dep in Hdt. destruct (split_first "." d) as [[l p]|]; [|by injection Hdt].
      repeat case_decide; try done; by injection Hdt.
    + exists r. split; [done|]. eapply rtc_r; [done|]. exists (action_edge (dep_edge d)), (MkEdge (uuids j) (Some udf) (Some t)).
      assert (dep_edge d = MkActionEdge (uuids j) udf (Some t)) as Hde by (unfold dep_edge; by rewrite Hdt, (id_of_ref j s' Hj)).
      destruct (lib_parse Hlib j) as [Hp Hne]; [by eapply lookup_lt_Some|]. split.
      * apply (edge_incoming i s); [done|]. unfold edges_of. rewrite Ed. apply list_elem_of_fmap. exists d. split; [done|by left].
      * rewrite validate_action_edge, Hde. split; [done|]. split; [done|]. split; [done|]. split; [done|].
        unfold ids. apply elem_of_list_to_set, list_elem_of_fmap. exists (built_row j s'). split; [done|]. apply elem_actions. eauto.
Qed.

Lemma all_reachable : exists R, get_reachable_action_ids parse_uuid actions = Ok (Some R) /\ forall a, a ∈ actions -> a_id a ∈ R.
Proof.
  destruct scan_total as [sc Hsc]. destruct (get_reachable_action_ids parse_uuid actions) as [o|e] eqn:E.
  - destruct (reachable_spec parse_uuid actions o E) as (R & -> & HR). exists R. split; [done|]. intros a (i & s & Hi & ->)%elem_actions.
    apply HR. left. destruct (all_rooted i s Hi) as (r & Hr & Hri). split; eauto.
  - unfold get_reachable_action_ids in E. by rewrite Hsc in E.
Qed.

Lemma dependencies_restored R i s : stmts !! i = Some s -> (forall a, a ∈ actions -> a_id a ∈ R) ->
  dependencies parse_uuid (id2action actions) R (built_row i s) = Ok (merge_sort str_le (map canonical_dep (depends_on s))).
Proof.
  intros Hi HR. pose proof (list_elem_of_lookup_2 _ _ _ Hi) as Hs. unfold dependencies. cbn [built_row upstream_edges]. unfold edges_of.
  pose proof (def_deps Hdef s) as Hd. destruct (depends_on s) as [|d0 ds].
  - cbn [map rmap]. unfold dependency. rewrite validate_action_edge. cbn [rbind source_id ae_source_id]. rewrite decide_False by done.
    by rewrite (lib_trigger Hlib).
  - assert (rmap (dependency parse_uuid (id2action actions) R) (map action_edge (map dep_edge (d0 :: ds))) = Ok (map (fun d => Some (canonical_dep d)) (d0 :: ds))) as ->.
    { apply rmap_Ok. rewrite map_map. apply Forall2_fmap, Forall2_same_length_lookup_2; [done|]. intros k d d' Hk Hk'. rewrite Hk in Hk'. injection Hk' as <-.
      destruct (Hd d Hs (list_elem_of_lookup_2 _ _ _ Hk)) as (src & t & Hdt & Hsrc). destruct (ref_index src Hsrc) as (j & s' & Hj & <-).
      destruct (lib_parse Hlib j) as [Hp Hne]; [by eapply lookup_lt_Some|].
      assert (dep_edge d = MkActionEdge (uuids j) udf (Some t)) as -> by (unfold dep_edge; by rewrite Hdt, (id_of_ref j s' Hj)).
      unfold dependency. rewrite validate_action_edge. cbn [rbind source_id ae_source_id]. rewrite decide_False, Hp by done.
      assert (built_row j s' ∈ actions) as Hin by (apply elem_actions; eauto).
      pose proof (id2action_lookup parse_uuid actions _ actions_ids Hin) as Hlook. cbn in Hlook. rewrite Hlook, decide_True by (apply (HR _ Hin)).
      cbn. unfold canonical_dep. rewrite Hdt. by destruct t. }
    cbn [rbind]. do 2 f_equal. clear. induction (d0 :: ds) as [|d l IH]; [done|]. cbn. by rewrite IH.
Qed.

Lemma built_again : build_action_statements_from_actions parse_uuid fields_ok actions = Ok (Some (map restored stmts)).
Proof.
  unfold build_action_statements_from_actions. destruct all_reachable as (R & -> & HR). cbn [rbind].
  assert (filter (fun a => a_id a ∈ R) actions = actions) as ->.
  { revert HR. generalize actions. clear. intros l. induction l as [|a l IH]; intros HR; [done|]. rewrite filter_cons, decide_True by (apply HR; by left).
    f_equal. apply IH. intros b Hb. apply HR. by right. }
  assert (rmap (build_statement parse_uuid fields_ok (id2action actions) R) actions = Ok (map restored stmts)) as ->; [|done].
  apply rmap_Ok, Forall2_lookup. intros i. rewrite actions_lookup, list_lookup_fmap. destruct (stmts !! i) as [s|] eqn:Hi; [|constructor].
  constructor. unfold build_statement. rewrite (dependencies_restored R i s Hi HR). cbn -[merge_sort truthy].
  assert ((if truthy (VDict (args s)) then Ok (args s) else Ok []) = Ok (args s)) as -> by (destruct (args s); done). cbn [rbind].
  fold (restored s). by rewrite (lib_fields Hlib s) by (by eapply list_elem_of_lookup_2).
Qed.

(** ** Restoring *)

Lemma NoDup_map_via {A B C} (f : A -> B) (g : A -> C) l : NoDup (map f l) -> (forall x y, x ∈ l -> y ∈ l -> g x = g y -> f x = f y) -> NoDup (map g l).
Proof.
  induction l as [|x l IH]; cbn; [constructor|]. intros [Hx Hl]%NoDup_cons Hinj. constructor.
  - intros (y & Hy & Hin)%list_elem_of_fmap. apply Hx. rewrite (Hinj x y); [|by left|by right|done]. apply list_elem_of_fmap. eauto.
  - apply IH; [done|]. intros y z Hy Hz. apply Hinj; by right.
Qed.

Lemma dep_edge_spec s d : s ∈ stmts -> d ∈ depends_on s -> exists i s' t, stmts !! i = Some s' /\ edge_components_from_dep d = Ok (ref s', t) /\
  dep_edge d = MkActionEdge (uuids i) udf (Some t).
Proof.
  intros Hs Hd. destruct (def_deps Hdef s d Hs Hd) as (src & t & Hdt & Hsrc). destruct (ref_index src Hsrc) as (i & s' & Hi & <-).
  exists i, s', t. split; [done|]. split; [done|]. unfold dep_edge. by rewrite Hdt, (id_of_ref i s' Hi).
Qed.

Lemma edges_of_distinct s : s ∈ stmts -> NoDup (map action_edge_key (edges_of s)).
Proof.
  intros Hs. unfold edges_of. pose proof (def_distinct Hdef s Hs) as Hnd. pose proof (dep_edge_spec s) as Hspec.
  destruct (depends_on s) as [|d0 ds]; [apply NoDup_singleton|]. rewrite map_map. apply (NoDup_map_via edge_components_from_dep); [done|].
  intros x y Hx Hy Hxy. destruct (Hspec x Hs Hx) as (i & s1 & t & Hi & Hxt & Hxe), (Hspec y Hs Hy) as (j & s2 & t' & Hj & Hyt & Hye).
  rewrite Hxe, Hye in Hxy. injection Hxy as Hij ->. apply (lib_uuids Hlib) in Hij as ->; [|by eapply lookup_lt_Some..].
  rewrite Hxt, Hyt. congruence.
Qed.

Lemma elem_rows positions a : a ∈ imap (row positions true) stmts <-> exists i s, stmts !! i = Some s /\ a = row positions true i s.
Proof.
  rewrite list_elem_of_lookup. setoid_rewrite list_lookup_imap. split.
  - intros (i & (s & Hs & ->)%fmap_Some). eauto.
  - intros (i & s & Hs & ->). exists i. by rewrite Hs.
Qed.

Lemma restored_consistent positions w : w_id w = wf_id -> w_actions w = imap (row positions true) stmts -> consistent w.
Proof.
  intros Hid Hrows. assert (NoDup (node_ids w)) as Hnd.
  { unfold node_ids. rewrite Hrows. apply NoDup_alt. intros i j x. rewrite !list_lookup_fmap, !list_lookup_imap.
    destruct (stmts !! i) as [s|] eqn:Hi; [|done]. destruct (stmts !! j) as [s'|] eqn:Hj; [|done].
    cbn. intros [= <-] [= H2]. symmetry in H2. apply (lib_uuids Hlib) in H2; [done|by eapply lookup_lt_Some..]. }
  split; [split; [done|]|].
  - intros a. rewrite Hrows, elem_rows. intros (i & s & Hi & ->). destruct (keys_action_edges (edges_of s)) as [Hk Hkeys]. cbn. rewrite Hkeys.
    split; [done|]. apply edges_of_distinct. by eapply list_elem_of_lookup_2.
  - intros k t (a & Ha & <- & Hk)%elem_arrows. rewrite Hrows, elem_rows in Ha. destruct Ha as (i & s & Hi & ->). cbn in Hk.
    destruct (keys_action_edges (edges_of s)) as [_ Hkeys]. rewrite Hkeys in Hk. clear Hkeys. apply list_elem_of_fmap in Hk as (e & -> & He).
    pose proof (list_elem_of_lookup_2 _ _ _ Hi) as Hs. unfold edges_of in He. pose proof (dep_edge_spec s) as Hspec.
    destruct (depends_on s) as [|d0 ds].
    + apply list_elem_of_singleton in He as ->. unfold live, trigger_id. cbn. by rewrite Hid.
    + apply list_elem_of_fmap in He as (d & -> & Hd). destruct (Hspec d Hs Hd) as (j & s' & u & Hj & _ & ->). unfold live. cbn [action_edge_key _edge_dedup_key ae_source_type ae_source_id k_source_type k_source_id].
      apply elem_nodes. exists (row positions true j s'). split; [|done]. rewrite Hrows. apply elem_rows. eauto.
Qed.

(** The rows of a graph with the same content build the same statements. *)
Lemma content_actions w w' : content w' = content w ->
  map (action_of_node slugify yaml_load validate_control_flow validate_interaction_data) (w_actions w') =
  map (action_of_node slugify yaml_load validate_control_flow validate_interaction_data) (w_actions w).
Proof.
  intros [= _ Hc]. assert (forall l, map (action_of_node slugify yaml_load validate_control_flow validate_interaction_data) l =
    map (fun '(id, ty, ti, _, inp, cf, ii, it, edges) => MkDbAction id (slugify ti) ty (yaml_load inp) (validate_control_flow cf)
      (validate_interaction_data it) (ii && truthy it) edges) (map content_row l)) as H by (intros l; by rewrite map_map).
  by rewrite !H, Hc.
Qed.

Lemma moves_total l w : (forall pos, pos ∈ l -> exists id f z, pos = [("action_id", VStr id); ("x", VFloat f); ("y", VInt z)] /\
    is_Some (parse_uuid id) /\ is_Some (float_of (VInt z))) -> exists w', _move_nodes parse_uuid float_of w l = Ok w'.
Proof.
  intros Hl. unfold _move_nodes. apply rfor_total. intros pos v Hpos. destruct (Hl pos Hpos) as (id & f & z & -> & [i Hi] & [y Hy]).
  destruct (lib_floats Hlib f) as [x Hx]. unfold _move_node.
  change (dget _ "action_id") with (Some (VStr id)). change (dget _ "x") with (Some (VFloat f)). change (dget _ "y") with (Some (VInt z)).
  cbn. rewrite Hi, Hx, Hy. eauto.
Qed.

Abbreviation restore := (restore_workflow_definition slugify yaml_dump date_parses uuids parse_uuid float_of astext).

Lemma move_payload_ok layout : auto_generate_layout (layout_inputs stmts) = Some layout ->
  forall pos, pos ∈ move_payload slugify (imap (row [] true) stmts) layout -> exists id f z, pos = [("action_id", VStr id); ("x", VFloat f); ("y", VInt z)] /\
    is_Some (parse_uuid id) /\ is_Some (float_of (VInt z)).
Proof.
  intros Hlay pos Hpos. unfold move_payload in Hpos. apply list_elem_of_omap in Hpos as (item & Hitem & Hpos).
  destruct (dget _ (la_ref item)) as [id|] eqn:Eid; [|done]. injection Hpos as <-. exists id. do 2 eexists. split; [done|].
  split; [|by eapply (lib_layout Hlib)]. apply dget_Some_in in Eid.
  assert (forall rows d, (forall k v, (k, v) ∈ d -> is_Some (parse_uuid v)) -> (forall a, a ∈ rows -> is_Some (parse_uuid (n_id a))) ->
    forall k v, (k, v) ∈ foldl (fun d a => dset d (node_ref slugify a) (n_id a)) d rows -> is_Some (parse_uuid v)) as Hall.
  { induction rows as [|a rows IH]; intros d Hd Hr; [done|]. cbn. apply IH; [|intros b Hb; apply Hr; by right].
    intros k v Hkv. assert ((k, v) ∈ d \/ v = n_id a) as [?| ->]; [|by eapply Hd|apply Hr; by left].
    clear -Hkv. induction d as [|[k' v'] d IHd]; cbn in Hkv; [apply list_elem_of_singleton in Hkv; injection Hkv; auto|].
    case_decide; apply elem_of_cons in Hkv as [[= -> ->]|Hkv]; [by right|left; by right|left; by left|].
    destruct (IHd Hkv); [left; by right|by right]. }
  apply (Hall (imap (row [] true) stmts) []) with (k := la_ref item); [by intros ? ? ?%elem_of_nil| |done].
  intros a (i & s & Hi & ->)%elem_rows. destruct (lib_parse Hlib i) as [Hp _]; [by eapply lookup_lt_Some|]. cbn. by eexists.
Qed.

(** C16: restoring a validated definition (without repeated dependencies, with references of
    single-underscore form and control flow within the limits of the rows) over a draft nobody
    has edited since succeeds under the next version, with a consistent graph; and building a
    definition from the restored draft gives the statements back with their dependencies
    sorted, but without descriptions, interactions and environments, which a draft loses.  A
    draft that was edited is left alone. *)
Theorem restore_then_build observed w : w_id w = wf_id -> stmts <> [] ->
  (graph_version w <> observed -> restore observed stmts w = (w, EditedSince (graph_version w))) /\
  (graph_version w = observed -> exists w', restore observed stmts w = (w', RestoredAs w') /\
     graph_version w' = graph_version w + 1 /\ consistent w' /\
     build_from_workflow slugify yaml_load validate_control_flow validate_interaction_data parse_uuid fields_ok w' = Ok (Some (map restored stmts))).
Proof.
  intros Hid Hne. unfold restore_workflow_definition. split; intros Hv; [by rewrite decide_True|]. rewrite decide_False by tauto.
  rewrite Hid, (created_rows []). set (w1 := set_version _ _).
  destruct (depths_spec (layout_inputs stmts)) as (depth & Hdep & _); [unfold layout_inputs; rewrite map_map; apply Hdef|].
  assert (auto_generate_layout (layout_inputs stmts) = Some (placed depth)) as Hlay by (unfold auto_generate_layout; by rewrite Hdep).
  rewrite Hlay. destruct (moves_total _ w1 (move_payload_ok _ Hlay)) as [w2 Hm].
  set (w3 := set_trigger_position w2 (S754_zero false, S754_zero false)).
  assert (graph_transaction parse_uuid float_of astext uuids (graph_version w1)
      [OpMoveNodes (move_payload slugify (imap (row [] true) stmts) (placed depth)); OpUpdateTriggerPosition (S754_zero false) (S754_zero false)] w1 =
    (Some w3, answered (graph_response w3) Graph)) as ->.
  { unfold graph_transaction. rewrite decide_False by tauto. unfold run_operations. cbn [imap rfor _apply_operation]. by rewrite Hm. }
  apply moves_content in Hm as [Hc Hgv].
  assert (content w3 = content w1) as Hc3 by done. assert (consistent w1) as Hw1 by (by apply (restored_consistent [])).
  assert (consistent w3) as Hw3.
  { apply (consistent_skeleton w1); [by destruct (content_skeleton _ _ Hc3)..|done]. }
  rewrite (graph_response_view w3) by apply Hw3. exists w3. split; [done|]. split; [exact Hgv|]. split; [done|].
  assert (map (action_of_node slugify yaml_load validate_control_flow validate_interaction_data) (w_actions w3) = actions) as Hact.
  { rewrite (content_actions _ _ Hc3). cbn. apply list_eq. intros i. rewrite list_lookup_fmap, !list_lookup_imap.
    destruct (stmts !! i) as [s|] eqn:Hi; [|done]. cbn. f_equal. apply action_of_row. by eapply list_elem_of_lookup_2. }
  unfold build_from_workflow. destruct (w_actions w3) as [|a rows] eqn:Ea; [|rewrite Hact; apply built_again].
  exfalso. destruct stmts; [done|by cbn in Hact].
Qed.
End Restore.

(** ** An example: a diamond is restored *)

(** Runs of separators count once. *)
Definition ex_slugify (s : string) : string := String.concat "_" (filter (fun w => w <> "") (split_all " " (lower s))).
Definition ex_control_flow (v : val) : result ActionControlFlow :=
  match v with
  | VDict d => Ok (MkControlFlow (match dget d "run_if" with Some (VStr s) => Some s | _ => None end) VNone
                     (if decide (dget d "join_strategy" = Some (VStr "any")) then JoinANY else JoinALL) default_retry_policy (S754_zero false) None None false)
  | _ => raise ValidationError "ActionControlFlow"
  end.
Definition ex_parse (s : string) : option ActionID := if starts_with "trigger-" s then None else Some s.
Definition ex_float_of (v : val) : option spec_float :=
  match v with VFloat f => Some f | VInt z => Some (SpecFloat.binary_normalize 53 1024 z 0 false) | _ => None end.
Definition ex_uuids (i : nat) : ActionID := nth i ["0"; "1"; "2"; "3"] "".

Definition ex_join : ActionStatement :=
  MkAction "join" "all of it" "core.transform.reshape" [] ["right"; "left.success"; "start"] VNone (Some "${{ TRIGGER.ok }}") VNone default_retry_policy
    (S754_zero false) None JoinANY (Some "prod") false.
Definition ex_diamond : list ActionStatement :=
  [statement "start" "core.http_request" []; statement "left" "core.http_request" ["start"]; statement "right" "core.http_request" ["start.error"]; ex_join].

Lemma lower_capitalize s : lower (capitalize s) = lower s.
Proof.
  assert (forall c, ascii_lower (ascii_upper c) = ascii_lower c /\ ascii_lower (ascii_lower c) = ascii_lower c) as Hc
    by (intros [[] [] [] [] [] [] [] []]; done).
  assert (forall r, lower (lower r) = lower r) as Hr.
  { induction r as [|c r IH]; cbn; [done|]. by rewrite IH, (proj2 (Hc c)). }
  destruct s as [|c s]; cbn; [done|]. by rewrite Hr, (proj1 (Hc c)).
Qed.

Lemma lower_app s t : lower (s +:+ t) = lower s +:+ lower t.
Proof. induction s as [|c s IH]; cbn; [done|]. by rewrite IH. Qed.

Lemma word_spec w : word w = true -> w <> "" /\ lower w = w /\ has_char " " w = false.
Proof.
  intros [Hne Hc]%andb_true_iff. split; [intros ->; discriminate|]. clear Hne. induction w as [|c w IH]; [done|]. cbn in Hc |- *.
  apply andb_true_iff in Hc as [Hc Hw]. destruct (IH Hw) as [-> ->]. rewrite orb_false_r. destruct c as [[] [] [] [] [] [] [] []]; done.
Qed.

Lemma split_words words : words <> [] -> forallb word words = true ->
  split_all " " (lower (String.concat " " words)) = words /\ Forall (fun w => w <> "") words.
Proof.
  intros Hne. induction words as [|w words IH]; [done|]. cbn [forallb]. intros [(Hw & Hl & Hc)%word_spec Hws]%andb_true_iff.
  destruct words as [|w' words]; [split; [cbn; by rewrite Hl, split_all_nochar|by repeat constructor]|].
  destruct (IH ltac:(discriminate) Hws) as [IH1 IH2]. split; [|by constructor].
  rewrite concat_cons by discriminate. rewrite !lower_app, Hl. set (r := lower (String.concat " " (w' :: words))) in *. clearbody r.
  change (lower " " +:+ r) with (String " " r). clear -Hc IH1. induction w as [|c w IHw]; cbn; [by rewrite IH1|]. cbn in Hc. apply orb_false_iff in Hc as [Hc Hw].
  apply bool_decide_eq_false in Hc. rewrite decide_False by done. by rewrite (IHw Hw).
Qed.

Lemma ex_slugify_words words : words <> [] -> forallb word words = true -> ex_slugify (capitalize (String.concat " " words)) = String.concat "_" words.
Proof.
  intros Hne Hw. unfold ex_slugify. rewrite lower_capitalize. destruct (split_words words Hne Hw) as [-> Hall]. f_equal. clear -Hall.
  induction Hall as [|w words Hw _ IH]; [done|]. by rewrite filter_cons, decide_True, IH.
Qed.

Lemma ex_libraries_ok : libraries_ok ex_slugify (fun _ => "{}") (fun _ => Ok (VDict [])) (fun _ => true) ex_control_flow ex_uuids ex_parse ex_float_of
  (fun _ => true) ex_diamond "w".
Proof.
  assert (forall P : ActionStatement -> Prop, Forall P ex_diamond -> forall s, s ∈ ex_diamond -> P s) as Hall by (intros P; apply Forall_forall).
  split.
  - apply Hall. repeat constructor.
  - intros s cf Hs. revert cf. revert s Hs.
    apply (Hall (fun s => forall cf, control_flow_of (fun _ => true) s = Ok cf -> ex_control_flow (dump_control_flow cf) = Ok cf)).
    repeat constructor; by intros cf [= <-].
  - apply ex_slugify_words.
  - intros i j Hi Hj. cbn in Hi, Hj. assert (NoDup ["0"; "1"; "2"; "3"]) as Hnd by (apply (bool_decide_unpack _); vm_compute; exact I).
    unfold ex_uuids. intros H. apply (NoDup_lookup _ i j (nth i ["0"; "1"; "2"; "3"] "") Hnd).
    + do 4 (destruct i as [|i]; [reflexivity|]). lia.
    + rewrite H. do 4 (destruct j as [|j]; [reflexivity|]). lia.
  - intros i Hi. cbn in Hi. do 4 (destruct i as [|i]; [split; [reflexivity|discriminate]|]). lia.
  - reflexivity.
  - intros f. by eexists.
  - intros l a _ _. by eexists.
  - done.
Qed.

Lemma ex_definition_ok : definition_ok (fun _ => true) ex_diamond.
Proof.
  split.
  - apply (bool_decide_unpack _). vm_compute. exact I.
  - apply Forall_forall. repeat constructor.
  - assert (Forall (fun s => Forall (fun d => match edge_components_from_dep d with Ok (src, _) => src ∈ map ref ex_diamond | Err _ => False end) (depends_on s)) ex_diamond) as H.
    { repeat constructor; apply (bool_decide_unpack _); vm_compute; exact I. }
    intros s d Hs Hd. rewrite Forall_forall in H. specialize (H s Hs). rewrite Forall_forall in H. specialize (H d Hd).
    destruct (edge_components_from_dep d) as [[src t]|]; [eauto|done].
  - apply Forall_forall. repeat constructor; set_solver.
  - apply (ranked_acyclic (layout_inputs ex_diamond) diamond_rank), every_dep, (bool_decide_unpack _). vm_compute. exact I.
  - apply Forall_forall. repeat constructor.
Qed.

Lemma restore_then_build_witness :
  exists w', restore_workflow_definition ex_slugify (fun _ => "{}") (fun _ => true) ex_uuids ex_parse ex_float_of text_value 7 ex_diamond ex_flow = (w', RestoredAs w') /\
    graph_version w' = 8 /\ consistent w' /\
    build_from_workflow ex_slugify (fun _ => Ok (VDict [])) ex_control_flow Ok ex_parse (fun _ => true) w' = Ok (Some (map restored ex_diamond)) /\
    map depends_on (map restored ex_diamond) = [[]; ["start"]; ["start.error"]; ["left"; "right"; "start"]].
Proof.
  destruct (restore_then_build ex_slugify (fun _ => "{}") (fun _ => Ok (VDict [])) (fun _ => true) ex_control_flow Ok ex_uuids ex_parse ex_float_of text_value
    (fun _ => true) ex_diamond "w" ex_libraries_ok ex_definition_ok 7 ex_flow eq_refl ltac:(discriminate)) as [_ H].
  destruct (H eq_refl) as (w' & Hr & Hv & Hc & Hb). exists w'. split; [exact Hr|]. split; [exact Hv|]. split; [exact Hc|].
  split; [exact Hb|]. vm_compute. reflexivity.
Defined.

(** A reference with two underscores in a row, which the schema allows, comes back with one:
    expressions that name the action no longer do. *)
Example double_underscore_renamed :
  let stmts := [statement "a__b" "core.http_request" []] in
  let '(w', _) := restore_workflow_definition ex_slugify (fun _ => "{}") (fun _ => true) ex_uuids ex_parse ex_float_of text_value 7 stmts ex_flow in
  option_map (map ref) (match build_from_workflow ex_slugify (fun _ => Ok (VDict [])) ex_control_flow Ok ex_parse (fun _ => true) w' with Ok o => o | Err _ => None end) =
    Some ["a_b"].
Proof. vm_compute. reflexivity. Qed.
