(* ===== verification/DslScopesFacts.v ===== *)
(** Correctness of the scope analysis of [DslScopes]: the topological scope
    assignment terminates, detects exactly the cyclic definitions and builds a
    well-founded scope tree; the checks guarantee that edges respect scopes and
    that every loop region synchronises at its loop end. *)

From S2P Require Import Prelude PyStr Base62 PyVal Expr DslTypes Graph DslScopes.

(** ** The dependency graph of a definition *)

Section Graph.
Variable actions : list ActionStatement.

Definition dep_src (dep : string) : option string :=
  match edge_components_from_dep dep with Ok (src, _) => Some src | Err _ => None end.

Definition dep_srcs (a : ActionStatement) : list string := omap dep_src (depends_on a).

(** The sources of an action's edges, by reference. *)
Definition deps (v : string) : list string :=
  match find_action actions v with Some a => dep_srcs a | None => [] end.

(** The targets of an action's edges. *)
Definition succs (u : string) : list string :=
  flat_map (fun a => map (fun _ => ref a) (filter (fun d => d = u) (dep_srcs a))) actions.

(** What [validate_structure] checks before the scope analysis; references are
    slugs, so none is the root scope. *)
Record wf_actions : Prop := {
  wf_refs : NoDup (refs actions);
  wf_deps : forall a dep, a ∈ actions -> dep ∈ depends_on a ->
    exists src t, edge_components_from_dep dep = Ok (src, t) /\ src ∈ refs actions;
  wf_root : ROOT_SCOPE ∉ refs actions }.

Lemma find_action_Some r a : find_action actions r = Some a -> a ∈ actions /\ ref a = r.
Proof.
  intros H. apply find_some in H as [Hin Heq]. apply bool_decide_eq_true in Heq.
  split; [by apply list_elem_of_In|done].
Qed.

Lemma find_action_ref r : r ∈ refs actions -> exists a, find_action actions r = Some a.
Proof.
  intros Hr. destruct (find_action actions r) as [a|] eqn:E; [eauto|]. exfalso.
  apply list_elem_of_In, in_map_iff in Hr as (a & <- & Hin).
  apply (find_none _ _ E) in Hin. by apply bool_decide_eq_false in Hin.
Qed.

Lemma find_action_in a : NoDup (refs actions) -> a ∈ actions -> find_action actions (ref a) = Some a.
Proof.
  intros Hnd Hin. unfold find_action, refs in *. induction actions as [|b l IH]; [by inversion Hin|].
  simpl in *. apply NoDup_cons in Hnd as [Hb Hnd]. case_bool_decide as Heq.
  - apply elem_of_cons in Hin as [->|Hin]; [done|]. exfalso. apply Hb. rewrite Heq.
    apply list_elem_of_In, in_map. by apply list_elem_of_In.
  - apply elem_of_cons in Hin as [->|Hin]; [done|auto].
Qed.

Lemma refs_in a : a ∈ actions -> ref a ∈ refs actions.
Proof. intros H. apply list_elem_of_In, in_map. by apply list_elem_of_In. Qed.

Lemma dep_src_Some dep src : dep_src dep = Some src <-> exists t, edge_components_from_dep dep = Ok (src, t).
Proof.
  unfold dep_src. destruct (edge_components_from_dep dep) as [[s t]|]; split.
  - intros [= <-]. eauto.
  - by intros (? & [= <- <-]).
  - done.
  - by intros (? & ?).
Qed.

Lemma dep_srcs_in a src : src ∈ dep_srcs a <-> exists dep t, dep ∈ depends_on a /\ edge_components_from_dep dep = Ok (src, t).
Proof.
  unfold dep_srcs. rewrite list_elem_of_omap. setoid_rewrite dep_src_Some. naive_solver.
Qed.

Hypothesis Hwf : wf_actions.

Lemma dep_srcs_refs a src : a ∈ actions -> src ∈ dep_srcs a -> src ∈ refs actions.
Proof.
  intros Ha (dep & t & Hd & He)%dep_srcs_in. destruct (wf_deps Hwf a dep Ha Hd) as (? & ? & He' & ?).
  by rewrite He in He'; simplify_eq.
Qed.

Lemma dep_srcs_length a : a ∈ actions -> length (dep_srcs a) = length (depends_on a).
Proof.
  intros Ha. pose proof (wf_deps Hwf a) as Hd. unfold dep_srcs. induction (depends_on a) as [|d l IH]; [done|].
  simpl. destruct (Hd d Ha) as (src & t & He & _); [by left|].
  unfold dep_src at 1. rewrite He. simpl. f_equal. apply IH. intros dep _ Hin. apply Hd; [done|by right].
Qed.

Lemma deps_in v a : find_action actions v = Some a -> deps v = dep_srcs a.
Proof. unfold deps. by intros ->. Qed.

Lemma occurs_const {X : Type} (v w : string) (l : list X) :
  occurs v (map (fun _ => w) l) = (if decide (w = v) then length l else 0%nat).
Proof. induction l as [|x l IH]; simpl; [by case_decide|]. rewrite occurs_cons, IH. by case_decide. Qed.

Lemma occurs_succs u v : v ∈ refs actions -> occurs v (succs u) = occurs u (deps v).
Proof.
  intros Hv. destruct (find_action_ref v Hv) as [a Ha]. rewrite (deps_in v a Ha).
  apply find_action_Some in Ha as [Ha <-]. pose proof (wf_refs Hwf) as Hnd. clear Hv Hwf.
  unfold succs, refs in *. induction actions as [|b l IH]; [by inversion Ha|]. simpl in *.
  rewrite occurs_app, occurs_const. apply NoDup_cons in Hnd as [Hb Hnd].
  apply elem_of_cons in Ha as [->|Ha].
  - rewrite decide_True by done. assert (occurs (ref b) (flat_map (fun a => map (fun _ => ref a)
      (filter (fun d => d = u) (dep_srcs a))) l) = 0%nat) as ->.
    { apply occurs_0. intros Hin. apply Hb. apply list_elem_of_In in Hin.
      apply in_flat_map in Hin as (c & Hc & Hx). apply in_map_iff in Hx as (? & <- & _).
      by apply list_elem_of_In, in_map. }
    unfold occurs. lia.
  - rewrite decide_False; [auto|]. intros Heq. apply Hb. rewrite Heq.
    by apply list_elem_of_In, in_map, list_elem_of_In.
Qed.

Lemma succs_in u v : v ∈ succs u -> v ∈ refs actions.
Proof.
  intros Hin. apply list_elem_of_In in Hin. apply in_flat_map in Hin as (c & Hc & Hx).
  apply in_map_iff in Hx as (? & <- & _). apply list_elem_of_In in Hc. by apply refs_in.
Qed.

Lemma actions_graph_ok : graph_ok (refs actions) deps succs.
Proof.
  split.
  - apply (wf_refs Hwf).
  - intros v d Hv Hd. destruct (find_action_ref v Hv) as [a Ha]. rewrite (deps_in v a Ha) in Hd.
    apply find_action_Some in Ha as [Ha _]. by apply (dep_srcs_refs a).
  - intros u v _. apply succs_in.
  - intros u v _. apply occurs_succs.
Qed.
End Graph.

(** ** [_to_adjacency] builds the successor lists *)

Section Adjacency.
Variable actions : list ActionStatement.
Hypothesis Hwf : wf_actions actions.

Lemma init_adj_lookup {V} (l : list ActionStatement) (m : gmap string (list V)) u :
  foldl (fun m a => <[ref a := []]> m) m l !! u =
    (if decide (u ∈ map ref l) then Some [] else m !! u).
Proof.
  revert m; induction l as [|a l IH]; intros m; cbn [foldl map].
  - rewrite decide_False by (by inversion 1). done.
  - rewrite IH. destruct (decide (u ∈ map ref l)) as [Hin|Hn].
    + rewrite decide_True by (by right). done.
    + destruct (decide (u = ref a)) as [->|Hne].
      * rewrite lookup_insert_eq, decide_True by (by left). done.
      * rewrite lookup_insert_ne by done. rewrite decide_False; [done|]. set_solver.
Qed.

(** The inner loop, over one action's dependencies. *)
Lemma adj_inner {V} (f : string -> EdgeType -> V) ds (adj : gmap string (list V)) :
  (forall dep, dep ∈ ds -> exists src t, edge_components_from_dep dep = Ok (src, t) /\ is_Some (adj !! src)) ->
  exists adj', rfor (fun dep adj =>
      let! (src_ref, t) := edge_components_from_dep dep in
      let! l := getitem adj src_ref in
      Ok (<[src_ref := l ++ [f src_ref t]]> adj)) ds adj = Ok adj' /\
    forall u, adj' !! u = (fun l => l ++ omap (fun dep =>
      match edge_components_from_dep dep with
      | Ok (src, t) => if decide (src = u) then Some (f src t) else None
      | Err _ => None end) ds) <$> adj !! u.
Proof.
  revert adj; induction ds as [|d ds IH]; intros adj Hd; simpl.
  - exists adj. split; [done|]. intros u. destruct (adj !! u); simpl; by rewrite ?app_nil_r.
  - destruct (Hd d) as (src & t & He & [l Hl]); [by left|]. rewrite He; simpl.
    unfold getitem at 1. rewrite Hl. simpl.
    destruct (IH (<[src := l ++ [f src t]]> adj)) as (adj' & Hr & Hadj).
    { intros dep Hin. destruct (Hd dep) as (s & t' & He' & Hs); [by right|]. exists s, t'. split; [done|].
      destruct (decide (src = s)) as [->|]; [by rewrite lookup_insert_eq|by rewrite lookup_insert_ne]. }
    exists adj'. split; [done|]. intros u. rewrite Hadj. case_decide as Hu.
    + subst. rewrite lookup_insert_eq, Hl. simpl. f_equal. by rewrite <- app_assoc.
    + rewrite lookup_insert_ne by done. done.
Qed.

(** Both loops. *)
Lemma adj_outer {V} (g : string -> string -> EdgeType -> V) l (adj : gmap string (list V)) :
  (forall a dep, a ∈ l -> dep ∈ depends_on a ->
     exists src t, edge_components_from_dep dep = Ok (src, t) /\ is_Some (adj !! src)) ->
  exists adj', rfor (fun a adj =>
      rfor (fun dep adj =>
        let! (src_ref, t) := edge_components_from_dep dep in
        let! l := getitem adj src_ref in
        Ok (<[src_ref := l ++ [g (ref a) src_ref t]]> adj)) (depends_on a) adj) l adj = Ok adj' /\
    forall u, adj' !! u = (fun l0 => l0 ++ flat_map (fun a => omap (fun dep =>
      match edge_components_from_dep dep with
      | Ok (src, t) => if decide (src = u) then Some (g (ref a) src t) else None
      | Err _ => None end) (depends_on a)) l) <$> adj !! u.
Proof.
  revert adj; induction l as [|a l IH]; intros adj Hd; simpl.
  - exists adj. split; [done|]. intros u. destruct (adj !! u); simpl; by rewrite ?app_nil_r.
  - destruct (adj_inner (g (ref a)) (depends_on a) adj) as (adj1 & Hr1 & H1).
    { intros dep Hin. apply (Hd a); [by left|done]. }
    rewrite Hr1; simpl.
    destruct (IH adj1) as (adj2 & Hr2 & H2).
    { intros b dep Hb Hin. destruct (Hd b dep) as (s & t & He & Hs); [by right|done|].
      exists s, t. split; [done|]. rewrite H1. by apply fmap_is_Some. }
    exists adj2. split; [done|]. intros u. rewrite H2, H1. destruct (adj !! u); simpl; [|done].
    by rewrite <- app_assoc.
Qed.

Lemma init_adj_deps {V} a dep : a ∈ actions -> dep ∈ depends_on a ->
  exists src t, edge_components_from_dep dep = Ok (src, t) /\
    is_Some ((foldl (fun m a => <[ref a := []]> m) ∅ actions : gmap string (list V)) !! src).
Proof.
  intros Ha Hd. destruct (wf_deps _ Hwf a dep Ha Hd) as (src & t & He & Hs).
  exists src, t. split; [done|]. rewrite init_adj_lookup, decide_True by done. eauto.
Qed.

Lemma to_adjacency_spec :
  exists adj, _to_adjacency actions = Ok adj /\
    forall u, adj !! u = (if decide (u ∈ refs actions) then Some (succs actions u) else None).
Proof.
  destruct (adj_outer (fun r _ _ => r) actions (foldl (fun m a => <[ref a := []]> m) ∅ actions))
    as (adj & Hr & Hadj).
  { intros a dep. apply init_adj_deps. }
  exists adj. split; [done|]. intros u. rewrite Hadj, init_adj_lookup.
  unfold refs. case_decide; simpl; [|done]. f_equal. unfold succs.
  simpl. apply flat_map_ext. intros a. unfold dep_srcs. clear.
  induction (depends_on a) as [|d l IH]; [done|]. simpl. unfold dep_src at 1.
  destruct (edge_components_from_dep d) as [[s t]|]; simpl; [|exact IH].
  rewrite filter_cons. case_decide; simpl; [f_equal|]; exact IH.
Qed.

Lemma to_typed_adjacency_spec :
  exists adj, _to_typed_adjacency actions = Ok adj /\
    (forall u, is_Some (adj !! u) <-> u ∈ refs actions) /\
    forall u l v t, adj !! u = Some l ->
      ((v, t) ∈ l <-> exists a dep, a ∈ actions /\ ref a = v /\ dep ∈ depends_on a /\
        edge_components_from_dep dep = Ok (u, t)).
Proof.
  destruct (adj_outer (fun r _ t => (r, t)) actions (foldl (fun m a => <[ref a := []]> m) ∅ actions))
    as (adj & Hr & Hadj).
  { intros a dep. apply init_adj_deps. }
  exists adj. split; [done|]. split.
  - intros u. rewrite Hadj, init_adj_lookup. unfold refs. case_decide; simpl; split; try done.
    by intros [? ?].
  - intros u l v t. rewrite Hadj, init_adj_lookup. case_decide; simpl; [|done].
    intros [= <-]. rewrite list_elem_of_In, in_flat_map. setoid_rewrite <- list_elem_of_In.
    setoid_rewrite list_elem_of_omap. split.
    + intros (a & Ha & dep & Hd & He). destruct (edge_components_from_dep dep) as [[s t']|] eqn:E; [|done].
      case_decide; [|done]. simplify_eq. eauto 7.
    + intros (a & dep & Ha & <- & Hd & He). exists a. split; [done|]. exists dep. split; [done|].
      rewrite He. by rewrite decide_True.
Qed.
End Adjacency.

(** ** Scope assignment *)

(** A scope tree: the root has no parent and parents have a smaller rank. *)
Definition tree_ok (h : gmap string (option string)) (rank : string -> nat) : Prop :=
  h !! ROOT_SCOPE = Some None /\
  (forall s, is_Some (h !! s) -> (rank s < size h)%nat) /\
  (forall s p, h !! s = Some (Some p) -> is_Some (h !! p) /\ (rank p < rank s)%nat).

Section Assign.
Variable actions : list ActionStatement.
Hypothesis Hwf : wf_actions actions.

Record scope_inv (vis : list string) (st : Scopes) : Prop := {
  si_tree : exists rank, tree_ok (scope_hierarchy st) rank;
  si_dom : forall r, is_Some (action_scopes st !! r) <-> r ∈ vis;
  si_keys : forall s, is_Some (scope_hierarchy st !! s) <-> s = ROOT_SCOPE \/ is_Some (scope_openers st !! s);
  si_open : forall s act, scope_openers st !! s = Some act <->
    s ∈ vis /\ exists a, find_action actions s = Some a /\ action a = act /\ is_opener act = true;
  si_self : forall s, is_Some (scope_openers st !! s) -> action_scopes st !! s = Some s;
  si_range : forall r s, action_scopes st !! r = Some s -> is_Some (scope_hierarchy st !! s);
  si_parent : forall s, scope_hierarchy st !! s = Some None -> s = ROOT_SCOPE }.

Lemma scope_inv_init : scope_inv [] initial_scopes.
Proof.
  split; simpl.
  - exists (fun _ => 0%nat). split; [done|]. split.
    + intros s _. rewrite map_size_singleton. lia.
    + intros s p Hs. destruct (decide (s = ROOT_SCOPE)) as [->|].
      * by rewrite lookup_singleton_eq in Hs.
      * by rewrite lookup_singleton_ne in Hs.
  - intros r. rewrite lookup_empty. split; [by intros [? ?]|by inversion 1].
  - intros s. rewrite lookup_empty, lookup_singleton_is_Some. split; [auto|]. by intros [->|[? ?]].
  - intros s act. rewrite lookup_empty. split; [done|]. intros [H _]. by inversion H.
  - intros s. rewrite lookup_empty. by intros [? ?].
  - intros r s. by rewrite lookup_empty.
  - by intros s [<- _]%lookup_singleton_Some.
Qed.

(** An action popped for the first time is never in conflict. *)
Lemma assign_scope_new vis st r s :
  scope_inv vis st -> r ∉ vis -> assign_scope (action_scopes st) r s = Ok (<[r := s]> (action_scopes st)).
Proof.
  intros Hi Hr. unfold assign_scope. destruct (action_scopes st !! r) eqn:E; [|done].
  exfalso. apply Hr, (si_dom _ _ Hi). by rewrite E.
Qed.

(** Recording a non-opener's scope. *)
Lemma scope_inv_member vis st stmt s :
  scope_inv vis st -> ref stmt ∉ vis -> find_action actions (ref stmt) = Some stmt ->
  is_opener (action stmt) = false -> is_Some (scope_hierarchy st !! s) ->
  scope_inv (vis ++ [ref stmt])
    (MkScopes (<[ref stmt := s]> (action_scopes st)) (scope_hierarchy st) (scope_openers st)).
Proof.
  intros [Ht Hd Hk Ho Hs Hr Hpa] Hnew Hfind Hop Hsc. split; simpl; try done.
  - intros r. rewrite lookup_insert_is_Some', Hd, elem_of_app, list_elem_of_singleton. naive_solver.
  - intros s' act. rewrite Ho, elem_of_app, list_elem_of_singleton. split; [naive_solver|].
    intros [[?| ->] (a & Hf & Ha & Hop')]; [naive_solver|]. exfalso. simplify_eq. congruence.
  - intros s' Hs'. rewrite lookup_insert_ne; [by apply Hs|]. intros <-. apply Hnew.
    destruct Hs' as [act Hact]. by apply Ho in Hact as [? _].
  - intros r s' [[<- <-]|[_ ?]]%lookup_insert_Some; [done|eauto].
Qed.

(** Opening a scope extends the tree by a leaf. *)
Lemma scope_inv_open vis st stmt curr :
  scope_inv vis st -> ref stmt ∉ vis -> ref stmt <> ROOT_SCOPE -> find_action actions (ref stmt) = Some stmt ->
  is_opener (action stmt) = true -> is_Some (scope_hierarchy st !! curr) ->
  scope_inv (vis ++ [ref stmt])
    (MkScopes (<[ref stmt := ref stmt]> (action_scopes st)) (<[ref stmt := Some curr]> (scope_hierarchy st))
       (<[ref stmt := action stmt]> (scope_openers st))).
Proof.
  intros [(rank & Hroot & Hrk & Hpar) Hd Hk Ho Hs Hr Hpa] Hnew Hne Hfind Hop Hsc.
  assert (scope_openers st !! ref stmt = None) as Hno.
  { destruct (scope_openers st !! ref stmt) as [act|] eqn:E; [|done]. by apply Ho in E as [? _]. }
  assert (scope_hierarchy st !! ref stmt = None) as Hnh.
  { destruct (scope_hierarchy st !! ref stmt) eqn:E; [|done].
    destruct (proj1 (Hk (ref stmt)) ltac:(by rewrite E)) as [?|[? Hx]]; congruence. }
  split; simpl.
  - exists (fun s => if decide (s = ref stmt) then size (scope_hierarchy st) else rank s).
    split; [by rewrite lookup_insert_ne|]. rewrite map_size_insert_None by done. split.
    + intros s Hx. case_decide; [lia|]. rewrite lookup_insert_ne in Hx by done.
      specialize (Hrk s Hx). lia.
    + intros s p [[<- Hp]|[Hsn Hx]]%lookup_insert_Some.
      * injection Hp as <-. assert (curr <> ref stmt) by (intros ->; rewrite Hnh in Hsc; by destruct Hsc).
        rewrite lookup_insert_ne by done. split; [done|]. rewrite decide_False, decide_True by done. by apply Hrk.
      * destruct (Hpar s p Hx) as [Hp1 Hp2].
        assert (p <> ref stmt) by (intros ->; rewrite Hnh in Hp1; by destruct Hp1).
        rewrite lookup_insert_ne by done. split; [done|]. by rewrite !decide_False by done.
  - intros r. rewrite lookup_insert_is_Some', Hd, elem_of_app, list_elem_of_singleton. naive_solver.
  - intros s. rewrite !lookup_insert_is_Some', Hk. naive_solver.
  - intros s act. rewrite lookup_insert_Some, Ho, elem_of_app, list_elem_of_singleton. split.
    + intros [[<- <-]|[_ [? ?]]]; eauto 6.
    + intros [[Hv| ->] (a & Hf & Ha & Hx)].
      * right. split; [by intros <-|]. eauto.
      * left. by simplify_eq.
  - intros s [Heq|[Hsn Hx]]%lookup_insert_is_Some; [subst; by rewrite lookup_insert_eq|].
    rewrite lookup_insert_ne by done. auto.
  - intros r s [[<- <-]|[_ Hx]]%lookup_insert_Some; [by rewrite lookup_insert_eq|].
    rewrite lookup_insert_is_Some'. right. eauto.
  - intros s [[_ ?]|[_ ?]]%lookup_insert_Some; [done|auto].
Qed.

Definition closer_error (e : exn) : Prop :=
  e = Exn TracecatDSLError "You cannot use a closer action in the root scope" \/
  e = Exn TracecatDSLError "closes the wrong scope type".

Lemma enter_action_inv vis st stmt curr :
  scope_inv vis st -> ref stmt ∉ vis -> ref stmt <> ROOT_SCOPE -> find_action actions (ref stmt) = Some stmt ->
  is_Some (scope_hierarchy st !! curr) ->
  match enter_action stmt curr st with
  | Ok (st', next) => scope_inv (vis ++ [ref stmt]) st' /\ is_Some (scope_hierarchy st' !! next) /\
      (forall s, is_Some (scope_hierarchy st !! s) -> is_Some (scope_hierarchy st' !! s))
  | Err e => closer_error e /\ is_closer (action stmt) = true
  end.
Proof.
  intros Hi Hnew Hne Hfind Hc. unfold enter_action.
  rewrite !(assign_scope_new vis st) by done. simpl.
  destruct (is_opener (action stmt)) eqn:Eo.
  - split; [by apply scope_inv_open|]. simpl. split; [by rewrite lookup_insert_eq|].
    intros s Hs. rewrite lookup_insert_is_Some'. auto.
  - destruct (is_closer (action stmt)).
    + destruct (parent_of (scope_hierarchy st) curr) as [p|] eqn:Ep; [|by split; [left|]].
      case_decide; [|by split; [right|]]. rewrite (assign_scope_new vis st) by done. simpl.
      assert (is_Some (scope_hierarchy st !! p)) as Hp.
      { destruct (si_tree _ _ Hi) as (rank & _ & _ & Hpar). unfold parent_of in Ep.
        destruct (scope_hierarchy st !! curr) eqn:E; [|done]. subst. by apply Hpar in E as [? _]. }
      split; [by apply scope_inv_member|]. done.
    + split; [by apply scope_inv_member|]. done.
Qed.
(** The queue holds each ready action with a scope of the tree. *)
Lemma assign_loop_inv fuel adj vis queue ind st :
  (forall u, u ∈ refs actions -> adj !! u = Some (succs actions u)) ->
  kahn_inv (refs actions) (deps actions) vis (map fst queue) ind -> scope_inv vis st ->
  (forall r s, (r, s) ∈ queue -> is_Some (scope_hierarchy st !! s)) ->
  (length (refs actions) <= length vis + fuel)%nat ->
  exists res, assign_loop actions fuel adj queue ind st (length vis) = Some res /\
    match res with
    | Ok (st', n) => exists vis' ind', kahn_inv (refs actions) (deps actions) vis' [] ind' /\
                                  scope_inv vis' st' /\ n = length vis'
    | Err e => closer_error e /\ exists a, a ∈ actions /\ is_closer (action a) = true
    end.
Proof.
  intros Hadj. revert vis queue ind st; induction fuel as [|fuel IH]; intros vis queue ind st Hk Hi Hq Hf.
  - destruct queue as [|[r s] queue]; simpl; [exists (Ok (st, length vis)); eauto 10|]. exfalso.
    assert (length (vis ++ map fst ((r, s) :: queue)) <= length (refs actions))%nat as Hl.
    { apply submseteq_length, NoDup_submseteq; [apply Hk|]. apply Hk. }
    rewrite length_app in Hl. simpl in Hl. lia.
  - destruct queue as [|[r curr] queue]; simpl; [exists (Ok (st, length vis)); eauto 10|].
    assert (r ∈ refs actions) as Hr by (apply (ki_nodes _ _ _ _ _ Hk); set_solver).
    assert (r ∉ vis) as Hnew.
    { pose proof (ki_nodup _ _ _ _ _ Hk) as Hnd. apply NoDup_app in Hnd as (_ & Hd & _).
      intros Hv. apply (Hd r Hv). by left. }
    destruct (find_action_ref actions r Hr) as [stmt Hfind]. rewrite Hfind.
    destruct (find_action_Some actions r stmt Hfind) as [Hin Heq]. subst r.
    assert (ref stmt <> ROOT_SCOPE) as Hne by (intros He; apply (wf_root _ Hwf); by rewrite <- He).
    pose proof (enter_action_inv vis st stmt curr Hi Hnew Hne Hfind ltac:(apply (Hq (ref stmt)); by left)) as He.
    destruct (enter_action stmt curr st) as [[st' next]|e]; [|exists (Err e); destruct He; eauto 6].
    destruct He as (Hi' & Hn & Hmono). rewrite Hadj by done. simpl.
    pose proof (kahn_inv_step _ _ _ (actions_graph_ok actions Hwf) vis (ref stmt) (map fst queue) ind Hk) as Hk'.
    destruct (relax (succs actions (ref stmt)) ind) as [ind' ready]. simpl in Hk'.
    assert (S (length vis) = length (vis ++ [ref stmt])) as -> by (rewrite length_app; simpl; lia).
    apply IH; [|done| |rewrite length_app; simpl; lia].
    + rewrite map_app, map_map. simpl. by rewrite map_id.
    + intros r s [Hx|Hx]%elem_of_app; [apply Hmono, (Hq r); by right|].
      apply list_elem_of_In, in_map_iff in Hx as (? & [= <- <-] & _). done.
Qed.

Lemma initial_queue :
  map fst (map (fun ri : string * Z => (ri.1, ROOT_SCOPE)) (filter (fun ri => ri.2 = 0) (indegrees0 actions))) =
  filter (fun v => deps actions v = []) (refs actions).
Proof.
  rewrite map_map. simpl. unfold indegrees0, refs.
  assert (forall a, a ∈ actions -> deps actions (ref a) = dep_srcs a) as Hdeps.
  { intros a Ha. apply deps_in. apply find_action_in; [apply Hwf|done]. }
  pose proof (dep_srcs_length actions Hwf) as Hlen. revert Hdeps Hlen.
  generalize (deps actions) as D. intros D. clear Hwf. induction actions as [|a l IH]; intros Hdeps Hlen; [done|].
  simpl. rewrite !filter_cons. simpl. rewrite (Hdeps a) by (by left). pose proof (Hlen a ltac:(by left)) as Hl.
  rewrite <- Hl. rewrite <- IH; [|intros; apply Hdeps; by right|intros; apply Hlen; by right].
  destruct (dep_srcs a); simpl; repeat case_decide; try done; lia.
Qed.

Lemma initial_indegrees :
  list_to_map (indegrees0 actions) =
  (list_to_map (map (fun v => (v, Z.of_nat (length (deps actions v)))) (refs actions)) : gmap string Z).
Proof.
  f_equal. unfold indegrees0, refs. rewrite map_map. apply map_ext_in. intros a Ha%list_elem_of_In.
  rewrite (deps_in actions (ref a) a) by (apply find_action_in; [apply Hwf|done]).
  by rewrite (dep_srcs_length actions Hwf).
Qed.

(** The analysis of a well-formed definition always ends, in one of three ways. *)
Lemma assign_total adj :
  _to_adjacency actions = Ok adj ->
  exists res, _assign_action_scopes actions adj = Some res /\
    match res with
    | Ok sc => exists vis ind, kahn_inv (refs actions) (deps actions) vis [] ind /\ scope_inv vis sc /\
        (forall v, v ∈ refs actions -> v ∈ vis)
    | Err e =>
        (closer_error e /\ exists a, a ∈ actions /\ is_closer (action a) = true) \/
        (e = Exn TracecatDSLError "Cycle detected in control-flow workflow" /\
         exists vis ind v, kahn_inv (refs actions) (deps actions) vis [] ind /\ v ∈ refs actions /\ v ∉ vis)
    end.
Proof.
  intros Hadj. destruct (to_adjacency_spec actions Hwf) as (adj' & Hadj' & Hspec).
  rewrite Hadj in Hadj'. injection Hadj' as <-. unfold _assign_action_scopes.
  destruct (assign_loop_inv (length actions) adj []
    (map (fun ri => (ri.1, ROOT_SCOPE)) (filter (fun ri => ri.2 = 0) (indegrees0 actions)))
    (list_to_map (indegrees0 actions)) initial_scopes) as (res & Hres & Hpost).
  - intros u Hu. by rewrite Hspec, decide_True.
  - rewrite initial_queue, initial_indegrees. eapply kahn_inv_init. by apply actions_graph_ok.
  - apply scope_inv_init.
  - intros r s (? & [= <- <-] & _)%list_elem_of_In%in_map_iff. simpl. eauto.
  - unfold refs. rewrite length_map. simpl. lia.
  - simpl in Hres. rewrite Hres. destruct res as [[st n]|e].
    + destruct Hpost as (vis & ind & Hk & Hi & ->). eexists. split; [done|].
      assert (length actions = length (refs actions)) as Hla by (unfold refs; by rewrite length_map).
      pose proof (ki_nodup _ _ _ _ _ Hk) as Hnd. rewrite app_nil_r in Hnd.
      assert (forall v, v ∈ vis -> v ∈ refs actions) as Hsub.
      { intros v Hv. apply (ki_nodes _ _ _ _ _ Hk). by rewrite app_nil_r. }
      destruct (Nat.eqb_spec (length vis) (length actions)) as [Hl|Hl].
      * exists vis, ind. split; [done|]. split; [done|]. intros v Hv.
        assert (vis ≡ₚ refs actions) as ->; [|done].
        apply submseteq_length_Permutation; [by apply NoDup_submseteq|lia].
      * right. split; [done|]. exists vis, ind.
        destruct (decide (Forall (fun v => v ∈ vis) (refs actions))) as [Hall|Hex].
        { exfalso. apply Hl. rewrite Forall_forall in Hall.
          assert (vis ≡ₚ refs actions) as Hp; [|by rewrite Hp, Hla].
          apply NoDup_Permutation; [done|apply (wf_refs _ Hwf)|]. intros v. split; auto. }
        apply not_Forall_Exists in Hex; [|apply _]. apply Exists_exists in Hex as (v & Hv & Hn). eauto.
    + exists (Err e). split; [done|]. by left.
Qed.
End Assign.

(** ** Walks on a scope tree *)

Section TreeWalks.
Variable h : gmap string (option string).
Variable rank : string -> nat.
Hypothesis Htree : tree_ok h rank.

Lemma parent_of_Some s p : parent_of h s = Some p <-> h !! s = Some (Some p).
Proof. unfold parent_of. destruct (h !! s) as [[q|]|]; naive_solver. Qed.

Lemma tree_rank a b : parent_of h a = Some b -> (rank b < rank a)%nat.
Proof. intros H%parent_of_Some. by apply Htree in H as [_ ?]. Qed.

Lemma walk_total p s : is_Some (h !! s) -> is_Some (walk_up h (walk_fuel h) p (Some s)).
Proof.
  intros Hs. apply (walk_up_fuel h rank); [apply tree_rank|]. unfold walk_fuel.
  apply Htree in Hs. lia.
Qed.

Lemma ancestor_spec d s : is_Some (h !! s) ->
  (_is_same_or_ancestor_scope h d s = true <-> rtc (parent_step h) s d).
Proof.
  intros Hs. unfold _is_same_or_ancestor_scope.
  destruct (walk_total (fun s' => bool_decide (d = s')) s Hs) as [b Hb]. rewrite Hb. simpl.
  rewrite (walk_up_spec _ _ _ _ _ Hb). setoid_rewrite bool_decide_eq_true. naive_solver.
Qed.

Lemma descendant_spec s anc : is_Some (h !! s) ->
  (_is_same_or_descendant_scope h s anc = true <-> rtc (parent_step h) s anc).
Proof.
  intros Hs. unfold _is_same_or_descendant_scope.
  destruct (walk_total (fun s' => bool_decide (s' = anc)) s Hs) as [b Hb]. rewrite Hb. simpl.
  rewrite (walk_up_spec _ _ _ _ _ Hb). setoid_rewrite bool_decide_eq_true. naive_solver.
Qed.

(** One step up through a loop scope. *)
Definition loop_step (openers : gmap string string) (s p : string) : Prop :=
  openers !! s = Some PlatformAction.LOOP_START /\ parent_step h s p.

Lemma loop_descendant_spec openers fuel s target :
  (rank s < fuel)%nat ->
  exists b, loop_descendant h openers fuel (Some s) target = Some b /\
    (b = true <-> rtc (loop_step openers) s target).
Proof.
  revert s; induction fuel as [|fuel IH]; intros s Hf; [lia|]. simpl.
  destruct (decide (s = target)) as [->|Hne].
  { exists true. split; [done|]. split; [intros _; apply rtc_refl|done]. }
  destruct (decide (openers !! s = Some PlatformAction.LOOP_START)) as [Ho|Ho].
  - destruct (parent_of h s) as [p|] eqn:Ep.
    + destruct (IH p) as (b & Hb & Hiff); [apply tree_rank in Ep; lia|]. exists b. split; [done|].
      rewrite Hiff. split.
      * intros Hr. by eapply rtc_l; [split|].
      * intros Hr. inversion Hr as [|? q ? [_ Hq] Hr']; subst; [done|]. unfold parent_step in Hq.
        rewrite Ep in Hq. by injection Hq as <-.
    + exists false. split; [by destruct fuel|]. split; [done|]. intros Hr.
      inversion Hr as [|? q ? [_ Hq] Hr']; subst; [done|]. unfold parent_step in Hq. congruence.
  - exists false. split; [done|]. split; [done|]. intros Hr.
    inversion Hr as [|? q ? [Hq _] Hr']; subst; done.
Qed.

Lemma is_loop_descendant_spec openers d s : is_Some (h !! d) ->
  (_is_loop_descendant_scope h openers d s = true <-> d <> s /\ rtc (loop_step openers) d s).
Proof.
  intros Hd. unfold _is_loop_descendant_scope. case_decide as Heq; [naive_solver|].
  destruct (loop_descendant_spec openers (walk_fuel h) d s) as (b & Hb & Hiff).
  { unfold walk_fuel. apply Htree in Hd. lia. }
  rewrite Hb. simpl. naive_solver.
Qed.
End TreeWalks.

(** ** What a validated definition guarantees *)

Section Validated.
Variable parse : string -> option tree.
Variable actions : list ActionStatement.

Lemma dependency_sources_ok ds deps0 r :
  rfor (fun dep deps =>
      match edge_components_from_dep dep with
      | Ok (src, _) => Ok ({[ src ]} ∪ deps)
      | Err _ => dsl_error "Invalid depends_on ref"
      end) ds deps0 = Ok r ->
  deps0 ⊆ r /\ forall dep, dep ∈ ds -> exists src t, edge_components_from_dep dep = Ok (src, t) /\ src ∈ (r : gset string).
Proof.
  revert deps0; induction ds as [|d ds IH]; intros deps0; simpl.
  - intros [= <-]. split; [done|]. by inversion 1.
  - intros H. inv_ok. destruct (edge_components_from_dep d) as [[src t]|] eqn:E; [|done].
    injection H0 as <-. destruct (IH _ H1) as [Hs Hd]. split; [set_solver|].
    intros dep [->|Hin]%elem_of_cons; [|by apply Hd]. exists src, t. split; [done|]. set_solver.
Qed.

Lemma dependency_sources_spec r a dep :
  dependency_sources actions = Ok r -> a ∈ actions -> dep ∈ depends_on a ->
  exists src t, edge_components_from_dep dep = Ok (src, t) /\ src ∈ r.
Proof.
  unfold dependency_sources. generalize (∅ : gset string) as deps0.
  assert (forall l deps0 r, rfor (fun a deps =>
    rfor (fun dep deps =>
      match edge_components_from_dep dep with
      | Ok (src, _) => Ok ({[ src ]} ∪ deps)
      | Err _ => dsl_error "Invalid depends_on ref"
      end) (depends_on a) deps) l deps0 = Ok r -> deps0 ⊆ r /\ forall a dep, a ∈ l -> dep ∈ depends_on a ->
      exists src t, edge_components_from_dep dep = Ok (src, t) /\ src ∈ (r : gset string)) as Hgen.
  { induction l as [|b l IH]; intros deps0 r0; simpl; [intros [= <-]; split; [done|]; by inversion 1|].
    intros H. inv_ok. apply dependency_sources_ok in H0 as [Hs1 Hd1]. apply IH in H1 as [Hs2 Hd2].
    split; [set_solver|]. intros c dep' [->|Hc]%elem_of_cons Hin; [|by eapply Hd2].
    destruct (Hd1 _ Hin) as (src & t & ? & ?). exists src, t. split; [done|]. set_solver. }
  intros deps0 H Ha Hd. by eapply Hgen in H as [_ H]; eauto.
Qed.

(** The scopes a validated definition with control flow gets; a definition
    without scatter and loop start has none ([None]). *)
Lemma validate_inv :
  validate_structure parse actions = Some (Ok tt) -> ROOT_SCOPE ∉ refs actions ->
  wf_actions actions /\
  ((with_action actions PlatformAction.TRANSFORM_SCATTER = [] /\ with_action actions PlatformAction.LOOP_START = []
    /\ with_action actions PlatformAction.LOOP_END = []) \/
   exists adj sc, _to_adjacency actions = Ok adj /\ _assign_action_scopes actions adj = Some (Ok sc) /\
     _validate_scope_dependencies parse actions sc = Ok tt /\
     _validate_loop_scope_synchronization actions sc = Ok tt).
Proof.
  intros H Hroot. unfold validate_structure in H.
  destruct actions as [|a0 l0] eqn:Ea; [discriminate H|]. rewrite <- Ea in *. clear Ea a0 l0.
  case_bool_decide as Hnd; simpl in H; [|discriminate H].
  destruct (existsb _ actions); simpl in H; [|discriminate H].
  destruct (dependency_sources actions) as [deps0|] eqn:Ed; [|discriminate H].
  case_decide as Hsub; [|discriminate H].
  destruct (_all_action_expressions_valid _ _ _) eqn:Ee; [|discriminate H].
  split.
  { split; [done| |done]. intros b dep Hb Hdep.
    destruct (dependency_sources_spec _ b dep Ed Hb Hdep) as (src & t & He & Hs).
    exists src, t. split; [done|]. apply Hsub in Hs. by apply elem_of_list_to_set in Hs. }
  unfold _validate_scatter_gather_scopes in H.
  case_match; [discriminate H|]. destruct (negb _) eqn:Ebal; [discriminate H|].
  destruct ((_ =? 0) && (_ =? 0))%nat eqn:E0.
  - left. apply andb_true_iff in E0 as [H1 H2].
    apply Nat.eqb_eq, nil_length_inv in H1. apply Nat.eqb_eq in H2.
    apply negb_false_iff, Nat.eqb_eq in Ebal. rewrite H2 in Ebal.
    apply nil_length_inv in H2. apply nil_length_inv in Ebal. done.
  - right. destruct (_to_adjacency actions) as [adj|]; [|discriminate H].
    destruct (_assign_action_scopes actions adj) as [[sc|]|] eqn:Es; [|discriminate H..].
    injection H as H. exists adj, sc. split; [done|]. split; [done|].
    apply rbind_Ok in H as ([] & H1 & H2). done.
Qed.
End Validated.

(** ** Properties *)

(** A decision procedure for [wf_actions]. *)
Definition wf_actionsb (actions : list ActionStatement) : bool :=
  bool_decide (NoDup (refs actions)) && bool_decide (ROOT_SCOPE ∉ refs actions)
  && forallb (fun a => forallb (fun dep => match edge_components_from_dep dep with
       | Ok (src, _) => bool_decide (src ∈ refs actions) | Err _ => false end) (depends_on a)) actions.

Lemma wf_actionsb_sound actions : wf_actionsb actions = true -> wf_actions actions.
Proof.
  unfold wf_actionsb. rewrite !andb_true_iff, !bool_decide_eq_true, forallb_elem.
  intros [[H1 H2] H3]. split; [done| |done]. intros a dep Ha Hd.
  specialize (H3 a Ha). rewrite forallb_elem in H3. specialize (H3 dep Hd).
  destruct (edge_components_from_dep dep) as [[src t]|]; [|done].
  apply bool_decide_eq_true in H3. eauto.
Qed.

(** The transitive dependency relation of a definition. *)
Definition depends_plus (actions : list ActionStatement) : relation string :=
  tc (depends (refs actions) (deps actions)).

(** A small control-flow definition used by the witnesses. *)
Definition loop_example : list ActionStatement :=
  [statement "a" "core.http_request" []; statement "ls" PlatformAction.LOOP_START ["a"];
   statement "b" "core.http_request" ["ls"]; statement "le" PlatformAction.LOOP_END ["b"];
   statement "c" "core.http_request" ["le"]].

(** Its analysis. *)
Definition loop_adj : gmap string (list string) :=
  match _to_adjacency loop_example with Ok adj => adj | Err _ => ∅ end.
Definition loop_scopes : Scopes :=
  match _assign_action_scopes loop_example loop_adj with Some (Ok sc) => sc | _ => initial_scopes end.

(** C25: the topological scope assignment always ends; success means the
    definition has no dependency cycle, the cycle error means that it has one,
    and without scope closers the assignment succeeds exactly on the acyclic
    definitions.  The error for an action in several scopes is never raised,
    because each action is visited once. *)
Theorem assign_scopes_acyclic (actions : list ActionStatement) (adj : gmap string (list string))
    (Hwf : wf_actions actions) (Hadj : _to_adjacency actions = Ok adj) :
  exists res, _assign_action_scopes actions adj = Some res /\
    (forall sc, res = Ok sc -> forall v, ~ depends_plus actions v v) /\
    (res = dsl_error "Cycle detected in control-flow workflow" -> exists v, depends_plus actions v v) /\
    (existsb (fun a => is_closer (action a)) actions = false ->
       ((exists sc, res = Ok sc) <-> forall v, ~ depends_plus actions v v)) /\
    res <> dsl_error "cannot belong to multiple scopes".
Proof.
  pose proof (actions_graph_ok actions Hwf) as Hg.
  destruct (assign_total actions Hwf adj Hadj) as (res & Hres & Hpost).
  assert (forall sc, res = Ok sc -> forall v, ~ depends_plus actions v v) as Hok.
  { intros sc -> v. destruct Hpost as (vis & ind & Hk & _ & Hall). by eapply kahn_acyclic. }
  exists res. split; [done|]. split; [done|].
  assert (forall vis ind v, kahn_inv (refs actions) (deps actions) vis [] ind -> v ∈ refs actions ->
    v ∉ vis -> exists w, depends_plus actions w w) as Hcyc by (intros; by eapply kahn_cycle).
  split; [|split].
  - intros ->. destruct Hpost as [[[He|He] _]|(_ & vis & ind & v & ? & ? & ?)]; [done..|eauto].
  - intros Hnc. split; [intros [sc ->]; eauto|]. intros Hac. destruct res as [sc|e]; [eauto|exfalso].
    destruct Hpost as [(_ & a & Ha & Hc)|(_ & vis & ind & v & ? & ? & ?)].
    + assert (existsb (fun a => is_closer (action a)) actions = true) by (apply existsb_elem; eauto). congruence.
    + destruct (Hcyc vis ind v) as [w Hw]; [done..|]. by apply (Hac w).
  - destruct res as [sc|e]; [done|]. intros [= ->]. destruct Hpost as [[[He|He] _]|[He _]]; done.
Qed.

Lemma assign_scopes_acyclic_witness :
  _to_adjacency loop_example = Ok loop_adj /\
  exists res, _assign_action_scopes loop_example loop_adj = Some res /\
    (forall sc, res = Ok sc -> forall v, ~ depends_plus loop_example v v) /\
    (res = dsl_error "Cycle detected in control-flow workflow" -> exists v, depends_plus loop_example v v) /\
    (existsb (fun a => is_closer (action a)) loop_example = false ->
       ((exists sc, res = Ok sc) <-> forall v, ~ depends_plus loop_example v v)) /\
    res <> dsl_error "cannot belong to multiple scopes".
Proof.
  split; [vm_compute; reflexivity|].
  apply (assign_scopes_acyclic loop_example loop_adj).
  - apply wf_actionsb_sound. vm_compute. reflexivity.
  - vm_compute. reflexivity.
Defined.

(** C26: a successful assignment gives every action one scope of a well-founded
    tree rooted at the root scope: an opener's scope is itself, its parent is
    in the tree, and the walks of the validator terminate and decide exactly
    ancestry and ancestry through loop scopes. *)
Theorem assign_scopes_tree (actions : list ActionStatement) (adj : gmap string (list string)) (sc : Scopes)
    (Hwf : wf_actions actions) (Hadj : _to_adjacency actions = Ok adj)
    (Hsc : _assign_action_scopes actions adj = Some (Ok sc)) :
  (forall r, is_Some (action_scopes sc !! r) <-> r ∈ refs actions) /\
  (exists rank, tree_ok (scope_hierarchy sc) rank) /\
  (forall a, a ∈ actions -> is_opener (action a) = true ->
     action_scopes sc !! ref a = Some (ref a) /\ scope_openers sc !! ref a = Some (action a) /\
     exists p, parent_of (scope_hierarchy sc) (ref a) = Some p) /\
  (forall r s, action_scopes sc !! r = Some s ->
     forall d, (_is_same_or_ancestor_scope (scope_hierarchy sc) d s = true <->
                rtc (parent_step (scope_hierarchy sc)) s d) /\
               (is_Some (scope_hierarchy sc !! d) ->
                (_is_loop_descendant_scope (scope_hierarchy sc) (scope_openers sc) d s = true <->
                 d <> s /\ rtc (loop_step (scope_hierarchy sc) (scope_openers sc)) d s))).
Proof.
  destruct (assign_total actions Hwf adj Hadj) as (res & Hres & Hpost).
  rewrite Hsc in Hres. injection Hres as <-. destruct Hpost as (vis & ind & Hk & Hi & Hall).
  destruct (si_tree _ _ _ Hi) as [rank Htree].
  split; [|split; [eauto|split]].
  - intros r. rewrite (si_dom _ _ _ Hi). split; [|apply Hall]. intros Hr.
    apply (ki_nodes _ _ _ _ _ Hk). by rewrite app_nil_r.
  - intros a Ha Hop. pose proof (find_action_in actions a (wf_refs _ Hwf) Ha) as Hf.
    assert (scope_openers sc !! ref a = Some (action a)) as Ho.
    { apply (si_open _ _ _ Hi). split; [by apply Hall, refs_in|]. eauto. }
    split; [by apply (si_self _ _ _ Hi); rewrite Ho|]. split; [done|].
    assert (is_Some (scope_hierarchy sc !! ref a)) as [[p|] Hp].
    { apply (si_keys _ _ _ Hi). right. by rewrite Ho. }
    + exists p. by apply parent_of_Some.
    + exfalso. assert (ref a <> ROOT_SCOPE) as Hne.
      { intros He. apply (wf_root _ Hwf). rewrite <- He. by apply refs_in. }
      by apply (si_parent _ _ _ Hi) in Hp.
  - intros r s Hs d. pose proof (si_range _ _ _ Hi r s Hs) as Hsh. split.
    + by eapply ancestor_spec.
    + intros Hd. by eapply is_loop_descendant_spec.
Qed.

Lemma assign_scopes_tree_witness :
  _to_adjacency loop_example = Ok loop_adj /\ _assign_action_scopes loop_example loop_adj = Some (Ok loop_scopes) /\
  (forall r, is_Some (action_scopes loop_scopes !! r) <-> r ∈ refs loop_example) /\
  (exists rank, tree_ok (scope_hierarchy loop_scopes) rank) /\
  (forall a, a ∈ loop_example -> is_opener (action a) = true ->
     action_scopes loop_scopes !! ref a = Some (ref a) /\ scope_openers loop_scopes !! ref a = Some (action a) /\
     exists p, parent_of (scope_hierarchy loop_scopes) (ref a) = Some p) /\
  (forall r s, action_scopes loop_scopes !! r = Some s ->
     forall d, (_is_same_or_ancestor_scope (scope_hierarchy loop_scopes) d s = true <->
                rtc (parent_step (scope_hierarchy loop_scopes)) s d) /\
               (is_Some (scope_hierarchy loop_scopes !! d) ->
                (_is_loop_descendant_scope (scope_hierarchy loop_scopes) (scope_openers loop_scopes) d s = true <->
                 d <> s /\ rtc (loop_step (scope_hierarchy loop_scopes) (scope_openers loop_scopes)) d s))).
Proof.
  split; [vm_compute; reflexivity|]. split; [vm_compute; reflexivity|].
  apply (assign_scopes_tree loop_example loop_adj loop_scopes).
  - apply wf_actionsb_sound. vm_compute. reflexivity.
  - vm_compute. reflexivity.
  - vm_compute. reflexivity.
Defined.

Section Checked.
Variable parse : string -> option tree.
Variable actions : list ActionStatement.

Lemma rfor_unit_ok {A} (f : A -> unit -> result unit) l :
  rfor f l tt = Ok tt -> forall x, x ∈ l -> f x tt = Ok tt.
Proof.
  induction l as [|y l IH]; simpl; [by inversion 2|]. intros H x Hx.
  apply rbind_Ok in H as ([] & H1 & H2). apply elem_of_cons in Hx as [->|Hx]; auto.
Qed.

Lemma getitem_Ok {V} (m : gmap string V) k v : getitem m k = Ok v <-> m !! k = Some v.
Proof. unfold getitem. destruct (m !! k); split; unfold raise; naive_solver. Qed.

(** Loop ends recorded per reference. *)
Lemma loop_end_tables_scope sc scopes crefs :
  NoDup (refs actions) -> loop_end_tables parse actions sc = Ok (scopes, crefs) ->
  forall a, a ∈ actions -> is_loop_end a = true ->
    exists ls, scopes !! ref a = Some ls /\ _resolve_closed_loop_scope sc a = Ok ls.
Proof.
  unfold loop_end_tables, refs. intros Hnd H a Ha Hle.
  assert (forall l (s0 : gmap string string) (c0 : gmap string (gset string)) (s1 : gmap string string)
      (c1 : gmap string (gset string)), NoDup (map ref l) ->
    rfor (fun a '(scopes, crefs) =>
      if is_loop_end a then
        let! loop_scope := _resolve_closed_loop_scope sc a in
        let! rs := action_refs parse (VDict [("condition", default VNone (dget (args a) "condition"))]) in
        Ok (<[ref a := loop_scope]> scopes, <[ref a := rs]> crefs)
      else Ok (scopes, crefs)) l (s0, c0) = Ok (s1, c1) ->
    (forall r, r ∉ map ref l -> s1 !! r = s0 !! r) /\
    forall b, b ∈ l -> is_loop_end b = true ->
      exists ls, s1 !! ref b = Some ls /\ _resolve_closed_loop_scope sc b = Ok ls) as Hgen.
  { induction l as [|b l IH]; intros s0 c0 s1 c1 Hl; simpl.
    - intros [= <- <-]. split; [done|]. by inversion 1.
    - apply NoDup_cons in Hl as [Hb Hl]. intros Hr. apply rbind_Ok in Hr as ([s2 c2] & H1 & H2).
      destruct (IH _ _ _ _ Hl H2) as [Hf Hin].
      destruct (is_loop_end b) eqn:Eb; inv_ok.
      + split.
        * intros r Hr. rewrite Hf by set_solver. apply lookup_insert_ne. set_solver.
        * intros c [->|Hc]%elem_of_cons Hlc; [|by apply Hin].
          eexists. rewrite Hf by done. by rewrite lookup_insert_eq.
      + simplify_eq. split.
        * intros r Hr. apply Hf. set_solver.
        * intros c [->|Hc]%elem_of_cons Hlc; [congruence|by apply Hin]. }
  by apply (Hgen actions ∅ ∅ scopes crefs Hnd H).
Qed.

(** What resolving a loop end establishes. *)
Lemma resolve_spec sc a ls :
  _resolve_closed_loop_scope sc a = Ok ls ->
  exists s, action_scopes sc !! ref a = Some s /\ parent_of (scope_hierarchy sc) ls = Some s /\
    scope_openers sc !! ls = Some PlatformAction.LOOP_START /\
    (forall dep src t, dep ∈ depends_on a -> edge_components_from_dep dep = Ok (src, t) ->
       action_scopes sc !! src = Some ls).
Proof.
  unfold _resolve_closed_loop_scope. intros H. apply rbind_Ok in H as (s & Hs & H).
  apply rbind_Ok in H as (scopes & Hds & H). apply getitem_Ok in Hs. exists s. split; [done|].
  destruct (remove_dups scopes) as [|x [|y l]] eqn:E; [done| |done].
  case_decide as Hp; [|done]. case_decide as Ho; [|done]. injection H as <-.
  split; [done|]. split; [done|]. intros dep src t Hd He. apply rmap_Ok in Hds.
  apply list_elem_of_lookup in Hd as [i Hi]. destruct (Forall2_lookup_l _ _ _ _ _ Hds Hi) as (s' & Hs' & Hf).
  rewrite He in Hf. simpl in Hf. apply getitem_Ok in Hf. rewrite Hf. f_equal.
  assert (s' ∈ remove_dups scopes) as Hin.
  { apply elem_of_remove_dups. by eapply list_elem_of_lookup_2. }
  rewrite E in Hin. by apply list_elem_of_singleton in Hin.
Qed.

(** C27: in a validated definition every edge respects the scopes: an ordinary
    action depends only on actions of its own scope, an opener only on actions
    of the parent scope, a closer only on actions of a child scope, and a loop
    end only on actions of one scope opened by a loop start. *)
Theorem validated_edge_scopes (sc : Scopes) (a : ActionStatement)
    (dep src : string) (t : EdgeType)
    (Hnd : NoDup (refs actions))
    (Hv : _validate_scope_dependencies parse actions sc = Ok tt)
    (Ha : a ∈ actions) (Hd : dep ∈ depends_on a) (He : edge_components_from_dep dep = Ok (src, t)) :
  exists sa sd, action_scopes sc !! ref a = Some sa /\ action_scopes sc !! src = Some sd /\
    if is_opener (action a) then parent_of (scope_hierarchy sc) sa = Some sd
    else if is_closer (action a) then
      parent_of (scope_hierarchy sc) sd = Some sa /\
      (action a = PlatformAction.LOOP_END -> scope_openers sc !! sd = Some PlatformAction.LOOP_START)
    else sd = sa.
Proof.
  unfold _validate_scope_dependencies in Hv. apply rbind_Ok in Hv as ([les crefs] & Ht & Hv).
  apply (rfor_unit_ok (fun a _ => check_action parse sc les crefs a)) with (x := a) in Hv; [|done].
  unfold check_action in Hv. apply rbind_Ok in Hv as (sa & Hsa & Hv). apply rbind_Ok in Hv as ([] & Hedge & _).
  apply (rfor_unit_ok (fun dep _ => check_edge sc les a sa dep)) with (x := dep) in Hedge; [|done].
  unfold check_edge in Hedge. rewrite He in Hedge. simpl in Hedge.
  apply rbind_Ok in Hedge as (sd & Hsd & Hedge). apply getitem_Ok in Hsa, Hsd.
  exists sa, sd. split; [done|]. split; [done|].
  destruct (is_opener (action a)) eqn:Eo.
  - apply rbind_Ok in Hedge as (p & Hp & Hedge). apply getitem_Ok in Hp. case_decide; [|done]. subst.
    by apply parent_of_Some.
  - case_decide as Hle.
    + assert (is_closer (action a) = true) as -> by (rewrite Hle; reflexivity).
      assert (is_loop_end a = true) as Hle' by (unfold is_loop_end; by apply bool_decide_eq_true).
      destruct (loop_end_tables_scope sc les crefs Hnd Ht a Ha Hle') as (ls & Hls & Hr).
      apply rbind_Ok in Hedge as (ls' & Hls' & Hedge). apply getitem_Ok in Hls'. case_decide; [|done].
      simplify_eq. apply resolve_spec in Hr as (s & Hs & Hp & Ho & _). simplify_eq. done.
    + destruct (is_closer (action a)).
      * split; [|done]. unfold closer_scope_check in Hedge. apply rbind_Ok in Hedge as (p & Hp & Hedge).
        apply getitem_Ok in Hp. case_decide; [|by case_decide]. subst. by apply parent_of_Some.
      * by case_decide.
Qed.
End Checked.

Section LoopSync.
Variable actions : list ActionStatement.

(** [u] has a success edge into [v]. *)
Definition success_edge (u v : string) : Prop :=
  exists a dep, a ∈ actions /\ ref a = v /\ dep ∈ depends_on a /\
    edge_components_from_dep dep = Ok (u, EdgeSUCCESS).

Section Sync.
Hypothesis Hwf : wf_actions actions.
Hypothesis Hne : "" ∉ refs actions.

Lemma reverse_success_spec adj u v : _to_typed_adjacency actions = Ok adj ->
  (u ∈ reverse_success adj v <-> success_edge u v).
Proof.
  intros Hadj. destruct (to_typed_adjacency_spec actions Hwf) as (adj' & Hadj' & Hdom & Hsp).
  rewrite Hadj in Hadj'. injection Hadj' as <-. unfold reverse_success. rewrite list_elem_of_In, in_map_iff. split.
  - intros ([u' l] & <- & Hin). apply list_elem_of_In, list_elem_of_filter in Hin as [Hv Hin].
    apply elem_of_map_to_list in Hin. apply (Hsp u' l v EdgeSUCCESS Hin) in Hv as (a & dep & ? & ? & ? & ?).
    exists a, dep. done.
  - intros (a & dep & Ha & Hr & Hd & He).
    destruct (wf_deps _ Hwf a dep Ha Hd) as (src & t & He' & Hs). rewrite He in He'. simplify_eq.
    apply Hdom in Hs as [l Hl]. exists (src, l). split; [done|].
    apply list_elem_of_In, list_elem_of_filter. split; [|by apply elem_of_map_to_list].
    simpl. apply (Hsp src l); [done|]. eauto 7.
Qed.

(** The reverse search from a loop end finds exactly the actions with a success
    path to it. *)
Lemma sync_search adj le : _to_typed_adjacency actions = Ok adj -> le ∈ refs actions ->
  exists reach, dfs (reverse_success adj) (sync_fuel adj) [le] ∅ = Some reach /\
    forall r, r ∈ reach <-> rtc success_edge r le.
Proof.
  intros Hadj Hle. destruct (to_typed_adjacency_spec actions Hwf) as (adj' & Hadj' & Hdom & _).
  rewrite Hadj in Hadj'. injection Hadj' as <-. set (keys := map fst (map_to_list adj)).
  assert (forall r, r ∈ keys <-> r ∈ refs actions) as Hkeys.
  { intros r. rewrite <- Hdom. unfold keys. rewrite list_elem_of_In, in_map_iff. split.
    - intros ([k l] & <- & Hin). apply list_elem_of_In, elem_of_map_to_list in Hin. by exists l.
    - intros [l Hl]. exists (r, l). split; [done|]. by apply list_elem_of_In, elem_of_map_to_list. }
  assert (NoDup keys) as Hnd by apply NoDup_fst_map_to_list.
  assert (forall x y, x ∈ keys -> step_to (reverse_success adj) x y -> y ∈ keys) as Hcl.
  { intros x y _ Hy. apply Hkeys. apply (reverse_success_spec adj y x Hadj) in Hy as (a & dep & Ha & _ & Hd & He).
    destruct (wf_deps _ Hwf a dep Ha Hd) as (src & t & He' & Hs). rewrite He in He'. by simplify_eq. }
  assert (forall x, x ∈ [le] -> x ∈ keys) as Hst.
  { intros x ->%list_elem_of_singleton. by apply Hkeys. }
  destruct (dfs_fuel (reverse_success adj) keys (sync_fuel adj) [le] ∅) as [reach Hr]; try done.
  { unfold sync_fuel, keys. simpl. lia. }
  exists reach. split; [done|]. intros r.
  rewrite (dfs_reach (reverse_success adj) keys [le] reach _ Hnd Hst Hcl Hr r). split.
  - intros (x & ->%list_elem_of_singleton & Hp). clear Hst Hle Hr. induction Hp as [|x y z Hxy Hyz IH]; [apply rtc_refl|].
    eapply rtc_r; [exact IH|]. by apply (reverse_success_spec adj y x Hadj).
  - intros Hp. exists le. split; [by left|]. clear Hst Hle Hr. induction Hp as [|x y z Hxy Hyz IH]; [apply rtc_refl|].
    eapply rtc_r; [exact IH|]. by apply (reverse_success_spec adj x y Hadj).
Qed.

Lemma loop_end_by_scope_spec sc ends : loop_end_by_scope actions sc = Ok ends ->
  (forall ls le, ends !! ls = Some le ->
     exists a, a ∈ actions /\ is_loop_end a = true /\ ref a = le /\ _resolve_closed_loop_scope sc a = Ok ls) /\
  (forall a ls, a ∈ actions -> is_loop_end a = true -> _resolve_closed_loop_scope sc a = Ok ls ->
     ends !! ls = Some (ref a)).
Proof.
  unfold loop_end_by_scope. intros H.
  apply (rfor_inv (fun don (ends : gmap string string) => "" ∉ map ref don ->
    (forall ls le, ends !! ls = Some le ->
       exists a, a ∈ don /\ is_loop_end a = true /\ ref a = le /\ _resolve_closed_loop_scope sc a = Ok ls) /\
    (forall a ls, a ∈ don -> is_loop_end a = true -> _resolve_closed_loop_scope sc a = Ok ls ->
       ends !! ls = Some (ref a)))) in H; [exact H| | |exact Hne].
  - intros _. split; [|by inversion 1]. intros ls le. by rewrite lookup_empty.
  - intros don a m1 m2 IH Hstep Hnd. rewrite map_app in Hnd. destruct IH as [IH1 IH2]; [set_solver|].
    destruct (is_loop_end a) eqn:Ea.
    + apply rbind_Ok in Hstep as (ls & Hls & Hstep).
      assert (m1 !! ls = None /\ m2 = <[ls := ref a]> m1) as [Hnone ->].
      { destruct (m1 !! ls) as [ex|] eqn:E; [|by injection Hstep as <-].
        case_decide; [|done]. subst. apply IH1 in E as (b & Hb & _ & Hrb & _). exfalso. apply Hnd.
        apply elem_of_app. left. rewrite <- Hrb. by apply list_elem_of_In, in_map, list_elem_of_In. }
      split.
      * intros ls' le [[<- <-]|[_ Hl]]%lookup_insert_Some.
        { exists a. split; [set_solver|]. done. }
        destruct (IH1 ls' le Hl) as (b & Hb & ?). exists b. split; [|done]. set_solver.
      * intros b ls' [Hb| ->%list_elem_of_singleton]%elem_of_app Hlb Hrb.
        { rewrite lookup_insert_ne; [by apply IH2|]. intros <-. by rewrite (IH2 b ls Hb Hlb Hrb) in Hnone. }
        rewrite Hls in Hrb. injection Hrb as <-. by rewrite lookup_insert_eq.
    + injection Hstep as <-. split.
      * intros ls le Hl. destruct (IH1 ls le Hl) as (b & Hb & ?). exists b. split; [|done]. set_solver.
      * intros b ls [Hb| ->%list_elem_of_singleton]%elem_of_app; [by apply IH2|congruence].
Qed.
End Sync.

(** C24: in a validated definition every loop scope has exactly one loop end, and
    every action of the loop region, nested scopes included, has a path of
    success edges to it: no branch of an iteration escapes the barrier. *)
Theorem loop_regions_synchronise (adj : gmap string (list string)) (sc : Scopes) (loop : string)
    (Hwf : wf_actions actions) (Hne : "" ∉ refs actions)
    (Hadj : _to_adjacency actions = Ok adj)
    (Hsc : _assign_action_scopes actions adj = Some (Ok sc))
    (Hv : _validate_loop_scope_synchronization actions sc = Ok tt)
    (Hloop : scope_openers sc !! loop = Some PlatformAction.LOOP_START) :
  exists le, le ∈ actions /\ is_loop_end le = true /\
    (forall a, a ∈ actions -> is_loop_end a = true ->
       (_resolve_closed_loop_scope sc a = Ok loop <-> ref a = ref le)) /\
    forall r s, action_scopes sc !! r = Some s -> rtc (parent_step (scope_hierarchy sc)) s loop ->
      rtc success_edge r (ref le).
Proof.
  unfold _validate_loop_scope_synchronization in Hv.
  case_decide as Hempty.
  { exfalso. assert (loop ∈ (∅ : gset string)) as Hin; [|by apply not_elem_of_empty in Hin].
    rewrite <- Hempty. apply elem_of_dom. exists PlatformAction.LOOP_START.
    by apply map_lookup_filter_Some. }
  apply rbind_Ok in Hv as (ends & Hends & Hv). case_decide as Hsub; [|done].
  apply rbind_Ok in Hv as (tadj & Htadj & Hv).
  destruct (loop_end_by_scope_spec Hwf Hne sc ends Hends) as [He1 He2].
  assert (is_Some (ends !! loop)) as [le Hle].
  { apply elem_of_dom, Hsub, elem_of_dom. exists PlatformAction.LOOP_START. by apply map_lookup_filter_Some. }
  destruct (He1 loop le Hle) as (a & Ha & Hla & <- & Hra).
  exists a. split; [done|]. split; [done|]. split.
  - intros b Hb Hlb. split; intros Hx.
    + rewrite (He2 b loop Hb Hlb Hx) in Hle. by injection Hle.
    + pose proof (find_action_in actions a (wf_refs _ Hwf) Ha) as F1.
      pose proof (find_action_in actions b (wf_refs _ Hwf) Hb) as F2. rewrite Hx in F2. congruence.
  - intros r s Hs Hr.
    eapply (rfor_unit_ok _ (map_to_list ends)) with (x := (loop, ref a)) in Hv; [|by apply elem_of_map_to_list].
    simpl in Hv. destruct (sync_search Hwf tadj (ref a) Htadj ltac:(by apply refs_in)) as (reach & Hd & Hreach).
    rewrite Hd in Hv. simpl in Hv. destruct (forallb _ _) eqn:Hall; [|done].
    rewrite forallb_elem in Hall. specialize (Hall (r, s) ltac:(by apply elem_of_map_to_list)). simpl in Hall.
    apply orb_true_iff in Hall as [Hn|Hin]; [|by apply bool_decide_eq_true in Hin; apply Hreach].
    exfalso. destruct (assign_total actions Hwf adj Hadj) as (res & Hres & Hpost).
    rewrite Hsc in Hres. injection Hres as <-. destruct Hpost as (vis & ind & Hk & Hi & _).
    destruct (si_tree _ _ _ Hi) as [rank Htree].
    apply (descendant_spec _ rank Htree s loop) in Hr; [|by eapply (si_range _ _ _ Hi)].
    by rewrite Hr in Hn.
Qed.
End LoopSync.

Lemma validated_edge_scopes_witness :
  _to_adjacency loop_example = Ok loop_adj /\ _assign_action_scopes loop_example loop_adj = Some (Ok loop_scopes) /\
  exists sa sd, action_scopes loop_scopes !! "le" = Some sa /\ action_scopes loop_scopes !! "b" = Some sd /\
    if is_opener PlatformAction.LOOP_END then parent_of (scope_hierarchy loop_scopes) sa = Some sd
    else if is_closer PlatformAction.LOOP_END then
      parent_of (scope_hierarchy loop_scopes) sd = Some sa /\
      (PlatformAction.LOOP_END = PlatformAction.LOOP_END -> scope_openers loop_scopes !! sd = Some PlatformAction.LOOP_START)
    else sd = sa.
Proof.
  split; [vm_compute; reflexivity|]. split; [vm_compute; reflexivity|].
  apply (validated_edge_scopes (fun _ => None) loop_example loop_scopes
            (statement "le" PlatformAction.LOOP_END ["b"]) "b" "b" EdgeSUCCESS).
  - apply (wf_refs loop_example), wf_actionsb_sound. vm_compute. reflexivity.
  - vm_compute. reflexivity.
  - do 3 right. left.
  - left.
  - vm_compute. reflexivity.
Defined.

Lemma loop_regions_synchronise_witness :
  _to_adjacency loop_example = Ok loop_adj /\ _assign_action_scopes loop_example loop_adj = Some (Ok loop_scopes) /\
  exists le, le ∈ loop_example /\ is_loop_end le = true /\
    (forall a, a ∈ loop_example -> is_loop_end a = true ->
       (_resolve_closed_loop_scope loop_scopes a = Ok "ls" <-> ref a = ref le)) /\
    forall r s, action_scopes loop_scopes !! r = Some s -> rtc (parent_step (scope_hierarchy loop_scopes)) s "ls" ->
      rtc (success_edge loop_example) r (ref le).
Proof.
  split; [vm_compute; reflexivity|]. split; [vm_compute; reflexivity|].
  apply (loop_regions_synchronise loop_example loop_adj loop_scopes).
  - apply wf_actionsb_sound. vm_compute. reflexivity.
  - apply (bool_decide_unpack _). vm_compute. reflexivity.
  - vm_compute. reflexivity.
  - vm_compute. reflexivity.
  - vm_compute. reflexivity.
  - vm_compute. reflexivity.
Defined.
