(* ===== verification/Coro.v ===== *)
(** Coroutines over a shared state: the [async] code of the scheduler runs
    atomically between two suspension points, where it waits for an answer of
    the environment while other coroutines may change the state.  A coroutine is
    a resumption: it either finished, or is suspended on an event with the
    continuation that receives the answer (or the exception thrown at the
    [await]) and the state at that moment. *)

From S2P Require Import Prelude PyVal.

(** Python exceptions as the scheduler distinguishes them: an [ApplicationError]
    with its details, any other subclass of [Exception] by class name, the
    [PlatformExecutionError] wrapper, and [asyncio.CancelledError], which is not
    an [Exception]. *)
Inductive exc :=
  | ExcApp (msg : string) (details : list val)
  | ExcOther (cls msg : string)
  | ExcPlatform (e : exc)
  | ExcCancelled.

(** Caught by [except Exception]. *)
Definition is_exception (x : exc) : bool :=
  match x with ExcCancelled => false | _ => true end.

Definition is_application_error (x : exc) : bool :=
  match x with ExcApp _ _ => true | _ => false end.

(** [e.__class__.__name__]. *)
Definition exc_class (x : exc) : string :=
  match x with
  | ExcApp _ _ => "ApplicationError"
  | ExcOther cls _ => cls
  | ExcPlatform _ => "PlatformExecutionError"
  | ExcCancelled => "CancelledError"
  end.

(** [str(e)]. *)
Fixpoint exc_message (x : exc) : string :=
  match x with
  | ExcApp msg _ | ExcOther _ msg => msg
  | ExcPlatform e => exc_message e
  | ExcCancelled => ""
  end.

(** The name of a builtin exception class. *)
Definition cls_name (c : exn_class) : string :=
  match c with
  | ValueError => "ValueError" | TypeError => "TypeError" | KeyError => "KeyError"
  | IndexError => "IndexError" | RuntimeError => "RuntimeError"
  | ZeroDivisionError => "ZeroDivisionError" | AttributeError => "AttributeError"
  | ApplicationError => "ApplicationError" | TracecatDSLError => "TracecatDSLError"
  | TracecatExpressionError => "TracecatExpressionError"
  | TracecatValidationError => "TracecatValidationError"
  | TaskUnreachable => "TaskUnreachable" | ScopeDeniedError => "ScopeDeniedError"
  | CancelledError => "CancelledError"
  | FileNotFoundError => "FileNotFoundError" | NotImplementedError => "NotImplementedError"
  | ValidationError => "ValidationError" | OverflowError => "OverflowError"
  | DBAPIError => "DBAPIError"
  | InvalidOrganizationConcurrencyCapError => "InvalidOrganizationConcurrencyCapError"
  | DefaultTierNotConfiguredError => "DefaultTierNotConfiguredError"
  | EntitlementRequired => "EntitlementRequired"
  end.

Definition exc_of (e : exn) : exc :=
  match exn_cls e with
  | ApplicationError => ExcApp (exn_msg e) []
  | c => ExcOther (cls_name c) (exn_msg e)
  end.

Section Coro.
Context {St Ev : Type} {Ans : Ev -> Type}.

Inductive coro (A : Type) : Type :=
  | Done (s : St) (r : A + exc)
  | Await (s : St) (e : Ev) (k : Ans e + exc -> St -> coro A).
#[global] Arguments Done {A} s r.
#[global] Arguments Await {A} s e k.

(** A computation, run from the current state. *)
Definition prog (A : Type) : Type := St -> coro A.

Definition ret {A} (a : A) : prog A := fun s => Done s (inl a).
Definition throw {A} (x : exc) : prog A := fun s => Done s (inr x).
Definition gets {A} (f : St -> A) : prog A := fun s => Done s (inl (f s)).
Definition modify (f : St -> St) : prog unit := fun s => Done (f s) (inl tt).
Definition await (e : Ev) : prog (Ans e) := fun s => Await s e (fun r s' => Done s' r).
Definition lift {A} (r : result A) : prog A :=
  match r with Ok a => ret a | Err e => throw (exc_of e) end.

Fixpoint coro_bind {A B} (c : coro A) (f : A -> prog B) : coro B :=
  match c with
  | Done s (inl a) => f a s
  | Done s (inr x) => Done s (inr x)
  | Await s e k => Await s e (fun r s' => coro_bind (k r s') f)
  end.
Definition bind {A B} (m : prog A) (f : A -> prog B) : prog B := fun s => coro_bind (m s) f.

(** [try: m except <p>: h]. *)
Fixpoint coro_catch {A} (p : exc -> bool) (c : coro A) (h : exc -> prog A) : coro A :=
  match c with
  | Done s (inl a) => Done s (inl a)
  | Done s (inr x) => if p x then h x s else Done s (inr x)
  | Await s e k => Await s e (fun r s' => coro_catch p (k r s') h)
  end.
Definition catch {A} (p : exc -> bool) (m : prog A) (h : exc -> prog A) : prog A :=
  fun s => coro_catch p (m s) h.

(** [try: m finally: f] for an [f] that does not suspend. *)
Fixpoint coro_finally {A} (c : coro A) (f : St -> St) : coro A :=
  match c with
  | Done s r => Done (f s) r
  | Await s e k => Await s e (fun r s' => coro_finally (k r s') f)
  end.
Definition finally {A} (m : prog A) (f : St -> St) : prog A := fun s => coro_finally (m s) f.

Fixpoint pfor {X} (l : list X) (f : X -> prog unit) : prog unit :=
  match l with
  | [] => ret tt
  | x :: l' => bind (f x) (fun _ => pfor l' f)
  end.

(** ** Reasoning about segments

    A coroutine is a sequence of atomic segments.  [safe K J R Q s0 c]: the
    segment that started in [s0] and led to [c] is related by [R] and ends in a
    state where [J] holds if it suspends, and satisfies [Q] if it is the last;
    the same holds of the later segments, for every answer allowed by [K] and
    every state satisfying [J] that the other coroutines may leave. *)

Fixpoint safe {A} (K : forall e, Ans e + exc -> Prop) (J : St -> Prop) (R : St -> St -> Prop)
    (Q : St -> A + exc -> St -> Prop) (s0 : St) (c : coro A) : Prop :=
  match c with
  | Done s r => Q s0 r s
  | Await s e k => J s /\ R s0 s /\ forall r s', K e r -> J s' -> safe K J R Q s' (k r s')
  end.

Section Safe.
Context (K : forall e, Ans e + exc -> Prop) (J : St -> Prop) (R : St -> St -> Prop) {HR : PreOrder R}.

(** The state relation of every segment extends to the left. *)
Lemma safe_trans {A} (Q : St -> A + exc -> St -> Prop) s0 s1 c :
  (forall r s, Q s1 r s -> Q s0 r s) -> R s0 s1 -> safe K J R Q s1 c -> safe K J R Q s0 c.
Proof.
  intros HQ H01. destruct c as [s r|s e k]; simpl; [auto|].
  intros (HJ & H1 & Hk). split; [done|]. split; [by transitivity s1|done].
Qed.

Lemma safe_weaken {A} (Q Q' : St -> A + exc -> St -> Prop) s0 c :
  (forall s0 r s, Q s0 r s -> Q' s0 r s) -> safe K J R Q s0 c -> safe K J R Q' s0 c.
Proof.
  intros HQ. revert s0. induction c as [s r|s e k IH]; intros s0; simpl; [auto|].
  intros (HJ & H1 & Hk). split; [done|]. split; [done|]. intros r s' Hr Hs'. apply IH. auto.
Qed.

(** The segment relation of a first part that returned, then of the rest. *)
Definition then_ {A B} (f : A -> prog B) (Q : St -> B + exc -> St -> Prop)
    (s0 : St) (r : A + exc) (s : St) : Prop :=
  match r with
  | inl a => safe K J R Q s0 (f a s)
  | inr x => Q s0 (inr x) s
  end.

Lemma safe_bind {A B} (Q : St -> B + exc -> St -> Prop) s0 (c : coro A) (f : A -> prog B) :
  safe K J R (then_ f Q) s0 c -> safe K J R Q s0 (coro_bind c f).
Proof.
  revert s0. induction c as [s [a|x]|s e k IH]; intros s0; simpl; [done..|].
  intros (HJ & H1 & Hk). split; [done|]. split; [done|]. intros r s' Hr Hs'. apply IH. auto.
Qed.

Definition or_else {A} (p : exc -> bool) (h : exc -> prog A) (Q : St -> A + exc -> St -> Prop)
    (s0 : St) (r : A + exc) (s : St) : Prop :=
  match r with
  | inl a => Q s0 (inl a) s
  | inr x => if p x then safe K J R Q s0 (h x s) else Q s0 (inr x) s
  end.

Lemma safe_catch {A} (Q : St -> A + exc -> St -> Prop) p s0 (c : coro A) h :
  safe K J R (or_else p h Q) s0 c -> safe K J R Q s0 (coro_catch p c h).
Proof.
  revert s0. induction c as [s [a|x]|s e k IH]; intros s0; simpl; [done| |].
  - by destruct (p x).
  - intros (HJ & H1 & Hk). split; [done|]. split; [done|]. intros r s' Hr Hs'. apply IH. auto.
Qed.

Lemma safe_finally {A} (Q : St -> A + exc -> St -> Prop) s0 (c : coro A) f :
  safe K J R (fun s0 r s => Q s0 r (f s)) s0 c -> safe K J R Q s0 (coro_finally c f).
Proof.
  revert s0. induction c as [s r|s e k IH]; intros s0; simpl; [done|].
  intros (HJ & H1 & Hk). split; [done|]. split; [done|]. intros r s' Hr Hs'. apply IH. auto.
Qed.

(** ** Invariants: every segment keeps [J] and is related by [R] *)

Definition kept {A} (s0 : St) (r : A + exc) (s : St) : Prop := J s /\ R s0 s.

Definition keeps {A} (m : prog A) : Prop := forall s, J s -> safe K J R kept s (m s).

Lemma keeps_ret {A} (a : A) : keeps (ret a).
Proof. intros s Hs. by split. Qed.
Lemma keeps_throw {A} x : keeps (throw x : prog A).
Proof. intros s Hs. by split. Qed.
Lemma keeps_gets {A} (f : St -> A) : keeps (gets f).
Proof. intros s Hs. by split. Qed.
Lemma keeps_modify f : (forall s, J s -> J (f s) /\ R s (f s)) -> keeps (modify f).
Proof. intros Hf s Hs. by apply Hf. Qed.
Lemma keeps_await e : keeps (await e).
Proof. intros s Hs. simpl. split; [done|]. split; [done|]. intros r s' _ Hs'. by split. Qed.
Lemma keeps_lift {A} (r : result A) : keeps (lift r).
Proof. destruct r; intros s Hs; by split. Qed.

(** A segment continues with a computation that keeps the invariant. *)
Lemma keeps_from {A} (m : prog A) s0 s : keeps m -> J s -> R s0 s -> safe K J R kept s0 (m s).
Proof.
  intros Hm Hs H01. apply (safe_trans _ s0 s); [|done|by apply Hm].
  intros r s' [? ?]. split; [done|]. by transitivity s.
Qed.

Lemma keeps_bind {A B} (m : prog A) (f : A -> prog B) :
  keeps m -> (forall a, keeps (f a)) -> keeps (bind m f).
Proof.
  intros Hm Hf s Hs. apply safe_bind. eapply safe_weaken; [|by apply Hm].
  intros s0 [a|x] s' [? ?]; [by apply keeps_from|by split].
Qed.

Lemma keeps_catch {A} p (m : prog A) h :
  keeps m -> (forall x, keeps (h x)) -> keeps (catch p m h).
Proof.
  intros Hm Hh s Hs. apply safe_catch. eapply safe_weaken; [|by apply Hm].
  intros s0 [a|x] s' [? ?]; simpl; [by split|]. destruct (p x); [by apply keeps_from|by split].
Qed.

Lemma keeps_finally {A} (m : prog A) f :
  keeps m -> (forall s, J s -> J (f s) /\ R s (f s)) -> keeps (finally m f).
Proof.
  intros Hm Hf s Hs. apply safe_finally. eapply safe_weaken; [|by apply Hm].
  intros s0 r s' [HJ H]. destruct (Hf s' HJ). split; [done|]. by transitivity s'.
Qed.

Lemma keeps_pfor {X} (l : list X) f :
  (forall x, keeps (f x)) -> keeps (pfor l f).
Proof.
  intros Hf. induction l; simpl; [apply keeps_ret|].
  apply keeps_bind; auto.
Qed.

(** What is read holds of a state satisfying the invariant. *)
Lemma keeps_gets_bind {A B} (f : St -> A) (k : A -> prog B) :
  (forall s, J s -> keeps (k (f s))) -> keeps (bind (gets f) k).
Proof. intros Hk s Hs. simpl. by apply Hk. Qed.
End Safe.
End Coro.

Arguments coro St {Ev} Ans A.
Arguments prog St {Ev} Ans A.

Declare Scope coro_scope.
Notation "'let*' x ':=' m 'in' k" := (bind m (fun x => k))
  (at level 10, x pattern, m at level 100, k at level 200) : coro_scope.
Notation "'do*' m ';;' k" := (bind m (fun _ => k))
  (at level 10, m at level 99, k at level 200) : coro_scope.

Create HintDb keeps discriminated.

(** Syntax-directed proof that a computation keeps an invariant; the remaining
    goals are the state updates. *)
Ltac keeps_step :=
  lazymatch goal with
  | |- keeps _ _ _ (ret _) => apply keeps_ret; exact _
  | |- keeps _ _ _ (throw _) => apply keeps_throw; exact _
  | |- keeps _ _ _ (gets _) => apply keeps_gets; exact _
  | |- keeps _ _ _ (await _) => apply keeps_await; exact _
  | |- keeps _ _ _ (lift _) => apply keeps_lift; exact _
  | |- keeps _ _ _ (modify _) => apply keeps_modify
  | |- keeps _ _ _ (bind _ _) => apply keeps_bind; [exact _| |intros ?]
  | |- keeps _ _ _ (catch _ _ _) => apply keeps_catch; [exact _| |intros ?]
  | |- keeps _ _ _ (finally _ _) => apply keeps_finally; [exact _| |]
  | |- keeps _ _ _ (pfor _ _) => apply keeps_pfor; [exact _|intros ?]
  | |- keeps _ _ _ (match ?x with _ => _ end) => destruct x eqn:?
  | |- keeps _ _ _ (let _ := _ in _) => cbv zeta
  end.
