(* ===== verification/SchedState.v ===== *)
(** The state of the workflow scheduler ([tracecat/dsl/scheduler.py]): the static
    tables built by the constructor, the mutable bookkeeping, and the operations
    that do not suspend (queueing, edge marks, reachability, error and success
    paths, loop reset, stream-aware lookup). *)

From S2P Require Import Prelude PyStr Base62 PyVal Expr DslTypes Graph DslScopes Coro.

(** ** Static tables *)

(** A task instance; equality ignores the delay ([compare=False]), so tables are
    keyed by [Task] and the queue holds [TaskI]. *)
Definition Task : Type := string * StreamID.
Record TaskI := MkTask { t_ref : string; t_stream : StreamID; t_delay : spec_float }.
Definition task_key (t : TaskI) : Task := (t_ref t, t_stream t).

Definition no_delay : spec_float := S754_zero false.

(** [DSLEdge]: source, destination, type, stream. *)
Definition DSLEdge : Type := string * string * EdgeType * StreamID.

Record LoopRegion := MkRegion {
  start_ref : string;
  end_ref : string;
  scope_ref : string;
  members : gset string }.

Record Static := MkStatic {
  actions : list ActionStatement;
  adj : gmap string (list AdjDst);
  scopes : Scopes;
  loop_regions : gmap string LoopRegion;
  loop_regions_by_end : gmap string LoopRegion;
  max_pending_tasks : Z;
  workspace_id : option string }.

Definition tasks (st : Static) (r : string) : option ActionStatement := find_action (actions st) r.

(** [_adj_sort_key]: by destination, then edge type. *)
Definition adj_leb (a b : AdjDst) : bool :=
  match String.compare a.1 b.1 with
  | Lt => true
  | Gt => false
  | Eq => String.leb (edge_type_value a.2) (edge_type_value b.2)
  end.

Definition adj_le (a b : AdjDst) : Prop := adj_leb a b = true.
#[export] Instance adj_le_dec : RelDecision adj_le.
Proof. intros a b. unfold adj_le. apply _. Defined.

(** The constructor's [adj_temp]: successor sets by source. *)
Definition build_adj_temp (actions : list ActionStatement) : result (gmap string (gset AdjDst)) :=
  rfor (fun a adj =>
    rfor (fun dep adj =>
      let! (src_ref, edge_type) := edge_components_from_dep dep in
      Ok (<[src_ref := {[ (ref a, edge_type) ]} ∪ default ∅ (adj !! src_ref)]> adj))
      (depends_on a) adj) actions ∅.

Definition sorted_adj (adj_temp : gmap string (gset AdjDst)) (r : string) : list AdjDst :=
  merge_sort adj_le (elements (default ∅ (adj_temp !! r))).

Definition build_adj (actions : list ActionStatement) : result (gmap string (list AdjDst)) :=
  let! adj_temp := build_adj_temp actions in
  Ok (list_to_map (map (fun a => (ref a, sorted_adj adj_temp (ref a))) actions)).

(** [_build_loop_regions]. *)
Definition loop_members (sc : Scopes) (loop_scope : string) : gset string :=
  dom (filter (fun rs : string * string =>
    _is_same_or_descendant_scope (scope_hierarchy sc) rs.2 loop_scope = true) (action_scopes sc)).

Definition build_loop_region (acts : list ActionStatement) (sc : Scopes)
    (stmt : ActionStatement) (regions : gmap string LoopRegion) : result (gmap string LoopRegion) :=
  if is_loop_end stmt then
    match depends_on stmt with
    | [] => raise RuntimeError "Loop end action must depend on loop body actions"
    | _ =>
        let! dep_scopes := rmap (fun dep =>
          let! (src, _) := edge_components_from_dep dep in getitem (action_scopes sc) src) (depends_on stmt) in
        match remove_dups dep_scopes with
        | [loop_scope] =>
            match find_action acts loop_scope with
            | Some start =>
                if decide (action start = PlatformAction.LOOP_START) then
                  if decide (regions !! loop_scope = None) then
                    Ok (<[loop_scope := MkRegion loop_scope (ref stmt) loop_scope
                          (loop_members sc loop_scope ∪ {[ ref stmt ]})]> regions)
                  else raise RuntimeError "has multiple loop end actions"
                else raise RuntimeError "does not match a loop start action"
            | None => raise RuntimeError "does not match a loop start action"
            end
        | _ => raise RuntimeError "must close exactly one loop scope"
        end
    end
  else Ok regions.

Definition _build_loop_regions (acts : list ActionStatement) (sc : Scopes) : result (gmap string LoopRegion) :=
  rfor (build_loop_region acts sc) acts ∅.

(** ** Mutable state *)

Record TaskExceptionInfo := MkExcInfo { te_exception : exc; te_details : ActionErrorInfo }.

(** A stream's context is shared by reference, so contexts live in a heap. *)
Definition Addr : Type := nat.
Definition Actions : Type := gmap string TaskResult.

Record Sched := MkSched {
  queue : list TaskI;
  indegrees : gmap Task Z;
  completed_tasks : gset Task;
  edges : gmap DSLEdge EdgeMarker;
  task_exceptions : gmap string TaskExceptionInfo;
  stream_exceptions : gmap StreamID TaskExceptionInfo;
  loop_indices : gmap Task Z;
  loop_start_skips : gset Task;
  streams : gmap StreamID Addr;
  heap : list Actions;
  stream_hierarchy : gmap StreamID (option StreamID);
  task_streams : gmap Task (list StreamID);
  open_streams : gmap Task Z }.

Definition set_queue (q : list TaskI) (s : Sched) : Sched :=
  MkSched q (indegrees s) (completed_tasks s) (edges s) (task_exceptions s) (stream_exceptions s)
    (loop_indices s) (loop_start_skips s) (streams s) (heap s) (stream_hierarchy s) (task_streams s) (open_streams s).
Definition set_indegrees (x : gmap Task Z) (s : Sched) : Sched :=
  MkSched (queue s) x (completed_tasks s) (edges s) (task_exceptions s) (stream_exceptions s)
    (loop_indices s) (loop_start_skips s) (streams s) (heap s) (stream_hierarchy s) (task_streams s) (open_streams s).
Definition set_completed (x : gset Task) (s : Sched) : Sched :=
  MkSched (queue s) (indegrees s) x (edges s) (task_exceptions s) (stream_exceptions s)
    (loop_indices s) (loop_start_skips s) (streams s) (heap s) (stream_hierarchy s) (task_streams s) (open_streams s).
Definition set_edges (x : gmap DSLEdge EdgeMarker) (s : Sched) : Sched :=
  MkSched (queue s) (indegrees s) (completed_tasks s) x (task_exceptions s) (stream_exceptions s)
    (loop_indices s) (loop_start_skips s) (streams s) (heap s) (stream_hierarchy s) (task_streams s) (open_streams s).
Definition set_task_exceptions (x : gmap string TaskExceptionInfo) (s : Sched) : Sched :=
  MkSched (queue s) (indegrees s) (completed_tasks s) (edges s) x (stream_exceptions s)
    (loop_indices s) (loop_start_skips s) (streams s) (heap s) (stream_hierarchy s) (task_streams s) (open_streams s).
Definition set_stream_exceptions (x : gmap StreamID TaskExceptionInfo) (s : Sched) : Sched :=
  MkSched (queue s) (indegrees s) (completed_tasks s) (edges s) (task_exceptions s) x
    (loop_indices s) (loop_start_skips s) (streams s) (heap s) (stream_hierarchy s) (task_streams s) (open_streams s).
Definition set_loop_indices (x : gmap Task Z) (s : Sched) : Sched :=
  MkSched (queue s) (indegrees s) (completed_tasks s) (edges s) (task_exceptions s) (stream_exceptions s)
    x (loop_start_skips s) (streams s) (heap s) (stream_hierarchy s) (task_streams s) (open_streams s).
Definition set_loop_start_skips (x : gset Task) (s : Sched) : Sched :=
  MkSched (queue s) (indegrees s) (completed_tasks s) (edges s) (task_exceptions s) (stream_exceptions s)
    (loop_indices s) x (streams s) (heap s) (stream_hierarchy s) (task_streams s) (open_streams s).
Definition set_heap (x : list Actions) (s : Sched) : Sched :=
  MkSched (queue s) (indegrees s) (completed_tasks s) (edges s) (task_exceptions s) (stream_exceptions s)
    (loop_indices s) (loop_start_skips s) (streams s) x (stream_hierarchy s) (task_streams s) (open_streams s).
Definition set_streams (x : gmap StreamID Addr) (h : gmap StreamID (option StreamID)) (s : Sched) : Sched :=
  MkSched (queue s) (indegrees s) (completed_tasks s) (edges s) (task_exceptions s) (stream_exceptions s)
    (loop_indices s) (loop_start_skips s) x (heap s) h (task_streams s) (open_streams s).
Definition set_task_streams (x : gmap Task (list StreamID)) (s : Sched) : Sched :=
  MkSched (queue s) (indegrees s) (completed_tasks s) (edges s) (task_exceptions s) (stream_exceptions s)
    (loop_indices s) (loop_start_skips s) (streams s) (heap s) (stream_hierarchy s) x (open_streams s).
Definition set_open_streams (x : gmap Task Z) (s : Sched) : Sched :=
  MkSched (queue s) (indegrees s) (completed_tasks s) (edges s) (task_exceptions s) (stream_exceptions s)
    (loop_indices s) (loop_start_skips s) (streams s) (heap s) (stream_hierarchy s) (task_streams s) x.

(** The marker of an edge: the dict defaults to [PENDING]. *)
Definition marker (s : Sched) (e : DSLEdge) : EdgeMarker := default PENDING (edges s !! e).

Definition initial_state (acts : list ActionStatement) (context : Actions) : Sched :=
  MkSched [] (list_to_map (map (fun a => ((ref a, Stream.ROOT_STREAM), Z.of_nat (length (depends_on a)))) acts))
    ∅ ∅ ∅ ∅ ∅ ∅ {[ Stream.ROOT_STREAM := 0%nat ]} [context] {[ Stream.ROOT_STREAM := None ]} ∅ ∅.

(** [DSLScheduler.__init__]; [None] is only the (impossible) exhaustion of the
    scope analysis' fuel. *)
Definition init (acts : list ActionStatement) (max_pending : Z) (ws : option string) (context : Actions)
  : option (result (Static * Sched)) :=
  if max_pending <? 1 then Some (raise ValueError "max_pending_tasks must be greater than 0")
  else
    match build_adj acts with
    | Err e => Some (Err e)
    | Ok adj =>
        match _to_adjacency acts with
        | Err e => Some (Err e)
        | Ok control_adj =>
            match _assign_action_scopes acts control_adj with
            | None => None
            | Some (Err e) => Some (Err e)
            | Some (Ok sc) =>
                Some (let! regions := _build_loop_regions acts sc in
                      Ok (MkStatic acts adj sc regions
                            (list_to_map (map (fun rr => (end_ref rr.2, rr.2)) (map_to_list regions)))
                            max_pending ws,
                          initial_state acts context))
            end
        end
    end.

(** ** Operations that do not suspend *)

Section Ops.
Variable sd : Static.

Definition succ_of (r : string) : list AdjDst := default [] (adj sd !! r).

(** The outgoing edges of a reference with a type satisfying [p], in a stream. *)
Definition out_edges (r : string) (stream : StreamID) (p : EdgeType -> bool) : gset DSLEdge :=
  list_to_set (map (fun dt => (r, dt.1, dt.2, stream)) (filter (fun dt => p dt.2 = true) (succ_of r))).

Definition all_edges : EdgeType -> bool := fun _ => true.
Definition non_error (t : EdgeType) : bool := bool_decide (t <> EdgeERROR).
Definition non_success (t : EdgeType) : bool := bool_decide (t <> EdgeSUCCESS).

Definition _mark_edge (e : DSLEdge) (m : EdgeMarker) (s : Sched) : Sched :=
  set_edges (<[e := m]> (edges s)) s.

(** The number of dependencies of an action. *)
Definition n_deps (r : string) : Z :=
  match tasks sd r with Some a => Z.of_nat (length (depends_on a)) | None => 0 end.

(** One successor in [_queue_tasks]. *)
Definition queue_next (task : TaskI) (unreachable : gset DSLEdge) (next : AdjDst) (s : Sched) : Sched :=
  let '(next_ref, edge_type) := next in
  let edge := (t_ref task, next_ref, edge_type, t_stream task) in
  let s := _mark_edge edge (if decide (edge ∈ unreachable) then SKIPPED else VISITED) s in
  let next_task := MkTask next_ref (t_stream task) (t_delay task) in
  let n := default (n_deps next_ref) (indegrees s !! task_key next_task) - 1 in
  let s := set_indegrees (<[task_key next_task := n]> (indegrees s)) s in
  if n =? 0 then set_queue (queue s ++ [next_task]) s else s.

Definition _queue_tasks (task : TaskI) (unreachable : gset DSLEdge) (s : Sched) : Sched :=
  foldl (fun s next => queue_next task unreachable next s) s (succ_of (t_ref task)).

(** ** Reachability *)

(** [_edge_has_marker]; the constructor has parsed every dependency, so the
    [Err] case does not arise. *)
Definition _edge_has_marker (s : Sched) (src_ref_path dst_ref : string) (m : EdgeMarker) (stream : StreamID) : bool :=
  match edge_components_from_dep src_ref_path with
  | Ok (src, t) => bool_decide (marker s (src, dst_ref, t, stream) = m)
  | Err _ => false
  end.

Definition count_true (l : list bool) : Z := Z.of_nat (length (filter (fun b => b = true) l)).

Definition _is_reachable (s : Sched) (task : TaskI) (stmt : ActionStatement) : bool :=
  let visited dep := _edge_has_marker s dep (t_ref task) VISITED (t_stream task) in
  match depends_on stmt with
  | [] => true
  | [dep] => visited dep
  | deps =>
      let n_success_paths := count_true (map visited deps) in
      match join_strategy stmt with
      | JoinANY => 0 <? n_success_paths
      | JoinALL => n_success_paths =? Z.of_nat (length deps)
      end
  end.

Definition _skip_should_propagate (s : Sched) (task : TaskI) (stmt : ActionStatement) : bool :=
  match depends_on stmt with
  | [] => false
  | deps => forallb (fun dep => _edge_has_marker s dep (t_ref task) SKIPPED (t_stream task)) deps
  end.

(** ** Success and error paths *)

Definition _handle_success_path (task : TaskI) (s : Sched) : Sched :=
  _queue_tasks task (out_edges (t_ref task) (t_stream task) non_success) s.

(** The details recorded for a failure: the message text keeps only its constant
    part where the code appends a serialisation. *)
Definition error_details (r : string) (stream : StreamID) (x : exc) : ActionErrorInfo :=
  let fallback msg := error_info r msg (exc_class x) stream VNone in
  match x with
  | ExcApp _ (details :: _) =>
      match details with
      | VDict d =>
          if forallb (fun k => bool_decide (is_Some (dget d k))) ["ref"; "message"; "type"] then
            match error_info_of_dict d with
            | Some info => info
            | None => fallback "Failed to parse regular application error details"
            end
          else
            match d with
            | (_, VDict d') :: _ =>
                match error_info_of_dict d' with
                | Some info => info
                | None => fallback "Child workflow error details are not a dictionary."
                end
            | _ => fallback "Child workflow error details are not a dictionary."
            end
      | _ => fallback "Application error details are not a dictionary."
      end
  | _ => fallback (exc_message x)
  end.

Definition _handle_error_path (task : TaskI) (x : exc) (fail_workflow : bool) (s : Sched) : Sched :=
  let r := t_ref task in
  let non_err_edges := out_edges r (t_stream task) non_error in
  if (size non_err_edges <? length (succ_of r))%nat && negb fail_workflow then
    _queue_tasks task non_err_edges s
  else
    let info := MkExcInfo x (error_details r (t_stream task) x) in
    if bool_decide (t_stream task = Stream.ROOT_STREAM) || fail_workflow then
      set_task_exceptions (<[r := info]> (task_exceptions s)) s
    else
      let s := set_stream_exceptions (<[t_stream task := info]> (stream_exceptions s)) s in
      _queue_tasks task (out_edges r (t_stream task) all_edges) s.

(** ** Stream contexts *)

(** A new context, bound to a new stream under [parent]. *)
Definition new_stream (stream parent : StreamID) (context : Actions) (s : Sched) : Sched :=
  let s' := set_streams (<[stream := length (heap s)]> (streams s))
              (<[stream := Some parent]> (stream_hierarchy s)) s in
  set_heap (heap s ++ [context]) s'.

Definition actions_at (s : Sched) (a : Addr) : Actions := default ∅ (heap s !! a).

(** [context["ACTIONS"][ref] = result] through a reference to the context. *)
Definition set_action (a : Addr) (r : string) (tr : TaskResult) (s : Sched) : Sched :=
  set_heap (<[a := <[r := tr]> (actions_at s a)]> (heap s)) s.

(** [get_context]: an unknown stream is a [KeyError]. *)
Definition get_context (s : Sched) (stream : StreamID) : result Addr := getitem (streams s) stream.

(** The loop of [get_stream_aware_action_result]. *)
Fixpoint lookup_up (fuel : nat) (s : Sched) (action_ref : string) (curr : option StreamID)
  : option (option TaskResult) :=
  match curr with
  | None => Some None
  | Some stream =>
      match match streams s !! stream with
            | Some a => actions_at s a !! action_ref
            | None => None
            end with
      | Some tr => Some (Some tr)
      | None =>
          match fuel with
          | O => None
          | S fuel' => lookup_up fuel' s action_ref (parent_of (stream_hierarchy s) stream)
          end
      end
  end.

(** A parent stream's identifier is strictly shorter, so the identifier's length
    is enough fuel. *)
Definition get_stream_aware_action_result (s : Sched) (action_ref : string) (stream : StreamID) : option TaskResult :=
  default None (lookup_up (S (String.length stream)) s action_ref (Some stream)).

Definition resolved_actions (s : Sched) (stream : StreamID) (refs : gset string) : Actions :=
  foldl (fun m r => match get_stream_aware_action_result s r stream with
                    | Some tr => <[r := tr]> m
                    | None => m
                    end) ∅ (elements refs).

(** [build_stream_aware_context]: the ["ACTIONS"] of the context an expression of
    the statement is evaluated in. *)
Definition build_stream_aware_context (parse : string -> option tree) (s : Sched)
    (stmt : ActionStatement) (stream : StreamID) : result Actions :=
  let! ex := extract_expressions parse (VDict (model_dump stmt)) in
  Ok (resolved_actions s stream (ex_actions ex)).

(** ** Loop iterations *)

(** A stream whose parent is marked is marked. *)
Definition mark_child (removing : gset StreamID) (cp : StreamID * option StreamID) : gset StreamID :=
  match cp.2 with
  | Some parent => if decide (parent ∈ removing /\ cp.1 ∉ removing) then {[ cp.1 ]} ∪ removing else removing
  | None => removing
  end.

(** One pass of the closure under children. *)
Definition close_pass (hierarchy : gmap StreamID (option StreamID)) (removing : gset StreamID) : gset StreamID :=
  foldl mark_child removing (map_to_list hierarchy).

(** [while changed]: each pass but the last adds a stream. *)
Fixpoint close_streams (fuel : nat) (hierarchy : gmap StreamID (option StreamID)) (removing : gset StreamID)
  : gset StreamID :=
  match fuel with
  | O => removing
  | S fuel' =>
      let removing' := close_pass hierarchy removing in
      if decide (removing' = removing) then removing else close_streams fuel' hierarchy removing'
  end.

(** The streams below the region's scatters in this stream. *)
Definition loop_streams (region : LoopRegion) (stream : StreamID) (s : Sched) : gset StreamID :=
  list_to_set (flat_map (fun ts : Task * list StreamID =>
    if bool_decide (ts.1.1 ∈ members region) && Stream.within ts.1.2 stream then ts.2 else [])
    (map_to_list (task_streams s))).

Definition without_streams {V} (removing : gset StreamID) (m : gmap Task V) : gmap Task V :=
  filter (fun kv : Task * V => kv.1.2 ∉ removing) m.

Definition _cleanup_loop_descendant_streams (region : LoopRegion) (stream : StreamID) (s : Sched) : Sched :=
  let roots := loop_streams region stream s in
  if decide (roots = ∅) then s
  else
    let rm := close_streams (S (size (stream_hierarchy s))) (stream_hierarchy s) roots in
    let gone {V} (m : gmap StreamID V) := filter (fun kv : StreamID * V => kv.1 ∉ rm) m in
    let s := set_streams (gone (streams s)) (gone (stream_hierarchy s)) s in
    let s := set_stream_exceptions (gone (stream_exceptions s)) s in
    let s := set_completed (filter (fun t => t.2 ∉ rm) (completed_tasks s)) s in
    let s := set_indegrees (without_streams rm (indegrees s)) s in
    let s := set_edges (filter (fun em : DSLEdge * EdgeMarker => em.1.2 ∉ rm) (edges s)) s in
    let s := set_task_streams (without_streams rm (task_streams s)) s in
    set_open_streams (without_streams rm (open_streams s)) s.

(** Dependencies of [r] on members of the region. *)
Definition internal_deps (region : LoopRegion) (stmt : ActionStatement) : Z :=
  count_true (map (fun dep => match edge_components_from_dep dep with
                              | Ok (src, _) => bool_decide (src ∈ members region)
                              | Err _ => false end) (depends_on stmt)).

Definition reset_member (region : LoopRegion) (stream : StreamID) (s : Sched) (r : string) : Sched :=
  let s := set_completed (completed_tasks s ∖ {[ (r, stream) ]}) s in
  match tasks sd r with
  | None => s
  | Some stmt => set_indegrees (<[(r, stream) := internal_deps region stmt]> (indegrees s)) s
  end.

Definition _reset_loop_iteration_state (region : LoopRegion) (stream : StreamID) (s : Sched) : Sched :=
  let s := _cleanup_loop_descendant_streams region stream s in
  let here {V} (m : gmap Task V) := filter (fun kv : Task * V => ~ (kv.1.1 ∈ members region /\ kv.1.2 = stream)) m in
  let s := set_task_streams (here (task_streams s)) s in
  let s := set_open_streams (here (open_streams s)) s in
  let s := set_edges (map_imap (fun (e : DSLEdge) m =>
             let '(src, dst, _, es) := e in
             if decide (es = stream /\ src ∈ members region /\ dst ∈ members region)
             then Some PENDING else Some m) (edges s)) s in
  let s := foldl (reset_member region stream) s (elements (members region)) in
  set_loop_indices (filter (fun kv : Task * Z =>
    ~ (kv.1.1 ∈ members region /\ Stream.within kv.1.2 stream = true)) (loop_indices s)) s.
End Ops.
