(* ===== verification/Scheduler.v ===== *)
(** The asynchronous part of the workflow scheduler ([tracecat/dsl/scheduler.py]):
    the handlers of tasks, loops, scatters and gathers as coroutines over the
    scheduler state, and the main loop of [start] as a step relation. *)

From S2P Require Import Prelude PyStr Base62 PyVal Expr DslTypes Graph DslScopes Coro SchedState.

(** ** Events: what the scheduler waits for

    Activities and the injected executor run outside the scheduler; their
    answers are arbitrary. *)

Record FinalizeResult := MkFinalize { fin_result : stored; fin_errors : list ActionErrorInfo }.

(** What the executor did: the task result it stored in the stream's context, if
    any, and the exception it raised, if any. *)
Record ExecAnswer := MkExec { ex_write : option TaskResult; ex_raise : option exc }.

Inductive event :=
  | EvExecute (r : string) (stream : StreamID)
  | EvExpression (expression : string) (context : Actions)
  | EvScatterInput (r : string) (stream : StreamID) (collection : val) (context : Actions)
  | EvGatherItem (r : string) (stream : StreamID) (items : string) (context : Actions)
  | EvFinalize (r : string) (parent : StreamID) (items : list stored)
      (drop_nulls : bool) (strategy : StreamErrorHandlingStrategy)
  | EvSleep (delay : spec_float).

Definition answer (e : event) : Type :=
  match e with
  | EvExecute _ _ => ExecAnswer
  | EvExpression _ _ => val
  | EvScatterInput _ _ _ _ | EvGatherItem _ _ _ _ => stored
  | EvFinalize _ _ _ _ _ => FinalizeResult
  | EvSleep _ => unit
  end.

Abbreviation sprog := (prog Sched answer).
Abbreviation scoro := (coro Sched answer).

Open Scope coro_scope.

(** ** Action arguments ([dsl/schemas.py])

    Pydantic's lax coercions are parameters; the constraints are the fields'. *)

Definition MAX_DO_WHILE_ITERATIONS : Z := 2048.

Record LoopEndArgs := MkLoopEndArgs { condition : string; max_iterations : Z }.
Record ScatterArgs := MkScatterArgs { collection : val; interval : option spec_float }.
Record GatherArgs := MkGatherArgs {
  items : string; drop_nulls : bool; error_strategy : StreamErrorHandlingStrategy }.

Definition validation_error {A} : A + exc := inr (ExcOther "ValidationError" "validation error").

Section Args.
Variable lax_int : val -> option Z.
Variable lax_bool : val -> option bool.
Variable lax_float : val -> option spec_float.

(** A field with a default: absent, or coerced. *)
Definition field {A} (args : list (string * val)) (key : string) (dflt : A) (coerce : val -> option A) : option A :=
  match dget args key with None => Some dflt | Some v => coerce v end.

(** [ExpressionStr]: a template expression or any other string. *)
Definition expression_str (v : val) : option string :=
  match v with VStr s => Some s | _ => None end.

Definition parse_loop_end_args (args : list (string * val)) : LoopEndArgs + exc :=
  match dget args "condition" with
  | Some v =>
      match expression_str v, field args "max_iterations" 100 lax_int with
      | Some c, Some n =>
          if (1 <=? n) && (n <=? MAX_DO_WHILE_ITERATIONS) then inl (MkLoopEndArgs c n)
          else validation_error
      | _, _ => validation_error
      end
  | None => validation_error
  end.

(** [ExpressionStr | list[Any]]. *)
Definition parse_scatter_args (args : list (string * val)) : ScatterArgs + exc :=
  match dget args "collection" with
  | Some (VStr _ as v) | Some (VList _ as v) =>
      match field args "interval" None (fun v =>
              match v with VNone => Some None | _ => Some <$> lax_float v end) with
      | Some iv => inl (MkScatterArgs v iv)
      | None => validation_error
      end
  | _ => validation_error
  end.

Definition parse_error_strategy (v : val) : option StreamErrorHandlingStrategy :=
  match v with
  | VStr s =>
      if decide (s = "partition") then Some PARTITION
      else if decide (s = "include") then Some INCLUDE
      else if decide (s = "drop") then Some DROP
      else if decide (s = "raise") then Some RAISE
      else None
  | _ => None
  end.

Definition parse_gather_args (args : list (string * val)) : GatherArgs + exc :=
  match dget args "items" with
  | Some v =>
      match expression_str v, field args "drop_nulls" false lax_bool,
            field args "error_strategy" PARTITION parse_error_strategy with
      | Some i, Some d, Some e => inl (MkGatherArgs i d e)
      | _, _, _ => validation_error
      end
  | None => validation_error
  end.
End Args.

Definition lift_sum {A} (r : A + exc) : sprog A :=
  match r with inl a => ret a | inr x => throw x end.

(** ** Handlers *)

(** The third-party code the scheduler calls: the expression parser, pydantic's
    coercions and its validation of a raw value as a stored object. *)
Record Lib := MkLib {
  lib_parse : string -> option tree;
  lax_int : val -> option Z;
  lax_bool : val -> option bool;
  lax_float : val -> option spec_float;
  validate_stored : val -> option stored }.

Section Handlers.
Variable lib : Lib.
Variable sd : Static.

Definition queue_tasks (task : TaskI) (unreachable : gset DSLEdge) : sprog unit :=
  modify (_queue_tasks sd task unreachable).

Definition action_context (stream : StreamID) : sprog Addr :=
  let* s := gets id in lift (get_context s stream).

(** [_execute]: the executor stores its result in the context its stream has
    then, and may raise. *)
Definition _execute (task : TaskI) : sprog unit :=
  let* a := await (EvExecute (t_ref task) (t_stream task)) in
  do* match ex_write a with
      | Some tr => let* addr := action_context (t_stream task) in modify (set_action addr (t_ref task) tr)
      | None => ret tt
      end ;;
  match ex_raise a with Some x => throw x | None => ret tt end.

(** [_handle_success_path] and [_handle_error_path]. *)
Definition handle_success_path (task : TaskI) : sprog unit := modify (_handle_success_path sd task).
Definition handle_error_path (task : TaskI) (x : exc) (fail_workflow : bool) : sprog unit :=
  modify (_handle_error_path sd task x fail_workflow).

Definition resolve_expression (e : string) (context : Actions) : sprog val := await (EvExpression e context).

(** [raise ApplicationError(...)] around [except Exception]. *)
Definition wrap_error {A} (msg : string) (m : sprog A) : sprog A :=
  catch is_exception m (fun _ => throw (ExcApp msg [])).

Definition stream_aware_context (stmt : ActionStatement) (stream : StreamID) : sprog Actions :=
  let* s := gets id in lift (build_stream_aware_context (lib_parse lib) s stmt stream).

Definition _task_should_skip (task : TaskI) (stmt : ActionStatement) : sprog bool :=
  match run_if stmt with
  | None => ret false
  | Some run_if =>
      let* context := stream_aware_context stmt (t_stream task) in
      let* v := wrap_error "Error evaluating `run_if` condition" (resolve_expression run_if context) in
      ret (negb (truthy v))
  end.

(** [_handle_scatter_skip_stream]. *)
Definition _handle_scatter_skip_stream (task : TaskI) (stream : StreamID) : sprog unit :=
  let new_stream_id := Stream.skip (t_ref task) (Some stream) in
  do* modify (new_stream new_stream_id stream ∅) ;;
  queue_tasks (MkTask (t_ref task) new_stream_id no_delay)
    (out_edges sd (t_ref task) new_stream_id all_edges).

(** ** Loops *)

Definition _handle_loop_start (task : TaskI) (stmt : ActionStatement) (is_skipping : bool) : sprog unit :=
  let loop_key := task_key task in
  if is_skipping then
    do* modify (fun s => set_loop_start_skips ({[ loop_key ]} ∪ loop_start_skips s) s) ;;
    queue_tasks task (out_edges sd (t_ref task) (t_stream task) all_edges)
  else
    do* modify (fun s => set_loop_start_skips (loop_start_skips s ∖ {[ loop_key ]}) s) ;;
    let* index := gets (fun s => default 0 (loop_indices s !! loop_key)) in
    let* addr := action_context (t_stream task) in
    do* modify (set_action addr (t_ref task) (from_result (PVal (VDict [("iteration", VInt index)])))) ;;
    do* _execute task ;;
    handle_success_path task.

(** The cap on an integer [max_iterations]; [bool] is a subclass of [int]. *)
Definition exceeds_cap (v : option val) : bool :=
  match v with
  | Some (VInt n) => MAX_DO_WHILE_ITERATIONS <? n
  | _ => false
  end.

Definition continue_loop (region : LoopRegion) (task : TaskI) (next_index : Z) : sprog unit :=
  modify (fun s =>
    let s := _reset_loop_iteration_state sd region (t_stream task) s in
    let s := set_loop_indices (<[(start_ref region, t_stream task) := next_index]> (loop_indices s)) s in
    set_queue (queue s ++ [MkTask (start_ref region) (t_stream task) no_delay]) s).

Definition loop_condition (task : TaskI) (stmt : ActionStatement) (cond : string) : sprog bool :=
  let* context := stream_aware_context stmt (t_stream task) in
  let* v := wrap_error "Error evaluating `condition` in `core.loop.end`" (resolve_expression cond context) in
  ret (truthy v).

Definition _handle_loop_end (task : TaskI) (stmt : ActionStatement) (is_skipping : bool) : sprog unit :=
  match loop_regions_by_end sd !! t_ref task with
  | None => throw (ExcOther "RuntimeError" "Unknown loop end action")
  | Some region =>
      if exceeds_cap (dget (args stmt) "max_iterations") then
        throw (ExcApp "Loop max_iterations exceeds platform cap" [])
      else
        let* a := lift_sum (parse_loop_end_args (lax_int lib) (args stmt)) in
        let loop_key := (start_ref region, t_stream task) in
        let* current_index := gets (fun s => default 0 (loop_indices s !! loop_key)) in
        let* start_skipped := gets (fun s => is_skipping && bool_decide (loop_key ∈ loop_start_skips s)) in
        do* (if start_skipped
             then modify (fun s => set_loop_start_skips (loop_start_skips s ∖ {[ loop_key ]}) s)
             else ret tt) ;;
        let* should_continue := (if is_skipping then ret false else loop_condition task stmt (condition a)) in
        let* addr := action_context (t_stream task) in
        do* modify (set_action addr (t_ref task) (from_result (PVal (VDict [("continue", VBool should_continue)])))) ;;
        do* (if is_skipping then ret tt else _execute task) ;;
        if should_continue then
          let next_index := current_index + 1 in
          if max_iterations a <=? next_index then throw (ExcApp "Loop exceeded max_iterations" [])
          else continue_loop region task next_index
        else
          do* modify (fun s => set_loop_indices (delete loop_key (loop_indices s)) s) ;;
          if start_skipped then queue_tasks task (out_edges sd (t_ref task) (t_stream task) all_edges)
          else handle_success_path task
  end.

(** ** Scatter *)

(** [i * (interval or 0)], in binary64. *)
Definition float_of_Z (z : Z) : spec_float := binary_normalize 53 1024 z 0 false.
Definition task_delay (i : Z) (interval : option spec_float) : spec_float :=
  match interval with
  | None | Some (S754_zero _) => no_delay
  | Some f => SFmul 53 1024 (float_of_Z i) f
  end.

(** One iteration of the loop over the collection, with the checkpoint of
    [cooperative]. *)
Definition scatter_item (task : TaskI) (collection : stored) (interval : option spec_float) (i : Z) : sprog unit :=
  let new_stream_id := Stream.new (t_ref task) (Idx i) (Some (t_stream task)) in
  do* modify (fun s => set_task_streams (alter (fun l => l ++ [new_stream_id]) (task_key task) (task_streams s)) s) ;;
  do* modify (new_stream new_stream_id (t_stream task)
    {[ t_ref task := from_collection_item collection i "collection_item" ]}) ;;
  do* queue_tasks (MkTask (t_ref task) new_stream_id (task_delay i interval)) ∅ ;;
  await (EvSleep no_delay).

(** The [workspace_id] property, read to build storage keys. *)
Definition need_workspace : sprog unit :=
  match workspace_id sd with
  | Some _ => ret tt
  | None => throw (ExcOther "ValueError" "Workspace ID is required")
  end.

Definition _handle_scatter (task : TaskI) (stmt : ActionStatement) (is_skipping : bool) : sprog unit :=
  if is_skipping then _handle_scatter_skip_stream task (t_stream task)
  else
    let* a := lift_sum (parse_scatter_args (lax_float lib) (args stmt)) in
    let* addr := action_context (t_stream task) in
    do* need_workspace ;;
    let* context := gets (fun s => actions_at s addr) in
    let* coll := await (EvScatterInput (t_ref task) (t_stream task) (collection a) context) in
    do* modify (fun s => set_task_streams (<[task_key task := []]> (task_streams s)) s) ;;
    let* collection_size := lift (get_collection_size coll) in
    if collection_size =? 0 then
      do* modify (fun s => set_open_streams (<[task_key task := 0]> (open_streams s)) s) ;;
      _handle_scatter_skip_stream task (t_stream task)
    else
      let indices := seqZ 0 collection_size in
      do* pfor indices (scatter_item task coll (interval a)) ;;
      modify (fun s => set_open_streams (<[task_key task := Z.of_nat (length indices)]> (open_streams s)) s).

(** ** Gather *)

Definition parent_stream_safe (stream : StreamID) : sprog StreamID :=
  let* h := gets stream_hierarchy in
  let* p := lift (getitem h stream) in
  match p with
  | Some parent => ret parent
  | None => throw (ExcOther "RuntimeError" "Invalid state: Gather encountered in skip stream with no parent stream")
  end.

(** [result.get_data()[idx] = x], in place. *)
Definition slot_update (tr : TaskResult) (idx : stream_index) (x : pyobj) : result TaskResult :=
  match tr_result tr, idx with
  | InlineObject t data, Idx i =>
      let! data' :=
        match collection_index tr, list_elements data with
        | Some ci, Some l =>
            let! e := py_nth l ci in
            let! e' := py_set_nth e i x in
            py_set_nth data ci e'
        | _, _ => py_set_nth data i x
        end in
      Ok (set_result tr (InlineObject t data') (result_typename tr))
  | InlineObject _ _, Skip => raise TypeError "list indices must be integers"
  | _, _ => raise ValueError "Cannot get data from ExternalObject"
  end.

(** The result list of a gather, created by the first stream to arrive. *)
Definition ensure_gather_slots (addr : Addr) (gather_ref : string) (parent_scatter : Task) (s : Sched) : Sched :=
  match actions_at s addr !! gather_ref with
  | Some _ => s
  | None =>
      let n := length (default [] (task_streams s !! parent_scatter)) in
      set_action addr gather_ref (from_result (PList (repeat PUnset n))) s
  end.

Definition write_slot (addr : Addr) (gather_ref : string) (idx : stream_index) (x : pyobj) : sprog unit :=
  let* tr := gets (fun s => actions_at s addr !! gather_ref) in
  match tr with
  | None => throw (ExcOther "KeyError" "")
  | Some tr =>
      let* tr' := lift (slot_update tr idx x) in
      modify (set_action addr gather_ref tr')
  end.

(** The elements a [for] loop sees. *)
Definition iter_elements (o : pyobj) : result (list pyobj) :=
  match o with
  | PVal (VStr s) => Ok (map (fun c => PVal (VStr (String c EmptyString))) (String.list_ascii_of_string s))
  | PVal (VDict d) => Ok (map (fun kv => PVal (VStr kv.1)) d)
  | _ => match list_elements o with
         | Some l => Ok l
         | None => raise TypeError "object is not iterable"
         end
  end.

Definition is_unset (o : pyobj) : bool :=
  match o with
  | PUnset => true
  | PVal (VStr s) => bool_decide (s = GATHER_UNSET)
  | _ => false
  end.

(** [StoredObjectValidator.validate_python]. *)
Definition as_stored (o : pyobj) : option stored :=
  match o with
  | PStored x => Some x
  | PVal v => validate_stored lib v
  | _ => None
  end.

(** The stored items of a gather: the slots that were filled, in order. *)
Definition gathered_items (tr : TaskResult) : result (option (list stored)) :=
  let! data := get_data tr in
  let! elems := iter_elements data in
  Ok (mapM as_stored (filter (fun o => is_unset o = false) elems)).

Definition typename_or_list (o : stored) : string :=
  match typename o with
  | Some n => if decide (n = "") then "list" else n
  | None => "list"
  end.

Definition gather_message (gather_ref : string) (n : nat) : string :=
  "Gather '" +:+ gather_ref +:+ "' encountered " +:+ Decimal.py_str_int (Z.of_nat n) +:+ " error(s)".

(** A gather with the [raise] strategy fails the workflow. *)
Definition raise_gather (gather_ref : string) (parent : StreamID) (errors : list ActionErrorInfo) : sprog unit :=
  let message := gather_message gather_ref (length errors) in
  let info := error_info gather_ref message "ApplicationError" parent (VList (map dump_error_info errors)) in
  let app_error := ExcApp message [VDict [(gather_ref, dump_error_info info)]] in
  do* modify (fun s => set_task_exceptions (<[gather_ref := MkExcInfo app_error info]> (task_exceptions s)) s) ;;
  throw app_error.

Definition _handle_gather_result (stmt : ActionStatement) (addr : Addr) (parent : StreamID)
    (ga : GatherArgs) (gather_ref : string) : sprog unit :=
  do* modify (fun s => match actions_at s addr !! gather_ref with
                       | Some _ => s
                       | None => set_action addr gather_ref (from_result (PVal (VList []))) s
                       end) ;;
  let* task_result := gets (fun s => default (from_result (PVal (VList []))) (actions_at s addr !! gather_ref)) in
  let* validated := lift (gathered_items task_result) in
  let* stored_items := lift_sum (match validated with Some l => inl l | None => validation_error end) in
  do* need_workspace ;;
  let* f := await (EvFinalize gather_ref parent stored_items (drop_nulls ga) (error_strategy ga)) in
  let* _ := lift (get_collection_size (fin_result f)) in
  if bool_decide (error_strategy ga = RAISE) && negb (bool_decide (length (fin_errors f) = 0%nat))
  then raise_gather gather_ref parent (fin_errors f)
  else
    let tr := set_result task_result (fin_result f) (typename_or_list (fin_result f)) in
    let tr := match fin_errors f with
              | [] => tr
              | errs => with_error tr (PVal (VList (map dump_error_info errs))) None
              end in
    do* modify (set_action addr gather_ref tr) ;;
    let parent_gather := MkTask gather_ref parent no_delay in
    do* _execute parent_gather ;;
    queue_tasks parent_gather ∅.

(** The gather is finished once the last stream is closed. *)
Definition finish_gather (stmt : ActionStatement) (addr : Addr) (parent : StreamID)
    (parent_scatter : Task) (ga : sprog GatherArgs) (gather_ref : string) : sprog unit :=
  let* n := gets (fun s => open_streams s !! parent_scatter) in
  match n with
  | None => throw (ExcOther "KeyError" "")
  | Some n => if n =? 0 then let* a := ga in _handle_gather_result stmt addr parent a gather_ref
              else ret tt
  end.

Definition close_stream (parent_scatter : Task) : sprog unit :=
  let* n := gets (fun s => open_streams s !! parent_scatter) in
  match n with
  | None => throw (ExcOther "KeyError" "")
  | Some n => modify (fun s => set_open_streams (<[parent_scatter := n - 1]> (open_streams s)) s)
  end.

Definition gather_args (stmt : ActionStatement) : sprog GatherArgs :=
  lift_sum (parse_gather_args (lax_bool lib) (args stmt)).

Definition _handle_gather_skip_stream (task : TaskI) (stmt : ActionStatement) : sprog unit :=
  let* parent := parent_stream_safe (t_stream task) in
  let* addr := action_context parent in
  let* (scatter_ref, stream_idx) := lift (Stream.leaf (t_stream task)) in
  let parent_scatter := (scatter_ref, parent) in
  let* err := gets (fun s => stream_exceptions s !! t_stream task) in
  do* (match err with
       | Some info =>
           do* modify (ensure_gather_slots addr (t_ref task) parent_scatter) ;;
           write_slot addr (t_ref task) stream_idx
             (PStored (inline (PVal (dump_error_info (te_details info)))))
       | None => ret tt
       end) ;;
  finish_gather stmt addr parent parent_scatter (gather_args stmt) (t_ref task).

(** A gather in a skip stream: an empty collection if the scatter ran, else the
    skip propagates. *)
Definition gather_in_skip_stream (task : TaskI) : sprog unit :=
  let* parent := parent_stream_safe (t_stream task) in
  let* (scatter_ref, _) := lift (Stream.leaf (t_stream task)) in
  let* observed := gets (fun s => bool_decide (is_Some (open_streams s !! (scatter_ref, parent)))) in
  if observed : bool then
    let* addr := action_context parent in
    do* need_workspace ;;
    let* f := await (EvFinalize (t_ref task) parent [] false PARTITION) in
    do* modify (set_action addr (t_ref task)
          (MkTaskResult (fin_result f) (typename_or_list (fin_result f)) None None VNone None None None)) ;;
    queue_tasks (MkTask (t_ref task) parent no_delay) ∅
  else
    queue_tasks task (out_edges sd (t_ref task) (t_stream task) all_edges).

(** A gather in an execution stream. *)
Definition gather_in_stream (task : TaskI) (stmt : ActionStatement) (is_skipping : bool) : sprog unit :=
  let* parent := parent_stream_safe (t_stream task) in
  let* (scatter_ref, stream_idx) := lift (Stream.leaf (t_stream task)) in
  let parent_scatter := (scatter_ref, parent) in
  if is_skipping then
    do* close_stream parent_scatter ;;
    _handle_gather_skip_stream task stmt
  else
    let* ga := gather_args stmt in
    let* cur := action_context (t_stream task) in
    let* context := gets (fun s => actions_at s cur) in
    let* item := wrap_error "Error evaluating `items` expression in `core.transform.gather`"
      (do* need_workspace ;; await (EvGatherItem (t_ref task) (t_stream task) (items ga) context)) in
    do* close_stream parent_scatter ;;
    let* addr := action_context parent in
    do* modify (ensure_gather_slots addr (t_ref task) parent_scatter) ;;
    do* write_slot addr (t_ref task) stream_idx (PStored item) ;;
    finish_gather stmt addr parent parent_scatter (ret ga) (t_ref task).

Definition _handle_gather (task : TaskI) (stmt : ActionStatement) (is_skipping : bool) : sprog unit :=
  if decide (t_stream task = Stream.ROOT_STREAM) then
    throw (ExcOther "RuntimeError"
      (if is_skipping then "We are skipping but we should be in a skip stream"
       else "Found gather in root stream but not skipping"))
  else if decide (t_stream task = "") then throw (ExcApp "Invalid gather state" [])
  else if ends_with ":skip" (t_stream task) then gather_in_skip_stream task
  else gather_in_stream task stmt is_skipping.

(** ** One task *)

Definition _handle_skip_path (task : TaskI) (stmt : ActionStatement) : sprog unit :=
  if decide (action stmt = PlatformAction.LOOP_START) then _handle_loop_start task stmt true
  else if decide (action stmt = PlatformAction.LOOP_END) then _handle_loop_end task stmt true
  else if decide (action stmt = PlatformAction.TRANSFORM_SCATTER) then _handle_scatter task stmt true
  else if decide (action stmt = PlatformAction.TRANSFORM_GATHER) then _handle_gather task stmt true
  else queue_tasks task (out_edges sd (t_ref task) (t_stream task) all_edges).

(** The early [run_if]: whether the task was skipped, and the deferred
    [ApplicationError].  The skip path runs inside the same [try]. *)
Definition early_run_if (task : TaskI) (stmt : ActionStatement) : sprog (bool * option exc) :=
  match run_if stmt with
  | None => ret (false, None)
  | Some _ =>
      catch is_application_error
        (let* skip := _task_should_skip task stmt in
         if skip : bool then do* _handle_skip_path task stmt ;; ret (true, None)
         else ret (false, None))
        (fun x => ret (false, Some x))
  end.

(** The action itself, once the task is known to run. *)
Definition dispatch (task : TaskI) (stmt : ActionStatement) : sprog unit :=
  if decide (action stmt = PlatformAction.LOOP_START) then _handle_loop_start task stmt false
  else if decide (action stmt = PlatformAction.LOOP_END) then _handle_loop_end task stmt false
  else if decide (action stmt = PlatformAction.TRANSFORM_SCATTER) then _handle_scatter task stmt false
  else if decide (action stmt = PlatformAction.TRANSFORM_GATHER) then _handle_gather task stmt false
  else
    do* _execute task ;;
    handle_success_path task.

Definition positive_delay (d : spec_float) : bool := SFltb (S754_zero false) d.

Definition run_task (task : TaskI) (original_delay : spec_float) (stmt : ActionStatement) : sprog unit :=
  let* force_skip := gets (fun s => _skip_should_propagate s task stmt) in
  if force_skip : bool then _handle_skip_path task stmt
  else
    let* (skipped, run_if_error) := early_run_if task stmt in
    if skipped : bool then ret tt
    else
      let* reachable := gets (fun s => _is_reachable s task stmt) in
      if negb reachable then throw (ExcOther "TaskUnreachable" "Task is unreachable")
      else
        match run_if_error with
        | Some x => throw x
        | None =>
            do* (if positive_delay original_delay then await (EvSleep original_delay) else ret tt) ;;
            dispatch task stmt
        end.

Definition unwrap_platform (x : exc) : exc * bool :=
  match x with ExcPlatform e => (e, true) | _ => (x, false) end.

Definition _schedule_task (ti : TaskI) : sprog unit :=
  match tasks sd (t_ref ti) with
  | None => throw (ExcOther "KeyError" "")
  | Some stmt =>
      let task := if positive_delay (t_delay ti) then MkTask (t_ref ti) (t_stream ti) no_delay else ti in
      finally
        (catch is_exception (run_task task (t_delay ti) stmt)
           (fun x => let '(x', fail_workflow) := unwrap_platform x in
                     handle_error_path task x' fail_workflow))
        (fun s => set_completed ({[ task_key task ]} ∪ completed_tasks s) s)
  end.

(** ** The main loop of [start] *)

(** A spawned asyncio task. *)
Inductive aio :=
  | NotStarted (ti : TaskI)
  | Suspended (ti : TaskI) (e : event) (k : answer e + exc -> Sched -> scoro unit)
  | Finished.

Definition is_finished (t : aio) : bool := match t with Finished => true | _ => false end.

(** Where the main coroutine is: at the checkpoint inside the spawn loop (with
    the count spawned so far), waiting for a pending task, cancelling, or
    returned. *)
Inductive phase :=
  | Yielding (spawned_since_yield : Z)
  | Waiting
  | Cancelling
  | Returned (r : option (gmap string TaskExceptionInfo)).

Record Sys := MkSys { sched : Sched; pending : list aio; main : phase }.

Definition SPAWN_YIELD_EVERY : Z := 16.

(** Run a coroutine up to its next suspension. *)
Definition settle (ti : TaskI) (c : scoro unit) : Sched * aio :=
  match c with
  | Done s _ => (s, Finished)
  | Await s e k => (s, Suspended ti e k)
  end.

Definition discard_done (l : list aio) : list aio := filter (fun t => is_finished t = false) l.

(** [return self.task_exceptions], [None] when empty, or start cancelling. *)
Definition leave_loop (s : Sched) (l : list aio) : Sys :=
  if decide (task_exceptions s = ∅) then MkSys s l (Returned None)
  else MkSys s l Cancelling.

(** The inner spawn loop from its condition, by recursion on the queue; then the
    rest of the outer iteration. *)
Fixpoint spawn (q : list TaskI) (s : Sched) (l : list aio) (spawned : Z) : Sys :=
  match q with
  | [] =>
      let s := set_queue [] s in
      match l with [] => leave_loop s l | _ => MkSys s l Waiting end
  | ti :: q' =>
      if Z.of_nat (length l) <? max_pending_tasks sd then
        let l := l ++ [NotStarted ti] in
        if (spawned + 1) mod SPAWN_YIELD_EVERY =? 0 then MkSys (set_queue q' s) l (Yielding (spawned + 1))
        else spawn q' s l (spawned + 1)
      else MkSys (set_queue q s) l Waiting
  end.

(** The inner loop's condition also stops on a task exception. *)
Definition spawn_loop (s : Sched) (l : list aio) (spawned : Z) : Sys :=
  if decide (task_exceptions s = ∅) then spawn (queue s) s l spawned
  else leave_loop s l.

(** The head of the outer [while]. *)
Definition outer_loop (s : Sched) (l : list aio) : Sys :=
  if decide (task_exceptions s = ∅) then
    match queue s, l with
    | [], [] => leave_loop s l
    | _, _ => spawn_loop s (discard_done l) 0
    end
  else leave_loop s l.

(** [start]: the tasks with in-degree zero are queued in definition order. *)
Definition initial_queue (s : Sched) : list TaskI :=
  map (fun a => MkTask (ref a) Stream.ROOT_STREAM no_delay)
    (filter (fun a => indegrees s !! (ref a, Stream.ROOT_STREAM) = Some 0) (actions sd)).

Definition start (s : Sched) : Sys := outer_loop (set_queue (queue s ++ initial_queue s) s) [].

(** A task only sees a cancellation when the scheduler cancels it. *)
Definition not_cancelled (e : event) : answer e + exc -> Prop :=
  match e with
  | EvExecute _ _ => fun r => match r with
                              | inl a => ex_raise a <> Some ExcCancelled
                              | inr x => x <> ExcCancelled
                              end
  | _ => fun r => match r with inl _ => True | inr x => x <> ExcCancelled end
  end.

(** One turn of the event loop: some coroutine that can run runs to its next
    suspension.  Which one, and what the environment answers, is arbitrary. *)
Inductive step : Sys -> Sys -> Prop :=
  | step_start s l i ti m s' t :
      l !! i = Some (NotStarted ti) -> settle ti (_schedule_task ti s) = (s', t) ->
      step (MkSys s l m) (MkSys s' (<[i := t]> l) m)
  | step_resume s l i ti e k r m s' t :
      l !! i = Some (Suspended ti e k) -> (m <> Cancelling -> not_cancelled e r) ->
      settle ti (k r s) = (s', t) ->
      step (MkSys s l m) (MkSys s' (<[i := t]> l) m)
  | step_yield s l n :
      step (MkSys s l (Yielding n)) (spawn_loop s (discard_done l) n)
  | step_wait s l i :
      l !! i = Some Finished ->
      step (MkSys s l Waiting) (outer_loop s l)
  | step_cancel_unstarted s l i ti :
      l !! i = Some (NotStarted ti) ->
      step (MkSys s l Cancelling) (MkSys s (<[i := Finished]> l) Cancelling)
  | step_cancelled s l :
      forallb is_finished l = true ->
      step (MkSys s l Cancelling) (MkSys s l (Returned (Some (task_exceptions s)))).

Definition reachable (s0 : Sched) (y : Sys) : Prop := rtc step (start s0) y.
End Handlers.
