(* ===== verification/SchedRun.v ===== *)
(** A deterministic driver of the scheduler model: it picks the next runnable
    coroutine and answers events with a given policy.  Every run is a sequence of
    steps of the relation, so it exhibits reachable configurations. *)

From S2P Require Import Prelude PyStr Base62 PyVal Expr DslTypes Graph DslScopes Coro SchedState Scheduler.

Section Run.
Variable lib : Lib.
Variable sd : Static.
Variable reply : forall e, answer e + exc.
Hypothesis reply_ok : forall e, not_cancelled e (reply e).

(** Run the coroutine [i] to its next suspension. *)
Definition run_coroutine (y : Sys) (i : nat) : option Sys :=
  match pending y !! i with
  | Some (NotStarted ti) =>
      match main y with
      | Cancelling => Some (MkSys (sched y) (<[i := Finished]> (pending y)) Cancelling)
      | m => let '(s, t) := settle ti (_schedule_task lib sd ti (sched y)) in
             Some (MkSys s (<[i := t]> (pending y)) m)
      end
  | Some (Suspended ti e k) =>
      let '(s, t) := settle ti (k (match main y with Cancelling => inr ExcCancelled | _ => reply e end) (sched y)) in
      Some (MkSys s (<[i := t]> (pending y)) (main y))
  | _ => None
  end.

Definition run_main (y : Sys) : option Sys :=
  match main y with
  | Yielding n => Some (spawn_loop sd (sched y) (discard_done (pending y)) n)
  | Waiting => if existsb is_finished (pending y) then Some (outer_loop sd (sched y) (pending y)) else None
  | Cancelling => if forallb is_finished (pending y)
                  then Some (MkSys (sched y) (pending y) (Returned (Some (task_exceptions (sched y))))) else None
  | Returned _ => None
  end.

(** The first coroutine that is not finished. *)
Fixpoint first_runnable (l : list aio) : option nat :=
  match l with
  | [] => None
  | t :: l' => if is_finished t then S <$> first_runnable l' else Some O
  end.

(** Coroutines first, then the main coroutine. *)
Definition turn (y : Sys) : option Sys :=
  match main y with
  | Returned _ => None
  | _ =>
      match first_runnable (pending y) with
      | Some i => run_coroutine y i
      | None => run_main y
      end
  end.

Fixpoint drive (fuel : nat) (y : Sys) : Sys :=
  match fuel with
  | O => y
  | S fuel' => match turn y with Some y' => drive fuel' y' | None => y end
  end.

Lemma run_coroutine_step y i y' : run_coroutine y i = Some y' -> step lib sd y y'.
Proof.
  destruct y as [s l m]. unfold run_coroutine; simpl.
  destruct (l !! i) as [[ti|ti e k|]|] eqn:Ei; [| |done..].
  - destruct m as [n| | |r]; [..|];
      try (destruct (settle ti (_schedule_task lib sd ti s)) as [s' t] eqn:Es; intros [= <-]; by eapply step_start).
    intros [= <-]. by eapply step_cancel_unstarted.
  - destruct (settle ti _) as [s' t] eqn:Es. intros [= <-]. eapply step_resume; [done| |done].
    destruct m; by intros Hm.
Qed.

Lemma run_main_step y y' : run_main y = Some y' -> step lib sd y y'.
Proof.
  destruct y as [s l m]. unfold run_main; simpl. destruct m as [n| | |r]; [| | |done].
  - intros [= <-]. apply step_yield.
  - destruct (existsb is_finished l) eqn:E; [|done]. intros [= <-].
    apply existsb_elem in E as (t & Ht & Hf). destruct t; try done.
    apply list_elem_of_lookup in Ht as [i Hi]. by eapply step_wait.
  - destruct (forallb _ _) eqn:E; [|done]. intros [= <-]. by apply step_cancelled.
Qed.

Lemma drive_reachable fuel y : rtc (step lib sd) y (drive fuel y).
Proof.
  revert y; induction fuel as [|fuel IH]; intros y; simpl; [apply rtc_refl|].
  destruct (turn y) as [y'|] eqn:E; [|apply rtc_refl]. eapply rtc_l; [|apply IH].
  unfold turn in E. assert (run_main y = Some y' \/ exists i, run_coroutine y i = Some y') as [H|[i H]].
  { destruct (main y); [..|done]; destruct (first_runnable _); eauto. }
  - by apply run_main_step.
  - by eapply run_coroutine_step.
Qed.
End Run.

(** ** Concrete libraries and runs *)

(** No expression references anything, integers are integers. *)
Definition plain_lib : Lib :=
  MkLib (fun _ => Some (Node "start" [])) (fun v => match v with VInt n => Some n | _ => None end)
    (fun v => match v with VBool b => Some b | _ => None end) (fun _ => None) (fun _ => None).

(** The environment of the examples: the executor stores nothing and succeeds,
    expressions evaluate to [cond], a scatter over the integers [0 .. n-1]. *)
Definition quiet_reply (cond : bool) (n : nat) (e : event) : answer e + exc :=
  match e with
  | EvExecute _ _ => inl (MkExec None None)
  | EvExpression _ _ => inl (VBool cond)
  | EvScatterInput _ _ _ _ => inl (inline (PVal (VList (map VInt (seqZ 0 (Z.of_nat n))))))
  | EvGatherItem r _ _ _ => inl (inline (PVal (VStr r)))
  | EvFinalize _ _ items _ _ => inl (MkFinalize (inline (PList (map PStored items))) [])
  | EvSleep _ => inl tt
  end.

Lemma quiet_reply_ok cond n e : not_cancelled e (quiet_reply cond n e).
Proof. by destruct e. Qed.

(** The scheduler built for a definition; the constructor must succeed. *)
Definition built (acts : list ActionStatement) (max_pending : Z) : Static * Sched :=
  match init acts max_pending (Some "ws") ∅ with
  | Some (Ok r) => r
  | _ => (MkStatic [] ∅ initial_scopes ∅ ∅ 1 None, initial_state [] ∅)
  end.

(** A run of a definition for a number of turns. *)
Definition run (acts : list ActionStatement) (cond : bool) (n turns : nat) : Sys :=
  let '(sd, s) := built acts 4 in drive plain_lib sd (quiet_reply cond n) turns (start sd s).

Lemma run_reachable acts cond n turns :
  reachable plain_lib (built acts 4).1 (built acts 4).2 (run acts cond n turns).
Proof.
  unfold run. destruct (built acts 4) as [sd s]. apply drive_reachable. apply quiet_reply_ok.
Qed.

(** A statement with arguments. *)
Definition with_args (a : ActionStatement) (ar : list (string * val)) : ActionStatement :=
  MkAction (ref a) "" (action a) ar (depends_on a) VNone None VNone default_retry_policy
    (S754_zero false) None JoinALL None false.

(** A loop of at most five iterations. *)
Definition loop5 : list ActionStatement :=
  [statement "a" "core.http_request" [];
   statement "ls" PlatformAction.LOOP_START ["a"];
   statement "b" "core.http_request" ["ls"];
   with_args (statement "le" PlatformAction.LOOP_END ["b"])
     [("condition", VStr "${{ ACTIONS.b.result }}"); ("max_iterations", VInt 5)];
   statement "c" "core.http_request" ["le"]].

(** A scatter and its gather. *)
Definition fan_out : list ActionStatement :=
  [statement "a" "core.http_request" [];
   with_args (statement "sc" PlatformAction.TRANSFORM_SCATTER ["a"]) [("collection", VStr "${{ ACTIONS.a.result }}")];
   statement "b" "core.http_request" ["sc"];
   with_args (statement "g" PlatformAction.TRANSFORM_GATHER ["b"]) [("items", VStr "${{ ACTIONS.b.result }}")];
   statement "c" "core.http_request" ["g"]].

Example loop5_stops : (* four continuations, then the limit *)
  (loop_indices (sched (run loop5 true 0 100)) !! ("ls", Stream.ROOT_STREAM),
   match main (run loop5 true 0 100) with Returned (Some _) => true | _ => false end) = (Some 4, true).
Proof. vm_compute. reflexivity. Qed.

Example fan_out_completes :
  match main (run fan_out true 3 100) with Returned None => true | _ => false end = true /\
  bool_decide (("c", Stream.ROOT_STREAM) ∈ completed_tasks (sched (run fan_out true 3 100))) = true.
Proof. split; vm_compute; reflexivity. Qed.
