(* ===== verification/SchedulerInv.v ===== *)
(** Invariants of the scheduler: a state invariant that every primitive update
    keeps holds in every reachable configuration, at every suspension point and
    under every interleaving.  Instances: the bound on loop indices, the shape of
    the stream hierarchy, the finality of failures, and the bound on pending
    tasks. *)

From S2P Require Import Prelude PyStr Base62 PyVal Expr DslTypes Graph DslScopes Coro SchedState Scheduler.

Section Invariants.
Variable lib : Lib.
Variable sd : Static.

(** The primitive updates of the handlers keep [I] and are related by [R]; of the updates of
    loop ends, those made for the tasks [T]. *)
Record preserved (T : TaskI -> Prop) (I : Sched -> Prop) (R : Sched -> Sched -> Prop) : Prop := {
  p_queue_tasks : forall t u s, I s -> I (_queue_tasks sd t u s) /\ R s (_queue_tasks sd t u s);
  p_error_path : forall t x f s, I s -> I (_handle_error_path sd t x f s) /\ R s (_handle_error_path sd t x f s);
  p_set_action : forall a r tr s, I s -> I (set_action a r tr s) /\ R s (set_action a r tr s);
  p_new_stream : forall r i parent c s, I s ->
    let s' := new_stream (Stream.new r i (Some parent)) parent c s in I s' /\ R s s';
  p_skips : forall x s, I s -> I (set_loop_start_skips x s) /\ R s (set_loop_start_skips x s);
  p_delete_index : forall t region s, T t -> loop_regions_by_end sd !! t_ref t = Some region -> I s ->
    let s' := set_loop_indices (delete (start_ref region, t_stream t) (loop_indices s)) s in I s' /\ R s s';
  p_continue : forall t region n s s0 stmt a, T t ->
    I s0 -> n = default 0 (loop_indices s0 !! (start_ref region, t_stream t)) + 1 ->
    loop_regions_by_end sd !! t_ref t = Some region -> tasks sd (t_ref t) = Some stmt ->
    parse_loop_end_args (lax_int lib) (args stmt) = inl a -> n < max_iterations a -> I s ->
    let s' := let s := _reset_loop_iteration_state sd region (t_stream t) s in
              let s := set_loop_indices (<[(start_ref region, t_stream t) := n]> (loop_indices s)) s in
              set_queue (queue s ++ [MkTask (start_ref region) (t_stream t) no_delay]) s in
    I s' /\ R s s';
  p_task_streams : forall x s, I s -> I (set_task_streams x s) /\ R s (set_task_streams x s);
  p_open_streams : forall x s, I s -> I (set_open_streams x s) /\ R s (set_open_streams x s);
  p_exception : forall r info s, I s ->
    let s' := set_task_exceptions (<[r := info]> (task_exceptions s)) s in I s' /\ R s s';
  p_completed : forall t s, I s ->
    let s' := set_completed ({[ t ]} ∪ completed_tasks s) s in I s' /\ R s s';
  p_queue : forall q s, I s -> I (set_queue q s) /\ R s (set_queue q s) }.

Variable K : forall e, answer e + exc -> Prop.
Variable T : TaskI -> Prop.
Variable I : Sched -> Prop.
Variable R : Sched -> Sched -> Prop.
Context {HR : PreOrder R}.
Hypothesis HI : preserved T I R.

Lemma keeps_lift_sum {A} (r : A + exc) : keeps K I R (lift_sum r : sprog A).
Proof. destruct r; intros s Hs; by split. Qed.

Lemma keeps_queue_tasks t u : keeps K I R (queue_tasks sd t u).
Proof. apply keeps_modify. intros s. by apply (p_queue_tasks _ _ _ HI). Qed.

Lemma keeps_success t : keeps K I R (handle_success_path sd t).
Proof. apply keeps_modify. intros s. by apply (p_queue_tasks _ _ _ HI). Qed.

Lemma keeps_action_context stream : keeps K I R (action_context stream).
Proof. unfold action_context. repeat keeps_step. Qed.

Lemma keeps_set_action a r tr : keeps K I R (modify (set_action a r tr) : sprog unit).
Proof. apply keeps_modify. intros s. by apply (p_set_action _ _ _ HI). Qed.

#[local] Hint Resolve keeps_queue_tasks keeps_success keeps_action_context keeps_set_action keeps_lift_sum : keeps.

(** The handlers, by their syntax. *)
Ltac keeps_auto := repeat first [ solve [eauto with keeps] | keeps_step ].

Lemma keeps_execute t : keeps K I R (_execute t).
Proof. unfold _execute. keeps_auto. Qed.

Lemma keeps_wrap {A} msg (m : sprog A) : keeps K I R m -> keeps K I R (wrap_error msg m).
Proof. intros Hm. unfold wrap_error. keeps_auto. Qed.

Lemma keeps_context stmt stream : keeps K I R (stream_aware_context lib stmt stream).
Proof. unfold stream_aware_context. keeps_auto. Qed.

Lemma keeps_resolve e c : keeps K I R (resolve_expression e c).
Proof. unfold resolve_expression. keeps_auto. Qed.

#[local] Hint Resolve keeps_execute keeps_wrap keeps_context keeps_resolve : keeps.

Lemma keeps_should_skip t stmt : keeps K I R (_task_should_skip lib t stmt).
Proof. unfold _task_should_skip. keeps_auto. Qed.

Lemma keeps_skip_stream t stream : keeps K I R (_handle_scatter_skip_stream sd t stream).
Proof.
  unfold _handle_scatter_skip_stream, Stream.skip. keeps_auto. intros s. by apply (p_new_stream _ _ _ HI).
Qed.

Lemma keeps_loop_start t stmt b : keeps K I R (_handle_loop_start sd t stmt b).
Proof. unfold _handle_loop_start. keeps_auto; intros s; by apply (p_skips _ _ _ HI). Qed.

Lemma keeps_condition t stmt c : keeps K I R (loop_condition lib t stmt c).
Proof. unfold loop_condition. keeps_auto. Qed.

#[local] Hint Resolve keeps_should_skip keeps_skip_stream keeps_loop_start keeps_condition : keeps.

Lemma parse_loop_end_bound li ar a : parse_loop_end_args li ar = inl a ->
  1 <= max_iterations a <= MAX_DO_WHILE_ITERATIONS.
Proof.
  unfold parse_loop_end_args, validation_error. intros H.
  destruct (dget ar "condition") as [v|]; [|done].
  destruct (expression_str v); [|done].
  destruct (field _ _ _ _); [|done].
  destruct ((1 <=? z) && (z <=? MAX_DO_WHILE_ITERATIONS)) eqn:E; [|done].
  injection H as <-. simpl. lia.
Qed.

Lemma keeps_bind_lift_sum {A B} (r : A + exc) (k : A -> sprog B) :
  (forall a, r = inl a -> keeps K I R (k a)) -> keeps K I R (bind (lift_sum r) k).
Proof. intros Hk s Hs. destruct r as [a|x]; simpl; [by apply Hk|done]. Qed.

Lemma keeps_loop_end t stmt b : T t -> tasks sd (t_ref t) = Some stmt -> keeps K I R (_handle_loop_end lib sd t stmt b).
Proof.
  intros Ht Hstmt. unfold _handle_loop_end. destruct (_ !! _) as [region|] eqn:Ereg; [|keeps_auto].
  destruct (exceeds_cap _); [keeps_auto|].
  apply keeps_bind_lift_sum. intros a Ha.
  apply keeps_gets_bind. intros s0 Hs0. keeps_auto; try (intros s; by apply (p_skips _ _ _ HI)).
  - unfold continue_loop. apply keeps_modify. intros s Hs.
    eapply (p_continue _ _ _ HI); [exact Ht|exact Hs0|done|done|done|done| |done]. lia.
  - intros s. by apply (p_delete_index _ _ _ HI).
Qed.
#[local] Hint Resolve keeps_loop_end : keeps.

Lemma keeps_scatter_item t c iv i : keeps K I R (scatter_item sd t c iv i).
Proof.
  unfold scatter_item. keeps_auto; intros s Hs; [by apply (p_task_streams _ _ _ HI)|by apply (p_new_stream _ _ _ HI)].
Qed.

Lemma keeps_scatter t stmt b : keeps K I R (_handle_scatter lib sd t stmt b).
Proof.
  unfold _handle_scatter, need_workspace. pose proof keeps_scatter_item. keeps_auto; intros s Hs;
    first [by apply (p_task_streams _ _ _ HI) | by apply (p_open_streams _ _ _ HI)].
Qed.

Lemma keeps_parent_safe stream : keeps K I R (parent_stream_safe stream).
Proof. unfold parent_stream_safe. keeps_auto. Qed.

Lemma keeps_write_slot a r i x : keeps K I R (write_slot a r i x).
Proof. unfold write_slot. keeps_auto. Qed.

Lemma ensure_slots_keep a r ps s : I s -> I (ensure_gather_slots a r ps s) /\ R s (ensure_gather_slots a r ps s).
Proof. intros Hs. unfold ensure_gather_slots. case_match; [by split|]. by apply (p_set_action _ _ _ HI). Qed.

Lemma keeps_ensure_slots a r ps : keeps K I R (modify (ensure_gather_slots a r ps) : sprog unit).
Proof. apply keeps_modify. intros s. apply ensure_slots_keep. Qed.

#[local] Hint Resolve keeps_scatter keeps_parent_safe keeps_write_slot keeps_ensure_slots : keeps.

Lemma keeps_gather_result stmt a p ga r : keeps K I R (_handle_gather_result lib sd stmt a p ga r).
Proof.
  unfold _handle_gather_result, raise_gather, need_workspace. keeps_auto; intros s Hs.
  - case_match; [by split|]. by apply (p_set_action _ _ _ HI).
  - by apply (p_exception _ _ _ HI).
Qed.

Lemma keeps_gather_args stmt : keeps K I R (gather_args lib stmt).
Proof. unfold gather_args. keeps_auto. Qed.

#[local] Hint Resolve keeps_gather_result keeps_gather_args : keeps.

Lemma keeps_finish_gather stmt a p ps ga r : keeps K I R ga -> keeps K I R (finish_gather lib sd stmt a p ps ga r).
Proof. intros Hga. unfold finish_gather. keeps_auto. Qed.

Lemma keeps_close_stream ps : keeps K I R (close_stream ps).
Proof. unfold close_stream. keeps_auto; intros s Hs. by apply (p_open_streams _ _ _ HI). Qed.

#[local] Hint Resolve keeps_finish_gather keeps_close_stream : keeps.

Lemma keeps_gather_skip_stream t stmt : keeps K I R (_handle_gather_skip_stream lib sd t stmt).
Proof. unfold _handle_gather_skip_stream. keeps_auto. Qed.

#[local] Hint Resolve keeps_gather_skip_stream : keeps.

Lemma keeps_gather t stmt b : keeps K I R (_handle_gather lib sd t stmt b).
Proof.
  unfold _handle_gather, gather_in_skip_stream, gather_in_stream, need_workspace. keeps_auto.
  - apply keeps_wrap. keeps_auto.
  - apply keeps_finish_gather. keeps_auto.
Qed.

#[local] Hint Resolve keeps_gather : keeps.

Lemma keeps_skip_path t stmt : T t -> tasks sd (t_ref t) = Some stmt -> keeps K I R (_handle_skip_path lib sd t stmt).
Proof. intros HT Ht. unfold _handle_skip_path. keeps_auto. Qed.

Lemma keeps_dispatch t stmt : T t -> tasks sd (t_ref t) = Some stmt -> keeps K I R (dispatch lib sd t stmt).
Proof. intros HT Ht. unfold dispatch. keeps_auto. Qed.

#[local] Hint Resolve keeps_skip_path keeps_dispatch : keeps.

Lemma keeps_run_task t d stmt : T t -> tasks sd (t_ref t) = Some stmt -> keeps K I R (run_task lib sd t d stmt).
Proof. intros HT Ht. unfold run_task, early_run_if. keeps_auto. Qed.

#[local] Hint Resolve keeps_run_task : keeps.

Lemma keeps_schedule_task ti : T ti -> T (MkTask (t_ref ti) (t_stream ti) no_delay) -> keeps K I R (_schedule_task lib sd ti).
Proof.
  intros HT HT'. unfold _schedule_task. destruct (tasks sd (t_ref ti)) as [stmt|] eqn:Et; [|keeps_auto].
  set (task := if positive_delay (t_delay ti) then _ else ti).
  assert (tasks sd (t_ref task) = Some stmt) as Ht by (unfold task; by destruct (positive_delay _)).
  assert (T task) as HTt by (unfold task; by destruct (positive_delay _)).
  keeps_auto.
  - destruct (unwrap_platform _). apply keeps_modify. intros s. by apply (p_error_path _ _ _ HI).
  - intros s. by apply (p_completed _ _ _ HI).
Qed.

End Invariants.

(** Every task. *)
Definition any_task (t : TaskI) : Prop := True.

(** ** From coroutines to configurations *)

Section Configurations.
Variable lib : Lib.
Variable sd : Static.
Variable I : Sched -> Prop.
Variable R : Sched -> Sched -> Prop.
Context {HR : PreOrder R}.
Hypothesis HI : preserved lib sd any_task I R.

(** Every answer is allowed. *)
Definition any_answer : forall e, answer e + exc -> Prop := fun _ _ => True.

Definition aio_ok (t : aio) : Prop :=
  match t with
  | Suspended _ e k => forall r s, I s -> safe any_answer I R (kept I R) s (k r s)
  | _ => True
  end.

Definition sys_ok (y : Sys) : Prop := I (sched y) /\ Forall aio_ok (pending y).

Lemma settle_ok ti s0 c s t : safe any_answer I R (kept I R) s0 c -> settle ti c = (s, t) ->
  I s /\ R s0 s /\ aio_ok t.
Proof.
  destruct c as [s' r|s' e k]; simpl; intros Hc [= <- <-].
  - by destruct Hc.
  - destruct Hc as (? & ? & Hk). split; [done|]. split; [done|]. intros r s. by apply Hk.
Qed.

Lemma discard_done_ok l : Forall aio_ok l -> Forall aio_ok (discard_done l).
Proof. intros H. apply Forall_forall. intros t [_ Ht]%list_elem_of_filter. by eapply Forall_forall. Qed.

(** The main coroutine's segments only change the queue. *)
Definition main_ok (s : Sched) (y : Sys) : Prop := sys_ok y /\ R s (sched y).

Lemma leave_loop_ok s l : I s -> Forall aio_ok l -> main_ok s (leave_loop s l).
Proof. intros Hs Hl. unfold leave_loop. by case_decide. Qed.

Lemma spawn_ok q s l n : I s -> Forall aio_ok l -> main_ok s (spawn sd q s l n).
Proof.
  revert l n; induction q as [|ti q IH]; intros l n Hs Hl; simpl.
  - destruct (p_queue _ _ _ _ _ HI [] s Hs) as [Hq Hr]. destruct l; [|by split].
    destruct (leave_loop_ok (set_queue [] s) [] Hq Hl) as [? ?]. split; [done|]. by etrans.
  - assert (forall q', I (set_queue q' s) /\ R s (set_queue q' s)) as Hq by (intros; by apply (p_queue _ _ _ _ _ HI)).
    case_match; [|destruct (Hq (ti :: q)); done].
    assert (Forall aio_ok (l ++ [NotStarted ti])) by (apply Forall_app; split; [done|by repeat constructor]).
    case_match; [destruct (Hq q); done|]. by apply IH.
Qed.

Lemma spawn_loop_ok s l n : I s -> Forall aio_ok l -> main_ok s (spawn_loop sd s l n).
Proof.
  intros Hs Hl. unfold spawn_loop. case_decide; [by apply spawn_ok|by apply leave_loop_ok].
Qed.

Lemma outer_loop_ok s l : I s -> Forall aio_ok l -> main_ok s (outer_loop sd s l).
Proof.
  intros Hs Hl. unfold outer_loop. case_decide; [|by apply leave_loop_ok].
  pose proof (discard_done_ok l Hl). repeat case_match; first [by apply leave_loop_ok | by apply spawn_loop_ok].
Qed.

(** Every step keeps the invariant and is related by [R]. *)
Lemma step_ok y y' : sys_ok y -> step lib sd y y' -> main_ok (sched y) y'.
Proof.
  intros [Hs Hl] Hstep; destruct Hstep as
    [s l i ti m s' t Hi Hc|s l i ti e k r m s' t Hi _ Hc|s l n|s l i Hi|s l i ti Hi|s l Hf]; simpl in *.
  - eapply settle_ok in Hc as (? & ? & ?); [|by eapply keeps_schedule_task]. split; [|done].
    split; [done|]. by apply Forall_insert.
  - pose proof (Forall_lookup_1 _ _ _ _ Hl Hi) as Hk. simpl in Hk.
    eapply settle_ok in Hc as (? & ? & ?); [|by apply Hk]. split; [|done]. split; [done|]. by apply Forall_insert.
  - apply spawn_loop_ok; [done|]. by apply discard_done_ok.
  - by apply outer_loop_ok.
  - split; [|done]. split; [done|]. by apply Forall_insert.
  - done.
Qed.

Lemma start_ok s0 : I s0 -> main_ok s0 (start sd s0).
Proof.
  intros H0. destruct (p_queue _ _ _ _ _ HI (queue s0 ++ initial_queue sd s0) s0 H0) as [Hq Hr].
  destruct (outer_loop_ok (set_queue (queue s0 ++ initial_queue sd s0) s0) []) as [? ?]; [done|constructor|].
  split; [done|]. by etrans.
Qed.

Lemma steps_ok y y' : sys_ok y -> rtc (step lib sd) y y' -> main_ok (sched y) y'.
Proof.
  intros Hy Hr. induction Hr as [y|y1 y2 y3 H12 H23 IH]; [by split|].
  destruct (step_ok y1 y2 Hy H12) as [H2 HR12]. destruct (IH H2) as [H3 HR23]. split; [done|]. by etrans.
Qed.

(** An invariant of the initial state holds in every reachable configuration. *)
Lemma reachable_ok s0 y : I s0 -> reachable lib sd s0 y -> sys_ok y.
Proof. intros H0 Hr. destruct (start_ok s0 H0) as [Hst _]. by apply (steps_ok (start sd s0)). Qed.
End Configurations.

(** Invariants without a segment relation. *)
Definition anything : Sched -> Sched -> Prop := fun _ _ => True.
#[export] Instance anything_preorder : PreOrder anything.
Proof. split; done. Qed.
