(* ===== verification/SchedulerFacts.v ===== *)
(** Properties of the scheduler's reachable configurations: bounded loops,
    the stream hierarchy and stream-aware lookup, final failures, the cap on
    pending tasks and the meaning of a successful return. *)

From S2P Require Import Prelude PyStr Base62 PyVal Expr DslTypes Graph DslScopes Coro SchedState Scheduler SchedRun SchedulerInv.

(** ** What the primitive updates leave alone *)

Section Frames.
Variable sd : Static.

Lemma queue_tasks_frame t u s :
  exists q ind es, _queue_tasks sd t u s =
    MkSched q ind (completed_tasks s) es (task_exceptions s) (stream_exceptions s) (loop_indices s)
      (loop_start_skips s) (streams s) (heap s) (stream_hierarchy s) (task_streams s) (open_streams s).
Proof.
  unfold _queue_tasks. generalize (succ_of sd (t_ref t)) as l. intros l. revert s.
  induction l as [|[d ty] l IH]; intros s; cbn [foldl]; [destruct s; eauto|].
  destruct (IH (queue_next sd t u (d, ty) s)) as (q & i & e & H). rewrite H.
  unfold queue_next. case_match; simpl; eauto.
Qed.

Lemma error_path_frame t x f s :
  exists q ind es te se, _handle_error_path sd t x f s =
    MkSched q ind (completed_tasks s) es te se (loop_indices s)
      (loop_start_skips s) (streams s) (heap s) (stream_hierarchy s) (task_streams s) (open_streams s)
    /\ (task_exceptions s <> ∅ -> te <> ∅).
Proof.
  unfold _handle_error_path. destruct (_ && _).
  - destruct (queue_tasks_frame t (out_edges sd (t_ref t) (t_stream t) non_error) s) as (q & i & e & ->).
    do 5 eexists. split; [done|]. done.
  - destruct (_ || _).
    + do 5 eexists. split; [unfold set_task_exceptions; simpl; done|]. intros _. apply insert_non_empty.
    + destruct (queue_tasks_frame t (out_edges sd (t_ref t) (t_stream t) all_edges)
        (set_stream_exceptions (<[t_stream t:=MkExcInfo x (error_details (t_ref t) (t_stream t) x)]>
           (stream_exceptions s)) s)) as (q & i & e & ->).
      do 5 eexists. split; [simpl; done|]. done.
Qed.

Lemma cleanup_frame region stream s :
  exists ind ct es se st h ts os, _cleanup_loop_descendant_streams region stream s =
    MkSched (queue s) ind ct es (task_exceptions s) se (loop_indices s) (loop_start_skips s) st (heap s) h ts os
    /\ st ⊆ streams s /\ h ⊆ stream_hierarchy s.
Proof.
  unfold _cleanup_loop_descendant_streams. case_decide.
  - destruct s. do 8 eexists. split; [simpl; done|]. done.
  - simpl. do 8 eexists. split; [done|]. split; apply map_filter_subseteq.
Qed.

Lemma reset_frame region stream s :
  exists ind ct es se st h ts os, _reset_loop_iteration_state sd region stream s =
    MkSched (queue s) ind ct es (task_exceptions s) se
      (filter (fun kv : Task * Z => ~ (kv.1.1 ∈ members region /\ Stream.within kv.1.2 stream = true)) (loop_indices s))
      (loop_start_skips s) st (heap s) h ts os
    /\ st ⊆ streams s /\ h ⊆ stream_hierarchy s.
Proof.
  unfold _reset_loop_iteration_state.
  destruct (cleanup_frame region stream s) as (i & ct & es & se & st & h & ts & os & -> & Hst & Hh). simpl.
  assert (forall l s', exists i' ct', foldl (reset_member sd region stream) s' l =
    MkSched (queue s') i' ct' (edges s') (task_exceptions s') (stream_exceptions s') (loop_indices s')
      (loop_start_skips s') (streams s') (heap s') (stream_hierarchy s') (task_streams s') (open_streams s')) as Hfold.
  { induction l as [|r l IH]; intros s'; cbn [foldl]; [destruct s'; eauto|].
    destruct (IH (reset_member sd region stream s' r)) as (i' & c' & ->).
    unfold reset_member. destruct (tasks sd r); simpl; eauto. }
  match goal with |- context [foldl _ ?s0 ?l] => destruct (Hfold l s0) as (i' & c' & ->) end.
  simpl. do 8 eexists. split; [done|]. done.
Qed.
End Frames.

(** ** Bounded loops *)

Section LoopBound.
Variable lib : Lib.
Variable sd : Static.

(** Every recorded iteration index is positive and below the limit of a loop end
    of its loop. *)
Definition loops_bounded (s : Sched) : Prop :=
  forall r stream n, loop_indices s !! (r, stream) = Some n ->
    0 < n /\ exists le region stmt a, loop_regions_by_end sd !! le = Some region /\ start_ref region = r /\
      tasks sd le = Some stmt /\ parse_loop_end_args (lax_int lib) (args stmt) = inl a /\
      n < max_iterations a <= MAX_DO_WHILE_ITERATIONS.

Lemma loops_bounded_sub m s : (forall k v, m !! k = Some v -> loop_indices s !! k = Some v) ->
  loops_bounded s -> loops_bounded (set_loop_indices m s).
Proof. intros Hm Hs r stream n Hn. apply (Hs r stream n). by apply Hm. Qed.

Lemma loops_bounded_preserved : preserved lib sd any_task loops_bounded anything.
Proof.
  split; try (intros; by split).
  - intros t u s Hs. destruct (queue_tasks_frame sd t u s) as (? & ? & ? & ->). done.
  - intros t x f s Hs. destruct (error_path_frame sd t x f s) as (? & ? & ? & ? & ? & -> & _). done.
  - intros t region s _ _ Hs. split; [|done]. apply loops_bounded_sub; [|done]. intros k' v [_ ?]%lookup_delete_Some. done.
  - intros [r stream d] region n s s0 stmt a _ Hs0 Hn Hreg Hstmt Ha Hlt Hs. cbn [t_ref t_stream] in *. split; [|done].
    destruct (reset_frame sd region stream s) as (? & ? & ? & ? & ? & ? & ? & ? & -> & _ & _). simpl.
    intros r' stream' n' Hl. simpl in Hl. apply lookup_insert_Some in Hl as [[[= <- <-] <-]|[_ Hl]].
    + assert (0 <= default 0 (loop_indices s0 !! (start_ref region, stream))).
      { destruct (loop_indices s0 !! _) as [m|] eqn:E; simpl; [|lia]. apply Hs0 in E as [? _]. lia. }
      split; [lia|]. exists r, region, stmt, a. apply parse_loop_end_bound in Ha as Hb. repeat split; try done; lia.
    + apply map_lookup_filter_Some in Hl as [Hl _]. exact (Hs r' stream' n' Hl).
Qed.

(** In every reachable configuration, under every interleaving and every answer of
    the environment, a recorded iteration index is positive and below the
    [max_iterations] of a loop end of its loop, itself at most 2048. *)
Theorem loop_indices_bounded (s0 : Sched) (y : Sys) (r : string) (stream : StreamID) (n : Z)
    (H0 : loop_indices s0 = ∅) (Hr : reachable lib sd s0 y)
    (Hn : loop_indices (sched y) !! (r, stream) = Some n) :
  0 < n < MAX_DO_WHILE_ITERATIONS /\
  exists le region stmt a, loop_regions_by_end sd !! le = Some region /\ start_ref region = r /\
    tasks sd le = Some stmt /\ parse_loop_end_args (lax_int lib) (args stmt) = inl a /\ n < max_iterations a.
Proof.
  assert (loops_bounded s0) as Hi by (intros ? ? ?; by rewrite H0, lookup_empty).
  destruct (reachable_ok lib sd _ _ loops_bounded_preserved s0 y Hi Hr) as [Hs _].
  destruct (Hs r stream n Hn) as (Hpos & le & region & stmt & a & ? & ? & ? & ? & ? & ?).
  split; [lia|]. eauto 10.
Qed.
End LoopBound.

Lemma loop_indices_bounded_witness :
  let y := run loop5 true 0 40 in let sd := (built loop5 4).1 in
  loop_indices (sched y) !! ("ls", Stream.ROOT_STREAM) = Some 3 /\
  0 < 3 < MAX_DO_WHILE_ITERATIONS /\
  exists le region stmt a, loop_regions_by_end sd !! le = Some region /\ start_ref region = "ls" /\
    tasks sd le = Some stmt /\ parse_loop_end_args (lax_int plain_lib) (args stmt) = inl a /\ 3 < max_iterations a.
Proof.
  intros y sd. split; [vm_compute; reflexivity|].
  apply (loop_indices_bounded plain_lib sd (built loop5 4).2 y "ls" Stream.ROOT_STREAM 3).
  - vm_compute. reflexivity.
  - apply run_reachable.
  - vm_compute. reflexivity.
Defined.

(** ** The stream hierarchy and stream-aware lookup *)

(** A parent's identifier is shorter, and every stream has a context. *)
Record streams_ok (s : Sched) : Prop := {
  so_parent : forall x p, stream_hierarchy s !! x = Some (Some p) -> (String.length p < String.length x)%nat;
  so_addr : forall x a, streams s !! x = Some a -> (a < length (heap s))%nat }.

Lemma new_length r i parent : (String.length parent < String.length (Stream.new r i (Some parent)))%nat.
Proof.
  unfold Stream.new. rewrite string_length_app. simpl. lia.
Qed.

Lemma streams_ok_preserved lib sd : preserved lib sd any_task streams_ok anything.
Proof.
  split; intros; (split; [|done]);
    try (by match goal with H : streams_ok _ |- _ => destruct H as [Hp Ha]; split end).
  - destruct H as [Hp Ha]. destruct (queue_tasks_frame sd t u s) as (? & ? & ? & ->). done.
  - destruct H as [Hp Ha]. destruct (error_path_frame sd t x f s) as (? & ? & ? & ? & ? & -> & _). done.
  - destruct H as [Hp Ha]. split; simpl; [done|]. intros x b. rewrite length_insert. apply Ha.
  - destruct H as [Hp Ha]. split; simpl.
    + intros x p [[<- [= <-]]|[_ Hx]]%lookup_insert_Some; [apply new_length|by apply Hp].
    + intros x b. rewrite length_app. simpl. intros [[_ <-]|[_ Hx]]%lookup_insert_Some; [lia|].
      apply Ha in Hx. lia.
  - subst s'. match goal with H : streams_ok s |- _ => destruct H as [Hp Ha] end.
    destruct (reset_frame sd region (t_stream t) s) as (? & ? & ? & ? & ? & ? & ? & ? & -> & Hst & Hh).
    split; simpl; intros z w Hz; [eapply Hp|eapply Ha]; by eapply lookup_weaken.
Qed.

(** The nearest stream, going up, whose context has the reference. *)
Inductive found (s : Sched) (r : string) : StreamID -> option TaskResult -> Prop :=
  | found_here x a tr : streams s !! x = Some a -> actions_at s a !! r = Some tr -> found s r x (Some tr)
  | found_up x p o : (forall a, streams s !! x = Some a -> actions_at s a !! r = None) ->
      parent_of (stream_hierarchy s) x = Some p -> found s r p o -> found s r x o
  | found_none x : (forall a, streams s !! x = Some a -> actions_at s a !! r = None) ->
      parent_of (stream_hierarchy s) x = None -> found s r x None.

Lemma found_fun s r x o o' : found s r x o -> found s r x o' -> o = o'.
Proof.
  intros H. revert o'. induction H as [x a tr Ha Htr|x p o Hn Hp Hf IH|x Hn Hp]; intros o' H'; inversion H'; subst;
    try congruence; try (exfalso; match goal with
    | Hn : forall a, streams s !! ?x = Some a -> _, H : streams s !! ?x = Some ?a |- _ =>
        specialize (Hn a H); congruence end).
  apply IH. congruence.
Qed.

Lemma lookup_up_found s r fuel (x : StreamID) : streams_ok s -> (String.length x < fuel)%nat ->
  exists o, lookup_up fuel s r (Some x) = Some o /\ found s r x o.
Proof.
  intros Hok. revert x; induction fuel as [|fuel IH]; intros x Hf; [lia|]. simpl.
  assert (forall y, parent_of (stream_hierarchy s) x = y ->
    (forall a, streams s !! x = Some a -> actions_at s a !! r = None) ->
    exists o, lookup_up fuel s r (parent_of (stream_hierarchy s) x) = Some o /\ found s r x o) as Hup.
  { intros y Hy Hn. rewrite Hy. destruct y as [p|].
    - destruct (IH p) as (o & Ho & Hfo).
      { unfold parent_of in Hy. case_match eqn:E; [subst|done]. apply (so_parent s Hok) in E. lia. }
      exists o. split; [done|]. by eapply found_up.
    - exists None. split; [by destruct fuel|]. by apply found_none. }
  case_match eqn:E.
  - exists (Some t). split; [done|]. case_match eqn:Ea; [|done]. by eapply found_here.
  - eapply Hup; [done|]. intros a Ha. by rewrite Ha in E.
Qed.

(** C20: in every reachable configuration, resolving an action reference from a
    stream terminates and returns the result of the nearest enclosing stream
    that has one, and nothing when no enclosing stream has one. *)
Theorem stream_lookup_nearest (lib : Lib) (sd : Static) (s0 : Sched) (y : Sys) (r : string) (stream : StreamID)
    (H0 : streams_ok s0) (Hr : reachable lib sd s0 y) :
  is_Some (lookup_up (S (String.length stream)) (sched y) r (Some stream)) /\
  forall o, get_stream_aware_action_result (sched y) r stream = o <-> found (sched y) r stream o.
Proof.
  destruct (reachable_ok lib sd _ _ (streams_ok_preserved lib sd) s0 y H0 Hr) as [Hs _].
  destruct (lookup_up_found (sched y) r (S (String.length stream)) stream Hs) as (o & Ho & Hf); [lia|].
  split; [eauto|]. intros o'. unfold get_stream_aware_action_result. rewrite Ho. simpl.
  split; [by intros <-|]. by apply found_fun.
Qed.

Lemma initial_streams_ok acts context : streams_ok (initial_state acts context).
Proof.
  split; simpl.
  - intros x p [_ ?]%lookup_singleton_Some. done.
  - intros x a [_ <-]%lookup_singleton_Some. lia.
Qed.

Lemma stream_lookup_nearest_witness :
  let y := run fan_out true 3 20 in
  is_Some (lookup_up (S (String.length "<root>:0/sc:1")) (sched y) "sc" (Some "<root>:0/sc:1")) /\
  forall o, get_stream_aware_action_result (sched y) "sc" "<root>:0/sc:1" = o <->
            found (sched y) "sc" "<root>:0/sc:1" o.
Proof.
  intros y. apply (stream_lookup_nearest plain_lib (built fan_out 4).1 (initial_state fan_out ∅)).
  - apply initial_streams_ok.
  - change (initial_state fan_out ∅) with (built fan_out 4).2. apply run_reachable.
Defined.

(** ** The main loop *)

Section MainLoop.
Variable lib : Lib.
Variable sd : Static.

Lemma discard_done_le l : (length (discard_done l) <= length l)%nat.
Proof. apply length_filter. Qed.

(** The configurations the spawn loop can leave the main coroutine in. *)
Lemma spawn_spec q s l n : task_exceptions s = ∅ -> Z.of_nat (length l) <= max_pending_tasks sd ->
  let y := spawn sd q s l n in
  Z.of_nat (length (pending y)) <= max_pending_tasks sd /\
  task_exceptions (sched y) = ∅ /\
  (main y = Returned None /\ pending y = [] /\ queue (sched y) = [] \/
   main y = Waiting \/ exists m, main y = Yielding m).
Proof.
  intros Hex. revert l n; induction q as [|ti q IH]; intros l n Hl; simpl.
  - destruct l as [|t l]; simpl.
    + unfold leave_loop. simpl. rewrite decide_True by done. simpl. split; [lia|]. auto.
    + split; [done|]. auto.
  - destruct (Z.ltb_spec (Z.of_nat (length l)) (max_pending_tasks sd)) as [Hlt|Hge].
    + assert (Z.of_nat (length (l ++ [NotStarted ti])) <= max_pending_tasks sd).
      { rewrite length_app. simpl. lia. }
      case_match; simpl; [split; [done|]; eauto|]. by apply IH.
    + simpl. split; [done|]. auto.
Qed.

(** What holds of the main coroutine in every reachable configuration. *)
Record main_ok (y : Sys) : Prop := {
  mo_pending : Z.of_nat (length (pending y)) <= max_pending_tasks sd;
  mo_none : main y = Returned None -> task_exceptions (sched y) = ∅ /\ pending y = [] /\ queue (sched y) = [];
  mo_some : forall r, main y = Returned (Some r) -> r <> ∅;
  mo_cancel : main y = Cancelling -> task_exceptions (sched y) <> ∅ }.

Lemma leave_loop_main s l : Z.of_nat (length l) <= max_pending_tasks sd -> task_exceptions s <> ∅ ->
  main_ok (leave_loop s l).
Proof. intros Hl Hs. unfold leave_loop. rewrite decide_False by done. by split. Qed.

Lemma spawn_loop_main s l n : Z.of_nat (length l) <= max_pending_tasks sd -> main_ok (spawn_loop sd s l n).
Proof.
  intros Hl. unfold spawn_loop. case_decide as Hex; [|by apply leave_loop_main].
  destruct (spawn_spec (queue s) s l n Hex Hl) as (H1 & H2 & H3).
  destruct (spawn sd (queue s) s l n) as [s' l' m']; simpl in *.
  split; simpl; [done|..]; destruct H3 as [(-> & -> & ?)|[->|[m ->]]]; done.
Qed.

Lemma outer_loop_main s l : Z.of_nat (length l) <= max_pending_tasks sd -> main_ok (outer_loop sd s l).
Proof.
  intros Hl. unfold outer_loop. case_decide as Hex; [|by apply leave_loop_main].
  pose proof (discard_done_le l).
  destruct (queue s) eqn:Eq; [destruct l|]; try (apply spawn_loop_main; lia).
  unfold leave_loop. rewrite decide_True by done. by split.
Qed.

(** A failure once recorded stays. *)
Definition failed (s : Sched) : Prop := task_exceptions s <> ∅.
Definition stays_failed (s s' : Sched) : Prop := failed s -> failed s'.

#[local] Instance stays_failed_preorder : PreOrder stays_failed.
Proof. split; [by intros s ?|]. intros s1 s2 s3 H1 H2 H. by apply H2, H1. Qed.

Definition any_state (s : Sched) : Prop := True.

Lemma stays_failed_preserved : preserved lib sd any_task any_state stays_failed.
Proof.
  unfold stays_failed, failed. split; intros; (split; [done|]); try done.
  - destruct (queue_tasks_frame sd t u s) as (? & ? & ? & ->). done.
  - destruct (error_path_frame sd t x f s) as (? & ? & ? & ? & ? & -> & ?). done.
  - subst s'. destruct (reset_frame sd region (t_stream t) s) as (? & ? & ? & ? & ? & ? & ? & ? & -> & _). done.
  - intros _. apply insert_non_empty.
Qed.

Lemma step_main y y' : main_ok y -> step lib sd y y' ->
  (failed (sched y) -> failed (sched y')) -> main_ok y'.
Proof.
  intros [Hp Hn Hs Hc] Hstep Hf. destruct Hstep as
    [s l i ti m s' t Hi Hst|s l i ti e k r m s' t Hi Hk Hst|s l n|s l i Hi|s l i ti Hi|s l Hfin]; simpl in *.
  - split; simpl; [by rewrite length_insert| |done|by intros ?%Hc%Hf].
    intros ->. destruct (Hn eq_refl) as (_ & -> & _). done.
  - split; simpl; [by rewrite length_insert| |done|by intros ?%Hc%Hf].
    intros ->. destruct (Hn eq_refl) as (_ & -> & _). done.
  - apply spawn_loop_main. pose proof (discard_done_le l). lia.
  - by apply outer_loop_main.
  - split; simpl; [by rewrite length_insert|done..].
  - split; simpl; [done..| |done]. intros r [= <-]. by apply Hc.
Qed.

Lemma reachable_main s0 y : 1 <= max_pending_tasks sd -> reachable lib sd s0 y ->
  main_ok y /\ forall y', step lib sd y y' -> stays_failed (sched y) (sched y').
Proof.
  intros Hmax Hr.
  assert (main_ok (start sd s0)) as Hst by (apply outer_loop_main; simpl; lia).
  destruct (start_ok lib sd any_state stays_failed stays_failed_preserved s0 I) as [Hso _].
  unfold reachable in Hr. revert Hst Hso. generalize (start sd s0) as y0, Hr. clear Hr. intros y0 Hr.
  induction Hr as [x|x z w Hxz Hzw IH]; intros Hx Hso.
  - split; [done|]. intros y' Hy. by apply (step_ok lib sd any_state stays_failed stays_failed_preserved) in Hy as [_ ?].
  - pose proof (step_ok lib sd any_state stays_failed stays_failed_preserved x z Hso Hxz) as [Hz HR].
    apply IH; [|done]. by apply (step_main x).
Qed.

(** At every moment at most [max_pending_tasks] tasks are in flight. *)
Theorem pending_bounded (s0 : Sched) (y : Sys)
    (Hmax : 1 <= max_pending_tasks sd) (Hr : reachable lib sd s0 y) :
  Z.of_nat (length (pending y)) <= max_pending_tasks sd.
Proof. by destruct (reachable_main s0 y Hmax Hr) as [[? _ _ _] _]. Qed.

End MainLoop.

Lemma pending_bounded_witness :
  1 <= 4 /\ Z.of_nat (length (pending (run fan_out true 9 30))) <= max_pending_tasks (built fan_out 4).1.
Proof.
  split; [lia|]. apply (pending_bounded plain_lib (built fan_out 4).1 (built fan_out 4).2).
  - vm_compute. discriminate.
  - apply run_reachable.
Defined.

