(* ===== verification/SchedOps.v ===== *)
(** What the scheduler's bookkeeping operations do, in full: queueing the
    successors of a task, the decision to run or skip a task, the routing of a
    failure, and the removal of the streams of a loop iteration. *)

From S2P Require Import Prelude PyStr Base62 PyVal Expr DslTypes Graph DslScopes Coro SchedState Scheduler SchedRun.
From S2P Require Import SchedulerFacts.

(** ** Queueing the successors of a task *)

Section Queueing.
Variable sd : Static.

(** The dependencies of a task that have not been resolved yet: the recorded
    in-degree, or the number of dependencies of a task seen for the first time. *)
Definition unresolved (s : Sched) (k : Task) : Z := default (n_deps sd k.1) (indegrees s !! k).

(** The edges processed when [t] is done. *)
Definition outgoing (t : TaskI) (l : list AdjDst) (e : DSLEdge) : Prop :=
  e.1.1.1 = t_ref t /\ e.2 = t_stream t /\ (e.1.1.2, e.1.2) ∈ l.

#[export] Instance outgoing_dec t l e : Decision (outgoing t l e).
Proof. unfold outgoing. apply _. Defined.

Lemma queue_next_marker t u d ty s e :
  marker (queue_next sd t u (d, ty) s) e =
    if decide (e = (t_ref t, d, ty, t_stream t)) then (if decide (e ∈ u) then SKIPPED else VISITED)
    else marker s e.
Proof.
  unfold queue_next, marker. assert (forall b (s1 s2 : Sched), edges s1 = edges s2 ->
    edges (if b : bool then s1 else s2) = edges s2) as Hb by (by intros []).
  rewrite Hb by done. simpl. destruct (decide (e = (t_ref t, d, ty, t_stream t))) as [->|He].
  - by rewrite lookup_insert_eq.
  - by rewrite lookup_insert_ne by congruence.
Qed.

Lemma queue_next_unresolved t u d ty s k :
  unresolved (queue_next sd t u (d, ty) s) k =
    unresolved s k - (if decide (k = (d, t_stream t)) then 1 else 0).
Proof.
  unfold queue_next, unresolved. assert (forall b (s1 s2 : Sched), indegrees s1 = indegrees s2 ->
    indegrees (if b : bool then s1 else s2) = indegrees s2) as Hb by (by intros []).
  rewrite Hb by done. simpl. unfold task_key. simpl. destruct (decide (k = (d, t_stream t))) as [->|He].
  - by rewrite lookup_insert_eq.
  - rewrite lookup_insert_ne by congruence. lia.
Qed.

Lemma queue_next_queue t u d ty s :
  queue (queue_next sd t u (d, ty) s) =
    queue s ++ (if decide (unresolved s (d, t_stream t) = 1) then [MkTask d (t_stream t) (t_delay t)] else []).
Proof.
  unfold queue_next. destruct (decide (unresolved s (d, t_stream t) = 1)) as [Hn|Hn];
    unfold unresolved, task_key in *; simpl in *.
  - by rewrite (proj2 (Z.eqb_eq _ 0)) by lia.
  - rewrite (proj2 (Z.eqb_neq _ 0)) by lia. by rewrite app_nil_r.
Qed.

Lemma queue_fold_spec t u l s :
  let s' := foldl (fun s next => queue_next sd t u next s) s l in
  (forall e, marker s' e =
     if decide (outgoing t l e) then (if decide (e ∈ u) then SKIPPED else VISITED) else marker s e) /\
  (forall k, unresolved s' k =
     unresolved s k - (if decide (k.2 = t_stream t) then Z.of_nat (occurs k.1 (map fst l)) else 0)) /\
  exists ready, queue s' = queue s ++ map (fun v => MkTask v (t_stream t) (t_delay t)) ready /\
    NoDup ready /\
    forall v, v ∈ ready <-> 1 <= unresolved s (v, t_stream t) <= Z.of_nat (occurs v (map fst l)).
Proof.
  revert s; induction l as [|[d ty] l IH]; intros s; cbn [foldl].
  - split; [|split].
    + intros e. rewrite decide_False; [done|]. intros (_ & _ & H). by inversion H.
    + intros k. change (occurs k.1 (map fst [])) with 0%nat. case_decide; lia.
    + exists []. rewrite app_nil_r. split; [done|]. split; [constructor|]. intros v. rewrite elem_of_nil.
      change (occurs v (map fst [])) with 0%nat. lia.
  - destruct (IH (queue_next sd t u (d, ty) s)) as (Hm & Hu & ready & Hq & Hnd & Hr). clear IH.
    assert (forall v, occurs v (map fst ((d, ty) :: l)) =
      ((if decide (v = d) then 1 else 0) + occurs v (map fst l))%nat) as Hocc.
    { intros v. cbn [map fst]. rewrite occurs_cons. repeat case_decide; congruence. }
    split; [|split].
    + intros [[[a b] c] w]. rewrite Hm, queue_next_marker.
      assert (outgoing t ((d, ty) :: l) (a, b, c, w) <->
        outgoing t l (a, b, c, w) \/ (a, b, c, w) = (t_ref t, d, ty, t_stream t)) as Ho.
      { unfold outgoing. simpl. rewrite elem_of_cons. naive_solver. }
      destruct (decide (outgoing t l (a, b, c, w))) as [H1|H1].
      { by rewrite (decide_True (P := outgoing t (_ :: _) _)) by tauto. }
      destruct (decide ((a, b, c, w) = (t_ref t, d, ty, t_stream t))) as [H2|H2].
      * rewrite (decide_True (P := outgoing t (_ :: _) _)) by tauto. by case_decide.
      * rewrite (decide_False (P := outgoing t (_ :: _) _)) by tauto. by case_decide.
    + intros [v w]. rewrite Hu, queue_next_unresolved, Hocc. simpl.
      repeat case_decide; simplify_eq/=; lia.
    + rewrite Hq, queue_next_queue, <- app_assoc.
      setoid_rewrite queue_next_unresolved in Hr.
      exists ((if decide (unresolved s (d, t_stream t) = 1) then [d] else []) ++ ready).
      assert (forall v, (v, t_stream t) = (d, t_stream t) <-> v = d) as Hvd by (intros v; naive_solver).
      split; [by rewrite map_app; destruct (decide (unresolved s (d, t_stream t) = 1))|]. split.
      * destruct (decide (unresolved s (d, t_stream t) = 1)) as [H1|H1]; [|done]. simpl. constructor; [|done]. rewrite Hr.
        rewrite decide_True by done. lia.
      * intros v. rewrite elem_of_app, Hr, Hocc.
        destruct (decide (v = d)) as [->|Hne].
        -- rewrite (decide_True (P := _ = _ :> Task)) by done.
           case_decide; rewrite ?list_elem_of_singleton, ?elem_of_nil; intuition lia.
        -- rewrite (decide_False (P := _ = _ :> Task)) by (by rewrite Hvd).
           case_decide; rewrite ?list_elem_of_singleton, ?elem_of_nil; intuition lia.
Qed.

(** When a task is done, [_queue_tasks] marks each of its outgoing edges, in
    its own stream and no other edge: as skipped if pruned and as visited
    otherwise; it lowers the in-degree of every successor by the number of edges
    to it and of nothing else; and it appends to the queue, once each, exactly
    the successors whose last unresolved dependency this was. *)
Theorem queue_tasks_spec (t : TaskI) (u : gset DSLEdge) (s : Sched) :
  let s' := _queue_tasks sd t u s in
  let l := succ_of sd (t_ref t) in
  (forall e, marker s' e =
     if decide (outgoing t l e) then (if decide (e ∈ u) then SKIPPED else VISITED) else marker s e) /\
  (forall k, unresolved s' k =
     unresolved s k - (if decide (k.2 = t_stream t) then Z.of_nat (occurs k.1 (map fst l)) else 0)) /\
  exists ready, queue s' = queue s ++ map (fun v => MkTask v (t_stream t) (t_delay t)) ready /\
    NoDup ready /\
    forall v, v ∈ ready <-> 1 <= unresolved s (v, t_stream t) <= Z.of_nat (occurs v (map fst l)).
Proof. exact (queue_fold_spec t u (succ_of sd (t_ref t)) s). Qed.
End Queueing.

(** ** Running or skipping a task *)

Lemma count_true_spec l : 0 <= count_true l <= Z.of_nat (length l) /\
  (0 < count_true l <-> true ∈ l) /\ (count_true l = Z.of_nat (length l) <-> forall b, b ∈ l -> b = true).
Proof.
  unfold count_true. induction l as [|[|] l (IH1 & IH2 & IH3)].
  - simpl. split; [lia|]. split; [|split; [|done]]; [split; [lia|by inversion 1]|]. intros _ b Hb. by inversion Hb.
  - rewrite filter_cons_True by done. cbn [length]. split; [lia|]. split.
    + split; [by left|lia].
    + rewrite !Nat2Z.inj_succ. setoid_rewrite elem_of_cons. split.
      * intros H b [->|Hb]; [done|]. apply IH3; [lia|done].
      * intros H. rewrite (proj2 IH3); [done|]. intros b Hb. apply H. by right.
  - rewrite filter_cons_False by done. cbn [length]. rewrite Nat2Z.inj_succ. split; [lia|].
    setoid_rewrite elem_of_cons. split.
    + rewrite IH2. naive_solver.
    + split; [lia|]. intros H. specialize (H false (or_introl eq_refl)). done.
Qed.

(** The dependency [dep] of [t] was taken. *)
Definition dep_taken (s : Sched) (t : TaskI) (m : EdgeMarker) (dep : string) : Prop :=
  _edge_has_marker s dep (t_ref t) m (t_stream t) = true.

Lemma marker_exclusive s t dep m m' : dep_taken s t m dep -> dep_taken s t m' dep -> m = m'.
Proof.
  unfold dep_taken, _edge_has_marker. case_match; [|done]. case_match.
  intros ?%bool_decide_eq_true ?%bool_decide_eq_true. congruence.
Qed.

#[export] Instance dep_taken_dec s t m dep : Decision (dep_taken s t m dep).
Proof. unfold dep_taken. apply _. Defined.

(** C33: once every dependency of a task is resolved (its edge visited or
    skipped), a skip propagates to the task exactly when none was visited, and
    the task counts as reachable exactly when all were visited, or at least one
    under the [any] join strategy; so under [any] a task that is not skipped is
    never unreachable. *)
Theorem join_decision (s : Sched) (t : TaskI) (stmt : ActionStatement)
    (Hdeps : depends_on stmt <> [])
    (Hres : forall dep, dep ∈ depends_on stmt -> dep_taken s t VISITED dep \/ dep_taken s t SKIPPED dep) :
  (_skip_should_propagate s t stmt = true <-> forall dep, dep ∈ depends_on stmt -> ~ dep_taken s t VISITED dep) /\
  (_is_reachable s t stmt = true <->
     match join_strategy stmt with
     | JoinALL => forall dep, dep ∈ depends_on stmt -> dep_taken s t VISITED dep
     | JoinANY => exists dep, dep ∈ depends_on stmt /\ dep_taken s t VISITED dep
     end) /\
  (join_strategy stmt = JoinANY -> _skip_should_propagate s t stmt = false -> _is_reachable s t stmt = true).
Proof.
  assert (_skip_should_propagate s t stmt = true <->
    forall dep, dep ∈ depends_on stmt -> ~ dep_taken s t VISITED dep) as Hskip.
  { unfold _skip_should_propagate. destruct (depends_on stmt) as [|d l]; [done|].
    rewrite forallb_elem. split; intros H dep Hdep.
    - intros Hv. by pose proof (marker_exclusive _ _ _ _ _ Hv (H dep Hdep)).
    - by destruct (Hres dep Hdep) as [?%(H dep Hdep)|?]. }
  assert (_is_reachable s t stmt = true <->
     match join_strategy stmt with
     | JoinALL => forall dep, dep ∈ depends_on stmt -> dep_taken s t VISITED dep
     | JoinANY => exists dep, dep ∈ depends_on stmt /\ dep_taken s t VISITED dep
     end) as Hreach.
  { unfold _is_reachable. destruct (depends_on stmt) as [|d [|d' l]]; [done|..].
    - fold (dep_taken s t VISITED d). pose proof (list_elem_of_singleton (A := string)) as Hone.
      destruct (join_strategy stmt).
      + split; [intros H; exists d; split; [by left|done]|]. by intros (dep & ->%Hone & H).
      + split; [by intros H dep ->%Hone|]. intros H. apply H. by left.
    - set (deps := d :: d' :: l). set (vis := map _ deps).
      destruct (count_true_spec vis) as (_ & Hany & Hall).
      destruct (join_strategy stmt).
      + rewrite Z.ltb_lt, Hany. unfold vis. rewrite list_elem_of_In, in_map_iff.
        setoid_rewrite <- list_elem_of_In. unfold dep_taken. naive_solver.
      + unfold vis in *. rewrite length_map in Hall. rewrite Z.eqb_eq, Hall.
        setoid_rewrite list_elem_of_In. setoid_rewrite in_map_iff. setoid_rewrite <- list_elem_of_In.
        unfold dep_taken. naive_solver. }
  split; [done|]. split; [done|]. intros Hj Hs. apply Hreach. rewrite Hj.
  apply Exists_exists. destruct (decide (Exists (dep_taken s t VISITED) (depends_on stmt))) as [|Hn]; [done|].
  assert (_skip_should_propagate s t stmt = true); [|congruence]. apply Hskip.
  intros dep Hdep Hv. apply Hn, Exists_exists. eauto.
Qed.

(** The join [d] of a diamond under [any]: one branch taken, one skipped. *)
Definition half_taken : Sched :=
  set_edges {[ ("b", "d", EdgeSUCCESS, Stream.ROOT_STREAM) := VISITED;
               ("c", "d", EdgeSUCCESS, Stream.ROOT_STREAM) := SKIPPED ]} (initial_state [] ∅).
Definition join_any (a : ActionStatement) : ActionStatement :=
  MkAction (ref a) "" (action a) (args a) (depends_on a) VNone None VNone default_retry_policy
    (S754_zero false) None JoinANY None false.
Definition join_stmt : ActionStatement := join_any (statement "d" "core.http_request" ["b"; "c"]).
Definition join_task : TaskI := MkTask "d" Stream.ROOT_STREAM no_delay.

Lemma join_decision_witness :
  (_skip_should_propagate half_taken join_task join_stmt = true <->
     forall dep, dep ∈ depends_on join_stmt -> ~ dep_taken half_taken join_task VISITED dep) /\
  (_is_reachable half_taken join_task join_stmt = true <->
     exists dep, dep ∈ depends_on join_stmt /\ dep_taken half_taken join_task VISITED dep) /\
  (join_strategy join_stmt = JoinANY -> _skip_should_propagate half_taken join_task join_stmt = false ->
   _is_reachable half_taken join_task join_stmt = true).
Proof.
  apply (join_decision half_taken join_task join_stmt).
  - discriminate.
  - intros dep. change (depends_on join_stmt) with ["b"; "c"]. rewrite elem_of_cons, list_elem_of_singleton. intros [->| ->]; [left|right]; vm_compute; reflexivity.
Defined.

(** ** Routing a failure *)

Section Errors.
Variable sd : Static.

(** The task has an error path. *)
Definition handled (t : TaskI) : Prop := exists d, (d, EdgeERROR) ∈ succ_of sd (t_ref t).

Lemma out_edges_elem r stream p e :
  e ∈ out_edges sd r stream p <-> exists d ty, (d, ty) ∈ succ_of sd r /\ p ty = true /\ e = (r, d, ty, stream).
Proof.
  unfold out_edges. rewrite elem_of_list_to_set, list_elem_of_In, in_map_iff.
  setoid_rewrite <- list_elem_of_In. split.
  - intros ([d ty] & <- & [Hp Hin]%list_elem_of_filter). eauto.
  - intros (d & ty & Hin & Hp & ->). exists (d, ty). split; [done|]. by apply list_elem_of_filter.
Qed.

(** The size test of [_handle_error_path] finds the error edges. *)
Lemma out_edges_size r stream p : NoDup (succ_of sd r) ->
  (size (out_edges sd r stream p) < length (succ_of sd r))%nat <-> exists dt, dt ∈ succ_of sd r /\ p dt.2 = false.
Proof.
  intros Hnd. unfold out_edges. set (l := succ_of sd r) in *.
  assert (NoDup (map (fun dt : AdjDst => (r, dt.1, dt.2, stream)) (filter (fun dt => p dt.2 = true) l))) as Hn.
  { apply (NoDup_fmap_2_strong _); [|by apply NoDup_filter]. intros [] [] _ _ [= -> ->]. done. }
  rewrite (size_list_to_set (C := gset DSLEdge) _ Hn), length_map. split.
  - intros Hlt. destruct (decide (Exists (fun dt : AdjDst => p dt.2 = false) l)) as [He|He].
    + by apply Exists_exists.
    + exfalso. assert (forall dt, dt ∈ l -> p dt.2 = true) as Hall.
      { intros dt Hdt. destruct (p dt.2) eqn:E; [done|]. exfalso. apply He, Exists_exists. eauto. }
      revert Hlt. clearbody l. clear -Hall. induction l as [|dt l IH]; [simpl; lia|]. rewrite filter_cons_True by (apply Hall; by left).
      cbn [length]. intros Hlt%Nat.succ_lt_mono. apply IH; [|exact Hlt]. intros dt' Hin. apply Hall. by right.
  - intros (dt & Hdt & Hp). apply (length_filter_lt _ _ dt); [done|]. by rewrite Hp.
Qed.

(** A failure with an error path (and no platform error) takes exactly the
    error edges and records nothing; without one, in a scatter stream, it is
    recorded for the stream and prunes every outgoing edge; and in the root
    stream, or for a platform error anywhere, it is recorded for the workflow
    and nothing is queued. *)
Theorem error_path_spec (t : TaskI) (x : exc) (platform : bool) (s : Sched)
    (Hnd : NoDup (succ_of sd (t_ref t))) :
  let s' := _handle_error_path sd t x platform s in
  let edge d ty := (t_ref t, d, ty, t_stream t) in
  (handled t /\ platform = false ->
     task_exceptions s' = task_exceptions s /\ stream_exceptions s' = stream_exceptions s /\
     forall d ty, (d, ty) ∈ succ_of sd (t_ref t) ->
       marker s' (edge d ty) = match ty with EdgeERROR => VISITED | EdgeSUCCESS => SKIPPED end) /\
  (~ handled t /\ platform = false /\ t_stream t <> Stream.ROOT_STREAM ->
     task_exceptions s' = task_exceptions s /\ is_Some (stream_exceptions s' !! t_stream t) /\
     forall d ty, (d, ty) ∈ succ_of sd (t_ref t) -> marker s' (edge d ty) = SKIPPED) /\
  (platform = true \/ ~ handled t /\ t_stream t = Stream.ROOT_STREAM ->
     is_Some (task_exceptions s' !! t_ref t) /\ stream_exceptions s' = stream_exceptions s /\
     queue s' = queue s /\ edges s' = edges s /\ indegrees s' = indegrees s).
Proof.
  intros s' edge. subst s'. unfold _handle_error_path.
  assert ((size (out_edges sd (t_ref t) (t_stream t) non_error) <? length (succ_of sd (t_ref t)))%nat = true <-> handled t)
    as Hh.
  { rewrite Nat.ltb_lt, out_edges_size by done. unfold handled, non_error. split.
    - intros ([d ty] & Hin & Hty%bool_decide_eq_false). exists d. destruct ty; [|done]. by destruct Hty.
    - intros (d & Hin). exists (d, EdgeERROR). done. }
  set (b := (size _ <? length _)%nat) in *.
  assert (forall p s0 d ty, (d, ty) ∈ succ_of sd (t_ref t) ->
    marker (_queue_tasks sd t (out_edges sd (t_ref t) (t_stream t) p) s0) (edge d ty) =
      if p ty then SKIPPED else VISITED) as Hmark.
  { intros p s0 d ty Hin. destruct (queue_tasks_spec sd t (out_edges sd (t_ref t) (t_stream t) p) s0) as (-> & _).
    rewrite decide_True by done. destruct (p ty) eqn:E.
    - rewrite decide_True; [done|]. apply out_edges_elem. eauto.
    - rewrite decide_False; [done|]. intros (d' & ty' & ? & ? & [= -> ->])%out_edges_elem. congruence. }
  split; [|split].
  - intros [Hhd ->]. rewrite (proj2 Hh Hhd). simpl.
    destruct (queue_tasks_frame sd t (out_edges sd (t_ref t) (t_stream t) non_error) s) as (q & i & es & Heq).
    split; [by rewrite Heq|]. split; [by rewrite Heq|]. intros d ty Hin. rewrite Hmark by done. by destruct ty.
  - intros (Hhd & -> & Hroot). assert (b = false) as -> by (destruct b; [exfalso; by apply Hhd, Hh|done]).
    rewrite bool_decide_eq_false_2 by done. simpl.
    match goal with |- context [_queue_tasks sd t ?u ?s0] =>
      destruct (queue_tasks_frame sd t u s0) as (q & i & es & Heq) end.
    split; [by rewrite Heq|]. split; [rewrite Heq; simpl; rewrite lookup_insert_eq; eauto|].
    intros d ty Hin. by rewrite Hmark.
  - intros Hcase. assert (b && negb platform = false) as ->.
    { destruct Hcase as [->|[Hhd _]]; [apply andb_false_r|]. destruct b; [exfalso; by apply Hhd, Hh|done]. }
    assert (bool_decide (t_stream t = Stream.ROOT_STREAM) || platform = true) as ->.
    { destruct Hcase as [->|[_ ->]]; [apply orb_true_r|done]. }
    simpl. rewrite lookup_insert_eq. eauto.
Qed.
End Errors.

(** ** The streams of a loop iteration *)

Section Descendants.
Variable hierarchy : gmap StreamID (option StreamID).

(** [p] is the parent of [x]. *)
Definition child_of (x p : StreamID) : Prop := hierarchy !! x = Some (Some p).

(** [x] is one of the roots or lies below one. *)
Definition below (roots : gset StreamID) (x : StreamID) : Prop := exists r, r ∈ roots /\ rtc child_of x r.

Lemma mark_child_grows rm cp : rm ⊆ mark_child rm cp.
Proof. unfold mark_child. destruct cp as [c [p|]]; simpl; [|done]. case_decide; set_solver. Qed.

Lemma mark_children_grow l rm : rm ⊆ foldl mark_child rm l.
Proof.
  revert rm; induction l as [|cp l IH]; intros rm; cbn [foldl]; [done|]. etrans; [apply mark_child_grows|apply IH].
Qed.

(** One pass adds only children of streams already marked. *)
Lemma close_pass_sound rm x :
  (rm ⊆ close_pass hierarchy rm) /\ (x ∈ close_pass hierarchy rm -> below rm x).
Proof.
  unfold close_pass. assert (forall cp, cp ∈ map_to_list hierarchy -> hierarchy !! cp.1 = Some cp.2) as Hin.
  { intros [c p] H. by apply elem_of_map_to_list. }
  revert Hin. generalize (map_to_list hierarchy) as l. intros l Hin.
  assert (forall acc, (forall y, y ∈ acc -> below rm y) ->
    acc ⊆ foldl mark_child acc l /\ forall y, y ∈ foldl mark_child acc l -> below rm y) as H.
  { induction l as [|[c p] l IH]; intros acc Hacc; cbn [foldl]; [done|].
    assert (forall cp, cp ∈ l -> hierarchy !! cp.1 = Some cp.2) as Hin' by (intros; apply Hin; by right).
    destruct (IH Hin' (mark_child acc (c, p))) as [H1 H2].
    - unfold mark_child. simpl. destruct p as [p|]; [|done]. case_decide as Hd; [|done].
      intros y [->%elem_of_singleton|Hy]%elem_of_union; [|by apply Hacc].
      destruct Hd as [(r & Hr & Hp)%Hacc _]. exists r. split; [done|]. eapply rtc_l; [|done].
      exact (Hin (c, Some p) (list_elem_of_here _ _)).
    - split; [|done]. etrans; [apply mark_child_grows|apply H1]. }
  destruct (H rm) as [H1 H2].
  { intros y Hy. exists y. split; [done|]. apply rtc_refl. }
  split; [done|]. apply H2.
Qed.

(** A pass that changes nothing has found every child. *)
Lemma close_pass_fixed rm x p :
  close_pass hierarchy rm = rm -> child_of x p -> p ∈ rm -> x ∈ rm.
Proof.
  unfold close_pass, child_of. intros Hfix Hx Hp. apply elem_of_map_to_list in Hx.
  apply list_elem_of_split in Hx as (l1 & l2 & Hl). rewrite Hl, foldl_app in Hfix. cbn [foldl] in Hfix.
  set (acc := foldl mark_child rm l1) in *. assert (rm ⊆ acc) as H1 by apply mark_children_grow.
  assert (x ∈ mark_child acc (x, Some p)) as Hin.
  { unfold mark_child. simpl. case_decide as Hd; [set_solver|]. destruct (decide (x ∈ acc)) as [|Hn]; [done|].
    exfalso. apply Hd. set_solver. }
  rewrite <- Hfix. by apply (mark_children_grow l2 (mark_child acc (x, Some p))).
Qed.

Lemma close_streams_grows fuel rm : rm ⊆ close_streams fuel hierarchy rm.
Proof.
  revert rm; induction fuel as [|fuel IH]; intros rm; simpl; [done|]. case_decide; [done|].
  etrans; [|apply IH]. by apply (close_pass_sound rm "").
Qed.

Lemma close_streams_sound fuel rm x : x ∈ close_streams fuel hierarchy rm -> below rm x.
Proof.
  revert rm; induction fuel as [|fuel IH]; intros rm; simpl.
  - intros Hx. exists x. split; [done|apply rtc_refl].
  - case_decide.
    + intros Hx. exists x. split; [done|apply rtc_refl].
    + intros (r & [q [Hq Hrq]]%(close_pass_sound rm) & Hxr)%IH. exists q. split; [done|]. by etrans.
Qed.

(** The streams a pass adds have a parent, so the fuel suffices. *)
Lemma close_streams_closed fuel rm x p :
  (size (dom hierarchy ∖ rm) < fuel)%nat -> child_of x p ->
  p ∈ close_streams fuel hierarchy rm -> x ∈ close_streams fuel hierarchy rm.
Proof.
  intros Hfuel Hx. revert rm Hfuel. induction fuel as [|fuel IH]; intros rm Hfuel; simpl; [lia|].
  case_decide as Hfix; [by apply close_pass_fixed|]. apply IH.
  assert (rm ⊆ close_pass hierarchy rm) as Hsub by (by apply (close_pass_sound rm "")).
  assert (exists y, y ∈ close_pass hierarchy rm /\ y ∉ rm) as (y & Hy & Hn).
  { destruct (decide (close_pass hierarchy rm ∖ rm = ∅)) as [He|(y & Hy)%set_choose_L]; [|set_solver].
    exfalso. apply Hfix, set_eq. intros y. split; [|by apply Hsub].
    intros Hy. destruct (decide (y ∈ rm)); [done|]. set_solver. }
  assert (y ∈ dom hierarchy) as Hdom.
  { apply (close_pass_sound rm) in Hy as (r & Hr & Hyr). inversion Hyr as [|? z ? Hyz]; [by subst|].
    apply elem_of_dom. eauto. }
  assert (size (dom hierarchy ∖ close_pass hierarchy rm) < size (dom hierarchy ∖ rm))%nat; [|lia].
  apply subset_size. set_solver.
Qed.

(** The streams to remove: exactly those below the loop's scatters. *)
Lemma close_streams_exact rm x :
  x ∈ close_streams (S (size hierarchy)) hierarchy rm <-> below rm x.
Proof.
  split; [apply close_streams_sound|]. intros (r & Hr & Hxr).
  induction Hxr as [x|x p r Hxp _ IH].
  - by apply close_streams_grows.
  - eapply close_streams_closed; [|done|by apply IH].
    assert (size (dom hierarchy ∖ rm) <= size (dom hierarchy))%nat by (apply subseteq_size; set_solver).
    rewrite size_dom in *. lia.
Qed.
End Descendants.

Section Reset.
Variable sd : Static.

(** The streams of the previous iteration of a loop: those opened by scatters of
    the loop, and all below them. *)
Definition stale (region : LoopRegion) (stream : StreamID) (s : Sched) (x : StreamID) : Prop :=
  below (stream_hierarchy s) (loop_streams region stream s) x.

#[export] Instance stale_dec region stream s x : Decision (stale region stream s x).
Proof.
  refine (cast_if (decide (x ∈ close_streams (S (size (stream_hierarchy s))) (stream_hierarchy s)
    (loop_streams region stream s)))); unfold stale; by rewrite <- close_streams_exact.
Defined.

(** A task of the loop, in the stream the loop runs in. *)
Definition of_loop (region : LoopRegion) (stream : StreamID) (k : Task) : Prop :=
  k.1 ∈ members region /\ k.2 = stream.

#[export] Instance of_loop_dec region stream k : Decision (of_loop region stream k).
Proof. unfold of_loop. apply _. Defined.

(** What is left of a table keyed by streams. *)
Definition unless_stale {V} (region : LoopRegion) (stream : StreamID) (s : Sched) (x : StreamID) (o : option V) : option V :=
  if decide (stale region stream s x) then None else o.

Lemma filter_stream_lookup {K V} `{Countable K} (f : K -> StreamID) (rm : gset StreamID) (m : gmap K V) k :
  filter (fun kv : K * V => f kv.1 ∉ rm) m !! k = if decide (f k ∈ rm) then None else m !! k.
Proof.
  rewrite map_lookup_filter. destruct (m !! k) as [v|]; simpl; [|by case_decide].
  unfold guard. repeat case_decide; done.
Qed.

Record cleaned (region : LoopRegion) (stream : StreamID) (s s' : Sched) : Prop := {
  cl_streams : forall x, streams s' !! x = unless_stale region stream s x (streams s !! x);
  cl_hierarchy : forall x, stream_hierarchy s' !! x = unless_stale region stream s x (stream_hierarchy s !! x);
  cl_exceptions : forall x, stream_exceptions s' !! x = unless_stale region stream s x (stream_exceptions s !! x);
  cl_completed : forall k, k ∈ completed_tasks s' <-> k ∈ completed_tasks s /\ ~ stale region stream s k.2;
  cl_indegrees : forall k, indegrees s' !! k = unless_stale region stream s k.2 (indegrees s !! k);
  cl_edges : forall e, edges s' !! e = unless_stale region stream s e.2 (edges s !! e);
  cl_task_streams : forall k, task_streams s' !! k = unless_stale region stream s k.2 (task_streams s !! k);
  cl_open_streams : forall k, open_streams s' !! k = unless_stale region stream s k.2 (open_streams s !! k);
  cl_rest : queue s' = queue s /\ heap s' = heap s /\ task_exceptions s' = task_exceptions s /\
            loop_indices s' = loop_indices s /\ loop_start_skips s' = loop_start_skips s }.

Lemma cleanup_spec region stream s : cleaned region stream s (_cleanup_loop_descendant_streams region stream s).
Proof.
  unfold _cleanup_loop_descendant_streams. case_decide as Hroots.
  - assert (forall x, ~ stale region stream s x) as Hno.
    { intros x (r & Hr & _). rewrite Hroots in Hr. set_solver. }
    split; intros; unfold unless_stale; rewrite ?decide_False by done; naive_solver.
  - set (rm := close_streams _ _ _).
    assert (forall x, stale region stream s x <-> x ∈ rm) as Hrm.
    { intros x. unfold rm, stale. by rewrite close_streams_exact. }
    assert (forall V x (o : option V), unless_stale region stream s x o = if decide (x ∈ rm) then None else o) as Hun.
    { intros V x o. unfold unless_stale. specialize (Hrm x). repeat case_decide; naive_solver. }
    split; simpl; intros; rewrite ?Hun;
      try (by apply (filter_stream_lookup (fun x : StreamID => x)));
      try (by apply (filter_stream_lookup (fun k : Task => k.2))).
    + etrans; [apply elem_of_filter|]. rewrite Hrm. naive_solver.
    + apply (filter_stream_lookup (fun e : DSLEdge => e.2)).
    + done.
Qed.

(** Resetting the members of the loop. *)
Lemma reset_members_spec region stream l s :
  let s' := foldl (reset_member sd region stream) s l in
  completed_tasks s' = completed_tasks s ∖ list_to_set (map (fun r => (r, stream)) l) /\
  (forall k, indegrees s' !! k =
     match tasks sd k.1 with
     | Some stmt => if decide (k.1 ∈ l /\ k.2 = stream) then Some (internal_deps region stmt) else indegrees s !! k
     | None => indegrees s !! k
     end) /\
  (queue s', edges s', task_exceptions s', stream_exceptions s', loop_indices s', loop_start_skips s') =
  (queue s, edges s, task_exceptions s, stream_exceptions s, loop_indices s, loop_start_skips s) /\
  (streams s', heap s', stream_hierarchy s', task_streams s', open_streams s') =
  (streams s, heap s, stream_hierarchy s, task_streams s, open_streams s).
Proof.
  revert s; induction l as [|r l IH]; intros s; cbn [foldl].
  - split; [simpl; by rewrite difference_empty_L|]. split; [|done]. intros [v x]. simpl.
    by destruct (tasks sd v).
  - destruct (IH (reset_member sd region stream s r)) as (H1 & H2 & H3 & H4).
    assert (completed_tasks (reset_member sd region stream s r) = completed_tasks s ∖ {[ (r, stream) ]}) as E1.
    { unfold reset_member. by case_match. }
    split; [rewrite H1, E1; set_solver|]. split.
    + intros [v x]. rewrite H2. simpl. destruct (tasks sd v) as [stmt|] eqn:Ev.
      * destruct (decide (v ∈ l /\ x = stream)) as [Hd|Hd].
        { rewrite decide_True; [done|]. rewrite elem_of_cons. naive_solver. }
        unfold reset_member. destruct (decide (v = r /\ x = stream)) as [[-> ->]|Hne].
        { rewrite Ev. simpl. rewrite lookup_insert_eq, decide_True; [done|]. split; [by left|done]. }
        rewrite decide_False by (rewrite elem_of_cons; naive_solver).
        destruct (tasks sd r); simpl; [|done]. by rewrite lookup_insert_ne by naive_solver.
      * unfold reset_member. destruct (tasks sd r) as [stmt|] eqn:Er; simpl; [|done].
        by rewrite lookup_insert_ne by naive_solver.
    + rewrite H3, H4. unfold reset_member. by case_match.
Qed.

(** Preparing the next iteration of a loop: every task of the loop in the
    stream becomes runnable again (not completed, waiting exactly for its
    dependencies inside the loop, the edges between loop members unresolved, no
    recorded scatter streams); every stream opened by a scatter of the loop, and
    every stream below one, is forgotten with all its bookkeeping; the indices of
    loops nested in it are dropped; and nothing else changes, in particular not
    the queue, the recorded failures and the stored results. *)
Theorem loop_reset_spec (region : LoopRegion) (stream : StreamID) (s : Sched) :
  let s' := _reset_loop_iteration_state sd region stream s in
  let gone := stale region stream s in
  (forall x, streams s' !! x = unless_stale region stream s x (streams s !! x)) /\
  (forall k, k ∈ completed_tasks s' <-> k ∈ completed_tasks s /\ ~ gone k.2 /\ ~ of_loop region stream k) /\
  (forall k stmt, tasks sd k.1 = Some stmt -> indegrees s' !! k =
     if decide (of_loop region stream k) then Some (internal_deps region stmt)
     else unless_stale region stream s k.2 (indegrees s !! k)) /\
  (forall e, marker s' e =
     if decide (e.1.1.1 ∈ members region /\ e.1.1.2 ∈ members region /\ e.2 = stream \/ gone e.2) then PENDING
     else marker s e) /\
  (forall k, task_streams s' !! k =
     if decide (of_loop region stream k) then None else unless_stale region stream s k.2 (task_streams s !! k)) /\
  (forall k, open_streams s' !! k =
     if decide (of_loop region stream k) then None else unless_stale region stream s k.2 (open_streams s !! k)) /\
  (forall k, loop_indices s' !! k =
     if decide (k.1 ∈ members region /\ Stream.within k.2 stream = true) then None else loop_indices s !! k) /\
  queue s' = queue s /\ heap s' = heap s /\ task_exceptions s' = task_exceptions s.
Proof.
  cbv zeta. unfold _reset_loop_iteration_state.
  generalize (cleanup_spec region stream s). generalize (_cleanup_loop_descendant_streams region stream s) as s1.
  intros s1 [C1 C2 C3 C4 C5 C6 C7 C8 (C9 & C10 & C11 & C12 & C13)].
  match goal with |- context [foldl (reset_member sd region stream) ?s0 ?l] =>
    generalize (reset_members_spec region stream l s0);
    generalize (foldl (reset_member sd region stream) s0 l) as s3 end.
  intros s3 (M1 & M2 & M3 & M4). simpl in M1, M2, M3, M4 |- *.
  injection M3 as Q3 E3 T3 X3 L3 K3. injection M4 as S4 H4 I4 TS4 O4.
  assert (forall V (m : gmap Task V) k, filter (fun kv : Task * V => ~ (kv.1.1 ∈ members region /\ kv.1.2 = stream)) m !! k
    = if decide (of_loop region stream k) then None else m !! k) as Hhere.
  { intros V m k. rewrite map_lookup_filter. unfold of_loop. destruct (m !! k); simpl; [|by case_decide].
    unfold guard. repeat case_decide; naive_solver. }
  split; [intros x; by rewrite S4|]. split.
  { intros [v x]. rewrite M1. rewrite elem_of_difference, elem_of_list_to_set, C4. simpl.
    rewrite list_elem_of_In, in_map_iff. setoid_rewrite <- list_elem_of_In. setoid_rewrite elem_of_elements.
    unfold of_loop. simpl. naive_solver. }
  split.
  { intros [v x] stmt Hv. rewrite M2. simpl in *. rewrite Hv. unfold of_loop; simpl.
    rewrite C5. pose proof (elem_of_elements (members region) v) as Hel.
    repeat case_decide; naive_solver. }
  split.
  { intros [[[a b] c] x]. unfold marker. simpl. rewrite E3. rewrite map_lookup_imap, C6.
    unfold unless_stale; simpl. destruct (decide (stale region stream s x)).
    - rewrite decide_True by (by right). done.
    - destruct (edges s !! _); simpl; repeat case_decide; naive_solver. }
  split; [intros k; rewrite TS4; by rewrite Hhere, C7|].
  split; [intros k; rewrite O4; by rewrite Hhere, C8|].
  split.
  { intros k. rewrite map_lookup_filter, L3. rewrite C12.
    destruct (loop_indices s !! k); simpl; [|by case_decide]. unfold guard. repeat case_decide; naive_solver. }
  rewrite Q3, H4, T3. done.
Qed.
End Reset.


(** The error path of [a] leads to [h], its success path to [b]. *)
Definition with_error_path : list ActionStatement :=
  [statement "a" "core.http_request" []; statement "b" "core.http_request" ["a"];
   statement "h" "core.http_request" ["a.error"]].
Definition failing_task : TaskI := MkTask "a" Stream.ROOT_STREAM no_delay.
Definition a_failure : exc := ExcApp "boom" [].

Lemma error_path_spec_witness :
  let sd := (built with_error_path 4).1 in let s := (built with_error_path 4).2 in
  let s' := _handle_error_path sd failing_task a_failure false s in
  let edge d ty := (t_ref failing_task, d, ty, t_stream failing_task) in
  (handled sd failing_task /\ false = false ->
     task_exceptions s' = task_exceptions s /\ stream_exceptions s' = stream_exceptions s /\
     forall d ty, (d, ty) ∈ succ_of sd (t_ref failing_task) ->
       marker s' (edge d ty) = match ty with EdgeERROR => VISITED | EdgeSUCCESS => SKIPPED end) /\
  (~ handled sd failing_task /\ false = false /\ t_stream failing_task <> Stream.ROOT_STREAM ->
     task_exceptions s' = task_exceptions s /\ is_Some (stream_exceptions s' !! t_stream failing_task) /\
     forall d ty, (d, ty) ∈ succ_of sd (t_ref failing_task) -> marker s' (edge d ty) = SKIPPED) /\
  (false = true \/ ~ handled sd failing_task /\ t_stream failing_task = Stream.ROOT_STREAM ->
     is_Some (task_exceptions s' !! t_ref failing_task) /\ stream_exceptions s' = stream_exceptions s /\
     queue s' = queue s /\ edges s' = edges s /\ indegrees s' = indegrees s).
Proof.
  intros sd s. apply (error_path_spec sd failing_task a_failure false s).
  apply (bool_decide_unpack (NoDup (succ_of sd (t_ref failing_task)))). vm_compute. exact I.
Defined.
