(* ===== verification/SchedLoops.v ===== *)
(** Loops: what one run of a loop end does to the iteration index of its loop, whatever the
    other tasks do meanwhile, and how often a loop can go on. *)

From S2P Require Import Prelude PyStr Base62 PyVal Expr DslTypes Graph DslScopes Coro SchedState Scheduler SchedRun.
From S2P Require Import SchedulerInv SchedulerFacts SchedOps.

(** ** A coroutine among others *)

(** A run of a coroutine to its end: the environment gives the answers [K] allows, and while
    the coroutine is suspended the other tasks change the state as [rely] says. *)
Inductive completes {A} (K : forall e, answer e + exc -> Prop) (rely : Sched -> Sched -> Prop) :
    coro Sched answer A -> A + exc -> Sched -> Prop :=
  | completes_done s r : completes K rely (Done s r) r s
  | completes_await s e k a s' r s'' : K e a -> rely s s' -> completes K rely (k a s') r s'' ->
      completes K rely (Await s e k) r s''.

Section Runs.
Context (K : forall e, answer e + exc -> Prop) (J : Sched -> Prop).

(** A postcondition of the whole run. *)
Definition runs {A} (P : A + exc -> Sched -> Prop) (s : Sched) (c : coro Sched answer A) : Prop :=
  safe K J anything (fun _ => P) s c.

Lemma runs_completes {A} rely (P : A + exc -> Sched -> Prop) s c r s' :
  (forall s s', J s -> rely s s' -> J s') -> runs P s c -> completes K rely c r s' -> P r s'.
Proof.
  intros Hrely Hc H. revert s Hc. induction H as [s0 r|s0 e k a s1 r s2 Ha Hs _ IH]; intros s Hc; [exact Hc|].
  destruct Hc as (HJ & _ & Hk). apply (IH s1), Hk; [done|]. by eapply Hrely.
Qed.

Lemma runs_from {A} (P : A + exc -> Sched -> Prop) s0 s c : runs P s c -> runs P s0 c.
Proof. by apply safe_trans. Qed.

Lemma runs_bind {A B} (P1 : A + exc -> Sched -> Prop) (P : B + exc -> Sched -> Prop) s (m : sprog A) (f : A -> sprog B) :
  runs P1 s (m s) -> (forall a s', P1 (inl a) s' -> runs P s' (f a s')) -> (forall x s', P1 (inr x) s' -> P (inr x) s') ->
  runs P s (bind m f s).
Proof.
  intros Hm Hf Hx. unfold bind. apply safe_bind. eapply safe_weaken; [|exact Hm].
  intros s0 [a|x] s' H; [eapply runs_from; by apply Hf|by apply Hx].
Qed.

Lemma runs_keeps {A B} (P : B + exc -> Sched -> Prop) s (m : sprog A) (f : A -> sprog B) :
  keeps K J anything m -> J s -> (forall a s', J s' -> runs P s' (f a s')) -> (forall x s', J s' -> P (inr x) s') ->
  runs P s (bind m f s).
Proof.
  intros Hm Hs Hf Hx. apply (runs_bind (fun _ s' => J s')); [|exact Hf|exact Hx].
  eapply safe_weaken; [|by apply Hm]. by intros s0 r s' [? _].
Qed.
End Runs.

Lemma runs_gets {A B} (K : forall e, answer e + exc -> Prop) J (P : B + exc -> Sched -> Prop) s (g : Sched -> A) (f : A -> sprog B) :
  runs K J P s (f (g s) s) -> runs K J P s (bind (gets g) f s).
Proof. done. Qed.

(** ** The loop end *)

Section LoopEnd.
Variable lib : Lib.
Variable sd : Static.

(** The task does not end the loop [key], nor one around it. *)
Definition other_task (key : string * StreamID) (t : TaskI) : Prop :=
  forall region, loop_regions_by_end sd !! t_ref t = Some region ->
    (start_ref region, t_stream t) <> key /\ ~ (key.1 ∈ members region /\ Stream.within key.2 (t_stream t) = true).

(** Its updates leave the loop's index. *)
Lemma index_preserved key v : preserved lib sd (other_task key) (fun s => loop_indices s !! key = v) anything.
Proof.
  split; try (intros; by split).
  - intros t u s Hs. destruct (queue_tasks_frame sd t u s) as (? & ? & ? & ->). done.
  - intros t x f s Hs. destruct (error_path_frame sd t x f s) as (? & ? & ? & ? & ? & -> & _). done.
  - intros t region s Ht Hreg Hs. destruct (Ht region Hreg) as [Hne _]. split; [|done]. simpl. by rewrite lookup_delete_ne.
  - intros t region n s s0 stmt a Ht _ _ Hreg _ _ _ Hs. destruct (Ht region Hreg) as [Hne Hin]. split; [|done]. simpl.
    rewrite lookup_insert_ne by done. destruct (loop_reset_spec sd region (t_stream t) s) as (_ & _ & _ & _ & _ & _ & Hi & _).
    rewrite Hi. by rewrite decide_False.
Qed.

(** An environment in which the condition of the loop evaluates to [holds]. *)
Definition answers (holds : bool) (e : event) : answer e + exc -> Prop :=
  match e with
  | EvExpression _ _ => fun r => forall v, r = inl v -> truthy v = holds
  | _ => fun _ => True
  end.

(** Other tasks leave the index of the loop. *)
Definition steady (key : string * StreamID) (s s' : Sched) : Prop := loop_indices s' !! key = loop_indices s !! key.

(** What a run of the loop end comes to, from the index [i]: the next iteration is started
    under the next index, which is below the limit; or the loop is left and its index
    removed; or the task fails and the index stays. *)
Definition turned (region : LoopRegion) (stream : StreamID) (limit i : Z) (go_on : bool) (r : unit + exc) (s' : Sched) : Prop :=
  let key := (start_ref region, stream) in
  match r with
  | inl _ =>
      if go_on
      then i + 1 < limit /\ loop_indices s' !! key = Some (i + 1) /\ last (queue s') = Some (MkTask (start_ref region) stream no_delay)
      else loop_indices s' !! key = None
  | inr _ => default 0 (loop_indices s' !! key) = i
  end.

Section Turn.
Context (task : TaskI) (stmt : ActionStatement) (region : LoopRegion) (a : LoopEndArgs).
Hypothesis Hregion : loop_regions_by_end sd !! t_ref task = Some region.
Hypothesis Hargs : parse_loop_end_args (lax_int lib) (args stmt) = inl a.

Abbreviation key := (start_ref region, t_stream task).

Lemma loop_end_turn is_skipping holds s :
  runs (answers holds) (fun s' => loop_indices s' !! key = loop_indices s !! key)
    (turned region (t_stream task) (max_iterations a) (default 0 (loop_indices s !! key)) (negb is_skipping && holds)) s
    (_handle_loop_end lib sd task stmt is_skipping s).
Proof.
  set (v := loop_indices s !! key). set (K := answers holds). set (J := fun s' : Sched => loop_indices s' !! key = v).
  pose proof (index_preserved key v) as HI. assert (J s) as Hs by done.
  set (P := turned _ _ _ _ _). assert (forall x s', J s' -> P (inr x) s') as Hx by (intros x s' H; unfold P, turned; by rewrite H).
  unfold _handle_loop_end. rewrite Hregion. destruct (exceeds_cap _); [by apply Hx|]. rewrite Hargs.
  apply (runs_gets K J P s (fun _ => a)). cbv zeta. apply runs_gets, runs_gets.
  set (skipped := is_skipping && _).
  apply runs_keeps; [destruct skipped; [by apply keeps_modify|by apply keeps_ret]|done| |exact Hx]. intros _ s1 Hs1.
  apply (runs_bind K J (fun r s' => J s' /\ forall b, r = inl b -> b = negb is_skipping && holds)).
  { destruct is_skipping; [by split; [|intros b [= <-]]|]. unfold loop_condition. apply runs_keeps; [|exact Hs1| |intros x s' H; by split].
    { apply keeps_context. exact _. }
    intros c s2 Hs2. apply (runs_bind K J (fun r s' => J s' /\ forall v, r = inl v -> truthy v = holds)).
    - unfold wrap_error, resolve_expression. apply safe_catch. cbn. split; [exact Hs2|]. split; [done|].
      intros r s' Hr Hs'. destruct r as [w|x]; cbn; [by split; [|intros w' [= <-]; apply Hr]|]. destruct (is_exception x); cbn; by split.
    - intros w s' [H1 H2]. split; [done|]. intros b [= <-]. rewrite (H2 w) by done. done.
    - intros x s' [H1 _]. by split. }
  2:{ intros x s' [H _]. by apply Hx. }
  intros should_continue s2 [Hs2 Hgo]. specialize (Hgo _ eq_refl).
  apply runs_keeps; [apply keeps_action_context; exact _|done| |exact Hx]. intros addr s3 Hs3.
  apply runs_keeps; [by apply keeps_modify|exact Hs3| |exact Hx]. intros _ s4 Hs4.
  apply runs_keeps; [|done| |exact Hx].
  { destruct is_skipping; [by apply keeps_ret|]. eapply keeps_execute; [exact _|exact HI]. }
  intros _ s5 Hs5. subst P. unfold turned. rewrite <- Hgo. destruct should_continue.
  - destruct (_ <=? _) eqn:E; [exact (Hx (ExcApp "Loop exceeded max_iterations" []) s5 Hs5)|]. cbn. split; [unfold v; lia|]. split; [by rewrite lookup_insert_eq|]. by rewrite last_snoc.
  - assert (forall u, loop_indices (_queue_tasks sd task u (set_loop_indices (delete key (loop_indices s5)) s5)) !! key = None) as Hq.
    { intros u. destruct (queue_tasks_frame sd task u (set_loop_indices (delete key (loop_indices s5)) s5)) as (? & ? & ? & ->). cbn. by rewrite lookup_delete_eq. }
    destruct skipped; apply Hq.
Qed.

(** The life of a loop from when it is entered: other tasks run and leave its index, and
    its end runs and starts another iteration; [n] counts these. *)
Inductive continued : Sched -> nat -> Prop :=
  | continued_entered s : loop_indices s !! key = None -> continued s 0
  | continued_others s s' n : continued s n -> steady key s s' -> continued s' n
  | continued_turn s s' n : continued s n ->
      completes (answers true) (steady key) (_handle_loop_end lib sd task stmt false s) (inl tt) s' -> continued s' (S n).

Lemma turn_completes is_skipping holds s r s' :
  completes (answers holds) (steady key) (_handle_loop_end lib sd task stmt is_skipping s) r s' ->
  turned region (t_stream task) (max_iterations a) (default 0 (loop_indices s !! key)) (negb is_skipping && holds) r s'.
Proof.
  intros H. eapply runs_completes; [|apply loop_end_turn|exact H]. intros s1 s2 H1 H2. exact (eq_trans H2 H1).
Qed.

Lemma continued_index s n : continued s n ->
  default 0 (loop_indices s !! key) = Z.of_nat n /\ Z.of_nat n < max_iterations a.
Proof.
  pose proof (parse_loop_end_bound _ _ _ Hargs) as Hb. induction 1 as [s Hs|s s' n _ IH Hst|s s' n _ IH Ht].
  - rewrite Hs. simpl. lia.
  - unfold steady in Hst. by rewrite Hst.
  - apply turn_completes in Ht. simpl in Ht. destruct Ht as (Hlt & -> & _). simpl. lia.
Qed.
End Turn.

(** C2: a loop runs no more often than its limit.  A run of its end, whatever is answered and
    whatever the other tasks do while it waits, starts another iteration exactly under the next
    index, which it records and which is below [max_iterations], when the condition holds;
    leaves the loop and forgets the index when it does not, or when it is skipped; or fails.
    So from when the loop is entered, its end starts less than [max_iterations] (at most 2048)
    further iterations before it is left.  Other tasks leave the index: all but the end of a
    loop around it, whose next iteration enters the loop anew, and another run of the same
    end (none is in flight while one runs: this is what [continued] assumes, a loop end waits
    for all actions of its loop). *)
Theorem loop_iterations_bounded (task : TaskI) (stmt : ActionStatement) (region : LoopRegion) (a : LoopEndArgs)
    (Hregion : loop_regions_by_end sd !! t_ref task = Some region)
    (Hargs : parse_loop_end_args (lax_int lib) (args stmt) = inl a) :
  let key := (start_ref region, t_stream task) in
  (forall is_skipping holds s r s',
     completes (answers holds) (steady key) (_handle_loop_end lib sd task stmt is_skipping s) r s' ->
     turned region (t_stream task) (max_iterations a) (default 0 (loop_indices s !! key)) (negb is_skipping && holds) r s') /\
  (forall s n, continued task stmt region s n -> Z.of_nat n < max_iterations a <= MAX_DO_WHILE_ITERATIONS) /\
  (forall t v, other_task key t -> keeps any_answer (fun s => loop_indices s !! key = v) anything (_schedule_task lib sd t)).
Proof.
  intros key. split; [|split].
  - intros is_skipping holds s r s'. by apply turn_completes.
  - intros s n Hn. pose proof (parse_loop_end_bound _ _ _ Hargs). destruct (continued_index task stmt region a Hregion Hargs s n Hn). lia.
  - intros t v Ht. eapply keeps_schedule_task; [exact _|apply index_preserved|exact Ht|exact Ht].
Qed.
End LoopEnd.

(** ** An example *)

(** A coroutine run to its end, alone. *)
Fixpoint alone {A} (reply : forall e, answer e + exc) (c : coro Sched answer A) : (A + exc) * Sched :=
  match c with
  | Done s r => (r, s)
  | Await s e k => alone reply (k (reply e) s)
  end.

Lemma alone_completes {A} (K : forall e, answer e + exc -> Prop) (rely : Sched -> Sched -> Prop) reply (c : coro Sched answer A) :
  (forall e, K e (reply e)) -> (forall s, rely s s) -> completes K rely c (alone reply c).1 (alone reply c).2.
Proof. intros HK Hr. induction c as [s r|s e k IH]; simpl; econstructor; eauto. Qed.

Lemma quiet_answers cond e : answers cond e (quiet_reply cond 0 e).
Proof. destruct e; try exact I. by intros v [= <-]. Qed.

(** The loop of [loop5], its end at the first iteration. *)
Definition loop5_end : TaskI := MkTask "le" Stream.ROOT_STREAM no_delay.
Definition loop5_stmt : ActionStatement := nth 3 loop5 (statement "" "" []).
Definition loop5_region : LoopRegion := default (MkRegion "" "" "" ∅) (loop_regions_by_end (built loop5 4).1 !! "le").
Definition loop5_turn (cond : bool) : (unit + exc) * Sched :=
  alone (quiet_reply cond 0) (_handle_loop_end plain_lib (built loop5 4).1 loop5_end loop5_stmt false (built loop5 4).2).

Lemma loop_iterations_bounded_witness :
  exists a, loop_regions_by_end (built loop5 4).1 !! "le" = Some loop5_region /\
    parse_loop_end_args (lax_int plain_lib) (args loop5_stmt) = inl a /\ max_iterations a = 5 /\
    turned loop5_region Stream.ROOT_STREAM 5 0 true (inl tt) (loop5_turn true).2 /\
    turned loop5_region Stream.ROOT_STREAM 5 0 false (inl tt) (loop5_turn false).2.
Proof.
  destruct (parse_loop_end_args (lax_int plain_lib) (args loop5_stmt)) as [a|x] eqn:Ha; [|vm_compute in Ha; discriminate].
  assert (max_iterations a = 5) as Hmax by (vm_compute in Ha; injection Ha as <-; reflexivity).
  assert (loop_regions_by_end (built loop5 4).1 !! "le" = Some loop5_region) as Hr by (vm_compute; reflexivity).
  exists a. split; [exact Hr|]. split; [reflexivity|]. split; [exact Hmax|].
  destruct (loop_iterations_bounded plain_lib (built loop5 4).1 loop5_end loop5_stmt loop5_region a Hr Ha) as (H & _ & _).
  assert (forall cond, (loop5_turn cond).1 = inl tt) as Hok by (intros []; vm_compute; reflexivity).
  assert (forall cond, turned loop5_region Stream.ROOT_STREAM 5 0 cond (inl tt) (loop5_turn cond).2) as Hall.
  { intros cond. rewrite <- (Hok cond), <- Hmax. apply (H false cond (built loop5 4).2). apply alone_completes; [apply quiet_answers|].
    intros s. reflexivity. }
  split; apply Hall.
Defined.
