(* ===== verification/Gather.v ===== *)
(** Gathering the streams of a scatter ([DSLScheduler._handle_gather] and
    [finalize_gather_activity] of [tracecat/dsl/action.py]): the positional result
    slots, and the treatment of nulls and errors. *)

From S2P Require Import Prelude PyStr Base62 PyVal Expr DslTypes Storage StorageFacts Graph DslScopes.
From S2P Require Import Coro SchedState Scheduler SchedRun.

(** ** [finalize_gather_activity] *)

Section Finalize.
Context {bytes : Type}.
Variable lib : @StorageLib bytes.
Variable cfg : StorageConfig.
(** [ActionErrorInfoAdapter.validate_python], [None] when it raises. *)
Variable validate_error_info : pyobj -> option ActionErrorInfo.

Notation "'let>' x ':=' m 'in' k" := (mbind m (fun x => k))
  (at level 10, x pattern, m at level 100, k at level 200).

Definition _as_error_info (detail : pyobj) : option ActionErrorInfo := validate_error_info detail.

Definition is_mapping (o : pyobj) : bool :=
  match o with PVal (VDict _) => true | _ => false end.

Definition _is_error_info (detail : pyobj) : bool :=
  if negb (is_mapping detail) then false
  else match validate_error_info detail with Some _ => true | None => false end.

Definition _partition_errors (items : list pyobj) : list pyobj * list ActionErrorInfo :=
  foldl (fun '(results, errors) item =>
    match _as_error_info item with
    | Some info => (results, errors ++ [info])
    | None => (results ++ [item], errors)
    end) ([], []) items.

Definition is_null (o : pyobj) : bool := match o with PVal VNone => true | _ => false end.

Definition split_errors (strategy : StreamErrorHandlingStrategy) (values : list pyobj)
  : list pyobj * list ActionErrorInfo :=
  match strategy with
  | PARTITION | RAISE => _partition_errors values
  | DROP => (filter (fun v => _is_error_info v = false) values, [])
  | INCLUDE => (values, [])
  end.

(** The fuel is that of [retrieve_stored_object]. *)
Definition finalize_gather_activity (fuel : nat) (k : string) (collection : list stored) (drop_nulls : bool)
    (strategy : StreamErrorHandlingStrategy) : M FinalizeResult :=
  let> values := mmap (object_storage_retrieve lib cfg fuel) collection in
  let values := if drop_nulls then filter (fun v => is_null v = false) values else values in
  let '(results, errors) := split_errors strategy values in
  let> o := (if RESULT_EXTERNALIZATION_ENABLED cfg
             then _store_collection_as_refs lib cfg k (map dump_obj results)
             else mret (InlineObject (Some "list") (PList results))) in
  mret (MkFinalize o errors).

Lemma partition_spec items :
  _partition_errors items =
    (filter (fun v => _as_error_info v = None) items, omap _as_error_info items).
Proof.
  unfold _partition_errors.
  assert (forall res errs, foldl (fun '(results, errors) item =>
    match _as_error_info item with
    | Some info => (results, errors ++ [info])
    | None => (results ++ [item], errors)
    end) (res, errs) items
    = (res ++ filter (fun v => _as_error_info v = None) items, errs ++ omap _as_error_info items)) as H; [|apply H].
  induction items as [|x l IH]; intros res errs; simpl; [by rewrite !app_nil_r|].
  rewrite filter_cons. destruct (_as_error_info x) eqn:E; by rewrite IH, <- ?app_assoc.
Qed.
End Finalize.

(** ** Positional slots *)

(** The streams of a scatter write their items, each to the slot of its index. *)
Definition write_slots (ws : list (nat * stored)) (tr : TaskResult) : result TaskResult :=
  rfor (fun w tr => slot_update tr (Idx (Z.of_nat w.1)) (PStored w.2)) ws tr.

Definition empty_slots (n : nat) : TaskResult := from_result (PList (repeat PUnset n)).

Lemma slot_update_list t l name e et i ii it idx x :
  (idx < length l)%nat ->
  slot_update (MkTaskResult (InlineObject t (PList l)) name e et i ii it None) (Idx (Z.of_nat idx)) x =
    Ok (MkTaskResult (InlineObject t (PList (<[idx := x]> l))) name e et i ii it None).
Proof.
  intros Hi. unfold slot_update. simpl. rewrite (py_set_nth_lookup _ _ _ l) by (done || lia). simpl.
  unfold set_result. simpl. by rewrite Nat2Z.id.
Qed.

(** Writes to distinct slots of a list of slots. *)
Lemma write_slots_spec ws t name e et i ii it l :
  (forall w, w ∈ ws -> (w.1 < length l)%nat) ->
  write_slots ws (MkTaskResult (InlineObject t (PList l)) name e et i ii it None) =
    Ok (MkTaskResult (InlineObject t (PList (foldl (fun l w => <[w.1 := PStored w.2]> l) l ws))) name e et i ii it None).
Proof.
  revert l. induction ws as [|w ws IH]; intros l Hw; [done|]. cbn [write_slots rfor].
  unfold write_slots. cbn [rfor]. rewrite slot_update_list by (apply Hw; by left). simpl.
  apply IH. intros w' Hw'. rewrite length_insert. apply Hw. by right.
Qed.

(** The items in index order. *)
Definition slot_of (ws : list (nat * stored)) (i : nat) : option stored :=
  (list_to_map ws : gmap nat stored) !! i.

Lemma foldl_slots ws l j : NoDup (map fst ws) ->
  foldl (fun l w => <[w.1 := PStored w.2]> l) l ws !! j =
    match slot_of ws j with
    | Some s => if decide (j < length l)%nat then Some (PStored s) else None
    | None => l !! j
    end.
Proof.
  unfold slot_of. revert l. induction ws as [|[k s] ws IH]; intros l Hnd; simpl.
  - by rewrite lookup_empty.
  - apply NoDup_cons in Hnd as [Hk Hnd]. rewrite IH, length_insert by done. destruct (decide (k = j)) as [->|Hne].
    + rewrite lookup_insert_eq. rewrite not_elem_of_list_to_map_1 by done.
      case_decide; [by rewrite list_lookup_insert_eq|]. apply lookup_ge_None. rewrite length_insert. lia.
    + rewrite lookup_insert_ne by done. case_match; [done|]. by rewrite list_lookup_insert_ne.
Qed.

Lemma repeat_lookup {A} (x : A) n j : repeat x n !! j = if decide (j < n)%nat then Some x else None.
Proof.
  revert j; induction n as [|n IH]; intros [|j]; try done. simpl. rewrite IH.
  destruct (decide (j < n)%nat); [by rewrite decide_True by lia|by rewrite decide_False by lia].
Qed.

Lemma collects_in_order (lib : Lib) n ws :
  NoDup (map fst ws) -> (forall w, w ∈ ws -> (w.1 < n)%nat) ->
  exists tr, write_slots ws (empty_slots n) = Ok tr /\
    gathered_items lib tr = Ok (Some (omap (slot_of ws) (seq 0 n))).
Proof.
  intros Hnd Hn.
  unfold empty_slots, from_result, inline. eexists. split.
  { apply write_slots_spec. intros w Hw. rewrite repeat_length. by apply Hn. }
  set (l := foldl _ _ ws).
  assert (forall j, l !! j = (fun o => match o with Some s => PStored s | None => PUnset end) <$>
    (if decide (j < n)%nat then Some (slot_of ws j) else None)) as Hl.
  { intros j. unfold l. rewrite foldl_slots by done. rewrite repeat_length.
    assert (repeat PUnset n !! j = if decide (j < n)%nat then Some PUnset else None) as ->.
    { apply repeat_lookup. }
    destruct (slot_of ws j); by case_decide. }
  assert (l = (fun o => match o with Some s => PStored s | None => PUnset end) <$> (slot_of ws <$> seq 0 n)) as ->.
  { apply list_eq. intros j. rewrite Hl, !list_lookup_fmap. case_decide as Hj.
    - by rewrite lookup_seq_lt by done.
    - rewrite lookup_seq_ge by lia. done. }
  unfold gathered_items. simpl. f_equal. apply mapM_Some. clear Hl.
  induction (seq 0 n) as [|i l0 IH]; [constructor|]. cbn [fmap list_fmap omap list_omap].
  destruct (slot_of ws i); [rewrite filter_cons_True by done; constructor; [done|exact IH]|rewrite filter_cons_False by done; exact IH].
Qed.

(** A gather collects the items of its streams in index order, whatever the
    order in which the streams complete: starting from the [n] unset slots, any
    sequence of writes to distinct slots succeeds, and the items handed to the
    finalisation are the written ones by increasing index, the slots of skipped
    streams being left out. *)
Theorem gather_in_index_order (lib : Lib) (n : nat) (ws : list (nat * stored))
    (Hnd : NoDup (map fst ws)) (Hn : forall w, w ∈ ws -> (w.1 < n)%nat) :
  exists tr, write_slots ws (empty_slots n) = Ok tr /\
    gathered_items lib tr = Ok (Some (omap (slot_of ws) (seq 0 n))).
Proof. by apply collects_in_order. Qed.

Lemma gather_in_index_order_witness :
  exists tr, write_slots [(2%nat, inline (PVal (VInt 30))); (0%nat, inline (PVal (VInt 10)))] (empty_slots 4) = Ok tr /\
    gathered_items plain_lib tr = Ok (Some [inline (PVal (VInt 10)); inline (PVal (VInt 30))]).
Proof.
  apply (gather_in_index_order plain_lib 4 [(2%nat, inline (PVal (VInt 30))); (0%nat, inline (PVal (VInt 10)))]).
  - apply (bool_decide_unpack (NoDup [2%nat; 0%nat])). vm_compute. exact I.
  - intros w. rewrite elem_of_cons, list_elem_of_singleton. intros [->| ->]; simpl; lia.
Defined.

(** ** The whole gather *)

Section Pipeline.
Context {bytes : Type}.
Variable slib : @StorageLib bytes.
Variable cfg : StorageConfig.
Hypothesis Hlib : lib_ok slib.
Variable validate_error_info : pyobj -> option ActionErrorInfo.

(** Exact reads of a list of handles. *)
Lemma reads_map (w0 : @World bytes) (f : stored -> M pyobj) l ys :
  Forall2 (fun s y => reads slib w0 (f s) y) l ys -> reads slib w0 (mmap f l) ys.
Proof.
  induction 1 as [|s y l ys [H1 H2] _ [IH1 IH2]]; split; simpl.
  - by intros w x w' [= <- _].
  - intros w Hw Hi. by exists w.
  - intros w x w'. unfold mbind. destruct (f s w) as [[a|e] w1] eqn:E; [|done].
    destruct (mmap f l w1) as [[b|e] w2] eqn:E2; [|done]. intros [= <- _].
    apply H1 in E as ->. apply IH1 in E2 as ->. done.
  - intros w Hw Hi. destruct (H2 w Hw Hi) as (w1 & E & Hb & Hi1).
    destruct (IH2 w1) as (w2 & E2 & Hb2 & Hi2); [by rewrite Hb|done|].
    exists w2. unfold mbind. rewrite E, E2. split; [done|]. split; [congruence|done].
Qed.

(** What a gather does with the values of its streams: with the [partition]
    and [raise] strategies every value is either in the result or, when it is an
    error, among the reported errors, both in order; with [drop] the result is
    the same and the errors disappear; with [include] the result is all values;
    nulls are removed first when asked. *)
Theorem split_errors_spec (strategy : StreamErrorHandlingStrategy) (values : list pyobj)
    (Hmap : forall o i, validate_error_info o = Some i -> is_mapping o = true) :
  let r := split_errors validate_error_info strategy values in
  match strategy with
  | PARTITION | RAISE =>
      r.1 = filter (fun v => validate_error_info v = None) values /\ r.2 = omap validate_error_info values /\
      (length r.1 + length r.2 = length values)%nat
  | DROP => r = ((split_errors validate_error_info PARTITION values).1, [])
  | INCLUDE => r = (values, [])
  end.
Proof.
  assert (forall v, _is_error_info validate_error_info v = false <-> validate_error_info v = None) as Hiff.
  { intros v. unfold _is_error_info. destruct (is_mapping v) eqn:Em; simpl; [by case_match|].
    split; [intros _|done]. destruct (validate_error_info v) as [i|] eqn:E; [|done]. apply Hmap in E. congruence. }
  assert (length (filter (fun v => validate_error_info v = None) values) + length (omap validate_error_info values)
    = length values)%nat as Hlen.
  { induction values as [|v l IH]; [done|]. rewrite filter_cons. cbn [omap list_omap].
    destruct (validate_error_info v) eqn:E; cbn [length decide]; simpl in *; lia. }
  destruct strategy; simpl; unfold _as_error_info; rewrite ?partition_spec; simpl; [by split_and!|done| |by split_and!].
  f_equal. by apply list_filter_iff.
Qed.

(** The values a gather keeps. *)
Definition kept_values (drop_nulls : bool) (vs : list val) : list val :=
  if drop_nulls then filter (fun v => v <> VNone) vs else vs.

Lemma drop_nulls_spec (drop_nulls : bool) (l : list val) :
  (if drop_nulls then filter (fun v => is_null v = false) (map PVal l) else map PVal l)
    = map PVal (kept_values drop_nulls l).
Proof.
  unfold kept_values. destruct drop_nulls; [|done]. induction l as [|x l IH]; [done|].
  cbn [map]. assert (is_null (PVal x) = false <-> x <> VNone) as Hx by (destruct x; simpl; split; congruence).
  destruct (decide (x <> VNone)).
  - rewrite !filter_cons_True by tauto. cbn [map]. f_equal. exact IH.
  - rewrite !filter_cons_False by tauto. done.
Qed.

Lemma no_errors strategy values :
  (forall o, o ∈ values -> validate_error_info o = None) ->
  split_errors validate_error_info strategy values = (values, []).
Proof.
  intros H. assert (omap validate_error_info values = []) as Ho.
  { induction values as [|o l IH]; [done|]. cbn [omap list_omap].
    rewrite (H o) by (by left). apply IH. intros o' Ho'. apply H. by right. }
  change (omap (_as_error_info validate_error_info) values = []) in Ho.
  destruct strategy; simpl; rewrite ?partition_spec, ?Ho; try done; f_equal; apply filter_all; intros o Hin;
    [by apply H| |by apply H].
  unfold _is_error_info. rewrite (H o Hin). by destruct (is_mapping o).
Qed.

(** C37: scattering and gathering a collection is the identity: when every stream
    [i] of a scatter of [n] items hands a stored object that reads as [v i] to
    the gather, and none of the values is an error, then in whatever order the
    streams complete, the object the gather finalises to reads as the list of
    the values in index order (without the nulls, if they are dropped), whether
    objects are kept inline or externalised. *)
Theorem scatter_gather_identity (lib : Lib) (n : nat) (v : nat -> val) (s : nat -> stored) (ws : list (nat * stored))
    (fuel fuel' : nat) (k : string) (drop_nulls : bool) (strategy : StreamErrorHandlingStrategy)
    (w0 w w1 : World) (f : FinalizeResult) (tr : TaskResult) (items : list stored)
    (Hperm : ws ≡ₚ map (fun i => (i, s i)) (seq 0 n))
    (Hwrite : write_slots ws (empty_slots n) = Ok tr)
    (Hitems : gathered_items lib tr = Ok (Some items))
    (Hread : forall i, (i < n)%nat -> reads slib w0 (object_storage_retrieve slib cfg fuel (s i)) (PVal (v i)))
    (Hjson : forall i, (i < n)%nat -> json_val (v i) = true)
    (Hnoerr : forall i, (i < n)%nat -> validate_error_info (PVal (v i)) = None)
    (Hfin : finalize_gather_activity slib cfg validate_error_info fuel k items drop_nulls strategy w = (Ok f, w1))
    (Hsize : 0 < COLLECTION_CHUNK_SIZE cfg) (Hfuel : (0 < fuel')%nat)
    (Hfree : forall bk c, blobs w1 !! bk = Some c -> collision_free slib c) :
  items = map s (seq 0 n) /\ fin_errors f = [] /\
  reads slib w1 (retrieve_stored_object slib fuel' (fin_result f))
    (PList (map PVal (kept_values drop_nulls (map v (seq 0 n))))).
Proof.
  assert (NoDup (map fst ws)) as Hnd.
  { rewrite Hperm, map_map, map_id. apply NoDup_seq. }
  assert (forall w, w ∈ ws -> (w.1 < n)%nat) as Hn.
  { intros [i x]. rewrite Hperm, list_elem_of_In, in_map_iff. intros (j & [= -> _] & Hj%in_seq). simpl. lia. }
  destruct (collects_in_order lib n ws Hnd Hn) as (tr' & Hw' & Hg').
  assert (items = map s (seq 0 n)) as ->.
  { assert (tr' = tr) as -> by congruence. assert (items = omap (slot_of ws) (seq 0 n)) as -> by congruence.
    assert (forall l, (forall i, i ∈ l -> i ∈ seq 0 n) -> omap (slot_of ws) l = map s l) as H; [|by apply H].
    induction l as [|i l IH]; intros Hl; [done|].
    assert (slot_of ws i = Some (s i)) as Hs.
    { unfold slot_of. apply elem_of_list_to_map_1; [done|]. rewrite Hperm. apply list_elem_of_In, in_map_iff.
      exists i. split; [done|]. apply list_elem_of_In, Hl. by left. }
    cbn [omap list_omap map]. rewrite Hs. f_equal. apply IH. intros j Hj. apply Hl. by right. }
  split; [done|]. unfold finalize_gather_activity in Hfin. unfold mbind at 1 in Hfin.
  destruct (mmap _ _ w) as [[values|e] w2] eqn:Emap; [|done].
  assert (values = map PVal (map v (seq 0 n))) as ->.
  { refine (proj1 (reads_map w0 _ _ _ _) _ _ _ Emap). rewrite map_map. apply Forall2_fmap_2, Forall_Forall2_diag, Forall_forall.
    intros i Hi%list_elem_of_In%in_seq. apply Hread. lia. }
  set (vs := kept_values drop_nulls (map v (seq 0 n))).
  pose proof (drop_nulls_spec drop_nulls (map v (seq 0 n))) as Hvs. fold vs in Hvs.
  rewrite Hvs in Hfin.
  assert (forall x, x ∈ vs -> validate_error_info (PVal x) = None /\ json_val x = true) as Hgood.
  { intros x Hx. assert (x ∈ map v (seq 0 n)) as Hin.
    { unfold vs, kept_values in Hx. destruct drop_nulls; [by apply list_elem_of_filter in Hx as [_ ?]|done]. }
    apply list_elem_of_In, in_map_iff in Hin as (i & <- & Hi%in_seq). split; [apply Hnoerr|apply Hjson]; lia. }
  assert (split_errors validate_error_info strategy (map PVal vs) = (map PVal vs, [])) as Hsplit.
  { apply no_errors. intros o (x & <- & Hx)%list_elem_of_In%in_map_iff. apply Hgood. by apply list_elem_of_In. }
  rewrite Hsplit in Hfin. destruct (RESULT_EXTERNALIZATION_ENABLED cfg).
  - unfold mbind in Hfin. destruct (_store_collection_as_refs _ _ _ _ w2) as [[o|e] w3] eqn:Est; [|done].
    injection Hfin as <- <-. split; [done|]. simpl.
    assert (map dump_obj (map PVal vs) = vs) as Hd by (rewrite map_map; apply map_id).
    rewrite Hd in Est. apply (refs_roundtrip slib cfg Hlib k vs w2 w3 o fuel' Hfuel Est); [|done|done].
    apply forallb_elem. intros x Hx. by apply Hgood.
  - injection Hfin as <- <-. split; [done|]. simpl. split.
    + intros w3 x w4. destruct fuel'; by intros [= <- _].
    + intros w3 _ Hi. exists w3. by destruct fuel'.
Qed.
End Pipeline.

(** A concrete validator: a mapping with a [message] is an error. *)
Definition ex_validate (o : pyobj) : option ActionErrorInfo :=
  match o with
  | PVal (VDict kvs) =>
      match list_find (fun kv => kv.1 = "message") kvs with
      | Some (_, (_, VStr m)) => Some (error_info "a" m "ValueError" Stream.ROOT_STREAM VNone)
      | _ => None
      end
  | _ => None
  end.

Lemma split_errors_spec_witness :
  split_errors ex_validate PARTITION [PVal (VInt 1); PVal (VDict [("message", VStr "boom")]); PVal VNone]
    = ([PVal (VInt 1); PVal VNone], [error_info "a" "boom" "ValueError" Stream.ROOT_STREAM VNone]) /\
  split_errors ex_validate DROP [PVal (VInt 1); PVal (VDict [("message", VStr "boom")]); PVal VNone]
    = ([PVal (VInt 1); PVal VNone], []).
Proof.
  split; [vm_compute; reflexivity|].
  refine (split_errors_spec ex_validate DROP [PVal (VInt 1); PVal (VDict [("message", VStr "boom")]); PVal VNone] _).
  intros o i. destruct o as [[]| |?|?]; simpl; done.
Defined.

(** Two streams, the second completing first; the first hands over a null. *)
Definition ex_value (i : nat) : val := match i with O => VNone | S _ => VStr "big" end.
Definition ex_slots : list (nat * stored) := [(1%nat, inline (PVal (ex_value 1))); (0%nat, inline (PVal (ex_value 0)))].
Definition ex_finalized : result FinalizeResult * @World val :=
  finalize_gather_activity ex_lib ex_cfg ex_validate 2 "p" [inline (PVal VNone); inline (PVal (VStr "big"))] true RAISE ex_world.
Definition ex_final : FinalizeResult := match ex_finalized.1 with Ok f => f | Err _ => MkFinalize (inline PUnset) [] end.
Definition ex_written : TaskResult :=
  match write_slots ex_slots (empty_slots 2) with Ok tr => tr | Err _ => empty_slots 2 end.

Lemma scatter_gather_identity_witness :
  [inline (PVal VNone); inline (PVal (VStr "big"))] = map (fun i => inline (PVal (ex_value i))) (seq 0 2) /\
  fin_errors ex_final = [] /\
  reads ex_lib ex_finalized.2 (retrieve_stored_object ex_lib 2 (fin_result ex_final)) (PList [PVal (VStr "big")]).
Proof.
  apply (scatter_gather_identity ex_lib ex_cfg ex_lib_ok ex_validate plain_lib 2 ex_value
    (fun i => inline (PVal (ex_value i))) ex_slots 2 2 "p" true RAISE ex_world ex_world ex_finalized.2 ex_final ex_written).
  - apply Permutation_swap.
  - vm_compute. reflexivity.
  - vm_compute. reflexivity.
  - intros i _. split; [by intros w x w' [= <- _]|]. intros w _ Hi. by exists w.
  - intros [|[|]] ?; [done|done|lia].
  - intros [|[|]] ?; [done|done|lia].
  - vm_compute. reflexivity.
  - vm_compute. reflexivity.
  - lia.
  - apply ex_free. vm_compute. reflexivity.
Defined.
