(* ===== verification/SchedPlain.v ===== *)
(** Execution of a definition without scatter, gather and loops: the scheduler
    runs every action at most once, never before its dependencies have completed,
    and has run all of them when it returns success.  The proof relates the
    scheduler's bookkeeping to Kahn's algorithm ([Graph]). *)

From S2P Require Import Prelude PyStr Base62 PyVal Expr DslTypes Graph DslScopes DslScopesFacts.
From S2P Require Import Coro SchedState Scheduler SchedulerInv SchedulerFacts SchedRun.

(** ** [_queue_tasks] is a relaxation *)

Lemma queue_tasks_relax sd (t : TaskI) u s (ind : gmap string Z) :
  (forall v, ind !! v = indegrees s !! (v, t_stream t)) ->
  (forall v, v ∈ map fst (succ_of sd (t_ref t)) -> is_Some (ind !! v)) ->
  let s' := _queue_tasks sd t u s in
  let r := relax (map fst (succ_of sd (t_ref t))) ind in
  (forall v, r.1 !! v = indegrees s' !! (v, t_stream t)) /\
  queue s' = queue s ++ map (fun v => MkTask v (t_stream t) (t_delay t)) r.2.
Proof.
  unfold _queue_tasks. generalize (succ_of sd (t_ref t)) as l. intros l. revert s ind.
  induction l as [|[d ty] l IH]; intros s ind Hind Hdom; cbn [foldl map relax fst].
  { split; [done|]. by rewrite app_nil_r. }
  destruct (Hdom d) as [n Hn]; [by left|].
  set (s1 := queue_next sd t u (d, ty) s).
  assert (forall v, <[d := n - 1]> ind !! v = indegrees s1 !! (v, t_stream t)) as Hind1.
  { intros v. unfold s1, queue_next, task_key. simpl. rewrite <- Hind, Hn. simpl.
    destruct (n - 1 =? 0); simpl;
      (destruct (decide (d = v)) as [->|Hne]; [by rewrite !lookup_insert_eq|];
       rewrite !lookup_insert_ne by congruence; apply Hind). }
  assert (queue s1 = queue s ++ (if n - 1 =? 0 then [MkTask d (t_stream t) (t_delay t)] else [])) as Hq1.
  { unfold s1, queue_next, task_key. simpl. rewrite <- Hind, Hn. simpl.
    case_match; simpl; [done|by rewrite app_nil_r]. }
  destruct (IH s1 (<[d := n - 1]> ind) Hind1) as [H1 H2].
  { intros v Hv. apply lookup_insert_is_Some'. right. apply Hdom. by right. }
  rewrite Hn. simpl. destruct (relax (map fst l) (<[d:=n - 1]> ind)) as [ind' ready]. simpl in *.
  split; [done|]. rewrite H2, Hq1, <- app_assoc. f_equal. by case_match.
Qed.

(** [relax] depends on the in-degrees only through lookups. *)
Lemma kahn_inv_perm (nodes : list string) dp vis q q' ind :
  q ≡ₚ q' -> kahn_inv nodes dp vis q ind -> kahn_inv nodes dp vis q' ind.
Proof.
  intros Hp [H1 H2 H3 H4 H5]. split.
  - by rewrite <- Hp.
  - intros v. rewrite <- Hp. apply H2.
  - done.
  - intros v Hv. rewrite <- Hp. by apply H4.
  - done.
Qed.

(** ** The successor table *)

Definition edge_list (a : ActionStatement) : list AdjDst :=
  omap (fun dep => match edge_components_from_dep dep with Ok c => Some c | Err _ => None end) (depends_on a).

(** No action lists the same edge twice. *)
Definition no_dup_edges (acts : list ActionStatement) : Prop :=
  forall a, a ∈ acts -> NoDup (edge_list a).

Lemma dep_srcs_edge_list a : dep_srcs a = map fst (edge_list a).
Proof.
  unfold dep_srcs, edge_list. induction (depends_on a) as [|d l IH]; [done|]. simpl.
  unfold dep_src at 1. destruct (edge_components_from_dep d) as [[s t]|]; simpl; [by f_equal|done].
Qed.

(** Counting a first component in a duplicate-free list of edges. *)
Lemma occurs_fst v (l : list AdjDst) : NoDup l ->
  occurs v (map fst l) =
    ((if decide ((v, EdgeSUCCESS) ∈ l) then 1 else 0) + (if decide ((v, EdgeERROR) ∈ l) then 1 else 0))%nat.
Proof.
  induction l as [|[w t] l IH]; intros Hnd.
  - rewrite !decide_False by (by inversion 1). done.
  - apply NoDup_cons in Hnd as [Hn Hnd]. cbn [map fst]. rewrite occurs_cons, (IH Hnd).
    destruct (decide (w = v)) as [->|Hne].
    + destruct t.
      * rewrite (decide_False (P := (v, EdgeSUCCESS) ∈ l)) by done.
        rewrite (decide_True (P := (v, EdgeSUCCESS) ∈ _ :: l)) by (by left).
        assert ((v, EdgeERROR) ∈ (v, EdgeSUCCESS) :: l <-> (v, EdgeERROR) ∈ l) as He.
        { rewrite elem_of_cons. naive_solver. }
        destruct (decide ((v, EdgeERROR) ∈ l)); [rewrite decide_True by tauto|rewrite decide_False by tauto]; lia.
      * rewrite (decide_False (P := (v, EdgeERROR) ∈ l)) by done.
        rewrite (decide_True (P := (v, EdgeERROR) ∈ _ :: l)) by (by left).
        assert ((v, EdgeSUCCESS) ∈ (v, EdgeERROR) :: l <-> (v, EdgeSUCCESS) ∈ l) as He.
        { rewrite elem_of_cons. naive_solver. }
        destruct (decide ((v, EdgeSUCCESS) ∈ l)); [rewrite decide_True by tauto|rewrite decide_False by tauto]; lia.
    + assert (forall t', (v, t') ∈ (w, t) :: l <-> (v, t') ∈ l) as He.
      { intros t'. rewrite elem_of_cons. naive_solver. }
      assert (forall t', ((if decide ((v, t') ∈ (w, t) :: l) then 1 else 0)%nat)
        = (if decide ((v, t') ∈ l) then 1 else 0)%nat) as Hd.
      { intros t'. destruct (decide ((v, t') ∈ l)) as [Hx|Hx].
        - by rewrite decide_True by (by apply He).
        - by rewrite decide_False by (by rewrite He). }
      by rewrite !Hd.
Qed.

Lemma adj_temp_spec acts m : build_adj_temp acts = Ok m ->
  forall u v t, (v, t) ∈ default ∅ (m !! u) <->
    exists a, a ∈ acts /\ ref a = v /\ (u, t) ∈ edge_list a.
Proof.
  unfold build_adj_temp. intros H.
  refine (rfor_inv (fun don (m : gmap string (gset AdjDst)) => forall u v t, (v, t) ∈ default ∅ (m !! u) <->
    exists a, a ∈ don /\ ref a = v /\ (u, t) ∈ edge_list a) _ acts ∅ m _ _ H).
  - intros u v t. rewrite lookup_empty. simpl. split; [set_solver|]. intros (a & Ha & _). by inversion Ha.
  - intros don a m1 m2 IH Hin.
    assert (forall ds (m1 m2 : gmap string (gset AdjDst)), rfor (fun dep adj =>
      let! (src_ref, edge_type) := edge_components_from_dep dep in
      Ok (<[src_ref:={[(ref a, edge_type)]} ∪ default ∅ (adj !! src_ref)]> adj)) ds m1 = Ok m2 ->
      forall u v t, (v, t) ∈ default ∅ (m2 !! u) <-> (v, t) ∈ default ∅ (m1 !! u) \/
        (v = ref a /\ (u, t) ∈ (omap (fun dep => match edge_components_from_dep dep with Ok c => Some c | Err _ => None end) ds))) as Hinner.
    { clear. induction ds as [|d ds IH]; intros m1 m2; simpl.
      - intros [= <-] u v t. split; [by left|]. intros [?|[_ Hx]]; [done|by inversion Hx].
      - intros H u v t. apply rbind_Ok in H as (m3 & H1 & H2). apply rbind_Ok in H1 as ([s t'] & Hd & Hm).
        injection Hm as <-. rewrite Hd. rewrite (IH _ _ H2 u v t), elem_of_cons.
        destruct (decide (s = u)) as [->|Hne].
        + rewrite lookup_insert_eq. simpl. set_solver.
        + rewrite lookup_insert_ne by done. set_solver. }
    intros u v t. rewrite (Hinner _ _ _ Hin u v t), IH. setoid_rewrite elem_of_app.
    setoid_rewrite list_elem_of_singleton. fold (edge_list a). naive_solver.
Qed.

Lemma succ_of_spec acts adj u : wf_actions acts -> build_adj acts = Ok adj -> u ∈ refs acts ->
  let l : list AdjDst := default [] (adj !! u) in
  NoDup l /\ forall v t, (v, t) ∈ l <-> exists a, a ∈ acts /\ ref a = v /\ (u, t) ∈ edge_list a.
Proof.
  intros Hwf H Hu l. subst l. unfold build_adj in H. apply rbind_Ok in H as (m & Hm & H). injection H as <-.
  assert ((list_to_map (map (fun a => (ref a, sorted_adj m (ref a))) acts) : gmap string (list AdjDst)) !! u
    = Some (sorted_adj m u)) as ->.
  { apply elem_of_list_to_map_1.
    - rewrite map_map. simpl. apply (wf_refs _ Hwf).
    - apply list_elem_of_In, in_map_iff in Hu as (a & <- & Ha). apply list_elem_of_In, in_map_iff. eauto. }
  simpl. assert (sorted_adj m u ≡ₚ elements (default ∅ (m !! u))) as Hp by apply merge_sort_Permutation.
  split.
  - rewrite Hp. apply NoDup_elements.
  - intros v t. rewrite Hp, elem_of_elements. by apply adj_temp_spec.
Qed.

(** ** The coroutine of an ordinary action *)

Section PlainTask.
Variable lib : Lib.
Variable sd : Static.

(** A segment that leaves the bookkeeping of tasks alone. *)
Definition quiet (s s' : Sched) : Prop :=
  queue s' = queue s /\ indegrees s' = indegrees s /\
  completed_tasks s' = completed_tasks s /\ task_exceptions s' = task_exceptions s.

#[local] Instance quiet_preorder : PreOrder quiet.
Proof. split; [by intros s|]. intros s1 s2 s3 (?&?&?&?) (?&?&?&?). repeat split; congruence. Qed.

(** Between two segments anything may happen; answers are not cancellations. *)
Definition calm {A} (m : sprog A) : Prop :=
  forall s, safe not_cancelled any_state quiet (fun s0 r s => quiet s0 s /\ r <> inr ExcCancelled) s (m s).

Lemma calm_ret {A} (a : A) : calm (ret a).
Proof. by intros s. Qed.
Lemma calm_throw {A} x : x <> ExcCancelled -> calm (throw x : sprog A).
Proof. intros Hx s. split; [done|]. congruence. Qed.
Lemma calm_gets {A} (f : Sched -> A) : calm (gets f).
Proof. by intros s. Qed.
Lemma calm_modify f : (forall s, quiet s (f s)) -> calm (modify f).
Proof. intros Hf s. by split. Qed.
Lemma calm_lift {A} (r : result A) : calm (lift r).
Proof. destruct r as [a|e]; intros s; (split; [done|]); [done|]. unfold exc_of. by case_match. Qed.
Lemma calm_await e : calm (await e).
Proof.
  intros s. split; [done|]. split; [done|]. intros r s' Hr _. split; [done|].
  intros ->. by destruct e.
Qed.

Lemma calm_bind {A B} (m : sprog A) (f : A -> sprog B) : calm m -> (forall a, calm (f a)) -> calm (bind m f).
Proof.
  intros Hm Hf s. apply safe_bind. eapply safe_weaken; [|apply Hm].
  intros s0 [a|x] s' [Hq Hr]; simpl; [|split; [done|congruence]].
  eapply (safe_trans _ _ _ _ s0 s'); [|done|apply Hf]. intros r s2 [? ?]. split; [by etrans|done].
Qed.

Lemma calm_wrap {A} msg (m : sprog A) : calm m -> calm (wrap_error msg m).
Proof.
  intros Hm s. apply safe_catch. eapply safe_weaken; [|apply Hm].
  intros s0 [a|x] s' [Hq Hr]; simpl; [done|]. by destruct (is_exception x).
Qed.

Lemma calm_should_skip t stmt : calm (_task_should_skip lib t stmt).
Proof.
  unfold _task_should_skip, stream_aware_context, resolve_expression. case_match; [|apply calm_ret].
  apply calm_bind; [apply calm_bind; [apply calm_gets|intros; apply calm_lift]|]. intros c.
  apply calm_bind; [apply calm_wrap, calm_await|]. intros v. apply calm_ret.
Qed.

(** The executor's answers never carry a cancellation either. *)
Lemma calm_execute t : calm (_execute t).
Proof.
  intros s. split; [done|]. split; [done|]. intros r s' Hr _. destruct r as [a|x]; simpl in Hr.
  - change (safe not_cancelled any_state quiet (fun s0 r s => quiet s0 s /\ r <> inr ExcCancelled) s'
      (bind (match ex_write a with
             | Some tr => bind (action_context (t_stream t)) (fun addr => modify (set_action addr (t_ref t) tr))
             | None => ret tt end) (fun _ => match ex_raise a with Some x => throw x | None => ret tt end) s')).
    apply calm_bind.
    + case_match; [|apply calm_ret]. apply calm_bind; [|intros; by apply calm_modify].
      apply calm_bind; [apply calm_gets|intros; apply calm_lift].
    + intros _. destruct (ex_raise a); [apply calm_throw; congruence|apply calm_ret].
  - split; [done|]. congruence.
Qed.

(** The successors of a task were queued, for some set of pruned edges. *)
Definition fired (t : TaskI) (s0 s : Sched) : Prop :=
  exists u, let s1 := _queue_tasks sd t u s0 in
  queue s = queue s1 /\ indegrees s = indegrees s1 /\ completed_tasks s = completed_tasks s0 /\
  task_exceptions s = task_exceptions s0.

Lemma queue_tasks_congr t u s s' : quiet s s' ->
  queue (_queue_tasks sd t u s) = queue (_queue_tasks sd t u s') /\
  indegrees (_queue_tasks sd t u s) = indegrees (_queue_tasks sd t u s').
Proof.
  intros (Hq & Hi & _ & _). unfold _queue_tasks. revert s s' Hq Hi.
  induction (succ_of sd (t_ref t)) as [|[d ty] l IH]; intros s s' Hq Hi; [done|]. cbn [foldl].
  apply IH; unfold queue_next; simpl; rewrite Hi; case_match; simpl; congruence.
Qed.

Lemma quiet_fired t s0 s1 s : quiet s0 s1 -> fired t s1 s -> fired t s0 s.
Proof.
  intros Hq (u & H1 & H2 & H3 & H4). exists u. destruct (queue_tasks_congr t u s0 s1 Hq) as [E1 E2].
  destruct Hq as (? & ? & ? & ?). repeat split; congruence.
Qed.

Lemma fired_queue t u s : fired t s (_queue_tasks sd t u s).
Proof. exists u. destruct (queue_tasks_frame sd t u s) as (? & ? & ? & ->). done. Qed.

(** What running an ordinary task ends with: its successors queued, or an
    exception that is not a cancellation, nothing queued. *)
Definition ran (t : TaskI) (s0 : Sched) (r : unit + exc) (s : Sched) : Prop :=
  match r with
  | inl _ => fired t s0 s
  | inr x => quiet s0 s /\ x <> ExcCancelled
  end.

Lemma ran_trans t s0 s1 r s : quiet s0 s1 -> ran t s1 r s -> ran t s0 r s.
Proof.
  intros Hq. destruct r; simpl; [by apply quiet_fired|]. intros [? ?]. split; [by etrans|done].
Qed.

(** A calm prefix before a computation that ends with [ran]. *)
Lemma ran_bind {A} t (m : sprog A) (f : A -> sprog unit) :
  calm m -> (forall a s, safe not_cancelled any_state quiet (ran t) s (f a s)) ->
  forall s, safe not_cancelled any_state quiet (ran t) s (bind m f s).
Proof.
  intros Hm Hf s. apply safe_bind. eapply safe_weaken; [|apply Hm].
  intros s0 [a|x] s' [Hq Hr]; simpl; [|split; [done|congruence]].
  eapply (safe_trans _ _ _ _ s0 s'); [|done|apply Hf]. intros r s2. by apply ran_trans.
Qed.

(** An action that is no scatter, gather, loop start or loop end. *)
Definition ordinary (a : ActionStatement) : bool := negb (is_opener (action a)) && negb (is_closer (action a)).

Lemma ordinary_kind a : ordinary a = true ->
  action a <> PlatformAction.LOOP_START /\ action a <> PlatformAction.LOOP_END /\
  action a <> PlatformAction.TRANSFORM_SCATTER /\ action a <> PlatformAction.TRANSFORM_GATHER.
Proof.
  unfold ordinary. rewrite andb_true_iff, !negb_true_iff. unfold is_opener, is_closer.
  rewrite !bool_decide_eq_false. unfold SCOPE_OPENER_ACTIONS, SCOPE_CLOSER_ACTIONS.
  intros [Ho Hc]. repeat split; intros He; rewrite He in *; [apply Ho|apply Hc|apply Ho|apply Hc]; set_solver.
Qed.

Lemma ran_queue t u s : safe not_cancelled any_state quiet (ran t) s (queue_tasks sd t u s).
Proof. simpl. apply fired_queue. Qed.

Lemma ran_skip_path t stmt s : ordinary stmt = true ->
  safe not_cancelled any_state quiet (ran t) s (_handle_skip_path lib sd t stmt s).
Proof.
  intros (H1 & H2 & H3 & H4)%ordinary_kind. unfold _handle_skip_path.
  rewrite !decide_False by done. apply ran_queue.
Qed.

Lemma ran_dispatch t stmt s : ordinary stmt = true ->
  safe not_cancelled any_state quiet (ran t) s (dispatch lib sd t stmt s).
Proof.
  intros (H1 & H2 & H3 & H4)%ordinary_kind. unfold dispatch. rewrite !decide_False by done.
  apply ran_bind; [apply calm_execute|]. intros _ s'. apply fired_queue.
Qed.
Definition early (t : TaskI) (s0 : Sched) (r : bool * option exc + exc) (s : Sched) : Prop :=
  match r with
  | inl (true, None) => fired t s0 s
  | inl (true, Some _) => False
  | inl (false, o) => quiet s0 s /\ o <> Some ExcCancelled
  | inr x => quiet s0 s /\ x <> ExcCancelled
  end.

Lemma early_trans t s0 s1 r s : quiet s0 s1 -> early t s1 r s -> early t s0 r s.
Proof.
  intros Hq. destruct r as [[[|] [o|]]|x]; simpl; try done; [by apply quiet_fired|..];
    intros [? ?]; (split; [by etrans|done]).
Qed.

Lemma safe_early_run_if t stmt s : ordinary stmt = true ->
  safe not_cancelled any_state quiet (early t) s (early_run_if lib sd t stmt s).
Proof.
  intros Hk. unfold early_run_if. destruct (run_if stmt) as [cond|]; [|by simpl].
  apply safe_catch. apply safe_bind. eapply safe_weaken; [|apply calm_should_skip].
  intros s0 [b|x] s1 [Hq Hr]; simpl.
  - destruct b; [|simpl; by split].
    eapply (safe_trans _ _ _ _ s0 s1).
    + intros [[[|] o]|x] s2; simpl; [..|].
      * destruct o; [done|]. by apply quiet_fired.
      * intros [? ?]. split; [by etrans|done].
      * destruct (is_application_error x).
        { simpl. intros [? ?]. split; [by etrans|congruence]. }
        { intros [? ?]. split; [by etrans|done]. }
    + done.
    + apply safe_bind. eapply safe_weaken; [|by apply (ran_skip_path t stmt s1)].
      intros s2 [[]|x] s3; simpl; [done|]. intros [? ?].
      destruct (is_application_error x); simpl; [|done]. split; [done|congruence].
  - assert (x <> ExcCancelled) by congruence.
    destruct (is_application_error x); simpl; [|done]. split; [done|congruence].
Qed.

Lemma safe_run_task t d stmt s : ordinary stmt = true ->
  safe not_cancelled any_state quiet (ran t) s (run_task lib sd t d stmt s).
Proof.
  intros Hk. unfold run_task. apply ran_bind; [apply calm_gets|]. clear s. intros force s.
  destruct force; [by apply ran_skip_path|].
  apply safe_bind. eapply safe_weaken; [|by apply safe_early_run_if].
  intros s0 [[[|] o]|x] s1; simpl.
  - by destruct o.
  - intros [Hq Ho]. eapply (safe_trans _ _ _ _ s0 s1); [intros r s2; by apply ran_trans|done|].
    apply ran_bind; [apply calm_gets|]. intros reachable s2. destruct (negb reachable); [by simpl|].
    destruct o as [x|]; [simpl; split; [done|congruence]|].
    apply ran_bind; [case_match; [apply calm_await|apply calm_ret]|]. intros _ s3. by apply ran_dispatch.
  - intros [? ?]. done.
Qed.

(** The whole task: its successors are queued and it is marked completed, or the
    scheduler has failed. *)
Definition finished (t : TaskI) (s0 s : Sched) : Prop :=
  (exists u, let s1 := _queue_tasks sd t u s0 in
     queue s = queue s1 /\ indegrees s = indegrees s1 /\
     completed_tasks s = {[ task_key t ]} ∪ completed_tasks s0 /\ task_exceptions s = task_exceptions s0)
  \/ failed s.

Lemma quiet_finished t s0 s1 s : quiet s0 s1 -> finished t s1 s -> finished t s0 s.
Proof.
  intros Hq [(u & H1 & H2 & H3 & H4)|?]; [|by right]. left. exists u.
  destruct (queue_tasks_congr t u s0 s1 Hq) as [E1 E2].
  destruct Hq as (? & ? & ? & ?). repeat split; congruence.
Qed.

Lemma error_path_finished t x f s : t_stream t = Stream.ROOT_STREAM ->
  finished t s (set_completed ({[ task_key t ]} ∪ completed_tasks (_handle_error_path sd t x f s))
                  (_handle_error_path sd t x f s)).
Proof.
  intros Ht. unfold _handle_error_path. destruct (_ && _) eqn:E.
  - left. exists (out_edges sd (t_ref t) (t_stream t) non_error).
    destruct (queue_tasks_frame sd t (out_edges sd (t_ref t) (t_stream t) non_error) s) as (? & ? & ? & Heq).
    cbv zeta. rewrite Heq. done.
  - right. rewrite bool_decide_eq_true_2 by done. simpl. unfold failed. simpl. apply insert_non_empty.
Qed.

Lemma safe_schedule_task ti stmt s :
  tasks sd (t_ref ti) = Some stmt -> ordinary stmt = true ->
  t_stream ti = Stream.ROOT_STREAM -> t_delay ti = no_delay ->
  safe not_cancelled any_state quiet (fun s0 _ s => finished ti s0 s) s (_schedule_task lib sd ti s).
Proof.
  intros Ht Hk Hst Hd. unfold _schedule_task. rewrite Ht, Hd.
  change (if positive_delay no_delay then MkTask (t_ref ti) (t_stream ti) no_delay else ti) with ti.
  apply safe_finally. apply safe_catch. eapply safe_weaken; [|by apply safe_run_task].
  intros s0 [[]|x] s1; simpl.
  - intros (u & H1 & H2 & H3 & H4). left. exists u. simpl. repeat split; congruence.
  - intros [Hq Hx]. destruct (is_exception x) eqn:Ex; [|by destruct x].
    destruct (unwrap_platform x) as [x' f]. simpl. eapply quiet_finished; [exact Hq|].
    by apply error_path_finished.
Qed.
End PlainTask.

(** ** The whole run *)

Definition running_task (t : aio) : option TaskI :=
  match t with
  | NotStarted ti | Suspended ti _ _ => Some ti
  | Finished => None
  end.

(** The tasks in flight. *)
Definition running (l : list aio) : list TaskI := omap running_task l.

Section Plain.
Variable lib : Lib.
Variable sd : Static.
Hypothesis Hwf : wf_actions (actions sd).
Hypothesis Hordinary : forall a, a ∈ actions sd -> ordinary a = true.
Hypothesis Hgraph : graph_ok (refs (actions sd)) (deps (actions sd)) (fun u => map fst (succ_of sd u)).

#[local] Instance quiet_pre : PreOrder quiet := quiet_preorder.

(** A task of the definition, in the root stream, without delay. *)
Definition root_task (t : TaskI) : Prop :=
  t_ref t ∈ refs (actions sd) /\ t_stream t = Stream.ROOT_STREAM /\ t_delay t = no_delay.

Definition task_safe (t : aio) : Prop :=
  match t with
  | Suspended ti e k => forall r s, not_cancelled e r ->
      safe not_cancelled any_state quiet (fun s0 _ s => finished sd ti s0 s) s (k r s)
  | _ => True
  end.

(** [vis]: the completed actions in order; queued and running actions are the
    ready ones of Kahn's algorithm. *)
Record plain_inv (s : Sched) (l : list aio) (vis : list string) (ind : gmap string Z) : Prop := {
  pi_ind : forall v, ind !! v = indegrees s !! (v, Stream.ROOT_STREAM);
  pi_kahn : kahn_inv (refs (actions sd)) (deps (actions sd)) vis (map t_ref (queue s ++ running l)) ind;
  pi_root : Forall root_task (queue s ++ running l);
  pi_done : forall r st, (r, st) ∈ completed_tasks s <-> st = Stream.ROOT_STREAM /\ r ∈ vis;
  pi_safe : Forall task_safe l }.

Definition plain_ok (y : Sys) : Prop :=
  failed (sched y) \/ exists vis ind, plain_inv (sched y) (pending y) vis ind.

Lemma running_app l l' : running (l ++ l') = running l ++ running l'.
Proof. apply omap_app. Qed.

Lemma running_discard l : running (discard_done l) = running l.
Proof.
  unfold running, discard_done. induction l as [|t l IH]; [done|]. rewrite filter_cons.
  destruct t; [rewrite decide_True by done; simpl; f_equal; exact IH..|rewrite decide_False by done; exact IH].
Qed.

Lemma running_same i l t t' : l !! i = Some t -> running_task t' = running_task t ->
  running (<[i := t']> l) = running l.
Proof.
  unfold running. revert i; induction l as [|u l IH]; intros [|i] Hi Ht; try done; simpl in *.
  - injection Hi as ->. by rewrite Ht.
  - specialize (IH i Hi Ht). destruct (running_task u); [f_equal|]; exact IH.
Qed.

Lemma running_finish i l t ti : l !! i = Some t -> running_task t = Some ti ->
  running l ≡ₚ ti :: running (<[i := Finished]> l).
Proof.
  unfold running. revert i; induction l as [|u l IH]; intros [|i] Hi Ht; try done; simpl in *.
  - injection Hi as ->. by rewrite Ht.
  - specialize (IH i Hi Ht). destruct (running_task u) as [x|]; [|exact IH].
    etrans; [apply perm_skip, IH|apply perm_swap].
Qed.

(** Moving tasks from the queue to the pending set, or dropping finished ones. *)
Lemma plain_inv_move s s' l l' vis ind :
  plain_inv s l vis ind -> queue s' ++ running l' ≡ₚ queue s ++ running l ->
  indegrees s' = indegrees s -> completed_tasks s' = completed_tasks s -> Forall task_safe l' ->
  plain_inv s' l' vis ind.
Proof.
  intros [H1 H2 H3 H4 H5] Hp Hi Hc Hl. split.
  - by rewrite Hi.
  - eapply kahn_inv_perm; [|exact H2]. by rewrite Hp.
  - by rewrite Hp.
  - by rewrite Hc.
  - done.
Qed.

Lemma quiet_step s s' l i t t' vis ind :
  plain_inv s l vis ind -> quiet s s' -> l !! i = Some t -> running_task t' = running_task t -> task_safe t' ->
  plain_inv s' (<[i := t']> l) vis ind.
Proof.
  intros Hinv (Hq & Hi & Hc & _) Hl Hr Hs. eapply plain_inv_move; [exact Hinv|..|done|done|].
  - by rewrite Hq, (running_same i l t t').
  - apply Forall_insert; [apply Hinv|done].
Qed.

(** A task that finishes is the next node of Kahn's algorithm. *)
Lemma finish_step s s' l i t ti vis ind :
  plain_inv s l vis ind -> l !! i = Some t -> running_task t = Some ti -> finished sd ti s s' ->
  failed s' \/ exists vis' ind', plain_inv s' (<[i := Finished]> l) vis' ind'.
Proof.
  intros Hinv Hl Hr [(u & Hq & Hi & Hc & _)|Hf]; [right|by left].
  pose proof (running_finish i l t ti Hl Hr) as Hperm.
  assert (root_task ti) as (Hti & Hst & Hdel).
  { eapply Forall_forall; [apply (pi_root _ _ _ _ Hinv)|]. rewrite Hperm. set_solver. }
  assert (map t_ref (queue s ++ running l) ≡ₚ
    t_ref ti :: map t_ref (queue s ++ running (<[i := Finished]> l))) as Hp2.
  { rewrite !map_app, Hperm. simpl. by rewrite Permutation_middle. }
  pose proof (kahn_inv_perm _ _ _ _ _ _ Hp2 (pi_kahn _ _ _ _ Hinv)) as Hk.
  pose proof (kahn_inv_step _ _ _ Hgraph vis (t_ref ti) _ ind Hk) as Hk'.
  destruct (queue_tasks_relax sd ti u s ind) as [R1 R2].
  { intros v. rewrite Hst. apply (pi_ind _ _ _ _ Hinv). }
  { intros v Hv. eexists. apply (ki_ind _ _ _ _ _ Hk). by eapply (adj_closed _ _ _ Hgraph). }
  set (rl := relax (map fst (succ_of sd (t_ref ti))) ind) in *.
  assert (Forall (fun v => v ∈ refs (actions sd)) rl.2) as Hready.
  { apply Forall_forall. intros v Hv. apply (ki_nodes _ _ _ _ _ Hk'). set_solver. }
  exists (vis ++ [t_ref ti]), rl.1. split.
  - intros v. rewrite Hi, R1. by rewrite Hst.
  - eapply kahn_inv_perm; [|exact Hk']. rewrite Hq, R2, !map_app, map_map. simpl. rewrite map_id.
    rewrite <- !app_assoc. f_equiv. apply Permutation_app_comm.
  - rewrite Hq, R2. apply Forall_app. split; [apply Forall_app; split|].
    + pose proof (pi_root _ _ _ _ Hinv) as Hall. by apply Forall_app in Hall as [? _].
    + apply Forall_forall. intros x (v & <- & Hv)%list_elem_of_In%in_map_iff.
      split; [|done]. eapply (Forall_forall (fun v => v ∈ refs (actions sd)) rl.2); [done|].
      by apply list_elem_of_In.
    + pose proof (pi_root _ _ _ _ Hinv) as Hall. apply Forall_app in Hall as [_ Hall].
      rewrite Hperm in Hall. by inversion Hall.
  - intros r st. rewrite Hc, elem_of_union, elem_of_singleton, (pi_done _ _ _ _ Hinv), elem_of_app,
      list_elem_of_singleton. unfold task_key. rewrite Hst. naive_solver.
  - apply Forall_insert; [apply Hinv|done].
Qed.

(** A coroutine's segment. *)
Lemma settle_step s s' l i t ti c t' vis ind :
  plain_inv s l vis ind -> l !! i = Some t -> running_task t = Some ti ->
  safe not_cancelled any_state quiet (fun s0 _ s => finished sd ti s0 s) s c -> settle ti c = (s', t') ->
  failed s' \/ exists vis' ind', plain_inv s' (<[i := t']> l) vis' ind'.
Proof.
  intros Hinv Hl Hr Hc Hs. destruct c as [s1 r|s1 e k]; simpl in *; injection Hs as <- <-.
  - by eapply finish_step.
  - destruct Hc as (_ & Hq & Hk). right. exists vis, ind. eapply quiet_step; [done..|].
    intros r s2 Hr2. by apply Hk.
Qed.

Lemma spawn_plain q s l n vis ind :
  (exists s1, plain_inv s1 l vis ind /\ queue s1 = q /\ indegrees s1 = indegrees s /\ completed_tasks s1 = completed_tasks s) ->
  exists vis ind, plain_inv (sched (spawn sd q s l n)) (pending (spawn sd q s l n)) vis ind.
Proof.
  revert l n; induction q as [|ti q IH]; intros l n (s1 & Hinv & Hq & Hi & Hc); simpl.
  - assert (plain_inv (set_queue [] s) l vis ind).
    { eapply plain_inv_move; [exact Hinv|by rewrite Hq|done|done|apply Hinv]. }
    destruct l; [|by eauto]. unfold leave_loop. case_decide; eauto.
  - assert (Forall task_safe (l ++ [NotStarted ti])) as Hsafe.
    { apply Forall_app. split; [apply Hinv|by repeat constructor]. }
    assert (forall q', q' = q -> plain_inv (set_queue q' s) (l ++ [NotStarted ti]) vis ind) as Hmove.
    { intros q' ->. eapply plain_inv_move; [exact Hinv| |done|done|done].
      rewrite Hq, running_app. simpl. rewrite app_assoc, Permutation_app_comm. done. }
    case_match.
    + case_match; [by eauto|]. apply IH. exists (set_queue q s). split; [by apply Hmove|]. done.
    + exists vis, ind. eapply plain_inv_move; [exact Hinv|by rewrite Hq|done|done|apply Hinv].
Qed.

Lemma outer_plain s l : (exists vis ind, plain_inv s l vis ind) ->
  forall n, plain_ok (spawn_loop sd s (discard_done l) n) /\ plain_ok (outer_loop sd s l).
Proof.
  intros (vis & ind & Hinv) n.
  assert (plain_inv s (discard_done l) vis ind) as Hd.
  { eapply plain_inv_move; [exact Hinv|by rewrite running_discard|done|done|].
    apply Forall_forall. intros t [_ Ht]%list_elem_of_filter. eapply Forall_forall; [apply Hinv|done]. }
  assert (forall n, plain_ok (spawn_loop sd s (discard_done l) n)) as Hsp.
  { intros m. unfold spawn_loop. case_decide as Hex; [|left; unfold leave_loop; by rewrite decide_False].
    right. apply (spawn_plain _ _ _ _ vis ind). eauto. }
  split; [done|]. unfold outer_loop. case_decide as Hex; [|left; unfold leave_loop; by rewrite decide_False].
  repeat case_match; try apply Hsp. right. unfold leave_loop. case_decide; eauto.
Qed.

(** A queued task of a plain definition runs safely. *)
Lemma started_safe s l i ti vis ind :
  plain_inv s l vis ind -> l !! i = Some (NotStarted ti) ->
  safe not_cancelled any_state quiet (fun s0 _ s => finished sd ti s0 s) s (_schedule_task lib sd ti s).
Proof.
  intros Hinv Hi. assert (root_task ti) as (Hti & Hs & Hd).
  { eapply Forall_forall; [apply (pi_root _ _ _ _ Hinv)|]. apply elem_of_app. right.
    apply list_elem_of_omap. exists (NotStarted ti). split; [by eapply list_elem_of_lookup_2|done]. }
  destruct (find_action_ref _ _ Hti) as [stmt Hstmt].
  apply (safe_schedule_task lib sd ti stmt); [done|apply Hordinary; by apply find_action_Some in Hstmt as [? _]|done..].
Qed.

Lemma step_plain y y' : main_ok sd y -> stays_failed (sched y) (sched y') -> plain_ok y -> step lib sd y y' -> plain_ok y'.
Proof.
  intros Hmain Hstay [Hf|(vis & ind & Hinv)] Hstep; [left; by apply Hstay|].
  destruct Hstep as
    [s l i ti m s' t Hi Hst|s l i ti e k r m s' t Hi Hk Hst|s l n|s l i Hi|s l i ti Hi|s l Hfin]; simpl in *.
  - eapply settle_step; [exact Hinv|exact Hi|done|by eapply started_safe|exact Hst].
  - assert (m = Cancelling \/ m <> Cancelling) as [->|Hne] by (destruct m; auto; by right).
    { left. apply Hstay. by apply (mo_cancel _ _ Hmain). }
    pose proof (Forall_lookup_1 _ _ _ _ (pi_safe _ _ _ _ Hinv) Hi) as Hsafe. simpl in Hsafe.
    eapply settle_step; [exact Hinv|exact Hi|done| |exact Hst]. apply Hsafe. by apply Hk.
  - eapply outer_plain. eauto.
  - eapply (outer_plain s l); [eauto|exact 0].
  - left. by apply (mo_cancel _ _ Hmain).
  - left. by apply (mo_cancel _ _ Hmain).
Qed.

(** The initial in-degrees. *)
Lemma initial_indegree context a : a ∈ actions sd ->
  indegrees (initial_state (actions sd) context) !! (ref a, Stream.ROOT_STREAM) = Some (Z.of_nat (length (depends_on a))).
Proof.
  intros Ha. simpl. apply elem_of_list_to_map_1.
  - rewrite map_map. simpl. pose proof (wf_refs _ Hwf) as Hnd. unfold refs in Hnd.
    rewrite <- (map_map ref (fun r => (r, Stream.ROOT_STREAM))). apply NoDup_fmap; [intros ?? [= ->]; done|done].
  - apply list_elem_of_In, in_map_iff. exists a. split; [done|]. by apply list_elem_of_In.
Qed.

Lemma initial_ind context v :
  (list_to_map (map (fun v => (v, Z.of_nat (length (deps (actions sd) v)))) (refs (actions sd))) : gmap string Z) !! v
  = indegrees (initial_state (actions sd) context) !! (v, Stream.ROOT_STREAM).
Proof.
  destruct (decide (v ∈ refs (actions sd))) as [Hv|Hv].
  - destruct (find_action_ref _ _ Hv) as [a Ha]. pose proof (find_action_Some _ _ _ Ha) as [Hin <-].
    rewrite initial_indegree by done. apply elem_of_list_to_map_1.
    + rewrite map_map. simpl. rewrite map_id. apply (wf_refs _ Hwf).
    + apply list_elem_of_In, in_map_iff. exists (ref a). split; [|by apply list_elem_of_In].
      rewrite (deps_in _ _ _ Ha). by rewrite (dep_srcs_length _ Hwf).
  - etrans; [apply not_elem_of_list_to_map_1|symmetry; simpl; apply not_elem_of_list_to_map_1].
    + change (v ∉ map fst (map (fun v => (v, Z.of_nat (length (deps (actions sd) v)))) (refs (actions sd)))).
      rewrite map_map. simpl. by rewrite map_id.
    + intros Hx. apply list_elem_of_In, in_map_iff in Hx as (p & Hp & Hx).
      apply in_map_iff in Hx as (a & <- & Ha). simpl in Hp. injection Hp as <-.
      apply Hv, refs_in. by apply list_elem_of_In.
Qed.

Lemma initial_queue_refs context :
  map t_ref (initial_queue sd (initial_state (actions sd) context)) =
  filter (fun v => deps (actions sd) v = []) (refs (actions sd)).
Proof.
  unfold initial_queue.
  assert (forall a, a ∈ actions sd ->
    (indegrees (initial_state (actions sd) context) !! (ref a, Stream.ROOT_STREAM) = Some 0 <-> deps (actions sd) (ref a) = [])) as Hiff.
  { intros a Ha. rewrite initial_indegree by done.
    rewrite (deps_in _ (ref a) a) by (apply find_action_in; [apply Hwf|done]).
    rewrite <- (dep_srcs_length _ Hwf) by done. destruct (dep_srcs a); simpl; split; done. }
  revert Hiff. generalize (indegrees (initial_state (actions sd) context)) as I0, (deps (actions sd)) as D.
  intros I0 D Hiff. rewrite map_map. simpl. unfold refs. clear Hwf Hordinary Hgraph. induction (actions sd) as [|a l IH]; [done|].
  simpl. rewrite !filter_cons. specialize (IH ltac:(intros b Hb; apply Hiff; by right)).
  destruct (decide (D (ref a) = [])) as [Hd|Hd].
  - rewrite decide_True by (apply Hiff; [by left|done]). simpl. by f_equal.
  - rewrite decide_False by (intros Hx; apply Hd, Hiff; [by left|done]). done.
Qed.

(** Reachable configurations of a plain definition. *)
Lemma reachable_plain y context :
  1 <= max_pending_tasks sd -> reachable lib sd (initial_state (actions sd) context) y -> main_ok sd y /\ plain_ok y.
Proof.
  intros Hmax Hr. set (s0 := initial_state (actions sd) context) in *.
  assert (plain_ok (start sd s0)) as Hst.
  { unfold start. eapply (outer_plain _ []); [|exact 0].
    exists [], (list_to_map (map (fun v => (v, Z.of_nat (length (deps (actions sd) v)))) (refs (actions sd)))).
    assert (Forall root_task (initial_queue sd s0)) as Hroot.
    { unfold initial_queue. apply Forall_forall. intros x (a & <- & Ha)%list_elem_of_In%in_map_iff.
      apply list_elem_of_In, list_elem_of_filter in Ha as [_ Ha]. split; [by apply refs_in|done]. }
    split; simpl; rewrite ?app_nil_r; [apply (initial_ind context)| |done| |constructor].
    - unfold s0. rewrite initial_queue_refs. by eapply kahn_inv_init.
    - intros r st. split; [intros Hx; by apply elem_of_empty in Hx|]. intros [_ Hx]. by inversion Hx. }
  unfold reachable in Hr.
  split; [by apply (reachable_main lib sd s0 y Hmax)|].
  refine (rtc_ind_r plain_ok (start sd s0) Hst _ y Hr). intros y1 y2 Hr1 H12 H1.
  destruct (reachable_main lib sd s0 y1 Hmax Hr1) as [Hm1 Hstay].
  apply (step_plain y1 y2); auto.
Qed.
End Plain.

(** ** The theorem, from the constructor *)

Lemma edge_list_in a u t : (u, t) ∈ edge_list a <-> exists dep, dep ∈ depends_on a /\ edge_components_from_dep dep = Ok (u, t).
Proof.
  unfold edge_list. rewrite list_elem_of_omap. split; intros (dep & Hd & He); exists dep; (split; [done|]).
  - destruct (edge_components_from_dep dep); naive_solver.
  - by rewrite He.
Qed.

(** What a successful construction gives. *)
Lemma init_spec acts max ws context sd s0 : init acts max ws context = Some (Ok (sd, s0)) ->
  actions sd = acts /\ s0 = initial_state acts context /\ 1 <= max_pending_tasks sd /\
  (exists adj, build_adj acts = Ok adj /\ SchedState.adj sd = adj) /\
  exists cadj sc, _to_adjacency acts = Ok cadj /\ _assign_action_scopes acts cadj = Some (Ok sc).
Proof.
  unfold init. destruct (Z.ltb_spec max 1) as [|Hmax]; [done|].
  destruct (build_adj acts) as [adj|] eqn:Ea; [|done].
  destruct (_to_adjacency acts) as [cadj|] eqn:Ec; [|done].
  destruct (_assign_action_scopes acts cadj) as [[sc|]|] eqn:Es; [|done..].
  intros H. injection H as H. apply rbind_Ok in H as (regions & _ & H). injection H as <- <-. simpl.
  split; [done|]. split; [done|]. split; [done|]. split; [by exists adj|]. by exists cadj, sc.
Qed.

(** The scheduler's successor table describes the dependency graph. *)
Lemma sched_graph_ok sd adj : wf_actions (actions sd) -> no_dup_edges (actions sd) ->
  build_adj (actions sd) = Ok adj -> SchedState.adj sd = adj ->
  graph_ok (refs (actions sd)) (deps (actions sd)) (fun u => map fst (succ_of sd u)).
Proof.
  intros Hwf Hnd Hadj Heq. destruct (actions_graph_ok _ Hwf) as [G1 G2 _ _].
  assert (forall u, u ∈ refs (actions sd) -> NoDup (succ_of sd u) /\
    forall v t, (v, t) ∈ succ_of sd u <-> exists a, a ∈ actions sd /\ ref a = v /\ (u, t) ∈ edge_list a) as Hsucc.
  { intros u Hu. unfold succ_of. rewrite Heq. by apply (succ_of_spec (actions sd)). }
  split; [done|done|..].
  - intros u v Hu Hv. destruct (Hsucc u Hu) as [_ Hs]. apply list_elem_of_In, in_map_iff in Hv as ([v' t] & <- & Hin).
    apply list_elem_of_In, Hs in Hin as (a & Ha & <- & _). by apply refs_in.
  - intros u v Hu Hv. destruct (Hsucc u Hu) as [Hn Hs]. destruct (find_action_ref _ _ Hv) as [a Ha].
    rewrite (deps_in _ _ _ Ha), dep_srcs_edge_list. apply find_action_Some in Ha as [Ha <-].
    rewrite !occurs_fst by (try apply Hnd; done).
    assert (forall t, (ref a, t) ∈ succ_of sd u <-> (u, t) ∈ edge_list a) as He.
    { intros t. rewrite Hs. split; [|by eauto]. intros (b & Hb & Hr & Hin).
      pose proof (find_action_in _ _ (wf_refs _ Hwf) Ha) as F1.
      pose proof (find_action_in _ _ (wf_refs _ Hwf) Hb) as F2. rewrite Hr in F2. congruence. }
    assert (forall t, ((if decide ((ref a, t) ∈ succ_of sd u) then 1 else 0)%nat)
      = (if decide ((u, t) ∈ edge_list a) then 1 else 0)%nat) as Hd.
    { intros t. destruct (decide ((u, t) ∈ edge_list a)) as [Hx|Hx].
      - by rewrite decide_True by (by apply He).
      - by rewrite decide_False by (by rewrite He). }
    by rewrite !Hd.
Qed.


(** The diamond [a -> b, c -> d] used as a witness. *)
Definition diamond : list ActionStatement :=
  [statement "a" "core.http_request" []; statement "b" "core.http_request" ["a"];
   statement "c" "core.http_request" ["a"]; statement "d" "core.http_request" ["b"; "c"]].

Definition no_dup_edgesb (acts : list ActionStatement) : bool :=
  forallb (fun a => bool_decide (NoDup (edge_list a))) acts.

Lemma no_dup_edgesb_sound acts : no_dup_edgesb acts = true -> no_dup_edges acts.
Proof. unfold no_dup_edgesb. rewrite forallb_elem. intros H a Ha. by apply H, bool_decide_eq_true in Ha. Qed.


(** The distinctness of the edges is needed: the two spellings of one dependency
    pass the validation, are one edge of the graph but two pending dependencies, so
    the action never starts and the workflow returns success without it. *)
Definition same_edge_twice : list ActionStatement :=
  [statement "a" "core.http_request" []; statement "b" "core.http_request" ["a"; "a.success"]].

Example same_edge_twice_never_runs :
  validate_structure (fun _ => Some (Node "start" [])) same_edge_twice = Some (Ok tt) /\
  main (run same_edge_twice true 0 100) = Returned None /\
  bool_decide (("a", Stream.ROOT_STREAM) ∈ completed_tasks (sched (run same_edge_twice true 0 100))) = true /\
  bool_decide (("b", Stream.ROOT_STREAM) ∈ completed_tasks (sched (run same_edge_twice true 0 100))) = false.
Proof. split_and!; vm_compute; reflexivity. Qed.
