(* ===== verification/SchedProgress.v ===== *)
(** Progress and termination of the scheduler: a configuration that has not
    returned can always take a step, and a definition without scatter, gather
    and loops has no infinite execution, so that every execution returns. *)

From S2P Require Import Prelude PyStr Base62 PyVal Expr DslTypes Graph DslScopes DslScopesFacts.
From S2P Require Import Coro SchedState Scheduler SchedulerInv SchedulerFacts SchedRun SchedPlain.

(** ** No deadlock *)

Section Progress.
Variable lib : Lib.
Variable sd : Static.

(** The main coroutine only waits for a task when there is one. *)
Definition wait_ok (y : Sys) : Prop := main y = Waiting -> pending y <> [].

Lemma leave_wait s l : wait_ok (leave_loop s l).
Proof. unfold wait_ok, leave_loop. by case_decide. Qed.

Lemma spawn_wait q s l n : 1 <= max_pending_tasks sd -> wait_ok (spawn sd q s l n).
Proof.
  intros Hmax. revert l n; induction q as [|ti q IH]; intros l n; simpl.
  - destruct l; [apply leave_wait|by intros _].
  - destruct (Z.ltb_spec (Z.of_nat (length l)) (max_pending_tasks sd)) as [_|Hge].
    + case_match; [done|apply IH].
    + intros _. destruct l; simpl in *; [lia|done].
Qed.

Lemma spawn_loop_wait s l n : 1 <= max_pending_tasks sd -> wait_ok (spawn_loop sd s l n).
Proof. intros Hmax. unfold spawn_loop. case_decide; [by apply spawn_wait|apply leave_wait]. Qed.

Lemma outer_loop_wait s l : 1 <= max_pending_tasks sd -> wait_ok (outer_loop sd s l).
Proof.
  intros Hmax. unfold outer_loop. case_decide; [|apply leave_wait].
  repeat case_match; first [apply leave_wait|by apply spawn_loop_wait].
Qed.

Lemma reachable_wait s0 y : 1 <= max_pending_tasks sd -> reachable lib sd s0 y -> wait_ok y.
Proof.
  intros Hmax Hr. unfold reachable in Hr.
  refine (rtc_ind_r wait_ok (start sd s0) _ _ y Hr); [by apply outer_loop_wait|].
  intros y1 y2 _ Hstep H1. destruct Hstep as
    [s l i ti m s' t Hi Hst|s l i ti e k r m s' t Hi Hk Hst|s l n|s l i Hi|s l i ti Hi|s l Hfin]; unfold wait_ok in *; simpl in *.
  - intros ->. specialize (H1 eq_refl). by destruct l, i.
  - intros ->. specialize (H1 eq_refl). by destruct l, i.
  - by apply spawn_loop_wait.
  - by apply outer_loop_wait.
  - done.
  - done.
Qed.

(** Some exception is always a possible answer. *)
Lemma some_answer e : exists r, not_cancelled e r.
Proof. exists (inr (ExcOther "RuntimeError" "")). by destruct e. Qed.

(** A task in flight can run. *)
Lemma pending_can_step s l i t m : l !! i = Some t -> is_finished t = false ->
  exists y, step lib sd (MkSys s l m) y.
Proof.
  intros Hi Hf. destruct t as [ti|ti e k|]; [| |done].
  - destruct (settle ti (_schedule_task lib sd ti s)) as [s' t'] eqn:E. eexists. by eapply step_start.
  - destruct (some_answer e) as [r Hr]. destruct (settle ti (k r s)) as [s' t'] eqn:E. eexists.
    by eapply step_resume.
Qed.

Lemma step_or_returned (s0 : Sched) (y : Sys) :
  1 <= max_pending_tasks sd -> reachable lib sd s0 y ->
  (exists r, main y = Returned r) \/ exists y', step lib sd y y'.
Proof.
  intros Hmax Hr. pose proof (reachable_wait s0 y Hmax Hr) as Hw. destruct y as [s l m]. unfold wait_ok in Hw. simpl in *.
  destruct m as [n| | |r]; [right..|by left; exists r].
  - eexists. apply step_yield.
  - destruct l as [|t l]; [by destruct Hw|]. destruct (is_finished t) eqn:Ef.
    + eexists. apply (step_wait _ _ _ _ 0%nat). by destruct t.
    + by apply (pending_can_step s (t :: l) 0%nat t).
  - destruct (forallb is_finished l) eqn:E.
    + eexists. by apply step_cancelled.
    + apply not_true_iff_false in E. rewrite forallb_elem in E.
      destruct (decide (Exists (fun t => is_finished t = false) l)) as [(t & Ht & Hf)%Exists_exists|Hn].
      * apply list_elem_of_lookup in Ht as [i Hi]. by apply (pending_can_step s l i t).
      * exfalso. apply E. intros t Ht. destruct (is_finished t) eqn:Ef; [done|].
        exfalso. apply Hn, Exists_exists. eauto.
Qed.

(** C34: the scheduler never deadlocks: in every reachable configuration, as long
    as [start] has not returned, some coroutine can run. *)
Theorem no_deadlock (s0 : Sched) (y : Sys)
    (Hmax : 1 <= max_pending_tasks sd) (Hr : reachable lib sd s0 y) :
  (exists r, main y = Returned r) \/ exists y', step lib sd y y'.
Proof.
  by eapply step_or_returned.
Qed.
End Progress.

Lemma no_deadlock_witness :
  (exists r, main (run fan_out true 9 30) = Returned r) \/
  exists y', step plain_lib (built fan_out 4).1 (run fan_out true 9 30) y'.
Proof.
  apply (no_deadlock plain_lib (built fan_out 4).1 (built fan_out 4).2).
  - vm_compute. discriminate.
  - apply run_reachable.
Defined.

(** ** Termination *)

Section Termination.
Variable lib : Lib.
Variable sd : Static.

(** What a task in flight can become. *)
Definition next_aio (t' t : aio) : Prop :=
  match t with
  | NotStarted ti => t' = Finished \/ exists s, t' = (settle ti (_schedule_task lib sd ti s)).2
  | Suspended ti e k => exists r s, t' = (settle ti (k r s)).2
  | Finished => False
  end.

(** Each task suspends finitely often. *)
Lemma settle_acc ti c : Acc next_aio (settle ti c).2.
Proof.
  induction c as [s r|s e k IH]; simpl; constructor; simpl; [done|]. intros t' (r & s' & ->). apply IH.
Qed.

Lemma next_aio_acc t : Acc next_aio t.
Proof.
  constructor. destruct t as [ti|ti e k|]; simpl; [| |done].
  - intros t' [->|[s ->]]; [by constructor|apply settle_acc].
  - intros t' (r & s & ->). apply settle_acc.
Qed.

(** One task of the list moves on. *)
Definition list_step (l' l : list aio) : Prop :=
  exists i t t', l !! i = Some t /\ l' = <[i := t']> l /\ next_aio t' t.

Lemma list_step_acc l : Acc list_step l.
Proof.
  induction l as [|t l IHl]; [constructor; intros l' (i & t & t' & Hi & _); by destruct i|].
  revert t. induction IHl as [l _ IHl]. intros t. induction (next_aio_acc t) as [t _ IHt].
  constructor. intros l' (i & u & u' & Hi & -> & Hn). destruct i as [|i]; simpl in *.
  - injection Hi as ->. by apply IHt.
  - apply IHl. exists i, u, u'. done.
Qed.

(** The actions of the definition not yet completed or in flight; nothing is
    left to start after a failure. *)
Definition begun (s : Sched) (l : list aio) : gset string :=
  list_to_set (map t_ref (running l)) ∪ set_map fst (completed_tasks s).
Definition budget (s : Sched) (l : list aio) : nat :=
  if decide (task_exceptions s = ∅) then size (list_to_set (refs (actions sd)) ∖ begun s l) else 0%nat.

Definition rank (m : phase) : nat :=
  match m with Yielding _ => 3 | Waiting => 2 | Cancelling => 1 | Returned _ => 0 end.

(** The measure decreases: fewer actions to start; as many, and fewer tasks in
    flight; as many tasks, one of which moved on; or the main coroutine did. *)
Definition smaller (y' y : Sys) : Prop :=
  let b := budget (sched y) (pending y) in let b' := budget (sched y') (pending y') in
  (b' < b)%nat \/ (b' <= b)%nat /\
  ((length (pending y') < length (pending y))%nat \/
   length (pending y') = length (pending y) /\
   (list_step (pending y') (pending y) \/
    pending y' = pending y /\ (rank (main y') < rank (main y))%nat)).

Lemma smaller_acc (ok : Sys -> Prop) (R : Sys -> Sys -> Prop) :
  (forall y y', ok y -> R y y' -> ok y' /\ smaller y' y) ->
  forall y, ok y -> Acc (fun y' y => R y y') y.
Proof.
  intros HR. assert (forall n y, (budget (sched y) (pending y) <= n)%nat -> ok y -> Acc (fun y' y => R y y') y) as H.
  { induction n as [n IHb] using lt_wf_ind. intros y. remember (length (pending y)) as m eqn:Hm.
    revert y Hm. induction m as [m IHm] using lt_wf_ind. intros y. remember (pending y) as l eqn:Hl.
    revert y Hl. induction (list_step_acc l) as [l _ IHl]. intros y. remember (rank (main y)) as k eqn:Hk.
    revert y Hk. induction k as [k IHk] using lt_wf_ind. intros y -> -> -> Hb Hok.
    constructor. intros y' Hy. destruct (HR y y' Hok Hy) as [Hok' Hs].
    unfold smaller in Hs. destruct Hs as [Hs|[Hle [Hs|[Hlen [Hs|[Hp Hs]]]]]].
    - eapply IHb; [|reflexivity|done]. lia.
    - eapply IHm; [exact Hs|reflexivity| |done]. lia.
    - eapply IHl; [exact Hs|reflexivity|by rewrite Hlen| |done]. lia.
    - rewrite Hp in Hle. eapply (IHk _ Hs y' eq_refl); first [done|lia]. }
  intros y. by apply (H (budget (sched y) (pending y))).
Qed.

Lemma budget_le s l s' l' :
  (task_exceptions s' = ∅ -> task_exceptions s = ∅ /\ begun s l ⊆ begun s' l') ->
  (budget s' l' <= budget s l)%nat.
Proof.
  intros H. unfold budget. destruct (decide (task_exceptions s' = ∅)) as [He|]; [|lia].
  destruct (H He) as [-> Hsub]. rewrite decide_True by done. apply subseteq_size. set_solver.
Qed.

Lemma budget_lt s l s' l' r :
  task_exceptions s' = ∅ -> task_exceptions s = ∅ -> begun s l ⊆ begun s' l' ->
  r ∈ refs (actions sd) -> r ∈ begun s' l' -> r ∉ begun s l ->
  (budget s' l' < budget s l)%nat.
Proof.
  intros He' He Hsub Hr Hin Hn. unfold budget. rewrite !decide_True by done. apply subset_size. split.
  - set_solver.
  - intros Hc. specialize (Hc r). rewrite !elem_of_difference, elem_of_list_to_set in Hc. tauto.
Qed.

Lemma running_started q : running (map NotStarted q) = q.
Proof. unfold running. induction q as [|ti q IH]; [done|]. simpl. by f_equal. Qed.

(** What the spawn loop does to the tasks in flight. *)
Lemma spawn_shape q s l n : exists q1 q2,
  let y := spawn sd q s l n in
  q = q1 ++ q2 /\ pending y = l ++ map NotStarted q1 /\
  completed_tasks (sched y) = completed_tasks s /\ task_exceptions (sched y) = task_exceptions s /\
  (q1 = [] -> (rank (main y) <= 2)%nat).
Proof.
  revert l n; induction q as [|ti q IH]; intros l n; simpl.
  - exists [], []. simpl. rewrite app_nil_r. destruct l; simpl; [|split_and!; [done..|lia]].
    unfold leave_loop. case_decide; simpl; (split_and!; [done..|lia]).
  - case_match.
    + case_match.
      * exists [ti], q. done.
      * destruct (IH (l ++ [NotStarted ti]) (n + 1)) as (q1 & q2 & -> & Hp & Hc & He & _).
        exists (ti :: q1), q2. rewrite Hp, <- app_assoc. done.
    + exists [], (ti :: q). rewrite app_nil_r. simpl. split_and!; [done..|lia].
Qed.

Lemma discard_le l : (length (discard_done l) <= length l)%nat /\
  (length (discard_done l) = length l -> discard_done l = l).
Proof.
  unfold discard_done. induction l as [|t l [IH1 IH2]]; [done|]. rewrite filter_cons. case_decide; simpl.
  - split; [lia|]. intros [= H']. f_equal. by apply IH2.
  - split; [lia|]. intros H'. lia.
Qed.

Lemma discard_lt l i : l !! i = Some Finished -> (length (discard_done l) < length l)%nat.
Proof.
  unfold discard_done. intros Hi. apply (length_filter_lt _ _ Finished); [by eapply list_elem_of_lookup_2|done].
Qed.

Section PlainTermination.
Hypothesis Hwf : wf_actions (actions sd).
Hypothesis Hordinary : forall a, a ∈ actions sd -> ordinary a = true.
Hypothesis Hgraph : graph_ok (refs (actions sd)) (deps (actions sd)) (fun u => map fst (succ_of sd u)).
Hypothesis Hmax : 1 <= max_pending_tasks sd.
Variable context : Actions.

Definition running_ok (y : Sys) : Prop := reachable lib sd (initial_state (actions sd) context) y.

(** A segment of a task keeps what has begun. *)
Lemma settle_begun s s' l i t ti c t' :
  l !! i = Some t -> running_task t = Some ti ->
  safe not_cancelled any_state quiet (fun s0 _ s => finished sd ti s0 s) s c -> settle ti c = (s', t') ->
  failed s' \/ begun s l ⊆ begun s' (<[i := t']> l).
Proof.
  intros Hl Hr Hc Hs. destruct c as [s1 r|s1 e k]; simpl in *; injection Hs as <- <-.
  - destruct Hc as [(u & _ & _ & Hc & _)|Hf]; [right|by left].
    unfold begun. rewrite Hc. pose proof (running_finish i l t ti Hl Hr) as Hp.
    assert (list_to_set (map t_ref (running l)) ⊆@{gset string}
      {[ t_ref ti ]} ∪ list_to_set (map t_ref (running (<[i := Finished]> l)))) as Hsub.
    { intros r'. rewrite elem_of_union, !elem_of_list_to_set, Hp. simpl. rewrite elem_of_cons, elem_of_singleton. tauto. }
    rewrite set_map_union_L, set_map_singleton_L. simpl. set_solver.
  - destruct Hc as (_ & (_ & _ & Hc & _) & _). right. unfold begun. rewrite Hc.
    by rewrite (running_same i l t (Suspended ti e k)).
Qed.

(** The measure of a step of a task. *)
Lemma task_step_smaller s s' l i t ti c t' m :
  l !! i = Some t -> running_task t = Some ti -> next_aio t' t ->
  (failed s -> failed s') ->
  (task_exceptions s = ∅ -> safe not_cancelled any_state quiet (fun s0 _ s => finished sd ti s0 s) s c) ->
  settle ti c = (s', t') -> smaller (MkSys s' (<[i := t']> l) m) (MkSys s l m).
Proof.
  intros Hl Hr Hn Hstay Hc Hs. right. simpl. split.
  - apply budget_le. intros He.
    assert (task_exceptions s = ∅) as He0.
    { destruct (decide (task_exceptions s = ∅)) as [|Hf]; [done|]. by destruct (Hstay Hf). }
    split; [done|]. destruct (settle_begun s s' l i t ti c t' Hl Hr (Hc He0) Hs) as [Hf|]; [by destruct Hf|done].
  - right. rewrite length_insert. split; [done|]. left. by exists i, t, t'.
Qed.

(** The measure of a turn of the main coroutine. *)
Lemma spawn_loop_smaller s l n m :
  (task_exceptions s = ∅ -> exists vis ind, plain_inv sd s l vis ind) -> (m = Waiting -> exists i, l !! i = Some Finished) -> (2 <= rank m)%nat ->
  (m = Waiting \/ (exists k, m = Yielding k)) ->
  smaller (spawn_loop sd s (discard_done l) n) (MkSys s l m).
Proof.
  intros Hinv Hfin Hrank Hm. unfold spawn_loop. destruct (discard_le l) as [Hd1 Hd2]. case_decide as Hex.
  - destruct (Hinv Hex) as (vis & ind & Hinv'). clear Hinv. rename Hinv' into Hinv.
    destruct (spawn_shape (queue s) s (discard_done l) n) as (q1 & q2 & Hq & Hp & Hc & He & Hrk).
    set (y' := spawn sd (queue s) s (discard_done l) n) in *.
    assert (running (pending y') = running l ++ q1) as Hrun.
    { by rewrite Hp, running_app, running_discard, running_started. }
    assert (begun s l ⊆ begun (sched y') (pending y')) as Hsub.
    { unfold begun. rewrite Hrun, Hc, map_app, list_to_set_app_L. set_solver. }
    destruct q1 as [|ti q1].
    + right. simpl. split; [by apply budget_le|]. rewrite Hp, app_nil_r.
      destruct (decide (length (discard_done l) = length l)) as [E|E]; [right|left; lia].
      split; [done|]. right. rewrite (Hd2 E). split; [done|].
      destruct Hm as [->|[k ->]]; [|simpl; specialize (Hrk eq_refl); lia].
      destruct (Hfin eq_refl) as [i Hi]. apply discard_lt in Hi. lia.
    + left. simpl. apply (budget_lt _ _ _ _ (t_ref ti)); [by rewrite He|done|done|..].
      * destruct (Forall_forall (root_task sd) (queue s ++ running l)) as [Hroot _].
        apply (Hroot (pi_root _ _ _ _ _ Hinv) ti). rewrite Hq. set_solver.
      * unfold begun. rewrite Hrun, map_app, list_to_set_app_L. simpl. set_solver.
      * pose proof (ki_nodup _ _ _ _ _ (pi_kahn _ _ _ _ _ Hinv)) as Hnd.
        rewrite Hq, !map_app in Hnd. simpl in Hnd. apply NoDup_app in Hnd as (_ & Hdis & Hnd).
        apply NoDup_cons in Hnd as [Hnin _].
        unfold begun. rewrite elem_of_union, elem_of_list_to_set, elem_of_map. intros [Hin|([r st] & Hr & Hin)]; [|simpl in Hr; subst r].
        -- apply Hnin. set_solver.
        -- apply (pi_done _ _ _ _ _ Hinv) in Hin as [_ Hin]. apply (Hdis _ Hin). simpl. by left.
  - right. unfold leave_loop. rewrite decide_False by done. simpl.
    assert (budget s (discard_done l) = budget s l) as ->.
    { unfold budget. by rewrite !decide_False. }
    split; [done|]. destruct (decide (length (discard_done l) = length l)) as [E|E]; [right|left; lia].
    split; [done|]. right. rewrite (Hd2 E). split; [done|]. lia.
Qed.

Lemma step_smaller y y' : running_ok y -> step lib sd y y' -> smaller y' y.
Proof.
  intros Hr Hstep. destruct (reachable_plain lib sd Hwf Hordinary Hgraph y context Hmax Hr) as [Hmain Hplain].
  destruct (reachable_main lib sd _ y Hmax Hr) as [_ Hstay]. specialize (Hstay y' Hstep).
  assert (task_exceptions (sched y) = ∅ -> exists vis ind, plain_inv sd (sched y) (pending y) vis ind) as Hinv.
  { intros He. by destruct Hplain as [Hf|]. }
  destruct Hstep as
    [s l i ti m s' t Hi Hst|s l i ti e k r m s' t Hi Hk Hst|s l n|s l i Hi|s l i ti Hi|s l Hfin]; simpl in *.
  - eapply (task_step_smaller _ _ _ _ (NotStarted ti) ti); [done|done| |done| |exact Hst].
    { right. exists s. by rewrite Hst. }
    intros He. destruct (Hinv He) as (vis & ind & Hp).
    by apply (started_safe lib sd Hordinary s l i ti vis ind).
  - eapply (task_step_smaller _ _ _ _ (Suspended ti e k) ti); [done|done| |done| |exact Hst].
    { exists r, s. by rewrite Hst. }
    intros He. destruct (Hinv He) as (vis & ind & Hp).
    pose proof (Forall_lookup_1 _ _ _ _ (pi_safe _ _ _ _ _ Hp) Hi) as Hsafe. apply Hsafe, Hk.
    intros ->. by destruct (mo_cancel _ _ Hmain eq_refl).
  - apply spawn_loop_smaller; [done|done|simpl; lia|eauto].
  - unfold outer_loop. case_decide as Hex.
    + assert (smaller (spawn_loop sd s (discard_done l) 0) (MkSys s l Waiting)).
      { apply spawn_loop_smaller; [done|eauto|simpl; lia|by left]. }
      destruct (queue s); [|done]. destruct l; [by destruct i|done].
    + right. unfold leave_loop. rewrite decide_False by done. simpl. split; [done|]. right. split; [done|].
      right. split; [done|lia].
  - right. simpl. assert (task_exceptions s <> ∅) as Hf by by apply (mo_cancel _ _ Hmain).
    unfold budget. rewrite !decide_False by done. split; [done|]. right. rewrite length_insert. split; [done|].
    left. exists i, (NotStarted ti), Finished. split; [done|]. split; [done|]. by left.
  - right. simpl. split; [done|]. right. split; [done|]. right. split; [done|lia].
Qed.
End PlainTermination.
End Termination.

(** C35: the scheduler terminates on every definition without scatter, gather and
    loops (and without a repeated edge): from any reachable configuration there
    is no infinite sequence of steps, whatever the interleaving and the answers
    of the environment, and some execution from it reaches a return; with
    [no_deadlock], every maximal execution does. *)
Theorem plain_terminates (lib : Lib) (acts : list ActionStatement) (max : Z) (ws : option string)
    (context : Actions) (sd : Static) (s0 : Sched) (y : Sys)
    (Hwf : wf_actions acts) (Hnd : no_dup_edges acts) (Hord : forall a, a ∈ acts -> ordinary a = true)
    (Hinit : init acts max ws context = Some (Ok (sd, s0)))
    (Hr : reachable lib sd s0 y) :
  sn (step lib sd) y /\ exists y' r, rtc (step lib sd) y y' /\ main y' = Returned r.
Proof.
  destruct (init_spec _ _ _ _ _ _ Hinit) as (<- & -> & Hmax & (adj & Hadj & Heq) & _).
  pose proof (sched_graph_ok sd adj Hwf Hnd Hadj Heq) as Hg.
  assert (sn (step lib sd) y) as Hsn.
  { apply (smaller_acc lib sd (running_ok lib sd context) (step lib sd)); [|done].
    intros y1 y2 H1 H12. split; [by eapply rtc_r|]. by eapply step_smaller. }
  split; [done|]. induction Hsn as [y _ IH].
  destruct (step_or_returned lib sd _ y Hmax Hr) as [[r Hm]|[y' Hy]].
  - exists y, r. split; [apply rtc_refl|done].
  - destruct (IH y' Hy) as (y2 & r & H2 & Hm); [by eapply rtc_r|]. exists y2, r. split; [by eapply rtc_l|done].
Qed.

Lemma plain_terminates_witness :
  sn (step plain_lib (built diamond 4).1) (run diamond true 0 2) /\
  exists y' r, rtc (step plain_lib (built diamond 4).1) (run diamond true 0 2) y' /\ main y' = Returned r.
Proof.
  apply (plain_terminates plain_lib diamond 4 (Some "ws") ∅ (built diamond 4).1 (built diamond 4).2).
  - apply wf_actionsb_sound. vm_compute. reflexivity.
  - apply no_dup_edgesb_sound. vm_compute. reflexivity.
  - apply (proj1 (forallb_elem ordinary diamond)). vm_compute. reflexivity.
  - vm_compute. reflexivity.
  - apply run_reachable.
Defined.
