(* ===== verification/Interact.v ===== *)
(** Code that may run forever against an environment: interaction trees whose
    leaves are values or exceptions, their traces, and a program logic.

    A trace is a sequence of calls with the answers of the environment.  A monitor
    reads a trace and keeps a ghost state; it rejects the calls a property forbids
    and marks the answers the environment never gives.  [total] is a
    total-correctness judgement (the tree reaches a leaf under every
    environment), [partial] a partial one for trees that may run forever. *)

From ITree Require Import Core.ITreeDefinition.
From S2P Require Import Prelude.

(** ** Programs *)

Section Program.
Context {E : Type -> Type} {X : Type}.

(** A call into the environment returns a value or raises an exception of type [X]. *)
Definition program (A : Type) : Type := itree E (A + X).

Definition returns {A} (a : A) : program A := Ret (inl a).
Definition throws {A} (x : X) : program A := Ret (inr x).
Definition call {A} (e : E (A + X)%type) : program A := ITree.trigger e.
(** A call that cannot raise. *)
Definition query {A} (e : E A) : program A := ITree.bind (ITree.trigger e) (fun a => returns a).

Definition seq {A B} (m : program A) (f : A -> program B) : program B :=
  ITree.bind m (fun r => match r with inl a => f a | inr x => throws x end).

(** [try: m except: h], where [h] raises what it does not handle. *)
Definition try_except {A} (m : program A) (h : X -> program A) : program A :=
  ITree.bind m (fun r => match r with inl a => returns a | inr x => h x end).

(** [try: m finally: f]: an exception of [f] replaces the outcome of [m]. *)
Definition try_finally {A} (m : program A) (f : program unit) : program A :=
  ITree.bind m (fun r => ITree.bind f (fun u => match u with inl _ => Ret r | inr x => throws x end)).

(** Going on from either outcome, possibly with another type of exceptions. *)
Definition on_outcome {X' A B} (m : program A) (f : A + X -> itree E (B + X')) : itree E (B + X') := ITree.bind m f.

(** [while True: body], where the body returns the next state or leaves the loop. *)
Definition while_true {I A} (body : I -> program (I + A)) (i : I) : program A :=
  ITree.iter (fun i => ITree.bind (body i) (fun r =>
    match r with
    | inl (inl i') => Ret (inl i')
    | inl (inr a) => Ret (inr (inl a))
    | inr x => Ret (inr (inr x))
    end)) i.
End Program.

Arguments program E X A : clear implicits.

Declare Scope wf_scope.
Notation "'let~' x ':=' m 'in' k" := (seq m (fun x => k))
  (at level 10, x pattern, m at level 100, k at level 200) : wf_scope.
Notation "'do~' m ';;' k" := (seq m (fun _ => k))
  (at level 10, m at level 99, k at level 200) : wf_scope.

(** ** Traces *)

Section Traces.
Context {E : Type -> Type}.

(** A call and its answer. *)
Inductive interaction := | Act {T : Type} (e : E T) (a : T).

(** The tree calls [x] (with its answer) and becomes [u]. *)
Definition after {R} (t : itree E R) (x : interaction) (u : itree E R) : Prop :=
  match observe t with
  | VisF e k => exists a, x = Act e a /\ u = k a
  | _ => False
  end.

(** [trace t l r]: the tree [t] makes the calls [l]; it then returned, or was
    observed no further. *)
Inductive trace {R} : itree E R -> list interaction -> option R -> Prop :=
  | trace_stop t : trace t [] None
  | trace_ret t a : observe t = RetF a -> trace t [] (Some a)
  | trace_tau t t' l r : observe t = TauF t' -> trace t' l r -> trace t l r
  | trace_vis t x u l r : after t x u -> trace u l r -> trace t (x :: l) r.

(** What a bound tree observes, by case on its first part. *)
Lemma observe_bind {R S} (t : itree E R) (k : R -> itree E S) :
  observe (ITree.bind t k) =
    match observe t with
    | RetF a => observe (k a)
    | TauF t' => TauF (ITree.bind t' k)
    | VisF e h => VisF e (fun x => ITree.bind (h x) k)
    end.
Proof.
  unfold ITree.bind, ITree.subst. unfold observe. simpl. by destruct (_observe t).
Qed.

Lemma observe_iter {I R} (body : I -> itree E (I + R)) i :
  observe (ITree.iter body i) =
    observe (ITree.bind (body i) (fun lr => match lr with inl j => Tau (ITree.iter body j) | inr a => Ret a end)).
Proof. done. Qed.

(** Only what a tree observes matters. *)
Lemma after_observe {R} (t u v : itree E R) x : observe t = observe u -> after u x v -> after t x v.
Proof. unfold after. by intros ->. Qed.

Lemma trace_observe {R} (t u : itree E R) l r : observe t = observe u -> trace u l r -> trace t l r.
Proof.
  intros Ho H. destruct H; [apply trace_stop|eapply trace_ret|eapply trace_tau|eapply trace_vis];
    eauto using after_observe; congruence.
Qed.

(** What [f] reads off the calls of a trace ([omap] is not at hand: trees live above the
    universe of [option]). *)
Fixpoint observed {B} (f : interaction -> option B) (l : list interaction) : list B :=
  match l with
  | [] => []
  | x :: l' => match f x with Some b => b :: observed f l' | None => observed f l' end
  end.

Lemma observed_app {B} (f : interaction -> option B) l1 l2 : observed f (l1 ++ l2) = observed f l1 ++ observed f l2.
Proof. induction l1 as [|x l1 IH]; simpl; [done|]. destruct (f x); by rewrite IH. Qed.
End Traces.

Arguments interaction E : clear implicits.

(** ** Monitors *)

(** The monitor's verdict on a call and its answer: the call breaks the
    property, the environment never answers this, or the next ghost state. *)
Inductive verdict (M : Type) := Bad | Never | Next (m : M).
Arguments Bad {M}.
Arguments Never {M}.
Arguments Next {M} m.

Section Logic.
Context {E : Type -> Type} {M : Type} (mon : M -> interaction E -> verdict M).

(** The verdict on a trace. *)
Fixpoint verdict_of (m : M) (l : list (interaction E)) : verdict M :=
  match l with
  | [] => Next m
  | x :: l' =>
      match mon m x with
      | Next m' => verdict_of m' l'
      | v => v
      end
  end.

Lemma verdict_app m l1 l2 :
  verdict_of m (l1 ++ l2) = match verdict_of m l1 with Next m' => verdict_of m' l2 | v => v end.
Proof. revert m. induction l1 as [|x l1 IH]; intros m; simpl; [done|]. destruct (mon m x); auto. Qed.

(** *** Total correctness *)

Inductive total {R} (Q : R -> M -> Prop) : M -> itree E R -> Prop :=
  | total_ret m t a : observe t = RetF a -> Q a m -> total Q m t
  | total_tau m t t' : observe t = TauF t' -> total Q m t' -> total Q m t
  | total_vis T m t (e : E T) k : observe t = VisF e k ->
      (forall a, mon m (Act e a) <> Bad) ->
      (forall a m', mon m (Act e a) = Next m' -> total Q m' (k a)) ->
      total Q m t.

Lemma total_weaken {R} (Q Q' : R -> M -> Prop) m t :
  (forall a m, Q a m -> Q' a m) -> total Q m t -> total Q' m t.
Proof.
  intros HQ. induction 1 as [m t a Ho|m t t' Ho|T m t e k Ho Hb H IH];
    [eapply total_ret|eapply total_tau|eapply total_vis]; eauto.
Qed.

Lemma total_observe {R} (Q : R -> M -> Prop) m (t u : itree E R) : observe t = observe u -> total Q m u -> total Q m t.
Proof.
  intros Ho H. destruct H; [eapply total_ret|eapply total_tau|eapply total_vis]; eauto; congruence.
Qed.

Lemma total_bind {R S} (Q : S -> M -> Prop) m (t : itree E R) (k : R -> itree E S) :
  total (fun a m' => total Q m' (k a)) m t -> total Q m (ITree.bind t k).
Proof.
  induction 1 as [m t a Ho Hk|m t t' Ho H IH|T m t e h Ho Hb H IH].
  - eapply total_observe; [|done]. by rewrite observe_bind, Ho.
  - eapply total_tau; [by rewrite observe_bind, Ho|done].
  - eapply total_vis; [by rewrite observe_bind, Ho|done|done].
Qed.

(** A judgement about a tree is one about all its complete traces: the monitor
    never rejects, and what is returned satisfies the postcondition. *)
Lemma total_trace {R} (Q : R -> M -> Prop) m t l r : total Q m t -> trace t l r ->
  match verdict_of m l with
  | Bad => False
  | Never => True
  | Next m' => forall a, r = Some a -> Q a m'
  end.
Proof.
  intros H. revert l r. induction H as [m t a Ho HQ|m t t' Ho H IH|T m t e k Ho Hb H IH]; intros l r Ht.
  - inversion Ht as [| | |? x u l' ? Ha]; subst; simpl; try congruence.
    unfold after in Ha. by rewrite Ho in Ha.
  - inversion Ht as [| |? u ? ? Ho'|? x u l' ? Ha]; subst; simpl; try congruence.
    + apply IH. congruence.
    + unfold after in Ha. by rewrite Ho in Ha.
  - inversion Ht as [| | |? x u l' ? Ha Ht']; subst; simpl; try congruence.
    unfold after in Ha. rewrite Ho in Ha. destruct Ha as (a & -> & ->).
    destruct (mon m (Act e a)) as [| |m'] eqn:Em; [by apply (Hb a)|done|]. by eapply IH.
Qed.

(** *** Partial correctness *)

Definition partial {R} (Q : R -> M -> Prop) (m : M) (t : itree E R) : Prop :=
  forall l r, trace t l r ->
    match verdict_of m l with
    | Bad => False
    | Never => True
    | Next m' => forall a, r = Some a -> Q a m'
    end.

Lemma total_partial {R} (Q : R -> M -> Prop) m t : total Q m t -> partial Q m t.
Proof. intros H l r Ht. by eapply total_trace. Qed.

Lemma partial_weaken {R} (Q Q' : R -> M -> Prop) m t :
  (forall a m, Q a m -> Q' a m) -> partial Q m t -> partial Q' m t.
Proof.
  intros HQ H l r Ht. specialize (H l r Ht). destruct (verdict_of m l); [done..|]. auto.
Qed.

Lemma partial_tau {R} (Q : R -> M -> Prop) m t t' : observe t = TauF t' -> partial Q m t -> partial Q m t'.
Proof. intros Ho H l r Ht. apply (H l r). by eapply trace_tau. Qed.

Lemma partial_ret_inv {R} (Q : R -> M -> Prop) m t a : observe t = RetF a -> partial Q m t -> Q a m.
Proof. intros Ho H. specialize (H [] (Some a) (trace_ret _ _ Ho)). simpl in H. auto. Qed.

Lemma partial_after {R} (Q : R -> M -> Prop) m t x u : after t x u -> partial Q m t ->
  match mon m x with Bad => False | Never => True | Next m' => partial Q m' u end.
Proof.
  intros Ha H. destruct (mon m x) as [| |m'] eqn:Em; [|done|].
  - specialize (H [x] None (trace_vis _ _ _ _ _ Ha (trace_stop u))). simpl in H. by rewrite Em in H.
  - intros l r Ht. specialize (H (x :: l) r (trace_vis _ _ _ _ _ Ha Ht)). simpl in H. by rewrite Em in H.
Qed.

(** Sequencing, and the loop rule, follow one induction over the traces of a
    bound tree. *)
Lemma partial_bind {R S} (Q : S -> M -> Prop) m (t : itree E R) (k : R -> itree E S) :
  partial (fun a m' => partial Q m' (k a)) m t -> partial Q m (ITree.bind t k).
Proof.
  intros H l r Ht. remember (ITree.bind t k) as u eqn:Hu.
  assert (observe u = observe (ITree.bind t k)) as Hou by (by subst). clear Hu.
  revert t m Hou H. induction Ht as [u|u a Ho|u u' l r Ho Ht IH|u x u' l r Ha Ht IH]; intros t m Hou H.
  - done.
  - intros b [= <-]. rewrite Ho, observe_bind in Hou. destruct (observe t) as [c| |] eqn:Et; [|done..].
    apply (partial_ret_inv _ _ _ _ Et) in H. by apply (partial_ret_inv Q m (k c) a (eq_sym Hou)).
  - rewrite Ho, observe_bind in Hou. destruct (observe t) as [c|t'|] eqn:Et; [| |done].
    + apply (partial_ret_inv _ _ _ _ Et) in H. apply (partial_tau _ _ _ _ (eq_sym Hou) H l r Ht).
    + injection Hou as ->. eapply IH; [done|]. by eapply partial_tau.
  - pose proof Ha as Ha'. unfold after in Ha. rewrite Hou, observe_bind in Ha.
    destruct (observe t) as [c| |T e h] eqn:Et; [|done|].
    + apply (partial_ret_inv _ _ _ _ Et) in H. rewrite observe_bind, Et in Hou.
      exact (H (x :: l) r (trace_vis _ _ _ _ _ (after_observe _ _ _ _ (eq_sym Hou) Ha') Ht)).
    + destruct Ha as (a & -> & ->). simpl.
      assert (after t (Act e a) (h a)) as Hat by (unfold after; rewrite Et; eauto).
      pose proof (partial_after _ _ _ _ _ Hat H) as H'. destruct (mon m (Act e a)); [done..|]. by eapply IH.
Qed.

Lemma partial_iter {I R} (inv : I -> M -> Prop) (Q : R -> M -> Prop) (body : I -> itree E (I + R)) i m :
  (forall i m, inv i m -> partial (fun r m' => match r with inl j => inv j m' | inr a => Q a m' end) m (body i)) ->
  inv i m -> partial Q m (ITree.iter body i).
Proof.
  intros Hbody Hi l r Ht. set (K := fun lr : I + R => match lr with inl j => Tau (ITree.iter body j) | inr a => Ret a end).
  assert (observe (ITree.iter body i) = observe (ITree.bind (body i) K)) as Hou by apply observe_iter.
  pose proof (Hbody i m Hi) as H. clear Hi. revert Hou H. generalize (body i) as s. revert m.
  induction Ht as [u|u a Ho|u u' l r Ho Ht IH|u x u' l r Ha Ht IH]; intros m s Hou H.
  - done.
  - intros b [= <-]. rewrite Ho, observe_bind in Hou. destruct (observe s) as [[j|c]| |] eqn:Es; simpl in Hou; try done.
    injection Hou as ->. by apply (partial_ret_inv _ _ _ _ Es) in H.
  - rewrite Ho, observe_bind in Hou. destruct (observe s) as [[j|c]|s'|] eqn:Es; simpl in Hou; try done.
    + injection Hou as ->. apply (partial_ret_inv _ _ _ _ Es) in H. eapply IH; [by rewrite observe_iter|]. by apply Hbody.
    + injection Hou as ->. eapply IH; [done|]. by eapply partial_tau.
  - unfold after in Ha. rewrite Hou, observe_bind in Ha.
    destruct (observe s) as [[j|c]|s'|T e h] eqn:Es; simpl in Ha; try done.
    destruct Ha as (a & -> & ->). simpl.
    assert (after s (Act e a) (h a)) as Has by (unfold after; rewrite Es; eauto).
    pose proof (partial_after _ _ _ _ _ Has H) as H'. destruct (mon m (Act e a)); [done..|]. by eapply IH.
Qed.

Lemma total_iter {I R} (inv : nat -> I -> M -> Prop) (Q : R -> M -> Prop) (body : I -> itree E (I + R)) n i m :
  (forall n i m, inv n i m ->
     total (fun r m' => match r with inl j => exists n', (n' < n)%nat /\ inv n' j m' | inr a => Q a m' end) m (body i)) ->
  inv n i m -> total Q m (ITree.iter body i).
Proof.
  intros Hbody. revert i m. induction n as [n IH] using (well_founded_induction lt_wf). intros i m Hi.
  eapply total_observe; [apply observe_iter|]. apply total_bind. eapply total_weaken; [|by apply Hbody].
  intros [j|a] m' H; simpl in H.
  - destruct H as (n' & Hn & H). eapply total_tau; [done|]. by eapply IH.
  - by eapply total_ret.
Qed.
End Logic.

(** ** The rules of both judgements *)

Section Rules.
Context {E : Type -> Type} {M : Type} (mon : M -> interaction E -> verdict M).

(** What a judgement about trees offers to the programs built from them. *)
Class Judgement (J : forall R, (R -> M -> Prop) -> M -> itree E R -> Prop) : Prop := {
  j_ret : forall R (Q : R -> M -> Prop) m a, Q a m -> J R Q m (Ret a);
  j_bind : forall R S (Q : S -> M -> Prop) m (t : itree E R) (k : R -> itree E S),
    J R (fun a m' => J S Q m' (k a)) m t -> J S Q m (ITree.bind t k);
  j_weaken : forall R (Q Q' : R -> M -> Prop) m t, (forall a m, Q a m -> Q' a m) -> J R Q m t -> J R Q' m t;
  j_trigger : forall T (Q : T -> M -> Prop) m (e : E T),
    (forall a, mon m (Act e a) <> Bad) -> (forall a m', mon m (Act e a) = Next m' -> Q a m') ->
    J T Q m (ITree.trigger e) }.

#[export] Instance total_judgement : Judgement (@total E M mon).
Proof.
  split.
  - intros R Q m a HQ. by eapply total_ret.
  - intros R S Q m t k. apply total_bind.
  - intros R Q Q' m t. apply total_weaken.
  - intros T Q m e Hb HQ. eapply total_vis; [done|done|]. intros a m' Hm. eapply total_ret; [done|]. auto.
Qed.

#[export] Instance partial_judgement : Judgement (@partial E M mon).
Proof.
  split.
  - intros R Q m a HQ. apply total_partial. by eapply total_ret.
  - intros R S Q m t k. apply partial_bind.
  - intros R Q Q' m t. apply partial_weaken.
  - intros T Q m e Hb HQ. apply total_partial. by apply j_trigger.
Qed.
End Rules.

Section ProgramRules.
Context {E : Type -> Type} {X M : Type} (mon : M -> interaction E -> verdict M).
Context (J : forall R, (R -> M -> Prop) -> M -> itree E R -> Prop) {HJ : Judgement mon J}.

Lemma j_returns {A} (Q : A + X -> M -> Prop) m a : Q (inl a) m -> J _ Q m (returns a).
Proof. exact (@j_ret _ _ mon J HJ _ Q m _). Qed.

Lemma j_throws {A} (Q : A + X -> M -> Prop) m x : Q (inr x) m -> J _ Q m (throws x).
Proof. exact (@j_ret _ _ mon J HJ _ Q m _). Qed.

Lemma j_call {A} (Q : A + X -> M -> Prop) m (e : E (A + X)%type) :
  (forall r, mon m (Act e r) <> Bad) -> (forall r m', mon m (Act e r) = Next m' -> Q r m') ->
  J _ Q m (call e).
Proof. exact (@j_trigger _ _ mon J HJ _ Q m e). Qed.

Lemma j_query {A} (Q : A + X -> M -> Prop) m (e : E A) :
  (forall a, mon m (Act e a) <> Bad) -> (forall a m', mon m (Act e a) = Next m' -> Q (inl a) m') ->
  J _ Q m (query e).
Proof.
  intros Hb HQ. unfold query. apply (@j_bind _ _ mon J HJ). apply (@j_trigger _ _ mon J HJ); [done|].
  intros a m' Hm. apply j_returns. auto.
Qed.

Lemma j_seq {A B} (Q : B + X -> M -> Prop) m (p : program E X A) (f : A -> program E X B) :
  J _ (fun r m' => match r with inl a => J _ Q m' (f a) | inr x => Q (inr x) m' end) m p ->
  J _ Q m (seq p f).
Proof.
  intros H. unfold seq. apply (@j_bind _ _ mon J HJ). apply (@j_weaken _ _ mon J HJ _ _ _ _ _) with (2 := H).
  intros [a|x] m' Hr; [done|]. by apply j_throws.
Qed.

Lemma j_try_except {A} (Q : A + X -> M -> Prop) m (p : program E X A) h :
  J _ (fun r m' => match r with inl a => Q (inl a) m' | inr x => J _ Q m' (h x) end) m p ->
  J _ Q m (try_except p h).
Proof.
  intros H. unfold try_except. apply (@j_bind _ _ mon J HJ). apply (@j_weaken _ _ mon J HJ _ _ _ _ _) with (2 := H).
  intros [a|x] m' Hr; [|done]. by apply j_returns.
Qed.

Lemma j_try_finally {A} (Q : A + X -> M -> Prop) m (p : program E X A) (f : program E X unit) :
  J _ (fun r m' => J _ (fun u m' => Q (match u with inl _ => r | inr x => inr x end) m') m' f) m p ->
  J _ Q m (try_finally p f).
Proof.
  intros H. unfold try_finally. apply (@j_bind _ _ mon J HJ). apply (@j_weaken _ _ mon J HJ _ _ _ _ _) with (2 := H).
  intros r m' Hr. apply (@j_bind _ _ mon J HJ). apply (@j_weaken _ _ mon J HJ _ _ _ _ _) with (2 := Hr).
  intros [u|x] m'' HQ; by apply (@j_ret _ _ mon J HJ).
Qed.

Lemma j_on_outcome {X' A B} (Q : B + X' -> M -> Prop) m (p : program E X A) (f : A + X -> program E X' B) :
  J _ (fun r m' => J _ Q m' (f r)) m p -> J _ Q m (on_outcome p f).
Proof. exact (@j_bind _ _ mon J HJ _ _ Q m p f). Qed.
End ProgramRules.

Section Loops.
Context {E : Type -> Type} {X M : Type} (mon : M -> interaction E -> verdict M).

(** The postcondition of one iteration. *)
Definition loop_post {I A} (again : I -> M -> Prop) (Q : A + X -> M -> Prop) (r : (I + A) + X) (m : M) : Prop :=
  match r with
  | inl (inl i) => again i m
  | inl (inr a) => Q (inl a) m
  | inr x => Q (inr x) m
  end.

Lemma partial_while {I A} (inv : I -> M -> Prop) (Q : A + X -> M -> Prop) (body : I -> program E X (I + A)) i m :
  (forall i m, inv i m -> partial mon (loop_post inv Q) m (body i)) ->
  inv i m -> partial mon Q m (while_true body i).
Proof.
  intros Hbody. apply (partial_iter mon inv). clear i m. intros i m Hi.
  apply partial_bind. eapply partial_weaken; [|by apply Hbody].
  intros [[j|a]|x] m' H; apply (@j_ret _ _ mon _ _); exact H.
Qed.

Lemma total_while {I A} (inv : nat -> I -> M -> Prop) (Q : A + X -> M -> Prop) (body : I -> program E X (I + A)) n i m :
  (forall n i m, inv n i m ->
     total mon (loop_post (fun j m' => exists n', (n' < n)%nat /\ inv n' j m') Q) m (body i)) ->
  inv n i m -> total mon Q m (while_true body i).
Proof.
  intros Hbody. apply (total_iter mon inv). clear n i m. intros n i m Hi.
  apply total_bind. eapply total_weaken; [|by apply Hbody].
  intros [[j|a]|x] m' H; apply (@j_ret _ _ mon _ _); exact H.
Qed.
End Loops.

(** One step of a proof about a program; leaves the monitor's reactions. *)
Ltac wf_step :=
  lazymatch goal with
  | |- ?J _ ?Q ?m (returns ?a) => refine (j_returns _ J Q m a _)
  | |- ?J _ ?Q ?m (throws ?a) => refine (j_throws _ J Q m a _)
  | |- ?J _ ?Q ?m (call ?e) => refine (j_call _ J Q m e _ _); [intros ?|intros ? ? ?]
  | |- ?J _ ?Q ?m (query ?e) => refine (j_query _ J Q m e _ _); [intros ?|intros ? ? ?]
  | |- ?J _ ?Q ?m (seq ?p ?f) => refine (j_seq _ J Q m p f _)
  | |- ?J _ ?Q ?m (try_except ?p ?h) => refine (j_try_except _ J Q m p h _)
  | |- ?J _ ?Q ?m (on_outcome ?p ?f) => refine (j_on_outcome _ J Q m p f _)
  | |- ?J _ ?Q ?m (try_finally ?p ?f) => refine (j_try_finally _ J Q m p f _)
  end.

(** ** Programs that do not move the monitor *)

Section Stays.
Context {E : Type -> Type} {M : Type} (mon : M -> interaction E -> verdict M) (m : M).

(** Every call of [p] is allowed in [m] and leaves the monitor there. *)
Definition stays {X A} (p : program E X A) : Prop := partial mon (fun _ m' => m' = m) m p.

Definition ignores {T} (e : E T) : Prop := forall a, mon m (Act e a) = Next m.

Lemma stays_use {X A} (Q : A + X -> M -> Prop) (p : program E X A) : stays p -> (forall r, Q r m) -> partial mon Q m p.
Proof. intros H HQ. eapply partial_weaken; [|exact H]. intros r m' ->. apply HQ. Qed.

Context {X : Type}.

Lemma stays_returns {A} (a : A) : stays (X := X) (returns a).
Proof. unfold stays. by wf_step. Qed.
Lemma stays_throws {A} (x : X) : stays (A := A) (throws x).
Proof. unfold stays. by wf_step. Qed.
Lemma stays_call {A} (e : E (A + X)%type) : ignores e -> stays (call e).
Proof. intros He. unfold stays. wf_step; rewrite He in *; [done|congruence]. Qed.
Lemma stays_query {A} (e : E A) : ignores e -> stays (X := X) (query e).
Proof. intros He. unfold stays. wf_step; rewrite He in *; [done|congruence]. Qed.
Lemma stays_seq {A B} (p : program E X A) (f : A -> program E X B) : stays p -> (forall a, stays (f a)) -> stays (seq p f).
Proof. intros Hp Hf. unfold stays. wf_step. apply (stays_use _ p Hp). intros [a|x]; [apply Hf|done]. Qed.
Lemma stays_try_except {A} (p : program E X A) h : stays p -> (forall x, stays (h x)) -> stays (try_except p h).
Proof. intros Hp Hh. unfold stays. wf_step. apply (stays_use _ p Hp). intros [a|x]; [done|apply Hh]. Qed.
Lemma stays_on_outcome {X' A B} (p : program E X A) (f : A + X -> program E X' B) :
  stays p -> (forall r, stays (f r)) -> stays (on_outcome p f).
Proof. intros Hp Hf. unfold stays. wf_step. apply (stays_use _ p Hp). intros r. apply Hf. Qed.
Lemma stays_while_true {I A} (body : I -> program E X (I + A)) i : (forall i, stays (body i)) -> stays (while_true body i).
Proof.
  intros Hb. unfold stays. eapply (partial_while _ (fun _ m' => m' = m)); [|done].
  intros j m' ->. apply (stays_use _ _ (Hb j)). by intros [[?|?]|?].
Qed.
End Stays.

Ltac stays_step :=
  lazymatch goal with
  | |- stays _ _ (returns _) => apply stays_returns
  | |- stays _ _ (throws _) => apply stays_throws
  | |- stays _ _ (call _) => apply stays_call
  | |- stays _ _ (query _) => apply stays_query
  | |- stays _ _ (seq _ _) => apply stays_seq; [|intros ?]
  | |- stays _ _ (try_except _ _) => apply stays_try_except; [|intros ?]
  | |- stays _ _ (on_outcome _ _) => apply stays_on_outcome; [|intros ?]
  | |- stays _ _ (while_true _ _) => apply stays_while_true; intros ?
  | |- stays _ _ (match ?x with _ => _ end) => destruct x
  | |- stays _ _ (let _ := _ in _) => cbv zeta
  end.

(** ** Running a program against a concrete environment *)

Section Drive.
Context {E : Type -> Type} {S : Type} (answer : S -> forall T, E T -> T * S).

Fixpoint drive {R} (fuel : nat) (s : S) (t : itree E R) : list (interaction E) * option R :=
  match fuel with
  | O => ([], None)
  | Datatypes.S n =>
      match observe t with
      | RetF a => ([], Some a)
      | TauF t' => drive n s t'
      | VisF e k =>
          let '(a, s') := answer s _ e in
          let '(l, r) := drive n s' (k a) in (Act e a :: l, r)
      end
  end.

Lemma drive_trace {R} fuel s (t : itree E R) : trace t (drive fuel s t).1 (drive fuel s t).2.
Proof.
  revert s t. induction fuel as [|n IH]; intros s t; simpl; [apply trace_stop|].
  destruct (observe t) as [a|t'|T e k] eqn:Ho; simpl; [by apply trace_ret|by eapply trace_tau|].
  destruct (answer s T e) as [a s']. specialize (IH s' (k a)).
  destruct (drive n s' (k a)) as [l r]. eapply trace_vis; [|done]. unfold after. rewrite Ho. eauto.
Qed.
End Drive.
