(* ===== verification/WfErrors.v ===== *)
(** Failures of a task as the workflow class sees them ([tracecat/dsl/workflow.py]):
    exception objects with their chain of causes, the two walks along that chain,
    and the [except] clauses of [_execute_task]. *)

From S2P Require Import Prelude PyVal DslTypes.

(** ** Exception objects *)

(** The classes the handlers distinguish.  [ActivityError], [ChildWorkflowError] and
    [ApplicationError] derive from temporalio's [FailureError], as do the classes
    named by [XFailure]; [XException] is any other subclass of [Exception];
    [asyncio.CancelledError] is only a [BaseException]. *)
Inductive xclass :=
  | XActivityError | XChildWorkflowError | XApplicationError | XFailure (name : string)
  | XPlatformExecutionError | XTracecatExpressionError | XValidationError
  | XException (name : string) | XCancelledError.

#[export] Instance xclass_eq_dec : EqDecision xclass.
Proof. solve_decision. Defined.

Definition xclass_name (c : xclass) : string :=
  match c with
  | XActivityError => "ActivityError" | XChildWorkflowError => "ChildWorkflowError"
  | XApplicationError => "ApplicationError" | XFailure name | XException name => name
  | XPlatformExecutionError => "PlatformExecutionError"
  | XTracecatExpressionError => "TracecatExpressionError"
  | XValidationError => "ValidationError" | XCancelledError => "CancelledError"
  end.

(** [isinstance(e, FailureError)], [isinstance(e, Exception)]. *)
Definition is_failure_error (c : xclass) : bool :=
  match c with XActivityError | XChildWorkflowError | XApplicationError | XFailure _ => true | _ => false end.
Definition is_exception_class (c : xclass) : bool :=
  match c with XCancelledError => false | _ => true end.

(** Objects are compared by identity; [cause] is the object their [cause]
    attribute holds, if it is an exception. *)
Definition xid : Type := positive.

Record xobj := MkExc {
  x_class : xclass;
  x_str : string;                     (** [str(e)] *)
  x_cause : option xid;
  x_message : string;                 (** [ApplicationError.message] *)
  x_type : option string;             (** [ApplicationError.type] *)
  x_details : list pyobj;             (** [ApplicationError.details] *)
  x_detail : option pyobj }.          (** the detail of a [TracecatExpressionError], the [errors()] of a [ValidationError] *)

(** [a or b] on strings that may be missing. *)
Definition or_str (a : option string) (b : string) : string :=
  match a with Some s => if decide (s = "") then b else s | None => b end.

Section Causes.
Context (heap : gmap xid xobj).

Definition cause_of (o : xid) : option xid := heap !! o ≫= x_cause.

Definition class_of (o : xid) : xclass := default (XException "") (x_class <$> heap !! o).
Definition str_of (o : xid) : string := default "" (x_str <$> heap !! o).

(** [UserError.matches]. *)
Definition user_error_matches (o : xid) : bool :=
  match heap !! o with
  | Some x => bool_decide (x_class x = XApplicationError) && bool_decide (x_type x = Some "UserError")
  | None => false
  end.

(** The two loops; [None] only when the fuel is too small. *)
Fixpoint unwrap_loop (fuel : nat) (seen : gset xid) (current : xid) : option xid :=
  match fuel with
  | O => None
  | S n =>
      if decide (current ∈ seen) then Some current
      else match cause_of current with
           | None => Some current
           | Some nested => unwrap_loop n ({[current]} ∪ seen) nested
           end
  end.

Fixpoint user_error_loop (fuel : nat) (seen : gset xid) (current : xid) : option bool :=
  match fuel with
  | O => None
  | S n =>
      if decide (current ∈ seen) then Some false
      else if user_error_matches current then Some true
      else match cause_of current with
           | None => Some false
           | Some nested => user_error_loop n ({[current]} ∪ seen) nested
           end
  end.

(** One round per object with a cause, and two more. *)
Definition chain_fuel : nat := S (S (size heap)).

Definition _unwrap_temporal_failure_cause (error : xid) : option (xid * string) :=
  current ← unwrap_loop chain_fuel ∅ error;
  Some (current,
    if decide (str_of current = "")
    then if decide (str_of error = "") then xclass_name (class_of current) else str_of error
    else str_of current).

Definition _has_user_error_cause (error : xid) : option bool := user_error_loop chain_fuel ∅ error.

(** ** Along the chain *)

Definition causes (o o' : xid) : Prop := cause_of o = Some o'.

Lemma cause_of_dom o o' : causes o o' -> o ∈ dom heap.
Proof. unfold causes, cause_of. rewrite elem_of_dom. destruct (heap !! o); [eauto|done]. Qed.

(** A walk that remembers the objects it left ends: they are different objects of
    the heap, and it has left every object between the start and where it is. *)
Definition chain (seen : gset xid) (error current : xid) : Prop :=
  seen ⊆ dom heap /\ rtc causes error current /\
  (forall o, o ∈ seen -> tc causes o current) /\
  error ∈ {[current]} ∪ seen /\
  (forall o o', o ∈ seen -> causes o o' -> o' ∈ {[current]} ∪ seen).

Lemma chain_start error : chain ∅ error error.
Proof. repeat split; set_solver. Qed.

Lemma chain_next seen error current nested : chain seen error current -> causes current nested ->
  chain ({[current]} ∪ seen) error nested.
Proof.
  intros (Hd & Hr & Hs & He & Hn) Hc. repeat split.
  - apply cause_of_dom in Hc. set_solver.
  - by eapply rtc_r.
  - intros o [->%elem_of_singleton|Ho]%elem_of_union; [by apply tc_once|]. eapply tc_r; [by apply Hs|done].
  - set_solver.
  - intros o o' [->%elem_of_singleton|Ho]%elem_of_union Ho'.
    + assert (o' = nested) as -> by (unfold causes in *; congruence). set_solver.
    + specialize (Hn o o' Ho Ho'). set_solver.
Qed.

(** Where it stops, it has seen every object of the chain. *)
Lemma chain_complete seen error current : chain seen error current ->
  current ∈ seen \/ cause_of current = None -> forall o, rtc causes error o -> o ∈ {[current]} ∪ seen.
Proof.
  intros (_ & _ & _ & He & Hn) Hstop .
  apply (rtc_ind_r (fun o => o ∈ ({[current]} ∪ seen : gset xid)) error); [done|]. intros o' o'' _ H' IH.
  apply elem_of_union in IH as [->%elem_of_singleton|IH]; [|by eapply Hn].
  destruct Hstop as [Hin|Hnone]; [by eapply Hn|]. unfold causes in H'. congruence.
Qed.

Lemma chain_bound seen error current nested : chain seen error current -> current ∉ seen -> causes current nested ->
  (size ({[current]} ∪ seen) = S (size seen) /\ S (size seen) <= size heap)%nat.
Proof.
  intros (Hd & _) Hn Hc%cause_of_dom.
  assert (size ({[current]} ∪ seen) = S (size seen)) as -> by (rewrite size_union, size_singleton by set_solver; lia).
  split; [done|]. rewrite <- size_dom. etransitivity; [|apply (subseteq_size ({[current]} ∪ seen)); set_solver].
  rewrite size_union, size_singleton by set_solver. lia.
Qed.

Lemma unwrap_loop_spec fuel seen error current :
  chain seen error current -> (S (size heap) < fuel + size seen)%nat ->
  exists root, unwrap_loop fuel seen current = Some root /\ rtc causes error root /\
    (cause_of root = None \/ tc causes root root).
Proof.
  revert seen current. induction fuel as [|n IH]; intros seen current Hc Hf; simpl.
  - destruct Hc as (Hd & _). apply subseteq_size in Hd. rewrite size_dom in Hd. lia.
  - pose proof Hc as (_ & Hr & Hs & _). destruct (decide (current ∈ seen)) as [Hin|Hin].
    + exists current. split; [done|]. split; [done|]. right. by apply Hs.
    + destruct (cause_of current) as [nested|] eqn:E; [|eauto].
      destruct (chain_bound _ _ _ _ Hc Hin E). apply IH; [by apply chain_next|lia].
Qed.

Lemma user_error_loop_spec fuel seen error current :
  chain seen error current -> (forall o, o ∈ seen -> user_error_matches o = false) ->
  (S (size heap) < fuel + size seen)%nat ->
  exists b, user_error_loop fuel seen current = Some b /\
    (b = true <-> exists o, rtc causes error o /\ user_error_matches o = true).
Proof.
  revert seen current. induction fuel as [|n IH]; intros seen current Hc Hu Hf; simpl.
  - destruct Hc as (Hd & _). apply subseteq_size in Hd. rewrite size_dom in Hd. lia.
  - pose proof (chain_complete _ _ _ Hc) as Hall. pose proof Hc as (_ & Hr & _).
    destruct (decide (current ∈ seen)) as [Hin|Hin].
    { exists false. split; [done|]. split; [done|]. intros (o & Ho & Hm).
      specialize (Hall (or_introl Hin) o Ho). assert (o ∈ seen) as Ho' by set_solver. by rewrite (Hu o Ho') in Hm. }
    destruct (user_error_matches current) eqn:Em; [exists true; naive_solver|].
    assert (forall o, o ∈ ({[current]} ∪ seen : gset xid) -> user_error_matches o = false) as Hu'.
    { intros o [->%elem_of_singleton|Ho]%elem_of_union; auto. }
    destruct (cause_of current) as [nested|] eqn:E.
    + destruct (chain_bound _ _ _ _ Hc Hin E). apply IH; [by apply chain_next|done|lia].
    + exists false. split; [done|]. split; [done|]. intros (o & Ho & Hm).
      by rewrite (Hu' o (Hall (or_intror eq_refl) o Ho)) in Hm.
Qed.
End Causes.

(** Both walks along the chain of causes end, on cyclic chains too: the message
    is taken from the root of the chain (or from an object of its cycle), and a
    user error is found exactly when one is on the chain. *)
Theorem cause_walks (heap : gmap xid xobj) (error : xid) :
  (exists root message, _unwrap_temporal_failure_cause heap error = Some (root, message) /\
     rtc (causes heap) error root /\ (cause_of heap root = None \/ tc (causes heap) root root) /\
     message ∈ [str_of heap root; str_of heap error; xclass_name (class_of heap root)]) /\
  (exists b, _has_user_error_cause heap error = Some b /\
     (b = true <-> exists o, rtc (causes heap) error o /\ user_error_matches heap o = true)).
Proof.
  split.
  - destruct (unwrap_loop_spec heap (chain_fuel heap) ∅ error error) as (root & E & Hr & Hroot).
    { apply chain_start. }
    { unfold chain_fuel. lia. }
    unfold _unwrap_temporal_failure_cause. rewrite E. simpl. eexists root, _. split; [done|]. split; [done|].
    split; [done|]. repeat case_decide; set_solver.
  - apply user_error_loop_spec; [apply chain_start|set_solver|unfold chain_fuel; lia].
Qed.

(** ** The [except] clauses of [_execute_task] *)

(** The details the workflow gives to an [ApplicationError]: none, the errors of its
    tasks by reference, or the details of another error as one detail. *)
Inductive error_details :=
  | NoDetails
  | TaskErrors (errors : list (string * ActionErrorInfo))
  | NestedDetails (details : list pyobj).

(** What is in flight: an object the environment raised, or one the workflow's own
    code constructed ([raise ApplicationError(...)], a builtin exception, the wrapper
    of a platform failure). *)
Inductive raised :=
  | Obj (o : xid)
  | NewApplicationError (message : pyobj) (type : string) (details : error_details)
  | NewPlatformExecutionError (error : xid)
  | NewException (name message : string).

Section Handler.
Context (heap : gmap xid xobj).

Definition raised_class (e : raised) : xclass :=
  match e with
  | Obj o => class_of heap o
  | NewApplicationError _ _ _ => XApplicationError
  | NewPlatformExecutionError _ => XPlatformExecutionError
  | NewException name _ => XException name
  end.

Definition raised_cause (e : raised) : option xid :=
  match e with Obj o => cause_of heap o | _ => None end.

(** [str(e)]; the message of an [ApplicationError] this code constructs is a string. *)
Definition raised_str (e : raised) : string :=
  match e with
  | Obj o => str_of heap o
  | NewApplicationError (PVal (VStr s)) _ _ => s
  | NewApplicationError _ _ _ => ""
  | NewPlatformExecutionError o => str_of heap o
  | NewException _ m => m
  end.

Definition detail_of (e : raised) : option pyobj :=
  match e with Obj o => heap !! o ≫= x_detail | _ => None end.

Definition ERROR_TYPE_TO_MESSAGE : gmap string string :=
  {[ "ActivityError" := "Activity execution failed";
     "ChildWorkflowError" := "Child workflow execution failed";
     "FailureError" := "Workflow execution failed";
     "ValidationError" := "Runtime validation error" ]}.

(** [bool] of a payload, as in [e.detail or ...]; stored objects are true. *)
Definition obj_truthy (o : pyobj) : bool :=
  match o with
  | PVal v => truthy v
  | PUnset | PStored _ => true
  | PList l => negb (bool_decide (length l = 0%nat))
  end.

(** [except (ActivityError, ChildWorkflowError, FailureError)]; [unwrap] is defined
    on every object ([cause_walks]). *)
Definition unwrap (e : raised) : xclass * string :=
  match match raised_cause e with Some c => Some c | None => match e with Obj o => Some o | _ => None end end with
  | Some o =>
      match _unwrap_temporal_failure_cause heap o with
      | Some (root, message) => (class_of heap root, message)
      | None => (class_of heap o, "")
      end
  | None =>
      (raised_class e, if decide (raised_str e = "") then xclass_name (raised_class e) else raised_str e)
  end.

Definition handle_failure (e : raised) (task_result : TaskResult) : raised * TaskResult :=
  let err_type := xclass_name (raised_class e) in
  match ERROR_TYPE_TO_MESSAGE !! err_type with
  | None => (NewException "KeyError" err_type, task_result)
  | Some _ =>
      let '(root_class, root_message) := unwrap e in
      let wrapped :=
        let resolved_type := xclass_name root_class in
        (NewApplicationError (PVal (VStr root_message)) resolved_type NoDetails,
         with_error task_result (PVal (VStr root_message)) (Some resolved_type)) in
      match raised_cause e with
      | Some c =>
          match heap !! c with
          | Some x =>
              if decide (x_class x = XApplicationError)
              then match x_details x with
                   | err_info :: _ => (Obj c, with_error task_result err_info (Some (or_str (x_type x) err_type)))
                   | [] =>
                       let err_message := if decide (x_message x = "") then root_message else x_message x in
                       (Obj c, with_error task_result (PVal (VStr err_message)) (Some (or_str (x_type x) err_type)))
                   end
              else wrapped
          | None => wrapped
          end
      | None => wrapped
      end
  end.

(** All the clauses, in order: what leaves the [try] and the result recorded. *)
Definition handle_exception (e : raised) (task_result : TaskResult) : raised * TaskResult :=
  let c := raised_class e in
  if is_failure_error c then handle_failure e task_result
  else if decide (c = XPlatformExecutionError) then (e, task_result)
  else if decide (c = XTracecatExpressionError) then
    let detail := match detail_of e with
                  | Some d => if obj_truthy d then d else PVal (VStr "Error occurred when handling an expression")
                  | None => PVal (VStr "Error occurred when handling an expression")
                  end in
    (NewApplicationError detail (xclass_name c) NoDetails, task_result)
  else if decide (c = XValidationError) then
    (e, with_error task_result (default (PVal VNone) (detail_of e)) (Some "ValidationError"))
  else if is_exception_class c then
    let msg := "Task execution failed with unexpected error: " +:+ raised_str e in
    (NewApplicationError (PVal (VStr msg)) (xclass_name c) NoDetails, with_error task_result (PVal (VStr msg)) (Some (xclass_name c)))
  else (e, task_result).
End Handler.

Section Boundary.
Context (heap : gmap xid xobj).

(** The message found by a walk from [start] to [root]. *)
Definition root_message (start root : xid) : string :=
  if decide (str_of heap root = "")
  then if decide (str_of heap start = "") then xclass_name (class_of heap root) else str_of heap start
  else str_of heap root.

(** [unwrap] reports the root of the chain that starts at the cause, or at the error. *)
Lemma unwrap_root o :
  let start := default o (cause_of heap o) in
  exists root, unwrap heap (Obj o) = (class_of heap root, root_message start root) /\
    rtc (causes heap) start root /\ (cause_of heap root = None \/ tc (causes heap) root root).
Proof.
  simpl. unfold unwrap. simpl.
  destruct (unwrap_loop_spec heap (chain_fuel heap) ∅ (default o (cause_of heap o)) (default o (cause_of heap o)))
    as (root & E & Hr & Hroot); [apply chain_start|unfold chain_fuel; lia|].
  assert (match cause_of heap o with Some c => Some c | None => Some o end = Some (default o (cause_of heap o))) as ->.
  { by destruct (cause_of heap o). }
  unfold _unwrap_temporal_failure_cause, root_message. rewrite E. simpl. eauto.
Qed.

(** What is recorded of the application error [x] that caused a failure: its first
    detail, else its message, else the message of the root. *)
Definition application_payload (x : xobj) (message : string) : pyobj :=
  match x_details x with
  | err_info :: _ => err_info
  | [] => PVal (VStr (if decide (x_message x = "") then message else x_message x))
  end.

(** The failure [o] is reported by its cause when that is an application error, and else
    by a new one with the class and message of the root of its chain of causes; the
    result records the same type. *)
Definition reported (o : xid) (tr : TaskResult) (e' : raised) (tr' : TaskResult) : Prop :=
  let start := default o (cause_of heap o) in
  exists root, rtc (causes heap) start root /\ (cause_of heap root = None \/ tc (causes heap) root root) /\
  let message := root_message start root in
  match cause_of heap o with
  | Some c =>
      if decide (class_of heap c = XApplicationError)
      then e' = Obj c /\
           exists x, heap !! c = Some x /\
             tr' = with_error tr (application_payload x message) (Some (or_str (x_type x) (xclass_name (class_of heap o))))
      else e' = NewApplicationError (PVal (VStr message)) (xclass_name (class_of heap root)) NoDetails /\
           tr' = with_error tr (PVal (VStr message)) (Some (xclass_name (class_of heap root)))
  | None =>
      e' = NewApplicationError (PVal (VStr message)) (xclass_name (class_of heap root)) NoDetails /\
      tr' = with_error tr (PVal (VStr message)) (Some (xclass_name (class_of heap root)))
  end.

Lemma handle_failure_reported o tr : is_Some (ERROR_TYPE_TO_MESSAGE !! xclass_name (class_of heap o)) ->
  reported o tr (handle_failure heap (Obj o) tr).1 (handle_failure heap (Obj o) tr).2.
Proof.
  intros [m Hm]. destruct (unwrap_root o) as (root & Hu & Hr & Hroot).
  exists root. split; [exact Hr|]. split; [exact Hroot|]. cbv zeta.
  unfold handle_failure, application_payload. rewrite Hu. cbn [raised_class raised_cause]. rewrite Hm. cbv zeta.
  destruct (cause_of heap o) as [c|] eqn:Ec; [|done]. 
  destruct (decide (class_of heap c = XApplicationError)) as [Hx|Hx]; unfold class_of in Hx;
    destruct (heap !! c) as [x|] eqn:Ex; simpl in Hx; try done.
  - rewrite decide_True by done. destruct (x_details x) eqn:Ed; (split; [done|]); exists x; by rewrite Ed.
  - by rewrite decide_False.
Qed.

(** What the clause for failures raises. *)
Lemma handle_failure_class e tr : is_failure_error (raised_class heap e) = true ->
  raised_class heap (handle_failure heap e tr).1 =
    match ERROR_TYPE_TO_MESSAGE !! xclass_name (raised_class heap e) with
    | None => XException "KeyError"
    | Some _ => XApplicationError
    end.
Proof.
  intros _. unfold handle_failure. destruct (ERROR_TYPE_TO_MESSAGE !! _); [|done].
  destruct (unwrap heap e) as [rc rm]. destruct (raised_cause heap e) as [c|]; [|done].
  destruct (heap !! c) as [x|] eqn:Ex; [|done]. case_decide as Hx; [|done].
  destruct (x_details x); simpl; unfold class_of; by rewrite Ex.
Qed.

Lemma handle_exception_class e tr : raised_class heap e <> XCancelledError ->
  raised_class heap (handle_exception heap e tr).1 =
    if is_failure_error (raised_class heap e) then
      match ERROR_TYPE_TO_MESSAGE !! xclass_name (raised_class heap e) with
      | None => XException "KeyError"
      | Some _ => XApplicationError
      end
    else match raised_class heap e with
         | (XPlatformExecutionError | XValidationError) as c => c
         | _ => XApplicationError
         end.
Proof.
  intros Hc. unfold handle_exception. destruct (is_failure_error (raised_class heap e)) eqn:Ef; [by apply handle_failure_class|].
  repeat (case_decide as Hd; [simpl; by rewrite Hd|]). destruct (raised_class heap e) eqn:Ec; done.
Qed.
End Boundary.

(** What the clauses make of an exception, class by class. *)
Definition boundary (heap : gmap xid xobj) (e : raised) (tr : TaskResult) (e' : raised) (tr' : TaskResult) : Prop :=
  let name := xclass_name (raised_class heap e) in
  match raised_class heap e with
  | XCancelledError | XPlatformExecutionError => e' = e /\ tr' = tr
  | XTracecatExpressionError =>
      tr' = tr /\
      exists detail, e' = NewApplicationError detail name NoDetails /\
        (detail_of heap e = Some detail /\ obj_truthy detail = true \/
         (forall d, detail_of heap e = Some d -> obj_truthy d = false) /\
         detail = PVal (VStr "Error occurred when handling an expression"))
  | XValidationError =>
      e' = e /\ tr' = with_error tr (default (PVal VNone) (detail_of heap e)) (Some "ValidationError")
  | XException _ =>
      let message := PVal (VStr ("Task execution failed with unexpected error: " +:+ raised_str heap e)) in
      e' = NewApplicationError message name NoDetails /\ tr' = with_error tr message (Some name)
  | XActivityError | XChildWorkflowError | XApplicationError | XFailure _ =>
      match ERROR_TYPE_TO_MESSAGE !! name with
      | Some _ => forall o, e = Obj o -> reported heap o tr e' tr'
      | None => e' = NewException "KeyError" name /\ tr' = tr
      end
  end.

(** C23: what leaves the [except] clauses of a task and what is recorded in its result,
    for every class of exception.  A cancellation and a platform failure pass unchanged
    and record nothing; an expression error leaves as an application error with its
    detail and records nothing; a validation error passes, and its errors are recorded;
    the failure of an activity or of a child workflow is reported, and recorded with the
    same type, by the application error that caused it or by the root of its chain of
    causes; a subclass of [FailureError] that the message table does not name (such as
    [ApplicationError]) is replaced by the handler's own [KeyError] and records nothing;
    every other exception leaves as an application error with its class and its text,
    which are recorded. *)
Theorem error_boundary (heap : gmap xid xobj) (e : raised) (tr : TaskResult) :
  boundary heap e tr (handle_exception heap e tr).1 (handle_exception heap e tr).2.
Proof.
  unfold boundary, handle_exception.
  assert (forall n, ERROR_TYPE_TO_MESSAGE !! xclass_name (raised_class heap e) = n ->
    match n with
    | Some _ => forall o, e = Obj o -> reported heap o tr (handle_failure heap e tr).1 (handle_failure heap e tr).2
    | None => (handle_failure heap e tr).1 = NewException "KeyError" (xclass_name (raised_class heap e)) /\ (handle_failure heap e tr).2 = tr
    end) as Hfail.
  { intros [m|] Hn; [|unfold handle_failure; by rewrite Hn].
    intros o ->. by apply handle_failure_reported. }
  specialize (Hfail _ eq_refl). destruct (raised_class heap e) eqn:Ec; simpl in *; try done.
  split; [done|]. destruct (detail_of heap e) as [d|]; [destruct (obj_truthy d) eqn:Ed|]; eexists; naive_solver.
Qed.
