(* ===== verification/WfEvents.v ===== *)
(** The world of the workflow class ([DSLWorkflow] in [tracecat/dsl/workflow.py]): the
    configuration it reads, and the calls it makes to the Temporal runtime and its
    activities.  Durations and waiting times are exact rationals where the code
    computes with binary64 floats; [workflow.now()] is in microseconds. *)

From Stdlib Require Import QArith.
From S2P Require Import Prelude PyVal DslTypes Permits Interact WfErrors.

#[local] Open Scope Z_scope.

(** ** Configuration ([tracecat/config.py]) *)

Record Config := MkConfig {
  WORKFLOW_PERMIT_MAX_WAIT_SECONDS : Z;
  ACTION_PERMIT_MAX_WAIT_SECONDS : Z;
  WORKFLOW_PERMIT_BACKOFF_BASE_SECONDS : Q;
  WORKFLOW_PERMIT_BACKOFF_MAX_SECONDS : Q;
  WORKFLOW_PERMIT_HEARTBEAT_SECONDS : Q;
  CHILD_WORKFLOW_DISPATCH_WINDOW : Z;
  WORKFLOW_RETURN_STRATEGY : string }.

(** The values used when the environment sets nothing. *)
Definition DEFAULT_CONFIG : Config := MkConfig 300 120 1 30 60 16 "minimal".

(** ** Child workflows ([dsl/common.py], [dsl/enums.py]) *)

Inductive FailStrategy := FailISOLATED | FailALL.
Inductive LoopStrategy := LoopPARALLEL | LoopBATCH | LoopSEQUENTIAL.
Inductive WaitStrategy := WaitWAIT | WaitDETACH.

#[export] Instance FailStrategy_eq_dec : EqDecision FailStrategy.
Proof. solve_decision. Defined.
#[export] Instance WaitStrategy_eq_dec : EqDecision WaitStrategy.
Proof. solve_decision. Defined.

Record DSLConfig := MkDSLConfig { cfg_environment : string; cfg_timeout : spec_float }.

Inductive RuntimeConfigs := NoConfigs | OneConfig (c : DSLConfig) | ManyConfigs (l : list DSLConfig).

(** The definition and its registry lock go to every child unchanged; of the definition
    only the configuration is read. *)
Record PreparedSubflowResult := MkPrepared {
  p_wf_id : string;
  p_dsl_config : DSLConfig;
  p_trigger_inputs : option stored;
  p_runtime_configs : RuntimeConfigs }.

(** What differs between the children of a task: the run arguments and the memo. *)
Record ChildStart := MkChildStart {
  cs_wf_id : string;
  cs_trigger_inputs : option stored;
  cs_runtime_config : DSLConfig;
  cs_time_anchor : Z;
  cs_action_ref : string;
  cs_loop_index : option Z;
  cs_wait_strategy : WaitStrategy;
  cs_stream_id : StreamID;
  cs_mask_output : bool }.

(** [parent_close_policy]: whether the child outlives the parent. *)
Definition abandoned (c : ChildStart) : bool := bool_decide (cs_wait_strategy c = WaitDETACH).

(** ** Workflow runs ([dsl/common.py], [dsl/types.py]) *)

(** What the run of a workflow reads of its definition; a registry lock is an opaque
    value. *)
Record DSLDefinition := MkDefinition {
  d_title : string;
  d_config : DSLConfig;
  d_expects : val;                    (** [None] or the input schema *)
  d_returns : val;
  d_actions : list ActionStatement }.

(** The fields that are set in the runtime configuration of the arguments. *)
Record ConfigUpdate := MkUpdate { u_environment : option string; u_timeout : option spec_float }.

Record DSLRunArgs := MkRunArgs {
  ra_wf_id : string;
  ra_dsl : option DSLDefinition;
  ra_registry_lock : option val;
  ra_runtime_config : option ConfigUpdate;
  ra_trigger_inputs : option stored;
  ra_schedule_id : option string;
  ra_time_anchor : option Z }.

(** [workflow.info()], with the two search attributes that are read. *)
Record WfInfo := MkWfInfo {
  wi_workflow_id : string;
  wi_start_time : Z;
  wi_trigger_type : option string;
  wi_scheduled_start_time : option Z }.

(** The run as the scheduler is given it: the user's context and the run context. *)
Record RunState := MkRunState {
  rs_wf_id : string;
  rs_config : DSLConfig;
  rs_trigger : option stored;
  rs_time_anchor : Z;
  rs_dispatch_type : string;
  rs_trigger_type : string }.

(** [TaskExceptionInfo] of the scheduler: the exception as a string, and the details. *)
Record TaskFailure := MkTaskFailure { tf_exception : string; tf_details : ActionErrorInfo }.

(** The arguments of an error handler: its definition and lock, the configuration it
    inherits, and [ErrorHandlerWorkflowInput]. *)
Record ErrorHandlerRun := MkErrorHandlerRun {
  eh_wf_id : string;
  eh_dsl : DSLDefinition;
  eh_registry_lock : option val;
  eh_runtime_config : DSLConfig;
  eh_message : string;
  eh_orig_wf_id : string;
  eh_orig_wf_exec_id : string;
  eh_orig_wf_title : string;
  eh_trigger_type : string;
  eh_errors : option (list ActionErrorInfo) }.

(** A handle is identified by the execution id of the child. *)
Definition handle : Type := string.

(** ** Clean-up coroutines run to completion under cancellation *)

Inductive cleanup :=
  | StopActionHeartbeat (action_id : string)
  | ReleaseAction (action_id : string)
  | StopWorkflowHeartbeat
  | ReleaseWorkflow (workflow_id : string).

#[export] Instance cleanup_eq_dec : EqDecision cleanup.
Proof. solve_decision. Defined.

(** The agents a task may run. *)
Inductive agent_kind := AgentTask | AgentAction | AgentPreset.

Inductive duration := Exact (q : Q) | Float (f : spec_float).

(** ** The calls *)

Inductive wfE : Type -> Type :=
  (** the runtime: clock, deterministic randomness, timers, [create_task], [shield] *)
  | Now : wfE Z
  | Uniform (lo hi : Q) : wfE Q
  | Sleep (d : duration) : wfE (unit + raised)%type
  | Yield : wfE (unit + raised)%type                    (** [asyncio.sleep(0)] *)
  | StartHeartbeat (scope : PermitScope) (permit_id : string) : wfE unit
  (** [None] when no task was created, else [task.done()] *)
  | HeartbeatDone (scope : PermitScope) (permit_id : string) : wfE (option bool)
  | CancelHeartbeat (scope : PermitScope) (permit_id : string) : wfE unit
  | JoinHeartbeat (scope : PermitScope) (permit_id : string) : wfE (unit + raised)%type
  | ForgetHeartbeat (scope : PermitScope) (permit_id : string) : wfE unit
  | Spawn (c : cleanup) : wfE unit
  | Shield (c : cleanup) : wfE (unit + raised)%type
  (** state of the workflow object shared by its tasks *)
  (** [self._action_execution_count += n], and its new value: no other task runs between *)
  | AddExecutions (n : Z) : wfE Z
  | PermitFlag : wfE bool
  | SetPermitFlag (b : bool) : wfE unit
  | SetActionResult (stream_id : StreamID) (ref : string) (r : TaskResult) : wfE unit
  (** permits ([tiers/activities.py]) *)
  | AcquirePermit (scope : PermitScope) (permit_id : string) (limit : Z) : wfE (AcquireResult + raised)%type
  | ReleasePermit (scope : PermitScope) (permit_id : string) : wfE (unit + raised)%type
  | HeartbeatPermit (scope : PermitScope) (permit_id : string) : wfE (bool + raised)%type
  (** activities of a task *)
  | ParseWaitUntil (s : string) : wfE (option Z + raised)%type
  (** in the context of a stream itself; the others are given the stream-aware context
      ([build_stream_aware_context]), [PrepareSubflow] and [EvaluateTemplatedObject] the
      context of the stream itself *)
  | EvaluateSingleExpression (expr : string) (stream_id : StreamID) : wfE (val + raised)%type
  | EvaluateEnvironment (expr : string) (task : ActionStatement) (stream_id : StreamID) : wfE (val + raised)%type
  | ExecuteAction (task : ActionStatement) (stream_id : StreamID) (environment : option val) (session : bool) :
      wfE (stored + raised)%type
  | NoopGather (task : ActionStatement) (stream_id : StreamID) : wfE (TaskResult + raised)%type
  | NoopLoop (task : ActionStatement) (stream_id : StreamID) : wfE (TaskResult + raised)%type
  | BuildAgentArgs (k : agent_kind) (task : ActionStatement) (stream_id : StreamID) : wfE (val + raised)%type
  | ResolveAgentPreset (args : val) : wfE (val + raised)%type
  | RunAgent (k : agent_kind) (args : val) (preset : option val) : wfE (pyobj + raised)%type
  (** child workflows *)
  | PrepareSubflow (task : ActionStatement) (stream_id : StreamID) : wfE (PreparedSubflowResult + raised)%type
  | EvaluateTemplatedObject (obj : val) (stream_id : StreamID) : wfE (option stored + raised)%type
  | StartChild (c : ChildStart) : wfE (handle + raised)%type
  | AwaitChild (h : handle) : wfE (stored + raised)%type
  (** [asyncio.gather(..., return_exceptions=True)] of starts, and of handles *)
  | StartChildren (cs : list ChildStart) : wfE (list (handle + raised) + raised)%type
  | AwaitChildren (hs : list handle) : wfE (list (stored + raised) + raised)%type
  | SynchronizeCollection (l : list stored) : wfE (stored + raised)%type
  (** the workflow *)
  | GetTierLimits : wfE (option EffectiveLimits + raised)%type
  | GetWorkspaceOrganizationId : wfE (string + raised)%type
  | GetWorkflowDefinition (wf_id : string) : wfE (DSLDefinition * option val + raised)%type
  | ResolveRegistryLock (action_names : list string) : wfE (val + raised)%type
  | ConcurrencyLimitsEnabled : wfE (bool + raised)%type
  | GetScheduleTriggerInputs (schedule_id wf_id : string) : wfE (option stored + raised)%type
  | NormalizeTriggerInputs (input_schema : val) (trigger_inputs : option stored) : wfE (option stored + raised)%type
  (** the local activity [resolve_time_anchor_activity] runs *)
  | TimeAnchorActivity : wfE (unit + raised)%type
  (** [DSLScheduler.start] *)
  | RunScheduler (dsl : DSLDefinition) (r : RunState) : wfE (list (string * TaskFailure) + raised)%type
  (** [InlineObject(data=self.context)] without its environment, [InlineObject(data=self.run_context)] *)
  | InlineContext : wfE stored
  | InlineRunContext : wfE stored
  | ResolveReturnExpression (obj : val) : wfE (stored + raised)%type
  | GetErrorHandlerWorkflowId : wfE (option string + raised)%type
  | RunErrorHandler (r : ErrorHandlerRun) : wfE (unit + raised)%type.

(** What the workflow object knows when it executes tasks. *)
Record WfCtx := MkWfCtx {
  workflow_id : string;
  time_anchor : Z;
  wf_start_time : Z;
  tier_limits : option EffectiveLimits }.

Definition wf (A : Type) : Type := program wfE raised A.
