(* ===== verification/WfPermit.v ===== *)
(** Concurrency permits in the workflow class ([tracecat/dsl/workflow.py]): waiting for
    a permit with exponential backoff, the heartbeats, the release, the clean-up that
    survives a cancellation, and the limit on action executions.  The semaphore
    behind the activities is in [Permits]. *)

From Stdlib Require Import QArith Lqa.
From S2P Require Import Prelude PyVal DslTypes Permits Interact WfErrors WfEvents.

#[local] Open Scope Z_scope.
#[local] Open Scope wf_scope.

(** [max(a, b)] and [min(a, b)] keep the first of equal arguments. *)
Definition qmax (a b : Q) : Q := if Qle_bool b a then a else b.
Definition qmin (a b : Q) : Q := if Qle_bool a b then a else b.

(** [(later - earlier).total_seconds()]. *)
Definition total_seconds (later earlier : Z) : Q := (later - earlier) # 1000000.

Section Permits.
Context (cfg : Config) (heap : gmap xid xobj).
(** [temporalio.exceptions.is_cancelled_exception]. *)
Context (is_cancelled_exception : raised -> bool).

Definition is_exception (e : raised) : bool := is_exception_class (raised_class heap e).

(** [except Exception: <log>]. *)
Definition log_exceptions (m : wf unit) : wf unit :=
  try_except m (fun e => if is_exception e then returns tt else throws e).

(** [2**attempt] is an integer that is converted to a float by the product. *)
Definition _next_permit_backoff_seconds (attempt : nat) : wf Q :=
  let base := qmax (WORKFLOW_PERMIT_BACKOFF_BASE_SECONDS cfg) (1 # 10) in
  let max_backoff := qmax (WORKFLOW_PERMIT_BACKOFF_MAX_SECONDS cfg) base in
  if (1024 <=? attempt)%nat then throws (NewException "OverflowError" "int too large to convert to float")
  else
    let exponential := qmin (base * inject_Z (2 ^ Z.of_nat attempt)) max_backoff in
    let~ jitter := query (Uniform (8 # 10) (12 # 10)) in
    returns (exponential * jitter)%Q.

Definition _next_permit_heartbeat_sleep_seconds (heartbeat_interval : Q) : wf Q :=
  let~ jitter := query (Uniform (9 # 10) (11 # 10)) in
  returns (qmax (heartbeat_interval * jitter) (1 # 10)).

(** *** Acquiring *)

Definition max_wait_seconds (scope : PermitScope) : Z :=
  match scope with
  | WORKFLOW => WORKFLOW_PERMIT_MAX_WAIT_SECONDS cfg
  | ACTION => ACTION_PERMIT_MAX_WAIT_SECONDS cfg
  end.

Definition timeout_error (scope : PermitScope) : raised :=
  match scope with
  | WORKFLOW => NewApplicationError (PVal (VStr "Timed out waiting for workflow concurrency permit"))
                  "WorkflowPermitTimeoutExceeded" NoDetails
  | ACTION => NewApplicationError (PVal (VStr "Timed out waiting for action concurrency permit"))
                "ActionPermitTimeoutExceeded" NoDetails
  end.

(** The loop of [_acquire_workflow_permit] and of [_acquire_action_permit]. *)
Definition acquire_attempt (scope : PermitScope) (permit_id : string) (limit : Z) (on_acquired : wf unit)
    (started_at : Z) (attempt : nat) : wf (nat + unit) :=
  let~ result := call (AcquirePermit scope permit_id limit) in
  if acquired result then do~ on_acquired ;; returns (inr tt)
  else
    let~ now := query Now in
    let elapsed_seconds := total_seconds now started_at in
    let max_wait := inject_Z (max_wait_seconds scope) in
    if Qle_bool max_wait elapsed_seconds then throws (timeout_error scope)
    else
      let~ backoff := _next_permit_backoff_seconds attempt in
      do~ call (Sleep (Exact (qmin backoff (max_wait - elapsed_seconds)))) ;;
      returns (inl (S attempt)).

Definition acquire_loop (scope : PermitScope) (permit_id : string) (limit : Z) (on_acquired : wf unit) : wf unit :=
  let~ started_at := query Now in
  while_true (acquire_attempt scope permit_id limit on_acquired started_at) 0%nat.

Definition _acquire_action_permit (action_id : string) (limit : Z) : wf unit :=
  acquire_loop ACTION action_id limit (returns tt).

Definition _start_workflow_permit_heartbeat (workflow_id : string) : wf unit :=
  let~ task := query (HeartbeatDone WORKFLOW workflow_id) in
  match task with
  | Some false => returns tt
  | _ => query (StartHeartbeat WORKFLOW workflow_id)
  end.

Definition _acquire_workflow_permit (workflow_id : string) (limit : Z) : wf unit :=
  acquire_loop WORKFLOW workflow_id limit
    (do~ query (SetPermitFlag true) ;; _start_workflow_permit_heartbeat workflow_id).

(** *** Heartbeats *)

(** The body of both heartbeat loops; a failed heartbeat is only logged. *)
Definition heartbeat_once (scope : PermitScope) (permit_id : string) : wf unit :=
  log_exceptions (do~ call (HeartbeatPermit scope permit_id) ;; returns tt).

Definition _action_permit_heartbeat_loop (action_id : string) : wf unit :=
  let interval := WORKFLOW_PERMIT_HEARTBEAT_SECONDS cfg in
  if Qle_bool interval 0 then returns tt
  else while_true (fun _ : unit =>
    let~ s := _next_permit_heartbeat_sleep_seconds interval in
    do~ call (Sleep (Exact s)) ;;
    do~ heartbeat_once ACTION action_id ;;
    returns (inl tt)) tt.

Definition _workflow_permit_heartbeat_loop (workflow_id : string) : wf unit :=
  let interval := WORKFLOW_PERMIT_HEARTBEAT_SECONDS cfg in
  if Qle_bool interval 0 then returns tt
  else while_true (fun _ : unit =>
    let~ held := query PermitFlag in
    if negb held then returns (inr tt)
    else
      let~ s := _next_permit_heartbeat_sleep_seconds interval in
      do~ call (Sleep (Exact s)) ;;
      let~ held := query PermitFlag in
      if negb held then returns (inr tt)
      else do~ heartbeat_once WORKFLOW workflow_id ;; returns (inl tt)) tt.

(** *** Stopping and releasing *)

(** The argument of [_stop_action_permit_heartbeat] is a task that was created. *)
Definition _stop_action_permit_heartbeat (action_id : string) : wf unit :=
  let~ done_ := query (HeartbeatDone ACTION action_id) in
  do~ match done_ with Some false => query (CancelHeartbeat ACTION action_id) | _ => returns tt end ;;
  call (JoinHeartbeat ACTION action_id).

Definition _stop_workflow_permit_heartbeat (workflow_id : string) : wf unit :=
  let~ task := query (HeartbeatDone WORKFLOW workflow_id) in
  match task with
  | None => returns tt
  | Some done_ =>
      do~ (if (done_ : bool) return wf unit then returns tt
           else do~ query (CancelHeartbeat WORKFLOW workflow_id) ;; call (JoinHeartbeat WORKFLOW workflow_id)) ;;
      query (ForgetHeartbeat WORKFLOW workflow_id)
  end.

Definition _release_workflow_permit (workflow_id : string) : wf unit :=
  let~ held := query PermitFlag in
  if negb held then returns tt
  else log_exceptions (do~ call (ReleasePermit WORKFLOW workflow_id) ;; query (SetPermitFlag false)).

Definition _release_action_permit (action_id : string) : wf unit :=
  log_exceptions (call (ReleasePermit ACTION action_id)).

(** [_run_cancellation_safe_cleanup]: the clean-up runs in a task of its own, which a
    cancellation of the caller does not reach. *)
Definition _run_cancellation_safe_cleanup (c : cleanup) : wf unit :=
  do~ query (Spawn c) ;;
  try_except (call (Shield c)) (fun e =>
    if negb (is_cancelled_exception e) then throws e else call (Shield c)).

(** *** The limit on action executions *)

Definition _check_action_execution_limit (tier_limits : option EffectiveLimits) : wf unit :=
  match tier_limits ≫= max_action_executions_per_workflow with
  | None => returns tt
  | Some max_actions =>
      let~ count := query (AddExecutions 1) in
      if max_actions <? count
      then throws (NewApplicationError (PVal (VStr "Action execution limit exceeded")) "ActionExecutionLimitExceeded" NoDetails)
      else returns tt
  end.
End Permits.

(** What a clean-up task executes. *)
Definition cleanup_code (heap : gmap xid xobj) (workflow_id : string) (c : cleanup) : wf unit :=
  match c with
  | StopActionHeartbeat action_id => _stop_action_permit_heartbeat action_id
  | ReleaseAction action_id => _release_action_permit heap action_id
  | StopWorkflowHeartbeat => _stop_workflow_permit_heartbeat workflow_id
  | ReleaseWorkflow id => _release_workflow_permit heap id
  end.
