(* ===== verification/WfPermitFacts.v ===== *)
(** Waiting for a permit: how long it can take, what ends it, and the heartbeats. *)

From Stdlib Require Import QArith Qminmax Lqa.
From S2P Require Import Prelude PyVal DslTypes Permits Interact WfErrors WfEvents WfPermit.

#[local] Open Scope Z_scope.
#[local] Open Scope wf_scope.

(** ** The clock *)

(** The clock as a caller of [workflow.now()] sees it: [earliest] is the least time
    (in seconds) it can read next.  A timer fires when its time has passed, not
    before; random numbers are in their range; what the runtime raises is an
    exception object. *)
Record clock := MkClock {
  earliest : Q;
  started : option Q;                 (** the first reading *)
  attempts : nat;                     (** calls of the acquire activity *)
  granted : bool;                     (** its last answer *)
  slept : Q }.                        (** the sum of the sleeps asked for *)

Definition seconds (now : Z) : Q := now # 1000000.

Definition from_runtime {A} (r : A + raised) : bool :=
  match r with inr (Obj _) => true | inr _ => false | inl _ => true end.

Definition clock_mon (c : clock) (x : interaction wfE) : verdict clock :=
  match x with
  | Act e a =>
      match e in wfE T return T -> verdict clock with
      | Now => fun now =>
          if Qle_bool (earliest c) (seconds now)
          then Next (MkClock (seconds now) (match started c with None => Some (seconds now) | s => s end)
                       (attempts c) (granted c) (slept c))
          else Never
      | Uniform lo hi => fun q => if Qle_bool lo q && Qle_bool q hi then Next c else Never
      | Sleep d => fun r =>
          if negb (from_runtime r) then Never
          else match d with
               | Exact s =>
                   if Qle_bool s 0 then Bad
                   else match r with
                        | inl _ => Next (MkClock (earliest c + s) (started c) (attempts c) (granted c) (slept c + s))
                        | inr _ => Next (MkClock (earliest c) (started c) (attempts c) (granted c) (slept c + s))
                        end
               | Float _ => Next c
               end
      | AcquirePermit _ _ _ => fun r =>
          if negb (from_runtime r) then Never
          else Next (MkClock (earliest c) (started c) (S (attempts c))
                       (match r with inl g => acquired g | inr _ => false end) (slept c))
      | _ => fun _ => Next c
      end a
  end.

(** ** Arithmetic *)

Lemma Qle_bool_false (a b : Q) : Qle_bool a b = false <-> (b < a)%Q.
Proof.
  rewrite Qlt_alt. unfold Qle_bool, Qcompare. rewrite Z.leb_gt, Z.compare_lt_iff. done.
Qed.

Lemma qmax_spec a b : (qmax a b == Qmax a b)%Q.
Proof.
  unfold qmax. destruct (Qle_bool b a) eqn:E.
  - apply Qle_bool_iff in E. by rewrite Q.max_l.
  - apply Qle_bool_false in E. rewrite Q.max_r; [done|]. by apply Qlt_le_weak.
Qed.

Lemma qmin_cases a b : (qmin a b = a /\ a <= b \/ qmin a b = b /\ b < a)%Q.
Proof.
  unfold qmin. destruct (Qle_bool a b) eqn:E; [left|right]; split; try done.
  - by apply Qle_bool_iff.
  - by apply Qle_bool_false.
Qed.

Lemma qmax_cases a b : (qmax a b = a /\ b <= a \/ qmax a b = b /\ a < b)%Q.
Proof.
  unfold qmax. destruct (Qle_bool b a) eqn:E; [left|right]; split; try done.
  - by apply Qle_bool_iff.
  - by apply Qle_bool_false.
Qed.

Lemma total_seconds_spec later earlier : (total_seconds later earlier == seconds later - seconds earlier)%Q.
Proof. unfold total_seconds, seconds. rewrite Qeq_alt. unfold Qcompare, Qminus, Qplus, Qopp. simpl. apply Z.compare_eq_iff. lia. Qed.

(** ** Waiting for a permit *)

Section Acquire.
Context (cfg : Config) (scope : PermitScope) (permit_id : string) (limit : Z).
(** What is done once the permit is held: it does not touch the clock or the semaphore. *)
Context (on_acquired : wf unit).
Hypothesis on_acquired_ok : forall (Q : unit + raised -> clock -> Prop) c,
  Q (inl tt) c -> total clock_mon Q c on_acquired.

(** The shortest time the code sleeps before another attempt. *)
Definition shortest_wait : Q := (8 # 10) * qmax (WORKFLOW_PERMIT_BACKOFF_BASE_SECONDS cfg) (1 # 10).

Lemma shortest_wait_pos : (0 < shortest_wait)%Q.
Proof.
  unfold shortest_wait. destruct (qmax_cases (WORKFLOW_PERMIT_BACKOFF_BASE_SECONDS cfg) (1 # 10)) as [[-> H]|[-> H]]; lra.
Qed.

Lemma pow2_ge_1 n : (1 <= inject_Z (2 ^ Z.of_nat n))%Q.
Proof. rewrite <- (Zle_Qle 1). pose proof (Z.pow_pos_nonneg 2 (Z.of_nat n)). lia. Qed.

(** A backoff is at least the shortest wait, or the exponent is too large. *)
Lemma backoff_spec (Q : Q + raised -> clock -> Prop) attempt c :
  (forall b, (shortest_wait <= b)%Q -> Q (inl b) c) ->
  ((1024 <= attempt)%nat -> Q (inr (NewException "OverflowError" "int too large to convert to float")) c) ->
  total clock_mon Q c (_next_permit_backoff_seconds cfg attempt).
Proof.
  intros Hb Ho. unfold _next_permit_backoff_seconds. destruct (1024 <=? attempt)%nat eqn:E.
  { wf_step. apply Ho. by apply Nat.leb_le. }
  wf_step. wf_step; simpl in *.
  { by destruct (Qle_bool _ _ && Qle_bool _ _). }
  destruct (Qle_bool (8 # 10) a) eqn:E1, (Qle_bool a (12 # 10)); simplify_eq/=. apply Qle_bool_iff in E1.
  wf_step. apply Hb. unfold shortest_wait. pose proof (pow2_ge_1 attempt) as Hp.
  set (base := qmax (WORKFLOW_PERMIT_BACKOFF_BASE_SECONDS cfg) (1 # 10)).
  assert (0 < base)%Q as Hbase.
  { unfold base. destruct (qmax_cases (WORKFLOW_PERMIT_BACKOFF_BASE_SECONDS cfg) (1 # 10)) as [[-> H]|[-> H]]; lra. }
  assert (base <= base * inject_Z (2 ^ Z.of_nat attempt))%Q as H1 by nra.
  destruct (qmin_cases (base * inject_Z (2 ^ Z.of_nat attempt)) (qmax (WORKFLOW_PERMIT_BACKOFF_MAX_SECONDS cfg) base)) as [[-> H]|[-> H]];
    [nra|].
  destruct (qmax_cases (WORKFLOW_PERMIT_BACKOFF_MAX_SECONDS cfg) base) as [[Hq ?]|[Hq ?]]; rewrite Hq; nra.
Qed.

(** How the wait ended: the permit was granted, the runtime raised, the time is up, or
    the exponent of the backoff overflowed. *)
Definition wait_outcome (r : unit + raised) (c : clock) : Prop :=
  match r with
  | inl _ => granted c = true
  | inr (Obj _) => True
  | inr e =>
      granted c = false /\
      (e = timeout_error scope /\
         (exists s, started c = Some s /\ (inject_Z (max_wait_seconds cfg scope) <= earliest c - s)%Q) \/
       e = NewException "OverflowError" "int too large to convert to float" /\ (1024 < attempts c)%nat)
  end.

(** The sleeps do not add up to more than the maximal wait. *)
Definition longest_sleep : Q := Qmax 0 (inject_Z (max_wait_seconds cfg scope)).

(** [n] more sleeps are possible: each takes at least the shortest wait, or is the last. *)
Definition waiting (N : nat) (started_at : Z) (n attempt : nat) (c : clock) : Prop :=
  started c = Some (seconds started_at) /\ attempts c = attempt /\ (attempt + n = N)%nat /\
  (slept c <= longest_sleep)%Q /\ (slept c <= earliest c - seconds started_at)%Q /\
  (inject_Z (max_wait_seconds cfg scope) - (earliest c - seconds started_at) <= shortest_wait * inject_Z (Z.of_nat n))%Q.

Definition within_budget (N : nat) (r : unit + raised) (c : clock) : Prop :=
  (attempts c <= S N)%nat /\ (slept c <= longest_sleep)%Q /\ wait_outcome r c.

Lemma acquire_attempt_spec N started_at n attempt c : waiting N started_at n attempt c ->
  total clock_mon (loop_post (fun a c' => exists n', (n' < n)%nat /\ waiting N started_at n' a c') (within_budget N)) c
    (acquire_attempt cfg scope permit_id limit on_acquired started_at attempt).
Proof.
  intros (Hs & Ha & HN & Hl & He & Hw). unfold acquire_attempt.
  wf_step. wf_step; simpl in *. { by destruct (from_runtime r). }
  destruct r as [g|[o| | |]]; simplify_eq/=; [|split; simpl; [lia|done]].
  destruct (acquired g) eqn:Eg.
  { wf_step. apply on_acquired_ok. wf_step. simpl. split; simpl; [lia|done]. }
  wf_step. wf_step; simpl in *. { by destruct (Qle_bool _ _). }
  destruct (Qle_bool (earliest c) (seconds a)) eqn:Et; simplify_eq/=. apply Qle_bool_iff in Et.
  pose proof (total_seconds_spec a started_at) as Hel.
  destruct (Qle_bool _ (total_seconds a started_at)) eqn:Emax.
  { apply Qle_bool_iff in Emax. wf_step. unfold loop_post. split; simpl; [lia|]. split; [done|]. rewrite Hs.
    assert (exists m t, timeout_error scope = NewApplicationError m t NoDetails) as (m & t & Ht) by (destruct scope; simpl; eauto).
    rewrite Ht. split; [done|]. left. split; [done|]. eexists. split; [done|]. lra. }
  apply Qle_bool_false in Emax. wf_step. apply backoff_spec; simpl; [intros b Hb|].
  2:{ intros Hov. split; simpl; [lia|]. split; [done|]. split; [done|]. right. split; [done|]. by apply Nat.lt_succ_r. }
  pose proof shortest_wait_pos as Hpos. destruct n as [|n]; [change (inject_Z (Z.of_nat 0)) with 0%Q in Hw; rewrite Qmult_0_r in Hw; lra|].
  set (d := qmin b (inject_Z (max_wait_seconds cfg scope) - total_seconds a started_at)).
  assert (0 < d /\ d <= inject_Z (max_wait_seconds cfg scope) - total_seconds a started_at)%Q as [Hq Hd].
  { unfold d. destruct (qmin_cases b (inject_Z (max_wait_seconds cfg scope) - total_seconds a started_at)) as [[-> ?]|[-> ?]]; split; lra. }
  assert (slept c + d <= longest_sleep)%Q as Hl'.
  { unfold longest_sleep. eapply Qle_trans; [|apply Q.le_max_r]. lra. }
  wf_step. wf_step; simpl in *; rewrite (proj2 (Qle_bool_false _ _) Hq) in *. { by destruct r as [[]|[]]. }
  destruct r as [[]|[o| | |]]; simplify_eq/=; [|split; simpl; [lia|done]].
  wf_step. unfold loop_post, waiting. simpl. exists n. split; [lia|]. rewrite Hs. split; [done|]. split; [lia|]. split; [lia|].
  split; [done|]. split; [lra|].
  assert (inject_Z (Z.of_nat (S n)) == inject_Z (Z.of_nat n) + 1)%Q as HS by (rewrite Nat2Z.inj_succ, <- Z.add_1_r, inject_Z_plus; done).
  assert (0 <= inject_Z (Z.of_nat n))%Q as Hn by (rewrite <- (Zle_Qle 0); lia). subst d.
  destruct (qmin_cases b (inject_Z (max_wait_seconds cfg scope) - total_seconds a started_at)) as [[Heq ?]|[Heq ?]]; rewrite Heq in *; nra.
Qed.

Lemma acquire_loop_spec N : (inject_Z (max_wait_seconds cfg scope) <= shortest_wait * inject_Z (Z.of_nat N))%Q ->
  forall c, started c = None -> attempts c = 0%nat -> slept c = 0%Q ->
  total clock_mon (within_budget N) c (acquire_loop cfg scope permit_id limit on_acquired).
Proof.
  intros HN c Hc H0 Hsl. unfold acquire_loop. wf_step. wf_step; simpl in *. { by destruct (Qle_bool _ _). }
  destruct (Qle_bool (earliest c) (seconds a)); simplify_eq/=.
  apply (total_while clock_mon (waiting N a)) with (n := N).
  - intros n i m. apply acquire_attempt_spec.
  - split; [by rewrite Hc|]. split; [done|]. split; [lia|]. simpl. rewrite Hsl. split; [apply Q.le_max_l|]. split; lra.
Qed.
End Acquire.

Lemma returns_ok (Q : unit + raised -> clock -> Prop) c : Q (inl tt) c -> total clock_mon Q c (returns tt).
Proof. intros H. by wf_step. Qed.

Lemma record_permit_ok workflow_id (Q : unit + raised -> clock -> Prop) c : Q (inl tt) c ->
  total clock_mon Q c (do~ query (SetPermitFlag true) ;; _start_workflow_permit_heartbeat workflow_id).
Proof.
  intros H. wf_step. wf_step; [done|]. simplify_eq/=. unfold _start_workflow_permit_heartbeat.
  wf_step. wf_step; [done|]. simplify_eq/=.
  destruct a0 as [[]|]; wf_step; simplify_eq/=; by try destruct a0.
Qed.

(** C21: waiting for a permit ends, within the configured time.  As timers fire no earlier than
    asked, there are at most [N + 1] attempts, where [N] of the shortest waits fill the maximal
    wait; no sleep is empty or negative, and all sleeps together take no longer than the
    maximal wait.  The wait ends with the permit; with the timeout error, once the maximal wait
    has passed; with what the runtime raised (a cancellation, a failed activity); or with an
    [OverflowError] of the backoff's exponent, which takes more than 1024 attempts and so a
    configuration with a wait of hours ([long_wait_overflows]). *)
Theorem permit_wait_terminates (cfg : Config) (id : string) (limit : Z) (N : nat) (now : Q)
    (Hn : (inject_Z (Z.max (ACTION_PERMIT_MAX_WAIT_SECONDS cfg) (WORKFLOW_PERMIT_MAX_WAIT_SECONDS cfg))
           <= shortest_wait cfg * inject_Z (Z.of_nat N))%Q) :
  let c := MkClock now None 0 false 0 in
  total clock_mon (within_budget cfg ACTION N) c (_acquire_action_permit cfg id limit) /\
  total clock_mon (within_budget cfg WORKFLOW N) c (_acquire_workflow_permit cfg id limit).
Proof.
  assert (forall z, z <= Z.max (ACTION_PERMIT_MAX_WAIT_SECONDS cfg) (WORKFLOW_PERMIT_MAX_WAIT_SECONDS cfg) ->
    (inject_Z z <= shortest_wait cfg * inject_Z (Z.of_nat N))%Q) as Hle.
  { intros z Hz. rewrite Zle_Qle in Hz. by eapply Qle_trans. }
  split; apply acquire_loop_spec; auto using returns_ok, record_permit_ok; apply Hle; simpl; lia.
Qed.

Lemma permit_wait_terminates_witness :
  (inject_Z (Z.max 120 300) <= shortest_wait DEFAULT_CONFIG * inject_Z (Z.of_nat 375))%Q /\
  total clock_mon (within_budget DEFAULT_CONFIG ACTION 375) (MkClock 0 None 0 false 0)
    (_acquire_action_permit DEFAULT_CONFIG "wf-1:<root>:0:scan" 2).
Proof.
  assert ((inject_Z (Z.max 120 300) <= shortest_wait DEFAULT_CONFIG * inject_Z (Z.of_nat 375))%Q) as H by (by vm_compute).
  split; [exact H|]. apply (permit_wait_terminates DEFAULT_CONFIG "wf-1:<root>:0:scan" 2 375 0 H).
Defined.

(** *** A wait of several hours

    An environment that never grants the permit, whose timers are exact and whose
    jitter is one; its state is the clock. *)
Definition denying (now : Z) (T : Type) (e : wfE T) : T * Z :=
  match e in wfE T return T * Z with
  | Now => (now, now)
  | Uniform _ _ => (1%Q, now)
  | Sleep (Exact s) => (inl tt, now + Qnum (Qred (s * 1000000)))
  | AcquirePermit _ _ limit => (inl (MkAcquire false limit), now)
  | HeartbeatDone _ _ => (None, now)
  | PermitFlag => (false, now)
  | AddExecutions n => (n, now)
  | InlineContext | InlineRunContext => (inline (PVal VNone), now)
  | StartHeartbeat _ _ | CancelHeartbeat _ _ | ForgetHeartbeat _ _ | Spawn _ | SetPermitFlag _ | SetActionResult _ _ _ => (tt, now)
  | _ => (inr (Obj 1%positive), now)
  end.

(** With a maximal wait of a day and the other defaults, the wait ends with an
    [OverflowError] (and not with the timeout error) after 1025 attempts. *)
Definition one_day : Config := MkConfig 86400 120 1 30 60 16 "minimal".

Definition is_acquire (x : interaction wfE) : bool :=
  match x with Act (AcquirePermit _ _ _) _ => true | _ => false end.

Example long_wait_overflows :
  exists l, length (List.filter is_acquire l) = 1025%nat /\
    trace (_acquire_workflow_permit one_day "wf-1" 5) l
      (Some (inr (NewException "OverflowError" "int too large to convert to float"))).
Proof.
  exists (drive denying 10000 0 (_acquire_workflow_permit one_day "wf-1" 5)).1. split; [by vm_compute|].
  replace (Some (inr (NewException "OverflowError" "int too large to convert to float")))
    with (drive denying 10000 0 (_acquire_workflow_permit one_day "wf-1" 5)).2 by (by vm_compute).
  apply drive_trace.
Qed.

(** ** Clean-up that survives a cancellation *)

(** The wait for the clean-up succeeds; a first cancellation is survived; anything else,
    and a second cancellation, ends the wait. *)
Lemma cleanup_ok {M} (mon : M -> interaction wfE -> verdict M) (is_cancelled_exception : raised -> bool)
    (Q : unit + raised -> M -> Prop) m c (mid : bool -> M) (finished cut : M) :
  (forall a, mon m (Act (Spawn c) a) = Next (mid false)) ->
  (forall b r, mon (mid b) (Act (Shield c) r) =
     Next (match r with inl _ => finished | inr e => if negb b && is_cancelled_exception e then mid true else cut end)) ->
  Q (inl tt) finished -> (forall e, Q (inr e) cut) ->
  partial mon Q m (_run_cancellation_safe_cleanup is_cancelled_exception c).
Proof.
  intros Hspawn Hshield Hok Hcut. unfold _run_cancellation_safe_cleanup.
  wf_step. wf_step; rewrite Hspawn in *; [done|]. simplify_eq.
  wf_step. wf_step; rewrite Hshield in *; [done|]. simplify_eq.
  destruct r as [[]|e]; [exact Hok|]. destruct (is_cancelled_exception e); cbn [negb andb]; [|wf_step; apply Hcut].
  wf_step; rewrite Hshield in *; [done|]. simplify_eq. destruct r as [[]|e']; [exact Hok|apply Hcut].
Qed.

(** ** Heartbeats *)

Section Heartbeat.
Context (cfg : Config) (heap : gmap xid xobj) (scope : PermitScope) (permit_id : string).

(** The heartbeat loop may only sleep for about an interval and refresh its own
    permit.  A timer raises nothing but a cancellation. *)
Definition heartbeat_mon (_ : unit) (x : interaction wfE) : verdict unit :=
  match x with
  | Act e a =>
      match e in wfE T return T -> verdict unit with
      | Uniform lo hi => fun q => if Qle_bool lo q && Qle_bool q hi then Next tt else Never
      | PermitFlag => fun _ => Next tt
      | Sleep (Exact s) => fun r =>
          if Qle_bool (1 # 10) s && Qle_bool s (qmax (WORKFLOW_PERMIT_HEARTBEAT_SECONDS cfg * (11 # 10)) (1 # 10))
          then match r with inr x => if is_exception heap x then Never else Next tt | inl _ => Next tt end
          else Bad
      | HeartbeatPermit sc id => fun _ => if decide (sc = scope /\ id = permit_id) then Next tt else Bad
      | _ => fun _ => Bad
      end a
  end.

(** The loops end by themselves only when heartbeats are disabled or (for the
    workflow) the permit was given up; a failing heartbeat does not end them. *)
Definition not_by_failure (r : unit + raised) (_ : unit) : Prop :=
  match r with inl _ => True | inr x => is_exception heap x = false end.

Lemma heartbeat_sleep_ok {A} (Q : A + raised -> unit -> Prop) (k : wf A) :
  Qle_bool (WORKFLOW_PERMIT_HEARTBEAT_SECONDS cfg) 0 = false ->
  partial heartbeat_mon Q tt k -> (forall x, is_exception heap x = false -> Q (inr x) tt) ->
  partial heartbeat_mon Q tt
    (let~ s := _next_permit_heartbeat_sleep_seconds (WORKFLOW_PERMIT_HEARTBEAT_SECONDS cfg) in
     do~ call (Sleep (Exact s)) ;; k).
Proof.
  intros Hi%Qle_bool_false Hk Hx.
  unfold _next_permit_heartbeat_sleep_seconds. wf_step. wf_step. wf_step; simpl in *.
  { by destruct (Qle_bool _ _ && Qle_bool _ _). }
  destruct (Qle_bool (9 # 10) a) eqn:E1, (Qle_bool a (11 # 10)) eqn:E2; simplify_eq/=.
  apply Qle_bool_iff in E1, E2. wf_step. wf_step.
  assert (Qle_bool (1 # 10) (qmax (WORKFLOW_PERMIT_HEARTBEAT_SECONDS cfg * a) (1 # 10)) = true) as Hlo.
  { apply Qle_bool_iff. destruct (qmax_cases (WORKFLOW_PERMIT_HEARTBEAT_SECONDS cfg * a) (1 # 10)) as [[-> ?]|[-> ?]]; lra. }
  assert (Qle_bool (qmax (WORKFLOW_PERMIT_HEARTBEAT_SECONDS cfg * a) (1 # 10)) (qmax (WORKFLOW_PERMIT_HEARTBEAT_SECONDS cfg * (11 # 10)) (1 # 10)) = true) as Hhi.
  { apply Qle_bool_iff. destruct (qmax_cases (WORKFLOW_PERMIT_HEARTBEAT_SECONDS cfg * a) (1 # 10)) as [[-> ?]|[-> ?]],
      (qmax_cases (WORKFLOW_PERMIT_HEARTBEAT_SECONDS cfg * (11 # 10)) (1 # 10)) as [[-> ?]|[-> ?]]; nra. }
  wf_step; simpl in *; rewrite Hlo, Hhi in *; simpl in *.
  - destruct r; [done|]. by destruct (is_exception heap r).
  - destruct r as [[]|x]; simplify_eq/=; [done|].
    destruct (is_exception heap x) eqn:E; simplify_eq/=. by apply Hx.
Qed.

Lemma heartbeat_once_ok (Q : unit + raised -> unit -> Prop) :
  Q (inl tt) tt -> (forall x, is_exception heap x = false -> Q (inr x) tt) ->
  partial heartbeat_mon Q tt (heartbeat_once heap scope permit_id).
Proof.
  intros Hk Hx. unfold heartbeat_once, log_exceptions. wf_step. wf_step. wf_step; simpl in *.
  { by rewrite decide_True. }
  rewrite decide_True in * by done. simplify_eq/=. destruct r; [by wf_step|].
  destruct (is_exception heap r) eqn:E; wf_step; auto.
Qed.
End Heartbeat.

(** A heartbeat loop refreshes its own permit only, sleeps between a tenth of a
    second and eleven tenths of the interval between two heartbeats, and goes on when
    a heartbeat fails: with heartbeats enabled the loop of an action ends only by a
    cancellation, that of the workflow also when the permit is no longer held. *)
Theorem heartbeat_loops (cfg : Config) (heap : gmap xid xobj) (id : string) :
  partial (heartbeat_mon cfg heap ACTION id)
    (fun r m => not_by_failure heap r m /\ (r = inl tt -> (WORKFLOW_PERMIT_HEARTBEAT_SECONDS cfg <= 0)%Q)) tt
    (_action_permit_heartbeat_loop cfg heap id) /\
  partial (heartbeat_mon cfg heap WORKFLOW id) (not_by_failure heap) tt
    (_workflow_permit_heartbeat_loop cfg heap id).
Proof.
  unfold _action_permit_heartbeat_loop, _workflow_permit_heartbeat_loop.
  destruct (Qle_bool _ 0) eqn:Hi.
  { split; wf_step; [|done]. split; [done|]. intros _. by apply Qle_bool_iff. }
  split; (eapply (partial_while _ (fun _ _ => True)); [intros [] [] _|done]).
  - apply heartbeat_sleep_ok; [done| |by intros x Hx; split].
    wf_step. apply heartbeat_once_ok; [by wf_step|by intros x Hx; split].
  - wf_step. wf_step; [done|]. simplify_eq/=. destruct a; simpl; [|by wf_step].
    apply heartbeat_sleep_ok; [done| |done].
    wf_step. wf_step; [done|]. simplify_eq/=. destruct a; simpl; [|by wf_step].
    wf_step. apply heartbeat_once_ok; [by wf_step|done].
Qed.
