(* ===== verification/WfChild.v ===== *)
(** Child workflows ([tracecat/dsl/workflow.py], [PreparedSubflowResult] of
    [tracecat/dsl/common.py]): a single child, or a loop that starts one child per item
    in batches. *)

From S2P Require Import Prelude PyVal PyOps DslTypes Permits Storage Interact WfErrors WfEvents.

#[local] Open Scope wf_scope.

(** A builtin exception of the workflow's own code. *)
Definition raised_of (e : exn) : raised :=
  match exn_cls e with
  | ApplicationError => NewApplicationError (PVal (VStr (exn_msg e))) "ApplicationError" NoDetails
  | ValueError => NewException "ValueError" (exn_msg e)
  | TypeError => NewException "TypeError" (exn_msg e)
  | IndexError => NewException "IndexError" (exn_msg e)
  | OverflowError => NewException "OverflowError" (exn_msg e)
  | _ => NewException "RuntimeError" (exn_msg e)
  end.

Definition lift_wf {A} (r : result A) : wf A :=
  match r with Ok a => returns a | Err e => throws (raised_of e) end.

(** ** Prepared subflows *)

Definition count (p : PreparedSubflowResult) : result Z :=
  match p_trigger_inputs p with
  | None => Ok 1
  | Some (CollectionObject _ _ n _ _ _ _) => Ok n
  | Some (InlineObject _ data) =>
      match list_elements data with
      | Some l => Ok (Z.of_nat (length l))
      | None => raise TypeError "Expected CollectionObject or InlineObject with list"
      end
  | Some (ExternalObject _ _) => raise TypeError "Expected CollectionObject or InlineObject with list"
  end.

Definition get_trigger_input_at (p : PreparedSubflowResult) (index : Z) : result (option stored) :=
  match p_trigger_inputs p with
  | None => Ok None
  | Some (CollectionObject _ _ _ _ _ _ _ as col) => Ok (Some (collection_at col index))
  | Some (InlineObject _ data) =>
      match list_elements data with
      | Some l => let! x := py_nth l index in Ok (Some (inline x))
      | None => raise TypeError "Expected CollectionObject or InlineObject with list"
      end
  | Some (ExternalObject _ _) => raise TypeError "Expected CollectionObject or InlineObject with list"
  end.

Definition get_config (p : PreparedSubflowResult) (index : Z) : result DSLConfig :=
  match p_runtime_configs p with
  | NoConfigs => Ok (p_dsl_config p)
  | OneConfig c => Ok c
  | ManyConfigs l =>
      let! n := py_index (Z.of_nat (length l)) index in
      match l !! n with Some c => Ok c | None => raise IndexError "list index out of range" end
  end.

(** ** Strategies *)

Definition loop_strategy_of (v : val) : result LoopStrategy :=
  match v with
  | VStr "parallel" => Ok LoopPARALLEL
  | VStr "batch" => Ok LoopBATCH
  | VStr "sequential" => Ok LoopSEQUENTIAL
  | _ => raise ValueError "is not a valid LoopStrategy"
  end.

Definition fail_strategy_of (v : val) : result FailStrategy :=
  match v with
  | VStr "isolated" => Ok FailISOLATED
  | VStr "all" => Ok FailALL
  | _ => raise ValueError "is not a valid FailStrategy"
  end.

Definition wait_strategy_of (v : val) : result WaitStrategy :=
  match v with
  | VStr "wait" => Ok WaitWAIT
  | VStr "detach" => Ok WaitDETACH
  | _ => raise ValueError "is not a valid WaitStrategy"
  end.

(** [args.get(k, default)]. *)
Definition get_arg (task : ActionStatement) (k : string) (d : val) : val := default d (dget (args task) k).

(** [int(x)]. *)
Definition py_int_of (v : val) : result Z :=
  let! r := int_cast v in
  match r with VInt z => Ok z | _ => raise TypeError "" end.

(** ** Starting children *)

Section Children.
Context (cfg : Config) (heap : gmap xid xobj) (ctx : WfCtx).

Definition _compute_logical_time : wf Z :=
  let~ now := query Now in
  let elapsed := now - wf_start_time ctx in
  returns (time_anchor ctx + elapsed).

(** The run arguments and the memo of one child. *)
Definition child_start (task : ActionStatement) (p : PreparedSubflowResult) (stream_id : StreamID)
    (trigger_inputs : option stored) (config : DSLConfig) (anchor : Z) (loop_index : option Z)
    (wait_strategy : WaitStrategy) : ChildStart :=
  MkChildStart (p_wf_id p) trigger_inputs config anchor (ref task) loop_index wait_strategy stream_id (mask_output task).

(** [_build_prepared_child_run_args] and [_prepare_child_workflow_dispatch]: what item
    [loop_index] starts. *)
Definition _prepare_child_workflow_dispatch (task : ActionStatement) (p : PreparedSubflowResult) (stream_id : StreamID)
    (loop_index : Z) (wait_strategy : WaitStrategy) (anchor : Z) : result ChildStart :=
  let! trigger_inputs := get_trigger_input_at p loop_index in
  let! config := get_config p loop_index in
  Ok (child_start task p stream_id trigger_inputs config anchor (Some loop_index) wait_strategy).

Definition _run_child_workflow (task : ActionStatement) (start : WaitStrategy -> ChildStart) : wf stored :=
  let v := get_arg task "wait_strategy" VNone in
  let~ wait_strategy := lift_wf (if truthy v then wait_strategy_of v else Ok WaitDETACH) in
  let~ child_wf_handle := call (StartChild (start wait_strategy)) in
  match wait_strategy with
  | WaitDETACH => returns (inline (PVal (VStr child_wf_handle)))
  | WaitWAIT => call (AwaitChild child_wf_handle)
  end.

(** *** Batches *)

Definition _CHILD_RUN_ARG_PREP_YIELD_EVERY : Z := 8.

Definition _resolve_child_loop_batch_plan (total_count requested_batch_size : Z) : Z * Z :=
  (Z.max 1 (Z.min requested_batch_size total_count), CHILD_WORKFLOW_DISPATCH_WINDOW cfg).

(** [_flush_child_workflow_dispatch_batch]; the caller's list is cleared. *)
Definition _flush_child_workflow_dispatch_batch (dispatch_batch : list ChildStart) : wf (list (handle + raised)) :=
  call (StartChildren dispatch_batch).

(** The loop over the offsets of a batch; its state is the pending starts and the
    handles (or failures) launched so far. *)
Fixpoint dispatch_loop (prepare : Z -> result ChildStart) (dispatch_window : Z) (offsets : list Z)
    (dispatch_batch : list ChildStart) (launched_handles : list (handle + raised))
    : wf (list ChildStart * list (handle + raised)) :=
  match offsets with
  | [] => returns (dispatch_batch, launched_handles)
  | offset :: rest =>
      do~ (if negb (offset =? 0) && (offset mod _CHILD_RUN_ARG_PREP_YIELD_EVERY =? 0) then call Yield else returns tt) ;;
      let~ start := lift_wf (prepare offset) in
      let dispatch_batch := dispatch_batch ++ [start] in
      if dispatch_window <=? Z.of_nat (length dispatch_batch) then
        let~ hs := _flush_child_workflow_dispatch_batch dispatch_batch in
        do~ call Yield ;;
        dispatch_loop prepare dispatch_window rest [] (launched_handles ++ hs)
      else dispatch_loop prepare dispatch_window rest dispatch_batch launched_handles
  end.

Fixpoint successes {A B} (l : list (A + B)) : list A :=
  match l with
  | [] => []
  | inl a :: l' => a :: successes l'
  | inr _ :: l' => successes l'
  end.

(** The results of awaiting the successes of [l], in the positions of [l]: a failure
    to start stays in its place. *)
Fixpoint resolve_into {A B C} (l : list (A + B)) (rs : list (C + B)) : list (C + B) :=
  match l with
  | [] => []
  | inl _ :: l' => match rs with r :: rs' => r :: resolve_into l' rs' | [] => [] end
  | inr e :: l' => inr e :: resolve_into l' rs
  end.

Definition _gather_dispatched_child_results (launched_handles : list (handle + raised)) (wait_strategy : WaitStrategy)
    : wf (list (stored + raised)) :=
  match wait_strategy with
  | WaitDETACH =>
      returns (map (fun h => match h with inl id => inl (inline (PVal (VStr id))) | inr e => inr e end) launched_handles)
  | WaitWAIT =>
      let~ rs := call (AwaitChildren (successes launched_handles)) in
      returns (resolve_into launched_handles rs)
  end.

Definition dsl_execution_error_from_exception (e : raised) : val :=
  VDict [("is_error", VBool true); ("type", VStr (xclass_name (raised_class heap e))); ("message", VStr (raised_str heap e))].

Definition child_result (r : stored + raised) : stored :=
  match r with
  | inl o => o
  | inr e => inline (PVal (dsl_execution_error_from_exception e))
  end.

Definition failed {A B} (r : A + B) : bool := match r with inl _ => false | inr _ => true end.

Definition _execute_child_workflow_batch_prepared (task : ActionStatement) (p : PreparedSubflowResult) (stream_id : StreamID)
    (batch_start batch_size dispatch_window : Z) (wait_strategy : WaitStrategy) (fail_strategy : FailStrategy) (anchor : Z)
    : wf (list stored) :=
  let prepare offset := _prepare_child_workflow_dispatch task p stream_id (batch_start + offset) wait_strategy anchor in
  let~ (dispatch_batch, launched_handles) := dispatch_loop prepare dispatch_window (seqZ 0 batch_size) [] [] in
  let~ launched_handles :=
    (match dispatch_batch with
     | [] => returns launched_handles
     | _ => let~ hs := _flush_child_workflow_dispatch_batch dispatch_batch in returns (launched_handles ++ hs)
     end) in
  let~ gather_result := _gather_dispatched_child_results launched_handles wait_strategy in
  if bool_decide (fail_strategy = FailALL) && existsb failed gather_result
  then throws (NewException "RuntimeError" "One or more child workflows failed")
  else returns (map child_result gather_result).

Definition requested_batch_size (strategy : LoopStrategy) (batch_size total_count : Z) : Z :=
  match strategy with
  | LoopSEQUENTIAL => 1
  | LoopBATCH => batch_size
  | LoopPARALLEL => total_count
  end.

(** The dictionary of batch sizes is built before it is indexed: [batch_size] is
    converted whatever the strategy. *)
Definition _execute_child_workflow_loop_prepared (task : ActionStatement) (p : PreparedSubflowResult) (stream_id : StreamID)
    (anchor : Z) : wf stored :=
  let~ loop_strategy := lift_wf (loop_strategy_of (get_arg task "loop_strategy" (VStr "batch"))) in
  let~ fail_strategy := lift_wf (fail_strategy_of (get_arg task "fail_strategy" (VStr "isolated"))) in
  let~ wait_strategy := lift_wf (wait_strategy_of (get_arg task "wait_strategy" (VStr "wait"))) in
  let~ total_count := lift_wf (count p) in
  let~ batch_size := lift_wf (py_int_of (get_arg task "batch_size" (VInt 32))) in
  let '(logical_batch_size, dispatch_window) :=
    _resolve_child_loop_batch_plan total_count (requested_batch_size loop_strategy batch_size total_count) in
  let~ all_results :=
    while_true (fun '(batch_start, all_results) =>
      if batch_start <? total_count then
        let current_batch_size := Z.min logical_batch_size (total_count - batch_start) in
        let~ batch_results := _execute_child_workflow_batch_prepared task p stream_id batch_start current_batch_size
                                dispatch_window wait_strategy fail_strategy anchor in
        returns (inl (batch_start + current_batch_size, all_results ++ batch_results))
      else returns (inr all_results)) (0, []) in
  call (SynchronizeCollection all_results).

Definition _execute_child_workflow_prepared (task : ActionStatement) (p : PreparedSubflowResult) (stream_id : StreamID) : wf stored :=
  let~ child_time_anchor := _compute_logical_time in
  match p_trigger_inputs p with
  | None =>
      let~ trigger_inputs := call (EvaluateTemplatedObject (get_arg task "trigger_inputs" VNone) stream_id) in
      let~ config := lift_wf (get_config p 0) in
      _run_child_workflow task (child_start task p stream_id trigger_inputs config child_time_anchor None)
  | Some _ => _execute_child_workflow_loop_prepared task p stream_id child_time_anchor
  end.
End Children.
