(* ===== verification/WfChildFacts.v ===== *)
(** Looped child workflows: one child per item in order, results in the order of the
    items, at most a dispatch window in flight of being started. *)

From S2P Require Import Prelude PyVal PyOps DslTypes Permits Interact WfErrors WfEvents WfPermit WfChild.

#[local] Open Scope wf_scope.

(** ** Starting the children of a loop *)

(** The children started (in order), what starting them gave, what awaiting them gave,
    and the collection that was synchronised. *)
Record children := MkChildren {
  dispatched : list ChildStart;
  launched : list (handle + raised);
  awaited : list (stored + raised);
  synced : option (list stored) }.

Section Monitor.
Context (cfg : Config).

(** At most a window of children is started at a time; each handle is awaited once, in
    order.  [asyncio.gather] answers in the order and number of its arguments. *)
Definition child_mon (g : children) (x : interaction wfE) : verdict children :=
  match x with
  | Act e a =>
      match e in wfE T return T -> verdict children with
      | Yield => fun _ => Next g
      | StartChildren cs => fun r =>
          if bool_decide (cs <> [] /\ Z.of_nat (length cs) <= Z.max 1 (CHILD_WORKFLOW_DISPATCH_WINDOW cfg)) then
            match r with
            | inl hs => if decide (length hs = length cs)
                        then Next (MkChildren (dispatched g ++ cs) (launched g ++ hs) (awaited g) (synced g)) else Never
            | inr _ => Next g
            end
          else Bad
      | AwaitChildren hs => fun r =>
          if decide (hs = drop (length (awaited g)) (successes (launched g))) then
            match r with
            | inl rs => if decide (length rs = length hs)
                        then Next (MkChildren (dispatched g) (launched g) (awaited g ++ rs) (synced g)) else Never
            | inr _ => Next g
            end
          else Bad
      | SynchronizeCollection l => fun _ => Next (MkChildren (dispatched g) (launched g) (awaited g) (Some l))
      | _ => fun _ => Bad
      end a
  end.
End Monitor.

(** The outcome of every child, in order. *)
Definition outcomes (wait_strategy : WaitStrategy) (g : children) : list (stored + raised) :=
  match wait_strategy with
  | WaitDETACH =>
      map (fun h => match h with inl id => inl (inline (PVal (VStr id))) | inr e => inr e end) (launched g)
  | WaitWAIT => resolve_into (launched g) (awaited g)
  end.

(** *** Lists of successes and failures *)

Lemma successes_app {A B} (l l' : list (A + B)) : successes (l ++ l') = successes l ++ successes l'.
Proof. induction l as [|[a|e] l IH]; simpl; [done|by rewrite IH|done]. Qed.

Lemma resolve_into_app {A B C} (l l' : list (A + B)) (rs rs' : list (C + B)) : length rs = length (successes l) ->
  resolve_into (l ++ l') (rs ++ rs') = resolve_into l rs ++ resolve_into l' rs'.
Proof.
  revert rs. induction l as [|[a|e] l IH]; intros rs H; simpl in *.
  - by destruct rs.
  - destruct rs as [|r rs]; [done|]. simpl. f_equal. apply IH. by injection H.
  - f_equal. by apply IH.
Qed.

Lemma resolve_into_length {A B C} (l : list (A + B)) (rs : list (C + B)) : length rs = length (successes l) ->
  length (resolve_into l rs) = length l.
Proof.
  revert rs. induction l as [|[a|e] l IH]; intros rs H; simpl in *; [done| |by rewrite IH].
  destruct rs as [|r rs]; [done|]. simpl. rewrite IH; [done|]. by injection H.
Qed.

Lemma outcomes_length w g : length (awaited g) = length (successes (launched g)) \/ w = WaitDETACH ->
  length (outcomes w g) = length (launched g).
Proof. destruct w; simpl; [intros [H|]; [by apply resolve_into_length|done]|by rewrite length_map]. Qed.

(** *** One batch *)

Section Batch.
Context (cfg : Config) (heap : gmap xid xobj) (task : ActionStatement) (p : PreparedSubflowResult)
  (stream_id : StreamID) (wait_strategy : WaitStrategy) (fail_strategy : FailStrategy) (anchor : Z).

Abbreviation prepared i c := (_prepare_child_workflow_dispatch task p stream_id i wait_strategy anchor = Ok c).
Abbreviation window := (CHILD_WORKFLOW_DISPATCH_WINDOW cfg).

(** [cs] are the children of items 0, 1, ..., [n - 1]. *)
Definition children_upto (n : Z) (cs : list ChildStart) : Prop := Forall2 (fun i c => prepared i c) (seqZ 0 n) cs.

Lemma children_upto_snoc n cs c : 0 <= n -> children_upto n cs -> prepared n c -> children_upto (n + 1) (cs ++ [c]).
Proof.
  intros Hn H Hc. unfold children_upto. rewrite seqZ_app by lia. apply Forall2_app; [done|].
  rewrite Z.add_0_l. change 1 with (Z.succ 0). rewrite seqZ_cons by lia. simpl. by repeat constructor.
Qed.

(** The state during a batch: everything before item [n] is started or pending. *)
Definition dispatching (g0 g : children) (n : Z) (batch : list ChildStart) (hs : list (handle + raised)) : Prop :=
  children_upto n (dispatched g ++ batch) /\
  launched g = launched g0 ++ hs /\ length (launched g) = length (dispatched g) /\
  awaited g = awaited g0 /\ synced g = None.

Definition small (batch : list ChildStart) : Prop := Z.of_nat (length batch) < Z.max 1 window.

(** A failure leaves no synchronised collection. *)
Definition unsynced {A} (r : A + raised) (g : children) : Prop := match r with inl _ => True | inr _ => synced g = None end.

Lemma lift_wf_spec {A} (Q : A + raised -> children -> Prop) g (r : result A) :
  (forall a, r = Ok a -> Q (inl a) g) -> (forall e, Q (inr e) g) -> total (child_mon cfg) Q g (lift_wf r).
Proof. intros Ha He. destruct r; simpl; wf_step; auto. Qed.

Lemma yield_spec (Q : unit + raised -> children -> Prop) g : (forall r, Q r g) -> total (child_mon cfg) Q g (call Yield).
Proof. intros H. wf_step; simplify_eq/=; done. Qed.

(** Flushing the pending children. *)
Lemma flush_spec (Q : list (handle + raised) + raised -> children -> Prop) g0 g n batch hs :
  dispatching g0 g n batch hs -> batch <> [] -> Z.of_nat (length batch) <= Z.max 1 window ->
  (forall hs' g', dispatching g0 g' n [] (hs ++ hs') -> Q (inl hs') g') -> (forall e, Q (inr e) g) ->
  total (child_mon cfg) Q g (_flush_child_workflow_dispatch_batch batch).
Proof.
  intros (Hd & Hl & Hlen & Ha & Hs) Hne Hw HQ He. unfold _flush_child_workflow_dispatch_batch.
  wf_step; simpl in *; rewrite bool_decide_true in * by done; [by destruct r; [case_decide|]|].
  destruct r as [hs'|e]; simplify_eq/=; [|done]. case_decide as Hh; simplify_eq/=. apply HQ.
  unfold dispatching. simpl. rewrite app_nil_r, !length_app, Hl, Hh, <- app_assoc, <- Hlen, Hl. done.
Qed.

Lemma dispatch_loop_spec (Q : list ChildStart * list (handle + raised) + raised -> children -> Prop) base offset m g0 g batch hs :
  0 <= base + offset -> dispatching g0 g (base + offset) batch hs -> small batch ->
  (forall batch' hs' g', dispatching g0 g' (base + offset + Z.of_nat m) batch' hs' -> small batch' -> Q (inl (batch', hs')) g') ->
  (forall e g', synced g' = None -> Q (inr e) g') ->
  total (child_mon cfg) Q g
    (dispatch_loop (fun o => _prepare_child_workflow_dispatch task p stream_id (base + o) wait_strategy anchor) window
       (seqZ offset (Z.of_nat m)) batch hs).
Proof.
  revert offset g batch hs. induction m as [|m IH]; intros offset g batch hs Hpos Hd Hsm HQ He.
  { simpl. wf_step. apply HQ; [|done]. by rewrite Z.add_0_r. }
  rewrite Nat2Z.inj_succ, seqZ_cons, Z.pred_succ by lia. simpl.
  assert (synced g = None) as Hsy by apply Hd.
  wf_step. match goal with |- total _ ?Q' _ _ => assert (forall r, (r = inl tt -> Q' r g) -> Q' r g) as Hy end.
  { intros [[]|e] H; [by apply H|]. by apply He. }
  assert (forall Q' : unit + raised -> children -> Prop, (forall r, Q' r g) -> total (child_mon cfg) Q' g
    (if negb (offset =? 0) && (offset mod _CHILD_RUN_ARG_PREP_YIELD_EVERY =? 0) then call Yield else returns tt)) as Hif.
  { intros Q' H. destruct (_ && _); [by apply yield_spec|]. by wf_step. }
  apply Hif. intros r. apply Hy. intros ->. clear Hy Hif.
  wf_step. apply lift_wf_spec; [|auto]. intros c Hc.
  assert (dispatching g0 g (base + Z.succ offset) (batch ++ [c]) hs) as Hd'.
  { destruct Hd as (Hd & Hrest). split; [|done]. rewrite app_assoc, Z.add_succ_r. by apply children_upto_snoc. }
  replace (base + offset + Z.of_nat (S m)) with (base + Z.succ offset + Z.of_nat m) in HQ by lia. clear Hd. unfold small in Hsm.
  destruct (window <=? Z.of_nat (length (batch ++ [c]))) eqn:Ew.
  - wf_step. eapply flush_spec; [done|by destruct batch| | |auto].
    { rewrite length_app. simpl. lia. }
    intros hs' g' Hd2. wf_step. assert (synced g' = None) by apply Hd2. apply yield_spec. intros [[]|e]; [|auto].
    apply IH; auto; [lia|]. unfold small. simpl. lia.
  - apply IH; auto; [lia|]. apply Z.leb_gt in Ew. unfold small. lia.
Qed.

(** *** Batch by batch *)

(** The state between two batches. *)
Definition settled (g : children) (n : Z) (results : list stored) : Prop :=
  children_upto n (dispatched g) /\ length (launched g) = length (dispatched g) /\ synced g = None /\
  (wait_strategy = WaitWAIT -> length (awaited g) = length (successes (launched g))) /\
  results = map (child_result heap) (outcomes wait_strategy g) /\
  (fail_strategy = FailALL -> existsb failed (outcomes wait_strategy g) = false).

(** Awaiting what a batch launched. *)
Lemma gather_spec (Q : list (stored + raised) + raised -> children -> Prop) g0 g n hs res :
  settled g0 n res -> launched g = launched g0 ++ hs -> awaited g = awaited g0 ->
  (forall rs g', dispatched g' = dispatched g -> launched g' = launched g -> synced g' = synced g ->
     outcomes wait_strategy g' = outcomes wait_strategy g0 ++ rs ->
     (wait_strategy = WaitWAIT -> length (awaited g') = length (successes (launched g'))) -> Q (inl rs) g') ->
  (forall e, Q (inr e) g) ->
  total (child_mon cfg) Q g (_gather_dispatched_child_results hs wait_strategy).
Proof.
  intros (_ & _ & _ & Haw & _) Hl Ha HQ He. unfold _gather_dispatched_child_results, outcomes in *.
  destruct wait_strategy.
  - assert (successes hs = drop (length (awaited g)) (successes (launched g))) as Hdrop.
    { by rewrite Hl, Ha, Haw, successes_app, drop_app_length. }
    wf_step. wf_step; simpl in *; rewrite decide_True in * by done; [by destruct r; [case_decide|]|].
    destruct r as [rs|e]; simplify_eq/=; [|done]. case_decide as Hr; simplify_eq/=. wf_step. apply HQ; simpl; try done.
    + rewrite Hl, Ha. apply resolve_into_app. by apply Haw.
    + intros _. by rewrite Hl, Ha, successes_app, !length_app, Haw, Hr.
  - wf_step. apply HQ; try done. rewrite Hl, map_app. done.
Qed.

Lemma batch_spec g n size res : 0 <= n -> 0 <= size -> settled g n res ->
  total (child_mon cfg)
    (fun r g' => match r with inl rs => settled g' (n + size) (res ++ rs) | inr _ => synced g' = None end) g
    (_execute_child_workflow_batch_prepared heap task p stream_id n size window wait_strategy fail_strategy anchor).
Proof.
  intros Hn Hsize Hg. pose proof Hg as (Hd & Hl & Hs & _ & Hres & Hfail).
  unfold _execute_child_workflow_batch_prepared. rewrite <- (Z2Nat.id size) by done. wf_step.
  apply (dispatch_loop_spec _ n 0 _ g g); [lia| |unfold small; simpl; lia| |done].
  { split; [by rewrite app_nil_r, Z.add_0_r|]. by rewrite app_nil_r. }
  rewrite Z.add_0_r. intros batch hs g1 H1 Hsm. wf_step.
  (* the state once the last children are started *)
  match goal with |- total _ ?Q' _ _ => assert (forall hs' g', dispatching g g' (n + Z.of_nat (Z.to_nat size)) [] hs' -> Q' (inl hs') g') as Hgather end.
  { intros hs' g2 (Hd2 & Hl2 & Hlen2 & Ha2 & Hs2). rewrite app_nil_r in Hd2. wf_step.
    eapply gather_spec; [done|done|done| |by intros e].
    intros rs g3 Ed El Es Eo Haw. destruct (bool_decide (fail_strategy = FailALL) && existsb failed rs) eqn:Ef.
    { wf_step. congruence. }
    wf_step. split; [by rewrite Ed|]. split; [congruence|]. split; [congruence|]. split; [done|].
    split; [by rewrite Eo, map_app, Hres|]. intros Hall. rewrite Eo, existsb_app, Hfail by done.
    rewrite bool_decide_true in Ef by done. done. }
  destruct batch as [|c batch]; [wf_step; by apply Hgather|].
  wf_step. eapply flush_spec; [done|done| | |intros e; by destruct H1 as (_ & _ & _ & _ & ?)].
  { unfold small in Hsm. lia. }
  intros hs' g' H'. wf_step. by apply Hgather.
Qed.
End Batch.

(** *** The loop *)

Definition no_children : children := MkChildren [] [] [] None.

Lemma settled_empty heap task p stream_id w f anchor : settled heap task p stream_id w f anchor no_children 0 [].
Proof. repeat split; try (by destruct w); constructor. Qed.

(** C6: a loop over child workflows ends, whatever the runtime answers.  When it returns,
    every item has started exactly one child, in order and with its own inputs and
    configuration, never more than the dispatch window at once; the collection has one
    result per item, in the items' order: the child's result, its execution id when
    detached, or the error record of the child that failed; and with the fail strategy
    [all] no child failed. *)
Theorem child_loop (cfg : Config) (heap : gmap xid xobj) (task : ActionStatement) (p : PreparedSubflowResult)
    (stream_id : StreamID) (anchor : Z) :
  total (child_mon cfg) (fun r g =>
      match r with
      | inr _ => True
      | inl _ => exists w f n,
          wait_strategy_of (get_arg task "wait_strategy" (VStr "wait")) = Ok w /\
          fail_strategy_of (get_arg task "fail_strategy" (VStr "isolated")) = Ok f /\ count p = Ok n /\
          Forall2 (fun i c => _prepare_child_workflow_dispatch task p stream_id i w anchor = Ok c) (seqZ 0 n) (dispatched g) /\
          synced g = Some (map (child_result heap) (outcomes w g)) /\
          length (outcomes w g) = length (dispatched g) /\
          (f = FailALL -> existsb failed (outcomes w g) = false)
      end)
    no_children (_execute_child_workflow_loop_prepared cfg heap task p stream_id anchor).
Proof.
  unfold _execute_child_workflow_loop_prepared.
  wf_step. apply lift_wf_spec; [|done]. intros ls _. wf_step. apply lift_wf_spec; [|done]. intros f Hf.
  wf_step. apply lift_wf_spec; [|done]. intros w Hw. wf_step. apply lift_wf_spec; [|done]. intros n Hn.
  wf_step. apply lift_wf_spec; [|done]. intros bs _. unfold _resolve_child_loop_batch_plan. wf_step.
  set (size := Z.max 1 (Z.min (requested_batch_size ls bs n) n)).
  apply (total_while (child_mon cfg) (fun k '(start, res) g =>
    k = Z.to_nat (n - start) /\ 0 <= start /\ (start <= n \/ start = 0) /\ settled heap task p stream_id w f anchor g start res))
    with (n := Z.to_nat (n - 0)).
  2:{ split; [done|]. split; [done|]. split; [by right|]. apply settled_empty. }
  intros k [start res] g (Hk & Hpos & Hle & Hset). destruct (start <? n) eqn:Elt.
  - apply Z.ltb_lt in Elt. wf_step. eapply total_weaken; [|apply batch_spec; [done| |exact Hset]; lia].
    intros [rs|e] g' Hpost; [|done]. wf_step. simpl. eexists. split; [|split; [reflexivity|]]; [lia|]. split; [lia|]. split; [lia|done].
  - apply Z.ltb_ge in Elt. wf_step. unfold loop_post. wf_step; simplify_eq/=; [done|]. destruct r as [o|e]; [|done].
    destruct Hset as (Hd & Hl & _ & Haw & Hres & Hfail). exists w, f, n. split; [done|]. split; [done|]. split; [done|].
    split.
    { unfold children_upto in Hd. destruct Hle as [Hle| ->]; [by replace n with start by lia|].
      simpl in *. replace (seqZ 0 n) with (@nil Z) by (unfold seqZ; by replace (Z.to_nat n) with 0%nat by lia).
      by inversion Hd. }
    split; [simpl; by rewrite Hres|]. split; [|done]. rewrite outcomes_length; [done|]. destruct w; auto.
Qed.
