(* ===== verification/WfTask.v ===== *)
(** Executing a task ([execute_task], [_execute_task], [_execute_task_until_condition],
    [_handle_timers], [_run_action] of [tracecat/dsl/workflow.py]): timers, the permit
    and its heartbeat, the action itself, the result or the error that is recorded. *)

From S2P Require Import Prelude PyStr Base62 PyVal DslTypes Permits Eval Interact WfErrors WfEvents WfPermit WfChild.

#[local] Open Scope wf_scope.

(** [s.strip()]. *)
Definition strip_str (s : string) : string :=
  String.string_of_list_ascii (Decimal.strip (String.list_ascii_of_string s)).

Definition _is_executable_action (task : ActionStatement) : bool :=
  negb (bool_decide (action task ∈ [PlatformAction.TRANSFORM_SCATTER; PlatformAction.TRANSFORM_GATHER])).

(** The type name recorded for a stored result. *)
Definition stored_typename (o : stored) : string :=
  match o with
  | InlineObject t data => or_str t (obj_typename data)
  | ExternalObject t _ => or_str t "external"
  | CollectionObject t _ _ _ _ _ _ => or_str t "list"
  end.

Definition stored_task_result (o : stored) : TaskResult :=
  MkTaskResult o (stored_typename o) None None VNone None None None.

(** [if s:] of a string that may be missing. *)
Definition nonempty (s : option string) : option string :=
  match s with Some s => if decide (s = "") then None else Some s | None => None end.

Section Task.
Context (cfg : Config) (heap : gmap xid xobj) (ctx : WfCtx) (is_cancelled_exception : raised -> bool).

(** [datetime.now(UTC)] in a workflow is the workflow's clock. *)
Definition _handle_timers (task : ActionStatement) : wf unit :=
  match nonempty (wait_until task) with
  | Some s =>
      let~ parsed := call (ParseWaitUntil s) in
      match parsed with
      | None => throws (NewApplicationError (PVal (VStr "Invalid wait until date")) "" NoDetails)
      | Some wait_until_dt =>
          let~ current_time := query Now in
          if current_time <? wait_until_dt then call (Sleep (Exact (total_seconds wait_until_dt current_time)))
          else returns tt
      end
  | None =>
      if SFltb (S754_zero false) (start_delay task) then call (Sleep (Float (start_delay task))) else returns tt
  end.

Definition _action_permit_id (task : ActionStatement) (stream_id : StreamID) : string :=
  workflow_id ctx +:+ ":" +:+ stream_id +:+ ":" +:+ ref task.

Definition _run_action (task : ActionStatement) (stream_id : StreamID) : wf stored :=
  let~ environment :=
    match environment task with
    | None => returns None
    | Some env =>
        let stripped := strip_str env in
        if is_template_only stripped
        then let~ v := call (EvaluateEnvironment env task stream_id) in returns (Some v)
        else returns (Some (VStr stripped))
    end in
  call (ExecuteAction task stream_id environment (PlatformAction.is_streamable (action task))).

(** The local variables of [_execute_task] that its [finally] clause reads. *)
Record Locals := MkLocals { task_result : TaskResult; permit_set : bool; heartbeat_started : bool }.

(** Code of the [try] block: it raises with the locals of that moment. *)
Definition task_wf (A : Type) : Type := program wfE (raised * Locals) A.

Definition at_ {A} (l : Locals) (m : wf A) : task_wf A :=
  on_outcome m (fun r => match r with inl a => returns a | inr e => throws (e, l) end).

Definition with_task_result (l : Locals) (tr : TaskResult) : Locals := MkLocals tr (permit_set l) (heartbeat_started l).

(** The failure of the preparation of a child workflow: user errors are raised again,
    everything else is a platform failure. *)
Definition subflow_failure (l : Locals) (e : raised) : raised * Locals :=
  match e with
  | Obj o =>
      if negb (is_exception heap e) then (e, l)
      else if default false (_has_user_error_cause heap o) then (e, l)
      else
        let '(root_error, root_message) := default (o, "") (_unwrap_temporal_failure_cause heap o) in
        let platform_error := if is_exception_class (class_of heap root_error) then root_error else o in
        (NewPlatformExecutionError platform_error,
         with_task_result l (with_error (task_result l) (PVal (VStr root_message))
                               (Some (xclass_name (class_of heap platform_error)))))
  | _ => (e, l)
  end.

(** The [match task.action] block: the final [task_result]. *)
Definition run_agent (k : agent_kind) (task : ActionStatement) (stream_id : StreamID) : wf pyobj :=
  let~ action_args := call (BuildAgentArgs k task stream_id) in
  match k with
  | AgentPreset =>
      let~ preset_ref := call (ResolveAgentPreset action_args) in
      call (RunAgent k action_args (Some preset_ref))
  | _ => call (RunAgent k action_args None)
  end.

Definition agent_of (task : ActionStatement) : option agent_kind :=
  if decide (action task = PlatformAction.AI_AGENT) then Some AgentTask
  else if decide (action task = PlatformAction.AI_ACTION) then Some AgentAction
  else if decide (action task = PlatformAction.AI_PRESET_AGENT) then Some AgentPreset
  else None.

Definition do_action (task : ActionStatement) (stream_id : StreamID) (l : Locals) : task_wf TaskResult :=
  if decide (action task = PlatformAction.CHILD_WORKFLOW_EXECUTE) then
    let~ prepared := try_except (at_ l (call (PrepareSubflow task stream_id)))
                       (fun '(e, l) => throws (subflow_failure l e)) in
    let~ stored_result := at_ l (_execute_child_workflow_prepared cfg heap ctx task prepared stream_id) in
    returns (stored_task_result stored_result)
  else
    match agent_of task with
    | Some k =>
        let~ action_result := at_ l (run_agent k task stream_id) in
        returns (match action_result with PVal VNone => task_result l | _ => with_result (task_result l) action_result end)
    | None =>
        let~ stored_result := at_ l (_run_action task stream_id) in
        returns (stored_task_result stored_result)
    end.

(** The limit that applies to the task, if any. *)
Definition permit_limit (task : ActionStatement) : option Z :=
  limit ← tier_limits ctx ≫= max_concurrent_actions;
  if _is_executable_action task then Some limit else None.

(** The [try] block. *)
Definition try_block (task : ActionStatement) (stream_id : StreamID) : task_wf Locals :=
  let l := MkLocals (from_result (PVal VNone)) false false in
  do~ at_ l (_handle_timers task) ;;
  let~ l :=
    match permit_limit task with
    | Some limit =>
        let action_permit_id := _action_permit_id task stream_id in
        let l := MkLocals (task_result l) true false in
        do~ at_ l (_acquire_action_permit cfg action_permit_id limit) ;;
        do~ at_ l (query (StartHeartbeat ACTION action_permit_id)) ;;
        returns (MkLocals (task_result l) true true)
    | None => returns l
    end in
  let~ tr := do_action task stream_id l in
  returns (with_task_result l tr).

(** The [finally] block. *)
Definition finally_block (task : ActionStatement) (stream_id : StreamID) (l : Locals) : wf unit :=
  let action_permit_id := _action_permit_id task stream_id in
  do~ (if heartbeat_started l
       then _run_cancellation_safe_cleanup is_cancelled_exception (StopActionHeartbeat action_permit_id) else returns tt) ;;
  do~ (if permit_set l
       then _run_cancellation_safe_cleanup is_cancelled_exception (ReleaseAction action_permit_id) else returns tt) ;;
  query (SetActionResult stream_id (ref task) (task_result l)).

Definition _execute_task (task : ActionStatement) (stream_id : StreamID) : wf TaskResult :=
  on_outcome (try_block task stream_id) (fun r =>
    match r with
    | inl l => do~ finally_block task stream_id l ;; returns (task_result l)
    | inr (e, l) =>
        let '(e', tr) := handle_exception heap e (task_result l) in
        do~ finally_block task stream_id (with_task_result l tr) ;; throws e'
    end).

(** [ctx = self.context.copy()] is shallow: writing [ctx["ACTIONS"]] writes the results
    of the root stream, in whose context the condition is then evaluated. *)
Definition _execute_task_until_condition (task : ActionStatement) (stream_id : StreamID) : wf TaskResult :=
  match retry_until (retry_policy task) with
  | None => throws (NewException "ValueError" "Retry until is not set")
  | Some retry_until =>
      while_true (fun _ : unit =>
        do~ (if _is_executable_action task then _check_action_execution_limit (tier_limits ctx) else returns tt) ;;
        let~ result := _execute_task task stream_id in
        do~ query (SetActionResult Stream.ROOT_STREAM (ref task) result) ;;
        let~ v := call (EvaluateSingleExpression (strip_str retry_until) Stream.ROOT_STREAM) in
        returns (if truthy v then inr result else inl tt)) tt
  end.

Definition execute_task (task : ActionStatement) (stream_id : StreamID) : wf TaskResult :=
  if decide (action task = PlatformAction.TRANSFORM_GATHER) then call (NoopGather task stream_id)
  else if decide (action task ∈ [PlatformAction.LOOP_START; PlatformAction.LOOP_END]) then call (NoopLoop task stream_id)
  else
    match nonempty (retry_until (retry_policy task)) with
    | Some _ => _execute_task_until_condition task stream_id
    | None =>
        do~ (if _is_executable_action task then _check_action_execution_limit (tier_limits ctx) else returns tt) ;;
        _execute_task task stream_id
    end.
End Task.
