(* ===== verification/WfTaskFacts.v ===== *)
(** The protocol of a task: what it may do, and when, with the permit and with the
    budget of action executions; what is released on every path. *)

From S2P Require Import Prelude PyVal DslTypes Permits Eval Interact WfErrors WfEvents WfPermit WfPermitFacts WfChild WfTask.

#[local] Open Scope wf_scope.

(** ** Kinds of calls *)

Inductive kind :=
  | KTimer                            (** clock, timers, randomness *)
  | KStart                            (** the first call of an attempt at the action *)
  | KWork                             (** the rest of its work *)
  | KOther.

Definition call_kind {T} (e : wfE T) : kind :=
  match e with
  | Now | Uniform _ _ | Sleep _ | Yield | ParseWaitUntil _ => KTimer
  | PrepareSubflow _ _ | BuildAgentArgs _ _ _ | ExecuteAction _ _ _ _ => KStart
  | EvaluateEnvironment _ _ _ | ResolveAgentPreset _ | RunAgent _ _ _ | EvaluateTemplatedObject _ _
  | StartChild _ | AwaitChild _ | StartChildren _ | AwaitChildren _ | SynchronizeCollection _ => KWork
  | _ => KOther
  end.

(** Running children makes no other calls than these. *)
Section ChildCalls.
Context {M : Type} (mon : M -> interaction wfE -> verdict M) (m : M).
Hypothesis quiet : forall T (e : wfE T), call_kind e = KTimer \/ call_kind e = KWork -> ignores mon m e.

Ltac quiet_calls := repeat (first [apply quiet; by auto | stays_step]).

Lemma stays_lift_wf {A} (r : result A) : stays mon m (lift_wf r).
Proof. destruct r; simpl; stays_step. Qed.

Lemma stays_dispatch_loop prepare window offsets batch hs : stays mon m (dispatch_loop prepare window offsets batch hs).
Proof.
  revert batch hs. induction offsets as [|o offsets IH]; intros batch hs; simpl; [by stays_step|].
  stays_step; [quiet_calls|]. stays_step; [apply stays_lift_wf|]. cbv zeta.
  destruct (_ <=? _); [|apply IH]. unfold _flush_child_workflow_dispatch_batch. stays_step; [quiet_calls|]. stays_step; [quiet_calls|]. apply IH.
Qed.

Lemma stays_batch heap task p stream_id n size window w f anchor :
  stays mon m (_execute_child_workflow_batch_prepared heap task p stream_id n size window w f anchor).
Proof.
  unfold _execute_child_workflow_batch_prepared. stays_step; [apply stays_dispatch_loop|]. destruct a as [batch hs].
  unfold _flush_child_workflow_dispatch_batch, _gather_dispatched_child_results. quiet_calls.
Qed.

Lemma stays_child cfg heap ctx task p stream_id : stays mon m (_execute_child_workflow_prepared cfg heap ctx task p stream_id).
Proof.
  unfold _execute_child_workflow_prepared, _compute_logical_time, _run_child_workflow, _execute_child_workflow_loop_prepared.
  repeat (first [apply quiet; by auto | apply stays_lift_wf | apply stays_batch | stays_step]).
Qed.
End ChildCalls.

(** ** The protocol *)

(** Where the task is with its permit.  [Stopping c]: its heartbeat is being stopped, and
    [Releasing c]: the permit is being released, [c] if a cancellation arrived meanwhile.
    [Abandoned]: the wait for the heartbeat to stop was cancelled again, or failed, before
    the permit was released; [Cut]: the wait for the release was. *)
Inductive phase :=
  | Idle | Requested | Held | Running | Stopping (cancelled : bool) | Stopped | Abandoned
  | Releasing (cancelled : bool) | Cut | Released.

#[export] Instance phase_eq_dec : EqDecision phase.
Proof. solve_decision. Defined.

Record tstate := MkTState {
  ph : phase;
  passes : nat;                       (** checks of the execution limit that passed *)
  starts : nat;                       (** attempts at the action *)
  recorded : option TaskResult;       (** the result written to the task's stream since it last asked or began *)
  published : option TaskResult;      (** the last result written to the root stream *)
  refused : option raised }.          (** what the evaluation of the condition, or a no-op task, raised *)

Section Protocol.
Context (cfg : Config) (heap : gmap xid xobj) (ctx : WfCtx) (is_cancelled_exception : raised -> bool).
Context (task : ActionStatement) (stream_id : StreamID).

Abbreviation pid := (_action_permit_id ctx task stream_id).
Abbreviation lim := (permit_limit ctx task).

(** The execution limit that applies to the task. *)
Definition execution_limit : option Z :=
  max ← tier_limits ctx ≫= max_action_executions_per_workflow;
  if _is_executable_action task then Some max else None.

(** The action's work is done with the permit, if one is needed. *)
Definition may_work (s : tstate) : bool :=
  match lim, ph s with
  | Some _, Running => true
  | Some _, _ => false
  | None, Idle => true
  | None, _ => false
  end.

Definition may_start (s : tstate) : bool :=
  may_work s && match execution_limit with Some _ => (starts s <? passes s)%nat | None => true end.

Definition set_ph (s : tstate) (p : phase) : tstate := MkTState p (passes s) (starts s) (recorded s) (published s) (refused s).
Definition settled_phase (p : phase) : bool := match p with Idle | Released => true | _ => false end.
Definition interrupted (p : phase) : bool := match p with Abandoned | Cut => true | _ => false end.

(** A new permit is asked for, a new attempt begins: the last result is no longer the task's. *)
Definition asked_state (s : tstate) (p : phase) : tstate := MkTState p (passes s) (starts s) None (published s) (refused s).
Definition started_state (s : tstate) : tstate := MkTState (ph s) (passes s) (S (starts s)) None (published s) (refused s).

Definition record (s : tstate) (tr : TaskResult) : tstate :=
  MkTState (ph s) (passes s) (starts s) (Some tr) (if decide (stream_id = Stream.ROOT_STREAM) then Some tr else published s) (refused s).
Definition publish (s : tstate) (tr : TaskResult) : tstate := MkTState (ph s) (passes s) (starts s) (recorded s) (Some tr) (refused s).
Definition refuse {A} (s : tstate) (r : A + raised) : tstate :=
  match r with inl _ => s | inr e => MkTState (ph s) (passes s) (starts s) (recorded s) (published s) (Some e) end.

Definition verdict_if {A} (b : bool) (a : A) : verdict A := if b then Next a else Bad.

(** After an interrupted clean-up the task makes no call. *)
Definition task_mon (s : tstate) (x : interaction wfE) : verdict tstate :=
  match x with
  | Act e a =>
      if interrupted (ph s) then Bad
      else match call_kind e with
      | KTimer => Next s
      | KStart => verdict_if (may_start s) (started_state s)
      | KWork => verdict_if (may_work s) s
      | KOther =>
          match e in wfE T return T -> verdict tstate with
          | AddExecutions n => fun c =>
              match execution_limit with
              | Some max =>
                  verdict_if (bool_decide (n = 1) && settled_phase (ph s))
                    (if c <=? max then MkTState (ph s) (S (passes s)) (starts s) (recorded s) (published s) (refused s) else s)
              | None => Bad
              end
          | AcquirePermit sc i n => fun r =>
              if bool_decide (sc = ACTION /\ i = pid /\ Some n = lim) then
                match ph s with
                | Idle | Released | Requested =>
                    Next (asked_state s (match r with inl g => if acquired g then Held else Requested | inr _ => Requested end))
                | _ => Bad
                end
              else Bad
          | StartHeartbeat sc i => fun _ =>
              verdict_if (bool_decide (sc = ACTION /\ i = pid /\ ph s = Held)) (set_ph s Running)
          | Spawn c => fun _ =>
              if decide (c = StopActionHeartbeat pid) then verdict_if (bool_decide (ph s = Running)) (set_ph s (Stopping false))
              else if decide (c = ReleaseAction pid) then
                match ph s with Requested | Held | Stopped => Next (set_ph s (Releasing false)) | _ => Bad end
              else Bad
          | Shield c => fun r =>
              if decide (c = StopActionHeartbeat pid) then
                match ph s with
                | Stopping b =>
                    Next (match r with inl _ => set_ph s Stopped
                          | inr e => if negb b && is_cancelled_exception e then set_ph s (Stopping true) else set_ph s Abandoned end)
                | _ => Bad
                end
              else if decide (c = ReleaseAction pid) then
                match ph s with
                | Releasing b =>
                    Next (match r with inl _ => set_ph s Released
                          | inr e => if negb b && is_cancelled_exception e then set_ph s (Releasing true) else set_ph s Cut end)
                | _ => Bad
                end
              else Bad
          | SetActionResult sid r tr => fun _ =>
              if settled_phase (ph s) && bool_decide (r = ref task) then
                if decide (sid = stream_id) then Next (record s tr)
                else verdict_if (bool_decide (sid = Stream.ROOT_STREAM)) (publish s tr)
              else Bad
          | EvaluateSingleExpression _ sid => fun r =>
              verdict_if (settled_phase (ph s) && match recorded s with Some _ => true | None => false end) (refuse s r)
          | NoopGather _ _ => fun r => verdict_if (bool_decide (ph s = Idle)) (refuse s r)
          | NoopLoop _ _ => fun r => verdict_if (bool_decide (ph s = Idle)) (refuse s r)
          | _ => fun _ => Bad
          end a
      end
  end.

Abbreviation judge := (partial task_mon).

Lemma settled_live p : settled_phase p = true -> interrupted p = false.
Proof. by destruct p. Qed.

Lemma may_work_live s : may_work s = true -> interrupted (ph s) = false.
Proof. unfold may_work. by destruct lim, (ph s). Qed.

Lemma timers_ignored s T (e : wfE T) : interrupted (ph s) = false -> call_kind e = KTimer -> ignores task_mon s e.
Proof. intros Hi He a. simpl. by rewrite Hi, He. Qed.

Lemma work_ignored s T (e : wfE T) : may_work s = true -> call_kind e = KTimer \/ call_kind e = KWork -> ignores task_mon s e.
Proof. intros Hs [He|He] a; simpl; rewrite (may_work_live s Hs), He; [done|]. by rewrite Hs. Qed.

Lemma handle_timers_stays s : interrupted (ph s) = false -> stays task_mon s (_handle_timers task).
Proof.
  intros Hi. unfold _handle_timers. repeat (first [apply timers_ignored; done | stays_step]).
Qed.

(** *** The permit *)

Lemma acquire_ok (Q : unit + raised -> tstate -> Prop) s n : lim = Some n -> settled_phase (ph s) = true ->
  Q (inl tt) (asked_state s Held) -> (forall e, Q (inr e) (asked_state s Requested)) ->
  judge Q s (_acquire_action_permit cfg pid n).
Proof.
  intros Hn Hs Hok Hfail. unfold _acquire_action_permit, acquire_loop. pose proof (settled_live _ Hs) as Hi.
  wf_step. wf_step; simpl in *; rewrite Hi in *; [done|]. simplify_eq/=.
  rename m' into s. apply (partial_while task_mon (fun (_ : nat) s' => s' = s \/ s' = asked_state s Requested)); [|by left].
  intros attempt s' Hs'. unfold acquire_attempt. wf_step.
  assert (interrupted (ph s') = false /\ match ph s' with Idle | Released | Requested => True | _ => False end) as [Hi' Hp].
  { destruct Hs' as [-> | ->]; [split; [done|by destruct (ph s)]|done]. }
  assert (forall p, asked_state s' p = asked_state s p) as Hset by (by destruct Hs' as [-> | ->]).
  wf_step; simpl in *; rewrite Hi', bool_decide_true in * by done; [by destruct (ph s')|].
  assert (m' = asked_state s (match r with inl g => if acquired g then Held else Requested | inr _ => Requested end)) as ->.
  { rewrite <- Hset. destruct (ph s'); simplify_eq; done. }
  destruct r as [g|e]; [|by apply Hfail]. destruct (acquired g).
  { wf_step. wf_step. by wf_step. }
  wf_step. wf_step; [done|]. simplify_eq/=. destruct (QArith_base.Qle_bool _ _); [wf_step; by apply Hfail|].
  wf_step. apply stays_use.
  { unfold _next_permit_backoff_seconds. repeat (first [by apply timers_ignored | stays_step]). }
  intros [b|e]; [|by apply Hfail]. wf_step. apply stays_use; [by apply stays_call, timers_ignored|].
  intros [[]|e]; [|by apply Hfail]. wf_step. by right.
Qed.

(** *** Clean-up *)

Lemma release_ok (Q : unit + raised -> tstate -> Prop) s :
  match ph s with Requested | Held | Stopped => True | _ => False end ->
  Q (inl tt) (set_ph s Released) -> (forall e, Q (inr e) (set_ph s Cut)) ->
  judge Q s (_run_cancellation_safe_cleanup is_cancelled_exception (ReleaseAction pid)).
Proof.
  intros Hs. apply (cleanup_ok task_mon is_cancelled_exception Q s (ReleaseAction pid) (fun b => set_ph s (Releasing b))).
  - intros a. simpl. rewrite decide_True by done. by destruct (ph s).
  - intros b r. simpl. by rewrite decide_True.
Qed.

Lemma stop_ok (Q : unit + raised -> tstate -> Prop) s : ph s = Running ->
  Q (inl tt) (set_ph s Stopped) -> (forall e, Q (inr e) (set_ph s Abandoned)) ->
  judge Q s (_run_cancellation_safe_cleanup is_cancelled_exception (StopActionHeartbeat pid)).
Proof.
  intros Hs. apply (cleanup_ok task_mon is_cancelled_exception Q s (StopActionHeartbeat pid) (fun b => set_ph s (Stopping b))).
  - intros a. simpl. by rewrite Hs, decide_True, bool_decide_true.
  - intros b r. simpl. by rewrite decide_True.
Qed.

(** The locals agree with the state of the permit. *)
Definition locals_ok (l : Locals) (s : tstate) : Prop :=
  match permit_set l, heartbeat_started l with
  | true, true => ph s = Running
  | true, false => ph s = Requested \/ ph s = Held
  | false, false => settled_phase (ph s) = true
  | false, true => False
  end.

(** What the clean-up leaves: the result is recorded, with the permit released, unless it
    was interrupted. *)
Definition cleaned (l : Locals) (s : tstate) (r : unit + raised) (s' : tstate) : Prop :=
  exists p,
  match r with
  | inl _ => s' = record (set_ph s p) (task_result l) /\ settled_phase p = true /\ (permit_set l = false -> p = ph s)
  | inr _ => s' = set_ph s p /\ interrupted p = true /\ permit_set l = true
  end.

Lemma finally_ok (Q : unit + raised -> tstate -> Prop) l s : locals_ok l s -> (forall r s', cleaned l s r s' -> Q r s') ->
  judge Q s (finally_block ctx is_cancelled_exception task stream_id l).
Proof.
  intros Hl HQ. unfold finally_block, locals_ok in *.
  assert (forall p, settled_phase p = true -> (permit_set l = false -> p = ph s) ->
    judge Q (set_ph s p) (query (SetActionResult stream_id (ref task) (task_result l)))) as Hend.
  { intros p Hp Hsame. pose proof (settled_live p Hp) as Hi.
    wf_step; simpl in *; rewrite Hi, Hp, bool_decide_true, decide_True in * by done; [done|]. simplify_eq/=. apply HQ. by exists p. }
  assert (forall e p, interrupted p = true -> permit_set l = true -> Q (inr e) (set_ph s p)) as Hcut.
  { intros e p Hp Hset. apply HQ. by exists p. }
  destruct (permit_set l) eqn:Hp, (heartbeat_started l); [| | done|].
  - wf_step. apply stop_ok; [done| |intros e; by apply Hcut]. wf_step. apply release_ok; [done| |intros e; by apply (Hcut e Cut)].
    by apply (Hend Released).
  - wf_step. wf_step. wf_step. apply release_ok; [by destruct Hl as [-> | ->]|by apply Hend|intros e; by apply Hcut].
  - wf_step. wf_step. wf_step. wf_step. replace s with (set_ph s (ph s)) by (by destruct s). by apply Hend.
Qed.

(** *** The action *)

(** One attempt at most was made. *)
Definition worked (s s' : tstate) : Prop :=
  ph s' = ph s /\ passes s' = passes s /\ (starts s <= starts s' <= S (starts s))%nat /\ published s' = published s /\ refused s' = refused s.

Lemma worked_refl s : worked s s.
Proof. repeat split; lia. Qed.

Lemma worked_started s : worked s (started_state s).
Proof. repeat split; simpl; lia. Qed.

(** The first call of an attempt. *)
Lemma start_heartbeat_ok {A X} (Q : A + X -> tstate -> Prop) s (e : wfE (A + X)%type) :
  call_kind e = KStart -> may_start s = true -> (forall r, Q r (started_state s)) -> judge Q s (call e).
Proof.
  intros He Hs HQ. assert (interrupted (ph s) = false) as Hi.
  { apply may_work_live. by apply andb_true_iff in Hs as [? _]. }
  wf_step; simpl in *; rewrite Hi, He, Hs in *; [done|]. simplify_eq/=. apply HQ.
Qed.

Lemma may_start_work s : may_start s = true -> may_work s = true /\ may_work (started_state s) = true.
Proof. unfold may_start. intros [H _]%andb_true_iff. split; exact H. Qed.

Lemma at_ok {A} (Q : A + (raised * Locals) -> tstate -> Prop) s l (m : wf A) :
  judge (fun r s' => Q (match r with inl a => inl a | inr e => inr (e, l) end) s') s m -> judge Q s (at_ l m).
Proof.
  intros H. unfold at_. wf_step. eapply partial_weaken; [|exact H]. intros [a|e] s' HQ; by wf_step.
Qed.

(** What an action raises leaves the permit's locals alone. *)
Definition same_permit (l l' : Locals) : Prop :=
  permit_set l' = permit_set l /\ heartbeat_started l' = heartbeat_started l.

Definition action_post (l : Locals) (s : tstate) {A} (r : A + (raised * Locals)) (s' : tstate) : Prop :=
  worked s s' /\ match r with inl _ => True | inr (_, l') => same_permit l l' end.

Lemma subflow_failure_locals l e : same_permit l (subflow_failure heap l e).2.
Proof.
  unfold subflow_failure. destruct e as [o| | |]; try done. destruct (negb _); [done|].
  destruct (default false _); [done|]. destruct (default _ _) as [r m]. done.
Qed.

Lemma do_action_ok s l : may_start s = true -> judge (action_post l s) s (do_action cfg heap ctx task stream_id l).
Proof.
  intros Hs. destruct (may_start_work s Hs) as [Hw Hw']. unfold do_action.
  assert (forall A (r : A + raised), action_post l s (match r with inl a => inl a | inr e => inr (e, l) end) (started_state s)) as Hpost.
  { intros A [a|e]; split; try done; apply worked_started. }
  case_decide as Hch.
  - wf_step. wf_step. apply at_ok. apply start_heartbeat_ok; [done|done|]. intros [p|e].
    + wf_step. apply at_ok. apply stays_use.
      { apply stays_child. intros T e He. by apply work_ignored. }
      intros [o|e]; [wf_step; apply (Hpost _ (inl tt))|apply (Hpost stored (inr e))].
    + wf_step. split; [apply worked_started|]. pose proof (subflow_failure_locals l e) as H. by destruct (subflow_failure heap l e).
  - destruct (agent_of task) as [k|]; wf_step; apply at_ok.
    + unfold run_agent. wf_step. apply start_heartbeat_ok; [done|done|]. intros [v|e]; [|apply (Hpost pyobj (inr e))].
      apply stays_use.
      { destruct k; repeat (first [apply work_ignored; [done|by right] | stays_step]). }
      intros [o|e]; [wf_step; apply (Hpost _ (inl tt))|apply (Hpost pyobj (inr e))].
    + unfold _run_action. wf_step. apply stays_use.
      { destruct (environment task) as [env|]; [|by stays_step]. cbv zeta. destruct (is_template_only _); [|by stays_step].
        stays_step; [|by stays_step]. apply stays_call, work_ignored; [done|by right]. }
      intros [env|e]; [|split; [apply worked_refl|done]].
      apply start_heartbeat_ok; [done|done|]. intros [o|e]; [wf_step; apply (Hpost _ (inl tt))|apply (Hpost stored (inr e))].
Qed.

(** *** One execution *)

(** Before an execution of the task: no permit is held, and a check has passed. *)
Definition ready (s : tstate) : Prop :=
  settled_phase (ph s) = true /\ (lim = None -> ph s = Idle) /\
  match execution_limit with Some _ => (starts s < passes s)%nat | None => True end.

(** The failure was recorded as the handler of the [try] block left it. *)
Definition failure_recorded (s : tstate) (e : raised) : Prop :=
  exists e0 tr0 tr, handle_exception heap e0 tr0 = (e, tr) /\ recorded s = Some tr.

(** After it: the result or the failure is recorded and the permit released, or the
    clean-up was interrupted and the task fails. *)
Definition executed (s : tstate) (r : TaskResult + raised) (s' : tstate) : Prop :=
  passes s' = passes s /\ (starts s' <= S (starts s))%nat /\ refused s' = refused s /\
  if interrupted (ph s') then exists e, r = inr e
  else settled_phase (ph s') = true /\ (lim = None -> ph s' = Idle) /\
       match r with
       | inl tr => recorded s' = Some tr /\ (stream_id = Stream.ROOT_STREAM -> published s' = Some tr)
       | inr e => failure_recorded s' e
       end.

Definition locals_of {A} (f : A -> Locals) (r : A + (raised * Locals)) : Locals :=
  match r with inl a => f a | inr (_, l) => l end.

Lemma try_block_ok s : ready s ->
  judge (fun r s' => locals_ok (locals_of id r) s' /\ passes s' = passes s /\ (starts s' <= S (starts s))%nat /\ refused s' = refused s /\
                     (lim = None -> ph s' = Idle /\ permit_set (locals_of id r) = false)) s
    (try_block cfg heap ctx task stream_id).
Proof.
  intros (Hs & Hidle & Hb). unfold try_block. wf_step. apply at_ok. apply stays_use; [by apply handle_timers_stays, settled_live|].
  intros [[]|e]; [|simpl; split; [done|]; split; [done|]; split; [lia|auto]]. wf_step.
  destruct lim as [n|] eqn:Hn.
  - wf_step. apply at_ok. apply acquire_ok; [done|done| |]; [|intros e; split; [by left|]; simpl; split; [done|]; split; [|done]; lia].
    wf_step. apply at_ok. wf_step; simpl in *; rewrite bool_decide_true in * by done; [done|]. simplify_eq/=.
    wf_step. wf_step. eapply partial_weaken; [|apply do_action_ok].
    + intros [tr|[e l]] s' [(Hp & Hps & Hst & _ & Hr) Hl]; simpl in *; [wf_step|destruct Hl as [Hl1 Hl2]]; unfold locals_ok; simpl.
      * repeat split; try done; lia.
      * rewrite Hl1, Hl2. repeat split; try done; lia.
    + unfold may_start, may_work, set_ph. simpl. rewrite Hn. simpl. destruct execution_limit; [|done]. by apply Nat.ltb_lt.
  - wf_step. wf_step. eapply partial_weaken; [|apply do_action_ok].
    + intros [tr|[e l]] s' [(Hp & Hps & Hst & _ & Hr) Hl]; simpl in *; [wf_step|destruct Hl as [Hl1 Hl2]]; unfold locals_ok; simpl;
        rewrite ?Hl1, ?Hl2, Hp, ?Hidle by done; repeat split; try done; lia.
    + unfold may_start, may_work. rewrite Hn, Hidle by done. simpl. destruct execution_limit; [|done]. by apply Nat.ltb_lt.
Qed.

(** The state after the clean-up, and what the task raises or returns then. *)
Lemma cleaned_executed s s1 l r s' (o : TaskResult + raised) :
  passes s1 = passes s -> (starts s1 <= S (starts s))%nat -> refused s1 = refused s -> (lim = None -> ph s1 = Idle /\ permit_set l = false) ->
  cleaned l s1 r s' ->
  match r, o with
  | inl _, inl tr => tr = task_result l
  | inl _, inr e => exists e0 tr0, handle_exception heap e0 tr0 = (e, task_result l)
  | inr _, inr _ => True
  | inr _, inl _ => False
  end -> executed s o s'.
Proof.
  intros H1 H2 H3 Hlim [p Hp] Ho. unfold executed. destruct r as [u|e].
  - destruct Hp as (-> & Hset & Hsame). simpl. rewrite (settled_live p Hset). split; [done|]. split; [done|]. split; [done|].
    split; [done|]. split; [intros Hn; destruct (Hlim Hn) as [Hph Hps]; rewrite Hsame; done|].
    destruct o as [tr|e]; [subst tr; split; [done|]; intros ->; by rewrite decide_True|]. destruct Ho as (e0 & tr0 & Ho). by exists e0, tr0, (task_result l).
  - destruct Hp as (-> & Hint & _). simpl. rewrite Hint. destruct o as [tr|e']; [done|]. repeat split; try done. by eexists.
Qed.

Lemma execute_task_once_ok s : ready s -> judge (executed s) s (_execute_task cfg heap ctx is_cancelled_exception task stream_id).
Proof.
  intros Hs. unfold _execute_task. wf_step. eapply partial_weaken; [|by apply try_block_ok].
  intros r s1 (Hl & Hp & Hst & Hr & Hlim). destruct r as [l|[e l]]; simpl in *.
  - wf_step. apply finally_ok; [done|]. intros u s' Hc.
    destruct u as [[]|x]; [wf_step|]; by eapply (cleaned_executed s s1 l _ s' _ Hp Hst Hr Hlim Hc).
  - destruct (handle_exception heap e (task_result l)) as [e' tr] eqn:He. wf_step. apply finally_ok; [done|]. intros u s' Hc.
    destruct u as [[]|x]; [wf_step|]; eapply (cleaned_executed s s1 (with_task_result l tr) _ s' _ Hp Hst Hr Hlim Hc); [|done]. eauto.
Qed.

(** *** All executions of a task *)

(** Between two executions. *)
Definition between (s : tstate) : Prop :=
  settled_phase (ph s) = true /\ (lim = None -> ph s = Idle) /\
  match execution_limit with Some _ => (starts s <= passes s)%nat | None => True end.

Lemma between_executed s r s' : ready s -> executed s r s' -> interrupted (ph s') = false -> between s'.
Proof.
  intros (_ & _ & Hb) (H1 & H2 & _ & H3) Hi. rewrite Hi in H3. destruct H3 as (H3 & H4 & _).
  split; [done|]. split; [done|]. destruct execution_limit; [lia|done].
Qed.

(** What the check of the execution limit raises. *)
Definition limit_error : raised :=
  NewApplicationError (PVal (VStr "Action execution limit exceeded")) "ActionExecutionLimitExceeded" NoDetails.

Lemma check_ok {A} (Q : A + raised -> tstate -> Prop) s (k : wf A) : between s ->
  (forall s', ready s' -> judge Q s' k) -> (execution_limit <> None -> Q (inr limit_error) s) ->
  judge Q s (do~ (if _is_executable_action task then _check_action_execution_limit (tier_limits ctx) else returns tt) ;; k).
Proof.
  intros (H1 & H2 & H3) Hk He. wf_step.
  assert (execution_limit = None -> ready s) as Hnone.
  { intros Hn. split; [done|]. split; [done|]. by rewrite Hn. }
  pose proof (settled_live _ H1) as Hi. unfold execution_limit in H3, Hnone. unfold _check_action_execution_limit.
  destruct (tier_limits ctx ≫= max_action_executions_per_workflow) as [max|] eqn:El; simpl in *.
  - destruct (_is_executable_action task) eqn:Ex; [|wf_step; apply Hk, Hnone; done].
    assert (execution_limit = Some max) as Hmax by (unfold execution_limit; by rewrite El, Ex).
    wf_step. wf_step; simpl in *; rewrite Hi, Hmax, H1 in *; simpl in *; [done|]. simplify_eq/=.
    destruct (max <? a) eqn:Ea.
    + apply Z.ltb_lt in Ea. rewrite (proj2 (Z.leb_gt _ _)) by done. wf_step. apply He. congruence.
    + apply Z.ltb_ge in Ea. rewrite (proj2 (Z.leb_le _ _)) by done. wf_step. apply Hk. unfold ready. rewrite Hmax. simpl.
      split; [done|]. split; [done|]. lia.
  - destruct (_is_executable_action task); wf_step; apply Hk, Hnone; done.
Qed.

(** Gathers, and the ends of loops, have no action. *)
Definition no_action : bool :=
  bool_decide (action task = PlatformAction.TRANSFORM_GATHER) ||
  bool_decide (action task ∈ [PlatformAction.LOOP_START; PlatformAction.LOOP_END]).

(** How the task ends: with its permit released and its result recorded (in the root stream
    too when the action is repeated until a condition holds), or with the failure that is
    recorded, that of the execution limit, or that of the condition; or the clean-up is
    interrupted, and the task fails. *)
Definition task_post (r : TaskResult + raised) (s : tstate) : Prop :=
  match ph s with
  | Abandoned | Cut => exists e, r = inr e
  | Idle | Released =>
      match r with
      | inl tr => no_action = true \/
          recorded s = Some tr /\ (nonempty (retry_until (retry_policy task)) <> None -> published s = Some tr)
      | inr e => failure_recorded s e \/ (execution_limit <> None /\ e = limit_error) \/ refused s = Some e
      end
  | _ => False
  end.

(** Ends are of both kinds. *)
Lemma settled_post r s : settled_phase (ph s) = true ->
  match r with
  | inl tr => no_action = true \/
      recorded s = Some tr /\ (nonempty (retry_until (retry_policy task)) <> None -> published s = Some tr)
  | inr e => failure_recorded s e \/ (execution_limit <> None /\ e = limit_error) \/ refused s = Some e
  end -> task_post r s.
Proof. unfold task_post. by destruct (ph s). Qed.

Lemma executed_post s r s' : executed s r s' ->
  (forall tr, r = inl tr -> nonempty (retry_until (retry_policy task)) <> None -> published s' = Some tr) -> task_post r s'.
Proof.
  intros (_ & _ & _ & H) Hpub. destruct (interrupted (ph s')) eqn:Hi.
  - unfold task_post. by destruct (ph s').
  - destruct H as (Hset & _ & H). apply settled_post; [done|]. destruct r as [tr|e]; [right; split; [apply H|by apply Hpub]|by left].
Qed.

Lemma until_condition_ok s cond : nonempty (retry_until (retry_policy task)) = Some cond -> between s ->
  judge task_post s (_execute_task_until_condition cfg heap ctx is_cancelled_exception task stream_id).
Proof.
  intros Hc Hs. unfold _execute_task_until_condition.
  destruct (retry_until (retry_policy task)) as [cond'|] eqn:Er; [|done]. clear Hc.
  apply (partial_while task_mon (fun _ s' => between s')); [|done]. clear s Hs. intros _ s Hs.
  apply check_ok; [done| |intros He; apply settled_post; [apply Hs|]; right; by left]. intros s1 Hr. wf_step.
  eapply partial_weaken; [|by apply execute_task_once_ok].
  intros [tr|e] s2 Hex; [|by apply (executed_post s1)].
  pose proof Hex as (_ & _ & _ & Hend). destruct (interrupted (ph s2)) eqn:Hi; [by destruct Hend|].
  pose proof (between_executed _ _ _ Hr Hex Hi) as Hb. destruct Hend as (Hset & Hidle & Hrec & Hroot).
  wf_step. wf_step; simpl in *; rewrite Hi, Hset, bool_decide_true in * by done; simpl in *; [by destruct (decide _)|].
  assert (ph m' = ph s2 /\ passes m' = passes s2 /\ starts m' = starts s2 /\ recorded m' = Some tr /\ published m' = Some tr) as (Hph & Hps & Hst & Hrec' & Hpub).
  { destruct (decide (Stream.ROOT_STREAM = stream_id)) as [Hd|Hd]; simplify_eq/=; [|done]. rewrite <- Hd. by rewrite decide_True. }
  wf_step. wf_step; simpl in *; rewrite Hph, Hi, Hset, Hrec' in *; simpl in *; [done|]. simplify_eq/=.
  destruct r as [v|e]; simpl; [|apply settled_post; [simpl; by rewrite Hph|right; by right]].
  wf_step. destruct (truthy v); simpl.
  - apply settled_post; [by rewrite Hph|]. right. by split.
  - destruct Hb as (H1 & H2 & H3). unfold between. by rewrite Hph, Hps, Hst.
Qed.

Lemma execute_task_ok s : between s -> ph s = Idle ->
  judge task_post s (execute_task cfg heap ctx is_cancelled_exception task stream_id).
Proof.
  intros Hs Hi. unfold execute_task.
  assert (forall r, no_action = true -> task_post r (refuse s r)) as Hno.
  { intros r Hn. apply settled_post; [by destruct r; simpl; rewrite Hi|]. destruct r; [by left|right; by right]. }
  case_decide as Hg.
  { wf_step; simpl in *; rewrite Hi in *; simpl in *; [done|]. simplify_eq. apply Hno. unfold no_action. by rewrite bool_decide_true. }
  case_decide as Hl.
  { wf_step; simpl in *; rewrite Hi in *; simpl in *; [done|]. simplify_eq. apply Hno. apply orb_true_iff. right. by apply bool_decide_true. }
  destruct (nonempty _) as [cond|] eqn:Hc; [by eapply until_condition_ok|].
  apply check_ok; [done| |intros He; apply settled_post; [apply Hs|]; right; by left]. intros s1 Hr.
  eapply partial_weaken; [|by apply execute_task_once_ok]. intros r s2 Hex. apply (executed_post s1); [done|]. by rewrite Hc.
Qed.
End Protocol.

(** A task that has not begun. *)
Definition task_begin : tstate := MkTState Idle 0 0 None None None.

Lemma execute_task_protocol cfg heap ctx isc task stream_id :
  partial (task_mon ctx isc task stream_id) (task_post heap ctx task) task_begin (execute_task cfg heap ctx isc task stream_id).
Proof.
  apply execute_task_ok; [|done]. split; [done|]. split; [done|]. simpl. by destruct (execution_limit ctx task).
Qed.

(** C4: on every path through [execute_task] (timers, success, every error, cancellation,
    retries until a condition) a task asks only for its own permit, works only while it
    holds the permit and the heartbeat runs (when a limit applies), stops the heartbeat
    before it releases, and starts work at most once per check of the execution limit that
    passed.  In the end the permit has been released as often as it was asked for, even when
    the wait for it failed, and the result that is returned has been recorded in the task's
    stream (and in the root stream when the action is repeated until a condition holds), or
    what the handler of the failure made of it.  The one exception: when the wait for a step
    of the clean-up fails or is cancelled a second time, the task fails at once, nothing is
    recorded, and if this was the wait for the heartbeat to stop, the permit is kept
    ([double_cancellation_keeps_permit]). *)
Theorem task_protocol (cfg : Config) (heap : gmap xid xobj) (ctx : WfCtx) (is_cancelled_exception : raised -> bool)
    (task : ActionStatement) (stream_id : StreamID) :
  partial (task_mon ctx is_cancelled_exception task stream_id) (task_post heap ctx task) task_begin
    (execute_task cfg heap ctx is_cancelled_exception task stream_id).
Proof. apply execute_task_protocol. Qed.

(** ** The limit on executions across a workflow *)

(** What was added to the shared counter, and the value answered. *)
Definition counter_access (x : interaction wfE) : option (Z * Z) :=
  match x with
  | Act e a => match e in wfE T return T -> option (Z * Z) with AddExecutions n => fun c => Some (n, c) | _ => fun _ => None end a
  end.
Definition counter_answer (x : interaction wfE) : option Z := snd <$> counter_access x.

(** [_action_execution_count] of the workflow object: what a call makes of it, and answers. *)
Definition count_step (count : Z) (x : interaction wfE) (count' : Z) : Prop :=
  match counter_access x with Some (n, c) => count' = count + n /\ c = count' | None => count' = count end.

(** The tasks of a workflow, each with the calls it has made, take turns on the counter
    they share: [shared count ls l] when [l] is an order in which the workflow, with the
    counter at [count], serves the calls [ls] of its tasks. *)
Inductive shared : Z -> list (list (interaction wfE)) -> list (interaction wfE) -> Prop :=
  | shared_done count ls : Forall (fun l => l = []) ls -> shared count ls []
  | shared_call count count' ls i x rest l : ls !! i = Some (x :: rest) -> count_step count x count' ->
      shared count' (<[i := rest]> ls) l -> shared count ls (x :: l).

Lemma shared_perm count ls l : shared count ls l -> l ≡ₚ concat ls.
Proof.
  induction 1 as [count ls Hls|count count' ls i x rest l Hi _ _ IH].
  - induction Hls as [|l ls -> _ IH]; simpl; done.
  - rewrite IH. clear IH. revert i Hi. induction ls as [|l0 ls IHls]; intros i Hi; [done|]. destruct i as [|i]; simpl in *.
    + by injection Hi as ->.
    + rewrite <- (IHls i Hi). by rewrite Permutation_middle.
Qed.

Definition is_start (x : interaction wfE) : bool :=
  match x with Act e _ => match call_kind e with KStart => true | _ => false end end.

(** The attempts at an action in a history of calls. *)
Definition starts_of (l : list (interaction wfE)) : nat := length (List.filter is_start l).
Definition passes_of (max : Z) (l : list (interaction wfE)) : nat :=
  length (filter (fun c => c <= max) (observed counter_answer l)).

Lemma starts_of_cons x l : starts_of (x :: l) = ((if is_start x then 1 else 0) + starts_of l)%nat.
Proof. unfold starts_of. simpl. by destruct (is_start x). Qed.

Lemma starts_of_app l l' : starts_of (l ++ l') = (starts_of l + starts_of l')%nat.
Proof. induction l as [|x l IH]; simpl; [done|]. rewrite !starts_of_cons, IH. lia. Qed.

Lemma starts_of_perm l l' : l ≡ₚ l' -> starts_of l = starts_of l'.
Proof. induction 1; rewrite ?starts_of_cons; lia. Qed.

Lemma passes_of_cons max x l :
  passes_of max (x :: l) = (match counter_answer x with Some c => if decide (c <= max)%Z then 1 else 0 | None => 0 end + passes_of max l)%nat.
Proof.
  unfold passes_of. simpl. destruct (counter_answer x) as [c|]; [|done]. rewrite filter_cons. by case_decide.
Qed.

Lemma passes_of_app max l l' : passes_of max (l ++ l') = (passes_of max l + passes_of max l')%nat.
Proof. unfold passes_of. by rewrite observed_app, filter_app, length_app. Qed.

Lemma passes_of_perm max l l' : l ≡ₚ l' -> passes_of max l = passes_of max l'.
Proof. induction 1; rewrite ?passes_of_cons; lia. Qed.

(** Counted one by one from [current], at most [max - current] numbers are at most [max]. *)
Definition by_one (x : interaction wfE) : Prop := forall n c, counter_access x = Some (n, c) -> n = 1.

Lemma passes_bound max count ls l : shared count ls l -> Forall by_one l -> (passes_of max l <= Z.to_nat (max - count))%nat.
Proof.
  induction 1 as [|count count' ls i x rest l _ Hx _ IH]; intros Hl; [unfold passes_of; simpl; lia|].
  apply Forall_cons in Hl as [Hone Hl]. specialize (IH Hl). rewrite passes_of_cons. unfold counter_answer, count_step, by_one in *.
  destruct (counter_access x) as [[n c]|]; simpl.
  - destruct Hx as [-> ->]. rewrite (Hone _ _ eq_refl) in *. case_decide; lia.
  - by rewrite Hx in IH.
Qed.

Lemma refuse_counts {A} s (r : A + raised) : starts (refuse s r) = starts s /\ passes (refuse s r) = passes s.
Proof. by destruct r. Qed.

(** What an accepted call does to the ghost counters of the protocol. *)
Lemma mon_counts ctx isc task stream_id max s x s' : execution_limit ctx task = Some max ->
  task_mon ctx isc task stream_id s x = Next s' ->
  by_one x /\ starts s' = ((if is_start x then 1 else 0) + starts s)%nat /\
  passes s' = (match counter_answer x with Some c => if decide (c <= max)%Z then 1 else 0 | None => 0 end + passes s)%nat /\
  ((starts s <= passes s)%nat -> (starts s' <= passes s')%nat).
Proof.
  intros Hmax H. assert (forall T (e : wfE T) (a : T), counter_access (Act e a) = None -> by_one (Act e a)) as Hno by (intros T e a E n c; congruence).
  destruct x as [T e a]. destruct e; simpl in *; unfold verdict_if, may_start in *; rewrite ?Hmax in *;
    repeat case_match; simplify_eq/=; try done; (split; [try (by apply Hno)|]);
    try (destruct (refuse_counts s a) as [-> ->]); try (repeat split; lia).
  all: try (repeat match goal with H : _ && _ = true |- _ => apply andb_true_iff in H as [? ?] end;
            repeat match goal with H : bool_decide _ = true |- _ => apply bool_decide_eq_true in H end;
            try match goal with H : (_ <? _)%nat = true |- _ => apply Nat.ltb_lt in H end;
            first [by intros ? ? [= <- <-] | repeat split; lia]).
Qed.

Lemma verdict_counts ctx isc task stream_id max l s s' : execution_limit ctx task = Some max ->
  verdict_of (task_mon ctx isc task stream_id) s l = Next s' ->
  Forall by_one l /\ starts s' = (starts s + starts_of l)%nat /\ passes s' = (passes s + passes_of max l)%nat /\
  ((starts s <= passes s)%nat -> (starts s' <= passes s')%nat).
Proof.
  intros Hmax. revert s. induction l as [|x l IH]; intros s H; simpl in H.
  { injection H as <-. unfold starts_of, passes_of. simpl. split; [constructor|]. repeat split; lia. }
  destruct (task_mon ctx isc task stream_id s x) as [| |s1] eqn:E; [done..|].
  apply (mon_counts _ _ _ _ _ _ _ _ Hmax) in E as (Hx & H1 & H2 & H3). apply IH in H as (Hl & -> & -> & H4). clear IH.
  rewrite starts_of_cons, passes_of_cons. split; [by constructor|]. repeat split; lia.
Qed.

(** The protocol never excludes an answer. *)
Lemma task_mon_never ctx isc task stream_id s x : task_mon ctx isc task stream_id s x <> Never.
Proof. destruct x as [T e a]. destruct e; simpl; unfold verdict_if; repeat case_match; done. Qed.

Lemma verdict_never ctx isc task stream_id l s : verdict_of (task_mon ctx isc task stream_id) s l <> Never.
Proof.
  revert s. induction l as [|x l IH]; intros s; simpl; [done|]. pose proof (task_mon_never ctx isc task stream_id s x).
  by destruct (task_mon ctx isc task stream_id s x).
Qed.

(** The calls of a task that executes an action, so far. *)
Definition task_run cfg heap ctx isc (r : ActionStatement * StreamID * list (interaction wfE)) : Prop :=
  let '(task, stream_id, l) := r in
  _is_executable_action task = true /\ exists o, trace (execute_task cfg heap ctx isc task stream_id) l o.

Lemma task_run_budget cfg heap ctx isc max r : tier_limits ctx ≫= max_action_executions_per_workflow = Some max ->
  task_run cfg heap ctx isc r -> Forall by_one r.2 /\ (starts_of r.2 <= passes_of max r.2)%nat.
Proof.
  intros Hmax. destruct r as [[task sid] l]. intros (Hx & o & Ht). simpl.
  assert (execution_limit ctx task = Some max) as Hlim by (unfold execution_limit; by rewrite Hmax; simpl; rewrite Hx).
  pose proof (execute_task_protocol cfg heap ctx isc task sid l o Ht) as Hp. pose proof (verdict_never ctx isc task sid l task_begin) as Hn.
  destruct (verdict_of (task_mon ctx isc task sid) task_begin l) as [| |s] eqn:E; [done..|].
  apply (verdict_counts _ _ _ _ _ _ _ _ Hlim) in E as (Hl & H1 & H2 & H3). simpl in *. split; [done|]. lia.
Qed.

(** C22: however the tasks of a workflow interleave, and however far each has come, together
    they have started work at most as often as the tier allows: every attempt was counted
    before, by adding one to the counter they share, and refused above the limit.  (Scatters
    and gathers are not counted.) *)
Theorem execution_limit_enforced (cfg : Config) (heap : gmap xid xobj) (ctx : WfCtx) (is_cancelled_exception : raised -> bool)
    (max : Z) (runs : list (ActionStatement * StreamID * list (interaction wfE))) (history : list (interaction wfE))
    (Hmax : tier_limits ctx ≫= max_action_executions_per_workflow = Some max)
    (Hruns : Forall (task_run cfg heap ctx is_cancelled_exception) runs)
    (Hhistory : shared 0 (map snd runs) history) :
  (starts_of history <= Z.to_nat max)%nat.
Proof.
  pose proof (shared_perm _ _ _ Hhistory) as Hp.
  assert (Forall by_one (concat (map snd runs)) /\ (starts_of (concat (map snd runs)) <= passes_of max (concat (map snd runs)))%nat) as [Hone Hle].
  { clear Hhistory Hp. induction Hruns as [|r runs Hr _ [IH1 IH2]]; simpl; [split; [constructor|done]|].
    destruct (task_run_budget _ _ _ _ _ _ Hmax Hr). rewrite starts_of_app, passes_of_app. split; [by apply Forall_app|lia]. }
  rewrite (starts_of_perm _ _ Hp). rewrite <- Hp in Hone. pose proof (passes_bound max 0 _ history Hhistory Hone) as Hb.
  rewrite (passes_of_perm max _ _ Hp) in Hb. rewrite Z.sub_0_r in Hb. lia.
Qed.

(** ** Concrete runs *)

(** An exception heap with a failed activity (1) and a cancellation (2). *)
Definition example_heap : gmap xid xobj :=
  {[ 1%positive := MkExc XActivityError "activity failed" None "" None [] None;
     2%positive := MkExc XCancelledError "" None "" None [] None ]}.

Definition cancelled_example (e : raised) : bool := bool_decide (raised_class example_heap e = XCancelledError).

(** A runtime that grants permits when [grants] and answers [shield] to a shielded wait;
    its state is the clock, then the counter of executions. *)
Definition serving (grants : bool) (shield : unit + raised) (s : Z * Z) (T : Type) (e : wfE T) : T * (Z * Z) :=
  match e in wfE T return T * (Z * Z) with
  | Now => (s.1, s)
  | Uniform _ _ => (QArith_base.inject_Z 1, s)
  | Sleep (Exact d) => (inl tt, (s.1 + QArith_base.Qnum (Qreduction.Qred (QArith_base.Qmult d (QArith_base.inject_Z 1000000))), s.2))
  | AddExecutions n => (s.2 + n, (s.1, s.2 + n))
  | AcquirePermit _ _ limit => (inl (MkAcquire grants limit), s)
  | ExecuteAction _ _ _ _ => (inl (inline (PVal (VInt 7))), s)
  | EvaluateSingleExpression _ _ => (inl (VBool true), s)
  | Shield _ => (shield, s)
  | HeartbeatDone _ _ => (None, s)
  | PermitFlag => (false, s)
  | StartHeartbeat _ _ | CancelHeartbeat _ _ | ForgetHeartbeat _ _ | Spawn _ | SetPermitFlag _ | SetActionResult _ _ _ => (tt, s)
  | Sleep _ | Yield => (inl tt, s)
  | InlineContext | InlineRunContext => (inline (PVal VNone), s)
  | _ => (inr (Obj 1%positive), s)
  end.

Definition example_ctx : WfCtx := MkWfCtx "wf-1:exec-1" 0 0 (Some (MkLimits None None None (Some 5) (Some 2))).
Definition example_task : ActionStatement := statement "scan" "core.http_request" [].
Definition example_run (grants : bool) (shield : unit + raised) : list (interaction wfE) * option (TaskResult + raised) :=
  drive (serving grants shield) 2000 (0, 0)
    (execute_task DEFAULT_CONFIG example_heap example_ctx cancelled_example example_task Stream.ROOT_STREAM).

(** A tier with one execution per workflow, and two tasks: the second is refused. *)
Definition one_ctx : WfCtx := MkWfCtx "wf-1:exec-1" 0 0 (Some (MkLimits None None None (Some 1) None)).
Definition counted_run (task : ActionStatement) (counted : Z) : list (interaction wfE) * option (TaskResult + raised) :=
  drive (serving true (inl tt)) 2000 (0, counted)
    (execute_task DEFAULT_CONFIG example_heap one_ctx cancelled_example task Stream.ROOT_STREAM).
Definition first_run := counted_run (statement "scan" "core.http_request" []) 0.
Definition second_run := counted_run (statement "notify" "core.http_request" []) 1.

(** One task after the other. *)
Fixpoint counts (count : Z) (l : list (interaction wfE)) : Prop :=
  match l with
  | [] => True
  | x :: l' =>
      match counter_access x with
      | Some (n, c) => c = count + n /\ counts (count + n) l'
      | None => counts count l'
      end
  end.

Lemma shared_one_by_one ls count : counts count (concat ls) -> shared count ls (concat ls).
Proof.
  assert (forall (pre rest : list (list (interaction wfE))) count, Forall (fun l => l = []) pre -> counts count (concat rest) ->
    shared count (pre ++ rest) (concat rest)) as H; [|by apply (H [])].
  clear ls count. intros pre rest. revert pre. induction rest as [|l rest IH]; intros pre count Hpre; simpl.
  - intros _. apply shared_done. by rewrite app_nil_r.
  - revert count. induction l as [|x l IHl]; intros count Hc; simpl in *.
    + specialize (IH (pre ++ [[]]) count). rewrite <- app_assoc in IH. apply IH; [|done]. apply Forall_app. split; [done|by constructor].
    + assert (exists count', count_step count x count' /\ counts count' (l ++ concat rest)) as (count' & Hx & Hc').
      { unfold count_step. destruct (counter_access x) as [[n c]|]; [destruct Hc as [-> Hc]|]; eauto. }
      apply (shared_call _ count' _ (length pre) x l); [by rewrite list_lookup_middle|done|].
      rewrite insert_app_r_alt, Nat.sub_diag by done. simpl. by apply IHl.
Qed.

Lemma shared_two a b : counts 0 (a ++ b) -> shared 0 [a; b] (a ++ b).
Proof. intros H. pose proof (shared_one_by_one [a; b] 0) as Hs. simpl in Hs. rewrite app_nil_r in Hs. by apply Hs. Qed.

Lemma execution_limit_enforced_witness :
  let history := first_run.1 ++ second_run.1 in
  shared 0 [first_run.1; second_run.1] history /\ starts_of first_run.1 = 1%nat /\ second_run.2 = Some (inr limit_error) /\
  (starts_of history <= 1)%nat.
Proof.
  intros history. assert (shared 0 [first_run.1; second_run.1] history) as Hs by (apply shared_two; vm_compute; repeat split).
  split; [exact Hs|]. split; [by vm_compute|]. split; [by vm_compute|].
  apply (execution_limit_enforced DEFAULT_CONFIG example_heap one_ctx cancelled_example 1
    [(statement "scan" "core.http_request" [], Stream.ROOT_STREAM, first_run.1);
     (statement "notify" "core.http_request" [], Stream.ROOT_STREAM, second_run.1)]); [done| |exact Hs].
  constructor; [|constructor; [|constructor]]; (split; [by vm_compute|]); eexists; apply drive_trace.
Defined.

(** An [ApplicationError] raised by the workflow's own code inside the [try] block is an
    instance of [FailureError], but its class has no entry in [ERROR_TYPE_TO_MESSAGE]:
    the handler itself fails, and the task fails with that [KeyError]. *)
Lemma application_error_masked heap message type tr :
  handle_exception heap (NewApplicationError message type NoDetails) tr = (NewException "KeyError" "ApplicationError", tr).
Proof. done. Qed.

(** In particular when no permit is granted in time. *)
Example permit_timeout_masked :
  (example_run false (inl tt)).2 = Some (inr (NewException "KeyError" "ApplicationError")).
Proof. by vm_compute. Qed.

Definition releases (x : interaction wfE) : bool :=
  match x with
  | Act (Spawn (ReleaseAction _)) _ | Act (ReleasePermit _ _) _ => true
  | _ => false
  end.

(** When the task is cancelled twice while its heartbeat is being stopped, the permit that
    was granted is never released. *)
Example double_cancellation_keeps_permit :
  existsb releases (example_run true (inl tt)).1 = true /\
  existsb releases (example_run true (inr (Obj 2%positive))).1 = false /\
  (example_run true (inr (Obj 2%positive))).2 = Some (inr (Obj 2%positive)).
Proof. split; [|split]; by vm_compute. Qed.

(** The condition of [retry_until] is evaluated in the root stream, whatever the stream of
    the task, and the result of the task is written there too. *)
Definition evaluated_in (x : interaction wfE) : option StreamID :=
  match x with Act (EvaluateSingleExpression _ s) _ => Some s | _ => None end.
Definition result_written_in (x : interaction wfE) : option StreamID :=
  match x with Act (SetActionResult s _ _) _ => Some s | _ => None end.

Example retry_until_in_stream :
  let task := MkAction "poll" "" "core.http_request" [] [] VNone None VNone
                (MkRetryPolicy 1 300 (Some "${{ ACTIONS.poll.result == ACTIONS.each.result }}")) (S754_zero false) None JoinALL None false in
  let l := (drive (serving true (inl tt)) 2000 (0, 0)
             (execute_task DEFAULT_CONFIG example_heap example_ctx cancelled_example task (Stream.new "each" (Idx 3) (Some Stream.ROOT_STREAM)))).1 in
  observed result_written_in l = [Stream.new "each" (Idx 3) (Some Stream.ROOT_STREAM); Stream.ROOT_STREAM] /\
  observed evaluated_in l = [Stream.ROOT_STREAM].
Proof. split; by vm_compute. Qed.
