(* ===== verification/WfRun.v ===== *)
(** The workflow run ([DSLWorkflow.run] and [_run_workflow] of
    [tracecat/dsl/workflow.py]): the definition and its registry lock, the workflow's
    permit, the inputs and the configuration, the scheduler, the return value, and the
    error handler workflow. *)

From S2P Require Import Prelude PyStr Base62 PyVal PyOps DslTypes Permits Interact WfErrors WfEvents WfPermit WfChild WfTask.

#[local] Open Scope wf_scope.

(** ** Exceptions and messages *)

(** [isinstance(e, TracecatException)], by the class names of [tracecat/exceptions.py]. *)
Definition tracecat_exceptions : list string :=
  ["TracecatException"; "TracecatValidationError"; "TracecatConflictError"; "TracecatDSLError";
   "TracecatCredentialsError"; "TracecatCredentialsNotFoundError"; "TracecatAuthorizationError";
   "ScopeDeniedError"; "TracecatRLSViolationError"; "TracecatManagementError"; "TracecatNotFoundError";
   "TracecatServiceError"; "RegistryError"; "BuiltinRegistryHasNoSelectionError"; "RegistryActionError";
   "RegistryActionValidationError"; "RegistryValidationError"; "RegistryNotFound"; "TaskUnreachable";
   "ExecutorClientError"; "ExecutionError"; "LoopExecutionError"; "TracecatSettingsError";
   "TracecatImportError"; "RateLimitExceeded"; "PayloadSizeExceeded"; "EntitlementRequired"].

Definition is_tracecat_exception (c : xclass) : bool :=
  match c with
  | XTracecatExpressionError => true
  | XException name => bool_decide (name ∈ tracecat_exceptions)
  | _ => false
  end.

Definition newline : string := String (Ascii.ascii_of_nat 10) "".

(** [ValidationDetail] ([tracecat/validation/schemas.py]); a location is made of
    indices and names. *)
Record ValidationDetail := MkValidationDetail {
  vd_type : string; vd_msg : string; vd_loc : option (list (Z + string)) }.

Definition format_loc (loc : list (Z + string)) : string :=
  String.concat "." (map (fun x => match x with inl i => Decimal.py_str_int i | inr s => s end) loc).

(** [PYDANTIC_ERR_TYPE_HANDLER]. *)
Definition PYDANTIC_ERR_TYPE_HANDLER : gmap string (string -> string) :=
  {[ "pydantic.extra_forbidden" := fun l => "The attribute '" +:+ l +:+ "' is not allowed in the input schema.";
     "pydantic.missing" := fun l => "Missing required field(s): '" +:+ l +:+ "'.";
     "pydantic.invalid_type" := fun l => "Invalid type at '" +:+ l +:+ "'." ]}.

Definition format_detail (i : nat) (d : ValidationDetail) : string :=
  let loc := match vd_loc d with Some ((_ :: _) as l) => l | _ => [inr "<root>"] end in
  let message :=
    match PYDANTIC_ERR_TYPE_HANDLER !! vd_type d with
    | Some h => h (format_loc loc)
    | None => "The attribute '" +:+ format_loc loc +:+ "' does not match the input schema:" +:+ newline +:+
              vd_msg d +:+ "." +:+ newline +:+ "(" +:+ vd_type d +:+ ")"
    end in
  Decimal.py_str_int (Z.of_nat i + 1) +:+ ". " +:+ message.

Definition format_input_schema_validation_error (details : list ValidationDetail) : string :=
  String.concat newline (("Failed to validate trigger inputs:" +:+ newline) :: imap format_detail details).

(** [TriggerType(s)]; the default is [MANUAL]. *)
Definition get_trigger_type (info : WfInfo) : result string :=
  match wi_trigger_type info with
  | None => Ok "manual"
  | Some s => if decide (s ∈ ["manual"; "scheduled"; "webhook"; "case"]) then Ok s else raise ValueError "is not a valid TriggerType"
  end.

Definition resolve_time_anchor_activity (trigger_type : string) (start_time : Z) (scheduled_start_time : option Z) : Z :=
  match scheduled_start_time with
  | Some t => if decide (trigger_type = "scheduled") then t else start_time
  | None => start_time
  end.

Section Run.
Context (cfg : Config) (heap : gmap xid xobj) (is_cancelled_exception : raised -> bool).
Context (args : DSLRunArgs) (info : WfInfo) (organization_id : option string).
(** [str] of a value that is not a scalar, [ValidationDetailListTA.validate_python],
    [ActionErrorInfoAdapter.validate_python] of a value that is not an [ActionErrorInfo]. *)
Context (str_of_other : val -> result string) (validate_details : pyobj -> result (list ValidationDetail)).
Context (validate_error_info : val -> result ActionErrorInfo).

(** [raise ApplicationError(message, type=type)]. *)
Definition app_error (message type : string) : raised := NewApplicationError (PVal (VStr message)) type NoDetails.

Definition class_name (e : raised) : string := xclass_name (raised_class heap e).

(** ** Before the permit *)

Definition _resolve_organization_id : wf string :=
  match organization_id with
  | Some id => returns id
  | None => call GetWorkspaceOrganizationId
  end.

Definition fetch_definition : wf (DSLDefinition * option val * string) :=
  match ra_dsl args with
  | Some dsl => returns (dsl, ra_registry_lock args, "push")
  | None =>
      let~ (dsl, registry_lock) :=
        try_except (call (GetWorkflowDefinition (ra_wf_id args))) (fun e =>
          if is_tracecat_exception (raised_class heap e)
          then throws (app_error "Failed to fetch workflow definition" (class_name e)) else throws e) in
      returns (dsl, registry_lock, "pull")
  end.

Definition resolve_registry_lock (dsl : DSLDefinition) (registry_lock : option val) : wf val :=
  match registry_lock with
  | Some lock => returns lock
  | None =>
      try_except (call (ResolveRegistryLock (remove_dups (map action (d_actions dsl))))) (fun e =>
        if decide (raised_class heap e = XActivityError) then
          match raised_cause heap e with
          | Some cause =>
              if decide (class_of heap cause = XApplicationError) then throws (Obj cause)
              else throws (app_error ("Failed to resolve registry lock: " +:+ raised_str heap e) (class_name e))
          | None => throws (app_error ("Failed to resolve registry lock: " +:+ raised_str heap e) (class_name e))
          end
        else throws e)
  end.

(** ** [_run_workflow] *)

Definition runtime_config (dsl : DSLDefinition) : DSLConfig :=
  match ra_runtime_config args with
  | Some u => MkDSLConfig (default (cfg_environment (d_config dsl)) (u_environment u))
                          (default (cfg_timeout (d_config dsl)) (u_timeout u))
  | None => d_config dsl
  end.

(** The failure of the normalisation; the details of its cause become one detail. *)
Definition normalize_failure (e : raised) : wf (option stored) :=
  if decide (raised_class heap e = XActivityError) then
    match raised_cause heap e ≫= (fun o => heap !! o) with
    | Some cause =>
        if bool_decide (x_class cause = XApplicationError) && bool_decide (x_type cause = Some "ValidationError") then
          match x_details cause with
          | [val_detail] =>
              let~ validated := lift_wf (validate_details val_detail) in
              throws (NewApplicationError (PVal (VStr (format_input_schema_validation_error validated))) "ValidationError"
                        (NestedDetails (x_details cause)))
          | _ => throws (NewException "ValueError" "values to unpack (expected 1)")
          end
        else throws (app_error "Failed to normalize trigger inputs" (class_name e))
    | None => throws (app_error "Failed to normalize trigger inputs" (class_name e))
    end
  else throws e.

Definition resolve_trigger_inputs (dsl : DSLDefinition) : wf (option stored) :=
  let~ trigger_inputs :=
    match ra_schedule_id args with
    | Some schedule_id =>
        try_except (call (GetScheduleTriggerInputs schedule_id (ra_wf_id args))) (fun e =>
          if decide (raised_class heap e = XException "TracecatNotFoundError")
          then throws (app_error "Failed to fetch trigger inputs as the schedule was not found" (class_name e))
          else throws e)
    | None => returns (ra_trigger_inputs args)
    end in
  if truthy (d_expects dsl)
  then try_except (call (NormalizeTriggerInputs (d_expects dsl) trigger_inputs)) normalize_failure
  else returns trigger_inputs.

Definition resolve_time_anchor : wf Z :=
  match ra_time_anchor args with
  | Some t => returns t
  | None =>
      let~ trigger_type := lift_wf (get_trigger_type info) in
      do~ call TimeAnchorActivity ;;
      returns (resolve_time_anchor_activity trigger_type (wi_start_time info) (wi_scheduled_start_time info))
  end.

(** The section of one failed task in the error message. *)
Definition format_failure (n_exc i : Z) (ref : string) (f : TaskFailure) : result string :=
  let bar := "==========" in
  let! expr_context := py_str str_of_other (ei_expr_context (tf_details f)) in
  Ok (bar +:+ " (" +:+ Decimal.py_str_int (i + 1) +:+ "/" +:+ Decimal.py_str_int n_exc +:+ ") " +:+ expr_context +:+ "." +:+
      ref +:+ " " +:+ bar +:+ newline +:+ newline +:+ tf_exception f).

Definition workflow_failure (failures : list (string * TaskFailure)) : result raised :=
  let n_exc := Z.of_nat (length failures) in
  let! formatted := rmap (fun '(i, (ref, f)) => format_failure n_exc (Z.of_nat i) ref f) (imap pair failures) in
  Ok (NewApplicationError
        (PVal (VStr ("Workflow failed with " +:+ Decimal.py_str_int n_exc +:+ " error(s)" +:+ newline +:+ newline +:+
                     String.concat newline formatted)))
        "ApplicationError" (TaskErrors (map (fun '(ref, f) => (ref, tf_details f)) failures))).

Definition _handle_return (dsl : DSLDefinition) : wf stored :=
  match d_returns dsl with
  | VNone =>
      if decide (WORKFLOW_RETURN_STRATEGY cfg = "context") then query InlineContext
      else if decide (WORKFLOW_RETURN_STRATEGY cfg = "minimal") then query InlineRunContext
      else call (ResolveReturnExpression VNone)
  | obj => call (ResolveReturnExpression obj)
  end.

Definition _run_workflow (dsl : DSLDefinition) (dispatch_type : string) : wf stored :=
  let config := runtime_config dsl in
  let~ trigger_inputs := resolve_trigger_inputs dsl in
  let~ anchor := resolve_time_anchor in
  let~ trigger_type := lift_wf (get_trigger_type info) in
  let~ task_exceptions :=
    try_except (call (RunScheduler dsl (MkRunState (ra_wf_id args) config trigger_inputs anchor dispatch_type trigger_type)))
      (fun e =>
         if is_exception heap e
         then throws (app_error ("DSL scheduler failed with unexpected error: " +:+ raised_str heap e) (class_name e))
         else throws e) in
  match task_exceptions with
  | [] =>
      try_except (_handle_return dsl) (fun e =>
        if decide (raised_class heap e = XTracecatExpressionError)
        then throws (app_error ("Couldn't parse return value expression: " +:+ raised_str heap e) (class_name e))
        else if is_exception heap e
        then throws (app_error ("Unexpected error handling return value: " +:+ raised_str heap e) (class_name e))
        else throws e)
  | failures => let~ e := lift_wf (workflow_failure failures) in throws e
  end.

(** ** The error handler *)

(** The message goes on with the object itself. *)
Definition sentinel_error (typename : string) : ActionErrorInfo :=
  error_info "N/A" ("Unexpected error info object of type " +:+ typename) typename Stream.ROOT_STREAM VNone.

(** The errors passed to the handler, from [e.details]; an [ActionErrorInfo] is valid as
    it is. *)
Definition error_infos (e : raised) : result (option (list ActionErrorInfo)) :=
  match e with
  | Obj o =>
      match default [] (x_details <$> heap !! o) with
      | [] => Ok None
      | PVal (VDict d) :: _ => let! l := rmap validate_error_info (map snd d) in Ok (Some l)
      | err_info_map :: _ => Ok (Some [sentinel_error (obj_typename err_info_map)])
      end
  | NewApplicationError _ _ (TaskErrors errors) => Ok (Some (map snd errors))
  | NewApplicationError _ _ (NestedDetails _) => Ok (Some [sentinel_error "tuple"])
  | _ => Ok None
  end.

(** [e.message]. *)
Definition error_message (e : raised) : string :=
  match e with
  | Obj o => default "" (x_message <$> heap !! o)
  | e => raised_str heap e
  end.

Definition raise_result {A} (r : result A) : wf A :=
  match r with Ok a => returns a | Err x => throws (NewException (match exn_cls x with ValidationError => "ValidationError" | _ => "" end) (exn_msg x)) end.

(** [_prepare_error_handler_workflow]; the address of the failed execution is left out. *)
Definition _prepare_error_handler_workflow (dsl : DSLDefinition) (message handler_wf_id trigger_type : string)
    (errors : option (list ActionErrorInfo)) : wf ErrorHandlerRun :=
  let~ (handler, registry_lock) := call (GetWorkflowDefinition handler_wf_id) in
  returns (MkErrorHandlerRun handler_wf_id handler registry_lock (runtime_config dsl) message
             (ra_wf_id args) (wi_workflow_id info) (d_title dsl) trigger_type errors).

(** [except ApplicationError as e]. *)
Definition handle_application_error (dsl : DSLDefinition) (e : raised) : wf stored :=
  let~ handler_wf_id := call GetErrorHandlerWorkflowId in
  match handler_wf_id with
  | None => throws e
  | Some id =>
      let~ errors := raise_result (error_infos e) in
      let~ trigger_type := lift_wf (get_trigger_type info) in
      do~ try_except
            (let~ r := _prepare_error_handler_workflow dsl (error_message e) id trigger_type errors in
             call (RunErrorHandler r))
            (fun err_handler_exc : raised => throws err_handler_exc) ;;
      throws e
  end.

(** ** [run] *)

Definition run_finally : wf unit :=
  do~ _run_cancellation_safe_cleanup is_cancelled_exception StopWorkflowHeartbeat ;;
  let~ held := query PermitFlag in
  if (held : bool) then _run_cancellation_safe_cleanup is_cancelled_exception (ReleaseWorkflow (wi_workflow_id info)) else returns tt.

Definition run_protected (dsl : DSLDefinition) (dispatch_type : string) : wf stored :=
  try_finally
    (try_except (_run_workflow dsl dispatch_type) (fun e =>
       if decide (raised_class heap e = XApplicationError) then handle_application_error dsl e else throws e))
    run_finally.

Definition run : wf stored :=
  do~ _resolve_organization_id ;;
  let~ (dsl, registry_lock, dispatch_type) := fetch_definition in
  do~ resolve_registry_lock dsl registry_lock ;;
  let~ workflow_concurrency_limits_enabled := call ConcurrencyLimitsEnabled in
  do~ (if (workflow_concurrency_limits_enabled : bool) then
         let~ tier_limits := call GetTierLimits in
         match mbind (M := option) max_concurrent_workflows tier_limits with
         | Some limit => _acquire_workflow_permit cfg (wi_workflow_id info) limit
         | None => returns tt
         end
       else returns tt) ;;
  run_protected dsl dispatch_type.
End Run.
