(* ===== verification/WfRunFacts.v ===== *)
(** The protocol of a workflow run, and the errors its handler is given. *)

From S2P Require Import Prelude PyVal DslTypes Permits Interact WfErrors WfEvents WfPermit WfPermitFacts WfChild WfTask WfRun.

#[local] Open Scope wf_scope.

(** ** The monitor of a run *)

(** [RStopping c]: the heartbeat is being stopped, and [RReleasing c]: the permit is being
    released, [c] if a cancellation arrived meanwhile.  [RAbandoned]: the wait for the
    heartbeat to stop was cancelled again, or failed, before the permit was released;
    [RCut]: the wait for the release was. *)
Inductive rphase :=
  | RStart                            (** the definition, its lock, the flag *)
  | RLimits                           (** limits are enabled, and not known yet *)
  | RReady | RAsking | RGranted       (** the permit, if there is a limit *)
  | RHandling | RHandled              (** the error handler *)
  | RStopping (cancelled : bool) | RStopped | RAbandoned | RReleasing (cancelled : bool) | RCut | RReleased.

Record rstate := MkRState {
  rph : rphase;
  flag : bool;                        (** [_workflow_permit_acquired] *)
  wanted : option Z;                  (** the limit on concurrent workflows *)
  scheduled : option (RunState * (list (string * TaskFailure) + raised));  (** the scheduler's run *)
  valued : option stored;             (** the return value *)
  handled : option ErrorHandlerRun }. (** the error handler's run *)

Definition started_run : rstate := MkRState RStart false None None None None.

Definition set_rph (s : rstate) (p : rphase) : rstate := MkRState p (flag s) (wanted s) (scheduled s) (valued s) (handled s).

(** The workflow may work when no limit applies or the permit is held. *)
Definition may_run (s : rstate) : bool :=
  match rph s, wanted s with RReady, None => true | RGranted, Some _ => flag s | _, _ => false end.

(** It may return a value when the scheduler is done without failures. *)
Definition all_done (s : rstate) : bool :=
  match scheduled s, valued s with Some (_, inl []), None => true | _, _ => false end.

Section RunProtocol.
Context (cfg : Config) (heap : gmap xid xobj) (is_cancelled_exception : raised -> bool).
Context (args : DSLRunArgs) (info : WfInfo) (organization_id : option string).
Context (str_of_other : val -> result string) (validate_details : pyobj -> result (list ValidationDetail)).
Context (validate_error_info : val -> result ActionErrorInfo).

Definition allow (b : bool) (s : rstate) : verdict rstate := if b then Next s else Bad.

Definition value (s : rstate) (o : stored) : rstate := MkRState (rph s) (flag s) (wanted s) (scheduled s) (Some o) (handled s).

Definition starting (s : rstate) : bool := match rph s with RStart => true | _ => false end.

(** After an interrupted clean-up the run makes no call.  The flag is a variable of the
    workflow object: it reads as what was last written to it. *)
Definition run_mon (s : rstate) (x : interaction wfE) : verdict rstate :=
  match x with
  | Act e a =>
      match e in wfE T return T -> verdict rstate with
      | Now | Uniform _ _ | Sleep _ => fun _ => match rph s with RAbandoned | RCut => Bad | _ => Next s end
      | GetWorkspaceOrganizationId | ResolveRegistryLock _ => fun _ => allow (starting s) s
      | GetWorkflowDefinition _ => fun _ => match rph s with RStart | RHandling => Next s | _ => Bad end
      | ConcurrencyLimitsEnabled => fun r =>
          match r with
          | inl b => allow (starting s) (set_rph s (if b then RLimits else RReady))
          | inr _ => allow (starting s) s
          end
      | GetTierLimits => fun r =>
          match rph s, r with
          | RLimits, inl l => Next (MkRState RReady (flag s) (l ≫= max_concurrent_workflows) (scheduled s) (valued s) (handled s))
          | RLimits, inr _ => Next s
          | _, _ => Bad
          end
      | AcquirePermit sc i n => fun r =>
          if bool_decide (sc = WORKFLOW /\ i = wi_workflow_id info /\ Some n = wanted s) then
            match rph s with
            | RReady | RAsking => Next (set_rph s (match r with inl g => if acquired g then RGranted else RAsking | inr _ => RAsking end))
            | _ => Bad
            end
          else Bad
      | SetPermitFlag b => fun _ =>
          match rph s, b with
          | RGranted, true => Next (MkRState (rph s) true (wanted s) (scheduled s) (valued s) (handled s))
          | _, _ => Bad
          end
      | HeartbeatDone sc i => fun _ => match rph s with RGranted => Next s | _ => Bad end
      | StartHeartbeat sc i => fun _ => match rph s with RGranted => Next s | _ => Bad end
      | PermitFlag => fun b => match rph s with RStopped => if bool_decide (b = flag s) then Next s else Never | _ => Bad end
      | GetScheduleTriggerInputs _ _ | NormalizeTriggerInputs _ _ | TimeAnchorActivity => fun _ =>
          allow (may_run s && bool_decide (scheduled s = None)) s
      | RunScheduler _ r => fun a =>
          allow (may_run s && bool_decide (scheduled s = None))
            (MkRState (rph s) (flag s) (wanted s) (Some (r, a)) (valued s) (handled s))
      | InlineContext => fun o => allow (may_run s && all_done s) (value s o)
      | InlineRunContext => fun o => allow (may_run s && all_done s) (value s o)
      | ResolveReturnExpression _ => fun r =>
          allow (may_run s && all_done s) (match r with inl o => value s o | inr _ => s end)
      | GetErrorHandlerWorkflowId => fun _ => allow (may_run s && bool_decide (valued s = None)) (set_rph s RHandling)
      | RunErrorHandler h => fun _ =>
          match rph s with
          | RHandling => Next (MkRState RHandled (flag s) (wanted s) (scheduled s) (valued s) (Some h))
          | _ => Bad
          end
      | Spawn c => fun _ =>
          match c, rph s with
          | StopWorkflowHeartbeat, (RHandling | RHandled) => Next (set_rph s (RStopping false))
          | StopWorkflowHeartbeat, _ => allow (may_run s) (set_rph s (RStopping false))
          | ReleaseWorkflow i, RStopped => allow (bool_decide (i = wi_workflow_id info) && flag s) (set_rph s (RReleasing false))
          | _, _ => Bad
          end
      | Shield c => fun r =>
          match c, rph s with
          | StopWorkflowHeartbeat, RStopping b =>
              Next (match r with inl _ => set_rph s RStopped
                    | inr e => if negb b && is_cancelled_exception e then set_rph s (RStopping true) else set_rph s RAbandoned end)
          | ReleaseWorkflow _, RReleasing b =>
              Next (match r with inl _ => set_rph s RReleased
                    | inr e => if negb b && is_cancelled_exception e then set_rph s (RReleasing true) else set_rph s RCut end)
          | _, _ => Bad
          end
      | _ => fun _ => Bad
      end a
  end.

Abbreviation judge := (partial run_mon).

(** *** Before the run *)

Lemma starting_stays s : rph s = RStart ->
  stays run_mon s (_resolve_organization_id organization_id) /\ stays run_mon s (fetch_definition heap args) /\
  forall dsl lock, stays run_mon s (resolve_registry_lock heap dsl lock).
Proof.
  intros Hs. unfold _resolve_organization_id, fetch_definition, resolve_registry_lock.
  split; [|split; [|intros dsl lock]];
    repeat (first [by apply stays_call; intros ?; simpl; unfold starting; rewrite Hs | stays_step]).
Qed.

(** The permit is asked for, and what asking can leave. *)
Definition fresh (s : rstate) : Prop := scheduled s = None /\ valued s = None /\ handled s = None.
Definition asking (s : rstate) : Prop := (rph s = RReady \/ rph s = RAsking) /\ flag s = false /\ fresh s.
Definition granted (s : rstate) : Prop := rph s = RGranted /\ flag s = true /\ fresh s.

Lemma record_permit_run (Q : unit + raised -> rstate -> Prop) s : rph s = RGranted ->
  Q (inl tt) (MkRState RGranted true (wanted s) (scheduled s) (valued s) (handled s)) ->
  judge Q s (do~ query (SetPermitFlag true) ;; _start_workflow_permit_heartbeat (wi_workflow_id info)).
Proof.
  intros Hs HQ. wf_step. wf_step; simpl in *; rewrite Hs in *; [done|]. simplify_eq/=.
  unfold _start_workflow_permit_heartbeat. wf_step. wf_step; [done|]. simplify_eq/=.
  destruct a0 as [[]|]; wf_step; simplify_eq/=; try done; by destruct a0.
Qed.

Lemma acquire_workflow_ok (Q : unit + raised -> rstate -> Prop) s n : wanted s = Some n -> asking s ->
  (forall s', granted s' -> wanted s' = Some n -> Q (inl tt) s') ->
  (forall e s', asking s' -> Q (inr e) s') ->
  judge Q s (_acquire_workflow_permit cfg (wi_workflow_id info) n).
Proof.
  intros Hn Hs Hok Hfail. unfold _acquire_workflow_permit, acquire_loop.
  assert (forall a, run_mon s (Act Now a) = Next s) as Hnow by (intros a; simpl; by destruct Hs as [[-> | ->] _]).
  wf_step. wf_step; rewrite Hnow in *; [done|]. simplify_eq.
  rename m' into s. apply (partial_while run_mon (fun (_ : nat) s' => asking s' /\ wanted s' = Some n)); [|done].
  clear s Hn Hs Hnow. intros attempt s [(Hp & Hf & Ha) Hn]. unfold acquire_attempt. wf_step.
  wf_step; simpl in *; rewrite Hn, bool_decide_true in * by done; [by destruct Hp as [-> | ->]|].
  assert (m' = set_rph s (match r with inl g => if acquired g then RGranted else RAsking | inr _ => RAsking end)) as ->.
  { by destruct Hp as [Hp|Hp]; rewrite Hp in *; simplify_eq. }
  destruct r as [g|e]; [|apply Hfail; split; [by right|done]]. destruct (acquired g).
  { wf_step. apply record_permit_run; [done|]. wf_step. by apply Hok. }
  assert (asking (set_rph s RAsking)) as Hask by (split; [by right|done]).
  wf_step. wf_step; [done|]. simplify_eq/=. destruct (QArith_base.Qle_bool _ _); [wf_step; by apply Hfail|].
  wf_step. apply stays_use.
  { unfold _next_permit_backoff_seconds. repeat (first [by apply stays_query | stays_step]). }
  intros [b|e]; [|by apply Hfail]. wf_step. apply stays_use; [by apply stays_call|].
  intros [[]|e]; [|by apply Hfail]. by wf_step.
Qed.

(** *** The end of a run *)

(** What the clean-up leaves: a permit that is held is released, unless the clean-up was
    interrupted. *)
Definition ended (s0 : rstate) (r : unit + raised) (s : rstate) : Prop :=
  exists p, s = set_rph s0 p /\
    match r with
    | inl _ => p = RReleased \/ p = RStopped /\ flag s0 = false
    | inr _ => p = RAbandoned \/ p = RCut
    end.

Lemma run_finally_ok (Q : unit + raised -> rstate -> Prop) s :
  may_run s = true \/ rph s = RHandling \/ rph s = RHandled ->
  (forall r s', ended s r s' -> Q r s') -> judge Q s (run_finally is_cancelled_exception info).
Proof.
  intros Hs HQ. unfold run_finally. wf_step.
  apply (cleanup_ok run_mon is_cancelled_exception _ s StopWorkflowHeartbeat (fun b => set_rph s (RStopping b)) (set_rph s RStopped) (set_rph s RAbandoned)).
  - intros a. simpl. unfold allow. destruct (rph s) eqn:E; try done; destruct Hs as [->|[H|H]]; congruence.
  - done.
  - wf_step. wf_step; simpl in *; [by case_bool_decide|]. case_bool_decide; simplify_eq/=.
    destruct (flag s) eqn:Hf; [|wf_step; apply HQ; exists RStopped; split; [done|by right]].
    apply (cleanup_ok run_mon is_cancelled_exception _ _ _ (fun b => set_rph s (RReleasing b)) (set_rph s RReleased) (set_rph s RCut)).
    + intros a. simpl. by rewrite Hf, bool_decide_true.
    + done.
    + apply HQ. exists RReleased. split; [done|by left].
    + intros e. apply HQ. exists RCut. split; [done|by right].
  - intros e. apply HQ. exists RAbandoned. split; [done|by left].
Qed.

(** *** The execution *)

Abbreviation failure_of := (workflow_failure str_of_other).

(** What leaves [_run_workflow]: a value only when the scheduler is done and nothing
    failed, the error that lists the failed tasks when some failed. *)
Definition executed (dsl : DSLDefinition) (r : stored + raised) (s : rstate) : Prop :=
  may_run s = true /\ handled s = None /\
  (forall x, scheduled s = Some x -> rs_config x.1 = runtime_config args dsl) /\
  match r with
  | inl o => valued s = Some o /\ exists x, scheduled s = Some (x, inl [])
  | inr e => valued s = None /\
      forall x l e', scheduled s = Some (x, inl l) -> l <> [] -> failure_of l = Ok e' -> e = e'
  end.

Lemma inputs_stay dsl s : may_run s = true -> scheduled s = None ->
  stays run_mon s (resolve_trigger_inputs heap args validate_details dsl) /\ stays run_mon s (resolve_time_anchor args info).
Proof.
  intros Hm Hs. unfold resolve_trigger_inputs, resolve_time_anchor, normalize_failure, lift_wf.
  split; repeat (first [by apply stays_call; intros ?; simpl; rewrite Hm, Hs | stays_step]).
Qed.

Lemma raises_ok dsl s e : may_run s = true -> fresh s -> executed dsl (inr e) s.
Proof. intros Hm (Hs & Hv & Hh). unfold executed. rewrite Hs. naive_solver. Qed.

Lemma return_ok dsl s (Q : stored + raised -> rstate -> Prop) : may_run s = true -> all_done s = true ->
  (forall o, Q (inl o) (value s o)) -> (forall e, Q (inr e) s) -> judge Q s (_handle_return cfg dsl).
Proof.
  intros Hm Hd Hval Herr. unfold _handle_return.
  assert (forall o, judge Q s (call (ResolveReturnExpression o))) as Hcall.
  { intros o. wf_step; simpl in *; rewrite Hm, Hd in *; simpl in *; [done|]. simplify_eq. destruct r; auto. }
  assert (forall e : wfE stored, (forall o, run_mon s (Act e o) = Next (value s o)) -> judge Q s (query e)) as Hquery.
  { intros e He. wf_step; rewrite He in *; [done|]. simplify_eq. auto. }
  destruct (d_returns dsl); try apply Hcall.
  destruct (decide _); [|destruct (decide _); [|apply Hcall]]; apply Hquery; intros o; simpl; by rewrite Hm, Hd.
Qed.

Lemma run_workflow_ok dsl dispatch_type s (Q : stored + raised -> rstate -> Prop) : may_run s = true -> fresh s ->
  (forall r s', executed dsl r s' -> Q r s') ->
  judge Q s (_run_workflow cfg heap args info str_of_other validate_details dsl dispatch_type).
Proof.
  intros Hm Hf HQ. pose proof Hf as (Hs & Hv & Hh). destruct (inputs_stay dsl s Hm Hs) as [Hin Hanchor]. unfold _run_workflow.
  wf_step. apply (stays_use _ _ _ _ Hin). intros [inputs|e]; [|apply HQ; by apply raises_ok].
  wf_step. apply (stays_use _ _ _ _ Hanchor). intros [anchor|e]; [|apply HQ; by apply raises_ok].
  wf_step. destruct (get_trigger_type info) as [tt'|x]; simpl; wf_step; [|apply HQ; by apply raises_ok].
  wf_step. wf_step. wf_step; simpl in *; rewrite Hm, Hs in *; [done|]. simplify_eq/=.
  set (x := MkRunState _ _ _ _ _ _) in *.
  set (s' := MkRState (rph s) (flag s) (wanted s) (Some (x, r)) (valued s) (handled s)).
  assert (may_run s' = true) as Hm' by exact Hm.
  assert (forall e, (forall l e', r = inl l -> l <> [] -> failure_of l = Ok e' -> e = e') -> executed dsl (inr e) s') as Herr.
  { intros e He. unfold executed. split; [done|]. split; [done|]. split; [naive_solver|]. split; [done|].
    intros x' l e' [= _ ->]. by apply He. }
  destruct r as [[|f l]|e].
  - wf_step. apply return_ok; [done|by unfold all_done; simpl; rewrite Hv| |].
    + intros o. apply HQ. unfold executed. simpl. naive_solver.
    + intros e. assert (forall e', Q (inr e') s') as Hany by (intros e'; apply HQ, Herr; congruence).
      destruct (decide (raised_class heap e = XTracecatExpressionError)); [|destruct (is_exception heap e)]; wf_step; apply Hany.
  - wf_step. unfold lift_wf. destruct (failure_of (f :: l)) as [e|y] eqn:E; wf_step; [wf_step|];
      apply HQ, Herr; intros l' e' [= <-] _ Hl; rewrite E in Hl; congruence.
  - assert (forall e', Q (inr e') s') as Hany by (intros e'; apply HQ, Herr; congruence).
    destruct (is_exception heap e); wf_step; apply Hany.
Qed.

(** *** The error handler *)

(** What the handler of a run whose tasks failed was given. *)
Definition told (s : rstate) : Prop :=
  forall h x l e, handled s = Some h -> scheduled s = Some (x, inl l) -> l <> [] -> failure_of l = Ok e ->
    eh_message h = error_message heap e /\ eh_errors h = Some (map (fun f => tf_details f.2) l) /\
    eh_runtime_config h = rs_config x.

Lemma failure_infos l e : failure_of l = Ok e ->
  error_infos heap validate_error_info e = Ok (Some (map (fun f => tf_details f.2) l)).
Proof.
  unfold workflow_failure. destruct (rmap _ _) as [fmt|y]; simpl; [|done]. intros [= <-]. simpl. do 2 f_equal.
  rewrite map_map. apply map_ext. by intros [].
Qed.

Lemma handler_ok dsl s e (Q : stored + raised -> rstate -> Prop) : executed dsl (inr e) s ->
  (forall x s', may_run s' = true \/ rph s' = RHandling \/ rph s' = RHandled -> told s' -> scheduled s' = scheduled s -> Q (inr x) s') ->
  judge Q s (handle_application_error heap args info validate_error_info dsl e).
Proof.
  intros (Hm & Hh & Hc & Hv & He) HQ. unfold handle_application_error, _prepare_error_handler_workflow.
  assert (forall p, told (set_rph s p)) as Hno by (intros p h ? ? ? H; simpl in H; congruence).
  wf_step. wf_step; simpl in *; rewrite Hm, Hv in *; [done|]. simplify_eq/=.
  destruct r as [[id|]|x]; [|by wf_step; apply HQ; [right; left|apply Hno|]|by apply HQ; [right; left|apply Hno|]].
  wf_step. destruct (error_infos heap validate_error_info e) as [errors|y] eqn:Hi; simpl;
    [|wf_step; by apply HQ; [right; left|apply Hno|]].
  wf_step. wf_step. destruct (get_trigger_type info) as [tt'|y]; simpl; wf_step; [|by apply HQ; [right; left|apply Hno|]].
  wf_step. wf_step. wf_step. wf_step. wf_step; [done|]. simplify_eq/=.
  destruct r as [[d lock]|x]; [|wf_step; by apply HQ; [right; left|apply Hno|]]. wf_step.
  wf_step; [done|]. simplify_eq/=. set (h := MkErrorHandlerRun _ _ _ _ _ _ _ _ _ _).
  assert (told (MkRState RHandled (flag s) (wanted s) (scheduled s) (valued s) (Some h))) as Htold.
  { intros h' x l e' [= <-] Hs Hne Hl. simpl in *. assert (e = e') as -> by eauto.
    rewrite (failure_infos _ _ Hl) in Hi. injection Hi as <-. split; [done|]. split; [done|]. symmetry. by apply (Hc _ Hs). }
  destruct r as [[]|x]; wf_step; by apply HQ; [right; right|..].
Qed.

(** *** The run *)

(** How the run ends: before anything was done, without a permit; with the heartbeat stopped
    and the permit, if it was held, released; or interrupted in its clean-up, with an error. *)
Definition run_post (r : stored + raised) (s : rstate) : Prop :=
  match rph s with
  | RStart | RLimits | RReady | RAsking => flag s = false /\ fresh s /\ exists e, r = inr e
  | RStopped => flag s = false
  | RReleased => True
  | RAbandoned | RCut => exists e, r = inr e
  | RGranted | RHandling | RHandled | RStopping _ | RReleasing _ => False
  end /\ told s /\
  match r with
  | inl o => valued s = Some o /\ exists x, scheduled s = Some (x, inl [])
  | inr _ => True
  end.

Lemma told_ended s r s' : told s -> ended s r s' -> told s'.
Proof. intros Ht (p & -> & _). exact Ht. Qed.

Lemma finally_ok_run (r : stored + raised) s : may_run s = true \/ rph s = RHandling \/ rph s = RHandled -> told s ->
  match r with inl o => valued s = Some o /\ exists x, scheduled s = Some (x, inl []) | inr _ => True end ->
  judge (fun r' => run_post (match r' with inl _ => r | inr e => inr e end)) s (run_finally is_cancelled_exception info).
Proof.
  intros Hp Ht Hr. apply run_finally_ok; [done|]. intros u s' He. pose proof (told_ended _ _ _ Ht He) as Ht'.
  destruct He as (p & -> & Hu). split; [|split; [done|by destruct u, r]].
  destruct u; [destruct Hu as [-> | [-> ?]]|destruct Hu as [-> | ->]]; simpl; eauto.
Qed.

Lemma run_protected_ok dsl dispatch_type s : may_run s = true -> fresh s ->
  judge run_post s (run_protected cfg heap is_cancelled_exception args info str_of_other validate_details validate_error_info dsl dispatch_type).
Proof.
  intros Hm Hf. unfold run_protected. wf_step. wf_step. apply run_workflow_ok; [done..|]. intros [o|e] s' He.
  - destruct He as (Hm' & Hh & _ & Hv). apply (finally_ok_run (inl o)); [by left| |done]. intros h ? ? ? H. congruence.
  - destruct (decide (raised_class heap e = XApplicationError)) as [Ha|Ha].
    + eapply handler_ok; [done|]. intros y s'' Hp Ht _. by apply (finally_ok_run (inr y)).
    + wf_step. destruct He as (Hm' & Hh & _). apply (finally_ok_run (inr e)); [by left| |done]. intros h ? ? ? H. congruence.
Qed.
End RunProtocol.

(** C5: the run of a workflow fetches its definition and its limits before anything else,
    asks for a permit exactly when the tier limits concurrent workflows, resolves the
    inputs, runs the scheduler (once) and evaluates the return value only with that
    permit or without a limit, and runs the error handler at most once and only without a
    return value.  Once the permit is granted (or none is needed), whatever happens, the
    heartbeat is stopped and then the permit is released if it is held, before the run
    ends; the one exception is that the wait for one of these two steps fails or is
    cancelled a second time: then the run fails at once, and if this was the wait for the
    heartbeat to stop, the permit is kept.  The run
    succeeds only with the return value, evaluated after the scheduler ended without
    failed tasks; when tasks failed, the handler is given the message of the run's error,
    the run's configuration and exactly the errors of those tasks, in their order. *)
Theorem run_protocol (cfg : Config) (heap : gmap xid xobj) (is_cancelled_exception : raised -> bool)
    (args : DSLRunArgs) (info : WfInfo) (organization_id : option string) (str_of_other : val -> result string)
    (validate_details : pyobj -> result (list ValidationDetail)) (validate_error_info : val -> result ActionErrorInfo) :
  partial (run_mon is_cancelled_exception info) (run_post heap str_of_other) started_run
    (run cfg heap is_cancelled_exception args info organization_id str_of_other validate_details validate_error_info).
Proof.
  destruct (starting_stays heap is_cancelled_exception args info organization_id started_run eq_refl) as (Horg & Hdef & Hlock).
  assert (forall e s, match rph s with RStart | RLimits | RReady | RAsking => True | _ => False end ->
    flag s = false -> fresh s -> run_post heap str_of_other (inr e) s) as Hfail.
  { intros e s Hp Hf Hr. pose proof Hr as (_ & _ & Hh). split; [destruct (rph s); eauto; done|].
    split; [|done]. intros h ? ? ? H. congruence. }
  unfold run. wf_step. apply (stays_use _ _ _ _ Horg). intros [o|e]; [|by apply Hfail].
  wf_step. apply (stays_use _ _ _ _ Hdef). intros [[[dsl lock] dispatch_type]|e]; [|by apply Hfail].
  wf_step. apply (stays_use _ _ _ _ (Hlock dsl lock)). intros [l|e]; [|by apply Hfail].
  wf_step. wf_step; simpl in *; [by destruct r|]. destruct r as [b|e]; simplify_eq/=; [|by apply Hfail].
  wf_step. destruct b; [|wf_step; by apply run_protected_ok].
  wf_step. wf_step; simpl in *; [by destruct r|]. destruct r as [l'|e]; simplify_eq/=; [|by apply Hfail].
  destruct (l' ≫= max_concurrent_workflows) as [n|] eqn:En; rewrite ?En.
  - apply (acquire_workflow_ok cfg is_cancelled_exception info _ _ n); [done|by repeat split; left| |].
    + intros s (Hp & Hf & Ha) Hn. apply run_protected_ok; [|done]. unfold may_run. by rewrite Hp, Hn.
    + intros e s (Hp & Hf & Ha). apply Hfail; [by destruct Hp as [-> | ->]|done|done].
  - wf_step. by apply run_protected_ok.
Qed.

(** ** Concrete runs *)

(** A runtime in which nothing is limited, the handler of every workflow is [wf-handler],
    the normalisation of inputs and the scheduler answer as given, and everything else
    succeeds or is not called. *)
Definition hosting (normalized : option stored + raised) (ran : list (string * TaskFailure) + raised) (d : DSLDefinition)
    (s : unit) (T : Type) (e : wfE T) : T * unit :=
  match e in wfE T return T * unit with
  | Now => (0, s)
  | AddExecutions n => (n, s)
  | Uniform _ _ => (QArith_base.inject_Z 1, s)
  | HeartbeatDone _ _ => (None, s)
  | PermitFlag => (false, s)
  | StartHeartbeat _ _ | CancelHeartbeat _ _ | ForgetHeartbeat _ _ | Spawn _ | SetPermitFlag _ | SetActionResult _ _ _ => (tt, s)
  | InlineContext | InlineRunContext => (inline (PVal (VStr "done")), s)
  | Sleep _ | Yield | Shield _ | TimeAnchorActivity => (inl tt, s)
  | ConcurrencyLimitsEnabled => (inl false, s)
  | ResolveRegistryLock _ => (inl VNone, s)
  | GetWorkflowDefinition _ => (inl (d, None), s)
  | NormalizeTriggerInputs _ _ => (normalized, s)
  | RunScheduler _ _ => (ran, s)
  | GetErrorHandlerWorkflowId => (inl (Some "wf-handler"), s)
  | RunErrorHandler _ => (inl tt, s)
  | _ => (inr (Obj 1%positive), s)
  end.

Fixpoint handler_runs (l : list (interaction wfE)) : list ErrorHandlerRun :=
  match l with
  | [] => []
  | Act (RunErrorHandler h) _ :: l' => h :: handler_runs l'
  | _ :: l' => handler_runs l'
  end.

Definition example_definition (expects : val) : DSLDefinition := MkDefinition "triage" (MkDSLConfig "default" (S754_zero false)) expects VNone [].

(** An activity that failed (1) because the trigger inputs are invalid (2). *)
Definition invalid_inputs : gmap xid xobj :=
  {[ 1%positive := MkExc XActivityError "activity failed" (Some 2%positive) "" None [] None;
     2%positive := MkExc XApplicationError "invalid" None "invalid" (Some "ValidationError") [PVal (VList [])] None ]}.

Definition hosted (normalized : option stored + raised) (ran : list (string * TaskFailure) + raised) (expects : val) :=
  drive (hosting normalized ran (example_definition expects)) 2000 tt
    (run DEFAULT_CONFIG invalid_inputs (fun _ => false) (MkRunArgs "wf-1" None None None None None None)
       (MkWfInfo "wf-1:exec-1" 0 None None) (Some "org") (fun _ => Ok "") (fun _ => Ok [MkValidationDetail "pydantic.missing" "" (Some [inr "alert"])])
       (fun _ => raise ValidationError "")).

(** The errors of two failed tasks reach the handler as they are. *)
Example handler_gets_errors :
  let a := error_info "scan" "timed out" "TimeoutError" Stream.ROOT_STREAM VNone in
  let b := error_info "notify" "no channel" "ValueError" Stream.ROOT_STREAM VNone in
  handler_runs (hosted (inl None) (inl [("scan", MkTaskFailure "timed out" a); ("notify", MkTaskFailure "no channel" b)]) VNone).1 =
  [MkErrorHandlerRun "wf-handler" (example_definition VNone) None (MkDSLConfig "default" (S754_zero false))
     ("Workflow failed with 2 error(s)" +:+ newline +:+ newline +:+
      "========== (1/2) ACTIONS.scan ==========" +:+ newline +:+ newline +:+ "timed out" +:+ newline +:+
      "========== (2/2) ACTIONS.notify ==========" +:+ newline +:+ newline +:+ "no channel")
     "wf-1" "wf-1:exec-1" "triage" "manual" (Some [a; b])].
Proof. by vm_compute. Qed.

(** The details of a validation error of the trigger inputs do not: they are passed on as
    one detail, which is not a dictionary, and the handler is given the sentinel. *)
Example validation_details_lost :
  let e := NewApplicationError
             (PVal (VStr ("Failed to validate trigger inputs:" +:+ newline +:+ newline +:+ "1. Missing required field(s): 'alert'.")))
             "ValidationError" (NestedDetails [PVal (VList [])]) in
  let r := hosted (inr (Obj 1%positive)) (inl []) (VDict [("alert", VStr "str")]) in
  r.2 = Some (inr e) /\
  map eh_errors (handler_runs r.1) = [Some [sentinel_error "tuple"]].
Proof. split; by vm_compute. Qed.
