(* ===== verification/Activities.v ===== *)
(** The activities of the workflow ([tracecat/dsl/action.py]): a context of stored
    results is materialised, and expressions are evaluated against it: single
    expressions, templated objects, the collection of a scatter, the arguments of child
    workflows and of their loops.  The results are stored again. *)

From S2P Require Import Prelude PyStr Base62 Identifiers PyVal PyOps Expr Eval DslTypes Storage WfErrors WfEvents WfChild WfTask.

(** ** Contexts ([tracecat/dsl/schemas.py]) *)

(** The user's context as an activity receives it; the optional entries are dicts. *)
Record ExecutionContext := MkContext {
  ACTIONS : list (string * TaskResult);
  TRIGGER : option stored;
  ENV : option val;
  SECRETS : option val;
  VARS : option val;
  local_vars : option val }.

(** [MaterializedTaskResult], a dict; [raw] is the result. *)
Definition materialized_result (tr : TaskResult) (raw : val) : val :=
  VDict [("result", raw); ("result_typename", VStr (result_typename tr));
         ("error", match tr_error tr with Some e => dump_obj e | None => VNone end);
         ("error_typename", vopt (error_typename tr)); ("interaction", tr_interaction tr);
         ("interaction_id", vopt (interaction_id tr)); ("interaction_type", vopt (interaction_type tr))].

(** [if x := ctx.get(k): result[k] = x]. *)
Definition entry (k : string) (x : option val) : list (string * val) :=
  match x with Some v => if truthy v then [(k, v)] else [] | None => [] end.

(** [MaterializedExecutionContext], from the materialised results. *)
Definition materialized_context (ctx : ExecutionContext) (actions : list (string * val)) (trigger : option val) : list (string * val) :=
  (match actions with [] => [] | _ => [("ACTIONS", VDict actions)] end) ++
  (match trigger with Some v => [("TRIGGER", v)] | None => [] end) ++
  entry "ENV" (ENV ctx) ++ entry "SECRETS" (SECRETS ctx) ++ entry "VARS" (VARS ctx) ++ entry "var" (local_vars ctx).

(** ** Evaluated objects as data *)

(** What is left of an evaluated object when it is serialised: tuples are lists, an
    [IterableExpr] is a dataclass; only string keys are accepted. *)
Fixpoint tobj_val (x : tobj) : result val :=
  match x with
  | TVal (EVal v) => Ok v
  | TVal (ETuple l) => Ok (VList l)
  | TVal (EIter it c) => Ok (VDict [("iterator", VStr it); ("collection", c)])
  | TList l => let! vs := rmap tobj_val l in Ok (VList vs)
  | TDict d =>
      let! kvs := rmap (fun kv =>
        match kv.1 with VStr k => let! v := tobj_val kv.2 in Ok (k, v) | _ => raise TypeError "Dict key must be str" end) d in
      Ok (VDict kvs)
  end.

(** Iterating over a collection: the elements, the characters of a string, the keys of
    a dict. *)
Definition iter_elems (c : val) : result (list val) :=
  match c with
  | VList l => Ok l
  | VStr s => Ok (map VStr (utf8_chars s))
  | VDict d => Ok (map (fun kv => VStr kv.1) d)
  | _ => raise TypeError "object is not iterable"
  end.

(** The list of the zipped iterators: the first round stops at the first iterator that is empty. *)
Fixpoint columns (iterators : list (string * val)) : result (option (list (string * list val))) :=
  match iterators with
  | [] => Ok (Some [])
  | (path, c) :: rest =>
      let! l := iter_elems c in
      match l with
      | [] => Ok None
      | _ => let! cs := columns rest in Ok (option_map (cons (path, l)) cs)
      end
  end.

(** An item of the loop: for each iterator its path and its value. *)
Abbreviation row := (list (string * val)).

Definition row_at (cs : list (string * list val)) (i : nat) : row :=
  map (fun c => (c.1, default VNone (c.2 !! i))) cs.

Definition shortest (cs : list (string * list val)) : nat :=
  match cs with
  | [] => 0
  | c :: cs => foldl (fun n c => Nat.min n (length c.2)) (length c.2) cs
  end.

Definition zip_iterators (iterators : list (string * val)) : result (list row) :=
  let! cs := columns iterators in
  match cs with
  | None => Ok []
  | Some cs => Ok (map (row_at cs) (seq 0 (shortest cs)))
  end.

(** ** Loop variables *)

(** [_patch_object] is [insert_obj_by_path]; the path of an iterator follows [var]. *)
Definition _patch_object (obj : val) (path : string) (value : val) : result val := insert_obj_by_path obj path value ".".

Definition patched_context (base : val) (items : row) : result val :=
  rfor (fun iv ctx => _patch_object ctx ("var" +:+ iv.1) iv.2) items base.

(** [materialized.copy()] is shallow: a dict inside the context is shared with the
    copies, so patching the copy [ctx] patches it in [base] too.  (A path has at least
    one name after [var], so no entry of the copy itself is replaced.) *)
Definition share (base ctx : val) : val :=
  match base, ctx with
  | VDict d, VDict d' =>
      VDict (map (fun kv => match kv.2 with VDict _ => (kv.1, default kv.2 (dget d' kv.1)) | _ => kv end) d)
  | _, _ => base
  end.

(** ** Arguments of subflows ([ExecuteSubflowArgs] of [tracecat/dsl/common.py]) *)

(** The fields that are read. *)
Record SubflowArgs := MkSubflowArgs {
  sa_workflow_id : option string; sa_workflow_alias : option string;
  sa_environment : option string; sa_timeout : option spec_float; sa_trigger_inputs : val }.

Definition MAX_LOOP_ITERATIONS : Z := 4096.

(** [bool] and [==] of floats. *)
Definition float_truthy (f : spec_float) : bool := negb (SFeqb f (S754_zero false)).

Definition resolve_config (dsl_config : DSLConfig) (a : SubflowArgs) : DSLConfig :=
  MkDSLConfig
    (or_str (sa_environment a) (cfg_environment dsl_config))
    (match sa_timeout a with Some t => if float_truthy t then t else cfg_timeout dsl_config | None => cfg_timeout dsl_config end).

Definition config_eqb (c c' : DSLConfig) : bool :=
  bool_decide (cfg_environment c = cfg_environment c') && SFeqb (cfg_timeout c) (cfg_timeout c').

(** [UserError] is an [ApplicationError]. *)
Definition user_error {A} (msg : string) : result A := raise ApplicationError msg.

(** [except <classes> as e: raise UserError(msg) from e]. *)
Definition as_user_error {A} (classes : list exn_class) (msg : string) (r : result A) : result A :=
  match r with
  | Ok a => Ok a
  | Err e => if decide (exn_cls e ∈ classes) then user_error msg else Err e
  end.

(** A configuration per iteration, or one for all. *)
Record ResolvedSubflowConfig := MkResolvedConfig { rc_environment : val; rc_timeout : val }.

Inductive ResolvedConfigs := OneResolved (c : ResolvedSubflowConfig) | ManyResolved (l : list ResolvedSubflowConfig).

Section Evaluation.
Context (elib : EvalLib).
(** [ExecuteSubflowArgs.model_validate]. *)
Context (validate_subflow_args : val -> result SubflowArgs).

Definition evaluate (operand : val) (obj : val) : result val :=
  let! x := eval_templated_object elib operand obj in tobj_val x.

Definition _evaluate_subflow_args (args : list (string * val)) (operand : val) : result (val * SubflowArgs) :=
  let! evaluated_args := as_user_error [TracecatExpressionError] "Error evaluating subflow arguments" (evaluate operand (VDict args)) in
  let! val_args := as_user_error [ValidationError] "Invalid subflow arguments" (validate_subflow_args evaluated_args) in
  Ok (evaluated_args, val_args).

(** *** The iterations of a loop *)

Record LoopState := MkLoopState {
  shared_context : val;
  first_config : option DSLConfig; all_configs_same : bool;
  trigger_inputs_list : list val; configs_list : list DSLConfig }.

Definition loop_iteration (args : list (string * val)) (dsl_config : DSLConfig) (items : row) (s : LoopState) : result LoopState :=
  let! ctx := patched_context (shared_context s) items in
  let! (_, a) := _evaluate_subflow_args args ctx in
  let config := resolve_config dsl_config a in
  let first' := match first_config s with None => Some config | f => f end in
  let same' := match first_config s with
               | None => all_configs_same s
               | Some f => if all_configs_same s && negb (config_eqb config f) then false else all_configs_same s
               end in
  Ok (MkLoopState (share (shared_context s) ctx) first' same'
        (trigger_inputs_list s ++ [sa_trigger_inputs a]) (configs_list s ++ [config])).

Definition _evaluate_loop_iterations (task : ActionStatement) (materialized : val) (dsl_config : DSLConfig)
    : result (list val * RuntimeConfigs) :=
  if negb (truthy (for_each task)) then user_error "task.for_each is required for loop iterations"
  else
    let! iterators := as_user_error [TracecatExpressionError; ValueError] "Error evaluating subflow for_each expression"
                        (get_iterables_from_expression elib materialized (for_each task)) in
    let! all_items := zip_iterators iterators in
    if MAX_LOOP_ITERATIONS <? Z.of_nat (length all_items) then user_error "Loop exceeds max iterations"
    else
      let! s := rfor (loop_iteration (args task) dsl_config) all_items (MkLoopState materialized None true [] []) in
      Ok (trigger_inputs_list s,
          match all_configs_same s, first_config s with
          | true, Some c => OneConfig c
          | _, _ => ManyConfigs (configs_list s)
          end).
End Evaluation.

(** ** Activities *)

Section Activities.
Context {bytes : Type} (lib : @StorageLib bytes) (scfg : StorageConfig) (elib : EvalLib).
(** The nesting of collections in collections. *)
Context (fuel : nat).

Abbreviation M := (@M bytes).

Notation "'let>' x ':=' m 'in' k" := (mbind m (fun x => k))
  (at level 10, x pattern, m at level 100, k at level 200).

Abbreviation retrieve := (object_storage_retrieve lib scfg fuel).

(** [storage.store] of what is left of an evaluated object. *)
Abbreviation store_value := (store lib scfg).

(** The raw result. *)
Definition raw_result (tr : TaskResult) : M pyobj :=
  match tr_result tr with
  | InlineObject _ data =>
      match collection_index tr, list_elements data with
      | Some i, Some l => mlift (py_nth l i)
      | _, _ => mret data
      end
  | ExternalObject _ _ => retrieve (tr_result tr)
  | CollectionObject _ r n c k _ _ =>
      match collection_index tr with
      | Some i => retrieve (collection_at (tr_result tr) i)
      | None =>
          let> l := materialize_collection_values lib (retrieve_stored_object lib fuel) r n c k 0 None in
          mret (PList l)
      end
  end.

Definition _materialize_task_result (tr : TaskResult) : M val :=
  let> raw := raw_result tr in mret (materialized_result tr (dump_obj raw)).

(** The exceptions of [asyncio.gather]; the transport errors of the store, which are
    reported with a type of their own, are not modelled. *)
Definition materialize_error {A} (m : M A) : M A := fun w =>
  match m w with
  | (Err _, w') => (Err (Exn ApplicationError "Failed to materialize context"), w')
  | r => r
  end.

Definition materialize_context (ctx : ExecutionContext) : M val :=
  let> (actions, trigger) :=
    materialize_error
      (let> actions := mmap (fun kv => let> v := _materialize_task_result kv.2 in mret (kv.1, v)) (ACTIONS ctx) in
       let> trigger :=
         match TRIGGER ctx with
         | Some o => let> x := retrieve_stored_object lib fuel o in mret (Some (dump_obj x))
         | None => mret None
         end in
       mret (actions, trigger)) in
  mret (VDict (materialized_context ctx actions trigger)).

(** *** Expressions *)

(** [noop_gather_action_activity], and the same for the loop actions. *)
Definition noop_gather_action_activity (ctx : ExecutionContext) (task : ActionStatement) : option TaskResult :=
  snd <$> List.find (fun kv => bool_decide (kv.1 = ref task)) (ACTIONS ctx).

Definition evaluate_single_expression_activity (expression : string) (operand : ExecutionContext) : M ev :=
  let> materialized := materialize_context operand in
  let expr_str := strip_str expression in
  if decide (expr_str = "") then merr (Exn TracecatExpressionError "Expression cannot be empty")
  else mlift (template_result elib materialized (String.list_ascii_of_string expr_str)).

(** Also [resolve_return_expression_activity]. *)
Definition evaluate_templated_object_activity (obj : val) (operand : ExecutionContext) (k : string) : M stored :=
  let> materialized := materialize_context operand in
  let> result := mlift (evaluate elib materialized obj) in
  store_value k result.

(** The items of a scatter: [None] is the empty collection. *)
Definition scatter_items (x : tobj) : result (list val) :=
  match x with
  | TVal (EVal VNone) => Ok []
  | TVal (EVal (VList l)) => Ok l
  | TVal (ETuple l) => Ok l
  | TVal (EIter it c) => let! l := iter_elems c in Ok (map (fun x => VList [VStr it; x]) l)
  | TList l => rmap tobj_val l
  | _ => raise ApplicationError "Scatter collection is not iterable"
  end.

Definition store_items (prefix : string) (items : list val) : M stored :=
  if RESULT_EXTERNALIZATION_ENABLED scfg then _store_collection_as_refs lib scfg prefix items
  else mret (InlineObject (Some "list") (PVal (VList items))).

Definition _evaluate_scatter_input (collection : val) (operand : ExecutionContext) (k : string) : M stored :=
  let> materialized := materialize_context operand in
  let> result := mlift (eval_templated_object elib materialized collection) in
  let> items := mlift (scatter_items result) in
  store_items k items.

(** *** Subflows *)

Definition handle_looped_subflow_input_activity (for_each : val) (operand : ExecutionContext) : M Z :=
  let> materialized := materialize_context operand in
  let> iterators := mlift (get_iterables_from_expression elib materialized for_each) in
  let> items := mlift (zip_iterators iterators) in
  mret (Z.of_nat (length items)).

(** [l[start : start + size]]. *)
Definition batch_of {A} (l : list A) (start size : Z) : list A := py_slice l start (start + size).

Record BatchState := MkBatchState { bs_shared : val; bs_configs : list ResolvedSubflowConfig; bs_inputs : list val }.

(** [evaluated_args.get(k)]: the arguments are a dict. *)
Definition arg_or_none (args : val) (k : string) : val :=
  match args with VDict d => default VNone (dget d k) | _ => VNone end.

(** [ResolvedSubflowConfig(...)]: pydantic accepts and coerces the two values; [==] of two. *)
Context (resolved_config : ResolvedSubflowConfig -> result ResolvedSubflowConfig).
Context (resolved_eqb : ResolvedSubflowConfig -> ResolvedSubflowConfig -> bool).

Definition batch_iteration (args : list (string * val)) (items : row) (s : BatchState) : result BatchState :=
  let! ctx := patched_context (bs_shared s) items in
  let! a := evaluate elib ctx (VDict args) in
  let! config := resolved_config (MkResolvedConfig (arg_or_none a "environment") (arg_or_none a "timeout")) in
  Ok (MkBatchState (share (bs_shared s) ctx) (bs_configs s ++ [config])
        (bs_inputs s ++ [arg_or_none a "trigger_inputs"])).

Definition _resolve_subflow_batch (task : ActionStatement) (operand : ExecutionContext) (batch_start batch_size : Z) (k : string)
    : M (ResolvedConfigs * list stored) :=
  if negb (truthy (for_each task)) then merr (Exn ApplicationError "ResolveSubflowBatchActivityInput requires task.for_each")
  else
    let> materialized := materialize_context operand in
    let> iterators := mlift (get_iterables_from_expression elib materialized (for_each task)) in
    let> all_items := mlift (zip_iterators iterators) in
    match batch_of all_items batch_start batch_size with
    | [] => merr (Exn ApplicationError "Empty batch")
    | batch_items =>
        let> s := mlift (rfor (batch_iteration (args task)) batch_items (MkBatchState materialized [] [])) in
            let> trigger_inputs :=
          mmap (fun ix => store_value (collection_item_key k ix.1) ix.2) (zip (seqZ 0 (Z.of_nat (length (bs_inputs s)))) (bs_inputs s)) in
        mret (match bs_configs s with
              | c :: l => if forallb (fun c' => resolved_eqb c' c) (c :: l) then OneResolved c else ManyResolved (bs_configs s)
              | [] => ManyResolved []
              end, trigger_inputs)
    end.

(** [ExecuteSubflowArgs.model_validate], the alias and definition
    services. *)
Context (validate_subflow_args : val -> result SubflowArgs).
Context (resolve_workflow_alias : string -> option string).
Context (get_definition_by_workflow_id : string -> val -> option DSLDefinition).

(** [WorkflowUUID.new]; the UUID is passed on in its full spelling. *)
Definition new_workflow_id (id : string) : result string :=
  let! n := new WorkflowUUID (IdStr id) in Ok (uuid_str n).

Definition workflow_id_of (a : SubflowArgs) : result string :=
  match nonempty (sa_workflow_alias a), nonempty (sa_workflow_id a) with
  | Some alias, _ =>
      match resolve_workflow_alias alias with
      | Some id => new_workflow_id id
      | None => user_error "Workflow alias not found"
      end
  | None, Some id => new_workflow_id id
  | None, None => user_error "Either workflow_id or workflow_alias must be provided"
  end.

Definition _prepare_subflow (task : ActionStatement) (operand : ExecutionContext) (k : string) : M PreparedSubflowResult :=
  let> materialized := materialize_context operand in
  let> (evaluated_args, val_args) := mlift (_evaluate_subflow_args elib validate_subflow_args (args task) materialized) in
  let> wf_id := mlift (workflow_id_of val_args) in
  match get_definition_by_workflow_id wf_id (arg_or_none evaluated_args "version") with
  | None => merr (Exn ApplicationError "Workflow definition not found")
  | Some dsl =>
      if negb (truthy (for_each task)) then
        let> (_, val_args) := mlift (_evaluate_subflow_args elib validate_subflow_args (args task) materialized) in
        mret (MkPrepared wf_id (d_config dsl) None (OneConfig (resolve_config (d_config dsl) val_args)))
      else
        let> (trigger_inputs_list, runtime_configs) :=
          mlift (_evaluate_loop_iterations elib validate_subflow_args task materialized (d_config dsl)) in
        let> trigger_inputs := store_items (k +:+ "/trigger_inputs") trigger_inputs_list in
        mret (MkPrepared wf_id (d_config dsl) (Some trigger_inputs) runtime_configs)
  end.

(** *** Results *)

(** [synchronize_collection_object_activity]; the values are stored as the JSON they are. *)
Definition resynchronized (k : string) (io : Z * stored) : M val :=
  let> value := retrieve io.2 in
  let> o := store_value (collection_item_key k io.1) (dump_obj value) in
  mret (dump_stored o).

Definition synchronize_collection_object_activity (collection : list stored) (k : string) : M stored :=
  if RESULT_EXTERNALIZATION_ENABLED scfg then
    let> refs := mmap (resynchronized k) (zip (seqZ 0 (Z.of_nat (length collection))) collection) in
    store_collection lib scfg k refs EKstored_object None None
  else
    let> values := mmap retrieve collection in
    mret (InlineObject (Some "list") (PList values)).

(** [normalize_trigger_inputs] applies a generated pydantic model. *)
Context (normalize_trigger_inputs : val -> val -> result val).

Definition normalize_trigger_inputs_activity (input_schema : val) (trigger_inputs : option stored) (k : string) : M stored := fun w =>
  match
    (let> value := match trigger_inputs with Some o => retrieve o | None => mret (PVal (VDict [])) end in
     let> normalized := mlift (normalize_trigger_inputs input_schema (dump_obj value)) in
     store_value k normalized) w
  with
  | (Err e, w') =>
      (Err (Exn ApplicationError
        (if decide (exn_cls e = ValidationError) then "Failed to validate trigger inputs"
         else "Unexpected error when normalizing trigger inputs")), w')
  | r => r
  end.
End Activities.
