(* ===== verification/ActivitiesFacts.v ===== *)
(** Loops over child workflows see each item in its own context and hand each child its
    own inputs and configuration; contexts of stored results materialise to the values
    that were stored. *)

From S2P Require Import Prelude PyStr Base62 Identifiers PyVal PyOps Expr Eval DslTypes Storage StorageFacts WfErrors WfEvents WfChild WfTask Activities.

(** ** Loop variables *)

(** The values of the variables [ns] written into the dict of loop variables. *)
Definition bind_vars (vd : list (string * val)) (ns : list string) (vs : list val) : list (string * val) :=
  foldl (fun d nv => dset d nv.1 nv.2) vd (zip ns vs).

Lemma bind_vars_dset vd ns vs k v : k ∉ ns -> k ∈ map fst vd -> dset (bind_vars vd ns vs) k v = bind_vars (dset vd k v) ns vs.
Proof.
  unfold bind_vars. revert vd vs. induction ns as [|n ns IH]; intros vd [|x vs] Hk Hin; simpl; try done.
  rewrite IH; [|set_solver|apply dset_in; by right]. by rewrite dset_comm by set_solver.
Qed.

(** Writing all the variables again leaves nothing of what they were before. *)
Lemma bind_vars_absorb vd ns vs vs' : NoDup ns -> length vs = length ns -> length vs' = length ns ->
  bind_vars (bind_vars vd ns vs) ns vs' = bind_vars vd ns vs'.
Proof.
  revert vd vs vs'. induction ns as [|n ns IH]; intros vd [|v vs] [|v' vs'] Hn Hl Hl'; try done.
  apply NoDup_cons in Hn as [Hn Hns]. unfold bind_vars. simpl.
  change (bind_vars (dset (bind_vars (dset vd n v) ns vs) n v') ns vs' = bind_vars (dset vd n v') ns vs').
  rewrite bind_vars_dset by (try done; apply dset_in; by left). rewrite dset_dset. by apply IH; auto.
Qed.

(** An item of a loop over the variables [ns]. *)
Definition row_of (ns : list string) (r : row) : Prop := map fst r = map (String ".") ns.

Definition plain_names (ns : list string) : Prop := Forall (fun n => has_char "." n = false) ns.

(** The dict of loop variables of a context, if it has one or may get one. *)
Definition vars_of (d : list (string * val)) : option (list (string * val)) :=
  match dget d "var" with None => Some [] | Some (VDict vd) => Some vd | Some _ => None end.

Definition with_vars (d : list (string * val)) (vd : list (string * val)) : val := VDict (dset d "var" (VDict vd)).

Lemma patch_one d n v : has_char "." n = false ->
  _patch_object (VDict d) ("var" +:+ String "." n) v =
  match vars_of d with
  | Some vd => Ok (with_vars d (dset vd n v))
  | None => raise TypeError "object does not support item assignment"
  end.
Proof.
  intros Hn. unfold _patch_object, insert_obj_by_path.
  rewrite split_all_app by done. simpl. unfold vars_of, with_vars. destruct (dget d "var") as [[]|]; done.
Qed.

Lemma vars_with d vd : match with_vars d vd with VDict d' => vars_of d' | _ => None end = Some vd.
Proof. unfold with_vars, vars_of. by rewrite dget_dset_eq. Qed.

Lemma with_with d vd vd' : match with_vars d vd with VDict d' => with_vars d' vd' | x => x end = with_vars d vd'.
Proof. unfold with_vars. by rewrite dset_dset. Qed.

Lemma patched_spec ns r d : row_of ns r -> plain_names ns -> r <> [] ->
  patched_context (VDict d) r =
  match vars_of d with
  | Some vd => Ok (with_vars d (bind_vars vd ns (map snd r)))
  | None => raise TypeError "object does not support item assignment"
  end.
Proof.
  unfold patched_context, row_of. revert ns d. induction r as [|[p v] r IH]; intros ns d Hr Hns Hne; [done|].
  destruct ns as [|n ns]; [done|]. simpl in Hr. injection Hr as -> Hr. apply Forall_cons in Hns as [Hn Hns].
  cbn [rfor fst snd]. rewrite patch_one by done. destruct (vars_of d) as [vd|] eqn:E; [|done].
  cbn [rbind map]. destruct r as [|iv r].
  - destruct ns; [done|discriminate].
  - change (bind_vars vd (n :: ns) (v :: map snd (iv :: r))) with (bind_vars (dset vd n v) ns (map snd (iv :: r))).
    unfold with_vars at 1. rewrite (IH ns _ Hr Hns) by done.
    pose proof (vars_with d (dset vd n v)) as Hv. simpl in Hv. rewrite Hv.
    pose proof (with_with d (dset vd n v) (bind_vars (dset vd n v) ns (map snd (iv :: r)))) as Hw. simpl in Hw. simpl. by rewrite Hw.
Qed.

(** *** Sharing *)

Lemma share_vars d x : NoDup (map fst d) ->
  share (VDict d) (with_vars d x) =
  match dget d "var" with Some (VDict _) => with_vars d x | _ => VDict d end.
Proof.
  intros Hd. unfold share, with_vars. set (D := dset d "var" (VDict x)).
  assert (forall k v, (k, v) ∈ d -> k <> "var" -> dget D k = Some v) as Hother.
  { intros k v Hin Hk. unfold D. rewrite dget_dset_ne by congruence. by apply dget_in. }
  assert (forall l, (forall k v, (k, v) ∈ l -> (k, v) ∈ d) -> "var" ∉ map fst l ->
    map (fun kv => match kv.2 with VDict _ => (kv.1, default kv.2 (dget D kv.1)) | _ => kv end) l = l) as Hsame.
  { intros l Hl Hv. rewrite <- (map_id l) at 2. apply map_ext_in. intros [k v] Hin%list_elem_of_In. simpl.
    assert (k <> "var") as Hk. { intros ->. apply Hv, list_elem_of_fmap. by exists ("var", v). }
    destruct v; try done. by rewrite (Hother k _ (Hl _ _ Hin) Hk). }
  destruct (dget d "var") as [w|] eqn:E; [|by rewrite Hsame by (auto using dget_None_in)].
  assert (forall l1 l2, d = l1 ++ l2 -> dget l2 "var" = Some w ->
    map (fun kv => match kv.2 with VDict _ => (kv.1, default kv.2 (dget D kv.1)) | _ => kv end) l2 =
    match w with VDict _ => dset l2 "var" (VDict x) | _ => l2 end) as Hl.
  { intros l1 l2. revert l1. induction l2 as [|[k v] l2 IH]; intros l1 Hl Hw; [done|]. simpl in *.
    destruct (decide (k = "var")) as [->|Hk].
    - injection Hw as ->. rewrite Hsame.
      + destruct w; try done. simpl. unfold D. by rewrite dget_dset_eq.
      + intros k v Hin. rewrite Hl. set_solver.
      + rewrite Hl, map_app in Hd. by apply NoDup_app in Hd as (_ & _ & [Hv _]%NoDup_cons).
    - rewrite (IH (l1 ++ [(k, v)])) by (by rewrite <- ?app_assoc).
      assert ((k, v) ∈ d) as Hin by (rewrite Hl; set_solver).
      destruct v; simpl; try (by destruct w). rewrite (Hother _ _ Hin Hk). simpl. by destruct w. }
  rewrite (Hl [] d eq_refl E). by destruct w.
Qed.

Section Isolation.
Context (d : list (string * val)) (ns : list string).
Hypothesis (Hd : NoDup (map fst d)) (Hns : NoDup ns) (Hplain : plain_names ns).

(** What the iterations may leave of a context: its own dict of loop variables holds
    the values of an item, a dict that only the copies have is forgotten. *)
Definition reachable_context (s : val) : Prop :=
  s = VDict d \/
  exists vd vs, dget d "var" = Some (VDict vd) /\ length vs = length ns /\ s = with_vars d (bind_vars vd ns vs).

Lemma row_length r : row_of ns r -> length (map snd r) = length ns.
Proof. unfold row_of. intros H%(f_equal length). rewrite !length_map in H. by rewrite length_map. Qed.

(** Every iteration sees its own item in the context it would have alone. *)
Lemma iteration_isolated s r : reachable_context s -> row_of ns r -> r <> [] ->
  patched_context s r = patched_context (VDict d) r.
Proof.
  intros [->|(vd & vs & Hv & Hl & ->)] Hr Hne; [done|]. unfold with_vars. rewrite !(patched_spec ns) by done.
  unfold vars_of, with_vars. rewrite dget_dset_eq, Hv, dset_dset, bind_vars_absorb by (auto using row_length). done.
Qed.

Lemma share_reachable s r ctx : reachable_context s -> row_of ns r -> r <> [] ->
  patched_context s r = Ok ctx -> reachable_context (share s ctx).
Proof.
  intros Hs Hr Hne. rewrite (iteration_isolated s r Hs Hr Hne), (patched_spec ns) by done.
  destruct (vars_of d) as [vd|] eqn:Ev; [|done]. intros [= <-]. unfold vars_of in Ev.
  destruct Hs as [->|(vd' & vs & Hv & Hl & ->)].
  - rewrite share_vars by done. destruct (dget d "var") as [[]|] eqn:E; try done; [|by left].
    right. simplify_eq. exists vd, (map snd r). auto using row_length.
  - rewrite Hv in Ev. simplify_eq. right. exists vd, (map snd r). split; [done|]. split; [by apply row_length|].
    set (X := bind_vars vd ns (map snd r)). set (e := dset d "var" (VDict (bind_vars vd ns vs))).
    assert (with_vars d X = with_vars e X) as -> by (unfold with_vars, e; by rewrite dset_dset).
    change (with_vars d (bind_vars vd ns vs)) with (VDict e). rewrite share_vars by (by apply dset_nodup).
    unfold e. by rewrite dget_dset_eq.
Qed.
End Isolation.

(** *** The rows of a loop *)

Lemma columns_fst its cs : columns its = Ok (Some cs) -> map fst cs = map fst its.
Proof.
  revert cs. induction its as [|[p c] its IH]; intros cs; simpl; [by intros [= <-]|].
  intros H. apply rbind_Ok in H as (l & _ & H). destruct l; [done|].
  apply rbind_Ok in H as ([cs'|] & Hc & [= H]). subst. simpl. f_equal. by apply IH.
Qed.

Lemma zip_rows its rows ns r : zip_iterators its = Ok rows -> map fst its = map (String ".") ns -> r ∈ rows ->
  row_of ns r /\ r <> [].
Proof.
  unfold zip_iterators. intros H Hns Hr. apply rbind_Ok in H as (cs & Hc & H).
  destruct cs as [cs|]; injection H as <-; [|by apply elem_of_nil in Hr].
  apply list_elem_of_In, in_map_iff in Hr as (i & <- & Hi). apply columns_fst in Hc. split.
  - unfold row_of, row_at. rewrite map_map. change (map fst cs = map (String ".") ns). by rewrite Hc.
  - destruct cs; [done|]. done.
Qed.

Lemma materialized_keys ctx actions trigger : NoDup (map fst (materialized_context ctx actions trigger)).
Proof.
  unfold materialized_context, entry. rewrite !map_app.
  destruct actions, trigger, (ENV ctx) as [e|], (SECRETS ctx) as [f|], (VARS ctx) as [g|], (local_vars ctx) as [h|];
    try destruct (truthy e); try destruct (truthy f); try destruct (truthy g); try destruct (truthy h);
    (apply (bool_decide_unpack _); vm_compute; exact I).
Qed.

(** *** The iterations *)

Section IterationFacts.
Context (elib : EvalLib) (validate_subflow_args : val -> result SubflowArgs) (dsl_config : DSLConfig).
Context (args : list (string * val)) (d : list (string * val)) (ns : list string).
Hypothesis (Hd : NoDup (map fst d)) (Hns : NoDup ns) (Hplain : plain_names ns).

(** The arguments of an item: evaluated in the context patched with the item only. *)
Definition item_args (r : row) (a : SubflowArgs) : Prop :=
  exists ctx e, patched_context (VDict d) r = Ok ctx /\ _evaluate_subflow_args elib validate_subflow_args args ctx = Ok (e, a).

(** The state of the loop after the items with arguments [done_]. *)
Definition iterated (done_ : list SubflowArgs) (s : LoopState) : Prop :=
  reachable_context d ns (shared_context s) /\
  trigger_inputs_list s = map sa_trigger_inputs done_ /\
  configs_list s = map (resolve_config dsl_config) done_ /\
  first_config s = head (configs_list s) /\
  (all_configs_same s = true -> forall c f, c ∈ tail (configs_list s) -> first_config s = Some f -> config_eqb c f = true).

Lemma loop_iteration_spec done_ r s s' :
  iterated done_ s -> row_of ns r -> r <> [] -> loop_iteration elib validate_subflow_args args dsl_config r s = Ok s' ->
  exists a, item_args r a /\ iterated (done_ ++ [a]) s'.
Proof.
  intros (Hx & Ht & Hc & Hf & Hs) Hr Hne. unfold loop_iteration. intros H. apply rbind_Ok in H as (ctx & Hctx & H).
  apply rbind_Ok in H as ([e a] & Ha & [= <-]). exists a.
  split; [exists ctx, e; split; [|done]; by rewrite <- (iteration_isolated d ns Hns Hplain _ r Hx Hr Hne)|].
  split; [by eapply share_reachable|]. simpl. rewrite !map_app, Ht, Hc. split; [done|]. split; [done|].
  rewrite Hc in Hf, Hs. destruct done_ as [|a0 done_]; simpl in *.
  { rewrite Hf. split; [done|]. intros _ c f Hin. by apply elem_of_nil in Hin. }
  rewrite Hf in *. split; [done|]. intros Hsame c f Hin [= <-].
  destruct (all_configs_same s), (config_eqb (resolve_config dsl_config a) (resolve_config dsl_config a0)) eqn:Ee; try done.
  apply elem_of_app in Hin as [Hin| ->%list_elem_of_singleton]; [|done]. by apply (Hs eq_refl c).
Qed.

Lemma iterations_spec rows s : Forall (fun r => row_of ns r /\ r <> []) rows ->
  rfor (loop_iteration elib validate_subflow_args args dsl_config) rows (MkLoopState (VDict d) None true [] []) = Ok s ->
  exists done_, Forall2 item_args rows done_ /\ iterated done_ s.
Proof.
  intros Hrows Hs. revert Hrows.
  eapply (rfor_inv (fun xs s => Forall (fun r => row_of ns r /\ r <> []) xs -> exists done_, Forall2 item_args xs done_ /\ iterated done_ s));
    [..|exact Hs].
  - intros _. exists []. split; [constructor|]. split; [by left|]. split; [done|]. split; [done|]. split; [done|].
    intros _ c f Hin. by apply elem_of_nil in Hin.
  - intros xs r s1 s2 IH Hl [Hxs Hr]%Forall_app. destruct (IH Hxs) as (done_ & Hdone & Hi).
    apply Forall_cons in Hr as [[Hr Hne] _]. destruct (loop_iteration_spec _ _ _ _ Hi Hr Hne Hl) as (a & Ha & Hi').
    exists (done_ ++ [a]). split; [by apply Forall2_app; [|constructor]|done].
Qed.

(** What [get_config] returns of the collapsed configurations. *)
Lemma collapsed_config wf_id inputs done_ s i a : iterated done_ s -> done_ !! i = Some a ->
  exists c,
    get_config (MkPrepared wf_id dsl_config inputs
      (match all_configs_same s, first_config s with true, Some c => OneConfig c | _, _ => ManyConfigs (configs_list s) end))
      (Z.of_nat i) = Ok c /\
    (c = resolve_config dsl_config a \/ config_eqb (resolve_config dsl_config a) c = true).
Proof.
  intros (_ & Ht & Hc & Hf & Hsame) Ha.
  assert (configs_list s !! i = Some (resolve_config dsl_config a)) as Hci.
  { rewrite Hc. change (map (resolve_config dsl_config) done_) with (resolve_config dsl_config <$> done_). by rewrite list_lookup_fmap, Ha. }
  assert (get_config (MkPrepared wf_id dsl_config inputs (ManyConfigs (configs_list s))) (Z.of_nat i) = Ok (resolve_config dsl_config a)) as Hmany.
  { unfold get_config, py_index. simpl. apply lookup_lt_Some in Hci as Hlt.
    rewrite (proj2 (Z.leb_le 0 _)), (proj2 (Z.ltb_lt _ _)) by lia. simpl. by rewrite Nat2Z.id, Hci. }
  destruct (all_configs_same s) eqn:Es; [|by eauto]. destruct (first_config s) as [f|] eqn:Ef; [|by eauto].
  exists f. split; [done|]. destruct (configs_list s) as [|c0 l] eqn:El; [done|]. simpl in Hf. injection Hf as ->.
  destruct i as [|i]; [left; by injection Hci as ->|right]. apply (Hsame eq_refl); [|done]. simpl in *. by eapply list_elem_of_lookup_2.
Qed.
End IterationFacts.

(** ** Reading what was stored *)

Section Reads.
Context {bytes : Type} (lib : @StorageLib bytes) (scfg : StorageConfig).
Hypothesis (Hlib : lib_ok lib) (Hsize : 0 < COLLECTION_CHUNK_SIZE scfg).
(** The world in which everything is stored; no other content has the hash of a blob. *)
Context (w1 : @World bytes).
Hypothesis (Hfree : forall bk c, blobs w1 !! bk = Some c -> collision_free lib c).

Abbreviation reads := (reads lib).

Lemma reads_mono {A} w (m : M A) a : blobs w ⊆ blobs w1 -> reads w m a -> reads w1 m a.
Proof. intros Hsub [H1 H2]. split; [done|]. intros w' Hw'. apply H2. by etransitivity. Qed.

Lemma reads_ret {A} (a : A) : reads w1 (mret a) a.
Proof. split; [by intros w x w' [= -> _]|]. intros w Hw Hi. by exists w. Qed.

Lemma reads_bind {A C} (m : M A) (f : A -> M C) a c : reads w1 m a -> reads w1 (f a) c -> reads w1 (mbind m f) c.
Proof.
  intros [H1 H2] [H3 H4]. unfold mbind. split.
  - intros w x w'. destruct (m w) as [[y|e] w2] eqn:E; [|done]. apply H1 in E as ->. apply H3.
  - intros w Hw Hi. destruct (H2 w Hw Hi) as (w2 & -> & Hw2 & Hi2). destruct (H4 w2) as (w3 & -> & Hw3 & Hi3); [by rewrite Hw2|done|].
    exists w3. split; [done|]. split; [congruence|done].
Qed.

Lemma reads_mmap {A C} (f : A -> M C) l ys : Forall2 (fun x y => reads w1 (f x) y) l ys -> reads w1 (mmap f l) ys.
Proof.
  induction 1 as [|x y l ys Hx _ IH]; simpl; [apply reads_ret|].
  eapply reads_bind; [done|]. eapply reads_bind; [done|]. apply reads_ret.
Qed.

Lemma reads_error {A} (m : M A) a : reads w1 m a -> reads w1 (materialize_error m) a.
Proof.
  intros [H1 H2]. unfold materialize_error. split.
  - intros w x w'. destruct (m w) as [[y|e] w2] eqn:E; [|done]. intros [= <- _]. by eapply H1.
  - intros w Hw Hi. destruct (H2 w Hw Hi) as (w2 & -> & Hw2 & Hi2). by exists w2.
Qed.

(** With externalisation, [get_object_storage().retrieve] is one level of
    [retrieve_stored_object]. *)
Lemma reads_retrieve fuel s a : RESULT_EXTERNALIZATION_ENABLED scfg = true ->
  reads w1 (retrieve_stored_object lib (S fuel) s) a -> reads w1 (object_storage_retrieve lib scfg fuel s) a.
Proof.
  intros He H. unfold object_storage_retrieve. rewrite He.
  assert (exists w', retrieve_stored_object lib (S fuel) s (MkWorld (blobs w1) ∅) = (Ok a, w')) as (w' & Hw').
  { destruct H as [_ H]. destruct (H (MkWorld (blobs w1) ∅)) as (w' & Hw & _); [done| |by exists w'].
    intros h c Hc. simpl in Hc. by rewrite lookup_empty in Hc. }
  destruct s as [t x|t r|t r n c k v i]; simpl in H, Hw'; [exact H|..].
  - destruct (decide (backend r = "s3")) as [Hb|Hb]; [simpl; by rewrite decide_True|done].
  - destruct (decide (backend r = "s3")) as [Hb|Hb]; [exact H|done].
Qed.

Lemma stored_reads fuel k v w s w' : store lib scfg k v w = (Ok s, w') -> json_val v = true -> blobs w' ⊆ blobs w1 ->
  reads w1 (retrieve_stored_object lib fuel s) (PVal v).
Proof.
  intros Hst Hj Hsub. destruct (store_spec lib scfg _ _ _ _ _ Hst Hj) as (_ & _ & _ & Hs).
  apply (exact_reads lib w1 (fun B => blobs w1 ⊆ B) _ _ (fun B H => H)). intros B.
  apply (exact_retrieve_stored lib scfg Hlib fuel B _ s v k Hj).
  destruct Hs as [?|(c & Hc & Hd & ->)]; [by left|right]. exists c.
  pose proof (lookup_weaken _ _ _ _ Hc Hsub) as Hc1. split; [intros HB; by eapply lookup_weaken|]. split; [by eapply Hfree|done].
Qed.

Lemma collection_shape prefix items kind co bo w coll w' : store_collection lib scfg prefix items kind co bo w = (Ok coll, w') ->
  exists r cs, coll = CollectionObject (Some "list") r (Z.of_nat (length items)) cs kind 1 None.
Proof.
  unfold store_collection. destruct (_ && _); [done|]. unfold mbind.
  destruct (mmap _ _ _) as [[refs|e] w2]; [|done]. destruct (serialize_object _ _ _) as [[mb|e] w3]; [|done].
  simpl. intros [= <- _]. eauto.
Qed.

Lemma refs_shape prefix items w coll w' : _store_collection_as_refs lib scfg prefix items w = (Ok coll, w') ->
  exists r cs, coll = CollectionObject (Some "list") r (Z.of_nat (length items)) cs EKstored_object 1 None.
Proof.
  unfold _store_collection_as_refs. unfold mbind at 1. destruct (mmap _ _ w) as [[refs|e] w2] eqn:E; [|done].
  intros (r & cs & ->)%collection_shape. exists r, cs. do 2 f_equal.
  assert (forall (l : list (Z * val)) w refs w2, mmap (store_as_ref lib scfg prefix) l w = (Ok refs, w2) -> length refs = length l) as Hlen.
  { clear. intros l. induction l as [|x l IH]; intros w refs w2; simpl; [by intros [= <- _]|]. unfold mbind.
    destruct (store_as_ref _ _ _ _ _) as [[y|e] w3]; [|done]. destruct (mmap _ l w3) as [[ys|e] w4] eqn:E; [|done].
    intros [= <- _]. simpl. f_equal. by eapply IH. }
  rewrite (Hlen _ _ _ _ E), length_zip_with, length_seqZ. lia.
Qed.

(** ** What a context holds *)

(** [o] is the handle of the value [v]: inline, as [storage.store] returned it, or the
    collection of the items stored. *)
Inductive stored_value : stored -> val -> Prop :=
  | sv_inline t v : stored_value (InlineObject t (PVal v)) v
  | sv_store k v w o w' : store lib scfg k v w = (Ok o, w') -> json_val v = true -> blobs w' ⊆ blobs w1 -> stored_value o v
  | sv_items prefix items w o w' : store_items lib scfg prefix items w = (Ok o, w') -> forallb json_val items = true ->
      blobs w' ⊆ blobs w1 -> stored_value o (VList items).

(** A task result holds a value: that of its handle, or item [i] of its collection. *)
Inductive result_value (tr : TaskResult) : val -> Prop :=
  | rv_whole v : collection_index tr = None -> stored_value (tr_result tr) v -> result_value tr v
  | rv_item prefix items w w' i x : collection_index tr = Some i -> store_items lib scfg prefix items w = (Ok (tr_result tr), w') ->
      forallb json_val items = true -> blobs w' ⊆ blobs w1 -> 0 <= i -> items !! Z.to_nat i = Some x -> result_value tr x.

Lemma free_sub w : blobs w ⊆ blobs w1 -> forall bk c, blobs w !! bk = Some c -> collision_free lib c.
Proof. intros Hsub bk c Hc. eapply Hfree, lookup_weaken; done. Qed.

Lemma dump_values l : map dump_obj (map PVal l) = l.
Proof. rewrite map_map. apply map_id. Qed.

Lemma stored_value_reads fuel o v : (0 < fuel)%nat -> stored_value o v ->
  exists x, reads w1 (retrieve_stored_object lib fuel o) x /\ dump_obj x = v.
Proof.
  intros Hf. induction 1 as [t v|k v w o w' Hst Hj Hsub|prefix items w o w' Hst Hj Hsub].
  - exists (PVal v). split; [|done]. destruct fuel; apply reads_ret.
  - exists (PVal v). split; [by eapply stored_reads|done].
  - unfold store_items in Hst. destruct (RESULT_EXTERNALIZATION_ENABLED scfg).
    + exists (PList (map PVal items)). split; [|simpl; by rewrite dump_values].
      apply (reads_mono w'); [done|]. by apply (refs_roundtrip lib scfg Hlib prefix items w w' o fuel Hf Hst Hj Hsize (free_sub w' Hsub)).
    + injection Hst as <- <-. exists (PVal (VList items)). split; [|done]. destruct fuel; apply reads_ret.
Qed.

Lemma py_nth_values l i x : 0 <= i -> l !! Z.to_nat i = Some x -> py_nth (map PVal l) i = Ok (PVal x).
Proof.
  intros Hi Hx. apply lookup_lt_Some in Hx as Hlt. unfold py_nth, py_index. rewrite length_map.
  rewrite (proj2 (Z.leb_le 0 i)), (proj2 (Z.ltb_lt _ _)) by lia. simpl.
  change (map PVal l) with (PVal <$> l). by rewrite list_lookup_fmap, Hx.
Qed.

(** A handle that is not inline comes from externalised storage, and a collection
    points to no item. *)
Lemma stored_value_external o v : stored_value o v ->
  match o with
  | InlineObject _ _ => True
  | ExternalObject _ _ => RESULT_EXTERNALIZATION_ENABLED scfg = true
  | CollectionObject _ _ _ _ _ _ i => RESULT_EXTERNALIZATION_ENABLED scfg = true /\ i = None
  end.
Proof.
  intros [t v'|k v' w o' w' Hst Hj Hsub|prefix items w o' w' Hst Hj Hsub]; [done|..].
  - unfold store in Hst. destruct (RESULT_EXTERNALIZATION_ENABLED scfg); [|by injection Hst as <- <-].
    unfold s3_store, mbind in Hst. destruct (serialize_object _ _ _) as [[c|e] w2]; [|done].
    destruct (_ <=? _); [by injection Hst as <- <-|]. simpl in Hst. by injection Hst as <- <-.
  - unfold store_items in Hst. destruct (RESULT_EXTERNALIZATION_ENABLED scfg); [|by injection Hst as <- <-].
    by apply refs_shape in Hst as (r & cs & ->).
Qed.

Lemma result_value_reads fuel tr v : result_value tr v ->
  exists x, reads w1 (raw_result lib scfg fuel tr) x /\ dump_obj x = v.
Proof.
  intros [v' Hn Hv|prefix items w w' i x Hi Hst Hj Hsub H0 Hx].
  - unfold raw_result. rewrite Hn. destruct (stored_value_reads (S fuel) _ _ ltac:(lia) Hv) as (x & Hr & Hd).
    apply stored_value_external in Hv. destruct (tr_result tr) as [t data|t r|t r n c k sv ix]; [by exists x|..].
    + exists x. split; [by apply reads_retrieve|done].
    + destruct Hv as [He ->]. exists x. split; [|done]. apply (reads_retrieve fuel) in Hr; [|done].
      unfold object_storage_retrieve in Hr. rewrite He in Hr. exact Hr.
  - exists (PVal x). split; [|done]. unfold raw_result. rewrite Hi. unfold store_items in Hst.
    destruct (RESULT_EXTERNALIZATION_ENABLED scfg) eqn:He.
    + apply lookup_lt_Some in Hx as Hlt.
      assert (reads w1 (retrieve_stored_object lib (S fuel) (collection_at (tr_result tr) i)) (PVal x)) as Hr.
      { apply (reads_mono w'); [done|]. destruct (refs_roundtrip lib scfg Hlib prefix items w w' _ (S fuel) ltac:(lia) Hst Hj Hsize (free_sub w' Hsub)) as [_ Hr].
        apply Hr; unfold total; [lia|]. rewrite Z.mod_small by lia. done. }
      apply (reads_retrieve fuel) in Hr; [|done]. apply refs_shape in Hst as (r & cs & E). rewrite E in *. exact Hr.
    + injection Hst as <- <-. simpl. rewrite (py_nth_values _ _ _ H0 Hx). apply reads_ret.
Qed.

(** *** Materialising *)

Definition trigger_value (o : option stored) (v : option val) : Prop :=
  match o, v with Some o, Some v => stored_value o v | None, None => True | _, _ => False end.

Definition action_values (actions : list (string * TaskResult)) (vs : list val) : list (string * val) :=
  zip_with (fun kv v => (kv.1, materialized_result kv.2 v)) actions vs.

Lemma result_reads fuel tr v : result_value tr v ->
  reads w1 (_materialize_task_result lib scfg fuel tr) (materialized_result tr v).
Proof.
  intros (x & Hx & <-)%(result_value_reads fuel). unfold _materialize_task_result. eapply reads_bind; [exact Hx|apply reads_ret].
Qed.

Lemma context_reads fuel ctx vs tv : (0 < fuel)%nat ->
  Forall2 (fun kv v => result_value kv.2 v) (ACTIONS ctx) vs -> trigger_value (TRIGGER ctx) tv ->
  reads w1 (materialize_context lib scfg fuel ctx) (VDict (materialized_context ctx (action_values (ACTIONS ctx) vs) tv)).
Proof.
  intros Hf Hvs Htv. unfold materialize_context. eapply (reads_bind _ _ (action_values (ACTIONS ctx) vs, tv)); [|apply reads_ret].
  apply reads_error. eapply reads_bind.
  - apply reads_mmap. instantiate (1 := action_values (ACTIONS ctx) vs). unfold action_values.
    induction Hvs as [|[k tr] v l vs Hv _ IH]; simpl; constructor; [|done].
    eapply reads_bind; [by apply result_reads|apply reads_ret].
  - destruct (TRIGGER ctx) as [o|], tv as [v|]; simpl in Htv; try done.
    + destruct (stored_value_reads fuel o v Hf Htv) as (x & Hx & <-).
      eapply (reads_bind _ _ (Some (dump_obj x))); [|apply reads_ret]. eapply reads_bind; [exact Hx|apply reads_ret].
    + eapply (reads_bind _ _ None); apply reads_ret.
Qed.
End Reads.

(** ** The contexts, the scatters and the loops of a workflow *)

Section Properties.
Context {bytes : Type} (lib : @StorageLib bytes) (scfg : StorageConfig) (elib : EvalLib) (fuel : nat).
Hypothesis (Hlib : lib_ok lib) (Hsize : 0 < COLLECTION_CHUNK_SIZE scfg) (Hfuel : (0 < fuel)%nat).

(** C8: externalisation is transparent: a context whose results and trigger inputs were
    stored (inline, as blobs, or as items of stored collections, in any order and
    before any other stores) materialises to the values themselves under the same
    references; whatever happened to the blobs and the cache in the meantime, it never
    materialises to anything else, and it succeeds while they are intact. *)
Theorem materialize_exact (w1 : World) (ctx : ExecutionContext) (vs : list val) (tv : option val)
    (Hfree : forall bk c, blobs w1 !! bk = Some c -> collision_free lib c)
    (Hvs : Forall2 (fun kv v => result_value lib scfg w1 kv.2 v) (ACTIONS ctx) vs)
    (Htv : trigger_value lib scfg w1 (TRIGGER ctx) tv) :
  reads lib w1 (materialize_context lib scfg fuel ctx) (VDict (materialized_context ctx (action_values (ACTIONS ctx) vs) tv)).
Proof. by apply context_reads. Qed.

(** The items of a scatter reach its streams: the handle that the scatter returns
    counts the items of the evaluated collection, and the result given to stream [i],
    item [i] of the handle, materialises to that item. *)
Theorem scattered_items (collection : val) (operand : ExecutionContext) (k : string) (w w' : World) (o : stored)
    (H : _evaluate_scatter_input lib scfg elib fuel collection operand k w = (Ok o, w'))
    (Hfree : forall bk c, blobs w' !! bk = Some c -> collision_free lib c) :
  exists materialized x items,
    eval_templated_object elib materialized collection = Ok x /\ scatter_items x = Ok items /\
    get_collection_size o = Ok (Z.of_nat (length items)) /\
    (forallb json_val items = true -> forall i item name, items !! i = Some item ->
       let tr := from_collection_item o (Z.of_nat i) name in
       reads lib w' (_materialize_task_result lib scfg fuel tr) (materialized_result tr item)).
Proof.
  unfold _evaluate_scatter_input, mbind in H. destruct (materialize_context _ _ _ _ w) as [[m|e] w2]; [|done].
  unfold mlift in H. destruct (eval_templated_object elib m collection) as [x|e] eqn:Ex; [|done].
  destruct (scatter_items x) as [items|e] eqn:Ei; [|done]. exists m, x, items. split; [done|]. split; [done|]. split.
  - unfold store_items in H. destruct (RESULT_EXTERNALIZATION_ENABLED scfg).
    + by apply refs_shape in H as (r & cs & ->).
    + injection H as <- <-. simpl. by rewrite length_map.
  - intros Hj i item name Hi tr. apply (result_reads lib scfg Hlib Hsize w' Hfree).
    eapply (rv_item lib scfg w' tr k items w2 w' (Z.of_nat i)); [done|exact H|done|done|lia|]. by rewrite Nat2Z.id.
Qed.

(** *** Preparing a loop *)

Context (validate_subflow_args : val -> result SubflowArgs).
Context (resolve_workflow_alias : string -> option string).
Context (get_definition_by_workflow_id : string -> val -> option DSLDefinition).

Abbreviation prepare := (_prepare_subflow lib scfg elib fuel validate_subflow_args resolve_workflow_alias get_definition_by_workflow_id).

(** The rows of a loop over distinct plain names. *)
Definition loop_over (materialized : val) (for_each : val) (rows : list row) : Prop :=
  exists its, get_iterables_from_expression elib materialized for_each = Ok its /\ zip_iterators its = Ok rows /\
    (exists ns, map fst its = map (String ".") ns /\ NoDup ns /\ plain_names ns).

Lemma prepared_inputs items o k w w' wf_id c configs :
  store_items lib scfg k items w = (Ok o, w') -> forallb json_val items = true ->
  (forall bk c, blobs w' !! bk = Some c -> collision_free lib c) ->
  forall i x, items !! i = Some x -> exists h,
    get_trigger_input_at (MkPrepared wf_id c (Some o) configs) (Z.of_nat i) = Ok (Some h) /\
    reads lib w' (retrieve_stored_object lib fuel h) (PVal x).
Proof.
  intros Hst Hj Hfree i x Hx. apply lookup_lt_Some in Hx as Hlt. unfold store_items in Hst.
  destruct (RESULT_EXTERNALIZATION_ENABLED scfg).
  - destruct (refs_roundtrip lib scfg Hlib k items w w' o fuel Hfuel Hst Hj Hsize Hfree) as [_ Hr].
    apply refs_shape in Hst as (r & cs & ->). eexists. split; [done|]. apply Hr; unfold total; [lia|].
    rewrite Z.mod_small by lia. by rewrite Nat2Z.id.
  - injection Hst as <- <-. exists (inline (PVal x)). unfold get_trigger_input_at. simpl.
    rewrite (py_nth_values items (Z.of_nat i) x); [|lia|by rewrite Nat2Z.id]. split; [done|]. destruct fuel; apply reads_ret.
Qed.

(** C7: preparing a loop of child workflows: each item of the loop gets one child, whose
    trigger inputs, read back from storage, and whose configuration are those of the
    arguments evaluated in the context of that item alone, although the dict of loop
    variables is shared by the iterations and the configurations are collapsed to one
    when all are equal (up to Python's equality); a loop over too many items is refused. *)
Theorem prepared_loop (task : ActionStatement) (operand : ExecutionContext) (k : string) (w w' : World) (p : PreparedSubflowResult)
    (H : prepare task operand k w = (Ok p, w')) (Hloop : truthy (for_each task) = true)
    (Hnames : forall m its, get_iterables_from_expression elib m (for_each task) = Ok its ->
       exists ns, map fst its = map (String ".") ns /\ NoDup ns /\ plain_names ns)
    (Hfree : forall bk c, blobs w' !! bk = Some c -> collision_free lib c) :
  exists d rows dsl done_,
    loop_over (VDict d) (for_each task) rows /\ Z.of_nat (length rows) <= MAX_LOOP_ITERATIONS /\
    get_definition_by_workflow_id (p_wf_id p) (match evaluate elib (VDict d) (VDict (args task)) with Ok a => arg_or_none a "version" | Err _ => VNone end) = Some dsl /\
    count p = Ok (Z.of_nat (length rows)) /\
    Forall2 (item_args elib validate_subflow_args (args task) d) rows done_ /\
    forall i a, done_ !! i = Some a ->
      (exists c, get_config p (Z.of_nat i) = Ok c /\
         (c = resolve_config (d_config dsl) a \/ config_eqb (resolve_config (d_config dsl) a) c = true)) /\
      (forallb json_val (map sa_trigger_inputs done_) = true -> exists h,
         get_trigger_input_at p (Z.of_nat i) = Ok (Some h) /\
         reads lib w' (retrieve_stored_object lib fuel h) (PVal (sa_trigger_inputs a))).
Proof.
  unfold _prepare_subflow, materialize_context in H. rewrite Hloop in H. unfold mbind in H.
  destruct (materialize_error _ w) as [[[acts trig]|e] w2]; [|done]. unfold mret, mlift in H.
  set (d := materialized_context operand acts trig) in *. pose proof (materialized_keys operand acts trig) as Hd. fold d in Hd.
  destruct (_evaluate_subflow_args elib validate_subflow_args (args task) (VDict d)) as [[ea va]|e] eqn:Ea; [|done].
  destruct (workflow_id_of _ va) as [wf_id|e] eqn:Ew; [|done].
  destruct (get_definition_by_workflow_id wf_id _) as [dsl|] eqn:Ed; [|done]. simpl in H.
  destruct (_evaluate_loop_iterations _ _ task (VDict d) (d_config dsl)) as [[inputs configs]|e] eqn:Eit; [|done].
  destruct (store_items lib scfg _ inputs w2) as [[o|e] w3] eqn:Est; [|done]. injection H as <- ->.
  unfold _evaluate_loop_iterations in Eit. rewrite Hloop in Eit. simpl in Eit.
  apply rbind_Ok in Eit as (its & Hits & Eit). apply rbind_Ok in Eit as (rows & Hrows & Eit).
  destruct (MAX_LOOP_ITERATIONS <? _) eqn:Em; [done|]. apply rbind_Ok in Eit as (s & Hs & [= <- <-]).
  assert (get_iterables_from_expression elib (VDict d) (for_each task) = Ok its) as Hits'.
  { unfold as_user_error in Hits. destruct (get_iterables_from_expression _ _ _); [exact Hits|]. by destruct (decide _). }
  destruct (Hnames _ _ Hits') as (ns & Hns & Hnd & Hpl).
  destruct (iterations_spec elib validate_subflow_args (d_config dsl) (args task) d ns Hd Hnd Hpl rows s) as (done_ & Hdone & Hiter); [|exact Hs|].
  { apply Forall_forall. intros r Hr. by eapply zip_rows. }
  pose proof Hiter as (_ & Ht & _). pose proof (Forall2_length _ _ _ Hdone) as Hlen.
  exists d, rows, dsl, done_. split; [exists its; eauto 10|]. split; [by apply Z.ltb_ge in Em|]. split; [|split; [|split; [done|]]].
  - unfold _evaluate_subflow_args in Ea. unfold as_user_error in Ea. simpl.
    destruct (evaluate elib (VDict d) (VDict (args task))) as [a|e]; simpl in Ea; [|by destruct (decide _)].
    apply rbind_Ok in Ea as (va' & _ & [= -> _]). exact Ed.
  - unfold store_items in Est. unfold count. simpl. destruct (RESULT_EXTERNALIZATION_ENABLED scfg).
    + apply refs_shape in Est as (r & cs & ->). by rewrite Ht, length_map, Hlen.
    + injection Est as <- _. simpl. by rewrite length_map, Ht, length_map, Hlen.
  - intros i a Ha. split.
    + exact (collapsed_config (d_config dsl) d ns _ _ done_ s i a Hiter Ha).
    + rewrite <- Ht. intros Hj. apply (prepared_inputs (trigger_inputs_list s) o (k +:+ "/trigger_inputs") w2 w'); [done..|].
      rewrite Ht. change (map sa_trigger_inputs done_) with (sa_trigger_inputs <$> done_). by rewrite list_lookup_fmap, Ha.
Qed.
End Properties.

(** ** Concrete activities *)

Definition path_token (p : string) : tree := Token "PARTIAL_JSONPATH_EXPR" p.

(** A parser that knows four expressions, and a JSONPath that follows plain names. *)
Definition rows_tree : tree := Node "actions" [path_token ".rows.result"].
Definition loop_tree : tree := Node "iterator" [Node "local_vars_assignment" [path_token ".item"]; rows_tree].
Definition act_parse (s : string) : option tree :=
  if decide (s = "ACTIONS.rows.result") then Some rows_tree
  else if decide (s = "for var.item in ACTIONS.rows.result") then Some loop_tree
  else if decide (s = "var.item") then Some (Node "local_vars" [path_token ".item"])
  else if decide (s = "var.item + 1") then Some (Node "add_op" [Node "local_vars" [path_token ".item"]; Token "NUMERIC_LITERAL" "1"])
  else None.
Definition act_elib : EvalLib :=
  MkEvalLib act_parse
    (fun p => Ok (MkJsonpath (fun v => Ok (match get_path v (split_all "." p) with Some x => [x] | None => [] end)) false))
    (fun _ => None) (fun _ _ => false) (fun _ _ => raise TypeError "") (fun _ => raise TypeError "") (fun _ => raise TypeError "")
    (fun _ _ => raise TypeError "") (fun _ => raise TypeError "").

(** The arguments are taken as they are. *)
Definition act_validate (v : val) : result SubflowArgs :=
  match v with
  | VDict d => Ok (MkSubflowArgs (str_field d "workflow_id") None (str_field d "environment") None (default VNone (dget d "trigger_inputs")))
  | _ => raise ValidationError ""
  end.

Definition act_context (rows : val) : ExecutionContext :=
  MkContext [("rows", from_result (PVal rows))] (Some ex_refs_handle) None None None None.

Lemma materialize_exact_witness :
  reads ex_lib ex_refs.2 (materialize_context ex_lib ex_cfg 2 (act_context (VList [VInt 1; VInt 2])))
    (VDict (materialized_context (act_context (VList [VInt 1; VInt 2]))
              (action_values (ACTIONS (act_context (VList [VInt 1; VInt 2]))) [VList [VInt 1; VInt 2]]) (Some (VList [VStr "big"])))).
Proof.
  apply (materialize_exact ex_lib ex_cfg 2 ex_lib_ok).
  - done.
  - lia.
  - apply ex_free. vm_compute. reflexivity.
  - constructor; [|constructor]. apply rv_whole; [reflexivity|apply sv_inline].
  - apply (sv_items ex_lib ex_cfg ex_refs.2 "p" [VStr "big"] ex_world ex_refs_handle ex_refs.2); [by vm_compute|by vm_compute|done].
Defined.

Definition act_scatter : result stored * @World val :=
  _evaluate_scatter_input ex_lib ex_cfg act_elib 2 (VStr "${{ ACTIONS.rows.result }}") (MkContext [("rows", from_result (PVal (VList [VStr "big"])))] None None None None None) "p" ex_world.
Definition act_scattered : stored := match act_scatter.1 with Ok o => o | Err _ => inline PUnset end.

Lemma scattered_items_witness :
  exists materialized x items,
    eval_templated_object act_elib materialized (VStr "${{ ACTIONS.rows.result }}") = Ok x /\ scatter_items x = Ok items /\
    get_collection_size act_scattered = Ok (Z.of_nat (length items)) /\
    (forallb json_val items = true -> forall i item name, items !! i = Some item ->
       let tr := from_collection_item act_scattered (Z.of_nat i) name in
       reads ex_lib act_scatter.2 (_materialize_task_result ex_lib ex_cfg 2 tr) (materialized_result tr item)).
Proof.
  apply (scattered_items ex_lib ex_cfg act_elib 2 ex_lib_ok eq_refl ltac:(lia) (VStr "${{ ACTIONS.rows.result }}")
           (MkContext [("rows", from_result (PVal (VList [VStr "big"])))] None None None None None) "p" ex_world).
  - vm_compute. reflexivity.
  - apply ex_free. vm_compute. reflexivity.
Defined.

(** Loops, without externalisation. *)
Definition act_cfg : StorageConfig := MkStorageConfig 2 "bkt" false 0.
Definition act_loop (trigger_inputs : string) : ActionStatement :=
  MkAction "each" "" PlatformAction.CHILD_WORKFLOW_EXECUTE
    [("workflow_id", VStr "wf_4itKqkgCZrLhgYiq5L211X"); ("trigger_inputs", VStr trigger_inputs)] [] VNone None
    (VStr "${{ for var.item in ACTIONS.rows.result }}") default_retry_policy (S754_zero false) None JoinALL None false.
Definition act_definition : DSLDefinition := MkDefinition "child" (MkDSLConfig "default" (S754_zero false)) VNone VNone [].
Definition act_prepare (trigger_inputs : string) : result PreparedSubflowResult * @World val :=
  _prepare_subflow ex_lib act_cfg act_elib 2 act_validate (fun _ => None) (fun _ _ => Some act_definition)
    (act_loop trigger_inputs) (MkContext [("rows", from_result (PVal (VList [VInt 1; VInt 2])))] None None None None None) "k" ex_world.
Definition act_prepared : PreparedSubflowResult :=
  match (act_prepare "${{ var.item }}").1 with Ok p => p | Err _ => MkPrepared "" (d_config act_definition) None NoConfigs end.

Lemma act_iterators m its : get_iterables_from_expression act_elib m (VStr "${{ for var.item in ACTIONS.rows.result }}") = Ok its ->
  map fst its = [".item"].
Proof.
  unfold get_iterables_from_expression, eval_templated_object. simpl _eval_templated_obj_rec.
  replace (operator act_elib m "${{ for var.item in ACTIONS.rows.result }}") with (transform act_elib m loop_tree) by reflexivity.
  unfold loop_tree. cbn [transform]. rewrite decide_False by done. cbn [rmap].
  change (transform act_elib m (Node "local_vars_assignment" [path_token ".item"])) with (@Ok ev (EVal (VStr ".item"))).
  destruct (transform act_elib m rows_tree) as [y|e]; [|done]. simpl. destruct y as [c|l|it c]; simpl; try done.
  destruct c; simpl; try done; by intros [= <-].
Qed.

Lemma prepared_loop_witness :
  exists rows : list row, length rows = 2%nat /\ count act_prepared = Ok (Z.of_nat (length rows)).
Proof.
  destruct (prepared_loop ex_lib act_cfg act_elib 2 ex_lib_ok eq_refl ltac:(lia) act_validate (fun _ => None) (fun _ _ => Some act_definition)
    (act_loop "${{ var.item }}") (MkContext [("rows", from_result (PVal (VList [VInt 1; VInt 2])))] None None None None None) "k"
    ex_world (act_prepare "${{ var.item }}").2 act_prepared) as (d & rows & dsl & done_ & H1 & H2 & H3 & H4 & _).
  - vm_compute. reflexivity.
  - reflexivity.
  - intros m its H. exists ["item"]. split; [by apply (act_iterators m)|]. split; [apply NoDup_singleton|by constructor].
  - apply ex_free. vm_compute. reflexivity.
  - exists rows. split; [|exact H4]. assert (count act_prepared = Ok 2) as E by (vm_compute; reflexivity).
    rewrite E in H4. injection H4 as H4. lia.
Defined.

(** The arguments of a looped subflow are first evaluated without the loop variables, so
    an operation on [var.item] fails although it is defined on every item. *)
Example loop_arguments_without_variables :
  (act_prepare "${{ var.item + 1 }}").1 = Err (Exn ApplicationError "Error evaluating subflow arguments") /\
  exists ctx, patched_context (VDict []) [(".item", VInt 1)] = Ok ctx /\
    evaluate act_elib ctx (VStr "${{ var.item + 1 }}") = Ok (VInt 2).
Proof. split; [by vm_compute|]. exists (VDict [("var", VDict [("item", VInt 1)])]). split; by vm_compute. Qed.
