(* ===== verification/Executor.v ===== *)
(** The executor ([tracecat/executor/service.py], [registry_resolver.py]): an action is
    resolved in the registry lock, its secrets are fetched, its arguments evaluated, and it
    is handed to a backend; a template action runs its steps in order, each as an action.
    Calls to the database, the backends and other services are events. *)

From ITree Require Import Core.ITreeDefinition.
From S2P Require Import Prelude PyStr Base62 PyVal PyOps Expr Eval Authz Scopes Coro DslTypes Storage Interact Masks Identifiers WfErrors WfEvents WfChild WfTask Activities.

(** ** Data *)

(** [ExecutorActionErrorInfo], without the frame of the error. *)
Record ErrInfo := MkErrInfo {
  ei_action_name : string; ei_type : string; ei_message : string;
  ei_loop_iteration : option Z; ei_loop_vars : option val }.

(** The exceptions: [ExecutionError], [LoopExecutionError], [ScopeDeniedError] with the
    missing scopes, any other subclass of [Exception] by its name and message, and
    [asyncio.CancelledError]. *)
Inductive xexc :=
  | XExecution (info : ErrInfo)
  | XLoop (loop_errors : list ErrInfo)
  | XScopeDenied (missing : gset string)
  | XOther (cls msg : string)
  | XCancelled.

Definition exc_type (x : xexc) : string :=
  match x with
  | XExecution _ => "ExecutionError" | XLoop _ => "LoopExecutionError" | XScopeDenied _ => "ScopeDeniedError"
  | XOther cls _ => cls | XCancelled => "CancelledError"
  end.

(** [str(e)], where it is used. *)
Definition exc_str (x : xexc) : string := match x with XOther _ msg => msg | _ => "" end.

(** [RegistryLock], without the fingerprints. *)
Record RegistryLock := MkLock { lock_origins : list (string * string); lock_actions : list (string * string) }.

Record ActionStep := MkStep { step_ref : string; step_action : string; step_args : list (string * val) }.

(** [TemplateActionDefinition]; declared secrets are opaque. *)
Record TemplateActionDefinition := MkTemplate {
  td_action : string; td_secrets : list val; td_expects : val; td_steps : list ActionStep; td_returns : val }.

(** A validated implementation. *)
Inductive RegistryActionImpl := UdfImpl (module name : string) | TemplateImpl (definition : TemplateActionDefinition).

Record ManifestAction := MkManifestAction { ma_secrets : list val; ma_implementation : RegistryActionImpl }.

(** [RegistryVersionManifest]. *)
Abbreviation Manifest := (list (string * ManifestAction)).

Record ActionImplementation := MkImplementation { ai_action_name : string; ai_impl : RegistryActionImpl; ai_origin : string }.

Record RunContext := MkRunContext { rn_wf_id : string; rn_wf_run_id : string; rn_environment : string }.

Record ResolvedContext := MkResolved {
  rc_secrets : list (string * val); rc_variables : list (string * val); rc_action_impl : ActionImplementation;
  rc_evaluated_args : val; rc_workspace_id : string; rc_workflow_id : string; rc_run_id : string;
  rc_executor_token : string; rc_logical_time : val; rc_env : list (string * val) }.

(** What [RunActionInput] carries besides the execution context. *)
Record RunActionInput := MkInput {
  in_task : ActionStatement; in_run_context : RunContext; in_interaction_context : val; in_registry_lock : RegistryLock }.

(** ** The world of the executor

    An answer is a value or the exception raised at the [await]. *)
Inductive execE : Type -> Type :=
  | HasCustomRegistryEntitlement : execE (bool + xexc)
  | GetManifestEntry (origin version : string) : execE (Manifest + xexc)
  | GetActionSecrets (secret_exprs : gset string) (action_secrets : list val) : execE (list (string * val) + xexc)
  | SearchVariables (names : gset string) (environment : string) : execE (list (string * val) + xexc)
      (** the names and values of the variables found *)
  | PreprocessAwsSecrets (secrets : list (string * val)) : execE (list (string * val) + xexc)
      (** [AwsAssumeRoleSecretPreprocessor.preprocess] *)
  | MintExecutorToken : execE (string + xexc)
  | BackendExecute (resolved_context : ResolvedContext) : execE ((val + ErrInfo) + xexc)
  | ExecContext : execE (list (string * val)).
      (** the execution context of the input, which other iterations of a loop may share *)

Abbreviation exec := (program execE xexc).

#[local] Open Scope wf_scope.

Definition of_exn (e : exn) : xexc := XOther (cls_name (exn_cls e)) (exn_msg e).
Definition try_ {A} (r : result A) : exec A := match r with Ok a => returns a | Err e => throws (of_exn e) end.
Definition fails {A} (cls msg : string) : exec A := throws (XOther cls msg).

Definition DEFAULT_REGISTRY_ORIGIN : string := "tracecat_registry".

(** ** The registry ([registry_resolver.py]) *)

Definition _build_impl_index (manifest : Manifest) (origin : string) : list (string * ActionImplementation) :=
  map (fun kv => (kv.1, MkImplementation kv.1 (ma_implementation kv.2) origin)) manifest.

Definition custom_origins (lock : RegistryLock) : list string :=
  List.filter (fun o => negb (bool_decide (o = DEFAULT_REGISTRY_ORIGIN))) (map fst (lock_origins lock)).

Definition _require_custom_registry_entitlement_if_needed (lock : RegistryLock) : exec unit :=
  match custom_origins lock with
  | [] => returns tt
  | _ =>
      let~ entitled := call HasCustomRegistryEntitlement in
      if (entitled : bool) then returns tt else fails "EntitlementRequired" "Feature 'custom_registry' requires an upgraded plan."
  end.

(** The manifests are fetched concurrently; which error is raised when several fail is
    up to the environment. *)
Fixpoint fetch_manifests (origins : list (string * string)) : exec unit :=
  match origins with
  | [] => returns tt
  | (origin, version) :: rest => do~ call (GetManifestEntry origin version) ;; fetch_manifests rest
  end.

Definition prefetch_lock (lock : RegistryLock) : exec unit :=
  do~ _require_custom_registry_entitlement_if_needed lock ;;
  fetch_manifests (lock_origins lock).

Definition resolve_action (action_name : string) (lock : RegistryLock) : exec ActionImplementation :=
  match dget (lock_actions lock) action_name with
  | None => fails "RegistryError" "Action not bound in registry_lock"
  | Some origin =>
      match dget (lock_origins lock) origin with
      | None => fails "RegistryError" "Origin not found in registry_lock"
      | Some version =>
          let~ manifest := call (GetManifestEntry origin version) in
          match dget (_build_impl_index manifest origin) action_name with
          | None => fails "RegistryError" "Action not found in manifest"
          | Some impl => returns impl
          end
      end
  end.

(** [secrets.update(new)] of a set. *)
Definition add_all (secrets new : list val) : list val :=
  secrets ++ List.filter (fun s => negb (bool_decide (s ∈ secrets))) new.

(** [RegistryError] and its subclasses. *)
Definition registry_errors : list string :=
  ["RegistryError"; "BuiltinRegistryHasNoSelectionError"; "RegistryActionError"; "RegistryValidationError"; "RegistryNotFound";
   "RegistryDependencyConflictError"; "RegistrySyncError"; "PlatformRegistrySyncError"].

(** A step whose action is not found is passed over.  The recursion of the interpreter is
    limited; templates that contain each other exceed the limit. *)
Fixpoint _collect_secrets_recursive (limit : nat) (a : ManifestAction) (lock : RegistryLock) (secrets : list val)
    {struct limit} : exec (list val) :=
  match limit with
  | O => fails "RecursionError" "maximum recursion depth exceeded"
  | S limit' =>
      match ma_implementation a with
      | UdfImpl _ _ => returns (add_all secrets (ma_secrets a))
      | TemplateImpl d =>
          (fix steps (l : list ActionStep) (secrets : list val) : exec (list val) :=
             match l with
             | [] => returns secrets
             | step :: l' =>
                 match dget (lock_actions lock) (step_action step) with
                 | None => steps l' secrets
                 | Some origin =>
                     match dget (lock_origins lock) origin with
                     | None => steps l' secrets
                     | Some version =>
                         let~ manifest :=
                           try_except (let~ m := call (GetManifestEntry origin version) in returns (Some m))
                             (fun e => if decide (exc_type e ∈ registry_errors) then returns None else throws e) in
                         match manifest ≫= (fun m => dget m (step_action step)) with
                         | None => steps l' secrets
                         | Some a' => let~ secrets' := _collect_secrets_recursive limit' a' lock secrets in steps l' secrets'
                         end
                     end
                 end
             end) (td_steps d) (add_all secrets (td_secrets d))
      end
  end.

Definition collect_action_secrets_from_manifest (limit : nat) (action_name : string) (lock : RegistryLock) : exec (list val) :=
  match dget (lock_actions lock) action_name with
  | None => fails "RegistryError" "Action not bound in registry_lock"
  | Some origin =>
      match dget (lock_origins lock) origin with
      | None => fails "RegistryError" "Origin not found in registry_lock"
      | Some version =>
          let~ manifest := call (GetManifestEntry origin version) in
          match dget manifest action_name with
          | None => fails "RegistryError" "Action not found in manifest"
          | Some a => _collect_secrets_recursive limit a lock []
          end
      end
  end.

(** ** Secrets and variables ([secrets_manager.py], [secret_preprocessors.py], [expressions/core.py]) *)

(** [CollectedExprs]. *)
Record CollectedExprs := MkCollected { ce_secrets : gset string; ce_variables : gset string }.

(** The callbacks of [ExprPathCollector]. *)
Definition collect_node (data : string) (children : list tree) (acc : CollectedExprs) : result CollectedExprs :=
  let token := match children with
               | Token _ value :: _ => Ok (lstrip "." value)
               | (Node _ _ | Absent) :: _ => raise ValueError "Expected a string token"
               | [] => raise IndexError "list index out of range"
               end in
  if decide (data = "secrets") then
    let! jsonpath := token in Ok (MkCollected ({[ jsonpath ]} ∪ ce_secrets acc) (ce_variables acc))
  else if decide (data = "vars") then
    let! jsonpath := token in
    let var_name := match split_first "." jsonpath with Some (v, _) => v | None => jsonpath end in
    Ok (MkCollected (ce_secrets acc) ({[ var_name ]} ∪ ce_variables acc))
  else Ok acc.

Fixpoint collect_visit (t : tree) (acc : CollectedExprs) : result CollectedExprs :=
  match t with
  | Token _ _ | Absent => Ok acc
  | Node data children => let! acc' := rfor collect_visit children acc in collect_node data children acc'
  end.

Definition collect_one (parse : string -> option tree) (expr : string) (acc : CollectedExprs) : result CollectedExprs :=
  match parse expr with
  | None => raise TracecatExpressionError "Error parsing expression"
  | Some t =>
      match collect_visit t acc with
      | Ok acc' => Ok acc'
      | Err _ => raise TracecatExpressionError "Error extracting components from expression"
      end
  end.

Definition collect_expressions (parse : string -> option tree) (templated_obj : val) : result CollectedExprs :=
  rfor (collect_one parse) (traverse_expressions templated_obj) (MkCollected ∅ ∅).

(** [TracecatAuthorizationError] and its subclasses. *)
Definition authorization_errors : list string := ["TracecatAuthorizationError"; "ScopeDeniedError"; "TracecatRLSViolationError"].

Section Secrets.
(** [str] of the values a secret may hold. *)
Context (str : val -> result string).

Definition flatten_key (flattened : list (string * val)) (key : string) (value : val) : result (list (string * val)) :=
  match dget flattened key with
  | Some _ => raise ValueError "Key is duplicated"
  | None => Ok (dset flattened key value)
  end.

Definition flatten_secret (secret : string * val) (flattened : list (string * val)) : result (list (string * val)) :=
  match secret.2 with
  | VDict d => rfor (fun kv acc => flatten_key acc kv.1 kv.2) d flattened
  | v =>
      match dget flattened secret.1 with
      | Some _ => raise ValueError "Key is duplicated in flattened secrets"
      | None => match v with
                | VNone => Ok flattened
                | _ => let! s := str v in Ok (dset flattened secret.1 (VStr s))
                end
      end
  end.

Definition flatten_secrets (secrets : list (string * val)) : result (list (string * val)) := rfor flatten_secret secrets [].

(** The values of one source that are masked; a set. *)
Definition mask_values_of (secret_source : list (string * val)) : result (list string) :=
  let! ss := rmap (fun kv => match kv.2 with VNone => Ok None | v => let! s := str v in Ok (Some s) end)
               (traverse_leaves (VDict secret_source) "") in
  Ok (List.filter (fun s => (1 <? str_len s)%nat) (omap id ss)).

Definition _collect_mask_values (secret_sources : list (list (string * val))) : result (list string) :=
  let! ms := rmap mask_values_of secret_sources in Ok (concat ms).

Definition has_key (d : list (string * val)) (k : string) : bool := match dget d k with Some _ => true | None => false end.

(** [AwsAssumeRoleSecretPreprocessor.matches]. *)
Definition aws_matches (secrets : list (string * val)) : bool := has_key secrets "aws" || has_key secrets "amazon_s3".

(** The environment and the masks. *)
Definition project_secret_env (secrets : list (string * val)) : exec (list (string * val) * list string) :=
  let~ (projected, sources) :=
    (if aws_matches secrets then
       let~ projected := call (PreprocessAwsSecrets secrets) in returns (projected, [secrets; projected])
     else returns (secrets, [secrets])) in
  let~ env := try_ (flatten_secrets projected) in
  let~ masks := try_ (_collect_mask_values sources) in
  returns (env, masks).
End Secrets.

(** ** Actions ([service.py]) *)

(** [{**d, k: v}] of a copied context. *)
Abbreviation with_entry := dset.

(** [context.get(k) or {}] for a dict. *)
Definition get_dict (v : option val) : list (string * val) := match v with Some (VDict d) => d | _ => [] end.

Section Service.
(** The expression library, given the logical time and the interaction of the context. *)
Context (elib : val -> val -> EvalLib).
Context (str : val -> result string) (fromisoformat : string -> result val).
(** [create_expectation_model(expects).model_validate(args).model_dump(mode="json")]. *)
Context (validate_expects : val -> val -> result val).
(** [TRACECAT__UNSAFE_DISABLE_SM_MASKING] and the recursion limit of the interpreter. *)
Context (disable_masking : bool) (limit : nat).

Section Action.
Context (role : Role) (input : RunActionInput).

Abbreviation lock := (in_registry_lock input).
Abbreviation task := (in_task input).

Definition get_workspace_variables (variable_exprs : gset string) (environment : string) : exec (list (string * val)) :=
  try_except (call (SearchVariables variable_exprs environment))
    (fun e => if decide (exc_type e ∈ authorization_errors) then returns [] else throws e).

(** [logical_time] of the context, parsed if it is a string. *)
Definition context_logical_time (context : list (string * val)) : result val :=
  match dget (get_dict (dget (get_dict (dget context "ENV")) "workflow")) "logical_time" with
  | Some (VStr s) => fromisoformat s
  | Some v => Ok v
  | None => Ok VNone
  end.

Definition mint_token : exec string := call MintExecutorToken.

(** The resolved context and the values to mask. *)
Definition prepare_resolved_context : exec (ResolvedContext * option (list string)) :=
  let action_name := action task in
  let~ action_impl := resolve_action action_name lock in
  let~ action_secrets := collect_action_secrets_from_manifest limit action_name lock in
  let~ collected := try_ (collect_expressions (el_parse (elib VNone VNone)) (VDict (args task))) in
  let~ secrets := call (GetActionSecrets (ce_secrets collected) action_secrets) in
  let~ workspace_variables := get_workspace_variables (ce_variables collected) (rn_environment (in_run_context input)) in
  let~ exec_context := query ExecContext in
  let context := with_entry (with_entry exec_context "SECRETS" (VDict secrets)) "VARS" (VDict workspace_variables) in
  let~ logical_time := try_ (context_logical_time context) in
  let~ evaluated_args := try_ (evaluate (elib logical_time (in_interaction_context input)) (VDict context) (VDict (args task))) in
  match workspace_id role with
  | None => fails "ValueError" "workspace_id is required for action execution"
  | Some ws =>
      let~ (env, masks) := project_secret_env str secrets in
      let~ executor_token := mint_token in
      returns
        (MkResolved secrets workspace_variables action_impl evaluated_args ws (rn_wf_id (in_run_context input))
           (rn_wf_run_id (in_run_context input)) executor_token logical_time env,
         if disable_masking then None else Some masks)
  end.

(** *** Templates *)

Definition _prepare_step_context (step_action : string) (evaluated_args : val) (parent : ResolvedContext) : exec ResolvedContext :=
  match organization_id role with
  | None => fails "ValueError" "organization_id is required for template step execution"
  | Some _ =>
      let~ action_impl := resolve_action step_action lock in
      match workspace_id role with
      | None => fails "ValueError" "workspace_id is required for template step execution"
      | Some _ =>
          let~ executor_token := mint_token in
          returns (MkResolved (rc_secrets parent) (rc_variables parent) action_impl evaluated_args (rc_workspace_id parent)
                     (rc_workflow_id parent) (rc_run_id parent) executor_token (rc_logical_time parent) (rc_env parent))
      end
  end.

Definition error_info (e : xexc) (action_name : string) : ErrInfo :=
  MkErrInfo action_name (exc_type e) (exc_str e) None None.

(** The context of the expressions of a template. *)
Definition template_context (resolved : ResolvedContext) (env : val) (inputs : val) (steps : list (string * val)) : val :=
  VDict [("SECRETS", VDict (rc_secrets resolved)); ("ENV", env); ("VARS", VDict (rc_variables resolved));
         ("inputs", inputs); ("steps", VDict steps)].

(** Expressions of a template are evaluated when the interaction has been reset. *)
Definition evaluate_in (resolved : ResolvedContext) (operand obj : val) : result val :=
  evaluate (elib (rc_logical_time resolved) VNone) operand obj.

Definition validate_inputs (d : TemplateActionDefinition) (evaluated_args : val) : exec val :=
  if truthy (td_expects d) then
    match validate_expects (td_expects d) evaluated_args with
    | Ok v => returns v
    | Err _ => fails "RegistryValidationError" "Validation error for template action"
    end
  else returns evaluated_args.

(** [except ExecutionError: raise; except Exception as e: raise ExecutionError(...) from e]. *)
Definition as_execution_error {A} (action_name : string) (m : exec A) : exec A :=
  try_except m (fun e =>
    match e with
    | XExecution _ | XCancelled => throws e
    | _ => throws (XExecution (error_info e action_name))
    end).

Section Template.
Context (invoke : ResolvedContext -> exec val).

Fixpoint run_steps (resolved : ResolvedContext) (env inputs : val) (l : list ActionStep) (steps : list (string * val))
    : exec (list (string * val)) :=
  match l with
  | [] => returns steps
  | step :: l' =>
      let~ evaled_args := try_ (evaluate_in resolved (template_context resolved env inputs steps) (VDict (step_args step))) in
      let~ step_resolved := _prepare_step_context (step_action step) evaled_args resolved in
      let~ step_result := as_execution_error (step_action step) (invoke step_resolved) in
      run_steps resolved env inputs l' (dset steps (step_ref step) (materialized_result (from_result (PVal step_result)) step_result))
  end.

Definition _execute_template_action (d : TemplateActionDefinition) (resolved : ResolvedContext) : exec val :=
  let~ inputs := validate_inputs d (rc_evaluated_args resolved) in
  let~ exec_context := query ExecContext in
  let env := default (VDict []) (dget exec_context "ENV") in
  let~ steps := run_steps resolved env inputs (td_steps d) [] in
  try_ (evaluate_in resolved (template_context resolved env inputs steps) (td_returns d)).
End Template.

(** The nesting of templates is limited by the interpreter. *)
Fixpoint _invoke_step (depth : nat) (resolved : ResolvedContext) : exec val :=
  match depth with
  | O => fails "RecursionError" "maximum recursion depth exceeded"
  | S depth' =>
      match ai_impl (rc_action_impl resolved) with
      | TemplateImpl d => _execute_template_action (_invoke_step depth') d resolved
      | UdfImpl _ _ =>
          let~ result := call (BackendExecute resolved) in
          match result with
          | inl v => returns v
          | inr error => throws (XExecution error)
          end
      end
  end.

(** *** One invocation *)

Definition in_iteration (iteration : option Z) (loop_vars : option val) (info : ErrInfo) : ErrInfo :=
  match iteration with
  | Some _ => MkErrInfo (ei_action_name info) (ei_type info) (ei_message info) iteration loop_vars
  | None => info
  end.

Definition invoke_once (iteration : option Z) : exec val :=
  match organization_id role with
  | None => fails "ValueError" "organization_id is required for action dispatch"
  | Some _ =>
      let~ (action_result, mask_values) :=
        try_except
          (do~ prefetch_lock lock ;;
           let~ (resolved_context, mask_values) := prepare_resolved_context in
           let~ action_result := _invoke_step limit resolved_context in
           returns (action_result, mask_values))
          (fun e =>
             let~ exec_context := query ExecContext in
             let stamp := in_iteration iteration (dget exec_context "var") in
             match e with
             | XExecution info => throws (XExecution (stamp info))
             | XCancelled => throws XCancelled
             | _ => throws (XExecution (stamp (error_info e (action task))))
             end) in
      returns (match mask_values with
               | Some ((_ :: _) as masks) => apply_masks_object action_result masks
               | _ => action_result
               end)
  end.
End Action.

(** *** Dispatching

    A worker of the pool takes the next items, patches them into a copy of the context
    and invokes the action; between two awaits it runs alone. *)

Inductive worker :=
  | Ready
  | Running (i : Z) (new_context : list (string * val)) (t : itree execE (val + xexc))
  | Exited (r : option xexc).

Record Loop := MkLoop {
  source : result (list row);               (** what the shared iterator still yields, or raises *)
  iteration_count : Z;
  base_context : list (string * val);
  results : gmap Z val;
  loop_errors : gmap Z ErrInfo }.

Section Loop.
Context (role : Role) (input : RunActionInput).

(** The next items; [i] of [enumerate] is the number of items taken before.  The copy of
    the context is shallow, so the patch reaches a dict of the base context. *)
Definition pull (s : Loop) : Loop * worker :=
  match source s with
  | Err e => (MkLoop (Ok []) (iteration_count s) (base_context s) (results s) (loop_errors s), Exited (Some (of_exn e)))
  | Ok [] => (s, Exited None)
  | Ok (items :: rest) =>
      let i := iteration_count s in
      match patched_context (VDict (base_context s)) items with
      | Ok ctx =>
          (MkLoop (Ok rest) (i + 1) (get_dict (Some (share (VDict (base_context s)) ctx))) (results s) (loop_errors s),
           Running i (get_dict (Some ctx)) (invoke_once role input (Some i)))
      | Err e => (MkLoop (Ok rest) (i + 1) (base_context s) (results s) (loop_errors s), Exited (Some (of_exn e)))
      end
  end.

(** The end of an invocation, and the next one of the same worker. *)
Definition finish (s : Loop) (i : Z) (r : val + xexc) : Loop * worker :=
  match r with
  | inl v => pull (MkLoop (source s) (iteration_count s) (base_context s) (<[i := v]> (results s)) (loop_errors s))
  | inr (XExecution info) =>
      pull (MkLoop (source s) (iteration_count s) (base_context s) (results s) (<[i := info]> (loop_errors s)))
  | inr e => (s, Exited (Some e))
  end.

(** What a worker sees of its context: the dicts it shares with the base context may have
    been patched by others. *)
Definition view (base own : list (string * val)) : list (string * val) :=
  map (fun kv => match dget base kv.1 with Some (VDict d) => (kv.1, VDict d) | _ => kv end) own.

(** The answers of the environment: a context is read as it is. *)
Definition answers (base own : list (string * val)) {T} (e : execE T) : T -> Prop :=
  match e in execE T return T -> Prop with
  | ExecContext => fun a => a = view base own
  | _ => fun _ => True
  end.

Definition failed (w : worker) : bool := match w with Exited (Some XCancelled) => false | Exited (Some _) => true | _ => false end.

Abbreviation LoopSys := (Loop * list worker)%type.

(** One step of one worker.  When a worker fails the group cancels the others: one that
    has not started ends at once, and a suspended one may be answered by a
    [CancelledError]. *)
Inductive loop_step : LoopSys -> LoopSys -> Prop :=
  | step_start s ws k : ws !! k = Some Ready -> loop_step (s, ws) ((pull s).1, <[k := (pull s).2]> ws)
  | step_cancel s ws k : ws !! k = Some Ready -> existsb failed ws = true ->
      loop_step (s, ws) (s, <[k := Exited (Some XCancelled)]> ws)
  | step_tau s ws k i own t t' : ws !! k = Some (Running i own t) -> observe t = TauF t' ->
      loop_step (s, ws) (s, <[k := Running i own t']> ws)
  | step_answer s ws k i own t T (e : execE T) a u : ws !! k = Some (Running i own t) -> after t (Act e a) u ->
      answers (base_context s) own e a -> loop_step (s, ws) (s, <[k := Running i own u]> ws)
  | step_finish s ws k i own t r : ws !! k = Some (Running i own t) -> observe t = RetF r ->
      loop_step (s, ws) ((finish s i r).1, <[k := (finish s i r).2]> ws).

Definition exited (w : worker) : bool := match w with Exited _ => true | _ => false end.

(** [sorted(loop_errors)]. *)
Definition sorted_errors (s : Loop) : list ErrInfo :=
  omap (fun i => loop_errors s !! i) (merge_sort Z.le (map fst (map_to_list (loop_errors s)))).

(** What the dispatch returns or raises when the workers have ended. *)
Definition loop_outcome (y : LoopSys) : val + xexc :=
  let '(s, ws) := y in
  if existsb failed ws then inr (XOther "TracecatException" "Unexpected error(s) in loop")
  else if existsb (fun w => match w with Exited (Some _) => true | _ => false end) ws then inr XCancelled
  else if decide (loop_errors s = ∅) then
    match mapM (fun i => results s !! i) (seqZ 0 (iteration_count s)) with
    | Some l => inl (VList l)
    | None => inr (XOther "KeyError" "")
    end
  else inr (XLoop (sorted_errors s)).
End Loop.

(** [dispatch_action] raises at once, makes one invocation, or runs a loop. *)
Inductive dispatched := Raised (e : xexc) | Single (p : exec val) | Looping (y : Loop * list worker).

Definition dispatch_action (ctx_role : option Role) (input : RunActionInput) (exec_context : list (string * val)) (max_concurrency : Z) : dispatched :=
  match ctx_role with
  | None => Raised (XOther "ValueError" "Role is required to dispatch actions")
  | Some role =>
      match require_action_scope (Some (scopes role)) (action (in_task input)) with
      | Denied _ missing => Raised (XScopeDenied missing)
      | Allowed =>
          if negb (truthy (for_each (in_task input))) then Single (invoke_once role input None)
          else
            match get_iterables_from_expression (elib VNone VNone) (VDict exec_context) (for_each (in_task input)) with
            | Err e => Raised (of_exn e)
            | Ok iterators =>
                Looping (MkLoop (zip_iterators iterators) 0 exec_context ∅ ∅, replicate (Z.to_nat (Z.max 1 max_concurrency)) Ready)
            end
      end
  end.
End Service.

(** ** The activity ([executor/activities.py]) *)

(** The outcome of a failed activity: an [ApplicationError] with its type and whether it
    may be retried; the error of an [ApplicationError] is raised anew with its own type, and
    a cancellation passes through. *)
Inductive ActivityFailure := ApplicationFailure (type : string) (non_retryable : bool) | RaisedAnew (msg : string) | ActivityCancelled.

Definition activity_failure (e : xexc) : ActivityFailure :=
  match e with
  | XScopeDenied _ => ApplicationFailure "ScopeDeniedError" true
  | XExecution _ => ApplicationFailure "ExecutionError" false
  | XLoop _ => ApplicationFailure "LoopExecutionError" false
  | XOther cls msg => if decide (cls = "ApplicationError") then RaisedAnew msg else ApplicationFailure cls true
  | XCancelled => ActivityCancelled
  end.
