(* ===== verification/ExecutorFacts.v ===== *)
(** A loop of the executor gives what its items give one by one, whatever its workers do
    in between, and it ends; an invocation masks the secrets it used, runs what the
    registry lock pins, and only fails with an [ExecutionError]. *)

From ITree Require Import Core.ITreeDefinition.
From S2P Require Import Prelude PyStr Base62 Identifiers PyVal PyOps Expr Eval Authz Scopes Coro DslTypes Storage StorageFacts Interact Masks WfErrors WfEvents WfChild WfTask Activities ActivitiesFacts Executor.

(** ** Invocations end *)

(** The monitor that allows everything. *)
Definition free_mon (_ : unit) (_ : interaction execE) : verdict unit := Next tt.

(** Every run of [p] ends. *)
Definition ends {A} (p : exec A) : Prop := total free_mon (fun _ _ => True) tt p.

Lemma ends_use {A} (Q : A + xexc -> unit -> Prop) (p : exec A) : ends p -> (forall r, Q r tt) -> total free_mon Q tt p.
Proof. intros Hp HQ. eapply total_weaken; [|exact Hp]. intros r [] _. apply HQ. Qed.

Lemma ends_returns {A} (a : A) : ends (returns a).
Proof. unfold ends. by wf_step. Qed.
Lemma ends_throws {A} x : ends (throws x : exec A).
Proof. unfold ends. by wf_step. Qed.
Lemma ends_call {A} (e : execE (A + xexc)%type) : ends (call e : exec A).
Proof. unfold ends. by wf_step. Qed.
Lemma ends_query {A} (e : execE A) : ends (query e).
Proof. unfold ends. by wf_step. Qed.
Lemma ends_seq {A B} (p : exec A) (f : A -> exec B) : ends p -> (forall a, ends (f a)) -> ends (seq p f).
Proof. intros Hp Hf. unfold ends. wf_step. apply (ends_use _ p Hp). intros [a|x]; [apply Hf|done]. Qed.
Lemma ends_try {A} (p : exec A) h : ends p -> (forall x, ends (h x)) -> ends (try_except p h).
Proof. intros Hp Hh. unfold ends. wf_step. apply (ends_use _ p Hp). intros [a|x]; [done|apply Hh]. Qed.

Create HintDb ends discriminated.
#[export] Hint Resolve ends_returns ends_throws ends_call ends_query : ends.

(** Follows the structure of a program. *)
Ltac ends_auto :=
  repeat lazymatch goal with
  | |- ends (seq _ _) => apply ends_seq; [|intros ?]
  | |- ends (try_except _ _) => apply ends_try; [|intros ?]
  | |- ends (match ?x with _ => _ end) => destruct x
  | |- ends (let _ := _ in _) => cbv zeta
  | |- ends (try_ ?r) => unfold try_
  | |- ends (fails _ _) => unfold fails
  | |- ends _ => solve [eauto with ends]
  end.

Lemma ends_manifests origins : ends (fetch_manifests origins).
Proof. induction origins as [|[o v] l IH]; simpl; ends_auto. Qed.
#[export] Hint Resolve ends_manifests : ends.

Lemma ends_prefetch lock : ends (prefetch_lock lock).
Proof. unfold prefetch_lock, _require_custom_registry_entitlement_if_needed. ends_auto. Qed.

Lemma ends_resolve name lock : ends (resolve_action name lock).
Proof. unfold resolve_action. ends_auto. Qed.
#[export] Hint Resolve ends_prefetch ends_resolve : ends.

Lemma ends_collect limit a lock secrets : ends (_collect_secrets_recursive limit a lock secrets).
Proof.
  revert a secrets. induction limit as [|limit IH]; intros a secrets; simpl; [ends_auto|].
  destruct (ma_implementation a) as [? ?|d]; [ends_auto|]. generalize (add_all secrets (td_secrets d)).
  induction (td_steps d) as [|step l IHl]; intros ss; ends_auto; eauto.
Qed.
#[export] Hint Resolve ends_collect : ends.

Lemma ends_collect_manifest limit name lock : ends (collect_action_secrets_from_manifest limit name lock).
Proof. unfold collect_action_secrets_from_manifest. ends_auto. Qed.

Lemma ends_variables names env : ends (get_workspace_variables names env).
Proof. unfold get_workspace_variables. ends_auto. Qed.

Lemma ends_project str secrets : ends (project_secret_env str secrets).
Proof. unfold project_secret_env. ends_auto. Qed.
#[export] Hint Resolve ends_collect_manifest ends_variables ends_project : ends.

Section Service.
Context (elib : val -> val -> EvalLib) (str : val -> result string) (fromisoformat : string -> result val).
Context (validate_expects : val -> val -> result val) (disable_masking : bool) (limit : nat).
Context (role : Role) (input : RunActionInput).

Abbreviation invoke := (invoke_once elib str fromisoformat validate_expects disable_masking limit role input).
Abbreviation prepare := (prepare_resolved_context elib str fromisoformat disable_masking limit role input).
Abbreviation step_context := (_prepare_step_context role input).
Abbreviation invoke_step := (_invoke_step elib validate_expects role input).

Lemma ends_prepare : ends prepare.
Proof. unfold prepare_resolved_context, mint_token. ends_auto. Qed.

Lemma ends_step_context name args parent : ends (step_context name args parent).
Proof. unfold _prepare_step_context, mint_token. ends_auto. Qed.
#[local] Hint Resolve ends_prepare ends_step_context : ends.

Lemma ends_run_steps inv resolved env inputs l steps : (forall r, ends (inv r)) ->
  ends (run_steps elib role input inv resolved env inputs l steps).
Proof.
  intros Hinv. revert steps. induction l as [|step l IH]; intros steps; simpl; unfold as_execution_error; ends_auto.
Qed.

Lemma ends_template inv d resolved : (forall r, ends (inv r)) ->
  ends (_execute_template_action elib validate_expects role input inv d resolved).
Proof. intros Hinv. unfold _execute_template_action, validate_inputs. ends_auto; by apply ends_run_steps. Qed.

Lemma ends_invoke_step depth resolved : ends (invoke_step depth resolved).
Proof.
  revert resolved. induction depth as [|depth IH]; intros resolved; simpl; [ends_auto|].
  destruct (ai_impl (rc_action_impl resolved)) as [? ?|d]; [ends_auto|by apply ends_template].
Qed.
#[local] Hint Resolve ends_invoke_step : ends.

Lemma ends_invoke iteration : ends (invoke iteration).
Proof. unfold invoke_once. ends_auto. Qed.
(** What an invocation may end with. *)
Definition invocation_outcome (iteration : option Z) (r : val + xexc) : Prop :=
  match r with
  | inl _ | inr XCancelled => True
  | inr (XExecution info) => iteration = None \/ ei_loop_iteration info = iteration
  | inr _ => False
  end.

Lemma invoke_outcome iteration : organization_id role <> None ->
  total free_mon (fun r _ => invocation_outcome iteration r) tt (invoke iteration).
Proof.
  intros Ho. unfold invoke_once. destruct (organization_id role) as [o|]; [|done].
  wf_step. wf_step. eapply ends_use; [ends_auto; eauto with ends|].
  intros [[v masks]|x].
  - by wf_step.
  - wf_step. wf_step; [done|]. simpl in *. simplify_eq. destruct x; wf_step; simpl; destruct iteration; auto.
Qed.
End Service.

(** ** Steps of a program *)

Definition any_step {R} (t' t : itree execE R) : Prop := observe t = TauF t' \/ exists x, after t x t'.

Lemma total_step {R} (Q : R -> unit -> Prop) t t' : total free_mon Q tt t -> any_step t' t -> total free_mon Q tt t'.
Proof.
  intros H [Hs|[x Hs]]; unfold after in *; destruct H as [[] t a Ho HQ|[] t u Ho H|T [] t e k Ho Hb H]; rewrite Ho in Hs; try done.
  - by simplify_eq.
  - destruct Hs as (a & -> & ->). by apply (H a tt).
Qed.

Lemma total_ret_inv {R} (Q : R -> unit -> Prop) t r : total free_mon Q tt t -> observe t = RetF r -> Q r tt.
Proof. intros H Hr. destruct H as [[] t a Ho HQ|m t u Ho H|T m t e k Ho Hb H]; congruence. Qed.

(** A program that ends takes finitely many steps, whatever it is answered. *)
Lemma ends_acc {A} (p : exec A) : ends p -> Acc any_step p.
Proof.
  unfold ends. intros H. induction H as [m t a Ho HQ|m t u Ho H IH|T m t e k Ho Hb H IH]; constructor.
  - intros t' [Hs|[x Hs]]; [congruence|]. unfold after in Hs. by rewrite Ho in Hs.
  - intros t' [Hs|[x Hs]]; [|unfold after in Hs; by rewrite Ho in Hs]. rewrite Ho in Hs. by injection Hs as <-.
  - intros t' [Hs|[x Hs]]; [congruence|]. unfold after in Hs. rewrite Ho in Hs. destruct Hs as (a & -> & ->). by apply (IH a tt).
Qed.

(** A run alone, in a context of its own. *)
Definition alone_step (ctx : list (string * val)) {R} (t t' : itree execE R) : Prop :=
  observe t = TauF t' \/ exists T (e : execE T) a, after t (Act e a) t' /\ answers [] ctx e a.

Definition yields (ctx : list (string * val)) {R} (t : itree execE R) (r : R) : Prop :=
  exists t', rtc (alone_step ctx) t t' /\ observe t' = RetF r.

Lemma alone_any ctx {R} (t t' : itree execE R) : alone_step ctx t t' -> any_step t' t.
Proof. intros [?|(T & e & a & ? & _)]; [by left|right; by exists (Act e a)]. Qed.

Lemma yields_total ctx {R} (Q : R -> unit -> Prop) (t : itree execE R) r : total free_mon Q tt t -> yields ctx t r -> Q r tt.
Proof.
  intros H (t' & Hs & Hr). apply (total_ret_inv Q t'); [|done]. clear Hr.
  induction Hs as [t|t u t' Hu _ IH]; [done|]. apply IH. eapply total_step; [done|by eapply alone_any].
Qed.


(** ** Masked results *)

Section Masking.
Context (elib : val -> val -> EvalLib) (str : val -> result string) (fromisoformat : string -> result val).
Context (validate_expects : val -> val -> result val) (limit : nat).
Context (role : Role) (input : RunActionInput).

Abbreviation Secrets := (list (string * val)).

(** The secrets an invocation was given. *)
Definition secrets_given (x : interaction execE) : option Secrets :=
  match x with
  | @Act _ T e a =>
      match e in execE T return T -> option Secrets with
      | GetActionSecrets _ _ => fun r => match r with inl secrets => Some secrets | inr _ => None end
      | _ => fun _ => None
      end a
  end.

Definition mask_mon (m : list Secrets) (x : interaction execE) : verdict (list Secrets) :=
  Next (match secrets_given x with Some secrets => m ++ [secrets] | None => m end).

Lemma mask_mon_run m l : verdict_of mask_mon m l = Next (m ++ observed secrets_given l).
Proof.
  revert m. induction l as [|x l IH]; intros m; simpl; [by rewrite app_nil_r|]. rewrite IH.
  by destruct (secrets_given x); rewrite <- ?app_assoc.
Qed.

Abbreviation keeps := (stays mask_mon).

Lemma keeps_manifests m origins : keeps m (fetch_manifests origins).
Proof. induction origins as [|[o v] l IH]; simpl; repeat stays_step; done. Qed.

Lemma keeps_prefetch m lock : keeps m (prefetch_lock lock).
Proof.
  unfold prefetch_lock, _require_custom_registry_entitlement_if_needed, fails. repeat stays_step; try done. apply keeps_manifests.
Qed.

Lemma keeps_resolve_action m name lock : keeps m (resolve_action name lock).
Proof. unfold resolve_action, fails. repeat stays_step; done. Qed.

Lemma keeps_collect m n a lock secrets : keeps m (_collect_secrets_recursive n a lock secrets).
Proof.
  revert a secrets. induction n as [|n IH]; intros a secrets; simpl; unfold fails; [repeat stays_step|].
  destruct (ma_implementation a) as [? ?|d]; [repeat stays_step|]. generalize (add_all secrets (td_secrets d)).
  induction (td_steps d) as [|step l IHl]; intros ss; repeat stays_step; try done; auto.
Qed.

Lemma keeps_collect_manifest m n name lock : keeps m (collect_action_secrets_from_manifest n name lock).
Proof. unfold collect_action_secrets_from_manifest, fails. repeat stays_step; try done. apply keeps_collect. Qed.

Lemma keeps_step_context m name args parent : keeps m (_prepare_step_context role input name args parent).
Proof. unfold _prepare_step_context, mint_token, fails. repeat stays_step; try done. apply keeps_resolve_action. Qed.

Lemma keeps_try_ {A} m (r : result A) : keeps m (try_ r).
Proof. destruct r; simpl; by stays_step. Qed.

Lemma keeps_run_steps m inv resolved env inputs l steps : (forall r, keeps m (inv r)) ->
  keeps m (run_steps elib role input inv resolved env inputs l steps).
Proof.
  intros Hinv. revert steps. induction l as [|step l IH]; intros steps; simpl; unfold as_execution_error;
    repeat stays_step; auto using keeps_try_, keeps_step_context.
Qed.

Lemma keeps_invoke_step m depth resolved : keeps m (_invoke_step elib validate_expects role input depth resolved).
Proof.
  revert resolved. induction depth as [|depth IH]; intros resolved; simpl; unfold fails, _execute_template_action, validate_inputs;
    repeat stays_step; try done; unfold fails; repeat stays_step; auto using keeps_try_, keeps_run_steps.
Qed.

(** The text of a secret value. *)
Definition secret_text (secrets : Secrets) (m : string) : Prop :=
  exists k v, (k, v) ∈ traverse_leaves (VDict secrets) "" /\ v <> VNone /\ str v = Ok m.

(** A result in which no secret of two characters or more is left; one that has a star
    itself may be made up by the masks. *)
Definition clean_of (secrets : Secrets) (v : val) : Prop :=
  forall m s, secret_text secrets m -> (1 < str_len m)%nat -> no_star (String.list_ascii_of_string m) -> s ∈ strings v ->
    ~ occurs (String.list_ascii_of_string m) (String.list_ascii_of_string s).

Definition covers (masks : list string) (secrets : Secrets) : Prop :=
  forall m, secret_text secrets m -> (1 < str_len m)%nat -> m ∈ masks.

Lemma mask_values_cover secrets ms : mask_values_of str secrets = Ok ms -> covers ms secrets.
Proof.
  unfold mask_values_of. intros H m (k & v & Hin & Hv & Hs) Hlen. apply rbind_Ok in H as (ss & Hss & [= <-]).
  apply list_elem_of_In, filter_In. split; [|by apply Nat.ltb_lt]. apply list_elem_of_In, list_elem_of_omap. exists (Some m). split; [|done].
  revert ss Hss. generalize (traverse_leaves (VDict secrets) "") Hin. clear - Hv Hs.
  induction l as [|x l IH]; intros Hin ss Hss; [by apply elem_of_nil in Hin|]. cbn [rmap] in Hss.
  apply rbind_Ok in Hss as (y & Hy & Hss). apply rbind_Ok in Hss as (ys & Hys & [= <-]).
  apply elem_of_cons. apply elem_of_cons in Hin as [<-|Hin]; [left|right; by apply IH]. simpl in Hy. destruct v; try done; rewrite Hs in Hy; simpl in Hy; congruence.
Qed.

Lemma collect_masks_cover secrets l masks : _collect_mask_values str (secrets :: l) = Ok masks -> covers masks secrets.
Proof.
  unfold _collect_mask_values. cbn [rmap]. intros H. apply rbind_Ok in H as (ms & Hms & [= <-]).
  apply rbind_Ok in Hms as (m1 & H1 & Hms). apply rbind_Ok in Hms as (m2 & _ & [= <-]).
  intros m Ht Hl. simpl. apply elem_of_app. left. by eapply mask_values_cover.
Qed.

Lemma masked_covered v masks secrets : covers masks secrets ->
  clean_of secrets (match masks with [] => v | _ => apply_masks_object v masks end).
Proof.
  intros Hc m s Hm Hlen Hstar. pose proof (Hc m Hm Hlen) as Hin. destruct masks as [|x l]; [by apply elem_of_nil in Hin|].
  by apply masked_clean.
Qed.

(** What the answers seen so far ask of the masks. *)
Definition masks_known (m : list Secrets) (masks : option (list string)) : Prop :=
  forall secrets, secrets ∈ m -> exists ms, masks = Some ms /\ covers ms secrets.

Abbreviation prepare := (prepare_resolved_context elib str fromisoformat false limit role input).
Abbreviation invoke := (invoke_once elib str fromisoformat validate_expects false limit role input).

Lemma keeps_project m secrets : partial mask_mon
  (fun r m' => m' = m /\ match r with inl p => covers p.2 secrets | inr _ => True end) m (project_secret_env str secrets).
Proof.
  unfold project_secret_env. wf_step. apply (partial_weaken _ (fun r m' => m' = m /\ match r with inl p => exists l, p.2 = secrets :: l | inr _ => True end)).
  - intros [[projected sources]|x] m'; [|done]. simpl. intros [-> [l ->]]. wf_step. apply (stays_use _ _ _ _ (keeps_try_ _ _)).
    intros [env|x]; [|done]. destruct (_collect_mask_values str _) as [masks|e] eqn:E; simpl; wf_step; wf_step; [|done].
    wf_step. split; [done|]. by eapply collect_masks_cover.
  - destruct (aws_matches secrets); [wf_step; wf_step; [done|]|wf_step; split; [done|]; by exists []].
    injection H as <-. destruct r as [projected|x]; [|done]. wf_step. split; [done|]. by eexists.
Qed.

Lemma prepare_masks : partial mask_mon (fun r m => match r with inl p => masks_known m p.2 | inr _ => True end) [] prepare.
Proof.
  unfold prepare_resolved_context.
  wf_step. apply (stays_use _ _ _ _ (keeps_resolve_action _ _ _)). intros [impl|x]; [|done].
  wf_step. apply (stays_use _ _ _ _ (keeps_collect_manifest _ _ _ _)). intros [action_secrets|x]; [|done].
  wf_step. apply (stays_use _ _ _ _ (keeps_try_ _ _)). intros [collected|x]; [|done].
  wf_step. wf_step; [done|]. injection H as <-. destruct r as [secrets|x]; [|done]. simpl.
  wf_step. apply (stays_use mask_mon [secrets]).
  { unfold get_workspace_variables. repeat stays_step; done. }
  intros [vars|x]; [|done]. wf_step. wf_step; [done|]. injection H as <-. cbv zeta. simpl.
  wf_step. apply (stays_use _ _ _ _ (keeps_try_ _ _)). intros [logical_time|x]; [|done].
  wf_step. apply (stays_use _ _ _ _ (keeps_try_ _ _)). intros [evaluated_args|x]; [|done].
  destruct (workspace_id role) as [ws|]; [|unfold fails; by wf_step].
  wf_step. eapply partial_weaken; [|apply keeps_project]. intros [[env masks]|x] m'; [|done]. intros [-> Hc].
  wf_step. unfold mint_token. wf_step; [done|]. injection H as <-. simpl. destruct r as [token|x]; [|done]. wf_step. simpl.
  intros s ->%list_elem_of_singleton. by exists masks.
Qed.

Lemma invoke_masks iteration :
  partial mask_mon (fun r m => match r with inl v => forall secrets, secrets ∈ m -> clean_of secrets v | inr _ => True end) [] (invoke iteration).
Proof.
  unfold invoke_once. destruct (organization_id role) as [o|]; [|unfold fails; by wf_step].
  wf_step. wf_step. wf_step. apply (stays_use _ _ _ _ (keeps_prefetch _ _)). intros [[]|x].
  - wf_step. eapply partial_weaken; [|apply prepare_masks]. intros [[rc masks]|x] m Hm.
    + wf_step. apply (stays_use _ _ _ _ (keeps_invoke_step _ _ _)). intros [v|x].
      * wf_step. wf_step. intros secrets Hin. destruct (Hm secrets Hin) as (ms & Hms & Hc). simpl in Hms. subst masks.
        pose proof (masked_covered v ms secrets Hc). by destruct ms.
      * wf_step. wf_step; [done|]. destruct x; by wf_step.
    + wf_step. wf_step; [done|]. destruct x; by wf_step.
  - wf_step. wf_step; [done|]. destruct x; by wf_step.
Qed.

(** C12: unless masking is disabled, the result of an invocation has no secret left in its
    strings: none of the texts of two characters or more of the secrets that were fetched
    for it occurs in a string of the result, outside the keys of its mappings. *)
Theorem invocation_masks (iteration : option Z) l v secrets
    (Htrace : trace (invoke iteration) l (Some (inl v))) (Hgiven : secrets ∈ observed secrets_given l) : clean_of secrets v.
Proof.
  pose proof (invoke_masks iteration l _ Htrace) as H. rewrite mask_mon_run in H. simpl in H. by apply (H _ eq_refl).
Qed.
End Masking.

(** ** Only what the lock pins is executed *)

#[export] Instance step_eq_dec : EqDecision ActionStep.
Proof. solve_decision. Defined.
#[export] Instance template_eq_dec : EqDecision TemplateActionDefinition.
Proof. solve_decision. Defined.
#[export] Instance impl_eq_dec : EqDecision RegistryActionImpl.
Proof. solve_decision. Defined.

Section Pinned.
Context (elib : val -> val -> EvalLib) (str : val -> result string) (fromisoformat : string -> result val).
Context (validate_expects : val -> val -> result val) (disable_masking : bool) (limit : nat).
Context (role : Role) (input : RunActionInput).

Abbreviation lock := (in_registry_lock input).

(** Whether an entitlement was granted, and the manifests read. *)
Record Seen := MkSeen { entitled : bool; manifests : list (string * string * Manifest) }.

(** The lock binds the action to an origin and a version whose manifest, as it was read,
    has this implementation. *)
Definition pinned (st : Seen) (impl : ActionImplementation) : bool :=
  match dget (lock_actions lock) (ai_action_name impl) with
  | None => false
  | Some origin =>
      match dget (lock_origins lock) origin with
      | None => false
      | Some version =>
          existsb (fun '(o, v, m) =>
            bool_decide (o = origin) && bool_decide (v = version) &&
            match dget m (ai_action_name impl) with
            | Some a => bool_decide (ma_implementation a = ai_impl impl)
            | None => false
            end) (manifests st)
      end
  end.

Definition ready (st : Seen) : bool := entitled st || match custom_origins lock with [] => true | _ => false end.

Definition exec_mon (st : Seen) (x : interaction execE) : verdict Seen :=
  match x with
  | @Act _ T e a =>
      match e in execE T return T -> verdict Seen with
      | HasCustomRegistryEntitlement => fun r => Next (MkSeen (match r with inl b => entitled st || b | inr _ => entitled st end) (manifests st))
      | GetManifestEntry o v => fun r =>
          Next (match r with inl m => MkSeen (entitled st) ((o, v, m) :: manifests st) | inr _ => st end)
      | BackendExecute rc => fun _ => if ready st && pinned st (rc_action_impl rc) then Next st else Bad
      | _ => fun _ => Next st
      end a
  end.

Definition grows (st st' : Seen) : Prop :=
  (entitled st = true -> entitled st' = true) /\ forall x, x ∈ manifests st -> x ∈ manifests st'.

Lemma grows_refl st : grows st st.
Proof. by split. Qed.
Lemma grows_trans st1 st2 st3 : grows st1 st2 -> grows st2 st3 -> grows st1 st3.
Proof. intros [? ?] [? ?]. split; auto. Qed.

Lemma ready_grows st st' : grows st st' -> ready st = true -> ready st' = true.
Proof. intros [He _]. unfold ready. rewrite !orb_true_iff. intros [?|?]; auto. Qed.

Lemma pinned_grows st st' impl : grows st st' -> pinned st impl = true -> pinned st' impl = true.
Proof.
  intros [_ Hm]. unfold pinned. destruct (dget (lock_actions lock) _) as [o|]; [|done]. destruct (dget (lock_origins lock) o) as [v|]; [|done].
  intros (x & Hx & Hp)%existsb_elem. apply existsb_elem. exists x. auto.
Qed.

(** Programs that execute nothing. *)
Definition harmless {A} (p : exec A) : Prop := forall st, partial exec_mon (fun _ st' => grows st st') st p.

Lemma harmless_use {A} (Q : A + xexc -> Seen -> Prop) st (p : exec A) :
  harmless p -> (forall r st', grows st st' -> Q r st') -> partial exec_mon Q st p.
Proof. intros Hp HQ. eapply partial_weaken; [|apply Hp]. auto. Qed.

Lemma harmless_returns {A} (a : A) : harmless (returns a).
Proof. intros st. wf_step. apply grows_refl. Qed.
Lemma harmless_throws {A} x : harmless (throws x : exec A).
Proof. intros st. wf_step. apply grows_refl. Qed.
Lemma harmless_query {A} (e : execE A) : (forall st a, exec_mon st (Act e a) = Next st) -> harmless (query e).
Proof. intros He st. wf_step; rewrite He in *; [done|]. simplify_eq. apply grows_refl. Qed.
Lemma harmless_call {A} (e : execE (A + xexc)%type) :
  (forall st a, exists st', exec_mon st (Act e a) = Next st' /\ grows st st') -> harmless (call e : exec A).
Proof. intros He st. wf_step; destruct (He st r) as (st' & Hst & Hg); [congruence|]. rewrite Hst in H. by injection H as <-. Qed.
Lemma harmless_seq {A B} (p : exec A) (f : A -> exec B) : harmless p -> (forall a, harmless (f a)) -> harmless (seq p f).
Proof.
  intros Hp Hf st. wf_step. apply (harmless_use _ st p Hp). intros [a|x] st' Hg; [|done].
  apply (harmless_use _ st' _ (Hf a)). intros _ st'' Hg'. by eapply grows_trans.
Qed.
Lemma harmless_try {A} (p : exec A) h : harmless p -> (forall x, harmless (h x)) -> harmless (try_except p h).
Proof.
  intros Hp Hh st. wf_step. apply (harmless_use _ st p Hp). intros [a|x] st' Hg; [done|].
  apply (harmless_use _ st' _ (Hh x)). intros _ st'' Hg'. by eapply grows_trans.
Qed.

Lemma reads_manifest o v st a : exists st', exec_mon st (Act (GetManifestEntry o v) a) = Next st' /\ grows st st'.
Proof. eexists. split; [done|]. destruct a; [|apply grows_refl]. split; [done|]. intros x Hx. by right. Qed.

Lemma ignored_call {A} (e : execE (A + xexc)%type) : (forall st a, exec_mon st (Act e a) = Next st) -> harmless (call e : exec A).
Proof. intros He. apply harmless_call. intros st a. exists st. rewrite He. split; [done|apply grows_refl]. Qed.

Ltac harmless_auto :=
  repeat lazymatch goal with
  | |- harmless (returns _) => apply harmless_returns
  | |- harmless (throws _) => apply harmless_throws
  | |- harmless (fails _ _) => unfold fails
  | |- harmless (try_ _) => unfold try_
  | |- harmless (query _) => by apply harmless_query
  | |- harmless (call (GetManifestEntry _ _)) => apply harmless_call, reads_manifest
  | |- harmless (call _) => by apply ignored_call
  | |- harmless (seq _ _) => apply harmless_seq; [|intros ?]
  | |- harmless (try_except _ _) => apply harmless_try; [|intros ?]
  | |- harmless (match ?x with _ => _ end) => destruct x
  | |- harmless (let _ := _ in _) => cbv zeta
  end.

Lemma harmless_manifests origins : harmless (fetch_manifests origins).
Proof. induction origins as [|[o v] l IH]; simpl; harmless_auto; auto. Qed.

Lemma harmless_collect n a secrets : harmless (_collect_secrets_recursive n a lock secrets).
Proof.
  revert a secrets. induction n as [|n IH]; intros a secrets; simpl; [harmless_auto|].
  destruct (ma_implementation a) as [? ?|d]; [harmless_auto|]. generalize (add_all secrets (td_secrets d)).
  induction (td_steps d) as [|step l IHl]; intros ss; harmless_auto; auto.
Qed.

Lemma harmless_collect_manifest n name : harmless (collect_action_secrets_from_manifest n name lock).
Proof. unfold collect_action_secrets_from_manifest. harmless_auto. apply harmless_collect. Qed.

Lemma harmless_project secrets : harmless (project_secret_env str secrets).
Proof. unfold project_secret_env. harmless_auto. Qed.

Lemma dget_index m origin name :
  dget (_build_impl_index m origin) name = (fun a => MkImplementation name (ma_implementation a) origin) <$> dget m name.
Proof.
  unfold _build_impl_index. induction m as [|[k a] m IH]; simpl; [done|]. case_decide as Hk; [by subst|done].
Qed.

(** What is resolved is pinned. *)
Lemma resolve_pinned st name : partial exec_mon
  (fun r st' => grows st st' /\ match r with inl impl => pinned st' impl = true | inr _ => True end) st (resolve_action name lock).
Proof.
  unfold resolve_action, fails. destruct (dget (lock_actions lock) name) as [origin|] eqn:Ea; [|wf_step; split; [apply grows_refl|done]].
  destruct (dget (lock_origins lock) origin) as [version|] eqn:Eo; [|wf_step; split; [apply grows_refl|done]].
  wf_step. wf_step; [done|]. simpl in H. injection H as <-. destruct r as [m|x]; [|split; [apply grows_refl|done]].
  assert (grows st (MkSeen (entitled st) ((origin, version, m) :: manifests st))) as Hg by (split; [done|]; intros x Hx; by right).
  destruct (dget (_build_impl_index m origin) name) as [impl|] eqn:Ei; [|by wf_step]. wf_step. split; [done|].
  rewrite dget_index in Ei. apply fmap_Some in Ei as (a & Hm & ->). unfold pinned. simpl. rewrite Ea, Eo.
  by rewrite !bool_decide_eq_true_2, Hm, bool_decide_eq_true_2.
Qed.

Lemma prefetch_ready st : partial exec_mon
  (fun r st' => match r with inl _ => ready st' = true | inr _ => True end) st (prefetch_lock lock).
Proof.
  unfold prefetch_lock. wf_step. apply (partial_weaken _ (fun r st' => match r with inl _ => ready st' = true | inr _ => True end)).
  - intros [[]|x] st' Hr; [|done]. apply (harmless_use _ st' _ (harmless_manifests _)). intros [[]|x] st'' Hg; [|done]. by eapply ready_grows.
  - unfold _require_custom_registry_entitlement_if_needed, fails. destruct (custom_origins lock) as [|o l] eqn:E.
    + wf_step. unfold ready. by rewrite E, orb_true_r.
    + wf_step. wf_step; [done|]. simpl in H. injection H as <-. destruct r as [[]|x]; [|by wf_step|done]. wf_step.
      unfold ready. simpl. by rewrite orb_true_r.
Qed.

Abbreviation prepare := (prepare_resolved_context elib str fromisoformat disable_masking limit role input).
Abbreviation invoke_step := (_invoke_step elib validate_expects role input).
Abbreviation invoke := (invoke_once elib str fromisoformat validate_expects disable_masking limit role input).

Lemma prepare_pinned st : partial exec_mon
  (fun r st' => grows st st' /\ match r with inl p => pinned st' (rc_action_impl p.1) = true | inr _ => True end) st prepare.
Proof.
  unfold prepare_resolved_context. wf_step. eapply partial_weaken; [|apply resolve_pinned].
  intros [impl|x] st1 [Hg1 Hp]; [|by split]. 
  assert (forall A (p : exec A) st2, grows st1 st2 -> harmless p -> forall (Q : A + xexc -> Seen -> Prop),
    (forall a st3, grows st1 st3 -> Q (inl a) st3) -> (forall x st3, grows st1 st3 -> Q (inr x) st3) -> partial exec_mon Q st2 p) as Hrun.
  { intros A p st2 Hg Hh Q HQ HQ'. apply (harmless_use _ st2 p Hh). intros [a|x] st3 Hg'; [apply HQ|apply HQ']; by eapply grows_trans. }
  assert (forall x : xexc, forall st3, grows st1 st3 -> grows st st3 /\ True) as Hx by (intros x st3 H; split; [by eapply grows_trans|done]).
  assert (grows st1 st1) as Hr by apply grows_refl.
  wf_step. apply (Hrun _ _ _ Hr); [apply harmless_collect_manifest| |exact Hx]. intros action_secrets st2 H2.
  wf_step. apply (Hrun _ _ _ H2); [harmless_auto| |exact Hx]. intros collected st3 H3.
  wf_step. apply (Hrun _ _ _ H3); [harmless_auto| |exact Hx]. intros secrets st4 H4.
  wf_step. apply (Hrun _ _ _ H4); [unfold get_workspace_variables; harmless_auto| |exact Hx]. intros vars st5 H5.
  wf_step. apply (Hrun _ _ _ H5); [harmless_auto| |exact Hx]. intros ctx st6 H6. cbv zeta.
  wf_step. apply (Hrun _ _ _ H6); [harmless_auto| |exact Hx]. intros logical_time st7 H7.
  wf_step. apply (Hrun _ _ _ H7); [harmless_auto| |exact Hx]. intros evaluated_args st8 H8.
  destruct (workspace_id role) as [ws|]; [|unfold fails; wf_step; by apply (Hx XCancelled)].
  wf_step. apply (Hrun _ _ _ H8); [apply harmless_project| |exact Hx]. intros [env masks] st9 H9.
  wf_step. apply (Hrun _ _ _ H9); [unfold mint_token; harmless_auto| |exact Hx]. intros token st10 H10.
  wf_step. split; [by eapply grows_trans|]. simpl. by eapply pinned_grows.
Qed.

Lemma step_context_pinned st name args parent : partial exec_mon
  (fun r st' => grows st st' /\ match r with inl rc => pinned st' (rc_action_impl rc) = true | inr _ => True end) st
  (_prepare_step_context role input name args parent).
Proof.
  unfold _prepare_step_context, fails. destruct (organization_id role); [|wf_step; split; [apply grows_refl|done]].
  wf_step. eapply partial_weaken; [|apply resolve_pinned]. intros [impl|x] st1 [Hg Hp]; [|done].
  destruct (workspace_id role); [|by wf_step]. unfold mint_token. wf_step. wf_step; [done|]. simpl in H. injection H as <-.
  destruct r; [by wf_step|done].
Qed.

(** Steps run with their pinned implementations. *)
Lemma run_steps_pinned inv resolved env inputs l :
  (forall st rc, ready st = true -> pinned st (rc_action_impl rc) = true -> partial exec_mon (fun _ st' => grows st st') st (inv rc)) ->
  forall st steps, ready st = true -> partial exec_mon (fun _ st' => grows st st') st (run_steps elib role input inv resolved env inputs l steps).
Proof.
  intros Hinv. induction l as [|step l IH]; intros st steps Hr; simpl; [wf_step; apply grows_refl|].
  wf_step. apply (harmless_use _ st); [harmless_auto|]. intros [evaled_args|x] st1 H1; [|done].
  wf_step. eapply partial_weaken; [|apply step_context_pinned]. intros [rc|x] st2 [H2 Hp]; [|by eapply grows_trans].
  assert (grows st st2) as H12 by (by eapply grows_trans).
  wf_step. unfold as_execution_error. wf_step. eapply partial_weaken; [|apply (Hinv st2 rc); [by eapply ready_grows|done]].
  intros [v|x] st3 H3; [|destruct x; wf_step; by eapply grows_trans].
  assert (grows st st3) as H13 by (by eapply grows_trans).
  eapply partial_weaken; [|apply IH; by eapply ready_grows]. intros r st4 H4. by eapply grows_trans.
Qed.

Lemma invoke_step_pinned depth st rc : ready st = true -> pinned st (rc_action_impl rc) = true ->
  partial exec_mon (fun _ st' => grows st st') st (invoke_step depth rc).
Proof.
  revert st rc. induction depth as [|depth IH]; intros st rc Hr Hp; simpl; [unfold fails; wf_step; apply grows_refl|].
  destruct (ai_impl (rc_action_impl rc)) as [? ?|d] eqn:Ei.
  - wf_step. wf_step; simpl in *; rewrite ?Hr, ?Hp in *; [done|]. injection H as <-.
    destruct r as [[v|error]|x]; [wf_step|wf_step|]; apply grows_refl.
  - unfold _execute_template_action. wf_step. apply (harmless_use _ st).
    { unfold validate_inputs. harmless_auto. }
    intros [inputs|x] st1 H1; [|done]. wf_step. wf_step; [done|]. injection H as <-. cbv zeta.
    wf_step. eapply partial_weaken; [|apply run_steps_pinned; [exact IH|by eapply ready_grows]].
    intros [steps|x] st2 H2; [|by eapply grows_trans]. apply (harmless_use _ st2); [harmless_auto|].
    intros r st3 H3. eapply grows_trans; [|done]. by eapply grows_trans.
Qed.

Lemma invoke_pinned iteration st : partial exec_mon (fun _ _ => True) st (invoke iteration).
Proof.
  unfold invoke_once. destruct (organization_id role) as [o|]; [|unfold fails; by wf_step].
  wf_step. wf_step. wf_step. eapply partial_weaken; [|apply prefetch_ready]. intros [[]|x] st1 H1.
  - wf_step. eapply partial_weaken; [|apply prepare_pinned]. intros [[rc masks]|x] st2 [H2 Hp].
    + wf_step. eapply partial_weaken; [|apply (invoke_step_pinned limit st2 rc); [by eapply ready_grows|done]].
      intros [v|x] st3 _; [by wf_step; wf_step|]. wf_step. wf_step; [done|]. destruct x; by wf_step.
    + wf_step. wf_step; [done|]. destruct x; by wf_step.
  - wf_step. wf_step; [done|]. destruct x; by wf_step.
Qed.

(** What is seen of the calls made so far. *)
Definition manifest_read (x : interaction execE) : option (string * string * Manifest) :=
  match x with
  | @Act _ T e a =>
      match e in execE T return T -> option (string * string * Manifest) with
      | GetManifestEntry o v => fun r => match r with inl m => Some (o, v, m) | inr _ => None end
      | _ => fun _ => None
      end a
  end.

Definition entitlement (x : interaction execE) : option bool :=
  match x with
  | @Act _ T e a =>
      match e in execE T return T -> option bool with
      | HasCustomRegistryEntitlement => fun r => match r with inl b => Some b | inr _ => None end
      | _ => fun _ => None
      end a
  end.

Lemma seen_spec st l st' : verdict_of exec_mon st l = Next st' ->
  (forall x, x ∈ manifests st' -> x ∈ manifests st \/ x ∈ observed manifest_read l) /\
  (entitled st' = true -> entitled st = true \/ true ∈ observed entitlement l).
Proof.
  revert st. induction l as [|x l IH]; intros st; [intros [= <-]; by auto|]. cbn [verdict_of]. destruct (exec_mon st x) as [| |st1] eqn:E; try done.
  intros H. specialize (IH st1 H) as [IHm IHe]. clear H. destruct x as [T e a].
  destruct e; simpl in E |- *; try (injection E as <-; split; [exact IHm|exact IHe]).
  - injection E as <-. simpl in *. split; [by destruct a|]. intros [Hb|Hb]%IHe.
    + destruct a as [b|x]; [|by left]. apply orb_true_iff in Hb as [Hb|Hb]; [by left|]. right. subst. by left.
    + right. destruct a; [by right|done].
  - injection E as <-. destruct a as [m|x]; [|by split]. simpl in *. split; [|exact IHe]. intros y [Hy|Hy]%IHm; [|by right; right].
    apply elem_of_cons in Hy as [->|Hy]; [right; by left|by left].
  - destruct (_ && _); [|done]. injection E as <-. by split.
Qed.

(** C11: a backend executes an action only with an implementation that the registry lock
    pins: the lock binds the action to an origin and a version, whose manifest was read
    before and gives that implementation; and if the lock names any origin but the
    builtin registry, only after the organisation was found entitled to custom
    registries.  This holds of the steps of nested templates as well. *)
Theorem executes_pinned (iteration : option Z) l1 l2 r rc answer
    (Htrace : trace (invoke iteration) (l1 ++ Act (BackendExecute rc) answer :: l2) r) :
  (exists origin version manifest a,
     dget (lock_actions lock) (ai_action_name (rc_action_impl rc)) = Some origin /\
     dget (lock_origins lock) origin = Some version /\
     (origin, version, manifest) ∈ observed manifest_read l1 /\
     dget manifest (ai_action_name (rc_action_impl rc)) = Some a /\ ma_implementation a = ai_impl (rc_action_impl rc)) /\
  (custom_origins lock = [] \/ true ∈ observed entitlement l1).
Proof.
  pose proof (invoke_pinned iteration (MkSeen false []) _ _ Htrace) as H. rewrite verdict_app in H.
  destruct (verdict_of exec_mon (MkSeen false []) l1) as [| |st] eqn:El; [done| |].
  - exfalso. clear - El. revert El. generalize (MkSeen false []). induction l1 as [|[T e a] l IH]; intros st; [done|].
    simpl. destruct e; simpl; try apply IH. destruct (_ && _); [apply IH|done].
  - apply seen_spec in El as [Hm He]. simpl in H. destruct (ready st && pinned st (rc_action_impl rc)) eqn:Ea; [|done].
    apply andb_true_iff in Ea as [Hr Hp]. split.
    + unfold pinned in Hp. destruct (dget (lock_actions lock) _) as [origin|] eqn:E1; [|done].
      destruct (dget (lock_origins lock) origin) as [version|] eqn:E2; [|done].
      apply existsb_elem in Hp as ([[o v] m] & Hin & Hp). rewrite !andb_true_iff, !bool_decide_eq_true in Hp. destruct Hp as [[-> ->] Hp].
      destruct (dget m _) as [a|] eqn:E3; [|done]. apply bool_decide_eq_true in Hp. exists origin, version, m, a.
      split; [done|]. split; [done|]. split; [|done]. apply Hm in Hin as [Hin|Hin]; [by apply elem_of_nil in Hin|done].
    + unfold ready in Hr. apply orb_true_iff in Hr as [Hr|Hr]; [right|left; by destruct (custom_origins lock)].
      by destruct (He Hr).
Qed.
End Pinned.

(** ** How an invocation fails *)

(** C13: an invocation fails only with an [ExecutionError] that carries the iteration of
    its loop, or is cancelled: whatever was raised (an authorisation error, a missing
    entitlement or a rate limit of a service included), the activity reports a failure
    that may be retried; only the scope check before the invocation and errors outside of
    it are final. *)
Theorem invocation_errors elib str fromisoformat validate_expects disable_masking limit role input iteration l e
    (Horg : organization_id role <> None)
    (Htrace : trace (invoke_once elib str fromisoformat validate_expects disable_masking limit role input iteration) l (Some (inr e))) :
  (e = XCancelled /\ activity_failure e = ActivityCancelled) \/
  (exists info, e = XExecution info /\ (iteration = None \/ ei_loop_iteration info = iteration) /\
     activity_failure e = ApplicationFailure "ExecutionError" false).
Proof.
  pose proof (total_trace _ _ _ _ _ _ (invoke_outcome elib str fromisoformat validate_expects disable_masking limit role input iteration Horg) Htrace) as H.
  assert (verdict_of free_mon tt l = Next tt) as Hl by (clear; induction l as [|x l IH]; [done|exact IH]).
  rewrite Hl in H. specialize (H _ eq_refl). destruct e; simpl in H; try done; [right; eauto|by left].
Qed.

(** ** A concrete invocation *)

(** The backend echoes the arguments of the action, and refuses the value 0. *)
Definition ex_service (T : Type) (e : execE T) : T :=
  match e in execE T return T with
  | HasCustomRegistryEntitlement => inl false
  | GetManifestEntry _ _ => inl [("core.echo", MkManifestAction [] (UdfImpl "core" "echo"))]
  | GetActionSecrets _ _ => inl [("api", VDict [("KEY", VStr "hunter2")])]
  | SearchVariables _ _ => inl []
  | PreprocessAwsSecrets secrets => inl secrets
  | MintExecutorToken => inl "token"
  | BackendExecute rc =>
      match rc_evaluated_args rc with
      | VDict [(_, VInt 0)] => inl (inr (MkErrInfo "core.echo" "ValueError" "zero" None None))
      | v => inl (inl v)
      end
  | ExecContext => []
  end.

Definition ex_input (value : string) : RunActionInput :=
  MkInput
    (MkAction "each" "" "core.echo" [("value", VStr value)] [] VNone None
       (VStr "${{ for var.item in ACTIONS.rows.result }}") default_retry_policy (S754_zero false) None JoinALL None false)
    (MkRunContext "wf" "run" "default") VNone
    (MkLock [("tracecat_registry", "1")] [("core.echo", "tracecat_registry")]).

Definition ex_role : Role :=
  MkRole ServiceRole (Some "ws") None (Some "org") None None "tracecat-executor" false (Some {[ "action:*:execute" ]}) None None.

Definition ex_str (v : val) : result string := match v with VStr s => Ok s | _ => raise TypeError "" end.

Definition ex_invoke (input : RunActionInput) (iteration : option Z) : exec val :=
  invoke_once (fun _ _ => act_elib) ex_str (fun s => Ok (VStr s)) (fun _ v => Ok v) false 5 ex_role input iteration.

Definition ex_trace (input : RunActionInput) (iteration : option Z) : list (interaction execE) * option (val + xexc) :=
  drive (fun (_ : unit) T e => (ex_service T e, tt)) 100 tt (ex_invoke input iteration).

Lemma ex_trace_ok input iteration : trace (ex_invoke input iteration) (ex_trace input iteration).1 (ex_trace input iteration).2.
Proof. apply drive_trace. Qed.

Example ex_masked : (ex_trace (ex_input "key=hunter2") None).2 = Some (inl (VDict [("value", VStr "key=***")])).
Proof. by vm_compute. Qed.

Lemma invocation_masks_witness : clean_of ex_str [("api", VDict [("KEY", VStr "hunter2")])] (VDict [("value", VStr "key=***")]).
Proof.
  apply (invocation_masks (fun _ _ => act_elib) ex_str (fun s => Ok (VStr s)) (fun _ v => Ok v) 5 ex_role (ex_input "key=hunter2") None
           (ex_trace (ex_input "key=hunter2") None).1).
  - rewrite <- ex_masked. apply ex_trace_ok.
  - vm_compute. by left.
Defined.

(** The call of the backend is the last one. *)
Lemma executes_pinned_witness :
  exists l1 rc answer, (ex_trace (ex_input "1") None).1 = l1 ++ [Act (BackendExecute rc) answer] /\
    (exists origin version manifest a,
       dget (lock_actions (in_registry_lock (ex_input "1"))) (ai_action_name (rc_action_impl rc)) = Some origin /\
       dget (lock_origins (in_registry_lock (ex_input "1"))) origin = Some version /\
       (origin, version, manifest) ∈ observed manifest_read l1 /\
       dget manifest (ai_action_name (rc_action_impl rc)) = Some a /\ ma_implementation a = ai_impl (rc_action_impl rc)) /\
    (custom_origins (in_registry_lock (ex_input "1")) = [] \/ true ∈ observed entitlement l1).
Proof.
  pose proof (ex_trace_ok (ex_input "1") None) as Ht.
  destruct (ex_trace (ex_input "1") None) as [l r] eqn:E. vm_compute in E.
  injection E as El Er. assert (exists l1 rc answer, l = l1 ++ [Act (BackendExecute rc) answer]) as (l1 & rc & answer & ->).
  { rewrite <- El. do 3 eexists. apply (app_inj_tail_iff (_ :: _ :: _ :: _ :: _ :: _ :: _ :: [])). split; reflexivity. }
  exists l1, rc, answer. split; [done|].
  exact (executes_pinned (fun _ _ => act_elib) ex_str (fun s => Ok (VStr s)) (fun _ v => Ok v) false 5 ex_role (ex_input "1") None l1 [] r rc answer Ht).
Defined.

Definition ex_unknown : RunActionInput := MkInput (in_task (ex_input "1")) (in_run_context (ex_input "1")) VNone (MkLock [] []).

Definition ex_unbound : ErrInfo := MkErrInfo "core.echo" "RegistryError" "Action not bound in registry_lock" (Some 3) None.

Lemma invocation_errors_witness :
  (XExecution ex_unbound = XCancelled /\ activity_failure (XExecution ex_unbound) = ActivityCancelled) \/
  (exists info, XExecution ex_unbound = XExecution info /\ (Some 3 = None \/ ei_loop_iteration info = Some 3) /\
     activity_failure (XExecution ex_unbound) = ApplicationFailure "ExecutionError" false).
Proof.
  apply (invocation_errors (fun _ _ => act_elib) ex_str (fun s => Ok (VStr s)) (fun _ v => Ok v) false 5 ex_role ex_unknown (Some 3)
           (ex_trace ex_unknown (Some 3)).1); [done|].
  assert ((ex_trace ex_unknown (Some 3)).2 = Some (inr (XExecution ex_unbound))) as <- by (by vm_compute).
  apply ex_trace_ok.
Defined.

(** A lock with a custom origin in an organisation that is not entitled: the check raises
    [EntitlementRequired], and the invocation an [ExecutionError]. *)
Definition ex_custom : RunActionInput :=
  MkInput (in_task (ex_input "1")) (in_run_context (ex_input "1")) VNone (MkLock [("git+ssh://custom", "1")] [("core.echo", "git+ssh://custom")]).

Example not_entitled_retried :
  activity_failure (XOther "EntitlementRequired" "") = ApplicationFailure "EntitlementRequired" true /\
  match (ex_trace ex_custom None).2 with
  | Some (inr e) => e = XExecution (MkErrInfo "core.echo" "EntitlementRequired" "Feature 'custom_registry' requires an upgraded plan." None None) /\
      activity_failure e = ApplicationFailure "ExecutionError" false
  | _ => False
  end.
Proof. by vm_compute. Qed.
