(* ===== verification/ExecLoop.v ===== *)
(** The loops of the executor: whatever its workers do in between, a loop ends, and it
    gives what its items give one by one. *)

From ITree Require Import Core.ITreeDefinition.
From S2P Require Import Prelude PyStr Base62 Identifiers PyVal PyOps Expr Eval Authz Scopes Coro DslTypes Storage StorageFacts Interact Masks WfErrors WfEvents WfChild WfTask Activities ActivitiesFacts Executor ExecutorFacts.

(** ** What the workers leave behind *)

(** The outcome of an item as its invocation ends with it. *)
Definition raised (o : val + ErrInfo) : val + xexc := match o with inl v => inl v | inr info => inr (XExecution info) end.

Definition values_of (outs : list (val + ErrInfo)) : list val := omap (fun o => match o with inl v => Some v | inr _ => None end) outs.
Definition errors_of (outs : list (val + ErrInfo)) : list ErrInfo := omap (fun o => match o with inr e => Some e | inl _ => None end) outs.

(** What the items give one by one: all values, or all errors. *)
Definition one_by_one (outs : list (val + ErrInfo)) : val + xexc :=
  match errors_of outs with [] => inl (VList (values_of outs)) | es => inr (XLoop es) end.

Lemma seqZ_sorted m n : StronglySorted Z.le (seqZ m n).
Proof.
  destruct (decide (n <= 0)) as [Hn|Hn]; [rewrite seqZ_nil by done; constructor|].
  rewrite <- (Z2Nat.id n) by lia. generalize (Z.to_nat n) as k. intros k. revert m. induction k as [|k IH]; intros m; [constructor|].
  rewrite seqZ_cons by lia. constructor; [|apply Forall_seqZ; lia]. by replace (Z.pred (Z.of_nat (S k))) with (Z.of_nat k) by lia.
Qed.

Lemma filter_sorted {A} (R : relation A) (P : A -> Prop) `{!forall x, Decision (P x)} l : StronglySorted R l -> StronglySorted R (filter P l).
Proof.
  induction 1 as [|x l Hl IH Hx]; [constructor|]. rewrite filter_cons. case_decide; [|done].
  constructor; [done|]. rewrite Forall_forall in *. intros y [_ Hy]%list_elem_of_filter. auto.
Qed.

Lemma omap_map {A B C} (g : B -> option C) (f : A -> B) l : omap g (map f l) = omap (fun x => g (f x)) l.
Proof. induction l as [|x l IH]; simpl; [done|]. destruct (g (f x)); [f_equal|]; exact IH. Qed.

(** The errors in the order of their items. *)
Lemma sorted_in_order {A} (m : gmap Z A) n : (forall i, is_Some (m !! i) -> 0 <= i < n) ->
  omap (fun i => m !! i) (merge_sort Z.le (map fst (map_to_list m))) = omap (fun i => m !! i) (seqZ 0 n).
Proof.
  intros Hm. assert (merge_sort Z.le (map fst (map_to_list m)) = filter (fun i => is_Some (m !! i)) (seqZ 0 n)) as ->.
  { apply (StronglySorted_unique Z.le); [apply (StronglySorted_merge_sort _); exact _|apply filter_sorted, seqZ_sorted|].
    rewrite merge_sort_Permutation. apply NoDup_Permutation; [apply NoDup_fst_map_to_list|apply NoDup_filter, NoDup_seqZ|].
    intros i. rewrite list_elem_of_filter, elem_of_seqZ. split.
    - intros ([j x] & -> & Hj%elem_of_map_to_list)%list_elem_of_fmap. simpl. rewrite Hj. split; [by eexists|].
      assert (is_Some (m !! j)) as ?%Hm by (by eexists). lia.
    - intros [[x Hx] _]. apply list_elem_of_fmap. exists (i, x). split; [done|]. by apply elem_of_map_to_list. }
  induction (seqZ 0 n) as [|i l IH]; [done|]. rewrite filter_cons. case_decide as Hi.
  - destruct Hi as [x Hx]. simpl. rewrite Hx. f_equal. exact IH.
  - apply eq_None_not_Some in Hi. simpl. rewrite Hi. exact IH.
Qed.

(** Every item of a loop without failures has left a value or an error. *)
Lemma collected (s : Loop) (P : Z -> val + xexc -> Prop) (n : nat) :
  (forall i info, loop_errors s !! i = Some info -> 0 <= i < Z.of_nat n /\ P i (inr (XExecution info))) ->
  (forall i v, results s !! i = Some v -> 0 <= i < Z.of_nat n /\ loop_errors s !! i = None /\ P i (inl v)) ->
  (forall i, 0 <= i < Z.of_nat n -> is_Some (results s !! i) \/ is_Some (loop_errors s !! i)) ->
  exists outs, length outs = n /\ (forall i o, outs !! i = Some o -> P (Z.of_nat i) (raised o)) /\
    (if decide (loop_errors s = ∅) then
       match mapM (fun i => results s !! i) (seqZ 0 (Z.of_nat n)) with Some l => inl (VList l) | None => inr (XOther "KeyError" "") end
     else inr (XLoop (sorted_errors s))) = one_by_one outs.
Proof.
  intros He Hr Hall.
  set (out := fun i => match loop_errors s !! i with Some e => inr e | None => inl (default VNone (results s !! i)) end : val + ErrInfo).
  exists (map out (seqZ 0 (Z.of_nat n))). split; [by rewrite length_map, length_seqZ, Nat2Z.id|]. split.
  { intros i o (j & -> & [-> Hj]%lookup_seqZ)%list_lookup_fmap_Some_1. rewrite Z.add_0_l. unfold out. destruct (Hall (Z.of_nat i) ltac:(lia)) as [[v Hv]|[e Hi]].
    - destruct (Hr _ _ Hv) as (_ & -> & HP). by rewrite Hv.
    - rewrite Hi. by apply He. }
  assert (errors_of (map out (seqZ 0 (Z.of_nat n))) = sorted_errors s) as Hes.
  { unfold sorted_errors. rewrite (sorted_in_order _ (Z.of_nat n)) by (intros i [e Hi]; by apply (He i e)).
    unfold errors_of. rewrite omap_map. apply list_omap_ext, Forall2_same_length_lookup_2; [done|]. intros k i j Hi Hj. simplify_eq. unfold out.
    by destruct (loop_errors s !! i). }
  unfold one_by_one. rewrite Hes. case_decide as Hempty.
  - assert (sorted_errors s = []) as -> by (unfold sorted_errors; rewrite Hempty; done).
    assert (mapM (fun i => results s !! i) (seqZ 0 (Z.of_nat n)) = Some (values_of (map out (seqZ 0 (Z.of_nat n))))) as ->; [|done].
    apply mapM_Some. unfold values_of. rewrite omap_map.
    assert (Forall (fun i => is_Some (results s !! i)) (seqZ 0 (Z.of_nat n))) as Hs.
    { apply Forall_seqZ. intros i Hi. destruct (Hall i ltac:(lia)) as [?|[e H]]; [done|by rewrite Hempty, lookup_empty in H]. }
    assert (forall i, loop_errors s !! i = None) as Hn by (intros i; by rewrite Hempty, lookup_empty). clear Hes. unfold out.
    induction Hs as [|i l [v Hv] _ IH]; simpl; [constructor|]. rewrite Hn, Hv. constructor; [done|exact IH].
  - destruct (sorted_errors s) as [|e l] eqn:E; [|done]. exfalso. apply Hempty, map_eq. intros i. rewrite lookup_empty.
    destruct (loop_errors s !! i) as [e|] eqn:Hi; [|done]. exfalso. unfold sorted_errors in E.
    assert (e ∈ omap (fun i => loop_errors s !! i) (merge_sort Z.le (map fst (map_to_list (loop_errors s))))) as Hin.
    { apply list_elem_of_omap. exists i. split; [|done]. rewrite merge_sort_Permutation. apply list_elem_of_fmap. exists (i, e).
      split; [done|]. by apply elem_of_map_to_list. }
    rewrite E in Hin. by apply not_elem_of_nil in Hin.
Qed.

(** ** Loops *)

Section Loop.
Context (elib : val -> val -> EvalLib) (str : val -> result string) (fromisoformat : string -> result val).
Context (validate_expects : val -> val -> result val) (disable_masking : bool) (limit : nat).
Context (role : Role) (input : RunActionInput).

Abbreviation invoke := (invoke_once elib str fromisoformat validate_expects disable_masking limit role input).
Abbreviation pull := (pull elib str fromisoformat validate_expects disable_masking limit role input).
Abbreviation finish := (finish elib str fromisoformat validate_expects disable_masking limit role input).
Abbreviation loop_step := (loop_step elib str fromisoformat validate_expects disable_masking limit role input).

(** *** Termination *)

(** One worker moves on. *)
Definition worker_lt (w' w : worker) : Prop :=
  match w, w' with
  | Running _ _ t, Running _ _ t' => any_step t' t
  | Running _ _ _, Exited _ => True
  | _, _ => False
  end.

Definition worker_ends (w : worker) : Prop := match w with Running _ _ t => ends t | _ => True end.

Lemma worker_acc w : worker_ends w -> Acc worker_lt w.
Proof.
  assert (forall r, Acc worker_lt (Exited r)) as He by (constructor; by intros []).
  destruct w as [|i own t|r]; [by constructor; intros []| |done].
  intros H%ends_acc. revert i own. induction H as [t _ IH]. intros i own. constructor. intros [|i' own' t'|r]; simpl; [done| |done].
  intros Ht. by apply IH.
Qed.

Definition workers_lt (l' l : list worker) : Prop :=
  exists k w w', l !! k = Some w /\ l' = <[k := w']> l /\ worker_lt w' w.

Lemma workers_acc l : Forall worker_ends l -> Acc workers_lt l.
Proof.
  induction 1 as [|w l Hw Hl IHl]; [constructor; intros l' (k & w & w' & Hk & _); by destruct k|].
  apply worker_acc in Hw. clear Hl. revert w Hw. induction IHl as [l Hacc IHl]. intros w Hw. induction Hw as [w Haw IHw].
  constructor. intros l' (k & u & u' & Hk & -> & Hu). destruct k as [|k]; simpl in *.
  - injection Hk as ->. by apply IHw.
  - apply IHl; [by exists k, u, u'|]. exact (Acc_intro w Haw).
Qed.

(** The items not yet taken, and the workers that have not begun. *)
Definition is_ready (w : worker) : bool := match w with Ready => true | _ => false end.
Definition remaining (s : Loop) : nat := match source s with Err _ => 1 | Ok l => length l end.
Definition tickets (y : Loop * list worker) : nat := remaining y.1 + length (List.filter is_ready y.2).

Lemma ready_insert ws k w w' : ws !! k = Some w ->
  (length (List.filter is_ready (<[k := w']> ws)) + (if is_ready w then 1 else 0) =
   length (List.filter is_ready ws) + (if is_ready w' then 1 else 0))%nat.
Proof.
  revert k. induction ws as [|x ws IH]; intros k Hk; [done|]. destruct k as [|k]; simpl in *.
  - injection Hk as ->. destruct (is_ready w), (is_ready w'); simpl; lia.
  - specialize (IH k Hk). destruct (is_ready x); simpl; lia.
Qed.

(** A worker that goes on has taken an item. *)
Lemma pull_spec s : worker_ends (pull s).2 /\
  match (pull s).2 with
  | Ready => False
  | Running _ _ _ => (remaining (pull s).1 < remaining s)%nat
  | Exited _ => (remaining (pull s).1 <= remaining s)%nat
  end.
Proof.
  unfold Executor.pull, remaining. destruct (source s) as [[|items rest]|e] eqn:E; simpl; rewrite ?E; simpl; [auto| |auto].
  destruct (patched_context _ _); simpl; [|auto]. split; [apply ends_invoke|lia].
Qed.

Lemma finish_spec s i r : worker_ends (finish s i r).2 /\
  match (finish s i r).2 with
  | Ready => False
  | Running _ _ _ => (remaining (finish s i r).1 < remaining s)%nat
  | Exited _ => (remaining (finish s i r).1 <= remaining s)%nat
  end.
Proof. unfold Executor.finish. destruct r as [v|[info|l|m|c m|]]; try (simpl; auto; done).
  - exact (pull_spec (MkLoop (source s) (iteration_count s) (base_context s) (<[i := v]> (results s)) (loop_errors s))).
  - exact (pull_spec (MkLoop (source s) (iteration_count s) (base_context s) (results s) (<[i := info]> (loop_errors s)))).
Qed.

Lemma step_tickets y y' : Forall worker_ends y.2 -> loop_step y y' ->
  Forall worker_ends y'.2 /\ ((tickets y' < tickets y)%nat \/ tickets y' = tickets y /\ workers_lt y'.2 y.2).
Proof.
  intros Hws Hstep. destruct Hstep as [s ws k Hk|s ws k Hk Hf|s ws k i own t t' Hk Ht|s ws k i own t T e a u Hk Ha Hr|s ws k i own t r Hk Hr];
    simpl in *; unfold tickets; simpl.
  - destruct (pull_spec s) as [Hw Hm]. split; [by apply Forall_insert|]. left.
    pose proof (ready_insert ws k _ (pull s).2 Hk) as Hc. simpl in Hc. destruct (pull s).2; simpl in *; [done|lia|lia].
  - split; [by apply Forall_insert|]. left. pose proof (ready_insert ws k _ (Exited (Some XCancelled)) Hk) as Hc. simpl in Hc. lia.
  - pose proof (Forall_lookup_1 _ _ _ _ Hws Hk) as Hw. split.
    { apply Forall_insert; [done|]. simpl. eapply total_step; [exact Hw|by left]. }
    right. pose proof (ready_insert ws k _ (Running i own t') Hk) as Hc. simpl in Hc. split; [lia|].
    exists k, (Running i own t), (Running i own t'). split; [done|]. split; [done|]. by left.
  - pose proof (Forall_lookup_1 _ _ _ _ Hws Hk) as Hw. split.
    { apply Forall_insert; [done|]. simpl. eapply total_step; [exact Hw|right; by eexists]. }
    right. pose proof (ready_insert ws k _ (Running i own u) Hk) as Hc. simpl in Hc. split; [lia|].
    exists k, (Running i own t), (Running i own u). split; [done|]. split; [done|]. right. by eexists.
  - destruct (finish_spec s i r) as [Hw Hm]. split; [by apply Forall_insert|].
    pose proof (ready_insert ws k _ (finish s i r).2 Hk) as Hc. simpl in Hc.
    destruct (finish s i r).2 as [| |o] eqn:Ew; simpl in *; [done|left; lia|].
    destruct (decide (remaining (finish s i r).1 = remaining s)) as [He|He]; [right|left; lia]. split; [lia|].
    exists k, (Running i own t), (Exited o). done.
Qed.

Lemma loop_sn y : Forall worker_ends y.2 -> sn loop_step y.
Proof.
  remember (tickets y) as n eqn:Hn. revert y Hn. induction n as [n IH] using lt_wf_ind. intros [s ws] Hn Hws.
  pose proof (workers_acc ws Hws) as Hacc. revert s Hn Hws. induction Hacc as [ws _ IHws]. intros s Hn Hws.
  constructor. intros y' Hstep. destruct (step_tickets _ _ Hws Hstep) as [Hws' [Hlt|[He Hlt]]].
  - eapply IH; [|done|done]. by rewrite Hn.
  - destruct y' as [s' ws']. apply IHws; [done|congruence|done].
Qed.

(** Until all workers have ended one of them can go on. *)
Lemma loop_progress y : existsb (fun w => negb (exited w)) y.2 = true -> exists y', loop_step y y'.
Proof.
  destruct y as [s ws]. simpl. intros (w & Hw & Hx)%existsb_elem. apply list_elem_of_lookup in Hw as [k Hk].
  destruct w as [|i own t|r]; [eexists; by eapply step_start| |done].
  destruct (observe t) as [r|t'|T e h] eqn:Ho.
  - eexists. by eapply step_finish.
  - eexists. by eapply step_tau.
  - assert (exists a, answers (base_context s) own e a) as [a Ha].
    { destruct e; simpl; try by exists (inr XCancelled). by eexists. }
    eexists. eapply step_answer; [done| |exact Ha]. unfold after. rewrite Ho. by exists a.
Qed.

(** *** Isolation *)

Lemma view_nil own : view [] own = own.
Proof. unfold view. simpl. apply map_id. Qed.

(** A context that only adds the loop variables sees none of the patches of others. *)
Lemma view_own base x : NoDup (map fst base) -> dget base "var" = None -> view base (dset base "var" x) = dset base "var" x.
Proof.
  intros Hd Hv. unfold view. rewrite <- (map_id (dset base "var" x)) at 2. apply map_ext_in. intros [k v] Hin%list_elem_of_In. simpl.
  destruct (decide (k = "var")) as [->|Hk]; [by rewrite Hv|].
  pose proof (dget_in _ _ _ (dset_nodup base "var" x Hd) Hin) as Hg. rewrite dget_dset_ne in Hg by congruence. rewrite Hg. by destruct v.
Qed.

Section Isolated.
Context (base : list (string * val)) (ns : list string) (rows : list row).
Hypothesis (Hnd : NoDup (map fst base)) (Hvar : dget base "var" = None) (Hplain : plain_names ns).
Hypothesis Hrows : Forall (fun r => row_of ns r /\ r <> []) rows.
Hypothesis Horg : organization_id role <> None.

(** The context of an item. *)
Definition ctx_of (items : row) : list (string * val) := dset base "var" (VDict (bind_vars [] ns (map snd items))).

(** What the invocation of item [i] alone may end with. *)
Definition item_yields (i : Z) (r : val + xexc) : Prop :=
  exists items, rows !! Z.to_nat i = Some items /\ yields (ctx_of items) (invoke (Some i)) r.

Lemma item_outcome i r : item_yields i r -> invocation_outcome (Some i) r.
Proof. intros (items & _ & Hy). exact (yields_total _ _ _ _ (invoke_outcome _ _ _ _ _ _ _ _ (Some i) Horg) Hy). Qed.

Lemma patched_row items : items ∈ rows -> patched_context (VDict base) items = Ok (VDict (ctx_of items)).
Proof.
  intros Hin. rewrite Forall_forall in Hrows. destruct (Hrows items Hin) as [Hr Hne].
  rewrite (patched_spec ns) by done. unfold vars_of. by rewrite Hvar.
Qed.

Lemma share_row items : share (VDict base) (VDict (ctx_of items)) = VDict base.
Proof. pose proof (share_vars base (bind_vars [] ns (map snd items)) Hnd) as H. rewrite Hvar in H. exact H. Qed.

Record loop_ok (y : Loop * list worker) : Prop := {
  ok_count : 0 <= iteration_count y.1 <= Z.of_nat (length rows);
  ok_source : source y.1 = Ok (drop (Z.to_nat (iteration_count y.1)) rows);
  ok_base : base_context y.1 = base;
  ok_running : forall k i own t, y.2 !! k = Some (Running i own t) ->
    0 <= i < iteration_count y.1 /\ results y.1 !! i = None /\ loop_errors y.1 !! i = None /\
    exists items, rows !! Z.to_nat i = Some items /\ own = ctx_of items /\ rtc (alone_step own) (invoke (Some i)) t;
  ok_once : forall k k' i own own' t t', y.2 !! k = Some (Running i own t) -> y.2 !! k' = Some (Running i own' t') -> k = k';
  ok_results : forall i v, results y.1 !! i = Some v -> 0 <= i < iteration_count y.1 /\ loop_errors y.1 !! i = None /\ item_yields i (inl v);
  ok_errors : forall i info, loop_errors y.1 !! i = Some info -> 0 <= i < iteration_count y.1 /\ item_yields i (inr (XExecution info));
  ok_all : forall i, 0 <= i < iteration_count y.1 ->
    is_Some (results y.1 !! i) \/ is_Some (loop_errors y.1 !! i) \/ (exists k own t, y.2 !! k = Some (Running i own t)) \/
    exists k e, y.2 !! k = Some (Exited (Some e));
  ok_exits : forall k e, y.2 !! k = Some (Exited (Some e)) -> e = XCancelled /\ exists i, item_yields i (inr XCancelled);
  ok_end : forall k, y.2 !! k = Some (Exited None) -> iteration_count y.1 = Z.of_nat (length rows) }.

Lemma insert_other {X} (l : list X) k k' x y : <[k := x]> l !! k' = Some y -> k' = k /\ x = y \/ k' <> k /\ l !! k' = Some y.
Proof. intros [(-> & -> & _)|[Hne H]]%list_lookup_insert_Some; auto. Qed.

(** Only the worker [k], which was not running, changes. *)
Lemma running_kept (ws : list worker) k w w' k' i own t : ws !! k = Some w -> (forall i own t, w <> Running i own t) ->
  ws !! k' = Some (Running i own t) -> <[k := w']> ws !! k' = Some (Running i own t).
Proof. intros Hk Hw Hk'. rewrite list_lookup_insert_ne; [done|]. intros ->. rewrite Hk in Hk'. injection Hk' as ->. by eapply Hw. Qed.

Lemma exits_kept (ws : list worker) k w w' k' e : ws !! k = Some w -> (forall e, w <> Exited (Some e)) ->
  ws !! k' = Some (Exited (Some e)) -> <[k := w']> ws !! k' = Some (Exited (Some e)).
Proof. intros Hk Hw Hk'. rewrite list_lookup_insert_ne; [done|]. intros ->. rewrite Hk in Hk'. injection Hk' as ->. by eapply Hw. Qed.

(** A worker finds no item. *)
Lemma loop_stop_ok s ws k : loop_ok (s, ws) -> ws !! k = Some Ready -> source s = Ok [] -> loop_ok (s, <[k := Exited None]> ws).
Proof.
  intros [H1 H2 H3 H4 H5 H6 H7 H8 H9 H10] Hk Hs. simpl in *.
  assert (iteration_count s = Z.of_nat (length rows)) as Hc.
  { rewrite H2 in Hs. injection Hs as Hs%(f_equal length). rewrite length_drop in Hs. simpl in Hs. lia. }
  split; simpl; try done.
  - intros k' i own t [(-> & [=])|[_ Hk']]%insert_other. by apply (H4 k').
  - intros k1 k2 i o o' t t' [(-> & [=])|[_ Hk1]]%insert_other [(-> & [=])|[_ Hk2]]%insert_other. by eapply H5.
  - intros i Hi. destruct (H8 i Hi) as [?|[?|[(k' & o & t & Hk')|(k' & e & Hk')]]]; [auto..| |].
    + right. right. left. exists k', o, t. by eapply running_kept.
    + right. right. right. exists k', e. by eapply exits_kept.
  - intros k' e [(-> & [=])|[_ Hk']]%insert_other. by apply (H9 k').
Qed.

(** A worker takes its next item. *)
Lemma pull_ok s ws k : loop_ok (s, ws) -> ws !! k = Some Ready -> loop_ok ((pull s).1, <[k := (pull s).2]> ws).
Proof.
  intros Hok Hk. pose proof Hok as [H1 H2 H3 H4 H5 H6 H7 H8 H9 H10]. simpl in *. unfold Executor.pull. rewrite H2.
  destruct (drop (Z.to_nat (iteration_count s)) rows) as [|items rest] eqn:Ed; [by apply loop_stop_ok; rewrite ?H2|].
  set (c := iteration_count s) in *.
  assert (rows !! Z.to_nat c = Some items) as Hrow.
  { rewrite <- (Nat.add_0_r (Z.to_nat c)), <- lookup_drop, Ed. done. }
  pose proof (lookup_lt_Some _ _ _ Hrow) as Hlt.
  rewrite H3, (patched_row items) by (by eapply list_elem_of_lookup_2). rewrite share_row. cbn [get_dict fst snd].
  assert (results s !! c = None) as Hr0 by (destruct (results s !! c) eqn:E; [apply H6 in E; lia|done]).
  assert (loop_errors s !! c = None) as He0 by (destruct (loop_errors s !! c) eqn:E; [apply H7 in E; lia|done]).
  split; simpl; try done.
  - lia.
  - replace (Z.to_nat (c + 1)) with (S (Z.to_nat c)) by lia. f_equal.
    change rest with (drop 1 (items :: rest)). rewrite <- Ed, drop_drop. f_equal. lia.
  - intros k' i own t [(-> & Hw)|[_ Hk']]%insert_other.
    + injection Hw as <- <- <-. split; [lia|]. split; [done|]. split; [done|]. exists items. split; [done|]. split; [done|apply rtc_refl].
    + destruct (H4 _ _ _ _ Hk') as (? & ? & ? & ?). split; [lia|]. auto.
  - intros k1 k2 i o o' t t' [(-> & Hw)|[_ Hk1]]%insert_other [(-> & Hw')|[_ Hk2]]%insert_other; [done| | |by eapply H5].
    + injection Hw as <- _ _. apply H4 in Hk2. lia.
    + injection Hw' as <- _ _. apply H4 in Hk1. lia.
  - intros i v Hi. destruct (H6 i v Hi) as (? & ? & ?). split; [lia|]. auto.
  - intros i info Hi. destruct (H7 i info Hi) as (? & ?). split; [lia|]. auto.
  - intros i Hi. destruct (decide (i = c)) as [->|Hne].
    + right. right. left. eexists k, _, _. rewrite list_lookup_insert_eq; [done|by eapply lookup_lt_Some].
    + destruct (H8 i) as [?|[?|[(k' & o & t & Hk')|(k' & e & Hk')]]]; [lia|auto..| |].
      * right. right. left. exists k', o, t. by eapply running_kept.
      * right. right. right. exists k', e. by eapply exits_kept.
  - intros k' e [(-> & Hw)|[_ Hk']]%insert_other; [done|]. by apply (H9 k').
  - intros k' [(-> & Hw)|[_ Hk']]%insert_other; [done|]. apply H10 in Hk'. lia.
Qed.
(** A worker has ended its invocation and [rs], [es] record how. *)
Lemma settled_ok s ws k i own t rs es : loop_ok (s, ws) -> ws !! k = Some (Running i own t) ->
  (exists v, rs = <[i := v]> (results s) /\ es = loop_errors s /\ item_yields i (inl v)) \/
  (exists info, rs = results s /\ es = <[i := info]> (loop_errors s) /\ item_yields i (inr (XExecution info))) ->
  loop_ok (MkLoop (source s) (iteration_count s) (base_context s) rs es, <[k := Ready]> ws).
Proof.
  intros [H1 H2 H3 H4 H5 H6 H7 H8 H9 H10] Hk Hr. simpl in *.
  destruct (H4 _ _ _ _ Hk) as (Hi & Hri & Hei & _).
  assert (forall k' j o t', <[k := Ready]> ws !! k' = Some (Running j o t') -> k' <> k /\ ws !! k' = Some (Running j o t') /\ j <> i) as Hrun.
  { intros k' j o t' [(_ & [=])|[Hne Hk']]%insert_other. split; [done|]. split; [done|]. intros ->. apply Hne. by eapply H5. }
  assert (forall j, j <> i -> rs !! j = results s !! j /\ es !! j = loop_errors s !! j) as Hother.
  { intros j Hj. destruct Hr as [(v & -> & -> & _)|(info & -> & -> & _)]; by rewrite ?lookup_insert_ne. }
  assert (is_Some (rs !! i) \/ is_Some (es !! i)) as Hdone.
  { destruct Hr as [(v & -> & -> & _)|(info & -> & -> & _)]; rewrite lookup_insert_eq; eauto. }
  split; simpl; try done.
  - intros k' j o t' (_ & Hk' & Hj)%Hrun. destruct (Hother j Hj) as [-> ->]. eauto.
  - intros k1 k2 j o o' t1 t2 (_ & Hk1 & _)%Hrun (_ & Hk2 & _)%Hrun. by eapply H5.
  - intros j v Hj. destruct (decide (j = i)) as [->|Hne].
    + destruct Hr as [(v' & -> & -> & Hy)|(info & -> & -> & Hy)]; [|by rewrite Hri in Hj].
      rewrite lookup_insert_eq in Hj. injection Hj as <-. auto.
    + destruct (Hother j Hne) as [Ho1 Ho2]. rewrite Ho1 in Hj. rewrite Ho2. auto.
  - intros j info Hj. destruct (decide (j = i)) as [->|Hne].
    + destruct Hr as [(v' & -> & -> & Hy)|(info' & -> & -> & Hy)]; [by rewrite Hei in Hj|].
      rewrite lookup_insert_eq in Hj. injection Hj as <-. auto.
    + destruct (Hother j Hne) as [Ho1 Ho2]. rewrite Ho2 in Hj. auto.
  - intros j Hj. destruct (decide (j = i)) as [->|Hne]; [by destruct Hdone; auto|].
    destruct (Hother j Hne) as [-> ->]. destruct (H8 j Hj) as [?|[?|[(k' & o & t' & Hk')|(k' & e & Hk')]]]; [auto..| |].
    + right. right. left. exists k', o, t'. rewrite list_lookup_insert_ne; [done|]. intros ->. rewrite Hk in Hk'. congruence.
    + right. right. right. exists k', e. by eapply exits_kept.
  - intros k' e [(_ & [=])|[_ Hk']]%insert_other. by apply (H9 k').
  - intros k' [(_ & [=])|[_ Hk']]%insert_other. by apply (H10 k').
Qed.

Lemma finish_ok s ws k i own t r : loop_ok (s, ws) -> ws !! k = Some (Running i own t) -> observe t = RetF r ->
  loop_ok ((finish s i r).1, <[k := (finish s i r).2]> ws).
Proof.
  intros Hok Hk Hr. pose proof (lookup_lt_Some _ _ _ Hk) as Hlt.
  assert (item_yields i r) as Hy.
  { destruct (ok_running _ Hok _ _ _ _ Hk) as (_ & _ & _ & items & Hi & -> & Hs). exists items. split; [done|]. by exists t. }
  pose proof (item_outcome i r Hy) as Ho.
  assert (forall s', loop_ok (s', <[k := Ready]> ws) -> loop_ok ((pull s').1, <[k := (pull s').2]> ws)) as Hpull.
  { intros s' Hs'. pose proof (pull_ok s' _ k Hs' ltac:(by rewrite list_lookup_insert_eq)) as H. by rewrite list_insert_insert_eq in H. }
  unfold Executor.finish. destruct r as [v|[info|l|m|c m|]]; simpl in Ho; try done.
  - apply Hpull. eapply settled_ok; [done|done|]. left. by exists v.
  - apply Hpull. eapply settled_ok; [done|done|]. right. by exists info.
  - destruct Hok as [H1 H2 H3 H4 H5 H6 H7 H8 H9 H10]. simpl in *. split; simpl; try done.
    + intros k' j o t' [(_ & [=])|[_ Hk']]%insert_other. by eapply H4.
    + intros k1 k2 j o o' t1 t2 [(_ & [=])|[_ Hk1]]%insert_other [(_ & [=])|[_ Hk2]]%insert_other. by eapply H5.
    + intros j Hj. destruct (H8 j Hj) as [?|[?|_]]; [auto..|]. right. right. right. exists k, XCancelled. by rewrite list_lookup_insert_eq.
    + intros k' e [(_ & Hw)|[_ Hk']]%insert_other; [|by apply (H9 k')]. injection Hw as <-. split; [done|]. by exists i.
    + intros k' [(_ & [=])|[_ Hk']]%insert_other. by apply (H10 k').
Qed.

(** A running invocation goes on. *)
Lemma running_ok s ws k i own t t' : loop_ok (s, ws) -> ws !! k = Some (Running i own t) -> alone_step own t t' ->
  loop_ok (s, <[k := Running i own t']> ws).
Proof.
  intros [H1 H2 H3 H4 H5 H6 H7 H8 H9 H10] Hk Hs. simpl in *. pose proof (lookup_lt_Some _ _ _ Hk) as Hlt.
  assert (forall k' j o u, <[k := Running i own t']> ws !! k' = Some (Running j o u) ->
    exists u', ws !! k' = Some (Running j o u') /\ rtc (alone_step o) u' u) as Hrun.
  { intros k' j o u [(-> & Hw)|[_ Hk']]%insert_other; [|by exists u]. injection Hw as <- <- <-. exists t. split; [done|]. by apply rtc_once. }
  split; simpl; try done.
  - intros k' j o u (u' & Hk' & Hu)%Hrun. destruct (H4 _ _ _ _ Hk') as (? & ? & ? & items & ? & -> & Hr).
    split; [done|]. split; [done|]. split; [done|]. exists items. split; [done|]. split; [done|]. by transitivity u'.
  - intros k1 k2 j o o' t1 t2 (? & Hk1 & _)%Hrun (? & Hk2 & _)%Hrun. by eapply H5.
  - intros j Hj. destruct (H8 j Hj) as [?|[?|[(k' & o & u & Hk')|(k' & e & Hk')]]]; [auto..| |].
    + right. right. left. destruct (decide (k' = k)) as [->|Hne].
      * rewrite Hk in Hk'. injection Hk' as -> -> ->. exists k, o, t'. by rewrite list_lookup_insert_eq.
      * exists k', o, u. by rewrite list_lookup_insert_ne.
    + right. right. right. exists k', e. rewrite list_lookup_insert_ne; [done|]. intros ->. congruence.
  - intros k' e [(_ & [=])|[_ Hk']]%insert_other. by apply (H9 k').
  - intros k' [(_ & [=])|[_ Hk']]%insert_other. by apply (H10 k').
Qed.

Lemma not_failed y : loop_ok y -> existsb failed y.2 = false.
Proof.
  intros Hok. apply not_true_is_false. intros (w & Hw & Hf)%existsb_elem. apply list_elem_of_lookup in Hw as [k Hk].
  destruct w as [| |[e|]]; try done. destruct (ok_exits _ Hok _ _ Hk) as [-> _]. done.
Qed.

Lemma loop_step_ok y y' : loop_ok y -> loop_step y y' -> loop_ok y'.
Proof.
  intros Hok Hstep. destruct Hstep as [s ws k Hk|s ws k Hk Hf|s ws k i own t t' Hk Ht|s ws k i own t T e a u Hk Ha Hr|s ws k i own t r Hk Hr].
  - by apply pull_ok.
  - pose proof (not_failed _ Hok) as Hn. simpl in Hn. congruence.
  - eapply running_ok; [done|done|by left].
  - eapply running_ok; [done|done|]. right. exists T, e, a. split; [done|].
    destruct (ok_running _ Hok _ _ _ _ Hk) as (_ & _ & _ & items & _ & -> & _). pose proof (ok_base _ Hok) as Hb. simpl in Hb. rewrite Hb in Hr.
    destruct e; simpl in *; try done. rewrite Hr, view_nil. unfold ctx_of. by apply view_own.
  - by eapply finish_ok.
Qed.

Lemma loop_start_ok n : loop_ok (MkLoop (Ok rows) 0 base ∅ ∅, replicate n Ready).
Proof.
  split; simpl; intros *; rewrite ?lookup_empty; try done; try lia; intros [? ?]%lookup_replicate; done.
Qed.
(** The workers have ended. *)
Lemma loop_ends y : loop_ok y -> y.2 <> [] -> forallb exited y.2 = true ->
  (loop_outcome y = inr XCancelled /\ exists i, item_yields i (inr XCancelled)) \/
  exists outs, length outs = length rows /\ (forall i o, outs !! i = Some o -> item_yields (Z.of_nat i) (raised o)) /\
    loop_outcome y = one_by_one outs.
Proof.
  intros Hok Hne Hex. pose proof (not_failed _ Hok) as Hnf. destruct y as [s ws]. pose proof Hok as [H1 H2 H3 H4 H5 H6 H7 H8 H9 H10].
  cbn [fst snd] in *. unfold loop_outcome. rewrite Hnf. clear Hnf. rewrite forallb_forall in Hex.
  assert (forall k w, ws !! k = Some w -> exited w = true) as Hw by (intros k w Hk; by apply Hex, list_elem_of_In, list_elem_of_lookup; exists k).
  destruct (existsb _ ws) eqn:Ec.
  { left. split; [done|]. apply existsb_elem in Ec as (w & [k Hk]%list_elem_of_lookup & Hx).
    destruct w as [| |[e|]]; [done|done| |done]. exact (proj2 (H9 _ _ Hk)). }
  right. assert (forall k e, ws !! k <> Some (Exited (Some e))) as Hnone.
  { intros k e Hk. apply not_true_iff_false in Ec. apply Ec, existsb_elem. exists (Exited (Some e)). split; [|done]. by eapply list_elem_of_lookup_2. }
  assert (iteration_count s = Z.of_nat (length rows)) as Hc.
  { destruct ws as [|w ws]; [done|]. pose proof (Hw 0%nat w eq_refl) as Hx. destruct w as [| |[e|]]; [done|done|by destruct (Hnone 0%nat e)|by apply (H10 0%nat)]. }
  rewrite Hc in *. apply collected; [intros i info Hi; by apply (H7 i info)| |].
  - intros i v Hi. apply (H6 i v Hi).
  - intros i Hi. destruct (H8 i Hi) as [?|[?|[(k & o & t & Hk)|(k & e & Hk)]]]; [auto..| |by destruct (Hnone k e)].
    by apply Hw in Hk.
Qed.
End Isolated.

(** *** From the dispatch to the outcome *)

Lemma loop_steps_ok base ns rows y y' : NoDup (map fst base) -> dget base "var" = None -> plain_names ns ->
  Forall (fun r => row_of ns r /\ r <> []) rows -> organization_id role <> None ->
  rtc loop_step y y' -> loop_ok base ns rows y -> loop_ok base ns rows y' /\ length y'.2 = length y.2.
Proof.
  intros Hnd Hvar Hplain Hrows Horg. induction 1 as [y|y u y' Hs _ IH]; intros Hok; [done|].
  destruct (IH (loop_step_ok base ns rows Hnd Hvar Hplain Hrows Horg _ _ Hok Hs)) as [Hok' Hl]. split; [done|]. rewrite Hl.
  destruct Hs; simpl; by rewrite length_insert.
Qed.

(** What the invocation of item [i] of a loop ends with when it runs alone, in the
    context patched with its item. *)
Definition item_alone (base : list (string * val)) (rows : list row) (i : Z) (r : val + xexc) : Prop :=
  exists items ctx, rows !! Z.to_nat i = Some items /\ patched_context (VDict base) items = Ok (VDict ctx) /\
    yields ctx (invoke (Some i)) r.

Lemma item_yields_alone base ns rows i r : dget base "var" = None -> plain_names ns ->
  Forall (fun r => row_of ns r /\ r <> []) rows -> item_yields base ns rows i r -> item_alone base rows i r.
Proof.
  intros Hvar Hplain Hrows (items & Hi & Hy). exists items, (ctx_of base ns items). split; [done|]. split; [|done].
  eapply patched_row; [done|done|done|]. by eapply list_elem_of_lookup_2.
Qed.

Abbreviation dispatch := (dispatch_action elib str fromisoformat validate_expects disable_masking limit).

Lemma dispatch_loops exec_context mc y0 : dispatch (Some role) input exec_context mc = Looping y0 ->
  exists its, get_iterables_from_expression (elib VNone VNone) (VDict exec_context) (for_each (in_task input)) = Ok its /\
    y0 = (MkLoop (zip_iterators its) 0 exec_context ∅ ∅, replicate (Z.to_nat (Z.max 1 mc)) Ready).
Proof.
  unfold dispatch_action. destruct (require_action_scope _ _); [|done]. destruct (negb _); [done|].
  destruct (get_iterables_from_expression _ _ _) as [its|]; [|done]. intros [= <-]. by exists its.
Qed.

(** C9: a loop of the executor, however its workers interleave and whatever the services
    answer: when all workers have ended, it gives the list of what the invocation of each
    item gives alone in its own context, in the order of the items, or, if some failed,
    the errors of exactly those, in that order; the only other outcome is a cancellation
    that an item received. *)
Theorem dispatched_loop (exec_context : list (string * val)) (max_concurrency : Z) (y0 y : Loop * list worker) (rows : list row)
    (Hdispatch : dispatch (Some role) input exec_context max_concurrency = Looping y0)
    (Horg : organization_id role <> None)
    (Hcontext : NoDup (map fst exec_context) /\ dget exec_context "var" = None)
    (Hover : loop_over (elib VNone VNone) (VDict exec_context) (for_each (in_task input)) rows)
    (Hsteps : rtc loop_step y0 y) (Hend : forallb exited y.2 = true) :
  (loop_outcome y = inr XCancelled /\ exists i, item_alone exec_context rows i (inr XCancelled)) \/
  exists outs, length outs = length rows /\
    (forall i o, outs !! i = Some o -> item_alone exec_context rows (Z.of_nat i) (raised o)) /\
    loop_outcome y = one_by_one outs.
Proof.
  destruct Hcontext as [Hnd Hvar], Hover as (its & Hits & Hzip & ns & Hns & _ & Hplain).
  apply dispatch_loops in Hdispatch as (its' & Hits' & ->). rewrite Hits in Hits'. injection Hits' as <-. rewrite Hzip in Hsteps.
  assert (Forall (fun r => row_of ns r /\ r <> []) rows) as Hrows by (apply Forall_forall; intros r Hr; by eapply zip_rows).
  pose proof (loop_start_ok exec_context ns rows (Z.to_nat (Z.max 1 max_concurrency))) as H0.
  destruct (loop_steps_ok exec_context ns rows _ y Hnd Hvar Hplain Hrows Horg Hsteps H0) as [Hok Hl].
  assert (y.2 <> []) as Hne. { intros E. rewrite E in Hl. cbn [snd] in Hl. rewrite length_replicate in Hl. cbn [length] in Hl. lia. }
  destruct (loop_ends exec_context ns rows y Hok Hne Hend) as [[Ho [i Hi]]|(outs & Hlen & Ho & Hy)]; [left|right].
  - split; [done|]. exists i. by eapply item_yields_alone.
  - exists outs. split; [done|]. split; [|done]. intros i o Hi. eapply item_yields_alone; [done..|]. by apply Ho.
Qed.

(** C10: a loop of the executor ends: no schedule of its workers is infinite, whatever the
    services answer, and as long as a worker has not ended one of them can go on; also
    when evaluating an item fails and the others are cancelled. *)
Theorem loop_terminates (exec_context : list (string * val)) (max_concurrency : Z) (y0 : Loop * list worker)
    (Hdispatch : dispatch (Some role) input exec_context max_concurrency = Looping y0) :
  sn loop_step y0 /\
  forall y, rtc loop_step y0 y -> forallb exited y.2 = true \/ exists y', loop_step y y'.
Proof.
  apply dispatch_loops in Hdispatch as (its & _ & ->). split.
  - apply loop_sn, Forall_forall. by intros w [-> _]%elem_of_replicate.
  - intros y _. destruct (forallb exited y.2) eqn:E; [by left|right]. apply loop_progress.
    apply not_false_iff_true. intros Hx. apply not_true_iff_false in E. apply E, forallb_forall. intros w Hw.
    apply not_false_is_true. intros Hw'. apply not_true_iff_false in Hx. apply Hx, existsb_exists. exists w. by rewrite Hw'.
Qed.
End Loop.

(** ** A concrete loop *)

Section Run.
Context (elib : val -> val -> EvalLib) (str : val -> result string) (fromisoformat : string -> result val).
Context (validate_expects : val -> val -> result val) (disable_masking : bool) (limit : nat).
Context (role : Role) (input : RunActionInput).
(** The services, but for the context. *)
Context (service : forall T, execE T -> T).

Definition service_answer (base own : list (string * val)) {T} (e : execE T) : T :=
  match e in execE T return T -> T with
  | ExecContext => fun _ => view base own
  | _ => fun a => a
  end (service T e).

(** Worker [k] makes a step, if it can. *)
Definition run_worker (k : nat) (y : Loop * list worker) : Loop * list worker :=
  let '(s, ws) := y in
  match ws !! k with
  | Some Ready =>
      let p := pull elib str fromisoformat validate_expects disable_masking limit role input s in (p.1, <[k := p.2]> ws)
  | Some (Running i own t) =>
      match observe t with
      | RetF r => let p := finish elib str fromisoformat validate_expects disable_masking limit role input s i r in (p.1, <[k := p.2]> ws)
      | TauF t' => (s, <[k := Running i own t']> ws)
      | VisF e h => (s, <[k := Running i own (h (service_answer (base_context s) own e))]> ws)
      end
  | _ => y
  end.

Definition run_schedule (ks : list nat) (y : Loop * list worker) : Loop * list worker := foldl (fun y k => run_worker k y) y ks.

Lemma run_schedule_rtc ks y :
  rtc (loop_step elib str fromisoformat validate_expects disable_masking limit role input) y (run_schedule ks y).
Proof.
  revert y. induction ks as [|k ks IH]; intros y; [apply rtc_refl|]. cbn [run_schedule foldl]. etrans; [|apply IH].
  destruct y as [s ws]. simpl. destruct (ws !! k) as [[|i own t|r]|] eqn:Hk; [|  |apply rtc_refl..].
  - apply rtc_once. by apply step_start.
  - apply rtc_once. destruct (observe t) as [r|t'|T e h] eqn:Ho.
    + by eapply step_finish.
    + by eapply step_tau.
    + eapply (step_answer _ _ _ _ _ _ _ _ s ws k i own t T e); [done| |].
      * unfold after. rewrite Ho. eexists. done.
      * by destruct e.
Qed.
End Run.


Abbreviation ex_loop := (ex_input "${{ var.item }}").

Definition ex_context (items : list val) : list (string * val) := [("ACTIONS", VDict [("rows", VDict [("result", VList items)])])].

Definition ex_dispatch (context : list (string * val)) : dispatched :=
  dispatch_action (fun _ _ => act_elib) ex_str (fun s => Ok (VStr s)) (fun _ v => Ok v) false 5 (Some ex_role) ex_loop context 2.

Definition ex_run (context : list (string * val)) (ks : list nat) : Loop * list worker :=
  match ex_dispatch context with
  | Looping y => run_schedule (fun _ _ => act_elib) ex_str (fun s => Ok (VStr s)) (fun _ v => Ok v) false 5 ex_role ex_loop ex_service ks y
  | _ => (MkLoop (Ok []) 0 [] ∅ ∅, [])
  end.

(** The workers take turns. *)
Definition turns (n : nat) : list nat := concat (replicate n [0; 1]%nat).

Definition echoed (n : Z) : val := VDict [("value", VInt n)].
Definition ex_failure (i n : Z) : ErrInfo := MkErrInfo "core.echo" "ValueError" "zero" (Some i) (Some (VDict [("item", VInt n)])).

Example loop_of_values : loop_outcome (ex_run (ex_context [VInt 1; VInt 2; VInt 3]) (turns 40)) = inl (VList [echoed 1; echoed 2; echoed 3]).
Proof. by vm_compute. Qed.

Example loop_of_errors : loop_outcome (ex_run (ex_context [VInt 0; VInt 2; VInt 0]) (turns 40)) = inr (XLoop [ex_failure 0 0; ex_failure 2 0]).
Proof. by vm_compute. Qed.

(** A context that already has loop variables is shared by the workers: the second item
    replaces the first while its arguments are still to be evaluated. *)
Example shared_variables_race :
  loop_outcome (ex_run (ex_context [VInt 1; VInt 2] ++ [("var", VDict [])]) (turns 40)) = inl (VList [echoed 2; echoed 2]).
Proof. by vm_compute. Qed.

Lemma ex_exited : forallb exited (ex_run (ex_context [VInt 1; VInt 2]) (turns 40)).2 = true.
Proof. by vm_compute. Qed.

Definition ex_start (items : list val) : Loop * list worker := match ex_dispatch (ex_context items) with Looping y => y | _ => (MkLoop (Ok []) 0 [] ∅ ∅, []) end.

Abbreviation ex_alone := (item_alone (fun _ _ => act_elib) ex_str (fun s => Ok (VStr s)) (fun _ v => Ok v) false 5 ex_role ex_loop).
Abbreviation ex_step := (loop_step (fun _ _ => act_elib) ex_str (fun s => Ok (VStr s)) (fun _ v => Ok v) false 5 ex_role ex_loop).

Lemma dispatched_loop_witness :
  let context := ex_context [VInt 1; VInt 2] in
  let rows := [[(".item", VInt 1)]; [(".item", VInt 2)]] in
  let y := ex_run context (turns 40) in
  (loop_outcome y = inr XCancelled /\ exists i, ex_alone context rows i (inr XCancelled)) \/
  exists outs, length outs = 2%nat /\ (forall i o, outs !! i = Some o -> ex_alone context rows (Z.of_nat i) (raised o)) /\
    loop_outcome y = one_by_one outs.
Proof.
  intros context rows y.
  apply (dispatched_loop (fun _ _ => act_elib) ex_str (fun s => Ok (VStr s)) (fun _ v => Ok v) false 5 ex_role ex_loop
           context 2 (ex_start [VInt 1; VInt 2]) y rows); [by vm_compute|done| | | |exact ex_exited].
  - split; [|by vm_compute]. vm_compute. apply NoDup_singleton.
  - eexists. split; [vm_compute; reflexivity|]. split; [vm_compute; reflexivity|]. exists ["item"].
    split; [done|]. split; [apply NoDup_singleton|]. repeat constructor; by vm_compute.
  - apply run_schedule_rtc.
Defined.

Lemma loop_terminates_witness :
  sn ex_step (ex_start [VInt 1; VInt 0]) /\
  forall y, rtc ex_step (ex_start [VInt 1; VInt 0]) y -> forallb exited y.2 = true \/ exists y', ex_step y y'.
Proof. apply (loop_terminates _ _ _ _ _ _ _ _ (ex_context [VInt 1; VInt 0]) 2). by vm_compute. Defined.
